(* ===== verification/_CoqProject ===== *)
-Q . S2P
Prelude.v
Timeline.v
Net.v
Json.v
Identity.v
SocketProtocol.v
StateLog.v
StorageUrls.v
Sandbox.v
SandboxCommand.v
ProviderProcesses.v
Tokens.v
Database.v
Leases.v
LocalLeases.v
LeaseMaintenance.v
HostProcess.v
Admin.v
Placement.v
ControlPlane.v
ControlPlaneSafety.v
ProvisioningTelemetry.v
SocketGateway.v
PublicApi.v
ResolutionTelemetry.v
HttpRouter.v
ControlPlaneProcess.v
Entry.v
Fencing.v
Schema.v
Routing.v
Executor.v
HostStartup.v
StartupTelemetry.v
ExecutionGate.v
ActorHost.v
HostRuns.v
HostSafety.v
Telemetry.v
Activity.v
System.v
Lineage.v
Residency.v
Tenure.v
HostService.v
SocketDelivery.v
