(* ===== verification/Prelude.v ===== *)
(** * Verification of the little-durable-objects runtime

    This library models the Rust program under [src/src/] (the paths below
    leave that prefix out) and proves what makes it correct.  The file of the
    list [_CoqProject] that comes first is this one: the prelude, with the
    results, monads, integers, strings, tactics and lemmas all others share.

    ** The program

    A *namespace* runs one deployed revision of a customer's code.  An *actor*
    (namespace, type, id) has a JSON state; its *placement*, a row of
    PostgreSQL, says which host owns it, in which *epoch*, and which *snapshot*
    in object storage is its state, with its version.  A *host* is a process
    that holds a *lease*, another row, and runs methods of its actors in a
    JavaScript process.  The *control plane* executes the commands of hosts
    (lease, prepare a write, commit a state), routes callers to the owner of an
    actor, provisions hosts through a *sandbox provider*, and holds the
    WebSockets whose events it hands to actors.  Safety rests on three guards:
    one unexpired session per host id, the epoch a commit must name, and the
    version it must extend.

    ** Files and the code they model

    - [Timeline]: the latency timelines of the events below, as a layer over the
      programs that are timed.
    - [Net], [Json]: the third-party URL, UUID, gRPC-status and JSON interfaces,
      as classes, with small instances to evaluate the models.
    - [Identity] ([actor/protocol.rs], [actor_state.rs], [host.rs]): actor keys,
      storage keys, names and their validation.
    - [SocketProtocol] ([actor/socket.rs], head of
      [actor/executor_connection.rs]): messages, events, effects.
    - [StateLog] ([state_log.rs]): snapshots, encoding, replay.
    - [StorageUrls] ([storage_urls.rs], [state_transport.rs]): object names,
      bucket map, signed reads and write tickets, status handling.
    - [Sandbox] ([sandbox.rs]): the provider's trait and messages;
      [SandboxCommand] ([sandbox.rs]): the provider that runs a command, its checks
      and a command that is run once; [ProviderProcesses]
      ([sandbox/command_process.rs]): the pool of persistent processes.
    - [Tokens] ([control_plane/auth.rs], [control_plane/issuer.rs]): issuing and
      verifying JWTs, principals and what they are allowed.
    - [Database] ([postgres.rs], [migrations/V1__initial.sql]): the tables, every
      SQL statement of the code, and the client that sends them.
    - [Leases] ([host_leases.rs], [host_leases/postgres.rs]) and [Placement]
      ([placement.rs]): the stores over the tables, and the in-memory one;
      [LocalLeases] ([host_leases/local.rs]): the lease store that keeps files.
    - [LeaseMaintenance] ([host/lease_maintenance.rs], [clock.rs]): the renewal
      loop, over any registry with the laws [LeaseRegistryLaws]; the PostgreSQL
      store is an instance.
    - [HostProcess] ([host/process.rs]): configuration, route, the loop that
      stops the host, the order of starting and stopping.
    - [Admin] ([control_plane/admin.rs]): deployments and their two registries.
    - [ControlPlane] ([control_plane/service.rs], [protocol.rs], [client.rs]):
      commands, routing, socket dispatch, provisioning, and the hosts' client;
      [ControlPlaneSafety] holds its theorems.
    - [SocketGateway] ([control_plane/websocket.rs], [event_sink.rs]): the
      registry of sockets and a connection's task.
    - [PublicApi] ([control_plane/public_api.rs], [socket_auth.rs]): the HTTP
      handlers and the external authorization of sockets; [HttpRouter]: the
      routing tables, what the handlers' parameters are extracted from, and the
      responses.
    - [ControlPlaneProcess] ([control_plane/process.rs], [main.rs],
      [npm/providers/modal.ts]): configuration and assembly, and the environment
      a provisioned host gets; [Entry] ([main.rs]): the choice of the process,
      serving, and the signal that ends it.
    - [Fencing]: all processes over the shared tables as one transition system,
      with the abstract [Ledger] it refines; [Schema]: the types its columns keep;
      [Routing]: how long routing can go on.
    - [Executor] ([actor/executor_connection.rs]): the connection to the
      JavaScript process; [HostStartup] (the listener of the same file, and
      [host/process.rs]): how a host binds, attaches the process and joins what
      it waits for, and how the renewal is shut down.
    - [ExecutionGate] ([actor_state/actor.rs]): the per-actor gates.
    - [ActorHost] ([host/actor_host.rs]): invocations, socket events,
      publication and resident state; [HostRuns] describes its runs call by
      call and [HostSafety] holds its theorems.  [Activity] interleaves the
      operations of one host with its drain.
    - [Telemetry] ([host/actor_host.rs]), [ResolutionTelemetry]
      ([control_plane/public_api.rs], [service.rs]), [ProvisioningTelemetry]
      ([control_plane/service.rs]) and [StartupTelemetry] ([host/process.rs]): the
      completion events [actor_host_invocation], [actor_state_write],
      [actor_target_resolution], [actor_host_provisioning] and
      [actor_host_startup] with their milestones.
    - [System] (the [StateCommitAuthority] of [host/actor_host.rs] and the HTTP
      transport of [state_transport.rs]): the parts put together.  The
      environment [HostEnv] of a host is instantiated by [ControlPlaneClient]
      calling [ControlPlaneService] on the shared tables, and by object storage.
      [Lineage] follows the snapshots through all the runs of such a host, and
      [Residency] ([npm/host/worker/supervisor.ts], [runtime.ts]) puts the
      JavaScript process behind the connection of [Executor] under it;
      [Tenure] runs the renewal of a host's lease against that service, with the
      token each registration replaces.
    - [HostService] ([grpc/service.rs], [grpc/wire.rs]): the host's gRPC service
      and wire format; [SocketDelivery] ([send_socket_event] of
      [control_plane/service.rs]): the control plane's calls of it.

    A file's names are the source's; where two records of the source share a
    field name the model's field carries a prefix.

    ** How the code is modelled

    - [Result E A] and [M S E A] (state passing that keeps the state on errors)
      carry the code's early returns; [anyhow::Error] is its context chain.
    - Integers are [Z] with the source's checked, saturating and converting
      operations written out ([u64_checked_add], [i64_saturating_add], ...).
      Durations are nanoseconds.
    - Strings are their UTF-8 bytes, with [str::len] in bytes; [trim] and
      [char::is_control] decode them and know Unicode's white space.
    - A HashMap is a [gmap]; code that iterates one follows [map_to_list].
    - Concurrency is explicit.  [Fencing] interleaves single statements;
      [ExecutionGate] and [ProviderProcesses] interleave the steps of tasks (and
      of child processes); in [Database] each
      statement of a client first lets *other* clients act ([others]) and may
      fail before or after it took effect; [LeaseMaintenance], [SocketGateway]
      and [HostProcess] run a task over a script of the turns its [select!]
      takes; [Activity] interleaves the statements of operations that begin and
      end with those of the drain.  One invocation of an actor on a host is
      sequential because of the gate, whose exclusion is a theorem.

    ** What the theorems show

    - *Stores*: every client call is a sequence of steps of [Fencing]
      ([store_operations_are_steps]), every step is one of the ledger
      ([stores_refine_ledger]); hence histories are linear, an old epoch never
      commits again, two sessions never hold one lease, and every row the
      tables can reach is one the stores read ([reachable_rows_decode]).  The
      lease store in files answers as the one over the tables
      ([lease_stores_agree]).
    - *Hosts*: an answered method is durable and its state committed after its
      upload, a retried request with a commit in doubt runs once, a refused one
      has no effect; the run of an invocation is the specification's.  Once a
      host has drained no method runs on it any more ([drain_is_final]); what its
      published count may say meanwhile is shown by concrete runs.
    - *Leases*: the window a host trusts ends with its stamped lease but for the
      truncation of two clocks to milliseconds ([TRUNCATION], two of them), and
      the host stops when it ends; until then the tables hold its lease and the
      control plane accepts its token ([tenured_host_is_believed]).
    - *Control plane*: commands act for their sender only, and leave every row
      but those they name ([commands_are_confined]); a routed actor has a live
      owner, "committed" is durable; routing ends ([routing_terminates]).
    - *Access*: tokens, the gRPC service and the HTTP endpoints refuse what they
      were not issued for, and accept what was issued for them; over the whole
      public surface a request without its endpoint's credential changes nothing
      ([requests_need_their_credential]).
    - *The whole*: an invocation a host answers as completed is found in the
      tables and in object storage, through client, network, service and
      statements ([completed_reaches_the_database]).  The class [FaithfulEnv] says
      that each operation of a host's environment is a step of its world; the
      assembled cloud satisfies it for the tables and the stored objects, and for
      the process with its instances.  Every state a host commits was computed by
      the actor's code on an instance that holds the very state the version
      before it has in the tables and in object storage, other hosts writing
      meanwhile ([no_update_is_lost]); this needs that no actor comes back in
      another epoch to a process that still holds it, and
      [epoch_return_runs_on_the_old_instance] shows what happens when one does.
    - *Sockets*: a connection's life cycle, the reach of effects, the reply that
      belongs to a command, hydration of an actor the process dropped, the event
      that reaches the host of its target as it was sent.
    - *Providers*: a pooled process never answers one command with the line of
      another; a failed command's timings tell how far it came.
    - *Processes*: an accepted configuration holds a lease or assembles, a host
      is given an environment it accepts, the executor attaches through a socket
      that replaces nothing but a socket and is gone once a peer was accepted, and
      waits for ever when nobody attaches ([executor_attaches_once]), and it stops
      for a reason only.

    - *Telemetry*: measuring changes no call, state or answer
      ([timings_change_nothing]); an event's milestones are in order and are the
      path that was taken ([timeline_tells_the_path] for invocations and state
      writes, [resolution_tells_its_path], [provisioning_logged],
      [startup_tells_its_path]).

    ** Bounds and fuel

    [ControlPlane.route_actor] retries without a bound in the source; the model
    has fuel.  [routing_rounds_are_takeovers] shows that every round but the
    last is a takeover by another client, and each takeover raises the epoch of
    the row, a column of 64 bits, so [routing_terminates] gives a fuel with which
    routing ends, and more fuel changes nothing.  [ControlPlane.dispatch_attempts] hands the
    same fuel on.  Loops over scripts and schedules are structural.

    ** Assumptions

    Each SQL statement is atomic at one reading of the server's clock; what
    READ COMMITTED allows a statement over two tables (a commit reads the lease
    of the row it updates) beyond that is not modelled; the JWT, URL, UUID, base64, JSON and protobuf libraries are parameters, with
    their documented laws as classes ([JwtLaws], [Base64Laws], ...) or named
    hypotheses, all instantiated in the witnesses; tokio's mutex is fair and its
    semaphore counts; moka's caches are maps whose entries may expire at any
    time; axum refuses with an error status and reads no body over its limit;
    deadpool lends an object that [recycle] accepts or a new one within its
    size; a provider process writes at most a line per line it is given; an exchange over the network ([System.Delivery]) arrives, is lost on
    its way there or on its way back; object storage does not replace or lose an
    object that was put under a signed URL for the name it signs; a host's
    monotonic clock and the server's run at one rate.  [Tenure] besides takes the
    exchange of a registration to happen at one moment of the server's clock, a
    host's token to be replaced by its registrations only, and clocks below 2^62
    milliseconds.  [Residency] takes an actor's instance to change only while its
    code runs, commands of different actors to reach the process one after the
    other, storage keys to tell a host's actors apart, and the messages that
    evict an actor to fit the connection.  A host's operations run to completion:
    a request that is cancelled halfway is not modelled.

    ** What is not modelled

    Database connection pools, TLS and migrations; the operating system beyond
    the answers its files, sockets, pipes and signals give; log lines other than
    the latency events, and the conversion of their offsets to milliseconds; how axum matches a path, decodes a body and checks a handshake
    (the parameters of [HttpRouter.Axum]) and tonic's side of the same listener;
    the cache of gRPC channels; the GCS signer; generated protobuf code; the
    TypeScript SDK, which is customer code, and the sandbox provider; of the
    JavaScript process, when its Workers are dropped or fail.

    ** Automation

    [inv_ok] inverts a successful run of [Result], [bool_prop] splits boolean
    guards, [respecting] proves that a state program keeps a preorder; the hint
    databases [statements] (Database) and [stepwise] (Fencing) hold the lemmas
    on single statements. *)
From Stdlib Require Export ZArith Lia.
From Stdlib Require Export Ascii.
From Corelib Require Init.Byte.
From stdpp Require Export base strings gmap list pretty.

#[export] Set Default Goal Selector "!".
Local Open Scope string_scope.

Declare Scope rust_scope.
Delimit Scope rust_scope with rust.

(** ** Results

    [Result E A] is [std::result::Result<A, E>].  [anyhow::Error] is modelled
    as its context chain, outermost message first: [{}] prints the head and
    [{:#}] prints the chain separated by [": "]. *)

Inductive Result (E A : Type) : Type :=
| Ok (value : A)
| Err (error : E).
Arguments Ok {E A} value.
Arguments Err {E A} error.

Definition Error : Type := list string.
Abbreviation anyhow := (Result Error).

#[export] Instance result_ret E : MRet (Result E) := fun A x => Ok x.
#[export] Instance result_bind E : MBind (Result E) := fun A B f r =>
  match r with Ok x => f x | Err e => Err e end.

#[export] Instance Result_eq_dec {E A} `{!EqDecision E, !EqDecision A} :
  EqDecision (Result E A).
Proof. solve_decision. Defined.

Definition is_ok {E A} (r : Result E A) : bool :=
  match r with Ok _ => true | Err _ => false end.

Definition result_ok {E A} (r : Result E A) : option A :=
  match r with Ok x => Some x | Err _ => None end.

Definition map_err {E F A} (f : E -> F) (r : Result E A) : Result F A :=
  match r with Ok x => Ok x | Err e => Err (f e) end.

(** [anyhow::ensure!], [anyhow::bail!], [Context::context] on results and
    options. *)
Definition bail {A} (msg : string) : anyhow A := Err [msg].
Definition ensure (b : bool) (msg : string) : anyhow () :=
  if b then Ok () else bail msg.
Definition with_context {A} (msg : string) (r : anyhow A) : anyhow A :=
  map_err (cons msg) r.
Definition some_or {A} (msg : string) (o : option A) : anyhow A :=
  match o with Some x => Ok x | None => bail msg end.

(** [error.to_string()] and [format!("{error:#}")]. *)
Definition to_string (e : Error) : string :=
  match e with [] => "" | m :: _ => m end.
Fixpoint alternate (e : Error) : string :=
  match e with
  | [] => ""
  | [m] => m
  | m :: e' => m +:+ ": " +:+ alternate e'
  end.

(** ** State passing with early return

    A Rust method that mutates its receiver and may leave through [?] keeps
    the mutations made so far, so the state is returned on both branches. *)

Definition M (S E A : Type) : Type := S -> S * Result E A.

#[export] Instance M_ret S E : MRet (M S E) := fun A x s => (s, Ok x).
#[export] Instance M_bind S E : MBind (M S E) := fun A B f c s =>
  match c s with
  | (s', Ok x) => f x s'
  | (s', Err e) => (s', Err e)
  end.

Definition lift {S E A} (r : Result E A) : M S E A := fun s => (s, r).
Definition get {S E} : M S E S := fun s => (s, Ok s).
Definition gets {S E A} (f : S -> A) : M S E A := fun s => (s, Ok (f s)).
Definition modify {S E} (f : S -> S) : M S E () := fun s => (f s, Ok ()).
(** Run [c] and hand its outcome, an error included, to the continuation. *)
Definition attempt {S E F A} (c : M S E A) : M S F (Result E A) := fun s =>
  let '(s', r) := c s in (s', Ok r).

(** [.context(msg)] on an awaited call. *)
Definition M_context {S A} (msg : string) (c : M S Error A) : M S Error A := fun st =>
  let '(st', r) := c st in (st', with_context msg r).

(** ** Machine integers

    [u64], [i64] (PostgreSQL [BIGINT] included) and [usize] values are [Z]
    together with their range; the checked and saturating operations of the
    source carry the bounds explicitly. *)

Definition u64_max : Z := 2 ^ 64 - 1.
Definition i64_max : Z := 2 ^ 63 - 1.
Definition i64_min : Z := - 2 ^ 63.

Definition is_u64 (z : Z) : bool := (0 <=? z)%Z && (z <=? u64_max)%Z.
Definition is_i64 (z : Z) : bool := (i64_min <=? z)%Z && (z <=? i64_max)%Z.

Definition u64_checked_add (a b : Z) : option Z :=
  if (a + b <=? u64_max)%Z then Some (a + b)%Z else None.
Definition u64_saturating_add (a b : Z) : Z := Z.min (a + b) u64_max.
Definition u64_saturating_sub (a b : Z) : Z := Z.max (a - b) 0.
Definition i64_checked_add (a b : Z) : option Z :=
  if is_i64 (a + b)%Z then Some (a + b)%Z else None.
Definition i64_checked_sub (a b : Z) : option Z :=
  if is_i64 (a - b)%Z then Some (a - b)%Z else None.
Definition i64_checked_mul (a b : Z) : option Z :=
  if is_i64 (a * b)%Z then Some (a * b)%Z else None.
Definition i64_clamp (z : Z) : Z := Z.max i64_min (Z.min z i64_max).
Definition i64_saturating_add (a b : Z) : Z := i64_clamp (a + b).
Definition i64_saturating_sub (a b : Z) : Z := i64_clamp (a - b).
(** [i64::try_from(x: u64)], [u64::try_from(x: i64)] *)
Definition i64_try_from (z : Z) : option Z :=
  if is_i64 z then Some z else None.
Definition u64_try_from (z : Z) : option Z :=
  if is_u64 z then Some z else None.

(** ** Strings

    A Rust [String] is the list of its UTF-8 bytes, so [str::len] is
    [String.length]; [char_chunks] cuts it at the character boundaries and
    [code_point] decodes one character. *)

Definition len (s : string) : Z := Z.of_nat (String.length s).
Definition is_empty (s : string) : bool :=
  match s with EmptyString => true | String _ _ => false end.

Fixpoint all_bytes (p : ascii -> bool) (s : string) : bool :=
  match s with
  | EmptyString => true
  | String a s' => p a && all_bytes p s'
  end.

Definition byte_in (lo hi : N) (a : ascii) : bool :=
  ((lo <=? N_of_ascii a) && (N_of_ascii a <=? hi))%N.
Definition is_ascii_lowercase : ascii -> bool := byte_in 97 122.
Definition is_ascii_uppercase : ascii -> bool := byte_in 65 90.
Definition is_ascii_digit : ascii -> bool := byte_in 48 57.
Definition is_ascii_alphanumeric (a : ascii) : bool :=
  is_ascii_lowercase a || is_ascii_uppercase a || is_ascii_digit a.
Definition is_ascii_hexdigit (a : ascii) : bool :=
  is_ascii_digit a || byte_in 97 102 a || byte_in 65 70 a.
(** [u8::is_ascii_whitespace]: tab, LF, FF, CR, space. *)
Definition is_ascii_whitespace (a : ascii) : bool :=
  byte_in 9 10 a || byte_in 12 13 a || byte_in 32 32 a.
(** [matches!(byte, b'-' | b'_' | b'.')] *)
Definition is_dash_underscore_dot (a : ascii) : bool :=
  byte_in 45 46 a || byte_in 95 95 a.

Definition is_continuation (a : ascii) : bool := byte_in 128 191 a.

Fixpoint char_chunks (s : string) : list string :=
  match s with
  | EmptyString => []
  | String a s' =>
      match char_chunks s' with
      | (String b _ as c) :: cs =>
          if is_continuation b then String a c :: cs else String a "" :: c :: cs
      | cs => String a "" :: cs
      end
  end.

Definition code_point (c : string) : N :=
  match String.list_ascii_of_string c with
  | [a] => N_of_ascii a
  | [a; b] => N.lor (N.shiftl (N.land (N_of_ascii a) 31) 6) (N.land (N_of_ascii b) 63)
  | [a; b; d] =>
      N.lor (N.shiftl (N.land (N_of_ascii a) 15) 12)
        (N.lor (N.shiftl (N.land (N_of_ascii b) 63) 6) (N.land (N_of_ascii d) 63))
  | [a; b; d; e] =>
      N.lor (N.shiftl (N.land (N_of_ascii a) 7) 18)
        (N.lor (N.shiftl (N.land (N_of_ascii b) 63) 12)
           (N.lor (N.shiftl (N.land (N_of_ascii d) 63) 6) (N.land (N_of_ascii e) 63)))
  | _ => 65533
  end%N.

Definition chars (s : string) : list N := code_point <$> char_chunks s.

(** [char::is_control] (general category Cc) and [char::is_whitespace]. *)
Definition is_control (c : N) : bool :=
  ((c <=? 31) || ((127 <=? c) && (c <=? 159)))%N.
Definition is_whitespace (c : N) : bool :=
  (((9 <=? c) && (c <=? 13)) || (c =? 32) || (c =? 133) || (c =? 160)
   || (c =? 5760) || ((8192 <=? c) && (c <=? 8202)) || (c =? 8232) || (c =? 8233)
   || (c =? 8239) || (c =? 8287) || (c =? 12288))%N.

Fixpoint drop_while {A} (p : A -> bool) (l : list A) : list A :=
  match l with
  | [] => []
  | x :: l' => if p x then drop_while p l' else l
  end.

Definition concat_chunks (l : list string) : string := foldr String.append "" l.

(** [str::trim] *)
Definition trim (s : string) : string :=
  let ws c := is_whitespace (code_point c) in
  concat_chunks (reverse (drop_while ws (reverse (drop_while ws (char_chunks s))))).

Fixpoint strip_prefix (pre s : string) : option string :=
  match pre, s with
  | EmptyString, _ => Some s
  | String a pre', String b s' =>
      if Ascii.eqb a b then strip_prefix pre' s' else None
  | String _ _, EmptyString => None
  end.

Definition starts_with (s pre : string) : bool :=
  match strip_prefix pre s with Some _ => true | None => false end.

(** [str::split(c)]: always at least one piece. *)
Fixpoint split_char (c : ascii) (s : string) : list string :=
  match s with
  | EmptyString => [""]
  | String a s' =>
      if Ascii.eqb a c then "" :: split_char c s'
      else match split_char c s' with
           | [] => [String a ""]
           | p :: ps => String a p :: ps
           end
  end.

(** [str::contains(c: char)] for an ASCII character. *)
Definition contains_char (c : ascii) (s : string) : bool :=
  negb (all_bytes (fun a => negb (Ascii.eqb a c)) s).

(** [format!("{n}")] for an unsigned integer. *)
Definition display_u64 (z : Z) : string := pretty (Z.to_N z).

Definition bytes : Type := list Byte.byte.
Definition bytes_len (b : bytes) : Z := Z.of_nat (length b).

(** [str::split_ascii_whitespace]: the non-empty pieces. *)
Fixpoint split_words (s : string) : list string :=
  match s with
  | EmptyString => [""]
  | String a s' =>
      if is_ascii_whitespace a then "" :: split_words s'
      else match split_words s' with
           | [] => [String a ""]
           | p :: ps => String a p :: ps
           end
  end.
Definition split_ascii_whitespace (s : string) : list string :=
  filter (fun w => is_empty w = false) (split_words s).

(** [std::time::Duration] in nanoseconds. *)
Definition Duration : Type := Z.
Definition from_secs (s : Z) : Duration := (s * 1000000000)%Z.
Definition from_millis (ms : Z) : Duration := (ms * 1000000)%Z.
Definition as_secs (d : Duration) : Z := (d / 1000000000)%Z.
Definition as_millis (d : Duration) : Z := (d / 1000000)%Z.
Definition is_zero (d : Duration) : bool := (d =? 0)%Z.

(** [String::from_utf8]: the bytes when they are well-formed UTF-8 (Table 3-7 of
    the Unicode Standard).  The position in the error message is left out. *)
Fixpoint is_utf8 (b : list N) : bool :=
  let within lo hi x := ((lo <=? x) && (x <=? hi))%N in
  let tail := within 128%N 191%N in
  match b with
  | [] => true
  | x :: b1 =>
      if (x <=? 127)%N then is_utf8 b1
      else match b1 with
           | y :: b2 =>
               if within 194%N 223%N x then tail y && is_utf8 b2
               else match b2 with
                    | z :: b3 =>
                        if (x =? 224)%N then within 160%N 191%N y && tail z && is_utf8 b3
                        else if (x =? 237)%N then within 128%N 159%N y && tail z && is_utf8 b3
                        else if within 225%N 239%N x then tail y && tail z && is_utf8 b3
                        else match b3 with
                             | t :: b4 =>
                                 (if (x =? 240)%N then within 144%N 191%N y
                                  else if (x =? 244)%N then within 128%N 143%N y
                                  else within 241%N 243%N x && tail y)
                                 && tail z && tail t && is_utf8 b4
                             | [] => false
                             end
                    | [] => false
                    end
           | [] => false
           end
  end.
Definition from_utf8 (b : bytes) : anyhow string :=
  ensure (is_utf8 ((fun x => N_of_ascii (Ascii.ascii_of_byte x)) <$> b)) "invalid utf-8 sequence";;
  Ok (String.string_of_list_ascii (Ascii.ascii_of_byte <$> b)).

(** ** Laws of results *)

Section ResultLaws.
Context {E : Type}.

Lemma bind_Ok {A B} (r : Result E A) (k : A -> Result E B) b :
  r ≫= k = Ok b <-> exists a, r = Ok a /\ k a = Ok b.
Proof.
  destruct r as [a | e]; simpl; split; [eauto | | done |];
    intros (a' & ? & ?); congruence.
Qed.

Lemma bind_Err {A B} (r : Result E A) (k : A -> Result E B) e :
  r ≫= k = Err e <-> r = Err e \/ exists a, r = Ok a /\ k a = Err e.
Proof.
  destruct r as [a | e']; simpl; split; [intros; right; by eauto | | intros; left; congruence |];
    intros [? | (a' & ? & ?)]; congruence.
Qed.

Lemma ret_Ok {A} (x y : A) : (mret x : Result E A) = Ok y <-> x = y.
Proof. unfold mret, result_ret. split; congruence. Qed.

Lemma map_err_Ok {F A} (f : E -> F) (r : Result E A) x :
  map_err f r = Ok x <-> r = Ok x.
Proof. destruct r; simpl; split; congruence. Qed.

Lemma is_ok_spec {A} (r : Result E A) : is_ok r = true <-> exists x, r = Ok x.
Proof. destruct r; simpl; split; [eauto | done | done | by intros [? ?]]. Qed.
End ResultLaws.

Lemma ensure_Ok b msg u : ensure b msg = Ok u <-> b = true.
Proof. destruct b, u; simpl; split; done. Qed.

Lemma ensure_Err b msg e : ensure b msg = Err e <-> b = false /\ e = [msg].
Proof.
  unfold ensure, bail. destruct b; split.
  - done.
  - by intros [? _].
  - intros [= <-]. done.
  - by intros [_ ->].
Qed.

Lemma with_context_Ok {A} msg (r : anyhow A) x : with_context msg r = Ok x <-> r = Ok x.
Proof. apply map_err_Ok. Qed.

Lemma some_or_Ok {A} msg (o : option A) x : some_or msg o = Ok x <-> o = Some x.
Proof. destruct o; simpl; split; unfold bail; congruence. Qed.

Lemma M_bind_Ok {S E A B} (c : M S E A) (k : A -> M S E B) s s' b :
  (c ≫= k) s = (s', Ok b) <-> exists s1 a, c s = (s1, Ok a) /\ k a s1 = (s', Ok b).
Proof.
  unfold mbind, M_bind. destruct (c s) as [s1 [a | e]]; split; [eauto | | done |];
    intros (? & ? & ? & ?); congruence.
Qed.

Lemma M_bind_Err {S E A B} (c : M S E A) (k : A -> M S E B) s s' e :
  (c ≫= k) s = (s', Err e) <->
  c s = (s', Err e) \/ exists s1 a, c s = (s1, Ok a) /\ k a s1 = (s', Err e).
Proof.
  unfold mbind, M_bind. destruct (c s) as [s1 [a | e']]; split;
    [intros; right; by eauto | | intros; left; congruence |];
    intros [? | (? & ? & ? & ?)]; congruence.
Qed.

Lemma M_context_Ok {S A} msg (c : M S Error A) s s' x :
  M_context msg c s = (s', Ok x) <-> c s = (s', Ok x).
Proof.
  unfold M_context. destruct (c s) as [s1 r]. split.
  - intros [= <- H%with_context_Ok]. by subst.
  - intros [= -> ->]. done.
Qed.

(** ** Programs and the changes they make

    [respects R c]: whatever way [c] ends, the state it leaves is related to the
    state it found. *)

Section Respects.
Context {S : Type} (R : relation S) `{!PreOrder R}.

Definition respects {E A} (c : M S E A) : Prop :=
  forall s s' r, c s = (s', r) -> R s s'.

Lemma respects_lift {E A} (r : Result E A) : respects (lift r).
Proof. by intros s s' r' [= <- _]. Qed.

Lemma respects_ret {E A} (x : A) : respects (mret x : M S E A).
Proof. by intros s s' r' [= <- _]. Qed.

Lemma respects_gets {E A} (f : S -> A) : respects (gets f : M S E A).
Proof. by intros s s' r' [= <- _]. Qed.

Lemma respects_bind {E A B} (c : M S E A) (k : A -> M S E B) :
  respects c -> (forall s s' a, c s = (s', Ok a) -> respects (k a)) -> respects (c ≫= k).
Proof.
  intros Hc Hk s s' r H. unfold mbind, M_bind in H.
  destruct (c s) as [s1 [a | e]] eqn:E1; [| simplify_eq; by eapply Hc].
  etrans; [by eapply Hc | by eapply (Hk s s1 a)].
Qed.

Lemma respects_lift_bind {E A B} (r : Result E A) (k : A -> M S E B) :
  (forall a, r = Ok a -> respects (k a)) -> respects (lift r ≫= k).
Proof.
  intros Hk. apply respects_bind; [apply respects_lift |]. intros s s' a [= _ Ha]. by apply Hk.
Qed.

Lemma respects_attempt {E F A} (c : M S E A) :
  respects c -> respects (attempt c : M S F (Result E A)).
Proof.
  intros Hc s s' r H. unfold attempt in H. destruct (c s) as [s1 r1] eqn:E1. simplify_eq.
  by eapply Hc.
Qed.

Lemma respects_bind_all {E A B} (c : M S E A) (k : A -> M S E B) :
  respects c -> (forall a, respects (k a)) -> respects (c ≫= k).
Proof. intros Hc Hk. apply respects_bind; eauto. Qed.
End Respects.

Lemma respects_context {S} (R : relation S) {A} msg (c : M S Error A) :
  respects R c -> respects R (M_context msg c).
Proof.
  intros Hc s s' r H. unfold M_context in H. destruct (c s) as [s1 r1] eqn:E1. simplify_eq.
  by eapply Hc.
Qed.

(** [respecting] follows the shape of a program down to the calls it makes,
    keeping the guards it passed. *)
Ltac respecting :=
  repeat first
    [ match goal with
      | |- PreOrder _ => apply _
      | |- forall _, _ => intro
      | |- respects _ (mbind _ (lift _)) => apply respects_lift_bind
      | |- respects _ (mbind _ _) => apply respects_bind
      | |- respects _ (attempt _) => apply respects_attempt
      | |- respects _ (M_context _ _) => apply respects_context
      | |- respects _ (lift _) => apply respects_lift
      | |- respects _ (mret _) => apply respects_ret
      | |- respects _ (gets _) => apply respects_gets
      end
    | eassumption
    | match goal with |- respects _ (match _ with _ => _ end) => case_match end ].

(** [inv_ok] runs a successful result backwards: every [?] and [ensure!] on
    the way to [Ok] becomes the equation it tested. *)
Ltac inv_ok_step :=
  match goal with
  | H : @mbind (Result _) _ _ _ _ _ = Ok _ |- _ =>
      apply bind_Ok in H as (? & ? & ?)
  | H : ensure _ _ = Ok _ |- _ => apply ensure_Ok in H
  | H : with_context _ _ = Ok _ |- _ => apply with_context_Ok in H
  | H : some_or _ _ = Ok _ |- _ => apply some_or_Ok in H
  | H : map_err _ _ = Ok _ |- _ => apply map_err_Ok in H
  | H : bail _ = Ok _ |- _ => discriminate H
  | H : mret _ = Ok _ |- _ => apply ret_Ok in H
  | H : Ok _ = Ok _ |- _ => injection H as H
  | H : Err _ = Ok _ |- _ => discriminate H
  | H : Ok _ = Err _ |- _ => discriminate H
  | u : unit |- _ => destruct u
  end.
Ltac inv_ok := repeat (inv_ok_step; simplify_eq).

(** Split boolean guards into the propositions they decide. *)
Ltac bool_prop :=
  repeat match goal with
  | H : _ && _ = true |- _ => apply andb_true_iff in H as [? ?]
  | H : _ || _ = false |- _ => apply orb_false_iff in H as [? ?]
  | H : negb _ = true |- _ => apply negb_true_iff in H
  | H : negb _ = false |- _ => apply negb_false_iff in H
  | H : bool_decide _ = true |- _ => apply bool_decide_eq_true in H
  | H : bool_decide _ = false |- _ => apply bool_decide_eq_false in H
  | H : (_ <=? _)%Z = true |- _ => apply Z.leb_le in H
  | H : (_ <=? _)%Z = false |- _ => apply Z.leb_gt in H
  | H : (_ <? _)%Z = true |- _ => apply Z.ltb_lt in H
  | H : (_ <? _)%Z = false |- _ => apply Z.ltb_ge in H
  | H : (_ =? _)%Z = true |- _ => apply Z.eqb_eq in H
  | H : (_ =? _)%Z = false |- _ => apply Z.eqb_neq in H
  end.

(** ** Laws of the machine integers *)

Lemma is_u64_spec z : is_u64 z = true <-> (0 <= z <= u64_max)%Z.
Proof. unfold is_u64. rewrite andb_true_iff, !Z.leb_le. done. Qed.

Lemma is_i64_spec z : is_i64 z = true <-> (i64_min <= z <= i64_max)%Z.
Proof. unfold is_i64. rewrite andb_true_iff, !Z.leb_le. done. Qed.

Lemma u64_checked_add_Some a b c :
  u64_checked_add a b = Some c <-> c = (a + b)%Z /\ (a + b <= u64_max)%Z.
Proof.
  unfold u64_checked_add. destruct (a + b <=? u64_max)%Z eqn:H; bool_prop; split.
  - intros [= <-]. done.
  - by intros [-> _].
  - done.
  - intros [_ ?]. lia.
Qed.

Lemma u64_try_from_Some z c :
  u64_try_from z = Some c <-> c = z /\ (0 <= z <= u64_max)%Z.
Proof.
  unfold u64_try_from. destruct (is_u64 z) eqn:H.
  - apply is_u64_spec in H. split; [by intros [= <-] | by intros [-> _]].
  - split; [done |]. intros [_ ?%is_u64_spec]. congruence.
Qed.

Lemma i64_try_from_Some z c :
  i64_try_from z = Some c <-> c = z /\ (i64_min <= z <= i64_max)%Z.
Proof.
  unfold i64_try_from. destruct (is_i64 z) eqn:H.
  - apply is_i64_spec in H. split; [by intros [= <-] | by intros [-> _]].
  - split; [done |]. intros [_ ?%is_i64_spec]. congruence.
Qed.

Lemma i64_checked_add_Some a b c :
  i64_checked_add a b = Some c <-> c = (a + b)%Z /\ (i64_min <= a + b <= i64_max)%Z.
Proof. apply i64_try_from_Some. Qed.

Lemma i64_checked_sub_Some a b c :
  i64_checked_sub a b = Some c <-> c = (a - b)%Z /\ (i64_min <= a - b <= i64_max)%Z.
Proof. apply i64_try_from_Some. Qed.

Lemma i64_checked_mul_Some a b c :
  i64_checked_mul a b = Some c <-> c = (a * b)%Z /\ (i64_min <= a * b <= i64_max)%Z.
Proof. apply i64_try_from_Some. Qed.

(** ** Laws of strings *)

#[local] Arguments String.append !_ _ / : simpl nomatch.

Lemma append_nil_r s : s +:+ "" = s.
Proof. induction s as [| a s IH]; simpl; congruence. Qed.

Lemma append_assoc s t u : (s +:+ t) +:+ u = s +:+ (t +:+ u).
Proof. induction s as [| a s IH]; simpl; congruence. Qed.

Lemma append_inj_l s t u : s +:+ t = s +:+ u -> t = u.
Proof. induction s as [| a s IH]; simpl; [done |]. intros [= ?]. auto. Qed.

Lemma length_append s t : String.length (s +:+ t) = String.length s + String.length t.
Proof. induction s as [| a s IH]; simpl; congruence. Qed.

Lemma append_inj_r s s' t : s +:+ t = s' +:+ t -> s = s'.
Proof.
  revert s'. induction s as [| a s IH]; intros [| b s'] H; simpl in *; [done | | |].
  - apply (f_equal String.length) in H. simpl in H. rewrite length_append in H. lia.
  - apply (f_equal String.length) in H. simpl in H. rewrite length_append in H. lia.
  - injection H as -> H. f_equal. auto.
Qed.

Lemma len_append s t : len (s +:+ t) = (len s + len t)%Z.
Proof. unfold len. rewrite length_append. lia. Qed.

Lemma len_nonneg s : (0 <= len s)%Z.
Proof. unfold len. lia. Qed.

Lemma is_empty_spec s : is_empty s = true <-> s = "".
Proof. destruct s; done. Qed.

Lemma is_empty_false s : is_empty s = false <-> s <> "".
Proof. destruct s; done. Qed.

Lemma all_bytes_append p s t : all_bytes p (s +:+ t) = all_bytes p s && all_bytes p t.
Proof. induction s as [| a s IH]; simpl; [done |]. by rewrite IH, andb_assoc. Qed.

Lemma all_bytes_impl (p q : ascii -> bool) s :
  (forall a, p a = true -> q a = true) -> all_bytes p s = true -> all_bytes q s = true.
Proof. intros Hpq. induction s as [| a s IH]; simpl; [done |]. intros ?; bool_prop. rewrite Hpq; auto. Qed.

Lemma strip_prefix_Some pre s r : strip_prefix pre s = Some r <-> s = pre +:+ r.
Proof.
  revert s. induction pre as [| a pre IH]; intros s; simpl; [split; congruence |].
  destruct s as [| b s]; [done |].
  destruct (Ascii.eqb_spec a b) as [-> | Hne].
  - rewrite IH. split; congruence.
  - split; [done |]. intros [= -> _]. done.
Qed.

Lemma strip_prefix_append pre r : strip_prefix pre (pre +:+ r) = Some r.
Proof. by apply strip_prefix_Some. Qed.

Lemma starts_with_spec s pre : starts_with s pre = true <-> exists r, s = pre +:+ r.
Proof.
  unfold starts_with. destruct (strip_prefix pre s) as [r |] eqn:H.
  - apply strip_prefix_Some in H. split; eauto.
  - split; [done |]. intros [r ?%strip_prefix_Some]. congruence.
Qed.

Lemma starts_with_append pre r : starts_with (pre +:+ r) pre = true.
Proof. apply starts_with_spec. eauto. Qed.

Lemma split_char_append c s t :
  contains_char c s = false ->
  split_char c (s +:+ String c t) = s :: split_char c t.
Proof.
  unfold contains_char. induction s as [| a s IH]; simpl; intros Hs.
  - by rewrite Ascii.eqb_refl.
  - bool_prop. rewrite H. rewrite IH; [done |]. by rewrite H0.
Qed.

Lemma split_char_none c s : contains_char c s = false -> split_char c s = [s].
Proof.
  unfold contains_char. induction s as [| a s IH]; simpl; intros Hs; [done |].
  bool_prop. rewrite H, IH; [done |]. by rewrite H0.
Qed.

(** Splitting loses nothing: joining the pieces gives the string back. *)
Fixpoint join_char (c : ascii) (l : list string) : string :=
  match l with
  | [] => ""
  | [p] => p
  | p :: ps => p +:+ String c (join_char c ps)
  end.

Lemma split_char_nonempty c s : split_char c s <> [].
Proof. destruct s; simpl; [done |]. destruct (Ascii.eqb _ _); [done |]. by case_match. Qed.

Lemma join_split_char c s : join_char c (split_char c s) = s.
Proof.
  induction s as [| a s IH]; simpl; [done |].
  pose proof (split_char_nonempty c s) as Hne.
  destruct (Ascii.eqb_spec a c) as [-> | _];
    destruct (split_char c s) as [| p ps]; simpl in *; [done | congruence | done |].
  destruct ps; simpl in *; congruence.
Qed.

Lemma split_char_inj c s t : split_char c s = split_char c t -> s = t.
Proof. intros H. rewrite <- (join_split_char c s), H. apply join_split_char. Qed.

Lemma contains_char_all_bytes p c s :
  p c = false -> all_bytes p s = true -> contains_char c s = false.
Proof.
  unfold contains_char. intros Hc Hs.
  rewrite (all_bytes_impl p (fun a => negb (Ascii.eqb a c))); [done | | done].
  intros a Ha. destruct (Ascii.eqb_spec a c); [congruence | done].
Qed.

Lemma contains_char_append c s t :
  contains_char c (s +:+ t) = contains_char c s || contains_char c t.
Proof. unfold contains_char. by rewrite all_bytes_append, negb_andb. Qed.

Lemma pretty_N_char_digit x : is_ascii_digit (pretty_N_char x) = true.
Proof. unfold pretty_N_char. repeat case_match; done. Qed.

Lemma pretty_N_go_digits x s :
  all_bytes is_ascii_digit s = true -> all_bytes is_ascii_digit (pretty_N_go x s) = true.
Proof.
  revert s. induction (N.lt_wf_0 x) as [x _ IH]; intros s Hs.
  destruct (decide (x = 0)%N) as [-> | Hx].
  - by rewrite pretty_N_go_0.
  - rewrite pretty_N_go_step by lia. apply IH; [by apply N.div_lt; lia |].
    simpl. by rewrite pretty_N_char_digit.
Qed.

Lemma display_u64_digits z : all_bytes is_ascii_digit (display_u64 z) = true.
Proof.
  unfold display_u64, pretty, pretty_N. case_decide; [done |]. by apply pretty_N_go_digits.
Qed.

Lemma display_u64_inj a b :
  (0 <= a)%Z -> (0 <= b)%Z -> display_u64 a = display_u64 b -> a = b.
Proof. unfold display_u64. intros Ha Hb H%(inj (@pretty N _)). lia. Qed.

Lemma pretty_N_go_length n x s :
  (x < 10 ^ N.of_nat n)%N ->
  (String.length (pretty_N_go x s) <= n + String.length s)%nat.
Proof.
  revert x s. induction n as [| n IH]; intros x s Hx.
  - replace x with 0%N by (simpl in Hx; lia). by rewrite pretty_N_go_0.
  - destruct (decide (x = 0)%N) as [-> | Hx0]; [rewrite pretty_N_go_0; lia |].
    rewrite pretty_N_go_step by lia.
    etransitivity; [apply IH | simpl; lia].
    apply N.Div0.div_lt_upper_bound. rewrite Nat2N.inj_succ, N.pow_succ_r' in Hx. lia.
Qed.

Lemma display_u64_len z : (z <= u64_max)%Z -> (len (display_u64 z) <= 20)%Z.
Proof.
  unfold display_u64, pretty, pretty_N, len. intros Hz. case_decide; [simpl; lia |].
  assert (Hlt : (Z.to_N z < 10 ^ N.of_nat 20)%N) by (unfold u64_max in Hz; simpl; lia).
  apply (pretty_N_go_length 20 _ "") in Hlt. simpl in Hlt. lia.
Qed.

Definition is_ascii_graphic (a : ascii) : bool := byte_in 32 126 a.

Lemma byte_in_spec lo hi a :
  byte_in lo hi a = true <-> (lo <= N_of_ascii a <= hi)%N.
Proof. unfold byte_in. by rewrite andb_true_iff, !N.leb_le. Qed.

Lemma char_chunks_ascii s :
  all_bytes is_ascii_graphic s = true ->
  char_chunks s = (fun a => String a "") <$> String.list_ascii_of_string s.
Proof.
  induction s as [| a s IH]; simpl; intros H; [done |].
  apply andb_true_iff in H as [_ H]. rewrite IH by done.
  destruct s as [| b s]; [done |]. simpl in *.
  apply andb_true_iff in H as [H%byte_in_spec _].
  destruct (is_continuation b) eqn:Hb; [| done].
  apply byte_in_spec in Hb. lia.
Qed.

Lemma no_control_ascii s :
  all_bytes is_ascii_graphic s = true -> existsb is_control (chars s) = false.
Proof.
  intros H. unfold chars. rewrite char_chunks_ascii by done.
  rewrite <- list_fmap_compose.
  induction s as [| a s IH]; [done |]. simpl in H.
  apply andb_true_iff in H as [H%byte_in_spec ?].
  cbn [String.list_ascii_of_string]. rewrite fmap_cons. cbn [existsb]. rewrite IH by done.
  unfold is_control, code_point. simpl.
  rewrite orb_false_r, orb_false_iff, andb_false_iff, !N.leb_gt. lia.
Qed.

Lemma concat_singletons l :
  concat_chunks ((fun a => String a "") <$> l) = String.string_of_list_ascii l.
Proof. induction l as [| a l IH]; [done |]. simpl. by rewrite <- IH. Qed.

Lemma drop_while_none {A} (p : A -> bool) l :
  Forall (fun x => p x = false) l -> drop_while p l = l.
Proof. intros []; simpl; [done |]. by case_match. Qed.

(** Text without spaces is not changed by trimming. *)
Lemma trim_graphic s : all_bytes (byte_in 33 126) s = true -> trim s = s.
Proof.
  intros H. assert (Hg : all_bytes is_ascii_graphic s = true).
  { revert H. apply all_bytes_impl. intros a. unfold is_ascii_graphic. rewrite !byte_in_spec. lia. }
  unfold trim. rewrite char_chunks_ascii by done.
  set (l := (fun a => String a "") <$> String.list_ascii_of_string s).
  assert (Hl : Forall (fun c => is_whitespace (code_point c) = false) l).
  { unfold l. apply Forall_fmap. clear Hg. induction s as [| a s IH]; simpl in *; [constructor |].
    apply andb_true_iff in H as [H%byte_in_spec Hs]. constructor; [| by apply IH].
    unfold compose, code_point, is_whitespace. simpl.
    rewrite !orb_false_iff, !andb_false_iff, !N.leb_gt, !N.eqb_neq. lia. }
  rewrite (drop_while_none _ l) by done.
  rewrite drop_while_none by by apply Forall_reverse.
  rewrite reverse_involutive.
  unfold l. rewrite concat_singletons. apply String.string_of_list_ascii_of_string.
Qed.

Ltac byte_range :=
  unfold is_ascii_graphic, is_ascii_alphanumeric, is_ascii_lowercase, is_ascii_uppercase,
    is_ascii_digit, is_dash_underscore_dot in *;
  rewrite ?orb_true_iff, ?byte_in_spec in *.
