(* ===== verification/Timeline.v ===== *)
(** * Latency timelines

    What [docs/adr/0001-use-enriched-completion-events-for-latency-telemetry.md]
    and [docs/system-architecture.md] call the timeline of an operation: it reads
    a monotonic clock when it starts, notes the offsets of the milestones it
    reaches, and logs one completion event with all of them.  The timings and the
    log are a layer over the program that is timed: a timed program [erases] to
    the plain one, and its milestones are [ordered]. *)
From S2P Require Import Prelude.
Local Open Scope Z_scope.

(** [Instant::now]: the [n]-th reading of the process's monotonic clock, in
    nanoseconds. *)
Class Instants := {
  instant : nat -> Z;
  instant_mono n n' : (n <= n')%nat -> instant n <= instant n';
}.

Lemma instant_next `{Instants} n : instant n <= instant (S n).
Proof. apply instant_mono. lia. Qed.

(** What a process has read of its clock and logged so far. *)
Record Watch (Event : Type) := { readings : nat; events : list Event }.
Arguments Build_Watch {Event} readings events.
Arguments readings {Event} w.
Arguments events {Event} w.

(** The timings of an operation: one optional offset for each milestone of [F].
    The source's offsets are milliseconds as [f64], printed in the log; here they
    are the nanoseconds they are computed from. *)
Record Timings (F : Type) := { started_at : Z; reached_at : F -> option Z }.
Arguments Build_Timings {F} started_at reached_at.
Arguments started_at {F} t.
Arguments reached_at {F} t f.

Section Timeline.
Context `{I : Instants} {Event : Type} {F : Type} `{!EqDecision F}.

Definition Timings_new (now : Z) : Timings F :=
  {| started_at := now; reached_at := fun _ => None |}.
Definition reach (f : F) (x : Z) (t : Timings F) : Timings F :=
  {| started_at := started_at t;
     reached_at := fun g => if decide (g = f) then Some x else reached_at t g |}.

Definition tick (w : Watch Event) : Watch Event :=
  {| readings := S (readings w); events := events w |}.
Definition emit (lines : list Event) (w : Watch Event) : Watch Event :=
  {| readings := readings w; events := events w ++ lines |}.

(** [timings.elapsed_ms()] *)
Definition elapsed (w : Watch Event) (t : Timings F) : Z := instant (readings w) - started_at t.

Abbreviation State S := (((S * Watch Event) * Timings F)%type) (only parsing).

(** A part of the program that reads no clock. *)
Definition untimed {S E A} (c : M S E A) : M (State S) E A := fun '((s, w), t) =>
  let '(s', r) := c s in (((s', w), t), r).

(** [timings.<f>_at_ms = Some(timings.elapsed_ms());] *)
Definition mark {S E} (f : F) : M (State S) E () := fun '((s, w), t) =>
  (((s, tick w), reach f (elapsed w t) t), Ok tt).

(** An operation with timings of its own, and the lines logged at its end, with the
    states before and after it. *)
Definition timed {S E A} (event : S -> S -> Timings F -> Z -> Result E A -> list Event)
    (c : M (State S) E A) : M (S * Watch Event) E A := fun '(s, w) =>
  let '(((s', w'), t), r) := c ((s, tick w), Timings_new (instant (readings w))) in
  ((s', emit (event s s' t (elapsed w' t) r) (tick w')), r).

(** A line logged on the way, and an operation that logs its own lines, timed from
    [start]. *)
Definition report {S E} (line : Timings F -> Z -> Event) : M (State S) E () := fun '((s, w), t) =>
  (((s, emit [line t (elapsed w t)] (tick w)), t), Ok tt).
Definition timed_from {S E A} (start : Z) (c : M (State S) E A) : M (S * Watch Event) E A := fun '(s, w) =>
  let '(((s', w'), _), r) := c ((s, w), Timings_new start) in ((s', w'), r).
(** With [Instant::now] of its own. *)
Definition timed_now {S E A} (c : M (State S) E A) : M (S * Watch Event) E A := fun '(s, w) =>
  timed_from (instant (readings w)) c (s, tick w).

Definition reached (at_ : F -> option Z) (f : F) : bool :=
  match at_ f with Some _ => true | None => false end.

Lemma reached_reach f g x t :
  reached (reached_at (reach f x t)) g = bool_decide (g = f) || reached (reached_at t) g.
Proof. unfold reached. simpl. case_bool_decide; destruct (decide (g = f)); done. Qed.

(** A timed program on a part of the state. *)
Definition timed_zoom {S S0 E A} (part : S -> S0) (put : S0 -> S -> S) (c : M (State S0) E A)
    : M (State S) E A := fun '((s, w), t) =>
  let '(((s0, w'), t'), r) := c ((part s, w), t) in (((put s0 s, w'), t'), r).

(** A timed program logs nothing by itself. *)
Definition same_log {S} (s s' : State S) : Prop := events s'.1.2 = events s.1.2.

#[export] Instance same_log_preorder {S} : PreOrder (same_log (S := S)).
Proof. split; [done |]. unfold same_log. congruence. Qed.

Lemma untimed_same_log {S E A} (c : M S E A) : respects same_log (untimed c).
Proof. intros [[s w] t] s' r H. simpl in H. destruct (c s). by simplify_eq. Qed.

Lemma mark_same_log {S E} f : respects same_log (mark f : M (State S) E ()).
Proof. intros [[s w] t] s' r H. by simplify_eq/=. Qed.

Lemma zoom_same_log {S S0 E A} (part : S -> S0) put (c : M (State S0) E A) :
  respects same_log c -> respects same_log (timed_zoom part put c).
Proof.
  intros Hc [[s w] t] s' r H. unfold timed_zoom in H.
  destruct (c _) as [[[s0 w'] t'] r'] eqn:E1. apply Hc in E1. by simplify_eq/=.
Qed.

(** ** Erasing the timings *)

Definition erases {S' S E A} (p : S' -> S) (c : M S' E A) (d : M S E A) : Prop :=
  forall s, d (p s) = (p (c s).1, (c s).2).

Definition plain {S} (s : State S) : S := s.1.1.

Lemma erases_bind {S' S E A A'} (p : S' -> S) (c : M S' E A) d (k : A -> M S' E A') l :
  erases p c d -> (forall a, erases p (k a) (l a)) -> erases p (c ≫= k) (d ≫= l).
Proof.
  intros Hc Hk s. unfold mbind, M_bind. rewrite Hc. destruct (c s) as [s' [a | e]]; simpl; [| done].
  apply Hk.
Qed.

Lemma erases_lift {S' S E A} (p : S' -> S) (r : Result E A) : erases p (lift r) (lift r).
Proof. done. Qed.

Lemma erases_ret {S' S E A} (p : S' -> S) (a : A) :
  erases p (mret a : M S' E A) (mret a).
Proof. done. Qed.

Lemma erases_untimed {S E A} (c : M S E A) : erases plain (untimed c) c.
Proof. intros [[s w] t]. unfold plain. simpl. by destruct (c s). Qed.

(** A reading between two steps, and one before the end. *)
Lemma erases_mark {S E A} f (c : M (State S) E A) d :
  erases plain c d -> erases plain (mark f;; c) d.
Proof. intros Hc [[s w] t]. apply (Hc ((s, tick w), _)). Qed.

Lemma erases_mark_if {S E A} (b : bool) f (c : M (State S) E A) d :
  erases plain c d -> erases plain ((if b then mark f else mret ());; c) d.
Proof. intros Hc. destruct b; [by apply erases_mark | exact Hc]. Qed.

Lemma erases_mark_end {S E A} f (c : M (State S) E A) d :
  erases plain c d -> erases plain (a ← c; mark f;; mret a) d.
Proof.
  intros Hc s. rewrite Hc. unfold mbind, M_bind, mret, M_ret.
  by destruct (c s) as [[[s' w] t] [a | e]].
Qed.

Lemma erases_timed {S E A} event (c : M (State S) E A) d :
  erases plain c d -> erases fst (timed event c) d.
Proof.
  intros Hc [s w]. pose proof (Hc ((s, tick w), Timings_new (instant (readings w)))) as H.
  unfold timed, plain in *. simpl in *. rewrite H. by destruct (c _) as [[[s' w'] t] r].
Qed.

Lemma erases_report {S E A} line (c : M (State S) E A) d :
  erases plain c d -> erases plain (report line;; c) d.
Proof. intros Hc [[s w] t]. apply (Hc ((s, emit [line t (elapsed w t)] (tick w)), t)). Qed.

Lemma erases_timed_from {S E A} start (c : M (State S) E A) d :
  erases plain c d -> erases fst (timed_from start c) d.
Proof.
  intros Hc [s w]. pose proof (Hc ((s, w), Timings_new start)) as H.
  unfold timed_from, plain in *. simpl in *. rewrite H. by destruct (c _) as [[[s' w'] t] r].
Qed.

Lemma erases_timed_now {S E A} (c : M (State S) E A) d :
  erases plain c d -> erases fst (timed_now c) d.
Proof. intros Hc [s w]. apply (erases_timed_from _ c d Hc (s, tick w)). Qed.

Lemma erases_zoom {S S0 E A} (part : S -> S0) (put : S0 -> S -> S) (c : M (State S0) E A) d :
  erases plain c d ->
  erases plain (timed_zoom part put c) (fun s => let '(s0, r) := d (part s) in (put s0 s, r)).
Proof.
  intros Hc [[s w] t]. specialize (Hc ((part s, w), t)). unfold plain, timed_zoom in *. simpl in *.
  rewrite Hc. by destruct (c _) as [[[s0 w'] t'] r].
Qed.

(** ** The order of the milestones *)

Section Order.
Context (rank : F -> nat).

(** The offsets reached follow [rank], from zero up to [limit]. *)
Definition ordered (at_ : F -> option Z) (limit : Z) : Prop :=
  forall f x, at_ f = Some x -> 0 <= x <= limit /\
    forall g y, at_ g = Some y -> (rank f <= rank g)%nat -> x <= y.

(** Ordered so far, with nothing reached from [n] on. *)
Definition on_time {S} (n : nat) (s : State S) : Prop :=
  let '((_, w), t) := s in
  0 <= elapsed w t /\ ordered (reached_at t) (elapsed w t) /\
  forall f, (n <= rank f)%nat -> reached_at t f = None.

Lemma on_time_weaken {S} n m (s : State S) : (n <= m)%nat -> on_time n s -> on_time m s.
Proof. intros Hn. destruct s as [[s w] t]. intros (? & ? & Hf). split_and!; [done.. |]. intros f ?. apply Hf. lia. Qed.

(** The state of the program and later readings do not matter. *)
Lemma on_time_later {S S'} n (s : S) (s' : S') w w' t :
  (readings w <= readings w')%nat -> on_time n ((s, w), t) -> on_time n ((s', w'), t).
Proof.
  intros Hw%instant_mono (? & Hord & Hf). unfold on_time, elapsed in *. split_and!; [lia | | done].
  intros f x Hx. destruct (Hord f x Hx) as [? Hg]. split; [lia | done].
Qed.

(** A run that starts on time with [P] is on time up to [m] with [Q] when it
    succeeds, and somewhere on the way with [X] when it fails. *)
Definition leads {S E A} (P : State S -> Prop) (n : nat) (c : M (State S) E A)
    (Q : A -> State S -> Prop) (m : nat) (X : State S -> Prop) : Prop :=
  forall s s' r, on_time n s -> P s -> c s = (s', r) ->
    match r with
    | Ok a => on_time m s' /\ Q a s'
    | Err _ => (exists k, on_time k s') /\ X s'
    end.

(** [P] once [f] is marked. *)
Definition marked {S} (f : F) (P : State S -> Prop) (s : State S) : Prop :=
  forall x, P ((s.1.1, tick s.1.2), reach f x s.2).

Definition keeps {S E A} (P : State S -> Prop) (n : nat) (c : M (State S) E A) (m : nat) : Prop :=
  leads P n c (fun _ => P) m P.

Lemma leads_bind {S E A A'} (P : State S -> Prop) n (c : M (State S) E A) Q m
    (k : A -> M (State S) E A') R l X :
  leads P n c Q m X -> (forall a, leads (Q a) m (k a) R l X) -> leads P n (c ≫= k) R l X.
Proof.
  intros Hc Hk s s' r Hs HP H. unfold mbind, M_bind in H.
  destruct (c s) as [s1 [a | e]] eqn:E1; [| simplify_eq; by apply (Hc _ _ _ Hs HP E1)].
  destruct (Hc _ _ _ Hs HP E1). by apply (Hk a s1 s' r).
Qed.

Lemma leads_untimed {S E A} (P : State S -> Prop) n (c : M S E A) Q m X :
  (n <= m)%nat ->
  (forall s w t s' r, on_time n ((s, w), t) -> P ((s, w), t) -> c s = (s', r) ->
     match r with Ok a => Q a ((s', w), t) | Err _ => X ((s', w), t) end) ->
  leads P n (untimed c) Q m X.
Proof.
  intros Hn Hc [[s w] t] s' r Hs HP H. simpl in H. destruct (c s) as [s1 r1] eqn:E1. simplify_eq.
  pose proof (Hc _ _ _ _ _ Hs HP E1) as HQ.
  assert (on_time n ((s1, w), t)) by (by eapply on_time_later).
  destruct r; [| split; [by exists n | done]]. split; [by eapply on_time_weaken | done].
Qed.

Lemma leads_lift {S E A} (P : State S -> Prop) n (r : Result E A) (Q : A -> State S -> Prop) m
    (X : State S -> Prop) :
  (n <= m)%nat ->
  (forall s, P s -> match r with Ok a => Q a s | Err _ => X s end) -> leads P n (lift r) Q m X.
Proof.
  intros Hn Hr s s' r' Hs HP H. unfold lift in H. simplify_eq. apply Hr in HP.
  destruct r'; [| split; [by exists n | done]]. split; [by eapply on_time_weaken | done].
Qed.

Lemma leads_mark {S E} (P : State S -> Prop) n f m X :
  (n <= rank f)%nat -> (1 + rank f <= m)%nat ->
  leads (marked f P) n (mark f : M (State S) E ()) (fun _ => P) m X.
Proof.
  intros Hn Hm [[s w] t] s' r (Hpos & Hord & Hnone) HP H. unfold mark in H. simplify_eq.
  split; [| apply HP]. apply (on_time_weaken (1 + rank f)); [done |].
  assert (Hlater : elapsed w t <= elapsed (tick w) t)
    by (pose proof (instant_next (readings w)); unfold elapsed; simpl; lia).
  split_and!; [unfold elapsed in *; simpl in *; lia | |].
  - intros g x. simpl. unfold elapsed in *. simpl in *. destruct (decide (g = f)) as [-> |].
    + intros [= <-]. split; [lia |]. intros g y. destruct (decide (g = f)) as [-> |]; [intros [= <-]; lia |].
      intros Hy Hr. rewrite Hnone in Hy; [done | lia].
    + intros Hx. destruct (Hord g x Hx) as [? Hlt]. split; [lia |].
      intros h y. destruct (decide (h = f)) as [-> |]; [intros [= <-]; lia | by apply Hlt].
  - intros g Hg. simpl. destruct (decide (g = f)) as [-> |]; [lia | apply Hnone; lia].
Qed.

Lemma leads_weaken {S E A} (P P' : State S -> Prop) n n' (c : M (State S) E A) Q Q' m X X' :
  leads P n c Q m X -> (n' <= n)%nat -> (forall s, P' s -> P s) -> (forall a s, Q a s -> Q' a s) ->
  (forall s, X s -> X' s) -> leads P' n' c Q' m X'.
Proof.
  intros Hc Hn HP HQ HX s s' r Hs Hs' H. apply (on_time_weaken n' n) in Hs; [| done].
  specialize (Hc _ _ _ Hs (HP _ Hs') H).
  destruct r; destruct Hc; split; try done; [by apply HQ | by apply HX].
Qed.

Lemma leads_exists {S E A Y} (ok : Y -> Prop) (P : Y -> State S -> Prop) n (c : M (State S) E A) Q m X :
  (forall y, ok y -> leads (P y) n c Q m X) -> leads (fun s => exists y, ok y /\ P y s) n c Q m X.
Proof. intros Hc s s' r Hs (y & Hy & HP). by apply (Hc y Hy s s' r). Qed.

Lemma leads_ret {S E A} (P : State S -> Prop) n (a : A) (Q : A -> State S -> Prop) m X :
  (n <= m)%nat -> (forall s, P s -> Q a s) -> leads P n (mret a : M (State S) E A) Q m X.
Proof.
  intros Hn HQ s s' r Hs HP H. unfold mret, M_ret in H. simplify_eq.
  split; [by eapply on_time_weaken | by apply HQ].
Qed.

Lemma keeps_bind {S E A A'} (P : State S -> Prop) n (c : M (State S) E A) m
    (k : A -> M (State S) E A') l :
  keeps P n c m -> (forall a, keeps P m (k a) l) -> keeps P n (c ≫= k) l.
Proof. apply leads_bind. Qed.

Lemma leads_keep {S E A A'} (P : State S -> Prop) n (c : M (State S) E A) m
    (k : A -> M (State S) E A') R l :
  keeps P n c m -> (forall a, leads P m (k a) R l P) -> leads P n (c ≫= k) R l P.
Proof. apply leads_bind. Qed.

Lemma keeps_lift {S E A} (P : State S -> Prop) n (r : Result E A) m :
  (n <= m)%nat -> keeps P n (lift r) m.
Proof. intros Hn. apply leads_lift; [done |]. by destruct r. Qed.

Lemma keeps_ret {S E A} (P : State S -> Prop) n (a : A) m :
  (n <= m)%nat -> keeps P n (mret a : M (State S) E A) m.
Proof. intros Hn s s' r Hs HP H. unfold mret, M_ret in H. simplify_eq. split; [by eapply on_time_weaken | done]. Qed.

Lemma keeps_mark {S E} (P : State S -> Prop) n f m :
  (n <= rank f)%nat -> (1 + rank f <= m)%nat -> (forall s, P s -> marked f P s) ->
  keeps P n (mark f : M (State S) E ()) m.
Proof.
  intros Hn Hm HP. eapply leads_weaken; [by apply (leads_mark P) | done | done | done |]. done.
Qed.

(** On a part of the state, for assertions about the timings. *)
Lemma leads_zoom {S S0 E A} (part : S -> S0) (put : S0 -> S -> S) (P : Timings F -> Prop) n
    (c : M (State S0) E A) Q m X :
  leads (fun s => P s.2) n c (fun a s => Q a s.2) m (fun s => X s.2) ->
  leads (fun s => P s.2) n (timed_zoom part put c) (fun a s => Q a s.2) m (fun s => X s.2).
Proof.
  intros Hc [[s w] t] s' r Hs HP H. unfold timed_zoom in H.
  destruct (c _) as [[[s0 w'] t'] r'] eqn:E1. simplify_eq.
  specialize (Hc ((part s, w), t) _ _ Hs HP E1). destruct r.
  - destruct Hc as [Ht ?]. split; [by eapply on_time_later | done].
  - destruct Hc as [[k Ht] ?]. split; [exists k; by eapply on_time_later | done].
Qed.

(** What the completion event of a timed operation shows. *)
Lemma timed_leads {S E A} event (P : State S -> Prop) (c : M (State S) E A) Q m X s w s' w' r :
  leads P 0 c Q m X -> P ((s, tick w), Timings_new (instant (readings w))) ->
  timed event c (s, w) = ((s', w'), r) ->
  exists t w1 limit, w' = emit (event s s' t limit r) (tick w1) /\
    c ((s, tick w), Timings_new (instant (readings w))) = (((s', w1), t), r) /\ 0 <= limit /\ ordered (reached_at t) limit /\
    match r with Ok a => Q a ((s', w1), t) | Err _ => X ((s', w1), t) end.
Proof.
  intros Hc HP H. unfold timed in H. destruct (c _) as [[[s1 w1] t] r1] eqn:E1. simplify_eq.
  assert (Hstart : on_time 0 ((s, tick w), Timings_new (instant (readings w)))).
  { pose proof (instant_next (readings w)).
    unfold on_time, elapsed. simpl in *. split_and!; [lia | | done]. by intros f x. }
  specialize (Hc _ _ _ Hstart HP E1). exists t, w1, (elapsed w1 t). do 2 (split; [done |]).
  destruct r; [destruct Hc as [(? & ? & _) ?] | destruct Hc as [[k (? & ? & _)] ?]]; done.
Qed.
End Order.
End Timeline.
Arguments plain {Event F S} s.

(** [keeping] follows a timed program whose parts keep an assertion; what a part
    does is left. *)
Ltac within := first [reflexivity | simpl; lia].
Ltac keeping :=
  repeat first
    [ match goal with
      | |- forall _, _ => intro
      | |- keeps _ _ _ (mbind _ _) _ => eapply keeps_bind
      | |- keeps _ _ _ (lift _) _ => apply keeps_lift; within
      | |- keeps _ _ _ (mret _) _ => apply keeps_ret; within
      | |- keeps _ _ _ (mark _) _ => apply keeps_mark; [within | within |]
      end
    | match goal with |- keeps _ _ _ (match _ with _ => _ end) _ => case_match end ].

(** [erasing] follows a timed program and the plain one step by step. *)
Ltac erasing :=
  repeat first
    [ match goal with
      | |- forall _, _ => intro
      | |- erases _ (mbind _ (mark _)) _ => apply erases_mark
      | |- erases _ (mbind _ (report _)) _ => apply erases_report
      | |- erases _ (mbind _ (if _ then mark _ else _)) _ => apply erases_mark_if
      | |- erases _ (mbind _ _) (mbind _ _) => apply erases_bind
      | |- erases _ (mbind (fun a => mark _ ≫= _) _) _ => apply erases_mark_end
      | |- erases _ (untimed _) _ => apply erases_untimed
      | |- erases _ (lift _) _ => apply erases_lift
      | |- erases _ (mret _) _ => apply erases_ret
      end
    | eassumption
    | match goal with |- erases _ (match _ with _ => _ end) _ => case_match end ].
