(* ===== verification/Net.v ===== *)
(** * Third-party interfaces: URLs, gRPC statuses, random identifiers

    [reqwest::Url], [tonic::Status] and the [uuid] crate as the code uses them.
    The parsers and generators are parameters. *)
From S2P Require Import Prelude.
Local Open Scope string_scope.

(** What the code reads of a parsed URL. *)
Record Url := {
  scheme : string;
  host_str : option string;
  username : string;
  password : option string;
  path : string;
  url_query : option string;
  fragment : option string;
}.

(** [Url::parse]. *)
Class UrlParser := { url_parse : string -> anyhow Url }.

(** [matches!(url.scheme(), "http" | "https") && url.host_str().is_some()] *)
Definition is_http (u : Url) : bool :=
  (bool_decide (scheme u = "http") || bool_decide (scheme u = "https"))
  && bool_decide (is_Some (host_str u)).

(** [Uuid::parse_str(..).is_ok()]; [Uuid::new_v4()] is an argument of the
    definitions that draw one. *)
Class UuidParser := { uuid_ok : string -> bool }.

Inductive Code :=
| InvalidArgument | Unauthenticated | PermissionDenied | FailedPrecondition
| Unavailable | Internal.
#[export] Instance Code_eq_dec : EqDecision Code.
Proof. solve_decision. Defined.

Record Status := { status_code : Code; status_message : string }.
#[export] Instance Status_eq_dec : EqDecision Status.
Proof. solve_decision. Defined.

Definition status (c : Code) (msg : string) : Status :=
  {| status_code := c; status_message := msg |}.

(** ** Concrete instances, to evaluate the models *)

Definition origin_and_path (s : string) : string * string :=
  match split_char "/"%char s with
  | h :: rest => (h, "/" +:+ join_char "/"%char rest)
  | [] => (s, "/")
  end.

(** [scheme://host/path] without credentials, query or fragment. *)
#[export] Instance plain_url_parser : UrlParser | 100 := {|
  url_parse s :=
    match strip_prefix "https://" s, strip_prefix "http://" s with
    | Some r, _ =>
        let '(h, p) := origin_and_path r in
        Ok {| scheme := "https"; host_str := Some h; username := ""; password := None;
              path := p; url_query := None; fragment := None |}
    | None, Some r =>
        let '(h, p) := origin_and_path r in
        Ok {| scheme := "http"; host_str := Some h; username := ""; password := None;
              path := p; url_query := None; fragment := None |}
    | None, None => Err ["relative URL without a base"]
    end
|}.

#[export] Instance hyphenated_uuid_parser : UuidParser | 100 := {|
  uuid_ok s :=
    (len s =? 36)%Z
    && all_bytes (fun a => is_ascii_hexdigit a || Ascii.eqb a "-"%char) s
|}.
