(* ===== verification/Json.v ===== *)
(** * The [serde_json] interface

    [serde_json] is not part of the repository.  The models take the type of
    JSON documents and the few operations the code calls as parameters;
    [text_json] is a small concrete instance, used to evaluate the models. *)
From S2P Require Import Prelude.
Local Open Scope string_scope.

(** [Value] with [PartialEq], [Value::Null], [Value::is_object] and
    [serde_json::to_vec].  [value_eqb] is not assumed to be Leibniz equality:
    [PartialEq] identifies the floats [0.0] and [-0.0]. *)
Class Json := {
  Value : Type;
  Null : Value;
  value_eqb : Value -> Value -> bool;
  is_object : Value -> bool;
  value_to_vec : Value -> anyhow bytes;
}.

(** What the code relies on: comparison is an equivalence. *)
Class JsonLaws (J : Json) : Prop := {
  value_eqb_refl (v : Value) : value_eqb v v = true;
  value_eqb_sym (v w : Value) : value_eqb v w = value_eqb w v;
  value_eqb_trans (u v w : Value) :
    value_eqb u v = true -> value_eqb v w = true -> value_eqb u w = true;
}.

(** [Option<Value>] compared with [Some(&value)]. *)
Definition option_value_eqb `{Json} (o : option Value) (v : Value) : bool :=
  match o with Some w => value_eqb w v | None => false end.

(** The concrete instance: a document is its own compact text. *)
Definition text_to_vec (s : string) : bytes :=
  Ascii.byte_of_ascii <$> String.list_ascii_of_string s.
#[export] Instance text_json : Json | 100 := {|
  Value := string;
  Null := "null";
  value_eqb := String.eqb;
  is_object s := starts_with s "{";
  value_to_vec s := Ok (text_to_vec s);
|}.

#[export] Instance text_json_laws : JsonLaws text_json.
Proof.
  split; simpl.
  - apply String.eqb_refl.
  - apply String.eqb_sym.
  - intros u v w H1%String.eqb_eq H2%String.eqb_eq. apply String.eqb_eq. congruence.
Qed.
