(* ===== verification/Identity.v ===== *)
(** * Actor identity

    Namespaces, actor keys and the storage keys derived from them
    ([src/actor/protocol.rs], [src/actor_state.rs]), host identifiers
    ([src/host.rs]) and region names ([src/placement.rs]). *)
From S2P Require Import Prelude Json.
Local Open Scope string_scope.

(** [pub struct HostId(String)] and [pub struct ActorStorageKey(String)]. *)
Abbreviation HostId := string (only parsing).
Abbreviation ActorStorageKey := string (only parsing).

Inductive ActorProcessRole := Workflow | Host.
#[export] Instance ActorProcessRole_eq_dec : EqDecision ActorProcessRole.
Proof. solve_decision. Defined.

Definition MAX_NAMESPACE_ID_BYTES : Z := 96.
Definition MAX_ACTOR_TYPE_BYTES : Z := 48.
Definition MAX_ACTOR_ID_BYTES : Z := 128.
Definition MAX_METHOD_BYTES : Z := 128.

Definition component_byte (a : ascii) : bool :=
  is_ascii_alphanumeric a || is_dash_underscore_dot a.

Definition validate_component (name value : string) (max_bytes : Z) : anyhow () :=
  ensure (negb (is_empty value)) (name +:+ " must not be empty");;
  ensure (len value <=? max_bytes)%Z
    (name +:+ " must be at most " +:+ display_u64 max_bytes +:+ " bytes");;
  ensure (all_bytes component_byte value)
    (name +:+ " may contain only ASCII letters, digits, '.', '-', and '_'").

Record ActorScope := { scope_namespace_id : string }.

(** [HostEndpoint] of [src/host.rs]. *)
Record HostEndpoint := { endpoint_id : HostId; endpoint_route : string }.

Record ActorKey := {
  namespace_id : string;
  actor_type : string;
  actor_id : string;
}.
#[export] Instance ActorKey_eq_dec : EqDecision ActorKey.
Proof. solve_decision. Defined.
#[export] Instance ActorKey_countable : Countable ActorKey.
Proof.
  refine (inj_countable' (fun k => (namespace_id k, actor_type k, actor_id k))
            (fun '(n, t, i) => {| namespace_id := n; actor_type := t; actor_id := i |}) _).
  by intros [].
Defined.

Definition ActorScope_validate (s : ActorScope) : anyhow () :=
  validate_component "namespace ID" (scope_namespace_id s) MAX_NAMESPACE_ID_BYTES.

Definition ActorScope_contains (s : ActorScope) (actor : ActorKey) : bool :=
  bool_decide (namespace_id actor = scope_namespace_id s).

Definition storage_key (k : ActorKey) : ActorStorageKey :=
  "object.v1." +:+ namespace_id k +:+ "." +:+ actor_type k +:+ "." +:+ actor_id k.

Definition ActorStorageKey_validate (k : ActorStorageKey) : anyhow () :=
  ensure (negb (is_empty k)) "actor storage key must not be empty";;
  ensure (len k <=? 255)%Z "actor storage key must be at most 255 bytes";;
  ensure (bool_decide (k <> ".") && bool_decide (k <> ".."))
    "actor storage key must not be a relative path component";;
  ensure (negb (existsb (fun c => (c =? 47)%N || (c =? 92)%N || is_control c) (chars k)))
    "actor storage key must not contain path separators or control characters".

Definition ActorKey_validate (k : ActorKey) : anyhow () :=
  validate_component "namespace ID" (namespace_id k) MAX_NAMESPACE_ID_BYTES;;
  validate_component "actor type" (actor_type k) MAX_ACTOR_TYPE_BYTES;;
  validate_component "actor ID" (actor_id k) MAX_ACTOR_ID_BYTES;;
  ActorStorageKey_validate (storage_key k).

Definition validate_region (region : string) : anyhow () :=
  ensure (negb (is_empty region) && (len region <=? 64)%Z
          && all_bytes (fun a => is_ascii_lowercase a || is_ascii_digit a
                                 || is_dash_underscore_dot a) region)
    "sandbox region is invalid".

Section Invocation.
Context `{J : Json}.

Record ActorInvocation := {
  request_id : string;
  actor : ActorKey;
  method : string;
  args : list Value;
}.

Definition ActorInvocation_validate (i : ActorInvocation) : anyhow () :=
  ensure (negb (is_empty (request_id i))) "request ID must not be empty";;
  ensure (len (request_id i) <=? 255)%Z "request ID must be at most 255 bytes";;
  ActorKey_validate (actor i);;
  validate_component "actor method" (method i) MAX_METHOD_BYTES;;
  mret ().
End Invocation.

Record ActorInvocationFailure := { code : string; message : string }.
#[export] Instance ActorInvocationFailure_eq_dec : EqDecision ActorInvocationFailure.
Proof. solve_decision. Defined.

Definition outcome_unknown_after_execution : ActorInvocationFailure := {|
  code := "outcome_unknown";
  message := "actor execution completed, but its durable publication outcome could not be confirmed";
|}.

(** ** What a validated key guarantees *)

Definition component_ok (value : string) (max_bytes : Z) : Prop :=
  (1 <= len value <= max_bytes)%Z /\ all_bytes component_byte value = true.

Lemma validate_component_Ok name value max_bytes :
  validate_component name value max_bytes = Ok tt <-> component_ok value max_bytes.
Proof.
  unfold validate_component, component_ok. split.
  - intros H. inv_ok. bool_prop. apply is_empty_false in H.
    split; [| done]. split; [| done]. destruct value; [done |]. unfold len. simpl. lia.
  - intros [[Hlo Hhi] Hb].
    replace (is_empty value) with false by (destruct value; [by compute in Hlo | done]).
    apply Z.leb_le in Hhi. simpl. rewrite Hhi, Hb. done.
Qed.

Lemma component_byte_graphic a : component_byte a = true -> is_ascii_graphic a = true.
Proof. unfold component_byte. byte_range. lia. Qed.

Lemma component_ok_graphic value max_bytes :
  component_ok value max_bytes -> all_bytes is_ascii_graphic value = true.
Proof. intros [_ H]. revert H. apply all_bytes_impl, component_byte_graphic. Qed.

(** The bytes a storage key is made of when its components are valid: no path
    separator, no control character. *)
Lemma storage_key_component_bytes k m1 m2 m3 :
  component_ok (namespace_id k) m1 -> component_ok (actor_type k) m2 ->
  component_ok (actor_id k) m3 ->
  all_bytes component_byte (storage_key k) = true.
Proof.
  intros [_ H1] [_ H2] [_ H3]. unfold storage_key.
  rewrite !all_bytes_append, H1, H2, H3. done.
Qed.

Lemma component_bytes_no_separator s :
  all_bytes component_byte s = true ->
  existsb (fun c => (c =? 47)%N || (c =? 92)%N || is_control c) (chars s) = false.
Proof.
  intros H. assert (Hg : all_bytes is_ascii_graphic s = true).
  { revert H. apply all_bytes_impl, component_byte_graphic. }
  unfold chars. rewrite char_chunks_ascii by done. rewrite <- list_fmap_compose.
  induction s as [| a s IH]; [done |]. simpl in H, Hg.
  apply andb_true_iff in H as [Ha H], Hg as [_ Hg].
  cbn [String.list_ascii_of_string]. rewrite fmap_cons. cbn [existsb]. rewrite IH by done.
  unfold component_byte in Ha. byte_range.
  unfold is_control, code_point. simpl.
  rewrite !orb_false_iff, andb_false_iff, !N.leb_gt, !N.eqb_neq. lia.
Qed.

Lemma storage_key_prefix_nonempty k :
  is_empty (storage_key k) = false /\ storage_key k <> "." /\ storage_key k <> "..".
Proof. done. Qed.

Lemma ActorStorageKey_validate_component_bytes k :
  all_bytes component_byte k = true ->
  is_empty k = false -> k <> "." -> k <> ".." ->
  ActorStorageKey_validate k = Ok tt <-> (len k <= 255)%Z.
Proof.
  intros Hb He H1 H2. unfold ActorStorageKey_validate.
  rewrite He, component_bytes_no_separator by done.
  rewrite !bool_decide_eq_true_2 by done. simpl. unfold ensure, bail.
  destruct (len k <=? 255)%Z eqn:Hl; bool_prop; split; done || lia.
Qed.

Lemma len_storage_key k :
  len (storage_key k) =
    (12 + len (namespace_id k) + len (actor_type k) + len (actor_id k))%Z.
Proof. unfold storage_key. rewrite !len_append. change (len "object.v1.") with 10%Z. change (len ".") with 1%Z. lia. Qed.

Lemma ActorKey_validate_components k :
  ActorKey_validate k = Ok tt ->
  component_ok (namespace_id k) MAX_NAMESPACE_ID_BYTES /\
  component_ok (actor_type k) MAX_ACTOR_TYPE_BYTES /\
  component_ok (actor_id k) MAX_ACTOR_ID_BYTES /\
  ActorStorageKey_validate (storage_key k) = Ok tt.
Proof.
  unfold ActorKey_validate. intros H. inv_ok.
  rewrite validate_component_Ok in *. done.
Qed.

(** An actor key is accepted exactly when each of its three components is
    non-empty, within its own bound and made of letters, digits, ['.'], ['-']
    and ['_'], and the three together leave room for the ["object.v1.."]
    framing inside 255 bytes.  The path-separator, control-character and
    relative-path tests of the storage key never reject anything more. *)
Lemma ActorKey_validate_iff (k : ActorKey) :
  ActorKey_validate k = Ok tt <->
  component_ok (namespace_id k) MAX_NAMESPACE_ID_BYTES /\
  component_ok (actor_type k) MAX_ACTOR_TYPE_BYTES /\
  component_ok (actor_id k) MAX_ACTOR_ID_BYTES /\
  (len (namespace_id k) + len (actor_type k) + len (actor_id k) <= 243)%Z.
Proof.
  split.
  - intros (H1 & H2 & H3 & H)%ActorKey_validate_components.
    apply ActorStorageKey_validate_component_bytes in H;
      [| by eapply storage_key_component_bytes | done..].
    rewrite len_storage_key in H. repeat split; first [apply H1 | apply H2 | apply H3 | lia].
  - intros (H1 & H2 & H3 & H). unfold ActorKey_validate.
    rewrite (proj2 (validate_component_Ok _ _ _) H1), (proj2 (validate_component_Ok _ _ _) H2),
      (proj2 (validate_component_Ok _ _ _) H3).
    apply ActorStorageKey_validate_component_bytes;
      [by eapply storage_key_component_bytes | done.. |].
    rewrite len_storage_key. lia.
Qed.

(** ** Storage keys of different actors *)

Definition dot : ascii := "."%char.

Lemma storage_key_split k k' :
  storage_key k = storage_key k' ->
  namespace_id k +:+ String dot (actor_type k +:+ String dot (actor_id k)) =
  namespace_id k' +:+ String dot (actor_type k' +:+ String dot (actor_id k')).
Proof. unfold storage_key. intros H%append_inj_l. exact H. Qed.

Lemma append_sep_inj c s t s' t' :
  contains_char c s = false -> contains_char c s' = false ->
  s +:+ String c t = s' +:+ String c t' -> s = s' /\ t = t'.
Proof.
  intros Hs Hs' H. apply (f_equal (split_char c)) in H as Hsp.
  rewrite !split_char_append in Hsp by done. injection Hsp as -> Ht.
  split; [done |]. by eapply split_char_inj.
Qed.

(** Storage keys tell actors apart as long as the namespace and the actor
    type contain no ['.']: placements, snapshots and resident state of two
    different actors of such tenants are kept under different keys. *)
Lemma storage_key_injective (k k' : ActorKey)
    (Hns : contains_char dot (namespace_id k) = false)
    (Hty : contains_char dot (actor_type k) = false)
    (Hns' : contains_char dot (namespace_id k') = false)
    (Hty' : contains_char dot (actor_type k') = false) :
  storage_key k = storage_key k' -> k = k'.
Proof.
  intros H%storage_key_split. destruct k, k'; simpl in *.
  apply append_sep_inj in H as [-> H]; [| done..].
  apply append_sep_inj in H as [-> ->]; done.
Qed.

Definition tenant_a : ActorKey :=
  {| namespace_id := "acme"; actor_type := "eu.cart"; actor_id := "1" |}.
Definition tenant_b : ActorKey :=
  {| namespace_id := "acme.eu"; actor_type := "cart"; actor_id := "1" |}.

Lemma storage_key_injective_witness :
  let k := {| namespace_id := "acme"; actor_type := "cart"; actor_id := "a.b" |} in
  storage_key k = "object.v1.acme.cart.a.b" /\ k = k.
Proof. split; [reflexivity |]. apply storage_key_injective; reflexivity. Defined.

(** without that restriction validation does not separate tenants: two
    valid keys of different namespaces share one storage key, hence one
    placement record and one snapshot history. *)
Lemma storage_key_collides_across_namespaces :
  exists k k' : ActorKey,
    ActorKey_validate k = Ok tt /\ ActorKey_validate k' = Ok tt /\
    namespace_id k <> namespace_id k' /\ storage_key k = storage_key k'.
Proof. exists tenant_a, tenant_b. repeat split; done || (by vm_compute). Qed.
