(* ===== verification/SocketProtocol.v ===== *)
(** * Socket messages, events and effects

    The data the actor executor exchanges with the host
    ([src/actor/executor_connection.rs], types of the file's head), the outcome
    of an execution ([src/actor/protocol.rs]) and the validation of the effects
    an actor asks for ([src/actor/socket.rs]). *)
From S2P Require Import Prelude Json Identity.
Local Open Scope string_scope.

Definition MAX_SOCKET_METADATA_BYTES : Z := 64 * 1024.
Definition MAX_SOCKET_MESSAGE_BYTES : Z := 16 * 1024 * 1024.
Definition MAX_SOCKET_CONNECTION_ID_BYTES : Z := 128.
Definition MAX_SOCKET_TAGS : Z := 128.
Definition MAX_SOCKET_TAG_CHARACTERS : Z := 256.
Definition MAX_SOCKET_TAG_BYTES : Z := 8 * 1024.
Definition MAX_SOCKET_CLOSE_REASON_BYTES : Z := 123.

Definition vec_len {A} (l : list A) : Z := Z.of_nat (length l).

(** The [base64] crate's [STANDARD] engine. *)
Class Base64 := { base64_decode : string -> anyhow bytes }.
(** [STANDARD] insists on canonical padding: [n] bytes are encoded in exactly
    [4 * ceil (n / 3)] characters. *)
Class Base64Laws (B : Base64) : Prop := {
  base64_decode_len s b :
    base64_decode s = Ok b -> len s = ((bytes_len b + 2) / 3 * 4)%Z;
}.

(** [for x in xs { f(x)?; }] *)
Fixpoint for_each {A E} (f : A -> Result E ()) (l : list A) : Result E () :=
  match l with
  | [] => Ok ()
  | x :: l' => f x;; for_each f l'
  end.

Inductive ActorSocketMessage :=
| Text (data : string)
| Binary (data : string).
#[export] Instance ActorSocketMessage_eq_dec : EqDecision ActorSocketMessage.
Proof. solve_decision. Defined.

Section Protocol.
Context `{J : Json}.

Record ActorSocketConnection := {
  id : string;
  metadata : Value;
  tags : list string;
}.

Inductive ActorSocketEvent :=
| Connect (connection : ActorSocketConnection)
| Message (connection_id : string) (message : ActorSocketMessage)
| Disconnect (connection : ActorSocketConnection) (code : Z) (reason : string)
    (was_clean : bool).

Inductive ActorSocketEffect :=
| Send (connection_id : string) (message : ActorSocketMessage)
| Broadcast (message : ActorSocketMessage) (except_connection_ids tags : list string)
| Close (connection_id : string) (code : Z) (reason : string)
| Reject (connection_id : string) (code : Z) (reason : string)
| SetMetadata (connection_id : string) (metadata : Value)
| SetTags (connection_id : string) (tags : list string).

Record ActorMethodInvocation := {
  mi_request_id : string;
  mi_actor : ActorKey;
  mi_method : string;
  mi_args : list Value;
  mi_state : option Value;
  mi_connections : list ActorSocketConnection;
}.

Record ActorSocketInvocation := {
  si_request_id : string;
  si_actor : ActorKey;
  si_event : ActorSocketEvent;
  si_connections : list ActorSocketConnection;
  si_state : option Value;
}.

Record ActorMethodEviction := { ev_actor : ActorKey }.

Inductive ActorMethodOutcome :=
| MethodCompleted (result state : Value) (effects : list ActorSocketEffect)
| MethodFailed (failure : ActorInvocationFailure).

Inductive ActorSocketOutcome :=
| Handled (state : Value) (effects : list ActorSocketEffect)
| SocketFailed (failure : ActorInvocationFailure).

Inductive ActorExecutionResult :=
| Completed (result : Value) (effects : list ActorSocketEffect)
| Failed (failure : ActorInvocationFailure)
| Reroute
| HostUnavailable.

Context `{B : Base64}.

Definition validate_socket_metadata (metadata : Value) : anyhow () :=
  bytes ← value_to_vec metadata;
  ensure (bytes_len bytes <=? MAX_SOCKET_METADATA_BYTES)%Z
    ("socket metadata exceeds " +:+ display_u64 MAX_SOCKET_METADATA_BYTES +:+ " bytes").

Definition validate_connection_id (connection_id : string) : anyhow () :=
  ensure (negb (is_empty connection_id)) "socket connection ID is empty";;
  ensure (len connection_id <=? MAX_SOCKET_CONNECTION_ID_BYTES)%Z
    ("socket connection ID exceeds " +:+ display_u64 MAX_SOCKET_CONNECTION_ID_BYTES
     +:+ " bytes").

(** The loop accumulates the tag bytes in a [usize] with [saturating_add]. *)
Fixpoint check_tags (tags : list string) (total_bytes : Z) : anyhow Z :=
  match tags with
  | [] => Ok total_bytes
  | tag :: tags' =>
      ensure (negb (is_empty tag)) "socket tag is empty";;
      ensure (vec_len (chars tag) <=? MAX_SOCKET_TAG_CHARACTERS)%Z
        ("socket tag exceeds " +:+ display_u64 MAX_SOCKET_TAG_CHARACTERS +:+ " characters");;
      check_tags tags' (u64_saturating_add total_bytes (len tag))
  end.

Definition validate_socket_tags (tags : list string) : anyhow () :=
  ensure (vec_len tags <=? MAX_SOCKET_TAGS)%Z
    ("socket tags exceed " +:+ display_u64 MAX_SOCKET_TAGS +:+ " entries");;
  total_bytes ← check_tags tags 0;
  ensure (total_bytes <=? MAX_SOCKET_TAG_BYTES)%Z
    ("socket tags exceed " +:+ display_u64 MAX_SOCKET_TAG_BYTES +:+ " bytes").

Definition validate_close (code : Z) (reason : string) : anyhow () :=
  ensure ((code =? 1000) || ((3000 <=? code) && (code <=? 4999)))%Z
    "socket close code must be 1000 or between 3000 and 4999";;
  ensure (len reason <=? MAX_SOCKET_CLOSE_REASON_BYTES)%Z
    ("socket close reason exceeds " +:+ display_u64 MAX_SOCKET_CLOSE_REASON_BYTES
     +:+ " bytes").

Definition validate_socket_message (message : ActorSocketMessage) : anyhow () :=
  match message with
  | Text data =>
      ensure (len data <=? MAX_SOCKET_MESSAGE_BYTES)%Z
        ("socket message exceeds " +:+ display_u64 MAX_SOCKET_MESSAGE_BYTES +:+ " bytes")
  | Binary data =>
      let max_encoded_bytes := ((MAX_SOCKET_MESSAGE_BYTES + 2) / 3 * 4)%Z in
      ensure (len data <=? max_encoded_bytes)%Z
        ("socket message exceeds " +:+ display_u64 MAX_SOCKET_MESSAGE_BYTES
         +:+ " decoded bytes");;
      decoded ← with_context "socket binary message is not valid base64"
                  (base64_decode data);
      ensure (bytes_len decoded <=? MAX_SOCKET_MESSAGE_BYTES)%Z
        ("socket message exceeds " +:+ display_u64 MAX_SOCKET_MESSAGE_BYTES
         +:+ " decoded bytes")
  end.

Definition validate_socket_effect (effect : ActorSocketEffect) : anyhow () :=
  match effect with
  | Send connection_id message =>
      validate_connection_id connection_id;;
      validate_socket_message message
  | Broadcast message except_connection_ids tags =>
      ensure (vec_len except_connection_ids <=? MAX_SOCKET_TAGS)%Z
        ("socket broadcast exclusions exceed " +:+ display_u64 MAX_SOCKET_TAGS
         +:+ " entries");;
      for_each validate_connection_id except_connection_ids;;
      validate_socket_tags tags;;
      validate_socket_message message
  | Close connection_id code reason | Reject connection_id code reason =>
      validate_connection_id connection_id;;
      validate_close code reason
  | SetMetadata connection_id metadata =>
      validate_connection_id connection_id;;
      validate_socket_metadata metadata
  | SetTags connection_id tags =>
      validate_connection_id connection_id;;
      validate_socket_tags tags
  end.

Definition validate_socket_effects (effects : list ActorSocketEffect) : anyhow () :=
  for_each validate_socket_effect effects.
End Protocol.

(** ** What validation establishes *)

Lemma for_each_Ok {A E} (f : A -> Result E ()) l :
  for_each f l = Ok tt <-> Forall (fun x => f x = Ok tt) l.
Proof.
  induction l as [| x l IH]; simpl; [split; auto |].
  rewrite bind_Ok, Forall_cons, <- IH. split.
  - intros ([] & ? & ?). done.
  - intros [? ?]. by exists tt.
Qed.

Lemma validate_connection_id_Ok i :
  validate_connection_id i = Ok tt <-> (1 <= len i <= 128)%Z.
Proof.
  unfold validate_connection_id. destruct i as [| a i].
  { split; [done |]. unfold len. simpl. lia. }
  simpl. rewrite ensure_Ok, Z.leb_le. unfold len. simpl. unfold MAX_SOCKET_CONNECTION_ID_BYTES.
  lia.
Qed.

Definition tag_ok (tag : string) : Prop :=
  tag <> "" /\ (vec_len (chars tag) <= 256)%Z.
Definition total_len (tags : list string) : Z := foldr (fun t n => (len t + n)%Z) 0%Z tags.

Lemma total_len_nonneg tags : (0 <= total_len tags)%Z.
Proof. induction tags as [| t tags IH]; simpl; [lia |]. pose proof (len_nonneg t). lia. Qed.

Lemma check_tags_Ok tags n r :
  (0 <= n)%Z ->
  check_tags tags n = Ok r ->
  Forall tag_ok tags /\ (n <= u64_max -> r = Z.min (n + total_len tags) u64_max)%Z.
Proof.
  revert n. induction tags as [| t tags IH]; intros n Hn; simpl; intros H.
  - inv_ok. split; [done |]. lia.
  - inv_ok. bool_prop. pose proof (len_nonneg t). pose proof (total_len_nonneg tags).
    apply IH in H1 as [? Hr]; [| unfold u64_saturating_add, u64_max; lia].
    split; [constructor; [split; [by apply is_empty_false | done] | done] |].
    unfold u64_saturating_add in Hr. lia.
Qed.

Lemma check_tags_complete tags n :
  Forall tag_ok tags -> exists r, check_tags tags n = Ok r.
Proof.
  revert n. induction tags as [| t tags IH]; intros n H; simpl; [eauto |].
  apply Forall_cons in H as [[Hne Hc] H].
  apply is_empty_false in Hne as ->. apply Z.leb_le in Hc.
  unfold MAX_SOCKET_TAG_CHARACTERS. rewrite Hc. simpl. eauto.
Qed.

(** A tag list is accepted exactly when it has at most 128 tags, each
    non-empty with at most 256 characters, 8192 bytes in all; the saturating
    sum never lets an oversized list through. *)
Lemma validate_socket_tags_iff (tags : list string) :
  validate_socket_tags tags = Ok tt <->
  (vec_len tags <= 128)%Z /\
  Forall (fun t => t <> "" /\ vec_len (chars t) <= 256)%Z tags /\
  (total_len tags <= 8192)%Z.
Proof.
  unfold validate_socket_tags. pose proof (total_len_nonneg tags). split.
  - intros H0. inv_ok. bool_prop. apply check_tags_Ok in H1 as [? Hr]; [| lia].
    unfold MAX_SOCKET_TAGS, MAX_SOCKET_TAG_BYTES, u64_max in *.
    split; [lia |]. split; [done | lia].
  - intros (Hl & Hf & Ht). destruct (check_tags_complete tags 0 Hf) as [r Hr].
    apply check_tags_Ok in Hr as Hr'; [| lia]. destruct Hr' as [_ Hr'].
    unfold MAX_SOCKET_TAGS, MAX_SOCKET_TAG_BYTES, u64_max in *.
    apply bind_Ok. exists tt. split; [by apply ensure_Ok, Z.leb_le |].
    rewrite Hr. simpl. apply ensure_Ok, Z.leb_le. lia.
Qed.

Section Messages.
Context `{J : Json} `{B : Base64} `{L : !Base64Laws B}.

(** A binary message is accepted exactly when it is valid base64 for at
    most 16 MiB; the length test made before decoding never rejects a message
    that decodes to an admissible one. *)
Lemma validate_socket_message_binary (data : string) :
  validate_socket_message (Binary data) = Ok tt <->
  exists b, base64_decode data = Ok b /\ (bytes_len b <= MAX_SOCKET_MESSAGE_BYTES)%Z.
Proof.
  simpl. split.
  - intros H. inv_ok. bool_prop. eauto.
  - intros (b & Hb & Hl). apply base64_decode_len in Hb as Hs.
    apply bind_Ok. exists tt. split; [apply ensure_Ok, Z.leb_le |].
    + rewrite Hs. apply Z.mul_le_mono_nonneg_r; [lia |].
      apply Z.div_le_mono; [lia |]. lia.
    + rewrite Hb. simpl. by apply ensure_Ok, Z.leb_le.
Qed.
End Messages.

(** A fragment of base64, enough to run the models: zero bytes, in whole
    groups of four characters. *)
Definition decode_zeros (s : string) : anyhow bytes :=
  if all_bytes (Ascii.eqb "A") s && (len s mod 4 =? 0)%Z
  then Ok (replicate (Z.to_nat (len s / 4 * 3)) Byte.x00)
  else bail "invalid base64".
#[export] Instance zeros_base64 : Base64 := {| base64_decode := decode_zeros |}.

#[export] Instance zeros_base64_laws : Base64Laws zeros_base64.
Proof.
  split. intros s b. simpl. unfold decode_zeros.
  destruct (_ && _) eqn:H; [intros [= <-] | done].
  bool_prop. unfold bytes_len. rewrite length_replicate. pose proof (len_nonneg s).
  assert (len s = 4 * (len s / 4))%Z by (apply Z.div_exact; lia).
  assert (0 <= len s / 4)%Z by (apply Z.div_pos; lia).
  rewrite Z2Nat.id by lia.
  replace (len s / 4 * 3 + 2)%Z with (2 + len s / 4 * 3)%Z by lia.
  rewrite Z.div_add by lia. change (2 / 3)%Z with 0%Z. lia.
Qed.

Lemma validate_socket_message_binary_witness :
  validate_socket_message (Binary "AAAA") = Ok tt.
Proof.
  apply (proj2 (validate_socket_message_binary "AAAA")).
  exists [Byte.x00; Byte.x00; Byte.x00]. split; [reflexivity | vm_compute; discriminate].
Defined.
