(* ===== verification/StateLog.v ===== *)
(** * State snapshots

    The document written to object storage for every committed invocation
    ([src/state_log.rs]). *)
From S2P Require Import Prelude Json.
Local Open Scope string_scope.

Definition MAX_ACTOR_STATE_BYTES : Z := 16 * 1024 * 1024.

Section Snapshot.
Context `{J : Json}.

Record StateSnapshot := {
  state_version : Z;
  owner_epoch : Z;
  request_id : string;
  state : Value;
  result : Value;
}.

Definition StateSnapshot_validate (s : StateSnapshot) : anyhow () :=
  ensure (0 <? state_version s)%Z "actor state version must be positive";;
  ensure (0 <? owner_epoch s)%Z "owner epoch must be positive";;
  ensure (negb (is_empty (request_id s)) && (len (request_id s) <=? 255)%Z)
    "actor state request ID is invalid";;
  ensure (is_object (state s)) "actor state must be a JSON object";;
  bytes ← value_to_vec (state s);
  ensure (bytes_len bytes <=? MAX_ACTOR_STATE_BYTES)%Z
    ("actor state exceeds the " +:+ display_u64 MAX_ACTOR_STATE_BYTES +:+ "-byte limit").

Definition StateSnapshot_new (state_version owner_epoch : Z) (request_id : string)
    (state result : Value) : anyhow StateSnapshot :=
  let snapshot := {| state_version := state_version; owner_epoch := owner_epoch;
                     request_id := request_id; state := state; result := result |} in
  StateSnapshot_validate snapshot;;
  Ok snapshot.

(** [serde_json::to_vec] and [from_slice] at [StateSnapshot]. *)
Class SnapshotSerde := {
  snapshot_to_vec : StateSnapshot -> anyhow bytes;
  snapshot_from_slice : bytes -> anyhow StateSnapshot;
}.
(** [from_slice] reads back what [to_vec] wrote. *)
Class SnapshotSerdeLaws (C : SnapshotSerde) : Prop := {
  snapshot_round_trip s b : snapshot_to_vec s = Ok b -> snapshot_from_slice b = Ok s;
}.

Context `{C : SnapshotSerde}.

Definition decode (bytes : bytes) : anyhow StateSnapshot :=
  snapshot ← with_context "decode actor state snapshot" (snapshot_from_slice bytes);
  StateSnapshot_validate snapshot;;
  Ok snapshot.

Definition encode (s : StateSnapshot) : anyhow bytes :=
  StateSnapshot_validate s;;
  snapshot_to_vec s.

Definition replay (s : StateSnapshot) (request : string) : option Value :=
  if bool_decide (request_id s = request) then Some (result s) else None.

(** What a snapshot that was built, read or written satisfies. *)
Definition snapshot_wf (s : StateSnapshot) : Prop :=
  (0 < state_version s)%Z /\ (0 < owner_epoch s)%Z /\
  (1 <= len (request_id s) <= 255)%Z /\ is_object (state s) = true /\
  exists b, value_to_vec (state s) = Ok b /\ (bytes_len b <= MAX_ACTOR_STATE_BYTES)%Z.

Lemma StateSnapshot_validate_Ok s :
  StateSnapshot_validate s = Ok tt <-> snapshot_wf s.
Proof.
  unfold StateSnapshot_validate, snapshot_wf. split.
  - intros H. inv_ok. bool_prop. repeat split; try done; [| eauto].
    apply is_empty_false in H1. destruct (request_id s); [done |]. unfold len. simpl. lia.
  - intros (Hv%Z.ltb_lt & He%Z.ltb_lt & [Hl Hu%Z.leb_le] & Ho & b & Hb & Hn%Z.leb_le).
    rewrite Hv, He, Hu, Ho, Hb. simpl. rewrite Hn.
    destruct (request_id s); [by compute in Hl | done].
Qed.

Lemma StateSnapshot_new_Ok v e r st res s :
  StateSnapshot_new v e r st res = Ok s <->
  s = Build_StateSnapshot v e r st res /\ snapshot_wf s.
Proof.
  unfold StateSnapshot_new. rewrite bind_Ok. split.
  - intros ([] & ?%StateSnapshot_validate_Ok & [= <-]). done.
  - intros [-> ?%StateSnapshot_validate_Ok]. by exists tt.
Qed.

Lemma decode_wf b s : decode b = Ok s -> snapshot_wf s.
Proof. unfold decode. intros H. inv_ok. by apply StateSnapshot_validate_Ok. Qed.

Lemma encode_wf s b : encode s = Ok b -> snapshot_wf s.
Proof. unfold encode. intros H. inv_ok. by apply StateSnapshot_validate_Ok. Qed.

Lemma replay_Some s r v : replay s r = Some v <-> request_id s = r /\ v = result s.
Proof.
  unfold replay. case_bool_decide; split; [| | done |];
    [intros [= <-] | intros [_ ->] | intros [? _]]; done.
Qed.

(** A snapshot that was written is read back unchanged: [decode] accepts
    exactly what [encode] produced, with every validated bound in force. *)
Lemma decode_encode `{L : !SnapshotSerdeLaws C} (s : StateSnapshot) (b : bytes) :
  encode s = Ok b -> decode b = Ok s /\ snapshot_wf s.
Proof.
  intros H. apply encode_wf in H as Hwf. split; [| done].
  unfold encode in H. inv_ok. apply snapshot_round_trip in H0.
  unfold decode. rewrite H0. simpl. by rewrite H.
Qed.
End Snapshot.

(** A concrete serialization, for evaluation: the five fields in sequence, the
    integers in unary and each text closed by a NUL byte. *)
Definition put_text (s : string) (rest : bytes) : bytes :=
  ((Ascii.byte_of_ascii <$> String.list_ascii_of_string s) ++ Byte.x00 :: rest)%list.
Fixpoint get_text (b : bytes) : anyhow (string * bytes) :=
  match b with
  | [] => bail "unexpected end"
  | Byte.x00 :: rest => Ok ("", rest)
  | x :: rest => '(s, rest) ← get_text rest; Ok (String (Ascii.ascii_of_byte x) s, rest)
  end.
Definition put_int (z : Z) (rest : bytes) : bytes :=
  (replicate (Z.to_nat z) Byte.x01 ++ Byte.x00 :: rest)%list.
Fixpoint get_int (b : bytes) : anyhow (Z * bytes) :=
  match b with
  | Byte.x01 :: rest => '(z, rest) ← get_int rest; Ok (z + 1, rest)%Z
  | Byte.x00 :: rest => Ok (0%Z, rest)
  | _ => bail "expected an integer"
  end.
Definition no_nul (s : string) : bool := all_bytes (fun a => negb (Ascii.eqb a "000")) s.

#[export] Instance text_serde : SnapshotSerde (J := text_json) := {|
  snapshot_to_vec s :=
    if no_nul (request_id s) && no_nul (state s) && no_nul (result s)
       && (0 <=? state_version s)%Z && (0 <=? owner_epoch s)%Z
    then Ok (put_int (state_version s) (put_int (owner_epoch s)
               (put_text (request_id s) (put_text (state s) (put_text (result s) [])))))
    else bail "unsupported text";
  snapshot_from_slice b :=
    '(v, b) ← get_int b; '(e, b) ← get_int b; '(r, b) ← get_text b;
    '(st, b) ← get_text b; '(res, _) ← get_text b;
    Ok (Build_StateSnapshot (J := text_json) v e r st res);
|}.

Lemma get_put_text s rest : no_nul s = true -> get_text (put_text s rest) = Ok (s, rest).
Proof.
  unfold no_nul, put_text. induction s as [| a s IH]; [done |]. intros H.
  simpl in H. bool_prop. specialize (IH H0). cbn [String.list_ascii_of_string].
  rewrite fmap_cons. simpl.
  destruct (Ascii.byte_of_ascii a) eqn:Ha;
    [apply (f_equal Ascii.ascii_of_byte) in Ha;
     rewrite Ascii.ascii_of_byte_of_ascii in Ha; subst; done |..];
    simpl in *; rewrite IH; simpl; rewrite <- Ha, Ascii.ascii_of_byte_of_ascii; done.
Qed.

Lemma get_put_int z rest : (0 <= z)%Z -> get_int (put_int z rest) = Ok (z, rest).
Proof.
  unfold put_int. intros Hz. rewrite <- (Z2Nat.id z) at 2 by done.
  induction (Z.to_nat z) as [| n IH]; simpl; [done |].
  rewrite IH. simpl. do 2 f_equal. lia.
Qed.

#[export] Instance text_serde_laws : SnapshotSerdeLaws text_serde.
Proof.
  split. intros s b. simpl. destruct (_ && _) eqn:H; [intros [= <-] | done].
  bool_prop. rewrite get_put_int by done. simpl. rewrite get_put_int by done. simpl.
  rewrite get_put_text by done. simpl. rewrite get_put_text by done. simpl.
  rewrite get_put_text by done. by destruct s.
Qed.

Lemma decode_encode_witness :
  let s := Build_StateSnapshot (J := text_json) 3 2 "req" "{}" "null" in
  exists b, decode b = Ok s /\ snapshot_wf s.
Proof. eexists. apply decode_encode. vm_compute. reflexivity. Defined.
