(* ===== verification/StorageUrls.v ===== *)
(** * Snapshot object names and signed URLs

    Names of state snapshots in object storage, the regional bucket map and the
    tickets that let a host write one snapshot ([src/storage_urls.rs]), and the
    status handling of the HTTP transport ([src/state_transport.rs]).  The
    URL signer, the URL parser and the UUID generator are not part of the
    repository. *)
From stdpp Require Import sorting.
From S2P Require Import Prelude Identity.
Local Open Scope string_scope.

Definition SIGNED_URL_TTL_MILLIS : Z := 60 * 1000.
Definition STATE_CONTENT_TYPE : string := "application/json".

Record StateWriteTicket := {
  state_version : Z;
  object_name : string;
  url : string;
  expires_at_ms : Z;
}.
#[export] Instance StateWriteTicket_eq_dec : EqDecision StateWriteTicket.
Proof. solve_decision. Defined.

(** [SignedUrlBuilder]: bucket, object, method, expiration in milliseconds,
    headers and query parameters to a URL. *)
Class UrlSigner := {
  sign_url : string -> string -> string -> Z -> list (string * string) ->
             list (string * string) -> anyhow string;
}.

Definition slash : ascii := "/"%char.

(** [{value:?}] of a string without characters to escape. *)
Definition quoted (value : string) : string :=
  String (Ascii.ascii_of_N 34) (value +:+ String (Ascii.ascii_of_N 34) "").

Definition is_nonce (nonce : string) : bool :=
  (len nonce =? 32)%Z && all_bytes is_ascii_hexdigit nonce.

Definition validate_object_name (object_name : string) : anyhow () :=
  ensure (starts_with object_name "snapshots/" && (len object_name <=? 1024)%Z
          && negb (existsb is_control (chars object_name)))
    "actor state object name is invalid".

Definition snapshot_object_name (actor : ActorKey) (state_version : Z) (nonce : string)
    : anyhow string :=
  ActorKey_validate actor;;
  ensure (0 <? state_version)%Z "actor state version must be positive";;
  ensure (is_nonce nonce) "actor state object nonce is invalid";;
  Ok ("snapshots/" +:+ String.substring 0 2 nonce +:+ "/" +:+ nonce +:+ "/"
      +:+ namespace_id actor +:+ "/" +:+ actor_type actor +:+ "/" +:+ actor_id actor
      +:+ "/" +:+ display_u64 state_version +:+ ".json").

(** The [split('/')] iterator is consumed one [next()] at a time. *)
Definition next (parts : list string) : option string * list string :=
  match parts with [] => (None, []) | p :: ps => (Some p, ps) end.

Definition validate_snapshot_object_name (actor : ActorKey) (state_version : Z)
    (object_name : string) : anyhow () :=
  validate_object_name object_name;;
  let '(p1, parts) := next (split_char slash object_name) in
  let '(p2, parts) := next parts in
  let '(p3, parts) := next parts in
  let '(p4, parts) := next parts in
  let '(p5, parts) := next parts in
  let '(p6, parts) := next parts in
  let '(p7, parts) := next parts in
  let '(p8, _) := next parts in
  let valid :=
    bool_decide (p1 = Some "snapshots")
    && match p2, p3 with
       | Some prefix, Some nonce =>
           starts_with nonce prefix && (len prefix =? 2)%Z && (len nonce =? 32)%Z
           && all_bytes is_ascii_hexdigit nonce
       | _, _ => false
       end
    && bool_decide (p4 = Some (namespace_id actor))
    && bool_decide (p5 = Some (actor_type actor))
    && bool_decide (p6 = Some (actor_id actor))
    && bool_decide (p7 = Some (display_u64 state_version +:+ ".json"))
    && bool_decide (p8 = None) in
  ensure valid "actor state object name does not match its commit".

(** The entries are visited in the map's iteration order. *)
Fixpoint validate_bucket_entries (entries : list (string * string)) : anyhow () :=
  match entries with
  | [] => Ok ()
  | (region, bucket) :: entries' =>
      validate_region region;;
      ensure (negb (is_empty bucket) && bool_decide (trim bucket = bucket)
              && (len bucket <=? 222)%Z && negb (contains_char slash bucket))
        ("Standard bucket for region " +:+ quoted region +:+ " is invalid");;
      validate_bucket_entries entries'
  end.

Definition validate_buckets (buckets : gmap string string) : anyhow () :=
  ensure (negb (bool_decide (buckets = ∅))) "Standard bucket map must not be empty";;
  validate_bucket_entries (map_to_list buckets).

(** [GcsStorageUrlSigner]: the bucket map; the key that signs is the instance. *)
Record GcsStorageUrlSigner := { buckets : gmap string string }.

Definition GcsStorageUrlSigner_new (buckets : gmap string string)
    : anyhow GcsStorageUrlSigner :=
  validate_buckets buckets;;
  Ok {| buckets := buckets |}.

Definition bucket (g : GcsStorageUrlSigner) (region : string) : anyhow string :=
  validate_region region;;
  some_or ("sandbox region " +:+ quoted region +:+ " has no Standard bucket")
    (String.append "projects/_/buckets/" <$> buckets g !! region).

(** [elapsed] is [SystemTime::now().duration_since(UNIX_EPOCH)] in
    milliseconds, [None] when the clock is before the epoch. *)
Definition unix_millis (elapsed : option Z) : anyhow Z :=
  millis ← match elapsed with
           | Some millis => Ok millis
           | None => Err ["system clock is before the Unix epoch";
                          "second time provided was later than self"]
           end;
  match i64_try_from millis with
  | Some millis => Ok millis
  | None => Err ["system clock exceeds supported state-write timestamp range";
                 "out of range integral type conversion attempted"]
  end.

Section Signer.
Context `{U : UrlSigner}.

Definition read_url (g : GcsStorageUrlSigner) (region object_name : string)
    : anyhow string :=
  validate_object_name object_name;;
  bucket ← bucket g region;
  with_context "sign GCS actor-state read URL"
    (sign_url bucket object_name "GET" SIGNED_URL_TTL_MILLIS [] []).

(** [nonce] is [Uuid::new_v4().simple()], [elapsed] the clock. *)
Definition write_ticket (g : GcsStorageUrlSigner) (nonce : string) (elapsed : option Z)
    (region : string) (actor : ActorKey) (state_version : Z) : anyhow StateWriteTicket :=
  ActorKey_validate actor;;
  ensure (0 <? state_version)%Z "actor state version must be positive";;
  object_name ← snapshot_object_name actor state_version nonce;
  now ← unix_millis elapsed;
  expires_at_ms ← some_or "signed state-write URL expiration overflow"
                    (i64_checked_add now SIGNED_URL_TTL_MILLIS);
  bucket ← bucket g region;
  url ← with_context "sign GCS actor-state write URL"
          (sign_url bucket object_name "PUT" SIGNED_URL_TTL_MILLIS
             [("content-type", STATE_CONTENT_TYPE)] [("ifGenerationMatch", "0")]);
  Ok {| state_version := state_version; object_name := object_name; url := url;
        expires_at_ms := expires_at_ms |}.
End Signer.

Definition string_le (a b : string) : Prop := String.leb a b = true.
#[export] Instance string_le_dec : RelDecision string_le.
Proof. intros a b. unfold string_le. apply _. Defined.

Definition regions (g : GcsStorageUrlSigner) : list string :=
  merge_sort string_le ((map_to_list (buckets g)).*1).

(** ** Transport *)

Record LoadedState := { ls_bytes : bytes }.
Inductive StateWrite := Written | AlreadyExists.
#[export] Instance StateWrite_eq_dec : EqDecision StateWrite.
Proof. solve_decision. Defined.

Section Transport.
(** [reqwest::Url::parse]: scheme and host of a URL, and one HTTP exchange:
    a status line and the body, which may fail to arrive. *)
Context (url_parse : string -> anyhow (string * option string)).

Definition validate_url (url : string) : anyhow () :=
  '(scheme, host) ← with_context "parse signed actor-state URL" (url_parse url);
  ensure ((bool_decide (scheme = "http") || bool_decide (scheme = "https"))
          && bool_decide (is_Some host))
    "signed actor-state URL must be HTTP or HTTPS".

Definition is_success (status : Z) : bool := (200 <=? status)%Z && (status <=? 299)%Z.

Definition http_read (signed_url : string) (response : anyhow (Z * anyhow bytes))
    (display_status : Z -> string) : anyhow LoadedState :=
  validate_url signed_url;;
  '(status, body) ← with_context "read actor state through signed URL" response;
  ensure (is_success status)
    ("actor-state read failed with HTTP " +:+ display_status status);;
  bytes ← with_context "read actor-state response body" body;
  Ok {| ls_bytes := bytes |}.

Definition http_write (signed_url : string) (response : anyhow Z)
    (display_status : Z -> string) : anyhow StateWrite :=
  validate_url signed_url;;
  status ← with_context "write actor state through signed URL" response;
  if (status =? 412)%Z then Ok AlreadyExists
  else
    ensure (is_success status)
      ("actor-state write failed with HTTP " +:+ display_status status);;
    Ok Written.
End Transport.

(** ** Object names *)

#[local] Arguments String.append !_ _ / : simpl nomatch.

Lemma component_no_slash value m : component_ok value m -> contains_char slash value = false.
Proof. intros [_ H]. by apply (contains_char_all_bytes component_byte). Qed.

Lemma hex_graphic a : is_ascii_hexdigit a = true -> is_ascii_graphic a = true.
Proof. unfold is_ascii_hexdigit. byte_range. lia. Qed.

Lemma digit_graphic a : is_ascii_digit a = true -> is_ascii_graphic a = true.
Proof. byte_range. lia. Qed.

Lemma substring_all_bytes p n m s :
  all_bytes p s = true -> all_bytes p (String.substring n m s) = true.
Proof.
  revert n m. induction s as [| a s IH]; intros [| n] [| m] H; simpl in *; try done;
    apply andb_true_iff in H as [Ha H]; rewrite ?Ha, ?IH by done; auto.
Qed.

Lemma substring_0_2 s :
  (2 <= len s)%Z -> exists a b r,
    s = String a (String b r) /\ String.substring 0 2 s = String a (String b "").
Proof.
  unfold len. destruct s as [| a [| b r]]; simpl; [lia.. |]. intros _. exists a, b, r.
  split; [done |]. by destruct r.
Qed.

Definition object_parts (actor : ActorKey) (version : Z) (nonce : string) : list string :=
  ["snapshots"; String.substring 0 2 nonce; nonce; namespace_id actor; actor_type actor;
   actor_id actor; display_u64 version +:+ ".json"].

Lemma snapshot_object_name_parts actor version nonce name :
  snapshot_object_name actor version nonce = Ok name ->
  is_nonce nonce = true /\ ActorKey_validate actor = Ok tt /\ (0 < version)%Z /\
  name = join_char slash (object_parts actor version nonce).
Proof.
  unfold snapshot_object_name. intros H. inv_ok. bool_prop. done.
Qed.

Lemma split_join_char c l :
  l <> [] -> Forall (fun s => contains_char c s = false) l ->
  split_char c (join_char c l) = l.
Proof.
  intros Hne Hf. induction Hf as [| s l Hs Hf IH]; [done |].
  destruct l as [| t l]; simpl; [by apply split_char_none |].
  rewrite split_char_append by done. f_equal. by apply IH.
Qed.

Lemma is_nonce_spec nonce :
  is_nonce nonce = true -> len nonce = 32%Z /\ all_bytes is_ascii_hexdigit nonce = true.
Proof. unfold is_nonce. intros H. bool_prop. done. Qed.

Lemma nonce_no_slash nonce n m :
  all_bytes is_ascii_hexdigit nonce = true ->
  contains_char slash nonce = false /\
  contains_char slash (String.substring n m nonce) = false.
Proof.
  intros H. split; apply (contains_char_all_bytes is_ascii_hexdigit); try done.
  by apply substring_all_bytes.
Qed.

Lemma version_file_no_slash v : contains_char slash (display_u64 v +:+ ".json") = false.
Proof.
  rewrite contains_char_append.
  rewrite (contains_char_all_bytes is_ascii_digit); [done.. | apply display_u64_digits].
Qed.

Lemma object_parts_no_slash actor version nonce :
  is_nonce nonce = true -> ActorKey_validate actor = Ok tt ->
  Forall (fun s => contains_char slash s = false) (object_parts actor version nonce).
Proof.
  intros [_ Hn]%is_nonce_spec (H1 & H2 & H3 & _)%ActorKey_validate_components.
  pose proof (nonce_no_slash nonce 0 2 Hn) as [? ?].
  apply component_no_slash in H1, H2, H3.
  repeat constructor; try done. apply version_file_no_slash.
Qed.

Lemma all_bytes_join p c l :
  p c = true -> Forall (fun s => all_bytes p s = true) l ->
  all_bytes p (join_char c l) = true.
Proof.
  intros Hc H. induction H as [| s l Hs H IH]; [done |].
  destruct l; simpl; [done |]. rewrite all_bytes_append, Hs. simpl. by rewrite Hc.
Qed.

Lemma len_join c l :
  l <> [] ->
  len (join_char c l) = (foldr (fun s n => len s + n) 0 l + Z.of_nat (length l) - 1)%Z.
Proof.
  intros Hne. destruct l as [| s l]; [done |]. clear Hne.
  revert s. induction l as [| t l IH]; intros s; [simpl; lia |].
  change (join_char c (s :: t :: l)) with (s +:+ String c (join_char c (t :: l))).
  rewrite len_append.
  assert (Hc : forall x, len (String c x) = (1 + len x)%Z) by (intros; unfold len; simpl; lia).
  rewrite Hc, IH. cbn [foldr length]. lia.
Qed.

Lemma object_parts_graphic actor version nonce :
  is_nonce nonce = true -> ActorKey_validate actor = Ok tt ->
  all_bytes is_ascii_graphic (join_char slash (object_parts actor version nonce)) = true.
Proof.
  intros [_ Hn]%is_nonce_spec (H1 & H2 & H3 & _)%ActorKey_validate_components.
  apply component_ok_graphic in H1, H2, H3.
  apply (all_bytes_impl _ _ _ hex_graphic) in Hn.
  pose proof (all_bytes_impl _ _ _ digit_graphic (display_u64_digits version)) as Hd.
  apply all_bytes_join; [done |]. repeat constructor; try done.
  - by apply substring_all_bytes.
  - by rewrite all_bytes_append, Hd.
Qed.

Lemma object_parts_len actor version nonce :
  is_nonce nonce = true -> ActorKey_validate actor = Ok tt -> (version <= u64_max)%Z ->
  (len (join_char slash (object_parts actor version nonce)) <= 1024)%Z.
Proof.
  intros [Hl _]%is_nonce_spec (_ & _ & _ & H)%ActorKey_validate_iff Hv%display_u64_len.
  destruct (substring_0_2 nonce) as (a & b & r & _ & Hs); [lia |].
  rewrite len_join by done. unfold object_parts. rewrite Hs. simpl.
  rewrite len_append.
  change (len "snapshots") with 9%Z. change (len ".json") with 5%Z.
  change (len (String a (String b ""))) with 2%Z. lia.
Qed.

Lemma object_parts_valid actor version nonce :
  is_nonce nonce = true -> ActorKey_validate actor = Ok tt -> (version <= u64_max)%Z ->
  validate_object_name (join_char slash (object_parts actor version nonce)) = Ok tt.
Proof.
  intros Hn Ha Hv. unfold validate_object_name. apply ensure_Ok.
  rewrite no_control_ascii by (by apply object_parts_graphic).
  rewrite (proj2 (Z.leb_le _ _) (object_parts_len _ _ _ Hn Ha Hv)).
  rewrite (starts_with_append "snapshots/" (join_char slash (tail (object_parts actor version nonce)))
    : starts_with (join_char slash (object_parts actor version nonce)) _ = true).
  done.
Qed.

Lemma starts_with_substring_0_2 nonce :
  (2 <= len nonce)%Z ->
  starts_with nonce (String.substring 0 2 nonce) = true /\
  len (String.substring 0 2 nonce) = 2%Z.
Proof.
  intros (a & b & r & -> & ->)%substring_0_2. split; [| done].
  apply starts_with_spec. by exists r.
Qed.

(** The name generated for the next version of an actor passes the check
    the control plane makes before it commits that version. *)
Lemma snapshot_object_name_validates
    (actor : ActorKey) (version : Z) (nonce name : string)
    (Hv : (version <= u64_max)%Z) (H : snapshot_object_name actor version nonce = Ok name) :
  validate_snapshot_object_name actor version name = Ok tt.
Proof.
  apply snapshot_object_name_parts in H as (Hn & Ha & _ & ->).
  unfold validate_snapshot_object_name.
  rewrite object_parts_valid by done. cbn [mbind result_bind].
  rewrite split_join_char by (done || by apply object_parts_no_slash).
  apply is_nonce_spec in Hn as [Hl Hn].
  destruct (starts_with_substring_0_2 nonce) as [Hp Hp2]; [lia |].
  simpl. rewrite Hp, Hp2, Hl, Hn. rewrite !bool_decide_eq_true_2 by done. done.
Qed.

Definition counter : ActorKey :=
  {| namespace_id := "project-1"; actor_type := "Counter"; actor_id := "account.42" |}.

Lemma snapshot_object_name_validates_witness :
  validate_snapshot_object_name counter 7
    "snapshots/01/0123456789abcdef0123456789abcdef/project-1/Counter/account.42/7.json"
  = Ok tt.
Proof.
  apply (snapshot_object_name_validates counter 7 "0123456789abcdef0123456789abcdef").
  - vm_compute. discriminate.
  - vm_compute. reflexivity.
Defined.

Lemma next_eq (l : list string) : next l = (head l, tail l).
Proof. by destruct l. Qed.

Lemma validate_snapshot_object_name_parts actor version name :
  validate_snapshot_object_name actor version name = Ok tt ->
  exists prefix nonce,
    split_char slash name =
      ["snapshots"; prefix; nonce; namespace_id actor; actor_type actor; actor_id actor;
       display_u64 version +:+ ".json"] /\
    starts_with nonce prefix = true /\ len prefix = 2%Z /\ is_nonce nonce = true.
Proof.
  unfold validate_snapshot_object_name. intros H. inv_ok. rewrite !next_eq in H0. simpl in H0.
  inv_ok. bool_prop.
  destruct (split_char slash name) as [| p1 [| p2 [| p3 [| p4 [| p5 [| p6 [| p7 [| p8 ?]]]]]]]];
    simpl in *; simplify_eq.
  bool_prop. exists p2, p3. repeat split; try done.
  unfold is_nonce. apply andb_true_iff. split; [by apply Z.eqb_eq | done].
Qed.

(** An object name is accepted for one actor and one version only.  The
    commit check therefore rejects the snapshot of another actor, even one
    that shares the storage key, and a snapshot of another version. *)
Lemma validate_snapshot_object_name_binds
    (actor actor' : ActorKey) (v v' : Z) (name : string)
    (Hv : (0 <= v)%Z) (Hv' : (0 <= v')%Z)
    (H : validate_snapshot_object_name actor v name = Ok tt)
    (H' : validate_snapshot_object_name actor' v' name = Ok tt) :
  actor = actor' /\ v = v'.
Proof.
  apply validate_snapshot_object_name_parts in H as (? & ? & Hs & _).
  apply validate_snapshot_object_name_parts in H' as (? & ? & Hs' & _).
  rewrite Hs in Hs'. destruct actor, actor'; simpl in *.
  injection Hs' as -> -> -> -> -> Hd.
  apply append_inj_r, display_u64_inj in Hd; done.
Qed.

Definition counter_7 : string :=
  "snapshots/01/0123456789abcdef0123456789abcdef/project-1/Counter/account.42/7.json".

Lemma validate_snapshot_object_name_binds_witness :
  is_ok (validate_snapshot_object_name tenant_a 7 counter_7) = false /\
  (counter = counter /\ 7 = 7)%Z.
Proof.
  split; [vm_compute; reflexivity |].
  apply (validate_snapshot_object_name_binds counter counter 7 7 counter_7);
    [lia | lia | vm_compute; reflexivity | vm_compute; reflexivity].
Defined.

Lemma unix_millis_Ok elapsed now :
  unix_millis elapsed = Ok now -> elapsed = Some now /\ is_i64 now = true.
Proof.
  unfold unix_millis. destruct elapsed as [millis |]; simpl; [| done].
  destruct (i64_try_from millis) eqn:Ht; [| done]. intros [= <-].
  apply i64_try_from_Some in Ht as [-> ?]. split; [done | by apply is_i64_spec].
Qed.

Lemma bucket_Ok g region p :
  bucket g region = Ok p ->
  validate_region region = Ok tt /\
  exists b, buckets g !! region = Some b /\ p = "projects/_/buckets/" +:+ b.
Proof.
  unfold bucket. intros H. inv_ok. split; [done |].
  match goal with H : _ <$> _ = Some _ |- _ => apply fmap_Some in H as (b & ? & ?) end. eauto.
Qed.

Section Tickets.
Context `{U : UrlSigner}.

Definition ticket_for (actor : ActorKey) (version now : Z) (t : StateWriteTicket) : Prop :=
  state_version t = version /\
  validate_snapshot_object_name actor version (object_name t) = Ok tt /\
  expires_at_ms t = (now + SIGNED_URL_TTL_MILLIS)%Z /\
  is_i64 (expires_at_ms t) = true.

(** A write ticket names the object of the requested actor and version
    under the fresh nonce, expires one minute after the clock reading and its
    URL was signed for the region's own bucket, creation only
    ([ifGenerationMatch=0]). *)
Lemma write_ticket_sound
    (g : GcsStorageUrlSigner) (nonce : string) (elapsed : option Z) (region : string)
    (actor : ActorKey) (version : Z) (t : StateWriteTicket)
    (Hv : (version <= u64_max)%Z)
    (H : write_ticket g nonce elapsed region actor version = Ok t) :
  exists now b,
    elapsed = Some now /\ ticket_for actor version now t /\
    snapshot_object_name actor version nonce = Ok (object_name t) /\
    buckets g !! region = Some b /\
    sign_url ("projects/_/buckets/" +:+ b) (object_name t) "PUT" SIGNED_URL_TTL_MILLIS
      [("content-type", STATE_CONTENT_TYPE)] [("ifGenerationMatch", "0")] = Ok (url t).
Proof.
  unfold write_ticket in H. inv_ok. bool_prop.
  match goal with H : unix_millis _ = _ |- _ => apply unix_millis_Ok in H as [-> _] end.
  match goal with H : i64_checked_add _ _ = _ |- _ =>
    apply i64_checked_add_Some in H as [-> ?] end.
  match goal with H : bucket _ _ = _ |- _ => apply bucket_Ok in H as (_ & b & Hb & ->) end.
  eexists _, b. split; [done |]. repeat split; simpl; try done;
    [by eapply snapshot_object_name_validates | by apply is_i64_spec].
Qed.
End Tickets.

#[local] Instance plain_signer : UrlSigner := {|
  sign_url bucket object method _ _ _ := Ok (method +:+ " " +:+ bucket +:+ "/" +:+ object);
|}.

Lemma write_ticket_sound_witness :
  let g := {| buckets := {[ "us-east" := "objects" ]} |} in
  exists t now b, Some 1000%Z = Some now /\ ticket_for counter 7 now t /\
    buckets g !! "us-east" = Some b.
Proof.
  eexists.
  edestruct (write_ticket_sound {| buckets := {[ "us-east" := "objects" ]} |}
    "0123456789abcdef0123456789abcdef" (Some 1000%Z) "us-east" counter 7)
    as (now & b & H1 & H2 & _ & H3 & _);
    [vm_compute; discriminate | vm_compute; reflexivity |].
  exists now, b. exact (conj H1 (conj H2 H3)).
Defined.

(** ** Bucket maps *)

Definition bucket_entry_ok (region bucket : string) : Prop :=
  validate_region region = Ok tt /\ bucket <> "" /\ trim bucket = bucket /\
  (len bucket <= 222)%Z /\ contains_char slash bucket = false.

Lemma validate_bucket_entries_Ok entries :
  validate_bucket_entries entries = Ok tt <->
  Forall (fun e => bucket_entry_ok e.1 e.2) entries.
Proof.
  unfold bucket_entry_ok. induction entries as [| [r b] entries IH]; simpl; [by split |].
  rewrite Forall_cons. simpl. rewrite <- IH. split.
  - intros H. inv_ok. bool_prop. repeat split; try done. by apply is_empty_false.
  - intros ((-> & Hne & Ht & Hl & Hc) & ->). simpl.
    apply is_empty_false in Hne as ->. apply Z.leb_le in Hl as ->.
    rewrite bool_decide_eq_true_2, Hc by done. done.
Qed.

(** A bucket map is accepted exactly when it is not empty and every entry
    maps a valid region to a non-empty trimmed bucket name of at most 222 bytes
    without ['/'], whatever the order the map is visited in. *)
Lemma validate_buckets_iff (m : gmap string string) :
  validate_buckets m = Ok tt <->
  m <> ∅ /\ map_Forall bucket_entry_ok m.
Proof.
  unfold validate_buckets. rewrite map_Forall_to_list. split.
  - intros H. inv_ok. bool_prop. split; [done |].
    match goal with H : validate_bucket_entries _ = _ |- _ => apply validate_bucket_entries_Ok in H end.
    eapply Forall_impl; [done |]. by intros [].
  - intros [Hne H]. rewrite bool_decide_eq_false_2 by done. simpl.
    apply validate_bucket_entries_Ok. eapply Forall_impl; [done |]. by intros [].
Qed.
