(* ===== verification/Sandbox.v ===== *)
(** * Sandbox providers

    The requests to a sandbox provider, its answers and the trait between them
    ([src/sandbox.rs]); the implementation that runs a command is in
    SandboxCommand.v. *)
From S2P Require Import Prelude Net Identity.
Local Open Scope string_scope.

Definition PROVIDER_REQUEST_TIMEOUT : Duration := from_secs 120.
Definition MAX_PROVIDER_OUTPUT_BYTES : Z := 1024 * 1024.

Record EnsureHostRequest := {
  er_namespace_id : string;
  er_code_revision : string;
  er_canonical_region : string;
  er_host_id : HostId;
  er_session_id : string;
  er_host_token : string;
  er_jwt_public_keys : string;
  er_control_plane_url : string;
  er_jwt_issuer : string;
  er_invocation_jwt_audience : string;
  er_image_ref : string;
  er_working_directory : string;
  er_actor_entrypoint : option string;
  er_actor_idle_timeout_ms : Z;
  er_host_idle_timeout_ms : Z;
}.

Record ActorHostProvisioning := {
  provisioning_provider : string;
  provisioning_resource_id : string;
  reused : bool;
  started_at_ms : Z;
  input_parsed_at_ms : option Z;
  sdk_loaded_at_ms : option Z;
  resources_resolved_at_ms : option Z;
  existing_host_checked_at_ms : option Z;
  sandbox_scheduled_at_ms : option Z;
  host_ready_observed_at_ms : option Z;
  route_read_at_ms : option Z;
  metadata_written_at_ms : option Z;
  completed_at_ms : Z;
  command_spawned_at_ms : option Z;
  p_request_written_at_ms : option Z;
  p_process_completed_at_ms : option Z;
  p_response_decoded_at_ms : option Z;
}.

Record ActorHostHandle := {
  handle_host_id : HostId;
  handle_route : string;
  handle_canonical_region : string;
  provisioning : option ActorHostProvisioning;
}.

Record WarmImageRequest := {
  wi_namespace_id : string; wi_code_revision : string; wi_canonical_region : string;
  wi_image_ref : string;
}.
Record ImageWarmup := {
  warmup_provider : string; warmup_resource_id : string; warmup_total_ms : Z;
}.
Record TerminateHostsRequest := {
  th_namespace_id : string; th_code_revision : string; th_canonical_regions : list string;
}.
Record HostTermination := { termination_provider : string; resource_ids : list string }.
Record PublicHostRouteRequest := {
  pr_namespace_id : string; pr_code_revision : string; pr_canonical_region : string;
}.
Record PublicHostRoute := { public_route : string }.

Record HostSandboxRuntimeConfig := {
  control_plane_url : string;
  jwt_issuer : string;
  invocation_jwt_audience : string;
  actor_idle_timeout_ms : Z;
  host_idle_timeout_ms : Z;
}.

(** The trait [SandboxProvider]; the [nat] tells calls apart in time. *)
Class SandboxProvider := {
  provider_ensure_host : nat -> EnsureHostRequest -> anyhow ActorHostHandle;
  provider_public_host_route : nat -> PublicHostRouteRequest -> anyhow PublicHostRoute;
  provider_warm_image : nat -> WarmImageRequest -> anyhow ImageWarmup;
  provider_terminate_hosts : nat -> TerminateHostsRequest -> anyhow HostTermination;
}.
