(* ===== verification/SandboxCommand.v ===== *)
(** * The command provider

    [CommandSandboxProvider] of [src/sandbox.rs]: its construction, the checks of
    what commands return, and a command that is run once, a program over what the
    operating system answers it ([CommandRun]).  Persistent processes are in
    ProviderProcesses.v. *)
From S2P Require Import Prelude Net Identity Sandbox.
Local Open Scope string_scope.

(** ** The command provider *)

Record ProviderCommandTimings := {
  spawned_at_ms : option Z;
  request_written_at_ms : option Z;
  process_completed_at_ms : option Z;
  response_decoded_at_ms : option Z;
}.
(** [ProviderCommandTimings::default] *)
Definition no_timings : ProviderCommandTimings :=
  {| spawned_at_ms := None; request_written_at_ms := None; process_completed_at_ms := None;
     response_decoded_at_ms := None |}.

Definition validate_command_provider (provider_name command : string) : anyhow () :=
  ensure (negb (is_empty provider_name) && bool_decide (trim provider_name = provider_name))
    "sandbox provider name must be non-empty without surrounding whitespace";;
  ensure (negb (is_empty command) && bool_decide (trim command = command))
    "DURABLE_OBJECT_SANDBOX_COMMAND must be non-empty without surrounding whitespace".

Definition with_command_timings (t : ProviderCommandTimings) (p : ActorHostProvisioning)
    : ActorHostProvisioning :=
  {| provisioning_provider := provisioning_provider p;
     provisioning_resource_id := provisioning_resource_id p; reused := reused p;
     started_at_ms := started_at_ms p; input_parsed_at_ms := input_parsed_at_ms p;
     sdk_loaded_at_ms := sdk_loaded_at_ms p;
     resources_resolved_at_ms := resources_resolved_at_ms p;
     existing_host_checked_at_ms := existing_host_checked_at_ms p;
     sandbox_scheduled_at_ms := sandbox_scheduled_at_ms p;
     host_ready_observed_at_ms := host_ready_observed_at_ms p;
     route_read_at_ms := route_read_at_ms p; metadata_written_at_ms := metadata_written_at_ms p;
     completed_at_ms := completed_at_ms p;
     command_spawned_at_ms := spawned_at_ms t;
     p_request_written_at_ms := request_written_at_ms t;
     p_process_completed_at_ms := process_completed_at_ms t;
     p_response_decoded_at_ms := response_decoded_at_ms t |}.

(** [executed] is the outcome of [execute_timed]. *)
Definition command_ensure_host (provider_name : string) (request : EnsureHostRequest)
    (executed : anyhow (ActorHostHandle * ProviderCommandTimings)) : anyhow ActorHostHandle :=
  '(response, command) ← executed;
  let response :=
    {| handle_host_id := handle_host_id response; handle_route := handle_route response;
       handle_canonical_region := handle_canonical_region response;
       provisioning := with_command_timings command <$> provisioning response |} in
  ensure (bool_decide (handle_canonical_region response = er_canonical_region request))
    (provider_name +:+ " sandbox command returned a host in the wrong canonical region");;
  ensure (negb (is_empty (handle_host_id response)) && negb (is_empty (handle_route response)))
    (provider_name +:+ " sandbox command returned an invalid host");;
  Ok response.

Definition command_public_host_route (provider_name : string)
    (executed : anyhow PublicHostRoute) : anyhow PublicHostRoute :=
  response ← executed;
  ensure (negb (is_empty (public_route response)))
    (provider_name +:+ " sandbox command returned an invalid public host route");;
  Ok response.

(** [Path::file_name]: the last component, unless it is the parent directory. *)
Definition file_name (path : string) : option string :=
  match last (filter (fun c => c <> "" /\ c <> ".") (split_char "/" path)) with
  | Some c => if bool_decide (c = "..") then None else Some c
  | None => None
  end.

Record CommandSandboxProvider := {
  provider_name : string;
  command : string;
  environment : gmap string string;
  (** [Some] when the processes are persistent; the pool's state is [ProviderPool]. *)
  processes : bool;
}.

(** [path] is the environment variable PATH of this process. *)
Definition CommandSandboxProvider_new (path : option string) (provider_name command : string)
    (environment : gmap string string) : anyhow CommandSandboxProvider :=
  validate_command_provider provider_name command;;
  let environment :=
    match path, environment !! "PATH" with
    | Some path, None => <[ "PATH" := path ]> environment
    | _, _ => environment
    end in
  Ok {| provider_name := provider_name; command := command; environment := environment;
        processes := bool_decide (file_name command = Some "little-durable-objects-modal") |}.

(** A duration since the start, in milliseconds. *)
Definition elapsed_ms (millis : Z) : Z := Z.min millis u64_max.

Record ProviderCommandFailure := { source : Error; timings : ProviderCommandTimings }.

(** [execute_timed], of what [execute_timed_inner] left. *)
Definition execute_timed {Reply} (run : ProviderCommandTimings * anyhow Reply)
    : Result ProviderCommandFailure (Reply * ProviderCommandTimings) :=
  let '(timings, r) := run in
  match r with
  | Ok response => Ok (response, timings)
  | Err source => Err {| source := source; timings := timings |}
  end.

Record ProviderCommand (Request : Type) := { operation : string; request : Request }.
Arguments operation {Request}.
Arguments request {Request}.

Definition mark_spawned (ms : Z) (t : ProviderCommandTimings) : ProviderCommandTimings :=
  {| spawned_at_ms := Some (elapsed_ms ms); request_written_at_ms := request_written_at_ms t;
     process_completed_at_ms := process_completed_at_ms t;
     response_decoded_at_ms := response_decoded_at_ms t |}.
Definition mark_written (ms : Z) (t : ProviderCommandTimings) : ProviderCommandTimings :=
  {| spawned_at_ms := spawned_at_ms t; request_written_at_ms := Some (elapsed_ms ms);
     process_completed_at_ms := process_completed_at_ms t;
     response_decoded_at_ms := response_decoded_at_ms t |}.
Definition mark_completed (ms : Z) (t : ProviderCommandTimings) : ProviderCommandTimings :=
  {| spawned_at_ms := spawned_at_ms t; request_written_at_ms := request_written_at_ms t;
     process_completed_at_ms := Some (elapsed_ms ms);
     response_decoded_at_ms := response_decoded_at_ms t |}.
Definition mark_decoded (ms : Z) (t : ProviderCommandTimings) : ProviderCommandTimings :=
  {| spawned_at_ms := spawned_at_ms t; request_written_at_ms := request_written_at_ms t;
     process_completed_at_ms := process_completed_at_ms t;
     response_decoded_at_ms := Some (elapsed_ms ms) |}.

(** ** A command that is run once *)

(** The output was read to its end or failed to; at most one byte more than the
    bound is read. *)
Definition read_bounded_output (reader : anyhow bytes) (max_bytes : Z) (label : string)
    : anyhow bytes :=
  output ← with_context ("read sandbox command " +:+ label) reader;
  let output := take (Z.to_nat (max_bytes + 1)) output in
  ensure (bytes_len output <=? max_bytes)%Z
    ("sandbox command " +:+ label +:+ " exceeds " +:+ display_u64 max_bytes +:+ " bytes");;
  Ok output.

Record ExitStatus := { success : bool; display : string }.

(** What the operating system answers to the calls of one run: starting the child, its
    three pipes, writing and closing its input, its exit and outputs, in which order the
    futures of [try_join!] complete, whether the timeout comes first, and the
    milliseconds since the start when each timing is taken. *)
Inductive Branch := WaitBranch | StdoutBranch | StderrBranch.
Record CommandRun := {
  run_spawn : anyhow ();
  run_stdin : option ();
  run_write : anyhow ();
  run_shutdown : anyhow ();
  run_stdout : option (anyhow bytes);
  run_stderr : option (anyhow bytes);
  run_wait : anyhow ExitStatus;
  run_completes : list Branch;
  run_times_out : bool;
  run_spawned : Z;
  run_written : Z;
  run_exited : Z;
  run_decoded : Z;
}.

(** [tokio::try_join!]: the error of the branch that fails first. *)
Definition try_join {A B C} (completes : list Branch) (wait : anyhow A) (out : anyhow B)
    (err : anyhow C) : anyhow (A * B * C) :=
  let failure b :=
    match b with
    | WaitBranch => match wait with Err e => Some e | _ => None end
    | StdoutBranch => match out with Err e => Some e | _ => None end
    | StderrBranch => match err with Err e => Some e | _ => None end
    end in
  match head (omap failure (completes ++ [WaitBranch; StdoutBranch; StderrBranch])%list) with
  | Some e => Err e
  | None => a ← wait; b ← out; c ← err; Ok (a, b, c)
  end.

Section OneShot.
Context {Request Reply : Type}
        (to_vec : ProviderCommand Request -> anyhow bytes) (from_slice : bytes -> anyhow Reply)
        (from_utf8_lossy : bytes -> string) (debug : string -> string).

(** [execute_timed_inner] without a pool. *)
Definition execute_once (p : CommandSandboxProvider) (c : ProviderCommand Request) (run : CommandRun)
    : M ProviderCommandTimings Error Reply :=
  let name := provider_name p in
  lift (with_context ("start " +:+ name +:+ " sandbox command " +:+ debug (command p)) (run_spawn run));;
  modify (mark_spawned (run_spawned run));;
  document ← lift (to_vec c);
  lift (some_or ("open " +:+ name +:+ " sandbox command stdin") (run_stdin run));;
  lift (with_context ("write " +:+ name +:+ " sandbox command request") (run_write run));;
  lift (with_context ("close " +:+ name +:+ " sandbox command stdin") (run_shutdown run));;
  modify (mark_written (run_written run));;
  stdout ← lift (some_or ("open " +:+ name +:+ " sandbox command stdout") (run_stdout run));
  stderr ← lift (some_or ("open " +:+ name +:+ " sandbox command stderr") (run_stderr run));
  execution ← lift (with_context (name +:+ " sandbox command timed out")
    (if run_times_out run then Err ["deadline has elapsed"]
     else Ok (try_join (run_completes run)
                (with_context ("wait for " +:+ name +:+ " sandbox command") (run_wait run))
                (read_bounded_output stdout MAX_PROVIDER_OUTPUT_BYTES "stdout")
                (read_bounded_output stderr MAX_PROVIDER_OUTPUT_BYTES "stderr"))));
  '(status, stdout, stderr) ← lift execution;
  modify (mark_completed (run_exited run));;
  lift (ensure (success status)
          (name +:+ " sandbox command failed with " +:+ display status +:+ ": " +:+
           trim (from_utf8_lossy stderr)));;
  response ← lift (with_context ("decode " +:+ name +:+ " sandbox command response")
                     (from_slice stdout));
  modify (mark_decoded (run_decoded run));;
  mret response.
End OneShot.

(** ** The provider *)

(** serde_json on the commands and what they return. *)
Class ProviderSerde := {
  ensure_host_to_vec : ProviderCommand EnsureHostRequest -> anyhow bytes;
  public_host_route_to_vec : ProviderCommand PublicHostRouteRequest -> anyhow bytes;
  warm_image_to_vec : ProviderCommand WarmImageRequest -> anyhow bytes;
  terminate_hosts_to_vec : ProviderCommand TerminateHostsRequest -> anyhow bytes;
  handle_from_slice : bytes -> anyhow ActorHostHandle;
  route_from_slice : bytes -> anyhow PublicHostRoute;
  warmup_from_slice : bytes -> anyhow ImageWarmup;
  termination_from_slice : bytes -> anyhow HostTermination;
}.

Section Provider.
Context {Serde : ProviderSerde} (from_utf8_lossy : bytes -> string) (debug : string -> string).
(** The provider, without a pool, and what the operating system does at each call. *)
Context (p : CommandSandboxProvider) (runs : nat -> CommandRun).

(** [execute_timed] *)
Definition run_timed {Request Reply} (to_vec : ProviderCommand Request -> anyhow bytes)
    (from_slice : bytes -> anyhow Reply) (operation : string) (n : nat) (request : Request)
    : anyhow (Reply * ProviderCommandTimings) :=
  map_err source
    (execute_timed (execute_once to_vec from_slice from_utf8_lossy debug p
                      {| operation := operation; request := request |} (runs n) no_timings)).
(** [execute] *)
Definition run_command {Request Reply} (to_vec : ProviderCommand Request -> anyhow bytes)
    (from_slice : bytes -> anyhow Reply) (operation : string) (n : nat) (request : Request)
    : anyhow Reply :=
  '(response, _) ← run_timed to_vec from_slice operation n request;
  Ok response.

Definition command_provider : SandboxProvider := {|
  provider_ensure_host n request :=
    command_ensure_host (provider_name p) request
      (run_timed ensure_host_to_vec handle_from_slice "ensure_host" n request);
  provider_public_host_route n request :=
    command_public_host_route (provider_name p)
      (run_command public_host_route_to_vec route_from_slice "public_host_route" n request);
  provider_warm_image := run_command warm_image_to_vec warmup_from_slice "warm_image";
  provider_terminate_hosts :=
    run_command terminate_hosts_to_vec termination_from_slice "terminate_hosts";
|}.
End Provider.

(** ** A command that is run once *)

Lemma try_join_Ok {A B C} order (wait : anyhow A) (out : anyhow B) (err : anyhow C) a b c :
  try_join order wait out err = Ok (a, b, c) -> wait = Ok a /\ out = Ok b /\ err = Ok c.
Proof. unfold try_join. destruct (head _); [done |]. intros H. by inv_ok. Qed.

Lemma read_bounded_output_Ok reader max label out :
  (0 <= max)%Z -> read_bounded_output reader max label = Ok out ->
  (bytes_len out <= max)%Z /\ reader = Ok out.
Proof.
  unfold read_bounded_output. intros Hm H. inv_ok. bool_prop. split; [done |].
  rewrite take_ge; [done |]. unfold bytes_len in *. rewrite length_take in *. lia.
Qed.

Section OneShotProofs.
Context {Request Reply : Type}
        (to_vec : ProviderCommand Request -> anyhow bytes) (from_slice : bytes -> anyhow Reply)
        (from_utf8_lossy : bytes -> string) (debug : string -> string).

(** What a reply comes from: a child that was given the whole command, ended successfully and in
    time, and printed it. *)
Record run_succeeded (c : ProviderCommand Request) (run : CommandRun) (out : bytes) (response : Reply)
    (t : ProviderCommandTimings) : Prop := {
  succeeded_written : is_ok (to_vec c) && is_ok (run_write run) && is_ok (run_shutdown run) = true;
  succeeded_in_time : run_times_out run = false;
  succeeded_exit : exists status, run_wait run = Ok status /\ success status = true;
  succeeded_out : run_stdout run = Some (Ok out) /\ (bytes_len out <= MAX_PROVIDER_OUTPUT_BYTES)%Z;
  succeeded_err : exists err, run_stderr run = Some (Ok err) /\
    (bytes_len err <= MAX_PROVIDER_OUTPUT_BYTES)%Z;
  succeeded_decoded : from_slice out = Ok response;
  succeeded_timings : t =
    {| spawned_at_ms := Some (elapsed_ms (run_spawned run));
       request_written_at_ms := Some (elapsed_ms (run_written run));
       process_completed_at_ms := Some (elapsed_ms (run_exited run));
       response_decoded_at_ms := Some (elapsed_ms (run_decoded run)) |};
}.

Lemma execute_once_Ok (p : CommandSandboxProvider) c run response t :
  execute_once to_vec from_slice from_utf8_lossy debug p c run no_timings = (t, Ok response) ->
  exists out, run_succeeded c run out response t.
Proof.
  intros H. unfold execute_once in H.
  repeat (apply M_bind_Ok in H as (? & ? & ?%pair_equal_spec & H); destruct_and?).
  match goal with x : ExitStatus * bytes * bytes |- _ => destruct x as [[status out] err] end.
  repeat (apply M_bind_Ok in H as (? & ? & ?%pair_equal_spec & H); destruct_and?).
  apply pair_equal_spec in H as [? ?]. simplify_eq. inv_ok. destruct (run_times_out run) eqn:?; [done |].
  simplify_eq. match goal with Hj : try_join _ _ _ _ = _ |- _ => apply try_join_Ok in Hj as (? & Ho & He) end.
  apply read_bounded_output_Ok in Ho as [? ->]; [| done].
  apply read_bounded_output_Ok in He as [? ->]; [| done]. inv_ok.
  exists out. split; eauto.
  by repeat match goal with Hx : _ = Ok _ |- _ => rewrite Hx; clear Hx end.
Qed.

(** C35: A command that is run once either returns the decoded output of a child that was given the
    whole command (its input took all of it and was closed), ended successfully and in time, and wrote no more than a mebibyte to each of
    its outputs, or it fails, and the failure's timings tell how far it came: a time of starting
    exactly if the child was started, a time of writing only if the command was written and the
    input closed, a time of completion only if the child ended in time, and never a time of
    decoding. *)
Theorem command_run_once (p : CommandSandboxProvider) (c : ProviderCommand Request) (run : CommandRun) :
  match execute_timed (execute_once to_vec from_slice from_utf8_lossy debug p c run no_timings) with
  | Ok (response, t) => exists out, run_succeeded c run out response t
  | Err failure =>
      let t := timings failure in
      (is_Some (spawned_at_ms t) <-> is_ok (run_spawn run) = true) /\
      (is_Some (request_written_at_ms t) ->
         is_ok (to_vec c) && is_ok (run_write run) && is_ok (run_shutdown run) = true) /\
      (is_Some (process_completed_at_ms t) ->
         run_times_out run = false /\ is_ok (run_wait run) = true) /\
      response_decoded_at_ms t = None
  end.
Proof.
  unfold execute_timed. destruct (execute_once _ _ _ _ _ _ _ _) as [t [response | e]] eqn:H.
  { by eapply execute_once_Ok. }
  simpl. revert H. unfold execute_once, mbind, M_bind, lift, modify.
  destruct (run_spawn run) as [[] |]; simpl; [| naive_solver].
  destruct (to_vec c) as [document |]; simpl; [| naive_solver].
  destruct (run_stdin run) as [[] |]; simpl; [| naive_solver].
  destruct (run_write run) as [[] |]; simpl; [| naive_solver].
  destruct (run_shutdown run) as [[] |]; simpl; [| naive_solver].
  destruct (run_stdout run) as [stdout |]; simpl; [| naive_solver].
  destruct (run_stderr run) as [stderr |]; simpl; [| naive_solver].
  destruct (run_times_out run); simpl; [naive_solver |].
  destruct (try_join _ _ _ _) as [[[status out] err] |] eqn:Hjoin; simpl; [| naive_solver].
  apply try_join_Ok in Hjoin as [Hwait%with_context_Ok _]. rewrite Hwait.
  unfold ensure. destruct (success status); simpl; [| naive_solver].
  destruct (from_slice out); naive_solver.
Qed.
End OneShotProofs.


(** A host that the provider ensured is in the region it was asked for, has an id and a route, was
    printed by a command that succeeded, and carries the times of that command. *)
Lemma ensured_host_checked {Serde : ProviderSerde} from_utf8_lossy debug p runs n request host :
  provider_ensure_host (SandboxProvider := command_provider from_utf8_lossy debug p runs) n request
    = Ok host ->
  handle_canonical_region host = er_canonical_region request /\
  handle_host_id host <> "" /\ handle_route host <> "" /\
  exists status out printed, run_wait (runs n) = Ok status /\ success status = true /\
    run_stdout (runs n) = Some (Ok out) /\ handle_from_slice out = Ok printed /\
    handle_host_id host = handle_host_id printed /\ handle_route host = handle_route printed /\
    forall details, provisioning host = Some details ->
      command_spawned_at_ms details = Some (elapsed_ms (run_spawned (runs n))) /\
      p_response_decoded_at_ms details = Some (elapsed_ms (run_decoded (runs n))).
Proof.
  simpl. unfold command_ensure_host, run_timed. intros H.
  apply bind_Ok in H as ([response t] & Hrun%map_err_Ok & H). inv_ok. bool_prop. simpl in *.
  destruct (execute_once _ _ _ _ _ _ _ _) as [t' [r |]] eqn:Honce; simplify_eq/=.
  apply execute_once_Ok in Honce as [out [_ _ (status & ? & ?) [? _] _ ? ->]].
  split_and!; [done | by apply is_empty_false.. |].
  exists status, out, response. split_and!; try done. simpl. intros details Hd.
  destruct (provisioning response); by simplify_eq/=.
Qed.

Example file_name_examples :
  file_name "/usr/bin/little-durable-objects-modal" = Some "little-durable-objects-modal" /\
  file_name "little-durable-objects-modal/." = Some "little-durable-objects-modal" /\
  file_name "bin/.." = None /\ file_name "/" = None.
Proof. repeat split. Qed.
