(* ===== verification/ProviderProcesses.v ===== *)
(** * Persistent provider processes

    The pool of [src/sandbox/command_process.rs] as a transition system: calls that
    take a process, write, read, give up or are abandoned, and processes that answer
    line by line.  The pool itself (deadpool) lends out an idle process that
    [recycle] accepts, or a new one while fewer than [max_size] exist. *)
From S2P Require Import Prelude Net Identity Sandbox SandboxCommand.
Local Open Scope string_scope.

Definition newline : Byte.byte := Byte.x0a.
Definition is_newline (b : Byte.byte) : bool :=
  Ascii.eqb (Ascii.ascii_of_byte b) (Ascii.ascii_of_byte newline).
(** Lines ended in [b]. *)
Fixpoint lines (b : bytes) : nat :=
  match b with
  | [] => 0
  | c :: b => (if is_newline c then 1 else 0) + lines b
  end.

(** [stdin] is everything written to the child, [stdout] everything it wrote, of which
    [taken] bytes were read; [exited] says that it has closed its output. *)
Record ProviderProcess := {
  stdin : bytes; stdout : bytes; taken : nat; exited : bool; busy : bool;
}.
Definition unread (p : ProviderProcess) : bytes := drop (taken p) (stdout p).

Definition set_busy (b : bool) (p : ProviderProcess) : ProviderProcess :=
  {| stdin := stdin p; stdout := stdout p; taken := taken p; exited := exited p; busy := b |}.
Definition write_stdin (b : bytes) (p : ProviderProcess) : ProviderProcess :=
  {| stdin := (stdin p ++ b)%list; stdout := stdout p; taken := taken p; exited := exited p;
     busy := busy p |}.
Definition take_stdout (p : ProviderProcess) : ProviderProcess :=
  {| stdin := stdin p; stdout := stdout p; taken := S (taken p); exited := exited p;
     busy := busy p |}.

(** [ProviderProcessManager::create] *)
Definition create : ProviderProcess :=
  {| stdin := []; stdout := []; taken := 0; exited := false; busy := false |}.

(** [exited] is the answer of [try_wait]. *)
Definition recycle (exited : anyhow bool) (p : ProviderProcess) : anyhow () :=
  if busy p then bail "provider exchange was interrupted or process exited"
  else
    exited ← exited;
    ensure (negb exited) "provider exchange was interrupted or process exited".

(** [ProcessLease::drop]: a busy process does not go back to the pool. *)
Definition release (p : ProviderProcess) : option ProviderProcess :=
  if busy p then None else Some p.

Inductive ProviderResponse (Reply : Type) :=
| Success (result : Reply)
| Failure (error : string).
Arguments Success {Reply}.
Arguments Failure {Reply}.

(** Where an exchange waits: in [write_all] with what is left to write, or in
    [read_until] with what it has read. *)
Inductive Progress := Writing (document : bytes) | Reading (response : bytes).

(** Of [ProviderProcess::exchange], up to the first wait. *)
Definition begin_exchange (document : anyhow bytes) (p : ProviderProcess)
    : anyhow (ProviderProcess * Progress) :=
  document ← document;
  ensure (bytes_len document <=? MAX_PROVIDER_OUTPUT_BYTES)%Z
    "sandbox provider command is too large";;
  let document := (document ++ [newline])%list in
  Ok (set_busy true p, Writing document).

Section Persistent.
Context {Request Reply : Type}
        (to_vec : ProviderCommand Request -> anyhow bytes)
        (from_slice : bytes -> anyhow (ProviderResponse Reply)).

(** An exchange in progress, with the command it was called for. *)
Record Exchange := {
  sent : ProviderCommand Request;
  process : ProviderProcess;
  progress : Progress;
  exchange_timings : ProviderCommandTimings;
}.

(** The rest of [read_response] once [read_until] has returned, and of [exchange]. *)
Definition finish_exchange (response : bytes) (completed decoded : Z)
    : M (ProviderProcess * ProviderCommandTimings) Error Reply :=
  lift (ensure (bytes_len response <=? MAX_PROVIDER_OUTPUT_BYTES)%Z
          ("provider stdout exceeds " +:+ display_u64 MAX_PROVIDER_OUTPUT_BYTES +:+ " bytes"));;
  lift (ensure (match last response with Some b => is_newline b | None => false end)
          "provider disconnected before replying; outcome may be unknown");;
  modify (prod_map id (mark_completed completed));;
  response ← lift (with_context "decode provider response" (from_slice response));
  modify (prod_map id (mark_decoded decoded));;
  modify (prod_map (set_busy false) id);;
  match response with
  | Success result => mret result
  | Failure error => lift (bail ("sandbox provider failed: " +:+ error))
  end.

(** What a call of [execute_timed] returned, with the process that served it, if any,
    as it was then. *)
Record Answer := {
  answered_command : ProviderCommand Request;
  served_by : option ProviderProcess;
  outcome : Result ProviderCommandFailure (Reply * ProviderCommandTimings);
}.

(** The pool: idle processes, the exchanges of the calls under way, by caller, and the
    answers given so far. *)
Record ProviderPool := {
  idle : list ProviderProcess;
  running : gmap nat Exchange;
  answers : list Answer;
}.
Definition pool_new : ProviderPool := {| idle := []; running := ∅; answers := [] |}.
Definition max_size : nat := 2.

(** The call of [caller] ends, its lease with it. *)
Definition end_call (caller : nat) (answer : option Answer) (p : ProviderProcess) (s : ProviderPool)
    : ProviderPool :=
  {| idle := match release p with Some p => (idle s ++ [p])%list | None => idle s end;
     running := delete caller (running s);
     answers := (answers s ++ option_list answer)%list |}.

(** [command_process::exchange] with the process the pool handed out. *)
Definition start_exchange (caller : nat) (c : ProviderCommand Request) (spawned : Z)
    (p : ProviderProcess) (s : ProviderPool) : ProviderPool :=
  let t := mark_spawned spawned no_timings in
  match begin_exchange (to_vec c) p with
  | Ok (p, progress) =>
      {| idle := idle s;
         running := <[ caller := {| sent := c; process := p; progress := progress;
                                    exchange_timings := t |} ]> (running s);
         answers := answers s |}
  | Err e =>
      end_call caller (Some {| answered_command := c; served_by := Some p;
                               outcome := execute_timed (t, Err e) |}) p s
  end.

(** The exchange of [caller] ends with [r]. *)
Definition end_exchange (caller : nat) (e : Exchange) (p : ProviderProcess) (t : ProviderCommandTimings)
    (r : anyhow Reply) : ProviderPool -> ProviderPool :=
  end_call caller (Some {| answered_command := sent e; served_by := Some p;
                           outcome := execute_timed (t, r) |}) p.

Definition set_exchange (caller : nat) (e : Exchange) (s : ProviderPool) : ProviderPool :=
  {| idle := idle s; running := <[ caller := e ]> (running s); answers := answers s |}.

(** [read_until] returned [response]. *)
Definition end_read (caller : nat) (e : Exchange) (response : bytes) (completed decoded : Z)
    (s : ProviderPool) : ProviderPool :=
  let '((p, t), r) := finish_exchange response completed decoded (process e, exchange_timings e) in
  end_exchange caller e p t r s.

(** [tokio::time::timeout(PROVIDER_REQUEST_TIMEOUT, execution)] *)
Definition timed_out {A} : anyhow A :=
  with_context "sandbox provider command timed out; outcome may be unknown"
    (Err ["deadline has elapsed"]).

Inductive Place := Idle (i : nat) | Running (caller : nat).

(** What happens next. *)
Inductive ProviderTurn :=
(** [pool.get] hands out the idle process [i], a new one, or fails. *)
| Reuses (caller : nat) (c : ProviderCommand Request) (spawned : Z) (i : nat)
| Creates (caller : nat) (c : ProviderCommand Request) (spawned : Z)
(** [error] is the pool's, or the timeout came first. *)
| GetFails (caller : nat) (c : ProviderCommand Request) (error : option string)
(** The pool drops the idle process [i], which [recycle] refused. *)
| Discards (i : nat) (exited : anyhow bool)
| Writes (caller : nat) (n : nat) (written : Z)
| WriteFails (caller : nat) (e : Error)
| Reads (caller : nat) (completed decoded : Z)
| ReadFails (caller : nat) (e : Error)
(** The timeout of [execute_timed_inner], or a caller that is dropped itself. *)
| TimesOut (caller : nat)
| Abandoned (caller : nat)
(** A child writes a byte, or exits. *)
| Emits (place : Place) (b : Byte.byte)
| Exits (place : Place).

Definition at_place (place : Place) (f : ProviderProcess -> ProviderProcess) (s : ProviderPool)
    : ProviderPool :=
  match place with
  | Idle i => {| idle := alter f i (idle s); running := running s; answers := answers s |}
  | Running k =>
      {| idle := idle s;
         running := alter (fun e => {| sent := sent e; process := f (process e);
                                       progress := progress e;
                                       exchange_timings := exchange_timings e |}) k (running s);
         answers := answers s |}
  end.
Definition process_at (place : Place) (s : ProviderPool) : option ProviderProcess :=
  match place with
  | Idle i => idle s !! i
  | Running k => process <$> running s !! k
  end.

(** A child writes at most one line for each line it was given
    ([src/npm/providers/commandProcess.ts]). *)
Definition may_emit (p : ProviderProcess) : bool :=
  negb (exited p) && (lines (stdout p) <? lines (stdin p))%nat.
Definition emit (b : Byte.byte) (p : ProviderProcess) : ProviderProcess :=
  {| stdin := stdin p; stdout := (stdout p ++ [b])%list; taken := taken p; exited := exited p;
     busy := busy p |}.
Definition exit (p : ProviderProcess) : ProviderProcess :=
  {| stdin := stdin p; stdout := stdout p; taken := taken p; exited := true; busy := busy p |}.

Definition guarded {A} (b : bool) (x : A) : option A := if b then Some x else None.

Definition provider_turn (turn : ProviderTurn) (s : ProviderPool) : option ProviderPool :=
  match turn with
  | Reuses k c spawned i =>
      p ← idle s !! i;
      guarded (bool_decide (running s !! k = None) && is_ok (recycle (Ok (exited p)) p))
        (start_exchange k c spawned p
           {| idle := delete i (idle s); running := running s; answers := answers s |})
  | Creates k c spawned =>
      guarded (bool_decide (running s !! k = None)
               && (length (idle s) + size (running s) <? max_size)%nat)
        (start_exchange k c spawned create s)
  | GetFails k c error =>
      guarded (bool_decide (running s !! k = None))
        {| idle := idle s; running := running s;
           answers := answers s ++
             [{| answered_command := c; served_by := None;
                 outcome := execute_timed (no_timings,
                   match error with
                   | Some error => bail ("acquire sandbox provider process: " +:+ error)
                   | None => timed_out
                   end) |}] |}
  | Discards i exited =>
      p ← idle s !! i;
      guarded (negb (is_ok (recycle exited p)))
        {| idle := delete i (idle s); running := running s; answers := answers s |}
  | Writes k n written =>
      e ← running s !! k;
      match progress e with
      | Writing document =>
          let p := write_stdin (take n document) (process e) in
          Some (match drop n document with
                | [] => set_exchange k {| sent := sent e; process := p; progress := Reading [];
                                          exchange_timings := mark_written written (exchange_timings e) |} s
                | rest => set_exchange k {| sent := sent e; process := p; progress := Writing rest;
                                            exchange_timings := exchange_timings e |} s
                end)
      | Reading _ => None
      end
  | WriteFails k error =>
      e ← running s !! k;
      match progress e with
      | Writing _ =>
          Some (end_exchange k e (process e) (exchange_timings e)
                  (with_context "write provider command" (Err error)) s)
      | Reading _ => None
      end
  | Reads k completed decoded =>
      e ← running s !! k;
      match progress e with
      | Writing _ => None
      | Reading response =>
          match unread (process e) with
          | b :: _ =>
              let e := {| sent := sent e; process := take_stdout (process e);
                          progress := Reading (response ++ [b]);
                          exchange_timings := exchange_timings e |} in
              if is_newline b || (bytes_len (response ++ [b]) =? MAX_PROVIDER_OUTPUT_BYTES + 1)%Z
              then Some (end_read k e (response ++ [b]) completed decoded s)
              else Some (set_exchange k e s)
          | [] =>
              guarded (exited (process e)) (end_read k e response completed decoded s)
          end
      end
  | ReadFails k error =>
      e ← running s !! k;
      match progress e with
      | Writing _ => None
      | Reading _ => Some (end_exchange k e (process e) (exchange_timings e) (Err error) s)
      end
  | TimesOut k =>
      e ← running s !! k;
      Some (end_exchange k e (process e) (exchange_timings e) timed_out s)
  | Abandoned k =>
      e ← running s !! k;
      Some (end_call k None (process e) s)
  | Emits place b =>
      p ← process_at place s;
      guarded (may_emit p) (at_place place (emit b) s)
  | Exits place =>
      p ← process_at place s;
      Some (at_place place exit s)
  end%list.

Fixpoint provider_turns (turns : list ProviderTurn) (s : ProviderPool) : option ProviderPool :=
  match turns with
  | [] => Some s
  | turn :: turns => provider_turn turn s ≫= provider_turns turns
  end.
End Persistent.

(** ** Requests and answers stay in step *)

Section InStep.
Local Open Scope list_scope.
Context {Request Reply : Type}
        (to_vec : ProviderCommand Request -> anyhow bytes)
        (from_slice : bytes -> anyhow (ProviderResponse Reply)).

Lemma lines_app a b : lines (a ++ b) = (lines a + lines b)%nat.
Proof. induction a as [| x a IH]; simpl; [done |]. rewrite IH. lia. Qed.
Lemma lines_newline : lines [newline] = 1%nat.
Proof. done. Qed.
Lemma lines_one b : lines [b] = if is_newline b then 1%nat else 0%nat.
Proof. simpl. by destruct (is_newline b). Qed.
Lemma is_newline_spec b : is_newline b = true -> b = newline.
Proof.
  unfold is_newline. intros H%Ascii.eqb_eq. apply (f_equal Ascii.byte_of_ascii) in H.
  by rewrite !Ascii.byte_of_ascii_of_byte in H.
Qed.

(** A process that waits in the pool: it was answered as often as it was asked, and
    everything it said was heard. *)
Record quiet (p : ProviderProcess) : Prop := {
  quiet_busy : busy p = false;
  quiet_taken : taken p = length (stdout p);
  quiet_lines : lines (stdout p) = lines (stdin p);
}.

(** While the command is being written nothing is owed; then one line is. *)
Definition under_way (e : Exchange (Request := Request)) : Prop :=
  let p := process e in
  busy p = true /\
  exists before document, to_vec (sent e) = Ok document /\
    match progress e with
    | Writing rest =>
        exists written, written ++ rest = document ++ [newline] /\ rest <> [] /\
          stdin p = before ++ written /\ lines before = lines (stdout p) /\
          taken p = length (stdout p)
    | Reading response =>
        exists earlier pending, stdin p = before ++ document ++ [newline] /\
          lines before = lines earlier /\ lines response = 0%nat /\
          stdout p = earlier ++ response ++ pending /\
          taken p = length (earlier ++ response) /\
          (lines pending = 0%nat \/ exists q, pending = q ++ [newline] /\ lines q = 0%nat)
    end.

(** A delivered reply is the process's line for the command it was delivered for: as many
    lines were written before the command as were read before the line. *)
Definition in_step (a : Answer (Request := Request) (Reply := Reply)) : Prop :=
  forall r t, outcome a = Ok (r, t) ->
  exists p document line before earlier, served_by a = Some p /\
    to_vec (answered_command a) = Ok document /\
    from_slice (line ++ [newline]) = Ok (Success r) /\
    stdin p = before ++ document ++ [newline] /\ stdout p = earlier ++ line ++ [newline] /\
    lines before = lines earlier /\ lines line = 0%nat.

Record pool_ok (s : ProviderPool (Request := Request) (Reply := Reply)) : Prop := {
  ok_idle : Forall quiet (idle s);
  ok_running : map_Forall (fun _ => under_way) (running s);
  ok_answers : Forall in_step (answers s);
  ok_size : length (idle s) + size (running s) <= max_size;
}.

Abbreviation Pool := (ProviderPool (Request := Request) (Reply := Reply)).

(** A call ends: its process, unless an exchange was broken off, is quiet. *)
Lemma end_call_ok k a p (s : Pool) :
  Forall quiet (idle s) -> map_Forall (fun _ => under_way) (delete k (running s)) ->
  Forall in_step (answers s) -> length (idle s) + size (delete k (running s)) < max_size ->
  (busy p = false -> quiet p) -> (forall a', a = Some a' -> in_step a') ->
  pool_ok (end_call k a p s).
Proof.
  intros Hi Hr Ha Hs Hp Hin. split; simpl; [| done | |].
  - unfold release. destruct (busy p); [done |]. apply Forall_app. auto.
  - apply Forall_app. split; [done |]. destruct a; simpl; auto.
  - unfold release. destruct (busy p); [lia |]. rewrite length_app. simpl. lia.
Qed.

(** The exchange of a call that was under way ends. *)
Lemma end_running_ok k e a p (s : Pool) :
  pool_ok s -> running s !! k = Some e ->
  (busy p = false -> quiet p) -> (forall a', a = Some a' -> in_step a') ->
  pool_ok (end_call k a p s).
Proof.
  intros [Hi Hr Ha Hs] He. apply end_call_ok; [done | by apply map_Forall_delete | done |].
  rewrite map_size_delete_Some by eauto.
  assert (size (running s) <> 0%nat).
  { intros Hz%map_size_empty_inv. by rewrite Hz, lookup_empty in He. }
  lia.
Qed.

Lemma not_in_step c p t e : in_step {| answered_command := c; served_by := p;
  outcome := execute_timed (t, Err e) |}.
Proof. by intros r t'. Qed.

Lemma set_exchange_ok k e e' (s : Pool) :
  pool_ok s -> running s !! k = Some e -> under_way e' -> pool_ok (set_exchange k e' s).
Proof.
  intros [Hi Hr Ha Hs] He He'. split; simpl; [done | by apply map_Forall_insert_2 | done |].
  by rewrite map_size_insert_Some.
Qed.

Lemma start_exchange_ok k c spawned p (s : Pool) :
  (forall c document, to_vec c = Ok document -> lines document = 0%nat) ->
  Forall quiet (idle s) -> map_Forall (fun _ => under_way) (running s) ->
  Forall in_step (answers s) -> length (idle s) + size (running s) < max_size ->
  running s !! k = None -> quiet p ->
  pool_ok (start_exchange to_vec k c spawned p s).
Proof.
  intros Hvec Hi Hr Ha Hs Hk Hp. unfold start_exchange.
  destruct (begin_exchange _ p) as [[p' pr] | e] eqn:Hb.
  - unfold begin_exchange in Hb. inv_ok. split; simpl; [done | | done |].
    + apply map_Forall_insert_2; [| done]. split; [done |]. eexists (stdin p), _.
      split; [done |]. exists []. rewrite app_nil_r. destruct Hp as [_ Ht Hl].
      split_and!; try done. by destruct x.
    + rewrite map_size_insert_None by done. lia.
  - apply end_call_ok; rewrite ?delete_id by done; try done.
    intros a' [= <-]. apply not_in_step.
Qed.

Context (no_newline : forall c document, to_vec c = Ok document -> lines document = 0%nat).

(** What is left of a command ends in its newline. *)
Lemma rest_has_newline written rest document :
  written ++ rest = document ++ [newline] -> rest <> [] -> lines document = 0%nat ->
  lines written = 0%nat /\ lines rest = 1%nat.
Proof.
  intros H Hne Hd. destruct rest as [| b rest' _] using rev_ind; [done |].
  rewrite app_assoc in H. apply app_inj_tail in H as [<- ->].
  rewrite lines_app in Hd. rewrite lines_app, lines_newline. lia.
Qed.

Lemma writes_under_way (e : Exchange) document n :
  under_way e -> progress e = Writing document ->
  forall pr t, pr = match drop n document with [] => Reading [] | rest => Writing rest end ->
  under_way {| sent := sent e; process := write_stdin (take n document) (process e);
               progress := pr; exchange_timings := t |}.
Proof.
  intros (Hb & before & doc & Hv & H) Hpr pr t ->. rewrite Hpr in H.
  destruct H as (written & Hw & Hne & Hin & Hl & Ht). split; [done |]. exists before, doc. simpl.
  split; [done |]. pose proof (take_drop n document) as Htd.
  destruct (drop n document) as [| b rest]; rewrite Hin, <- !app_assoc.
  - rewrite app_nil_r in Htd. rewrite Htd, Hw. exists (stdout (process e)), []. rewrite !app_nil_r. split_and!; auto.
  - exists (written ++ take n document). rewrite <- !app_assoc, Htd. split_and!; auto.
Qed.

(** What [finish_exchange] does with what was read. *)
Lemma finish_exchange_spec response completed decoded p t p' t' r :
  busy p = true ->
  finish_exchange from_slice response completed decoded (p, t) = ((p', t'), r) ->
  (busy p' = true /\ is_ok r = false) \/
  (p' = set_busy false p /\ (exists line, response = line ++ [newline]) /\
   forall x, r = Ok x -> from_slice response = Ok (Success x)).
Proof.
  intros Hb H. unfold finish_exchange in H. unfold mbind, M_bind, lift, modify in H.
  destruct (ensure _ _) as [[] |] in H; [| simplify_eq; by left].
  destruct (ensure (match last response with Some b => _ | None => _ end) _) as [[] |] eqn:Hlast in H;
    [| simplify_eq; by left].
  apply ensure_Ok in Hlast. simpl in H.
  destruct (from_slice response) as [resp |] eqn:Hd; simpl in H; [| simplify_eq; by left].
  right. destruct (last response) as [b |] eqn:E; [| done].
  apply last_Some in E as [line ->]. apply is_newline_spec in Hlast as ->.
  destruct resp as [x | err]; injection H as <- <- <-; split_and!; eauto; intros y [= <-].
  done.
Qed.

(** An exchange whose read has returned: either it broke off, or it read its line. *)
Lemma end_read_ok k e0 e (s : Pool) response completed decoded :
  pool_ok s -> running s !! k = Some e0 -> busy (process e) = true ->
  (forall line, response = line ++ [newline] ->
     quiet (set_busy false (process e)) /\
     exists before document earlier, to_vec (sent e) = Ok document /\
       stdin (process e) = before ++ document ++ [newline] /\
       stdout (process e) = earlier ++ line ++ [newline] /\
       lines before = lines earlier /\ lines line = 0%nat) ->
  pool_ok (end_read from_slice k e response completed decoded s).
Proof.
  intros Hok He Hb Hline. unfold end_read.
  destruct (finish_exchange _ _ _ _ _) as [[p' t'] r] eqn:Hf.
  apply finish_exchange_spec in Hf as [[Hb' Hr] | (-> & [line ->] & Hr)]; [| | done].
  - eapply end_running_ok; [done.. | congruence |]. intros a [= <-] x y. by destruct r.
  - destruct (Hline line eq_refl) as (Hq & before & document & earlier & Hv & Hin & Hout & ? & ?).
    eapply end_running_ok; [done.. | by intros _ |]. intros a [= <-] x y. simpl.
    destruct r as [x' |]; [| done]. intros [= -> _].
    eexists _, document, line, before, earlier. split_and!; eauto.
Qed.

Lemma reads_ok k (s s' : Pool) completed decoded :
  pool_ok s -> provider_turn to_vec from_slice (Reads k completed decoded) s = Some s' -> pool_ok s'.
Proof.
  intros Hok H. simpl in H. destruct (running s !! k) as [e |] eqn:He; [| done]. simpl in H.
  pose proof (ok_running s Hok k e He) as (Hb & before & document & Hv & Hu).
  destruct (progress e) as [? | response]; [done |].
  destruct Hu as (earlier & pending & Hin & Hl & Hresp & Hout & Ht & Hpend).
  assert (unread (process e) = pending) as Hun.
  { unfold unread. rewrite Ht, Hout, app_assoc. by rewrite drop_app_length. }
  rewrite Hun in H. destruct pending as [| b pending].
  - unfold guarded in H. case_match; [| done]. injection H as <-.
    eapply end_read_ok; try done. intros line ->. rewrite lines_app, lines_newline in Hresp. lia.
  - destruct (is_newline b) eqn:Hb1; [| destruct (_ =? _)%Z eqn:Hlen]; simpl in H; injection H as <-.
    + assert (b = newline /\ pending = []) as [-> ->].
      { split; [by apply is_newline_spec |].
        destruct Hpend as [Hz | ([| b' q] & Hq & Hz)]; simpl in *; [by rewrite Hb1 in Hz | by simplify_eq |].
        simplify_eq. by rewrite Hb1 in Hz. }
      eapply end_read_ok; try done. intros line [-> _]%app_inj_tail. split.
      * split; simpl; [done | |]; rewrite ?Ht, ?Hout, ?Hin, ?lines_app, ?length_app, ?Hresp; simpl;
          rewrite ?(no_newline _ _ Hv); lia.
      * exists before, document, earlier. by split_and!.
    + eapply end_read_ok; try done. intros line [_ ->]%app_inj_tail. done.
    + eapply set_exchange_ok; [done.. |]. split; [done |]. exists before, document. split; [done |].
      exists earlier, pending. simpl. rewrite lines_app, lines_one, Hb1, Ht, !length_app, Hresp, Hout.
      split_and!; [done.. | by rewrite <- app_assoc | simpl; lia |].
      destruct Hpend as [Hz | ([| b' q] & Hq & Hz)]; simpl in *; simplify_eq.
      * left. lia.
      * right. exists q. split; [done | lia].
Qed.

(** A child acts on the process of a running exchange. *)
Lemma at_running k f e (s : Pool) :
  running s !! k = Some e ->
  at_place (Running k) f s =
    set_exchange k {| sent := sent e; process := f (process e); progress := progress e;
                      exchange_timings := exchange_timings e |} s.
Proof.
  intros He. unfold at_place, set_exchange. f_equal.
  rewrite <- (insert_id (running s) k e) at 1 by done. by rewrite alter_insert_eq.
Qed.

(** A child says nothing while it waits or is being asked, and no more than its line then. *)
Lemma emits_ok place b (s s' : Pool) :
  pool_ok s -> provider_turn to_vec from_slice (Emits place b) s = Some s' -> pool_ok s'.
Proof.
  intros Hok H. simpl in H. destruct (process_at place s) as [p |] eqn:Hp; [| done]. simpl in H.
  unfold guarded in H. destruct (may_emit p) eqn:Hm; [| done]. injection H as <-.
  unfold may_emit in Hm. apply andb_true_iff in Hm as [_ Hm%Nat.ltb_lt].
  destruct place as [i | k]; simpl in Hp.
  - pose proof (Forall_lookup_1 _ _ _ _ (ok_idle s Hok) Hp) as [_ _ Hl]. lia.
  - destruct (running s !! k) as [e |] eqn:He; [| done]. injection Hp as <-.
    rewrite (at_running _ _ e) by done. eapply set_exchange_ok; [done.. |].
    pose proof (ok_running s Hok k e He) as (Hb & before & document & Hv & Hu).
    pose proof (no_newline _ _ Hv) as Hd. split; [done |]. exists before, document.
    split; [done |]. simpl. destruct (progress e) as [rest | response].
    + destruct Hu as (written & Hw & Hne & Hin & Hl & _).
      apply rest_has_newline in Hw as [Hz _]; [| done..].
      rewrite Hin, lines_app in Hm. lia.
    + destruct Hu as (earlier & pending & Hin & Hl & Hresp & Hout & Ht & _).
      rewrite Hin, Hout, !lines_app, lines_newline in Hm.
      exists earlier, (pending ++ [b]). rewrite Hout, <- !app_assoc. split_and!; try done.
      destruct (is_newline b) eqn:Eb.
      * right. exists pending. apply is_newline_spec in Eb as ->. split; [done | lia].
      * left. rewrite lines_app, lines_one, Eb. lia.
Qed.

Lemma exits_ok place (s s' : Pool) :
  pool_ok s -> provider_turn to_vec from_slice (Exits place) s = Some s' -> pool_ok s'.
Proof.
  intros Hok H. simpl in H. destruct (process_at place s) as [p |] eqn:Hp; [| done].
  injection H as <-. destruct place as [i | k]; simpl in Hp.
  - destruct Hok as [Hi Hr Ha Hs]. split; simpl; [| done | done | by rewrite length_alter].
    apply Forall_alter; [done |]. intros q _ [? ? ?]. by split.
  - destruct (running s !! k) as [e |] eqn:He; [| done]. injection Hp as <-.
    rewrite (at_running _ _ e) by done. eapply set_exchange_ok; [done.. |].
    by pose proof (ok_running s Hok k e He).
Qed.

Lemma create_quiet : quiet create.
Proof. done. Qed.

(** A turn of the pool itself. *)
Definition of_pool (turn : ProviderTurn (Request := Request)) : Prop :=
  match turn with Reuses _ _ _ _ | Creates _ _ _ | GetFails _ _ _ | Discards _ _ => True | _ => False end.

Lemma of_pool_ok turn (s s' : Pool) :
  of_pool turn -> pool_ok s -> provider_turn to_vec from_slice turn s = Some s' -> pool_ok s'.
Proof.
  intros Hturn [Hi Hr Ha Hs] H. unfold guarded in *.
  destruct turn as [k c sp i | k c sp | k c error | i ex | | | | | | | |]; simpl in *; try done.
  - destruct (idle s !! i) as [p |] eqn:Hp; [| done]. simpl in H. unfold guarded in H.
    destruct (_ && _) eqn:Hg in H; [| done]. injection H as <-. bool_prop.
    pose proof (length_delete (idle s) i (mk_is_Some _ _ Hp)) as Hlen.
    pose proof (lookup_lt_Some _ _ _ Hp).
    apply start_exchange_ok; simpl; [done | by apply Forall_delete | done | done | lia | done |].
    by eapply Forall_lookup_1.
  - unfold guarded in H. destruct (_ && _) eqn:Hg in H; [| done]. injection H as <-.
    apply andb_true_iff in Hg as [Hk Hlt%Nat.ltb_lt]. bool_prop. by apply start_exchange_ok.
  - unfold guarded in H. destruct (bool_decide _) in H; [| done]. injection H as <-.
    split; simpl; try done. apply Forall_app. split; [done |]. repeat constructor.
    intros x y. by destruct error.
  - destruct (idle s !! i) as [p |] eqn:Hp; [| done]. simpl in H. unfold guarded in H.
    destruct (negb _) in H; [| done]. injection H as <-. split; simpl; try done.
    + by apply Forall_delete.
    + pose proof (length_delete (idle s) i (mk_is_Some _ _ Hp)). lia.
Qed.

Lemma provider_turn_ok turn (s s' : Pool) :
  pool_ok s -> provider_turn to_vec from_slice turn s = Some s' -> pool_ok s'.
Proof.
  intros Hok H. pose proof (ok_running s Hok) as Hr.
  assert (Hbusy : forall k e, running s !! k = Some e -> busy (process e) = false -> quiet (process e)).
  { intros k e He Hb. destruct (Hr k e He) as [Hb' _]. by rewrite Hb in Hb'. }
  assert (Hends : forall k e t r, running s !! k = Some e -> is_ok (E := Error) (A := Reply) r = false ->
    pool_ok (end_exchange k e (process e) t r s)).
  { intros k e t r He Hr'. eapply end_running_ok; [done.. | by eapply Hbusy |].
    intros a [= <-] x y. by destruct r. }
  destruct turn as [| | | | k n w | k error | k cm dc | k error | k | k | place b | place];
    [by eapply of_pool_ok; [| | exact H].. | | | by eapply reads_ok | | | | by eapply emits_ok
    | by eapply exits_ok]; simpl in H;
    (destruct (running s !! k) as [e |] eqn:He; [| done]; simpl in H).
  - destruct (progress e) as [document |] eqn:Hpr; [| done]. injection H as <-.
    pose proof (writes_under_way e document n (Hr k e He) Hpr) as Hw.
    destruct (drop n document); (eapply set_exchange_ok; [done.. | by apply Hw]).
  - destruct (progress e); [| done]. injection H as <-. by apply Hends.
  - destruct (progress e); [done |]. injection H as <-. by apply Hends.
  - injection H as <-. by apply Hends.
  - injection H as <-. eapply end_running_ok; [done.. | by eapply Hbusy | done].
Qed.

Lemma provider_turns_ok turns (s s' : Pool) :
  pool_ok s -> provider_turns to_vec from_slice turns s = Some s' -> pool_ok s'.
Proof.
  revert s. induction turns as [| turn turns IH]; simpl; intros s Hok H; [congruence |].
  destruct (provider_turn _ _ _ _) as [s1 |] eqn:H1; [| done]. eapply IH, H.
  by eapply provider_turn_ok.
Qed.

Lemma pool_new_ok : pool_ok pool_new.
Proof. split; simpl; try done. rewrite map_size_empty. unfold max_size. lia. Qed.

(** C29: Provider replies stay in step, however calls overlap and whatever breaks off: calls reuse or
    start processes, write and read in pieces, time out or are abandoned at any wait, while
    processes write and exit.  At most two processes live in the pool; one that waits is idle
    and has nothing left to be read; and a reply that a call returned is the decoded line of its
    process for the very command the call sent: the command is the last thing written to the
    process, the line the last thing it said, and before the two as many lines were asked as
    answered.  The process may be any that writes at most one line per line it is given. *)
Theorem provider_answers_in_step (turns : list ProviderTurn) (s : Pool) :
  provider_turns to_vec from_slice turns pool_new = Some s ->
  length (idle s) + size (running s) <= max_size /\
  (forall p, p ∈ idle s -> busy p = false /\ unread p = []) /\
  (forall a r t, a ∈ answers s -> outcome a = Ok (r, t) ->
     exists p document line before earlier, served_by a = Some p /\
       to_vec (answered_command a) = Ok document /\
       from_slice (line ++ [newline]) = Ok (Success r) /\
       stdin p = before ++ document ++ [newline] /\ stdout p = earlier ++ line ++ [newline] /\
       lines before = lines earlier /\ lines line = 0%nat).
Proof.
  intros H. apply provider_turns_ok in H as [Hi Hr Ha Hs]; [| apply pool_new_ok].
  split_and!; [done | |].
  - intros p Hp. rewrite Forall_forall in Hi. apply Hi in Hp as [Hb Ht _]. split; [done |].
    unfold unread. by rewrite Ht, drop_all.
  - intros a r t Hin. rewrite Forall_forall in Ha. by apply Ha.
Qed.

(** ** A call that is left alone is answered *)

Lemma provider_turns_app xs ys (s : Pool) :
  provider_turns to_vec from_slice (xs ++ ys) s =
  provider_turns to_vec from_slice xs s ≫= provider_turns to_vec from_slice ys.
Proof.
  revert s. induction xs as [| x xs IH]; simpl; intros s; [done |].
  destruct (provider_turn _ _ x s); simpl; [apply IH | done].
Qed.

(** The exchange of [k] with a process that has said [out], of which [n] bytes and, of the line it is
    on, [response] were read. *)
Definition reading (e : Exchange (Request := Request)) (out : bytes) (n : nat) (response : bytes)
    : Exchange :=
  {| sent := sent e;
     process := {| stdin := stdin (process e); stdout := out; taken := n;
                   exited := exited (process e); busy := busy (process e) |};
     progress := Reading response; exchange_timings := exchange_timings e |}.

Lemma emits_byte k e (s : Pool) out n b :
  running s !! k = Some (reading e out n []) -> exited (process e) = false ->
  lines out < lines (stdin (process e)) ->
  provider_turn to_vec from_slice (Emits (Running k) b) s =
    Some (set_exchange k (reading e (out ++ [b]) n []) s).
Proof.
  intros He Hx Ho%Nat.ltb_lt. unfold provider_turn, process_at. rewrite He. simpl.
  unfold may_emit. simpl. rewrite Hx, Ho. simpl.
  f_equal. apply (at_running k (emit b) _ s He).
Qed.

Lemma emits_line k e (s : Pool) line out n :
  running s !! k = Some (reading e out n []) -> exited (process e) = false ->
  lines line = 0%nat -> lines out < lines (stdin (process e)) ->
  provider_turns to_vec from_slice (Emits (Running k) <$> (line ++ [newline])) s =
    Some (set_exchange k (reading e (out ++ line ++ [newline]) n []) s).
Proof.
  revert s out. induction line as [| b line IH]; intros s out He Hx Hl Ho; cbn [app fmap list_fmap provider_turns];
    rewrite (emits_byte _ _ _ _ _ _ He Hx Ho); cbn [mbind option_bind]; [done |].
  assert (is_newline b = false /\ lines line = 0%nat) as [Hb Hl'].
  { simpl in Hl. by destruct (is_newline b). }
  rewrite (IH _ (out ++ [b])); [| apply lookup_insert_eq | done | done |].
  - unfold set_exchange. simpl. by rewrite insert_insert_eq, <- app_assoc.
  - rewrite lines_app, lines_one, Hb. lia.
Qed.

Lemma end_read_set k e e' (s : Pool) response cm dc :
  end_read from_slice k e response cm dc (set_exchange k e' s) = end_read from_slice k e response cm dc s.
Proof.
  unfold end_read, end_exchange, end_call. destruct (finish_exchange _ _ _ _ _) as [[p t] r].
  simpl. by rewrite delete_insert_eq.
Qed.

(** Reading the line, up to its newline. *)
Lemma reads_byte k e (s : Pool) b rest heard out n cm dc :
  running s !! k = Some (reading e out n heard) -> drop n out = b :: rest ->
  (bytes_len (heard ++ [b]) <= MAX_PROVIDER_OUTPUT_BYTES)%Z ->
  provider_turn to_vec from_slice (Reads k cm dc) s =
    Some (let e := reading e out (S n) (heard ++ [b]) in
          if is_newline b then end_read from_slice k e (heard ++ [b]) cm dc s else set_exchange k e s).
Proof.
  intros He Hd Hlen. unfold provider_turn. rewrite He. simpl. unfold unread. simpl. rewrite Hd.
  assert ((bytes_len (heard ++ [b]) =? MAX_PROVIDER_OUTPUT_BYTES + 1)%Z = false) as ->
    by (apply Z.eqb_neq; lia).
  rewrite orb_false_r. by destruct (is_newline b).
Qed.

Lemma reads_line k e (s : Pool) line heard out n cm dc :
  running s !! k = Some (reading e out n heard) -> drop n out = line ++ [newline] ->
  lines line = 0%nat -> (bytes_len (heard ++ line ++ [newline]) <= MAX_PROVIDER_OUTPUT_BYTES)%Z ->
  provider_turns to_vec from_slice (replicate (length (line ++ [newline])) (Reads k cm dc)) s =
    Some (end_read from_slice k
            (reading e out (length (line ++ [newline]) + n) (heard ++ line ++ [newline]))
            (heard ++ line ++ [newline]) cm dc s).
Proof.
  revert s n heard. induction line as [| b line IH]; intros s n heard He Hd Hl Hlen;
    cbn [app length replicate provider_turns];
    (erewrite reads_byte; [| done | done |
       unfold bytes_len in *; rewrite !length_app in *; simpl in *; lia]); [done |].
  assert (is_newline b = false /\ lines line = 0%nat) as [Hb Hl'].
  { simpl in Hl. by destruct (is_newline b). }
  rewrite Hb. cbn [mbind option_bind]. rewrite (IH _ (S n) (heard ++ [b])); [| | | done |].
  - rewrite end_read_set, <- !app_assoc. simpl. by rewrite Nat.add_succ_r.
  - apply lookup_insert_eq.
  - rewrite <- Nat.add_1_r, <- drop_drop, Hd. done.
  - by rewrite <- app_assoc.
Qed.

(** The exchange once its command is written to [p]. *)
Definition asked (c : ProviderCommand Request) (document : bytes) (p : ProviderProcess)
    (spawned written : Z) : Exchange :=
  {| sent := c; process := write_stdin (document ++ [newline]) (set_busy true p);
     progress := Reading [];
     exchange_timings := mark_written written (mark_spawned spawned no_timings) |}.

Lemma asks_command k i c (s : Pool) p document spawned written :
  running s !! k = None -> idle s !! i = Some p -> quiet p -> exited p = false ->
  to_vec c = Ok document -> (bytes_len document <= MAX_PROVIDER_OUTPUT_BYTES)%Z ->
  provider_turns to_vec from_slice [Reuses k c spawned i; Writes k (S (length document)) written] s =
    Some (set_exchange k (reading (asked c document p spawned written) (stdout p) (length (stdout p)) [])
            {| idle := delete i (idle s); running := running s; answers := answers s |}).
Proof.
  intros Hk Hi [Hb Ht Hl] Hx Hv Hdoc. cbn [provider_turns provider_turn]. rewrite Hi.
  cbn [mbind option_bind]. unfold recycle. rewrite Hb, Hx, bool_decide_true by done.
  cbn [negb guarded mbind option_bind result_bind is_ok ensure andb].
  unfold start_exchange, begin_exchange. rewrite Hv. cbn [mbind result_bind].
  unfold ensure. rewrite (proj2 (Z.leb_le _ _) Hdoc). cbn [mbind result_bind running].
  rewrite lookup_insert_eq. cbn [mbind option_bind progress process].
  assert (S (length document) = length (document ++ [newline])) as -> by (rewrite length_app; simpl; lia).
  rewrite drop_all, firstn_all. unfold set_exchange, reading, asked, write_stdin, set_busy. simpl.
  by rewrite insert_insert_eq, Ht.
Qed.

(** A call that nothing disturbs is answered.  A process that waits in the pool is asked the
    command; when it says one line that decodes to a reply, of at most a mebibyte, the call
    returns that reply, with its four timings, and the process is back in the pool, to be asked
    again, with nothing unread. *)
Lemma undisturbed_call_answered (k i : nat) (c : ProviderCommand Request) (s : Pool)
    (p : ProviderProcess) (document line : bytes) (r : Reply) (spawned written cm dc : Z) :
  running s !! k = None -> idle s !! i = Some p -> quiet p -> exited p = false ->
  to_vec c = Ok document -> (bytes_len document <= MAX_PROVIDER_OUTPUT_BYTES)%Z ->
  lines line = 0%nat -> (bytes_len (line ++ [newline]) <= MAX_PROVIDER_OUTPUT_BYTES)%Z ->
  from_slice (line ++ [newline]) = Ok (Success r) ->
  exists p',
    provider_turns to_vec from_slice
      (Reuses k c spawned i :: Writes k (S (length document)) written ::
       (Emits (Running k) <$> (line ++ [newline])) ++ replicate (length (line ++ [newline])) (Reads k cm dc)) s =
    Some {| idle := delete i (idle s) ++ [p']; running := running s;
            answers := answers s ++ [{| answered_command := c; served_by := Some p';
              outcome := Ok (r, {| spawned_at_ms := Some (elapsed_ms spawned);
                                   request_written_at_ms := Some (elapsed_ms written);
                                   process_completed_at_ms := Some (elapsed_ms cm);
                                   response_decoded_at_ms := Some (elapsed_ms dc) |}) |}] |} /\
    quiet p' /\ exited p' = false /\ stdin p' = stdin p ++ document ++ [newline] /\
    stdout p' = stdout p ++ line ++ [newline].
Proof.
  intros Hk Hi Hq Hx Hv Hdoc Hline Hlen Hr. pose proof Hq as [Hb Ht Hl].
  set (e := asked c document p spawned written).
  exists (set_busy false (process (reading e (stdout p ++ line ++ [newline])
    (length (line ++ [newline]) + length (stdout p)) (line ++ [newline])))).
  split; [| split; [split; simpl | done] ].
  - change (?a :: ?b :: ?l) with ([a; b] ++ l).
    rewrite provider_turns_app, (asks_command _ _ _ _ p document) by done. cbn [mbind option_bind].
    rewrite provider_turns_app, (emits_line k e _ line (stdout p) (length (stdout p)));
      [| apply lookup_insert_eq | done | done |].
    + cbn [mbind option_bind].
      rewrite (reads_line k e _ line [] (stdout p ++ line ++ [newline]) (length (stdout p)));
        [| apply lookup_insert_eq | apply drop_app_length | done | done].
      rewrite !end_read_set. f_equal. cbn [app]. unfold end_read, finish_exchange, ensure.
      rewrite (proj2 (Z.leb_le _ _) Hlen), last_snoc. unfold mbind, M_bind, lift, modify. simpl.
      rewrite Hr. simpl. unfold end_exchange, end_call. simpl. by rewrite delete_id.
    + simpl. rewrite !lines_app, lines_newline, Hl. lia.
  - done.
  - rewrite !length_app. simpl. lia.
  - rewrite !lines_app, lines_newline, Hl, Hline, (no_newline _ _ Hv). done.
Qed.
End InStep.

(** ** A small pool *)

Section Sample.
Local Open Scope list_scope.

(** Commands are numbers, written as one byte that is no newline, and replies the length of the line. *)
Definition sample_to_vec (c : ProviderCommand nat) : anyhow bytes := Ok (replicate (request c) Byte.x78).
Definition sample_from_slice (line : bytes) : anyhow (ProviderResponse nat) :=
  Ok (Success (length line - 1)).
Definition sample_command (n : nat) : ProviderCommand nat := {| operation := "test"; request := n |}.

(** Two calls at once, the second of which is abandoned after it was written; the first is answered,
    and its process serves a third call, which times out. *)
Definition sample_turns : list (ProviderTurn (Request := nat)) :=
  [Creates 0 (sample_command 2) 1; Creates 1 (sample_command 1) 2; Writes 0 1 3; Writes 1 2 3;
   Writes 0 2 4; Abandoned 1; Emits (Running 0) Byte.x78; Reads 0 5 6; Emits (Running 0) Byte.x78;
   Emits (Running 0) newline; Reads 0 5 6; Reads 0 7 8; Reuses 2 (sample_command 1) 9 0;
   Writes 2 2 10; Emits (Running 2) Byte.x78; TimesOut 2].
Definition sample_answers : list (nat * option nat) :=
  match provider_turns sample_to_vec sample_from_slice sample_turns pool_new with
  | Some s => (fun a => (request (answered_command a), fst <$> result_ok (outcome a))) <$> answers s
  | None => []
  end.

Lemma sample_no_newline c document : sample_to_vec c = Ok document -> lines document = 0.
Proof. intros [= <-]. by induction (request c). Qed.

Lemma provider_answers_in_step_witness :
  sample_answers = [(2, Some 2); (1, None)] /\
  exists s, provider_turns sample_to_vec sample_from_slice sample_turns pool_new = Some s /\
    length (idle s) + size (running s) <= max_size.
Proof.
  split; [vm_compute; reflexivity |].
  destruct (provider_turns sample_to_vec sample_from_slice sample_turns pool_new) as [s |] eqn:H;
    [| vm_compute in H; discriminate H].
  exists s. split; [reflexivity |].
  exact (proj1 (provider_answers_in_step sample_to_vec sample_from_slice sample_no_newline sample_turns s H)).
Defined.
End Sample.
