(* ===== verification/Tokens.v ===== *)
(** * Tokens

    Who is calling: the JWTs of workflows, hosts and single invocations, how
    they are issued ([src/control_plane/issuer.rs]) and how a presented token is
    turned into a principal ([src/control_plane/auth.rs]).  The JWT codec, the
    key formats and their parsers are not part of the repository. *)
From S2P Require Import Prelude Net Identity SocketProtocol StorageUrls.
Local Open Scope string_scope.

Definition CLOCK_SKEW : Duration := from_secs 5.
Definition WORKFLOW_DEADLINE_GRACE : Duration := from_secs 30.
Definition INVOCATION_TARGET_TTL : Duration := from_secs 60.

Inductive ActorTokenPurpose := ControlPlane | Invocation.
#[export] Instance ActorTokenPurpose_eq_dec : EqDecision ActorTokenPurpose.
Proof. solve_decision. Defined.

(** [ActorTokenPurpose::claim] *)
Definition claim (purpose : ActorTokenPurpose) (role : ActorProcessRole) : string :=
  match purpose, role with
  | ControlPlane, Host => "actor:authority"
  | ControlPlane, Workflow => "actor:invoke"
  | Invocation, Workflow => "actor:invoke"
  | Invocation, Host => "actor:invoke"
  end.

Record ActorInvocationCapability := {
  cap_actor : ActorKey;
  cap_host_id : HostId;
  cap_owner_epoch : Z;
  cap_state_version : Z;
  cap_state_read_url : string;
}.
#[export] Instance ActorInvocationCapability_eq_dec : EqDecision ActorInvocationCapability.
Proof. solve_decision. Defined.

Record ActorPrincipal := {
  scope : ActorScope;
  host_id : HostId;
  session_id : string;
  process_role : ActorProcessRole;
  region : string;
  private_routing : bool;
  code_revision : option string;
  expires_at : Z;
  invocation : option ActorInvocationCapability;
}.

(** [uuid1] and [uuid2] are the two [Uuid::new_v4()]. *)
Definition for_external_socket (uuid1 uuid2 : string) (actor : ActorKey) (region : string)
    (expires_at : Z) : ActorPrincipal :=
  {| scope := {| scope_namespace_id := namespace_id actor |};
     host_id := "workflow.v1." +:+ namespace_id actor +:+ ".socket." +:+ uuid1;
     session_id := uuid2; process_role := Workflow; region := region;
     private_routing := false; code_revision := None; expires_at := expires_at;
     invocation := None |}.

Definition validate_host_id (p : ActorPrincipal) (id : string) : anyhow () :=
  ensure (bool_decide (id = host_id p))
    "host does not match the authenticated host identity".

Definition host_id_prefix (p : ActorPrincipal) : string :=
  "host.v1." +:+ scope_namespace_id (scope p) +:+ ".".

(** ** Claims *)

(** The claims the verifier reads ([auth.rs]). *)
Record ActorJwtClaims := {
  sub : string;
  claims_namespace_id : string;
  claims_host_id : string;
  claims_session_id : string;
  claims_process_role : ActorProcessRole;
  claims_region : string;
  claims_private_routing : bool;
  claims_code_revision : option string;
  claims_scope : string;
  iat : Z;
  nbf : Z;
  exp : Z;
  claims_invocation : option ActorInvocationCapability;
}.
#[export] Instance ActorJwtClaims_eq_dec : EqDecision ActorJwtClaims.
Proof. solve_decision. Defined.

(** The claims the issuer writes ([issuer.rs]): the same fields under the same
    JSON names, with the issuer and the audience. *)
Record IssuedClaims := {
  iss : string;
  aud : list string;
  claims : ActorJwtClaims;
}.
#[export] Instance IssuedClaims_eq_dec : EqDecision IssuedClaims.
Proof. solve_decision. Defined.

Record Header := { typ : option string; kid : option string }.

(** [Validation] as [from_decoded_public_keys] fills it: EdDSA, the expiry and
    the not-before time, with [leeway] seconds. *)
Record Validation := {
  validation_issuer : list string;
  validation_audience : list string;
  required_spec_claims : list string;
  validate_nbf : bool;
  leeway : Z;
}.

Inductive KeyAlgorithm := EdDSA | OtherAlgorithm.
#[export] Instance KeyAlgorithm_eq_dec : EqDecision KeyAlgorithm.
Proof. solve_decision. Defined.

(** The [jsonwebtoken], [base64] and Ed25519 libraries.  [jwt_decode] is given
    the clock [jsonwebtoken] reads, in seconds. *)
Class Jwt := {
  EncodingKey : Type;
  DecodingKey : Type;
  Jwk : Type;
  jwk_key_id : Jwk -> option string;
  jwk_key_algorithm : Jwk -> option KeyAlgorithm;
  DecodingKey_from_jwk : Jwk -> anyhow DecodingKey;
  parse_jwk_set : string -> anyhow (list Jwk);
  jwk_set_to_vec : list Jwk -> anyhow bytes;
  public_key_of_pkcs8 : bytes -> anyhow bytes;
  EncodingKey_from_ed_der : bytes -> EncodingKey;
  (** the JWK of an Ed25519 public key, for signatures, under a key ID *)
  ed25519_jwk : bytes -> string -> anyhow Jwk;
  jwt_encode : Header -> IssuedClaims -> EncodingKey -> anyhow string;
  decode_header : string -> anyhow Header;
  jwt_decode : string -> DecodingKey -> Validation -> Z -> anyhow ActorJwtClaims;
}.

(** What the code relies on: a decoded token passes [Validation], a token is
    decoded to what was encoded, a token that was decoded is decoded until it
    expires, and keys survive the JWK format. *)
Definition validation_accepts (v : Validation) (now : Z) (c : IssuedClaims) : bool :=
  bool_decide (iss c ∈ validation_issuer v)
  && bool_decide (Exists (fun a => a ∈ validation_audience v) (aud c))
  && (0 <=? exp (claims c))%Z && (0 <=? nbf (claims c))%Z
  && (now - leeway v <=? exp (claims c))%Z
  && (negb (validate_nbf v) || (nbf (claims c) <=? now + leeway v)%Z).

Class JwtLaws (J : Jwt) := {
  signs : EncodingKey -> DecodingKey -> Prop;
  token_header h c ek token :
    jwt_encode h c ek = Ok token -> decode_header token = Ok h;
  token_claims h c ek dk token v now :
    signs ek dk -> jwt_encode h c ek = Ok token ->
    validation_accepts v now c = true -> jwt_decode token dk v now = Ok (claims c);
  token_signed h c ek dk token v now c' :
    jwt_encode h c ek = Ok token -> jwt_decode token dk v now = Ok c' ->
    signs ek dk /\ c' = claims c;
  claims_i64 token dk v now c :
    jwt_decode token dk v now = Ok c -> is_i64 (iat c) = true;
  token_trimmed h c ek token :
    jwt_encode h c ek = Ok token -> is_empty token = false /\ trim token = token;
  decoded_later token dk v now now' c :
    jwt_decode token dk v now = Ok c -> (now <= now')%Z -> (now' - leeway v <= exp c)%Z ->
    jwt_decode token dk v now' = Ok c;
}.

(** ** Time *)

(** [elapsed] is [SystemTime::now().duration_since(UNIX_EPOCH)] in
    milliseconds, [None] before the epoch. *)
Definition since_epoch (elapsed : option Z) : anyhow Z :=
  match elapsed with
  | Some millis => Ok millis
  | None => Err ["second time provided was later than self"]
  end.

Definition i64_try (z : Z) : anyhow Z :=
  match i64_try_from z with
  | Some z => Ok z
  | None => Err ["out of range integral type conversion attempted"]
  end.

(** [auth.rs] *)
Definition unix_seconds (elapsed : option Z) : anyhow Z :=
  millis ← with_context "system clock is before the Unix epoch" (since_epoch elapsed);
  with_context "system clock exceeds supported JWT range" (i64_try (millis / 1000)).

(** [issuer.rs] *)
Definition unix_millis (elapsed : option Z) : anyhow Z :=
  millis ← with_context "system clock is before the Unix epoch" (since_epoch elapsed);
  with_context "system clock exceeds supported JWT range" (i64_try millis).

Definition duration_millis (d : Duration) : anyhow Z :=
  with_context "duration exceeds supported JWT range" (i64_try (as_millis d)).

Section Tokens.
Context `{J : Jwt} `{B : Base64} `{Parser : UrlParser} `{Uuids : UuidParser}.

(** ** Verifying *)

Record ActorJwtVerifier := {
  public_keys : gmap string DecodingKey;
  validation : Validation;
  purpose : ActorTokenPurpose;
  max_lifetime : Duration;
}.

Definition decode_public_key (key : Jwk) : anyhow (string * DecodingKey) :=
  key_id ← some_or "actor JWT key ID must not be empty" (jwk_key_id key);
  ensure (bool_decide (jwk_key_algorithm key = Some EdDSA))
    ("actor JWT public key " +:+ quoted key_id +:+ " must use EdDSA");;
  decoding_key ← with_context ("decode actor JWT public key " +:+ quoted key_id)
                   (DecodingKey_from_jwk key);
  Ok (key_id, decoding_key).

(** [collect()] into [Result<HashMap<..>>]: a later key replaces an earlier one
    of the same ID. *)
Fixpoint collect_public_keys (keys : list Jwk) (acc : gmap string DecodingKey)
    : anyhow (gmap string DecodingKey) :=
  match keys with
  | [] => Ok acc
  | key :: keys' =>
      '(key_id, decoding_key) ← decode_public_key key;
      collect_public_keys keys' (<[ key_id := decoding_key ]> acc)
  end.

Definition decode_public_keys (public_keys_json : string) : anyhow (gmap string DecodingKey) :=
  keys ← with_context "parse durable-object JWT public keys as a JWK set"
           (parse_jwk_set public_keys_json);
  ensure (match keys with [] => false | _ => true end)
    "durable-object JWT public keys must contain at least one key";;
  collect_public_keys keys ∅.

Definition from_decoded_public_keys (public_keys : gmap string DecodingKey)
    (issuer audience : string) (purpose : ActorTokenPurpose) (max_lifetime : Duration)
    : anyhow ActorJwtVerifier :=
  ensure (negb (is_zero max_lifetime)) "actor JWT maximum lifetime must be positive";;
  ensure (negb (bool_decide (map_to_list public_keys = []))) 
    "actor JWT public-key set must not be empty";;
  ensure (negb (is_empty issuer)) "actor JWT issuer must not be empty";;
  ensure (negb (is_empty audience)) "actor JWT audience must not be empty";;
  Ok {| public_keys := public_keys;
        validation := {| validation_issuer := [issuer]; validation_audience := [audience];
                         required_spec_claims := ["exp"; "nbf"; "iss"; "aud"; "sub"];
                         validate_nbf := true; leeway := as_secs CLOCK_SKEW |};
        purpose := purpose; max_lifetime := max_lifetime |}.

Definition for_scope (public_keys_json issuer audience : string)
    (purpose : ActorTokenPurpose) (max_lifetime : Duration) : anyhow ActorJwtVerifier :=
  public_keys ← decode_public_keys public_keys_json;
  from_decoded_public_keys public_keys issuer audience purpose max_lifetime.

Definition bearer_token (authorization : string) : anyhow string :=
  token ← some_or "actor token must use Bearer authentication"
            (strip_prefix "Bearer " authorization);
  ensure (negb (is_empty token) && bool_decide (trim token = token)) "actor token is invalid";;
  Ok token.

Definition validate_capability (p : ActorPrincipal) (capability : ActorInvocationCapability)
    : anyhow () :=
  ensure (bool_decide (process_role p = Host))
    "actor invocation capability has an invalid process role";;
  ensure (bool_decide (cap_host_id capability = host_id p))
    "actor invocation capability targets another host";;
  ensure (ActorScope_contains (scope p) (cap_actor capability))
    "actor invocation capability crossed namespace scope";;
  ensure (0 <? cap_owner_epoch capability)%Z
    "actor invocation capability owner epoch is invalid";;
  if (cap_state_version capability =? 0)%Z
  then ensure (is_empty (cap_state_read_url capability))
         "uninitialized actor invocation capability has a state URL"
  else
    state_read_url ← with_context "actor invocation capability state URL is invalid"
                       (url_parse (cap_state_read_url capability));
    ensure (is_http state_read_url)
      "actor invocation capability state URL must be HTTP or HTTPS".

Definition principal_of_claims (c : ActorJwtClaims) : ActorPrincipal :=
  {| scope := {| scope_namespace_id := claims_namespace_id c |};
     host_id := claims_host_id c; session_id := claims_session_id c;
     process_role := claims_process_role c; region := claims_region c;
     private_routing := claims_private_routing c; code_revision := claims_code_revision c;
     expires_at := exp c; invocation := claims_invocation c |}.

Definition process_prefix (p : ActorPrincipal) : string :=
  match process_role p with
  | Host => host_id_prefix p
  | Workflow => "workflow.v1." +:+ scope_namespace_id (scope p) +:+ "."
  end.

Definition validate_claims (v : ActorJwtVerifier) (elapsed : option Z) (c : ActorJwtClaims)
    : anyhow ActorPrincipal :=
  ensure (existsb (String.eqb (claim (purpose v) (claims_process_role c)))
            (split_ascii_whitespace (claims_scope c)))
    "actor token credential scope is invalid";;
  ensure (negb (is_empty (sub c))) "actor token subject is empty";;
  (if bool_decide (claims_process_role c = Host)
   then ensure (bool_decide (sub c = claims_host_id c))
          "host token subject does not match its process identity"
   else Ok ());;
  ensure (uuid_ok (claims_session_id c)) "actor token session ID is invalid";;
  ensure (iat c <? exp c)%Z "actor token lifetime is invalid";;
  lifetime ← some_or "actor token lifetime is invalid" (i64_checked_sub (exp c) (iat c));
  lifetime_seconds ← with_context "actor token lifetime is invalid"
    (match u64_try_from lifetime with
     | Some s => Ok s
     | None => Err ["out of range integral type conversion attempted"]
     end);
  ensure (from_secs lifetime_seconds <=? max_lifetime v)%Z
    "actor token lifetime exceeds the configured maximum";;
  now ← unix_seconds elapsed;
  ensure (now <? exp c)%Z "actor token has expired";;
  ensure (iat c <=? i64_saturating_add now (as_secs CLOCK_SKEW))%Z
    "actor token was issued in the future";;
  let principal := principal_of_claims c in
  ActorScope_validate (scope principal);;
  ensure (starts_with (host_id principal) (process_prefix principal))
    "actor token process does not belong to its namespace";;
  ensure (negb (is_empty (region principal)) && (len (region principal) <=? 64)%Z
          && all_bytes (fun a => is_ascii_lowercase a || is_ascii_digit a
                                 || is_dash_underscore_dot a) (region principal))
    "actor token storage region is invalid";;
  match invocation principal with
  | Some capability => validate_capability principal capability
  | None => Ok ()
  end;;
  Ok principal.

(** [decode_at] is the clock [jsonwebtoken] reads. *)
Definition verify_with_header (v : ActorJwtVerifier) (decode_at : Z) (elapsed : option Z)
    (token : string) (header : Header) : anyhow ActorPrincipal :=
  ensure (match typ header with None => true | Some value => bool_decide (value = "JWT") end)
    "actor token has an invalid type";;
  key_id ← some_or "actor token key ID is empty" (kid header);
  public_key ← some_or ("actor token uses unknown key ID " +:+ quoted key_id)
                 (public_keys v !! key_id);
  claims ← with_context "verify actor JWT"
             (jwt_decode token public_key (validation v) decode_at);
  validate_claims v elapsed claims.

Definition authenticate_authorization (v : ActorJwtVerifier) (decode_at : Z)
    (elapsed : option Z) (authorization : string) : anyhow ActorPrincipal :=
  token ← bearer_token authorization;
  header ← with_context "actor token header is invalid" (decode_header token);
  verify_with_header v decode_at elapsed token header.

(** [metadata] is [request.metadata().get("authorization")], read with
    [to_str()]. *)
Definition authenticate (v : ActorJwtVerifier) (decode_at : Z) (elapsed : option Z)
    (metadata : option (option string)) : Result Status ActorPrincipal :=
  match metadata with
  | None => Err (status Unauthenticated "actor token is required")
  | Some None => Err (status Unauthenticated "actor token is not valid metadata")
  | Some (Some authorization) =>
      map_err (fun e => status Unauthenticated (alternate e))
        (authenticate_authorization v decode_at elapsed authorization)
  end.

(** ** Issuing *)

Record ActorJwtIssuer := {
  encoding_key : EncodingKey;
  public_key : Jwk;
  key_id : string;
  issuer : string;
  authority_audience : string;
  invocation_audience : string;
  issuer_max_lifetime : Duration;
}.

Record IssuedActorToken := { token : string; token_expires_at_ms : Z }.

Definition from_base64_pkcs8 (encoded_key key_id issuer authority_audience
    invocation_audience : string) (max_lifetime : Duration) : anyhow ActorJwtIssuer :=
  ensure (negb (is_empty key_id)) "DURABLE_OBJECT_JWT_KEY_ID must not be empty";;
  ensure (negb (is_zero max_lifetime)) "actor JWT lifetime must be positive";;
  ensure (negb (is_empty issuer)) "actor JWT issuer must not be empty";;
  ensure (negb (is_empty authority_audience))
    "actor authority JWT audience must not be empty";;
  ensure (negb (is_empty invocation_audience))
    "actor invocation JWT audience must not be empty";;
  pkcs8 ← with_context "DURABLE_OBJECT_JWT_SIGNING_KEY must be base64-encoded PKCS#8"
            (base64_decode encoded_key);
  key_pair ← with_context "DURABLE_OBJECT_JWT_SIGNING_KEY is not an Ed25519 PKCS#8 key"
               (public_key_of_pkcs8 pkcs8);
  public_key ← with_context "derive the actor JWT public key" (ed25519_jwk key_pair key_id);
  Ok {| encoding_key := EncodingKey_from_ed_der pkcs8; public_key := public_key;
        key_id := key_id; issuer := issuer; authority_audience := authority_audience;
        invocation_audience := invocation_audience; issuer_max_lifetime := max_lifetime |}.

Definition jwks_json (i : ActorJwtIssuer) : anyhow bytes := jwk_set_to_vec [public_key i].

Definition verifier_keys_json (i : ActorJwtIssuer) : anyhow string :=
  json ← jwks_json i;
  from_utf8 json.

Definition issue (i : ActorJwtIssuer) (c : IssuedClaims) : anyhow IssuedActorToken :=
  expires_at_ms ← some_or "issued actor token expiration overflow"
                    (i64_checked_mul (exp (claims c)) 1000);
  token ← with_context "sign actor JWT"
            (jwt_encode {| typ := Some "JWT"; kid := Some (key_id i) |} c (encoding_key i));
  Ok {| token := token; token_expires_at_ms := expires_at_ms |}.

(** [uuid1] and [uuid2] are the two [Uuid::new_v4()]. *)
Definition issue_workflow (i : ActorJwtIssuer) (elapsed : option Z) (uuid1 uuid2 : string)
    (namespace_id execution_id storage_region : string) (deadline_unix_ms : Z)
    (private_routing : bool) : anyhow IssuedActorToken :=
  validate_region storage_region;;
  now_ms ← unix_millis elapsed;
  ensure (now_ms <? deadline_unix_ms)%Z "workflow deadline must be in the future";;
  max_lifetime_ms ← duration_millis (issuer_max_lifetime i);
  let maximum_expiration := i64_saturating_add now_ms max_lifetime_ms in
  grace_ms ← duration_millis WORKFLOW_DEADLINE_GRACE;
  let requested_expiration := i64_saturating_add deadline_unix_ms grace_ms in
  let expires_at_ms := Z.min requested_expiration maximum_expiration in
  let process_id := "workflow.v1." +:+ namespace_id +:+ "." +:+ uuid1 in
  issue i {| iss := issuer i; aud := [authority_audience i; invocation_audience i];
    claims := {| sub := execution_id; claims_namespace_id := namespace_id;
      claims_host_id := process_id; claims_session_id := uuid2;
      claims_process_role := Workflow; claims_region := storage_region;
      claims_private_routing := private_routing; claims_code_revision := None;
      claims_scope := "actor:invoke"; iat := Z.quot now_ms 1000; nbf := Z.quot now_ms 1000;
      exp := Z.quot expires_at_ms 1000; claims_invocation := None |} |}.

Definition issue_host (i : ActorJwtIssuer) (elapsed : option Z) (namespace_id : string)
    (host_id : HostId) (session_id code_revision region : string) : anyhow IssuedActorToken :=
  now_ms ← unix_millis elapsed;
  max_lifetime_ms ← duration_millis (issuer_max_lifetime i);
  let expires_at_ms := i64_saturating_add now_ms max_lifetime_ms in
  issue i {| iss := issuer i; aud := [authority_audience i; invocation_audience i];
    claims := {| sub := host_id; claims_namespace_id := namespace_id;
      claims_host_id := host_id; claims_session_id := session_id;
      claims_process_role := Host; claims_region := region;
      claims_private_routing := false; claims_code_revision := Some code_revision;
      claims_scope := "actor:authority actor:invoke"; iat := Z.quot now_ms 1000;
      nbf := Z.quot now_ms 1000; exp := Z.quot expires_at_ms 1000;
      claims_invocation := None |} |}.

Definition issue_invocation_target (i : ActorJwtIssuer) (elapsed : option Z)
    (actor : ActorKey) (host_id : HostId) (session_id code_revision region : string)
    (owner_epoch state_version : Z) (state_read_url : string) (workflow_expires_at : Z)
    : anyhow IssuedActorToken :=
  ActorKey_validate actor;;
  validate_region region;;
  ensure (0 <? owner_epoch)%Z "actor owner epoch must be positive";;
  now_ms ← unix_millis elapsed;
  let now := Z.quot now_ms 1000 in
  ttl ← i64_try (as_secs INVOCATION_TARGET_TTL);
  let target_expires_at := i64_saturating_add now ttl in
  max_lifetime ← i64_try (as_secs (issuer_max_lifetime i));
  let issuer_expires_at := i64_saturating_add now max_lifetime in
  let expires_at := Z.min (Z.min workflow_expires_at target_expires_at) issuer_expires_at in
  ensure (now <? expires_at)%Z "workflow credential expires too soon";;
  issue i {| iss := issuer i; aud := [invocation_audience i];
    claims := {| sub := host_id; claims_namespace_id := namespace_id actor;
      claims_host_id := host_id; claims_session_id := session_id;
      claims_process_role := Host; claims_region := region;
      claims_private_routing := false; claims_code_revision := Some code_revision;
      claims_scope := "actor:invoke"; iat := now; nbf := now; exp := expires_at;
      claims_invocation := Some
        {| cap_actor := actor; cap_host_id := host_id; cap_owner_epoch := owner_epoch;
           cap_state_version := state_version; cap_state_read_url := state_read_url |} |} |}.
End Tokens.

(** ** Who a verified token is *)

Section Properties.
Context `{J : Jwt} `{B : Base64} `{Parser : UrlParser} `{Uuids : UuidParser}.
Context {L : JwtLaws J}.

(** What every accepted principal is, at second [now]. *)
Record principal_ok (v : ActorJwtVerifier) (now : Z) (p : ActorPrincipal) : Prop := {
  ok_scope : ActorScope_validate (scope p) = Ok tt;
  ok_host_id : exists rest, host_id p = process_prefix p +:+ rest;
  ok_region : validate_region (region p) = Ok tt;
  ok_session : uuid_ok (session_id p) = true;
  ok_alive : (now < expires_at p)%Z;
  ok_lifetime : (from_secs (expires_at p - now - 5) <= max_lifetime v)%Z;
  ok_capability : forall c, invocation p = Some c ->
    process_role p = Host /\ cap_host_id c = host_id p /\
    namespace_id (cap_actor c) = scope_namespace_id (scope p) /\
    (0 < cap_owner_epoch c)%Z /\
    (cap_state_version c = 0%Z -> cap_state_read_url c = "");
}.

Lemma as_secs_from_secs n : as_secs (from_secs n) = n.
Proof. unfold as_secs, from_secs. by rewrite Z.div_mul. Qed.

Lemma unix_seconds_Ok elapsed s :
  unix_seconds elapsed = Ok s <->
  exists ms, elapsed = Some ms /\ s = (ms / 1000)%Z /\ (i64_min <= s <= i64_max)%Z.
Proof.
  unfold unix_seconds, since_epoch, i64_try. destruct elapsed as [ms |]; simpl.
  - rewrite with_context_Ok. destruct (i64_try_from _) as [z |] eqn:E.
    + apply i64_try_from_Some in E as [-> ?]. split; [intros [= <-]; eauto |].
      intros (? & [= <-] & -> & _). done.
    + split; [done |]. intros (? & [= <-] & -> & ?).
      rewrite (proj2 (i64_try_from_Some _ _)) in E by eauto. done.
  - split; [done |]. by intros (? & ? & _).
Qed.

Lemma i64_try_Ok z m : i64_try z = Ok m <-> m = z /\ (i64_min <= z <= i64_max)%Z.
Proof. unfold i64_try. rewrite <- i64_try_from_Some. case_match; split; congruence. Qed.

Lemma issuer_millis_Ok elapsed m :
  unix_millis elapsed = Ok m <-> elapsed = Some m /\ (i64_min <= m <= i64_max)%Z.
Proof.
  unfold unix_millis, since_epoch. destruct elapsed as [ms |]; simpl.
  - rewrite with_context_Ok, i64_try_Ok. split; [by intros [-> ?] | by intros [[= ->] ?]].
  - split; [done |]. by intros [? _].
Qed.

Lemma validate_capability_Ok p c :
  validate_capability p c = Ok tt ->
  process_role p = Host /\ cap_host_id c = host_id p /\
  namespace_id (cap_actor c) = scope_namespace_id (scope p) /\
  (0 < cap_owner_epoch c)%Z /\ (cap_state_version c = 0%Z -> cap_state_read_url c = "").
Proof.
  unfold validate_capability, ActorScope_contains. intros Hc. inv_ok. bool_prop.
  repeat split; try done. intros Hz. rewrite Hz in *. simpl in *. inv_ok.
  by apply is_empty_spec.
Qed.

Lemma validate_claims_ok v elapsed c p :
  (i64_min <= iat c)%Z -> validate_claims v elapsed c = Ok p ->
  p = principal_of_claims c /\
  exists now, unix_seconds elapsed = Ok now /\ principal_ok v now p.
Proof.
  intros Hi Hc. unfold validate_claims in Hc. inv_ok. split; [done |].
  eexists. split; [done |]. bool_prop.
  match goal with Hs : i64_checked_sub _ _ = _ |- _ => apply i64_checked_sub_Some in Hs as [-> _] end.
  match goal with Hs : context [u64_try_from ?z] |- _ =>
    destruct (u64_try_from z) eqn:Eu; [| discriminate];
    apply u64_try_from_Some in Eu as [-> _] end.
  simplify_eq.
  match goal with Hs : unix_seconds _ = _ |- _ => apply unix_seconds_Ok in Hs as (? & _ & _ & ?) end.
  split.
  - done.
  - by apply starts_with_spec.
  - apply ensure_Ok. apply andb_true_iff. split; [| done]. apply andb_true_iff.
    split; [by apply negb_true_iff | by apply Z.leb_le].
  - done.
  - done.
  - unfold CLOCK_SKEW in *. rewrite as_secs_from_secs in *.
    unfold from_secs, i64_saturating_add, i64_clamp, i64_min, i64_max in *.
    simpl in *. lia.
  - intros cap Hcap. rewrite Hcap in *. by apply validate_capability_Ok.
Qed.

Lemma authenticated_ok v decode_at elapsed a p :
  authenticate_authorization v decode_at elapsed a = Ok p ->
  exists now, unix_seconds elapsed = Ok now /\ principal_ok v now p.
Proof.
  intros Hp. unfold authenticate_authorization, verify_with_header in Hp. inv_ok.
  match goal with Hd : jwt_decode _ _ _ _ = _ |- _ => apply claims_i64, is_i64_spec in Hd end.
  match goal with Hc : validate_claims _ _ _ = _ |- _ =>
    apply validate_claims_ok in Hc as [-> Hc]; [exact Hc | lia] end.
Qed.

(** A token is worth only what it says: whoever passes authentication has a
    valid namespace, a process identity inside that namespace and of its own
    role, a valid region, time left but no more than the configured lifetime
    (clock skew aside), and a capability, if any, for that very host and
    namespace, for a positive epoch, with no state URL before the first state. *)
Lemma authenticated_principal_ok
    (v : ActorJwtVerifier) (decode_at : Z) (elapsed : option Z) (metadata : option (option string))
    (p : ActorPrincipal)
    (Hp : authenticate v decode_at elapsed metadata = Ok p) :
  exists now, unix_seconds elapsed = Ok now /\ principal_ok v now p.
Proof.
  destruct metadata as [[authorization |] |]; [| done..]. simpl in Hp.
  apply map_err_Ok in Hp. by eapply authenticated_ok.
Qed.

(** ** What the issuer's tokens are good for *)

(** [v] knows the key of [i] and accepts its tokens for [audience]. *)
Definition trusts (v : ActorJwtVerifier) (i : ActorJwtIssuer) (audience : string) : Prop :=
  (exists dk, public_keys v !! key_id i = Some dk /\ signs (encoding_key i) dk) /\
  validation v = {| validation_issuer := [issuer i]; validation_audience := [audience];
    required_spec_claims := ["exp"; "nbf"; "iss"; "aud"; "sub"]; validate_nbf := true;
    leeway := 5 |}.

Lemma issue_Ok i c t :
  issue i c = Ok t ->
  jwt_encode {| typ := Some "JWT"; kid := Some (key_id i) |} c (encoding_key i) = Ok (token t) /\
  token_expires_at_ms t = (exp (claims c) * 1000)%Z.
Proof.
  unfold issue. intros Hi. inv_ok.
  match goal with Hm : i64_checked_mul _ _ = _ |- _ => apply i64_checked_mul_Some in Hm as [-> _] end.
  done.
Qed.

Lemma bearer_token_issued i c t :
  issue i c = Ok t -> bearer_token ("Bearer " +:+ token t) = Ok (token t).
Proof.
  intros [He _]%issue_Ok. apply token_trimmed in He as [Ht1 Ht2].
  unfold bearer_token. rewrite strip_prefix_append. simpl.
  rewrite Ht1, (bool_decide_eq_true_2 _ Ht2). done.
Qed.

(** A token of [i] is verified by checking its claims. *)
Lemma authenticate_issued i c t v audience decode_at elapsed :
  issue i c = Ok t -> trusts v i audience ->
  iss c = issuer i -> audience ∈ aud c ->
  (0 <= nbf (claims c) <= decode_at + 5)%Z -> (0 <= exp (claims c))%Z ->
  (decode_at - 5 <= exp (claims c))%Z ->
  authenticate_authorization v decode_at elapsed ("Bearer " +:+ token t) =
  validate_claims v elapsed (claims c).
Proof.
  intros Hi [(dk & Hk & Hs) Hv] Hiss Haud Hnbf He0 Hexp.
  unfold authenticate_authorization. erewrite bearer_token_issued by done. simpl.
  apply issue_Ok in Hi as [He _]. rewrite (token_header _ _ _ _ He). simpl.
  unfold verify_with_header. simpl. rewrite Hk. simpl.
  rewrite (token_claims _ _ _ _ _ _ decode_at Hs He); [done |].
  unfold validation_accepts. rewrite Hv, Hiss. simpl.
  rewrite bool_decide_eq_true_2 by constructor.
  rewrite bool_decide_eq_true_2 by (apply Exists_exists; exists audience; by repeat constructor).
  rewrite !(proj2 (Z.leb_le _ _)) by lia. done.
Qed.

(** Conversely, whatever a verifier makes of it, it sees the claims. *)
Lemma authenticated_issued_claims i c t v decode_at elapsed p :
  issue i c = Ok t ->
  authenticate_authorization v decode_at elapsed ("Bearer " +:+ token t) = Ok p ->
  validate_claims v elapsed (claims c) = Ok p.
Proof.
  intros Hi Hp. unfold authenticate_authorization in Hp.
  erewrite bearer_token_issued in Hp by done. apply issue_Ok in Hi as [He _].
  unfold verify_with_header in Hp. inv_ok.
  match goal with Hd : jwt_decode _ _ _ _ = _ |- _ =>
    destruct (token_signed _ _ _ _ _ _ _ _ He Hd) as [_ ->] end. done.
Qed.

Definition target_claims (i : ActorJwtIssuer) (now expires_at : Z) (actor : ActorKey)
    (host_id : HostId) (session_id code_revision region : string) (owner_epoch state_version : Z)
    (state_read_url : string) : IssuedClaims :=
  {| iss := issuer i; aud := [invocation_audience i];
    claims := {| sub := host_id; claims_namespace_id := namespace_id actor;
      claims_host_id := host_id; claims_session_id := session_id;
      claims_process_role := Host; claims_region := region;
      claims_private_routing := false; claims_code_revision := Some code_revision;
      claims_scope := "actor:invoke"; iat := now; nbf := now; exp := expires_at;
      claims_invocation := Some
        {| cap_actor := actor; cap_host_id := host_id; cap_owner_epoch := owner_epoch;
           cap_state_version := state_version; cap_state_read_url := state_read_url |} |} |}.

Lemma issue_invocation_target_Ok i ms actor h s rev reg epoch ver url wexp t :
  (0 <= ms)%Z -> (0 <= issuer_max_lifetime i)%Z ->
  issue_invocation_target i (Some ms) actor h s rev reg epoch ver url wexp = Ok t ->
  let now := (ms / 1000)%Z in
  exists e, issue i (target_claims i now e actor h s rev reg epoch ver url) = Ok t /\
    ActorKey_validate actor = Ok tt /\ validate_region reg = Ok tt /\ (0 < epoch)%Z /\
    (0 <= now < e)%Z /\ (e <= wexp)%Z /\ (e <= now + 60)%Z /\
    (e <= now + as_secs (issuer_max_lifetime i))%Z /\ (ms <= i64_max)%Z.
Proof.
  intros Hms Hml Hi. unfold issue_invocation_target in Hi. inv_ok.
  match goal with Ht : unix_millis _ = _ |- _ => apply issuer_millis_Ok in Ht as [[= <-] ?] end.
  assert (Hq : Z.quot ms 1000 = (ms / 1000)%Z) by (apply Z.quot_div_nonneg; lia).
  rewrite Hq in *.
  repeat match goal with
  | Ht : i64_try _ = Ok _ |- _ => apply i64_try_Ok in Ht as [-> ?]
  end. bool_prop. eexists. split; [done |].
  assert (0 <= ms / 1000)%Z by (apply Z.div_pos; lia).
  unfold INVOCATION_TARGET_TTL in *. rewrite as_secs_from_secs in *.
  unfold i64_saturating_add, i64_clamp, i64_min, i64_max in *.
  repeat split; try done; lia.
Qed.

(** A capability's URL is present exactly when there is a state to read. *)
Definition url_fits (state_version : Z) (url : string) : Prop :=
  (state_version = 0%Z /\ url = "") \/
  (state_version <> 0%Z /\ exists u, url_parse url = Ok u /\ is_http u = true).

Lemma validate_capability_target p c :
  process_role p = Host -> cap_host_id c = host_id p ->
  namespace_id (cap_actor c) = scope_namespace_id (scope p) -> (0 < cap_owner_epoch c)%Z ->
  url_fits (cap_state_version c) (cap_state_read_url c) ->
  validate_capability p c = Ok tt.
Proof.
  intros H1 H2 H3 H4 Hurl. unfold validate_capability, ActorScope_contains.
  rewrite !bool_decide_eq_true_2 by done. simpl.
  rewrite (proj2 (Z.ltb_lt _ _) H4). simpl.
  destruct Hurl as [[-> ->] | (Hne%Z.eqb_neq & u & Hu & Hh)]; [done |].
  rewrite Hne, Hu. simpl. by rewrite Hh.
Qed.

(** Claims that pass. *)
Lemma validate_claims_accepts v now_ms c :
  existsb (String.eqb (claim (purpose v) (claims_process_role c)))
    (split_ascii_whitespace (claims_scope c)) = true ->
  sub c <> "" -> (claims_process_role c = Host -> sub c = claims_host_id c) ->
  uuid_ok (claims_session_id c) = true ->
  (0 <= iat c < exp c)%Z -> (exp c <= i64_max)%Z ->
  (from_secs (exp c - iat c) <= max_lifetime v)%Z ->
  (iat c - 5 <= now_ms / 1000 < exp c)%Z ->
  ActorScope_validate {| scope_namespace_id := claims_namespace_id c |} = Ok tt ->
  starts_with (claims_host_id c) (process_prefix (principal_of_claims c)) = true ->
  validate_region (claims_region c) = Ok tt ->
  (forall cap, claims_invocation c = Some cap ->
     validate_capability (principal_of_claims c) cap = Ok tt) ->
  validate_claims v (Some now_ms) c = Ok (principal_of_claims c).
Proof.
  intros Hscope Hsub Hhost Hs Hiat Hexp Hmax Hnow Hns Hpre Hreg Hcap.
  unfold validate_claims. rewrite Hscope, (proj2 (is_empty_false _) Hsub), Hs.
  rewrite (proj2 (unix_seconds_Ok (Some now_ms) (now_ms / 1000)))
    by (exists now_ms; unfold i64_min, i64_max in *; repeat split; lia).
  rewrite (proj2 (i64_checked_sub_Some _ _ (exp c - iat c)))
    by (unfold i64_min, i64_max in *; lia).
  simpl. rewrite (proj2 (u64_try_from_Some _ (exp c - iat c)))
    by (unfold u64_max, i64_max in *; lia).
  simpl. rewrite !(proj2 (Z.ltb_lt _ _)) by lia. simpl.
  rewrite (proj2 (Z.leb_le _ _) Hmax).
  rewrite (proj2 (Z.leb_le _ (i64_saturating_add _ _)))
    by (unfold CLOCK_SKEW; rewrite as_secs_from_secs;
        unfold i64_saturating_add, i64_clamp, i64_min, i64_max in *; lia).
  simpl. rewrite Hns, Hpre. simpl. apply ensure_Ok in Hreg. rewrite Hreg. simpl.
  destruct (bool_decide_reflect (claims_process_role c = Host)) as [Hr |]; simpl.
  - rewrite bool_decide_eq_true_2 by auto. simpl.
    destruct (claims_invocation c); [by rewrite Hcap | done].
  - destruct (claims_invocation c); [by rewrite Hcap | done].
Qed.

Lemma from_secs_le n d : (n <= as_secs d)%Z -> (0 <= d)%Z -> (from_secs n <= d)%Z.
Proof. unfold from_secs, as_secs. intros ? ?. pose proof (Z.mul_div_le d 1000000000). lia. Qed.

(** The token the control plane hands out for one invocation is accepted by
    the host it names: until the second it expires, which is never after the
    caller's own credential and never more than a minute away, the host
    authenticates it as itself with exactly the actor, epoch, version and state
    URL the control plane resolved. *)
Lemma invocation_target_accepted
    (i : ActorJwtIssuer) (v : ActorJwtVerifier) (issued_ms now_ms decode_at : Z)
    (actor : ActorKey) (h : HostId) (s rev reg : string) (epoch ver : Z) (url : string)
    (wexp : Z) (t : IssuedActorToken)
    (Hms : (0 <= issued_ms)%Z) (Hml : (0 <= issuer_max_lifetime i <= max_lifetime v)%Z)
    (Hi : issue_invocation_target i (Some issued_ms) actor h s rev reg epoch ver url wexp = Ok t)
    (Hv : trusts v i (invocation_audience i)) (Hpurpose : purpose v = Invocation)
    (Hh : starts_with h ("host.v1." +:+ namespace_id actor +:+ ".") = true)
    (Hs : uuid_ok s = true) (Hurl : url_fits ver url)
    (Hd : (issued_ms / 1000 - 5 <= decode_at)%Z)
    (Hd' : (decode_at * 1000 <= token_expires_at_ms t)%Z)
    (Hnow : (issued_ms / 1000 - 5 <= now_ms / 1000)%Z)
    (Hnow' : (now_ms / 1000 * 1000 < token_expires_at_ms t)%Z) :
  exists p, authenticate_authorization v decode_at (Some now_ms) ("Bearer " +:+ token t) = Ok p /\
    process_role p = Host /\ host_id p = h /\ session_id p = s /\ region p = reg /\
    scope_namespace_id (scope p) = namespace_id actor /\
    invocation p = Some {| cap_actor := actor; cap_host_id := h; cap_owner_epoch := epoch;
      cap_state_version := ver; cap_state_read_url := url |} /\
    (expires_at p * 1000 = token_expires_at_ms t)%Z /\
    (expires_at p <= wexp)%Z /\ (expires_at p <= issued_ms / 1000 + 60)%Z.
Proof.
  apply issue_invocation_target_Ok in Hi as (e & Hi & Ha & Hr & He & Hlt & Hw & H60 & Hmax & Hb);
    [| lia..].
  pose proof (proj2 (issue_Ok _ _ _ Hi)) as Hexp. simpl in Hexp. rewrite Hexp in *.
  exists (principal_of_claims (claims (target_claims i (issued_ms / 1000) e actor h s rev reg
    epoch ver url))).
  split; [| simpl; repeat split; done || lia].
  erewrite authenticate_issued; [| done | done | done | constructor | simpl; lia..].
  apply ActorKey_validate_components in Ha as (Hc%(validate_component_Ok "namespace ID") & _).
  assert (issued_ms / 1000 < 2 ^ 60)%Z
    by (apply Z.div_lt_upper_bound; unfold i64_max in *; lia).
  apply validate_claims_accepts; simpl; try done; try (unfold i64_max; lia).
  - by rewrite Hpurpose.
  - apply starts_with_spec in Hh as [? ->]. done.
  - etrans; [apply from_secs_le; [| apply Hml] | apply Hml]. lia.
  - intros cap [= <-]. by apply validate_capability_target.
Qed.

(** A claim's verdict lasts until the claim expires. *)
Lemma validate_claims_later v ms ms' c p :
  validate_claims v (Some ms) c = Ok p -> (ms <= ms')%Z -> (ms' / 1000 < exp c)%Z ->
  (ms' / 1000 <= i64_max)%Z -> validate_claims v (Some ms') c = Ok p.
Proof.
  intros H Hle Hexp Hmax. pose proof (Z.div_le_mono ms ms' 1000 eq_refl Hle).
  unfold validate_claims in *. inv_ok.
  match goal with H : unix_seconds (Some ms) = _ |- _ =>
    apply unix_seconds_Ok in H as (? & [= <-] & -> & ?) end.
  rewrite (proj2 (unix_seconds_Ok (Some ms') (ms' / 1000))) by (exists ms'; eauto with lia).
  assert (Hfuture : (iat c <=? i64_saturating_add (ms' / 1000) (as_secs CLOCK_SKEW))%Z = true).
  { bool_prop. unfold i64_saturating_add, i64_clamp in *. lia. }
  repeat first
    [ match goal with
      | H : ?b = true |- context [ensure ?b _] => rewrite H
      | H : ?r = Ok _ |- context [?r ≫= _] => rewrite H
      | H : ?r = Ok _ |- context [with_context _ ?r] => rewrite H
      | H : ?o = Some _ |- context [some_or _ ?o] => rewrite H
      end; cbn [ensure mbind result_bind some_or with_context map_err]
    | rewrite (proj2 (Z.ltb_lt _ _) Hexp)
    | progress cbn [ensure mbind result_bind] ].
  done.
Qed.

(** A credential that was accepted is accepted until it expires. *)
Lemma authentication_persists v d d' ms ms' a p :
  authenticate_authorization v d (Some ms) a = Ok p ->
  (d <= d')%Z -> (d' - leeway (validation v) <= expires_at p)%Z ->
  (ms <= ms')%Z -> (ms' / 1000 < expires_at p)%Z -> (ms' / 1000 <= i64_max)%Z ->
  authenticate_authorization v d' (Some ms') a = Ok p.
Proof.
  unfold authenticate_authorization. intros H Hd Hd' Hms Hexp Hmax.
  destruct (bearer_token a) as [token | e]; [| done]. simpl in *.
  destruct (with_context _ _) as [header | e]; [| done]. simpl in *.
  unfold verify_with_header in *.
  destruct (ensure _ _) as [[] | e]; [| done]. simpl in *.
  destruct (some_or "actor token key ID is empty" _) as [key | e]; [| done]. simpl in *.
  destruct (some_or _ _) as [dk | e]; [| done]. simpl in *. inv_ok.
  match goal with H : jwt_decode _ _ _ _ = Ok ?c |- _ => rename H into Hdec; rename c into cl end.
  assert (expires_at p = exp cl) as Hpc.
  { match goal with H : validate_claims _ _ _ = _ |- _ =>
      apply validate_claims_ok in H as [-> _]; [done |] end.
    apply claims_i64, is_i64_spec in Hdec. lia. }
  rewrite Hpc in *. rewrite (decoded_later _ _ _ _ _ _ Hdec) by done. simpl.
  by eapply validate_claims_later.
Qed.

(** The claims [issue_host] writes. *)
Definition host_claims (i : ActorJwtIssuer) (now expires_at : Z) (namespace_id : string)
    (host_id : HostId) (session_id code_revision region : string) : IssuedClaims :=
  {| iss := issuer i; aud := [authority_audience i; invocation_audience i];
    claims := {| sub := host_id; claims_namespace_id := namespace_id;
      claims_host_id := host_id; claims_session_id := session_id;
      claims_process_role := Host; claims_region := region;
      claims_private_routing := false; claims_code_revision := Some code_revision;
      claims_scope := "actor:authority actor:invoke"; iat := now; nbf := now; exp := expires_at;
      claims_invocation := None |} |}.

Lemma issue_host_Ok i k ms ns h s rev reg t :
  (0 <= ms)%Z -> (0 <= k)%Z -> issuer_max_lifetime i = from_secs k ->
  issue_host i (Some ms) ns h s rev reg = Ok t ->
  (ms <= i64_max)%Z /\
  issue i (host_claims i (ms / 1000) (Z.min (ms / 1000 + k) (i64_max / 1000)) ns h s rev reg) = Ok t.
Proof.
  intros Hms Hk Hi H. unfold issue_host in H. inv_ok.
  match goal with H : unix_millis _ = _ |- _ => apply issuer_millis_Ok in H as [[= <-] ?] end.
  match goal with H : duration_millis _ = _ |- _ =>
    unfold duration_millis in H; apply with_context_Ok, i64_try_Ok in H as [-> ?] end.
  split; [lia |]. unfold as_millis, from_secs in *. rewrite Hi in *.
  assert (Hmillis : (k * 1000000000 / 1000000 = k * 1000)%Z)
    by (replace (k * 1000000000)%Z with (k * 1000 * 1000000)%Z by lia; by apply Z.div_mul).
  rewrite Hmillis in *.
  replace (Z.quot ms 1000) with (ms / 1000)%Z in * by (symmetry; apply Z.quot_div_nonneg; lia).
  replace (Z.quot (i64_saturating_add ms (k * 1000)) 1000)
    with (Z.min (ms / 1000 + k) (i64_max / 1000)) in *; [done |].
  rewrite Z.quot_div_nonneg
    by (unfold i64_saturating_add, i64_clamp, i64_min, i64_max in *; lia).
  rewrite <- Z.div_add by lia.
  unfold i64_saturating_add, i64_clamp, i64_min, i64_max in *.
  Z.to_euclidean_division_equations. lia.
Qed.

(** A token issued to a host the verifier knows is accepted as that host's until
    it expires. *)
Lemma host_token_accepted v i k now0 p ms ms' d' rev t :
  principal_ok v now0 p -> process_role p = Host ->
  trusts v i (authority_audience i) -> purpose v = ControlPlane ->
  issuer_max_lifetime i = from_secs k -> (0 <= k)%Z -> (from_secs k <= max_lifetime v)%Z ->
  (0 <= ms <= ms')%Z ->
  issue_host i (Some ms) (scope_namespace_id (scope p)) (host_id p) (session_id p) rev (region p)
    = Ok t ->
  (ms' / 1000 < Z.min (ms / 1000 + k) (i64_max / 1000))%Z ->
  (ms / 1000 - 5 <= d')%Z -> (d' - 5 <= ms' / 1000)%Z ->
  exists p', authenticate_authorization v d' (Some ms') ("Bearer " +:+ token t) = Ok p' /\
    process_role p' = Host /\ host_id p' = host_id p /\ session_id p' = session_id p.
Proof.
  intros [Hscope [rest Hhost] Hregion Hsession _ _ _] Hrole Htrust Hpurpose Hk Hk0 Hmax Hms Hi
    Hexp Hd Hd'.
  apply (issue_host_Ok i k) in Hi as [Hms64 Hi]; [| lia..].
  assert (0 <= ms / 1000 <= ms' / 1000)%Z by (split; [apply Z.div_pos | apply Z.div_le_mono]; lia).
  eexists. split; [erewrite authenticate_issued; [| done | done | done | constructor | simpl; lia..] |].
  - apply validate_claims_accepts; simpl; try done; try (unfold i64_max in *; lia).
    + by rewrite Hpurpose.
    + rewrite Hhost. unfold process_prefix. by rewrite Hrole.
    + unfold i64_max. Z.to_euclidean_division_equations. lia.
    + unfold from_secs in *. lia.
    + apply starts_with_spec. exists rest. rewrite Hhost. unfold process_prefix. by rewrite Hrole.
  - done.
Qed.

(** C40: and it opens nothing else: no control-plane verifier accepts an
    invocation token, whatever keys, audience and clock it uses, so a caller
    cannot use the token it was given for one actor to act as the host. *)
Theorem invocation_token_is_no_authority
    (i : ActorJwtIssuer) (v : ActorJwtVerifier) (elapsed elapsed' : option Z) (decode_at : Z)
    (actor : ActorKey) (h : HostId) (s rev reg : string) (epoch ver : Z) (url : string)
    (wexp : Z) (t : IssuedActorToken) (p : ActorPrincipal)
    (Hi : issue_invocation_target i elapsed actor h s rev reg epoch ver url wexp = Ok t)
    (Hpurpose : purpose v = ControlPlane) :
  authenticate_authorization v decode_at elapsed' ("Bearer " +:+ token t) <> Ok p.
Proof.
  intros Hp. unfold issue_invocation_target in Hi. inv_ok.
  eapply authenticated_issued_claims in Hp; [| done].
  unfold validate_claims in Hp. inv_ok. rewrite Hpurpose in *. simpl in *. discriminate.
Qed.
End Properties.

(** ** A concrete codec, to evaluate the models

    A token spells its header, its claims and the key that signed it; a key
    verifies what it signed. *)

Fixpoint bits (p : positive) : string :=
  match p with xH => "1" | xO p => String "0" (bits p) | xI p => String "i" (bits p) end.
Fixpoint unbits (s : string) : option positive :=
  match s with
  | String a EmptyString => if Ascii.eqb a "1" then Some xH else None
  | String a s' =>
      p ← unbits s';
      if Ascii.eqb a "0" then Some (xO p) else if Ascii.eqb a "i" then Some (xI p) else None
  | EmptyString => None
  end.

Lemma unbits_bits p : unbits (bits p) = Some p.
Proof.
  induction p as [p IH | p IH |]; simpl; [| | done];
    (destruct (bits p) eqn:E; [by destruct p |]; rewrite IH; done).
Qed.

Definition capability_fields (c : ActorInvocationCapability) : list positive :=
  [encode (namespace_id (cap_actor c)); encode (actor_type (cap_actor c));
   encode (actor_id (cap_actor c)); encode (cap_host_id c); encode (cap_owner_epoch c);
   encode (cap_state_version c); encode (cap_state_read_url c)].

Definition capability_of_fields (l : list positive) : option (option ActorInvocationCapability) :=
  match l with
  | [] => Some None
  | [a; b; c; d; e; f; g] =>
      a ← decode a; b ← decode b; c ← decode c; d ← decode d; e ← decode e;
      f ← decode f; g ← decode g;
      Some (Some {| cap_actor := {| namespace_id := a; actor_type := b; actor_id := c |};
        cap_host_id := d; cap_owner_epoch := e; cap_state_version := f;
        cap_state_read_url := g |})
  | _ => None
  end.

Definition role_bit (r : ActorProcessRole) : bool :=
  match r with Host => true | Workflow => false end.

Definition token_fields (h : Header) (c : IssuedClaims) (ek : string) : list positive :=
  let k := claims c in
  encode (typ h) :: encode (kid h) :: encode ek :: encode (iss c) :: encode (aud c)
  :: encode (sub k) :: encode (claims_namespace_id k) :: encode (claims_host_id k)
  :: encode (claims_session_id k) :: encode (role_bit (claims_process_role k))
  :: encode (claims_region k) :: encode (claims_private_routing k)
  :: encode (claims_code_revision k) :: encode (claims_scope k)
  :: encode (iat k) :: encode (nbf k) :: encode (exp k)
  :: match claims_invocation k with Some cap => capability_fields cap | None => [] end.

Definition token_of_fields (l : list positive) : option (Header * IssuedClaims * string) :=
  match l with
  | t :: k :: e :: i :: a :: s :: n :: h :: ses :: r :: reg :: p :: rev :: sc :: ia :: nb :: ex :: cap =>
      t ← decode t; k ← decode k; e ← decode e; i ← decode i; a ← decode a; s ← decode s;
      n ← decode n; h ← decode h; ses ← decode ses; r ← decode r; reg ← decode reg;
      p ← decode p; rev ← decode rev; sc ← decode sc; ia ← decode ia; nb ← decode nb;
      ex ← decode ex; cap ← capability_of_fields cap;
      Some ({| typ := t; kid := k |},
        {| iss := i; aud := a; claims :=
          {| sub := s; claims_namespace_id := n; claims_host_id := h; claims_session_id := ses;
             claims_process_role := if (r : bool) then Host else Workflow; claims_region := reg;
             claims_private_routing := p; claims_code_revision := rev; claims_scope := sc;
             iat := ia; nbf := nb; exp := ex; claims_invocation := cap |} |}, e)
  | _ => None
  end.

Lemma token_fields_roundtrip h c ek :
  token_of_fields (token_fields h c ek) = Some (h, c, ek).
Proof.
  destruct h, c as [? ? [? ? ? ? r ? ? ? ? ? ? ? cap]]. unfold token_fields, token_of_fields.
  cbn -[encode decode]. rewrite !decode_encode. cbn -[encode decode].
  destruct cap as [[[] ? ? ? ?] |]; cbn -[encode decode]; rewrite ?decode_encode; by destruct r.
Qed.

Definition write_token (h : Header) (c : IssuedClaims) (ek : string) : string :=
  bits (encode (token_fields h c ek)).
Definition read_token (s : string) : option (Header * IssuedClaims * string) :=
  p ← unbits s; l ← decode p; token_of_fields l.

Lemma read_write_token h c ek : read_token (write_token h c ek) = Some (h, c, ek).
Proof.
  unfold read_token, write_token. rewrite unbits_bits. simpl. rewrite decode_encode. simpl.
  apply token_fields_roundtrip.
Qed.

#[export] Instance spelled_jwt : Jwt | 100 := {|
  EncodingKey := string;
  DecodingKey := string;
  Jwk := string * string;
  jwk_key_id k := Some k.1;
  jwk_key_algorithm _ := Some EdDSA;
  DecodingKey_from_jwk k := Ok k.2;
  parse_jwk_set s :=
    match split_char ":"%char s with [id; key] => Ok [(id, key)] | _ => Err ["not a JWK set"] end;
  jwk_set_to_vec l :=
    Ok (Ascii.byte_of_ascii <$>
        String.list_ascii_of_string (concat_chunks ((fun k => k.1 +:+ ":" +:+ k.2) <$> l)));
  public_key_of_pkcs8 b := Ok b;
  EncodingKey_from_ed_der b := String.string_of_list_ascii (Ascii.ascii_of_byte <$> b);
  ed25519_jwk b id := Ok (id, String.string_of_list_ascii (Ascii.ascii_of_byte <$> b));
  jwt_encode h c ek :=
    if is_i64 (iat (claims c)) then Ok (write_token h c ek) else Err ["out of range"];
  decode_header s :=
    match read_token s with Some (h, _, _) => Ok h | None => Err ["InvalidToken"] end;
  jwt_decode s dk v now :=
    match read_token s with
    | Some (_, c, ek) =>
        if bool_decide (ek = dk) && validation_accepts v now c && is_i64 (iat (claims c))
        then Ok (claims c) else Err ["InvalidSignature"]
    | None => Err ["InvalidToken"]
    end;
|}.

Lemma bits_graphic p : all_bytes (byte_in 33 126) (bits p) = true.
Proof. induction p as [p IH | p IH |]; simpl; done. Qed.

Lemma validation_accepts_later v now now' c :
  validation_accepts v now c = true -> (now <= now')%Z -> (now' - leeway v <= exp (claims c))%Z ->
  validation_accepts v now' c = true.
Proof.
  unfold validation_accepts. intros H Hle Hexp%Z.leb_le. rewrite Hexp.
  apply andb_true_iff in H as [H Hnbf]. do 4 (apply andb_true_iff in H as [H ?]).
  repeat match goal with H : ?b = true |- context [?b] => rewrite H end. simpl.
  apply orb_true_iff. apply orb_true_iff in Hnbf as [? | ?%Z.leb_le];
    [by left | right; apply Z.leb_le; lia].
Qed.

#[export] Instance spelled_jwt_laws : JwtLaws spelled_jwt.
Proof.
  refine {| signs := (fun ek dk => ek = dk) : @EncodingKey spelled_jwt -> @DecodingKey spelled_jwt -> Prop |};
    simpl.
  - intros h c ek t Ht. destruct (is_i64 _); simplify_eq. by rewrite read_write_token.
  - intros h c ek dk t v now -> Ht Hv. destruct (is_i64 (iat (claims c))) eqn:E; simplify_eq.
    rewrite read_write_token, bool_decide_eq_true_2, Hv, E by done. done.
  - intros h c ek dk t v now c' Ht Hc. destruct (is_i64 (iat (claims c))); simplify_eq.
    rewrite read_write_token in Hc. repeat case_match; simplify_eq. bool_prop. done.
  - intros t dk v now c Hc. repeat case_match; simplify_eq. bool_prop. done.
  - intros h c ek t Ht. case_match; simplify_eq. unfold write_token. split.
    + apply is_empty_false. by destruct (encode _).
    + apply trim_graphic, bits_graphic.
  - intros t dk v now now' c Hc Hle Hexp. destruct (read_token t) as [[[h i] ek] |]; [| done].
    destruct (bool_decide (ek = dk) && validation_accepts v now i && is_i64 (iat (claims i)))
      eqn:E; simplify_eq. bool_prop.
    rewrite bool_decide_eq_true_2, (validation_accepts_later v now now' i) by done.
    match goal with H : is_i64 _ = true |- _ => by rewrite H end.
Defined.

(** A deployment's issuer, the host's verifier and the control plane's. *)
Definition sample_issuer : ActorJwtIssuer :=
  {| encoding_key := "key" : @EncodingKey spelled_jwt; public_key := ("k1", "key");
     key_id := "k1"; issuer := "https://ldo"; authority_audience := "control";
     invocation_audience := "hosts"; issuer_max_lifetime := from_secs 3600 |}.

Definition sample_verifier (audience : string) (purpose : ActorTokenPurpose) : ActorJwtVerifier :=
  {| public_keys := {[ "k1" := "key" : @DecodingKey spelled_jwt ]};
     validation := {| validation_issuer := ["https://ldo"]; validation_audience := [audience];
       required_spec_claims := ["exp"; "nbf"; "iss"; "aud"; "sub"]; validate_nbf := true;
       leeway := 5 |};
     purpose := purpose; max_lifetime := from_secs 3600 |}.

Definition sample_actor : ActorKey :=
  {| namespace_id := "acme"; actor_type := "Counter"; actor_id := "1" |}.
Definition sample_host : HostId := "host.v1.acme.r1.h".
Definition sample_session : string := "00000000-0000-4000-8000-000000000001".

Definition sample_target : anyhow IssuedActorToken :=
  issue_invocation_target sample_issuer (Some 1000000%Z) sample_actor sample_host sample_session
    "r1" "eu" 3 1 "https://storage/x" 5000.

Lemma invocation_token_is_no_authority_witness :
  exists t, sample_target = Ok t /\
    forall p, authenticate_authorization (sample_verifier "hosts" ControlPlane) 1030 (Some 1030500%Z)
      ("Bearer " +:+ token t) <> Ok p.
Proof.
  destruct sample_target as [t |] eqn:E; [| vm_compute in E; discriminate].
  exists t. split; [reflexivity |]. intros p.
  apply (invocation_token_is_no_authority sample_issuer (sample_verifier "hosts" ControlPlane)
    (Some 1000000%Z) (Some 1030500%Z) 1030 sample_actor sample_host sample_session "r1" "eu" 3 1
    "https://storage/x" 5000 t p E).
  reflexivity.
Defined.

Lemma authenticated_principal_ok_witness :
  exists t p, sample_target = Ok t /\
    authenticate (sample_verifier "hosts" Invocation) 1030 (Some 1030500%Z)
      (Some (Some ("Bearer " +:+ token t))) = Ok p /\
    (1030 < expires_at p)%Z.
Proof.
  destruct sample_target as [t |] eqn:E; [| vm_compute in E; discriminate].
  destruct (authenticate (sample_verifier "hosts" Invocation) 1030 (Some 1030500%Z)
    (Some (Some ("Bearer " +:+ token t)))) as [p |] eqn:Hp.
  - exists t, p. split; [reflexivity | split; [exact Hp |]].
    destruct (authenticated_principal_ok _ _ _ _ _ Hp) as (now & Hn & Hok).
    vm_compute in Hn. injection Hn as <-. apply (ok_alive _ _ _ Hok).
  - exfalso. unfold sample_target in E. vm_compute in E. injection E as <-.
    vm_compute in Hp. discriminate.
Defined.
