(* ===== verification/Database.v ===== *)
(** * The PostgreSQL database

    The tables of [migrations/V1__initial.sql], the SQL statements the code
    sends to them as functions on the tables, and the way a client reaches the
    database ([src/postgres.rs]): every statement may meet a changed database,
    fail before it ran, or run and lose its response. *)
From S2P Require Import Prelude Identity.
Local Open Scope string_scope.

(** ** Tables *)

(** [durable_object_host_leases], keyed by [host_id]. *)
Record LeaseRow := {
  row_session_id : string;
  row_route : string;
  row_expires_at_ms : Z;
}.
#[export] Instance LeaseRow_eq_dec : EqDecision LeaseRow.
Proof. solve_decision. Defined.

(** [durable_object_placements], keyed by [object_id]. *)
Record PlacementRow := {
  row_owner_host_id : HostId;
  row_owner_epoch : Z;
  row_home_region : string;
  row_state_version : Z;
  row_state_object : option string;
  row_last_request_id : option string;
}.
#[export] Instance PlacementRow_eq_dec : EqDecision PlacementRow.
Proof. solve_decision. Defined.

(** [durable_object_project_specs], keyed by [namespace_id]. *)
Record SpecRow := {
  row_code_revision : string;
  row_image_ref : string;
  row_working_directory : string;
  row_actor_entrypoint : option string;
}.
#[export] Instance SpecRow_eq_dec : EqDecision SpecRow.
Proof. solve_decision. Defined.

Record Database := {
  host_leases : gmap HostId LeaseRow;
  placements : gmap ActorStorageKey PlacementRow;
  namespaces : gset string;
  project_specs : gmap string SpecRow;
}.

Definition empty_database : Database :=
  {| host_leases := ∅; placements := ∅; namespaces := ∅; project_specs := ∅ |}.

Definition set_lease (f : gmap HostId LeaseRow -> gmap HostId LeaseRow) (db : Database) :=
  {| host_leases := f (host_leases db); placements := placements db;
     namespaces := namespaces db; project_specs := project_specs db |}.
Definition set_placements (f : gmap ActorStorageKey PlacementRow -> gmap ActorStorageKey PlacementRow)
    (db : Database) :=
  {| host_leases := host_leases db; placements := f (placements db);
     namespaces := namespaces db; project_specs := project_specs db |}.

(** ** Statements

    A statement runs atomically on the tables.  [now] and [later] are its two
    readings of [clock_timestamp()] in milliseconds, in evaluation order;
    statements that read the clock once use [now]. *)

Inductive SqlError := BigintOutOfRange | CheckViolation (constraint : string).
#[export] Instance SqlError_eq_dec : EqDecision SqlError.
Proof. solve_decision. Defined.

Definition Statement (A : Type) : Type :=
  Z -> Z -> Database -> Result SqlError (Database * A).

Definition bigint (z : Z) : Result SqlError Z :=
  if is_i64 z then Ok z else Err BigintOutOfRange.
Definition check (constraint : string) (b : bool) : Result SqlError () :=
  if b then Ok () else Err (CheckViolation constraint).

(** [INSERT INTO durable_object_host_leases ... ON CONFLICT (host_id) DO UPDATE
    ... WHERE ... RETURNING expires_at_ms] *)
Definition upsert_lease (host_id session_id route : string) (duration_ms : Z)
    : Statement (option Z) := fun now later db =>
  expires_at_ms ← bigint (now + duration_ms);
  check "durable_object_host_leases_expires_at_ms_check" (0 <? expires_at_ms)%Z;;
  let row := {| row_session_id := session_id; row_route := route;
                row_expires_at_ms := expires_at_ms |} in
  match host_leases db !! host_id with
  | Some current =>
      if bool_decide (row_session_id current = session_id)
         || (row_expires_at_ms current <=? later)%Z
      then Ok (set_lease <[ host_id := row ]> db, Some expires_at_ms)
      else Ok (db, None)
  | None => Ok (set_lease <[ host_id := row ]> db, Some expires_at_ms)
  end.

(** [DELETE FROM durable_object_host_leases WHERE host_id = $1 AND session_id = $2] *)
Definition delete_lease (host_id session_id : string) : Statement Z := fun _ _ db =>
  match host_leases db !! host_id with
  | Some current =>
      if bool_decide (row_session_id current = session_id)
      then Ok (set_lease (delete host_id) db, 1%Z) else Ok (db, 0%Z)
  | None => Ok (db, 0%Z)
  end.

(** [SELECT now, lease.* FROM (SELECT 1) LEFT JOIN durable_object_host_leases] *)
Definition select_lease_status (host_id : string) : Statement (Z * option LeaseRow) :=
  fun now _ db => Ok (db, (now, host_leases db !! host_id)).

(** [SELECT ... FROM durable_object_placements WHERE object_id = $1] *)
Definition select_placement (object_id : string) : Statement (option PlacementRow) :=
  fun _ _ db => Ok (db, placements db !! object_id).

(** [INSERT INTO durable_object_placements ... ON CONFLICT DO NOTHING RETURNING ...] *)
Definition insert_placement (object_id owner_host_id home_region : string)
    : Statement (option PlacementRow) := fun _ _ db =>
  match placements db !! object_id with
  | Some _ => Ok (db, None)
  | None =>
      let row := {| row_owner_host_id := owner_host_id; row_owner_epoch := 1;
                    row_home_region := home_region; row_state_version := 0;
                    row_state_object := None; row_last_request_id := None |} in
      Ok (set_placements <[ object_id := row ]> db, Some row)
  end.

(** [UPDATE durable_object_placements SET owner_host_id = $2, owner_epoch =
    owner_epoch + 1 WHERE object_id = $1 AND owner_host_id = $3 AND owner_epoch
    = $4 AND home_region = $5 RETURNING ...] *)
Definition transfer_placement (object_id owner_host_id expected_owner : string)
    (expected_epoch : Z) (home_region : string) : Statement (option PlacementRow) :=
  fun _ _ db =>
  match placements db !! object_id with
  | Some current =>
      if bool_decide (row_owner_host_id current = expected_owner)
         && (row_owner_epoch current =? expected_epoch)%Z
         && bool_decide (row_home_region current = home_region)
      then
        owner_epoch ← bigint (row_owner_epoch current + 1);
        check "durable_object_placements_owner_epoch_check" (0 <? owner_epoch)%Z;;
        let row := {| row_owner_host_id := owner_host_id; row_owner_epoch := owner_epoch;
                      row_home_region := row_home_region current;
                      row_state_version := row_state_version current;
                      row_state_object := row_state_object current;
                      row_last_request_id := row_last_request_id current |} in
        Ok (set_placements <[ object_id := row ]> db, Some row)
      else Ok (db, None)
  | None => Ok (db, None)
  end.

(** [UPDATE durable_object_placements SET state_version = state_version + 1,
    state_object = $6, last_request_id = $7 FROM durable_object_host_leases
    WHERE ... AND lease.session_id = $5 AND lease.expires_at_ms > now RETURNING ...] *)
Definition update_state_head (object_id owner_host_id : string)
    (owner_epoch state_version : Z) (session_id state_object request_id : string)
    : Statement (option PlacementRow) := fun now _ db =>
  match placements db !! object_id, host_leases db !! owner_host_id with
  | Some current, Some lease =>
      if bool_decide (row_owner_host_id current = owner_host_id)
         && (row_owner_epoch current =? owner_epoch)%Z
         && (row_state_version current =? state_version)%Z
         && bool_decide (row_session_id lease = session_id)
         && (now <? row_expires_at_ms lease)%Z
      then
        version ← bigint (row_state_version current + 1);
        check "durable_object_placements_state_version_check" (0 <=? version)%Z;;
        let row := {| row_owner_host_id := row_owner_host_id current;
                      row_owner_epoch := row_owner_epoch current;
                      row_home_region := row_home_region current;
                      row_state_version := version;
                      row_state_object := Some state_object;
                      row_last_request_id := Some request_id |} in
        Ok (set_placements <[ object_id := row ]> db, Some row)
      else Ok (db, None)
  | _, _ => Ok (db, None)
  end.

(** The namespace upsert and the [project_specs] upsert of one [WITH] statement;
    the result counts the rows of the outer [INSERT]. *)
Definition upsert_project_spec (namespace_id : string) (spec : SpecRow) : Statement Z :=
  fun _ _ db =>
  let db' := {| host_leases := host_leases db; placements := placements db;
                namespaces := {[ namespace_id ]} ∪ namespaces db;
                project_specs := <[ namespace_id := spec ]> (project_specs db) |} in
  match project_specs db !! namespace_id with
  | Some current =>
      if bool_decide (current = spec)
      then Ok ({| host_leases := host_leases db; placements := placements db;
                  namespaces := {[ namespace_id ]} ∪ namespaces db;
                  project_specs := project_specs db |}, 0%Z)
      else Ok (db', 1%Z)
  | None => Ok (db', 1%Z)
  end.

(** [SELECT ... FROM durable_object_project_specs WHERE namespace_id = $1] *)
Definition select_project_spec (namespace_id : string) : Statement (option SpecRow) :=
  fun _ _ db => Ok (db, project_specs db !! namespace_id).

(** ** Reaching the database *)

(** What the [n]-th statement of a client meets: the changes the other clients
    made since the previous one, the clock, and possibly a failure, before the
    statement ran (no connection, refused parameters) or after it. *)
Inductive Fault := NoFault | BeforeStatement (e : Error) | AfterStatement (e : Error).

Record Weather := {
  others : Database -> Database;
  now : Z;
  later : Z;
  fault : Fault;
}.

Record PgState := { database : Database; statements : nat }.

Definition sql_error (e : SqlError) : Error :=
  match e with
  | BigintOutOfRange => ["db error"; "ERROR: bigint out of range"]
  | CheckViolation c => ["db error"; "ERROR: new row violates check constraint " +:+ c]
  end.

Section Client.
Context (weather : nat -> Weather).

(** [PostgresDatabase::query_opt], [query_one], [execute]. *)
Definition query {A} (q : Statement A) : M PgState Error A := fun st =>
  let w := weather (statements st) in
  let db := others w (database st) in
  let after db' := {| database := db'; statements := S (statements st) |} in
  match fault w with
  | BeforeStatement e => (after db, Err e)
  | NoFault =>
      match q (now w) (later w) db with
      | Ok (db', x) => (after db', Ok x)
      | Err e => (after db, Err (sql_error e))
      end
  | AfterStatement e =>
      match q (now w) (later w) db with
      | Ok (db', _) => (after db', Err e)
      | Err e' => (after db, Err (sql_error e'))
      end
  end.
End Client.

(** ** How the tables may change

    The order every statement respects and that clients may rely on: a
    placement is never removed, its region never changes, its epoch and version
    only grow, one epoch has one owner and one version one state head. *)

Definition row_evolves (r r' : PlacementRow) : Prop :=
  row_home_region r' = row_home_region r /\
  (row_owner_epoch r <= row_owner_epoch r')%Z /\
  (row_state_version r <= row_state_version r')%Z /\
  (row_owner_epoch r' = row_owner_epoch r -> row_owner_host_id r' = row_owner_host_id r) /\
  (row_state_version r' = row_state_version r ->
   row_state_object r' = row_state_object r /\
   row_last_request_id r' = row_last_request_id r).

Definition evolves (db db' : Database) : Prop :=
  forall k r, placements db !! k = Some r ->
    exists r', placements db' !! k = Some r' /\ row_evolves r r'.

#[export] Instance row_evolves_preorder : PreOrder row_evolves.
Proof.
  split.
  - intros r. unfold row_evolves. repeat split; done || lia.
  - intros r1 r2 r3 (?&?&?&Ho&Hv) (?&?&?&Ho'&Hv'). unfold row_evolves.
    split; [congruence |]. split; [lia |]. split; [lia |]. split.
    + intros ?. rewrite Ho', Ho by lia. done.
    + intros ?. destruct Hv' as [-> ->]; [lia |]. apply Hv. lia.
Qed.

#[export] Instance evolves_preorder : PreOrder evolves.
Proof.
  split.
  - intros db k r H. exists r. by split.
  - intros d1 d2 d3 H12 H23 k r H. apply H12 in H as (r2 & H & ?).
    apply H23 in H as (r3 & H & ?). exists r3. split; [done |]. by etrans.
Qed.

Lemma evolves_same_placements db db' : placements db' = placements db -> evolves db db'.
Proof. intros E k r H. rewrite E. exists r. by split. Qed.

Lemma evolves_insert db k r :
  (forall r0, placements db !! k = Some r0 -> row_evolves r0 r) ->
  evolves db (set_placements <[ k := r ]> db).
Proof.
  intros Hk k' r' H. simpl. destruct (decide (k' = k)) as [-> | Hne].
  - rewrite lookup_insert_eq. eauto.
  - rewrite lookup_insert_ne by done. exists r'. by split.
Qed.

Lemma bigint_Ok z z' : bigint z = Ok z' <-> z' = z /\ (i64_min <= z <= i64_max)%Z.
Proof.
  unfold bigint. destruct (is_i64 z) eqn:H.
  - apply is_i64_spec in H. split; [by intros [= <-] | by intros [-> _]].
  - split; [done |]. intros [_ ?%is_i64_spec]. congruence.
Qed.

Lemma check_Ok c b u : check c b = Ok u <-> b = true.
Proof. destruct b, u; done. Qed.

(** Run a successful statement backwards. *)
Ltac inv_statement :=
  repeat (case_match || inv_ok_step ||
          match goal with
          | H : bigint _ = Ok _ |- _ => apply bigint_Ok in H as [-> ?]
          | H : check _ _ = Ok _ |- _ => apply check_Ok in H
          end; simplify_eq); bool_prop.

(** A statement is well behaved when it only makes allowed changes. *)
Definition well_behaved {A} (q : Statement A) : Prop :=
  forall now later db db' x, q now later db = Ok (db', x) -> evolves db db'.

Create HintDb statements.

Lemma upsert_lease_well_behaved h s r d : well_behaved (upsert_lease h s r d).
Proof.
  intros now later db db' x H. unfold upsert_lease in H. inv_statement;
    by apply evolves_same_placements.
Qed.

Lemma delete_lease_well_behaved h s : well_behaved (delete_lease h s).
Proof.
  intros now later db db' x H. unfold delete_lease in H. inv_statement;
    by apply evolves_same_placements.
Qed.

Lemma select_well_behaved {A} (f : Z -> Database -> A) :
  well_behaved (fun now _ db => Ok (db, f now db)).
Proof. intros now later db db' x H. inv_statement. done. Qed.

Lemma select_lease_status_well_behaved h : well_behaved (select_lease_status h).
Proof. apply (select_well_behaved (fun now db => (now, host_leases db !! h))). Qed.

Lemma select_placement_well_behaved k : well_behaved (select_placement k).
Proof. apply (select_well_behaved (fun _ db => placements db !! k)). Qed.

Lemma select_project_spec_well_behaved n : well_behaved (select_project_spec n).
Proof. apply (select_well_behaved (fun _ db => project_specs db !! n)). Qed.

Lemma insert_placement_well_behaved k o r : well_behaved (insert_placement k o r).
Proof.
  intros now later db db' x H. unfold insert_placement in H. inv_statement; [done |].
  apply evolves_insert. congruence.
Qed.

Lemma transfer_placement_well_behaved k o eo ee r :
  well_behaved (transfer_placement k o eo ee r).
Proof.
  intros now later db db' x H. unfold transfer_placement in H. inv_statement; try done.
  apply evolves_insert. intros r0 ?. simplify_eq. unfold row_evolves. simpl.
  repeat split; try done; lia.
Qed.

Lemma update_state_head_well_behaved k o e v s so rq :
  well_behaved (update_state_head k o e v s so rq).
Proof.
  intros now later db db' x H. unfold update_state_head in H. inv_statement; try done.
  apply evolves_insert. intros r0 ?. simplify_eq. unfold row_evolves. simpl.
  repeat split; try done; lia.
Qed.

Lemma upsert_project_spec_well_behaved n s : well_behaved (upsert_project_spec n s).
Proof.
  intros now later db db' x H. unfold upsert_project_spec in H. inv_statement;
    by apply evolves_same_placements.
Qed.

#[export] Hint Resolve upsert_lease_well_behaved delete_lease_well_behaved
  select_lease_status_well_behaved select_placement_well_behaved
  select_project_spec_well_behaved insert_placement_well_behaved transfer_placement_well_behaved
  update_state_head_well_behaved upsert_project_spec_well_behaved : statements.

(** ** Clients respect the order

    When the other clients only make allowed changes, whatever a client does
    through [query] is an allowed change as well, error paths and lost
    responses included. *)

Section Rely.
Context (weather : nat -> Weather).

Definition rely : Prop := forall n db, evolves db (others (weather n) db).

Definition guarantees {A} (c : M PgState Error A) : Prop :=
  forall st st' r, c st = (st', r) -> evolves (database st) (database st').

Context (R : rely).

Lemma query_guarantees {A} (q : Statement A) :
  well_behaved q -> guarantees (query weather q).
Proof.
  intros Hq st st' r H. unfold query in H. pose proof (R (statements st) (database st)) as Ho.
  repeat case_match; simplify_eq; simpl; try done; etrans; eauto.
Qed.

Lemma M_bind_guarantees {A B} (c : M PgState Error A) (k : A -> M PgState Error B) :
  guarantees c -> (forall a, guarantees (k a)) -> guarantees (c ≫= k).
Proof.
  intros Hc Hk st st' r H. unfold mbind, M_bind in H.
  destruct (c st) as [s1 [a | e]] eqn:E; [| simplify_eq; eauto].
  etrans; [eapply Hc; eauto | eapply Hk; eauto].
Qed.

Lemma lift_guarantees {A} (r : Result Error A) : guarantees (lift r).
Proof. intros st st' r' H. unfold lift in H. by simplify_eq. Qed.

Lemma ret_guarantees {A} (x : A) : guarantees (mret x).
Proof. intros st st' r' H. unfold mret, M_ret in H. by simplify_eq. Qed.

Lemma M_context_guarantees {A} msg (c : M PgState Error A) :
  guarantees c -> guarantees (M_context msg c).
Proof.
  intros Hc st st' r H. unfold M_context in H. destruct (c st) as [s1 r1] eqn:E.
  simplify_eq. eauto.
Qed.
End Rely.

#[export] Hint Resolve query_guarantees M_bind_guarantees lift_guarantees ret_guarantees
  M_context_guarantees : statements.

(** [client_guarantees] closes [guarantees] goals by the shape of the program. *)
Ltac client_guarantees :=
  intros; repeat first
    [ progress intros
    | apply M_bind_guarantees
    | apply M_context_guarantees
    | apply query_guarantees; [assumption | solve [auto with statements]]
    | apply lift_guarantees
    | apply ret_guarantees
    | assumption
    | case_match
    | case_bool_decide
    | progress cbn beta iota ].

Lemma query_Ok weather {A} (q : Statement A) st st' x :
  query weather q st = (st', Ok x) ->
  let w := weather (statements st) in
  fault w = NoFault /\ statements st' = S (statements st) /\
  q (now w) (later w) (others w (database st)) = Ok (database st', x).
Proof.
  unfold query. intros H. repeat case_match; simplify_eq; done.
Qed.

Lemma lift_Ok {S E A} (r : Result E A) (s s' : S) x :
  lift r s = (s', Ok x) <-> s' = s /\ r = Ok x.
Proof. unfold lift. split; [by intros [= <- <-] | by intros [-> ->]]. Qed.

Lemma M_ret_Ok {S E A} (x y : A) (s s' : S) :
  (mret x : M S E A) s = (s', Ok y) <-> s' = s /\ x = y.
Proof. unfold mret, M_ret. split; [by intros [= <- <-] | by intros [-> ->]]. Qed.

(** [inv_client] runs a successful client operation backwards. *)
Ltac inv_client :=
  repeat first
    [ match goal with
      | H : @mbind (M _ _) _ _ _ _ _ _ = (_, Ok _) |- _ => apply M_bind_Ok in H as (? & ? & ? & ?)
      | H : M_context _ _ _ = (_, Ok _) |- _ => apply M_context_Ok in H
      | H : lift _ _ = (_, Ok _) |- _ => apply lift_Ok in H as [-> ?]
      | H : mret _ _ = (_, Ok _) |- _ => apply M_ret_Ok in H as [-> ?]
      | H : query _ _ _ = (_, Ok _) |- _ => apply query_Ok in H as (? & ? & ?)
      end
    | inv_ok_step
    | progress simplify_eq ].
