(* ===== verification/Leases.v ===== *)
(** * Host leases

    Lease records, their duration bound and activity
    ([src/host_leases.rs]), and the PostgreSQL lease store
    ([src/host_leases/postgres.rs]). *)
From S2P Require Import Prelude Identity Database.
Local Open Scope string_scope.

Definition MAX_HOST_LEASE_DURATION_MS : Z := 60000.

Record HostLease := {
  hl_id : HostId;
  hl_session_id : string;
  hl_route : string;
  hl_expires_at_ms : Z;
}.
#[export] Instance HostLease_eq_dec : EqDecision HostLease.
Proof. solve_decision. Defined.

Record HostLeaseRequest := {
  lr_id : HostId;
  lr_session_id : string;
  lr_route : string;
  lr_duration_ms : Z;
}.
#[export] Instance HostLeaseRequest_eq_dec : EqDecision HostLeaseRequest.
Proof. solve_decision. Defined.

Definition validate_duration (r : HostLeaseRequest) : anyhow () :=
  ensure (0 <? lr_duration_ms r)%Z "host lease duration must be positive";;
  ensure (lr_duration_ms r <=? MAX_HOST_LEASE_DURATION_MS)%Z
    ("host lease duration must not exceed " +:+ display_u64 MAX_HOST_LEASE_DURATION_MS
     +:+ "ms").

Record HostLeaseStatus := {
  lease : option HostLease;
  store_now_ms : Z;
}.

Definition is_active (s : HostLeaseStatus) : bool :=
  match lease s with
  | Some lease => (store_now_ms s <? hl_expires_at_ms lease)%Z
  | None => false
  end.

(** [u64::try_from(x).context(msg)] *)
Definition u64_from_i64 (msg : string) (x : Z) : anyhow Z :=
  with_context msg
    (match u64_try_from x with
     | Some y => Ok y
     | None => Err ["out of range integral type conversion attempted"]
     end).
Definition i64_from_u64 (msg : string) (x : Z) : anyhow Z :=
  with_context msg
    (match i64_try_from x with
     | Some y => Ok y
     | None => Err ["out of range integral type conversion attempted"]
     end).

Lemma u64_from_i64_Ok msg x y :
  u64_from_i64 msg x = Ok y <-> y = x /\ (0 <= x <= u64_max)%Z.
Proof.
  unfold u64_from_i64. rewrite with_context_Ok, <- u64_try_from_Some.
  case_match; split; congruence.
Qed.

Lemma i64_from_u64_Ok msg x y :
  i64_from_u64 msg x = Ok y <-> y = x /\ (i64_min <= x <= i64_max)%Z.
Proof.
  unfold i64_from_u64. rewrite with_context_Ok, <- i64_try_from_Some.
  case_match; split; congruence.
Qed.

Module PostgresHostLeaseStore.
Section Store.
Context (weather : nat -> Weather).

Definition register (request : HostLeaseRequest) : M PgState Error HostLease :=
  lift (validate_duration request);;
  duration_ms ← lift (some_or
    "validated host lease duration must fit PostgreSQL BIGINT"
    (i64_try_from (lr_duration_ms request)));
  row ← M_context "register PostgreSQL host lease"
          (query weather (upsert_lease (lr_id request) (lr_session_id request)
                            (lr_route request) duration_ms));
  expires ← lift (some_or "host lease is held by a different active session" row);
  expires_at_ms ← lift (u64_from_i64 "PostgreSQL host lease expiration is negative" expires);
  mret {| hl_id := lr_id request; hl_session_id := lr_session_id request;
          hl_route := lr_route request; hl_expires_at_ms := expires_at_ms |}.

Definition unregister (id : HostId) (session_id : string) : M PgState Error () :=
  M_context "unregister PostgreSQL host lease"
    (query weather (delete_lease id session_id));;
  mret ().

Definition lease_status (id : HostId) : M PgState Error HostLeaseStatus :=
  row ← M_context "read PostgreSQL host lease status"
          (query weather (select_lease_status id));
  store_now_ms ← lift (u64_from_i64
    "PostgreSQL lease-store clock is before the Unix epoch" row.1);
  lease ← lift (match row.2 with
                | Some r =>
                    expires_at_ms ← u64_from_i64
                      "PostgreSQL host lease expiration is negative" (row_expires_at_ms r);
                    Ok (Some {| hl_id := id; hl_session_id := row_session_id r;
                                hl_route := row_route r;
                                hl_expires_at_ms := expires_at_ms |})
                | None => Ok None
                end);
  mret {| lease := lease; store_now_ms := store_now_ms |}.
End Store.
End PostgresHostLeaseStore.

(** ** What the store promises *)

Definition lease_of_row (id : HostId) (r : LeaseRow) : HostLease :=
  {| hl_id := id; hl_session_id := row_session_id r; hl_route := row_route r;
     hl_expires_at_ms := row_expires_at_ms r |}.

Lemma validate_duration_Ok r :
  validate_duration r = Ok tt <-> (1 <= lr_duration_ms r <= MAX_HOST_LEASE_DURATION_MS)%Z.
Proof.
  unfold validate_duration. rewrite bind_Ok. setoid_rewrite ensure_Ok. split.
  - intros ([] & ? & ?). bool_prop. lia.
  - intros ?. exists tt. split; [apply Z.ltb_lt | apply Z.leb_le]; lia.
Qed.

(** A lease row another session may not displace yet. *)
Definition holds (db : Database) (id : HostId) (session : string) (t : Z) : Prop :=
  exists r, host_leases db !! id = Some r /\ row_session_id r = session /\
            (t < row_expires_at_ms r)%Z.

Lemma upsert_lease_Ok h s r d now later db db' e :
  upsert_lease h s r d now later db = Ok (db', Some e) ->
  e = (now + d)%Z /\ (0 < e <= i64_max)%Z /\
  host_leases db' !! h = Some {| row_session_id := s; row_route := r; row_expires_at_ms := e |} /\
  (forall h', h' <> h -> host_leases db' !! h' = host_leases db !! h') /\
  placements db' = placements db /\
  (forall s', s' <> s -> ~ holds db h s' later).
Proof.
  intros H. unfold upsert_lease in H. inv_statement;
    (split; [done |]; split; [lia |]; simpl; rewrite lookup_insert_eq;
     split; [done |]; split; [intros; by rewrite lookup_insert_ne |]; split; [done |];
     intros s' Hs' (r' & ? & ? & ?); simplify_eq).
  match goal with H : _ || _ = true |- _ => apply orb_true_iff in H as [?|?] end; bool_prop;
    [congruence | lia].
Qed.

(** The facts of a successful registration. *)
Lemma register_facts
    (weather : nat -> Weather) (request : HostLeaseRequest) (st st' : PgState) (l : HostLease)
    (H : PostgresHostLeaseStore.register weather request st = (st', Ok l)) :
  let w := weather (statements st) in
  let db := others w (database st) in
  hl_id l = lr_id request /\ hl_session_id l = lr_session_id request /\
  hl_route l = lr_route request /\
  hl_expires_at_ms l = (now w + lr_duration_ms request)%Z /\
  (1 <= lr_duration_ms request <= MAX_HOST_LEASE_DURATION_MS)%Z /\
  (forall s, s <> lr_session_id request -> ~ holds db (lr_id request) s (later w)) /\
  (exists r, host_leases (database st') !! lr_id request = Some r /\
             lease_of_row (lr_id request) r = l) /\
  (forall id, id <> lr_id request ->
     host_leases (database st') !! id = host_leases db !! id).
Proof.
  unfold PostgresHostLeaseStore.register in H. inv_client.
  match goal with H : i64_try_from _ = _ |- _ => apply i64_try_from_Some in H as [-> _] end.
  match goal with H : upsert_lease _ _ _ _ _ _ _ = _ |- _ =>
    apply upsert_lease_Ok in H as (-> & ? & ? & ? & ? & ?) end.
  match goal with H : u64_from_i64 _ _ = _ |- _ => apply u64_from_i64_Ok in H as [-> _] end.
  match goal with H : validate_duration _ = _ |- _ => apply validate_duration_Ok in H end.
  simpl. repeat split; try done; try lia. eexists. by split.
Qed.

(** A registration that succeeds ran at one moment of the store: nobody
    else held an unexpired lease for that host then, the store now holds
    exactly the lease that was returned, and it lasts the requested duration,
    at most one minute, from the store's own clock. *)
Lemma register_exclusive
    (weather : nat -> Weather) (request : HostLeaseRequest) (st st' : PgState) (l : HostLease)
    (H : PostgresHostLeaseStore.register weather request st = (st', Ok l)) :
  let w := weather (statements st) in
  let db := others w (database st) in
  hl_id l = lr_id request /\ hl_session_id l = lr_session_id request /\
  hl_route l = lr_route request /\
  hl_expires_at_ms l = (now w + lr_duration_ms request)%Z /\
  (1 <= lr_duration_ms request <= MAX_HOST_LEASE_DURATION_MS)%Z /\
  (forall s, s <> lr_session_id request -> ~ holds db (lr_id request) s (later w)) /\
  (exists r, host_leases (database st') !! lr_id request = Some r /\
             lease_of_row (lr_id request) r = l) /\
  (forall id, id <> lr_id request ->
     host_leases (database st') !! id = host_leases db !! id).
Proof. by apply register_facts. Qed.

Definition calm (t : Z) : nat -> Weather := fun n =>
  {| others := fun db => db; now := t + Z.of_nat n; later := t + Z.of_nat n; fault := NoFault |}.

Lemma register_exclusive_witness :
  let request := {| lr_id := "host-a"; lr_session_id := "s1"; lr_route := "http://a";
                    lr_duration_ms := 30000 |} in
  exists st' l, PostgresHostLeaseStore.register (calm 1000) request
                  {| database := empty_database; statements := 0 |} = (st', Ok l) /\
    hl_expires_at_ms l = 31000%Z.
Proof.
  eexists _, _. split; [vm_compute; reflexivity |].
  edestruct (register_exclusive (calm 1000)
    {| lr_id := "host-a"; lr_session_id := "s1"; lr_route := "http://a"; lr_duration_ms := 30000 |}
    {| database := empty_database; statements := 0 |}) as (_ & _ & _ & H & _);
    [vm_compute; reflexivity | exact H].
Defined.

Lemma upsert_lease_succeeds h s r d now later db :
  (0 < now + d <= i64_max)%Z ->
  (forall s', s' <> s -> ~ holds db h s' later) ->
  exists db', upsert_lease h s r d now later db = Ok (db', Some (now + d)%Z).
Proof.
  intros Hr Hfree. unfold upsert_lease.
  rewrite (proj2 (bigint_Ok (now + d) (now + d))) by (unfold i64_min; lia). simpl.
  rewrite (proj2 (Z.ltb_lt 0 (now + d))) by lia. simpl.
  destruct (host_leases db !! h) as [c |] eqn:E; [| eauto].
  case_bool_decide as Hs; simpl; [eauto |].
  destruct (row_expires_at_ms c <=? later)%Z eqn:Hl; [eauto |]. bool_prop.
  destruct (Hfree (row_session_id c)); [done |]. exists c. split; [done | split; [done | lia]].
Qed.

(** Registration is refused only for a reason: with a valid duration, a
    clock in range, a reachable store and no other session holding an
    unexpired lease, a host always gets its lease (a renewal included). *)
Lemma register_available
    (weather : nat -> Weather) (request : HostLeaseRequest) (st : PgState)
    (Hd : (1 <= lr_duration_ms request <= MAX_HOST_LEASE_DURATION_MS)%Z)
    (Hf : fault (weather (statements st)) = NoFault)
    (Hc : (0 <= now (weather (statements st)) <= i64_max - MAX_HOST_LEASE_DURATION_MS)%Z)
    (Hfree : forall s, s <> lr_session_id request ->
       ~ holds (others (weather (statements st)) (database st)) (lr_id request) s
           (later (weather (statements st)))) :
  exists st' l, PostgresHostLeaseStore.register weather request st = (st', Ok l).
Proof.
  unfold MAX_HOST_LEASE_DURATION_MS, i64_max in *.
  edestruct (upsert_lease_succeeds (lr_id request) (lr_session_id request) (lr_route request)
    (lr_duration_ms request)) as [db' E]; [| exact Hfree |].
  { unfold i64_max. instantiate (1 := now (weather (statements st))). lia. }
  unfold PostgresHostLeaseStore.register, mbind, M_bind, lift, M_context, query.
  rewrite (proj2 (validate_duration_Ok request)) by (unfold MAX_HOST_LEASE_DURATION_MS; lia).
  rewrite (proj2 (i64_try_from_Some (lr_duration_ms request) (lr_duration_ms request)))
    by (unfold i64_min, i64_max; lia).
  simpl. rewrite Hf, E. simpl.
  rewrite (proj2 (u64_from_i64_Ok _ _ _)) by (split; [reflexivity | unfold u64_max; lia]).
  eauto.
Qed.

Lemma register_available_witness :
  exists st' l, PostgresHostLeaseStore.register (calm 1000)
    {| lr_id := "h"; lr_session_id := "s2"; lr_route := "r"; lr_duration_ms := 1 |}
    {| database := set_lease <[ "h" := {| row_session_id := "s1"; row_route := "r";
                                          row_expires_at_ms := 1000 |} ]> empty_database;
       statements := 0 |} = (st', Ok l).
Proof.
  apply register_available.
  - vm_compute. split; discriminate.
  - reflexivity.
  - vm_compute. split; discriminate.
  - intros s _ (r & Hr & _ & Ht). vm_compute in Hr. injection Hr as <-.
    vm_compute in Ht. discriminate.
Defined.

(** A status report tells the truth about one moment of the store: it is
    active exactly when the host's lease is unexpired by the store's clock. *)
Lemma lease_status_active_iff
    (weather : nat -> Weather) (id : HostId) (st st' : PgState) (status : HostLeaseStatus)
    (H : PostgresHostLeaseStore.lease_status weather id st = (st', Ok status)) :
  let w := weather (statements st) in
  let db := others w (database st) in
  database st' = db /\ store_now_ms status = now w /\
  lease status = lease_of_row id <$> host_leases db !! id /\
  (is_active status = true <-> exists s, holds db id s (now w)).
Proof.
  unfold PostgresHostLeaseStore.lease_status in H. inv_client.
  match goal with H : select_lease_status _ _ _ _ = _ |- _ =>
    unfold select_lease_status in H; injection H as Hdb Hrow end.
  subst. simpl in *.
  match goal with H : u64_from_i64 _ _ = _ |- _ => apply u64_from_i64_Ok in H as [-> _] end.
  split; [done |]. unfold holds, is_active. simpl.
  destruct (host_leases _ !! id) as [r |]; simpl in *.
  - inv_ok.
    match goal with H : u64_from_i64 _ _ = _ |- _ => apply u64_from_i64_Ok in H as [-> _] end.
    split; [done |]. split; [done |]. simpl. rewrite Z.ltb_lt. split.
    + intros ?. by exists (row_session_id r), r.
    + by intros (? & r' & [= <-] & _ & ?).
  - inv_ok. split; [done |]. split; [done |]. split; [done |]. by intros (? & ? & ? & _).
Qed.

Lemma lease_status_active_iff_witness :
  exists st' status, PostgresHostLeaseStore.lease_status (calm 5) "h"
      {| database := empty_database; statements := 0 |} = (st', Ok status) /\
    store_now_ms status = 5%Z.
Proof.
  eexists _, _. split; [vm_compute; reflexivity |].
  edestruct (lease_status_active_iff (calm 5) "h"
    {| database := empty_database; statements := 0 |}) as (_ & H & _);
    [vm_compute; reflexivity | exact H].
Defined.
