(* ===== verification/LocalLeases.v ===== *)
(** * The file lease store

    [src/host_leases/local.rs], the lease store the repository's tests run
    against: one JSON file per host under a directory.  It is shown to be the same
    lease table as the PostgreSQL store of [Leases]. *)
From S2P Require Import Prelude Json Identity StateLog Database Leases.
Local Open Scope string_scope.

(** [serde_json] at [HostLease]. *)
Class LeaseSerde := {
  lease_to_string : HostLease -> anyhow bytes;
  lease_from_slice : bytes -> anyhow HostLease;
}.
(** A record of strings and an integer is always written, and read back. *)
Class LeaseSerdeLaws (C : LeaseSerde) : Prop := {
  lease_round_trip l : exists b, lease_to_string l = Ok b /\ lease_from_slice b = Ok l;
}.

(** What becomes of an access to the file system: it fails, possibly leaving a
    file half written. *)
Inductive Access := Done | Failed (e : Error) | Torn (e : Error) (left_behind : bytes).

(** The files by path, and the accesses so far. *)
Record Disk := { files : gmap string bytes; accesses : nat }.

Module LocalHostLeaseStore.
Section Store.
Context {C : LeaseSerde} (io : nat -> Access).

(** [clock]: what the [n]-th access finds on the clock.  The mutex [mutations] is
    held throughout every operation, so that operations do not interleave. *)
Record LocalHostLeaseStore := { root : string; clock : nat -> anyhow Z }.

Definition touch (fs : gmap string bytes) (d : Disk) : Disk :=
  {| files := fs; accesses := S (accesses d) |}.

(** [create_dir_all], [read] (a missing file is [None]), [write] and [remove_file]. *)
Definition create_dir_all : M Disk Error () := fun d =>
  (touch (files d) d,
   match io (accesses d) with Done => Ok tt | Failed e | Torn e _ => Err e end).
Definition read_file (path : string) : M Disk Error (option bytes) := fun d =>
  (touch (files d) d,
   match io (accesses d) with Done => Ok (files d !! path) | Failed e | Torn e _ => Err e end).
Definition write_file (path : string) (body : bytes) : M Disk Error () := fun d =>
  match io (accesses d) with
  | Done => (touch (<[ path := body ]> (files d)) d, Ok tt)
  | Failed e => (touch (files d) d, Err e)
  | Torn e left_behind => (touch (<[ path := left_behind ]> (files d)) d, Err e)
  end.
Definition remove_file (path : string) : M Disk Error () := fun d =>
  match io (accesses d) with
  | Done => (touch (delete path (files d)) d, Ok tt)
  | Failed e | Torn e _ => (touch (files d) d, Err e)
  end.

Definition new (root : string) (system_clock : nat -> anyhow Z) : M Disk Error LocalHostLeaseStore :=
  create_dir_all;;
  mret {| root := root; clock := system_clock |}.

Definition with_clock (s : LocalHostLeaseStore) (clock : nat -> anyhow Z) : LocalHostLeaseStore :=
  {| root := root s; clock := clock |}.

Context (s : LocalHostLeaseStore).

Definition now_ms : M Disk Error Z := fun d => (d, clock s (accesses d)).

(** [PathBuf::join]: an absolute path replaces the root. *)
Definition path_for (id : HostId) : string :=
  let file := id +:+ ".json" in
  if starts_with file "/" then file else root s +:+ "/" +:+ file.

Definition load (id : HostId) : M Disk Error (option HostLease) :=
  body ← read_file (path_for id);
  match body with
  | None => mret None
  | Some body => lease ← lift (lease_from_slice body); mret (Some lease)
  end.

Definition get (id : HostId) : M Disk Error (option HostLease) := load id.

Definition register (request : HostLeaseRequest) : M Disk Error HostLease :=
  lift (validate_duration request);;
  now_ms ← now_ms;
  current ← load (lr_id request);
  (match current with
   | Some current =>
       lift (ensure (bool_decide (hl_session_id current = lr_session_id request)
                     || (hl_expires_at_ms current <=? now_ms)%Z)
               "host lease is held by a different active session")
   | None => mret ()
   end);;
  expires_at_ms ← lift (some_or "host lease expiration overflow"
                          (u64_checked_add now_ms (lr_duration_ms request)));
  let lease := {| hl_id := lr_id request; hl_session_id := lr_session_id request;
                  hl_route := lr_route request; hl_expires_at_ms := expires_at_ms |} in
  body ← lift (lease_to_string lease);
  create_dir_all;;
  write_file (path_for (hl_id lease)) body;;
  mret lease.

Definition unregister (id : HostId) (session_id : string) : M Disk Error () :=
  lease ← load id;
  match lease with
  | None => mret ()
  | Some lease =>
      if negb (bool_decide (hl_session_id lease = session_id)) then mret ()
      else remove_file (path_for id)
  end.

Definition lease_status (id : HostId) : M Disk Error HostLeaseStatus :=
  lease ← load id;
  store_now_ms ← now_ms;
  mret {| lease := lease; store_now_ms := store_now_ms |}.
End Store.
End LocalHostLeaseStore.

Import LocalHostLeaseStore.

(** ** One lease table *)

Section Agreement.
Context {C : LeaseSerde} {L : LeaseSerdeLaws C} (root_path : string) (t : Z).
Context (Hclock : (0 <= t <= i64_max - MAX_HOST_LEASE_DURATION_MS)%Z).

(** The store on a disk that works, at the time [t]. *)
Definition working : nat -> Access := fun _ => Done.
Definition local_store : LocalHostLeaseStore := {| root := root_path; clock := fun _ => Ok t |}.
(** An undisturbed database at the time [t]. *)
Definition still : nat -> Weather :=
  fun _ => {| others := fun db => db; now := t; later := t; fault := NoFault |}.

(** A host id that names a file in the store's directory. *)
Definition plain_id (id : HostId) : Prop := contains_char "/" id = false.

(** The file of a host holds its lease. *)
Definition file_shows (d : Disk) (db : Database) (id : HostId) : Prop :=
  match host_leases db !! id with
  | Some row => (0 <= row_expires_at_ms row <= i64_max)%Z /\
      exists b, files d !! path_for local_store id = Some b /\
        lease_from_slice b = Ok (lease_of_row id row)
  | None => files d !! path_for local_store id = None
  end.
Definition same_leases (d : Disk) (db : Database) : Prop :=
  forall id, plain_id id -> file_shows d db id.

Lemma plain_path id : plain_id id -> path_for local_store id = root_path +:+ "/" +:+ id +:+ ".json".
Proof.
  intros Hp. unfold path_for. destruct id as [| a id]; [done |].
  assert (a <> "/"%char) as Ha.
  { intros ->. unfold plain_id, contains_char in Hp. done. }
  assert (forall r, starts_with (String a r) "/" = false) as Hs.
  { intros r. unfold starts_with. cbn [strip_prefix]. by destruct (Ascii.eqb_spec "/" a) as [<- |]. }
  change (String a id +:+ ".json") with (String a (id +:+ ".json")). by rewrite Hs.
Qed.

Lemma plain_path_inj id id' :
  plain_id id -> plain_id id' -> path_for local_store id = path_for local_store id' -> id = id'.
Proof.
  intros H H'. rewrite !plain_path by done. intros ?%append_inj_l%append_inj_l. by eapply append_inj_r.
Qed.

(** Loading a lease finds the row. *)
Lemma load_run d db id :
  file_shows d db id ->
  load working local_store id d = (touch (files d) d, Ok (lease_of_row id <$> host_leases db !! id)).
Proof.
  unfold file_shows, load, read_file, mbind, M_bind, lift, mret, M_ret, working. simpl. intros H.
  destruct (host_leases db !! id) as [row |]; [destruct H as (_ & b & -> & Hb); by rewrite Hb | by rewrite H].
Qed.

Lemma same_leases_insert d d' db id row b :
  plain_id id -> same_leases d db -> (0 <= row_expires_at_ms row <= i64_max)%Z ->
  lease_from_slice b = Ok (lease_of_row id row) ->
  files d' = <[ path_for local_store id := b ]> (files d) ->
  same_leases d' (set_lease <[ id := row ]> db).
Proof.
  intros Hp Hs Hr Hb Hd id' Hp'. specialize (Hs id' Hp'). unfold file_shows in *. rewrite Hd. simpl.
  destruct (decide (id' = id)) as [-> | Hne].
  - rewrite !lookup_insert_eq. split; [done |]. by exists b.
  - rewrite lookup_insert_ne by done.
    rewrite lookup_insert_ne by (intros E; apply Hne; symmetry; by apply plain_path_inj). done.
Qed.

Lemma same_leases_delete d d' db id :
  plain_id id -> same_leases d db -> files d' = delete (path_for local_store id) (files d) ->
  same_leases d' (set_lease (delete id) db).
Proof.
  intros Hp Hs Hd id' Hp'. specialize (Hs id' Hp'). unfold file_shows in *. rewrite Hd. simpl.
  destruct (decide (id' = id)) as [-> | Hne].
  - by rewrite !lookup_delete_eq.
  - rewrite lookup_delete_ne by done.
    rewrite lookup_delete_ne by (intros E; apply Hne; symmetry; by apply plain_path_inj). done.
Qed.

(** Two runs that answer the same and leave the same leases. *)
Definition agree {A} (x : Disk * anyhow A) (y : PgState * anyhow A) : Prop :=
  x.2 = y.2 /\ same_leases x.1 (database y.1).

Lemma register_agrees request d st :
  plain_id (lr_id request) -> same_leases d (database st) ->
  agree (register working local_store request d) (PostgresHostLeaseStore.register still request st).
Proof using L Hclock.
  intros Hp Hs. pose proof (load_run d (database st) _ (Hs _ Hp)) as Hload.
  unfold register, PostgresHostLeaseStore.register, agree.
  unfold mbind, M_bind, lift, now_ms, M_context, query. cbn [clock local_store accesses].
  destruct (validate_duration request) as [[] | e] eqn:Hv; [| done].
  apply validate_duration_Ok in Hv. unfold MAX_HOST_LEASE_DURATION_MS, i64_max in *.
  rewrite (proj2 (i64_try_from_Some (lr_duration_ms request) (lr_duration_ms request)))
    by (unfold i64_min, i64_max; lia).
  rewrite Hload. simpl. unfold upsert_lease.
  rewrite (proj2 (bigint_Ok (t + lr_duration_ms request) (t + lr_duration_ms request)))
    by (unfold i64_min, i64_max; lia).
  simpl. rewrite (proj2 (Z.ltb_lt 0 _)) by lia.
  rewrite (proj2 (u64_checked_add_Some t (lr_duration_ms request) (t + lr_duration_ms request)))
    by (unfold u64_max; lia).
  set (row := {| row_session_id := lr_session_id request; row_route := lr_route request;
                 row_expires_at_ms := (t + lr_duration_ms request)%Z |}).
  destruct (lease_round_trip (lease_of_row (lr_id request) row)) as (b & Hto & Hfrom).
  unfold lease_of_row in Hto. simpl in Hto. simpl.
  destruct (host_leases (database st) !! lr_id request) as [current |] eqn:Hrow; simpl.
  - destruct (bool_decide _ || _) eqn:Hfree; simpl; [| done].
    rewrite Hto, (proj2 (u64_from_i64_Ok _ _ (t + lr_duration_ms request)))
      by (split; [done | unfold u64_max; lia]).
    simpl. split; [done |]. eapply same_leases_insert; [done | done | | exact Hfrom | done].
    simpl. unfold i64_max. lia.
  - rewrite Hto, (proj2 (u64_from_i64_Ok _ _ (t + lr_duration_ms request)))
      by (split; [done | unfold u64_max; lia]).
    simpl. split; [done |]. eapply same_leases_insert; [done | done | | exact Hfrom | done].
    simpl. unfold i64_max. lia.
Qed.

Lemma unregister_agrees id session d st :
  plain_id id -> same_leases d (database st) ->
  agree (unregister working local_store id session d)
        (PostgresHostLeaseStore.unregister still id session st).
Proof.
  intros Hp Hs. pose proof (load_run d (database st) _ (Hs _ Hp)) as Hload.
  unfold unregister, PostgresHostLeaseStore.unregister, agree, mbind, M_bind, M_context, query.
  rewrite Hload. simpl. unfold delete_lease.
  destruct (host_leases (database st) !! id) as [row |]; simpl; [| done].
  case_bool_decide; simpl; [| done]. split; [done |]. by eapply same_leases_delete.
Qed.

Lemma lease_status_agrees id d st :
  plain_id id -> same_leases d (database st) ->
  agree (lease_status working local_store id d) (PostgresHostLeaseStore.lease_status still id st).
Proof using Hclock.
  intros Hp Hs. pose proof (load_run d (database st) _ (Hs _ Hp)) as Hload. specialize (Hs id Hp) as Hid.
  unfold lease_status, PostgresHostLeaseStore.lease_status, agree, mbind, M_bind, M_context, query,
    now_ms, lift.
  rewrite Hload. simpl. unfold MAX_HOST_LEASE_DURATION_MS, i64_max in *.
  rewrite (proj2 (u64_from_i64_Ok _ t t)) by (split; [done | unfold u64_max; lia]).
  unfold file_shows in Hid.
  destruct (host_leases (database st) !! id) as [row |]; simpl; [| done].
  rewrite (proj2 (u64_from_i64_Ok _ _ (row_expires_at_ms row)))
    by (unfold u64_max, i64_max in *; split; [done | lia]).
  done.
Qed.

(** C30: the lease store the tests run against is the lease table of the deployment:
    from files that hold the leases of the table, at the same time of a disk and
    a database that work, for host ids that can be file names (no slash in
    them), a registration, a release and a status report give
    exactly the same answer in both stores, refusals and their messages
    included, and leave files that hold the leases of the table again. *)
Theorem lease_stores_agree (request : HostLeaseRequest) (id : HostId) (session : string)
    (d : Disk) (st : PgState) :
  plain_id (lr_id request) -> plain_id id -> same_leases d (database st) ->
  agree (register working local_store request d) (PostgresHostLeaseStore.register still request st) /\
  agree (unregister working local_store id session d)
        (PostgresHostLeaseStore.unregister still id session st) /\
  agree (lease_status working local_store id d) (PostgresHostLeaseStore.lease_status still id st).
Proof using L Hclock.
  intros. split_and!; [by apply register_agrees | by apply unregister_agrees | by apply lease_status_agrees].
Qed.
End Agreement.

(** ** Two stores side by side *)

(** Texts with their length, integers in unary with their sign. *)
Definition put_sized (s : string) (rest : bytes) : bytes :=
  put_int (Z.of_nat (String.length s))
    ((Ascii.byte_of_ascii <$> String.list_ascii_of_string s) ++ rest)%list.
Definition get_sized (b : bytes) : anyhow (string * bytes) :=
  '(n, b) ← get_int b;
  Ok (String.string_of_list_ascii (Ascii.ascii_of_byte <$> take (Z.to_nat n) b), drop (Z.to_nat n) b).

Lemma get_put_sized s rest : get_sized (put_sized s rest) = Ok (s, rest).
Proof.
  unfold get_sized, put_sized. rewrite get_put_int by lia. simpl. rewrite Nat2Z.id.
  assert (length (Ascii.byte_of_ascii <$> String.list_ascii_of_string s) = String.length s) as Hlen.
  { rewrite length_fmap. by induction s; simpl; f_equal. }
  rewrite take_app_length', drop_app_length' by done. do 2 f_equal.
  rewrite <- list_fmap_compose. rewrite <- (String.string_of_list_ascii_of_string s) at 2. f_equal.
  rewrite <- (list_fmap_id (String.list_ascii_of_string s)) at 2.
  apply list_fmap_ext. intros. apply Ascii.ascii_of_byte_of_ascii.
Qed.

#[local] Instance sized_leases : LeaseSerde := {|
  lease_to_string l := Ok (put_sized (hl_id l) (put_sized (hl_session_id l) (put_sized (hl_route l)
    (put_int (Z.max 0 (hl_expires_at_ms l)) (put_int (Z.max 0 (- hl_expires_at_ms l)) [])))));
  lease_from_slice b :=
    '(id, b) ← get_sized b; '(session, b) ← get_sized b; '(route, b) ← get_sized b;
    '(p, b) ← get_int b; '(n, _) ← get_int b;
    Ok {| hl_id := id; hl_session_id := session; hl_route := route; hl_expires_at_ms := p - n |};
|}.
#[local] Instance sized_leases_laws : LeaseSerdeLaws sized_leases.
Proof.
  split. intros [id session route e]. eexists. split; [done |]. simpl.
  repeat (rewrite get_put_sized; simpl). rewrite get_put_int by lia. simpl.
  rewrite get_put_int by lia. simpl. do 2 f_equal. lia.
Qed.

Definition held : Database :=
  set_lease <[ "host-a" := {| row_session_id := "s1"; row_route := "r"; row_expires_at_ms := 31 |} ]>
    empty_database.
Definition held_files : Disk :=
  {| files := {[ "leases/host-a.json" := put_sized "host-a" (put_sized "s1" (put_sized "r"
                   (put_int 31 (put_int 0 [])))) ]}; accesses := 0 |}.

(** Another session is refused by both stores. *)
Lemma lease_stores_agree_witness :
  let request := {| lr_id := "host-a"; lr_session_id := "s2"; lr_route := "q"; lr_duration_ms := 9 |} in
  agree "leases" 30 (register working (local_store "leases" 30) request held_files)
    (PostgresHostLeaseStore.register (still 30) request {| database := held; statements := 0 |}) /\
  (register working (local_store "leases" 30) request held_files).2 =
    Err ["host lease is held by a different active session"].
Proof.
  split; [| vm_compute; reflexivity].
  edestruct (lease_stores_agree "leases" 30) with (id := "host-a") (session := "s1") as [H _];
    [| | | | exact H].
  - vm_compute. intuition discriminate.
  - reflexivity.
  - reflexivity.
  - intros id Hp. unfold file_shows. simpl. unfold held. simpl.
    destruct (decide (id = "host-a")) as [-> | Hne].
    + rewrite lookup_insert_eq. split; [vm_compute; intuition discriminate |].
      eexists. split; vm_compute; reflexivity.
    + rewrite lookup_insert_ne by done. rewrite lookup_empty. unfold held_files. simpl.
      rewrite lookup_singleton_ne; [done |]. intros E. apply Hne. symmetry.
      apply (plain_path_inj "leases" 30 "host-a" id); [reflexivity | done | exact E].
Defined.
