(* ===== verification/LeaseMaintenance.v ===== *)
(** * Keeping the host's lease

    [src/host/lease_maintenance.rs]: a host renews its lease until it is told to
    stop, and fences itself when the window it could confirm has lapsed.  Time is
    the host's monotonic clock in nanoseconds; the schedule says when the
    process was polled and how long its calls took. *)
From S2P Require Import Prelude Identity Database Leases.
Local Open Scope string_scope.
Local Open Scope Z_scope.

Definition LEASE_RENEWAL_SHUTDOWN_TIMEOUT : Duration := from_secs 2.

(** ** Clocks *)

(** [ANCHOR] of [src/clock.rs]: the wall-clock time since the epoch and the
    monotonic time of the first call. *)
Record SystemClock := { anchor_wall : Duration; anchor_monotonic : Z }.

(** [SystemClock::now_ms] at the monotonic time [t]. *)
Definition now_ms (clock : SystemClock) (t : Z) : anyhow Z :=
  let now := anchor_wall clock + (t - anchor_monotonic clock) in
  ensure (0 <=? now) "second time provided was later than self";;
  some_or "out of range integral type conversion attempted" (u64_try_from (as_millis now)).

(** [Instant::checked_add]: seconds are an [i64]. *)
Definition INSTANT_MAX : Z := 2 ^ 63 * 1000000000 - 1.
Definition instant_checked_add (t : Z) (d : Duration) : option Z :=
  if t + d <=? INSTANT_MAX then Some (t + d) else None.

(** ** The registry of leases, as a host sees it *)

(** [HostLeaseRegistry]: its calls take effect at a moment of the host's time. *)
Class LeaseRegistry (W : Type) := {
  registry_register : HostLeaseRequest -> Z -> W -> W * anyhow HostLease;
  registry_unregister : HostId -> string -> Z -> W -> W * anyhow ();
  (** what is left of a registration that reached the registry when its caller
      has dropped the call *)
  registry_register_dropped : HostLeaseRequest -> Z -> W -> W;
}.

Section Maintenance.
Context {W : Type} {R : LeaseRegistry W} (clock : SystemClock).

Record HostLeaseMaintainer := {
  endpoint : HostEndpoint;
  session_id : string;
  lease_duration_ms : Z;
  renew_every : Duration;
}.

Definition HostLeaseMaintainer_new (endpoint : HostEndpoint) (session_id : string)
    (lease_duration renew_every : Duration) : anyhow HostLeaseMaintainer :=
  lease_duration_ms ← some_or "out of range integral type conversion attempted"
    (u64_try_from (as_millis lease_duration));
  ensure (0 <? lease_duration_ms) "host lease duration must be positive";;
  ensure (negb (is_zero renew_every)) "host lease renewal interval must be positive";;
  ensure (renew_every <? lease_duration)
    "host lease renewal interval must be shorter than its duration";;
  ensure (negb (is_empty session_id)) "host session ID must not be empty";;
  Ok {| endpoint := endpoint; session_id := session_id;
        lease_duration_ms := lease_duration_ms; renew_every := renew_every |}.

(** The maintainer's surroundings: the time, the registry, and its counter. *)
Record Timed := {
  time : Z;
  registry : W;
  consecutive_failures : Z;
}.

Definition at_time (t : Z) (s : Timed) : Timed :=
  {| time := t; registry := registry s; consecutive_failures := consecutive_failures s |}.
Definition set_failures (n : Z) (s : Timed) : Timed :=
  {| time := time s; registry := registry s; consecutive_failures := n |}.
Definition set_registry (w : W) (s : Timed) : Timed :=
  {| time := time s; registry := w; consecutive_failures := consecutive_failures s |}.

Definition pass (d : Duration) : M Timed Error () := modify (fun s => at_time (time s + d) s).
Definition read_clock : M Timed Error Z := fun s => (s, now_ms clock (time s)).
Definition call_register (request : HostLeaseRequest) : M Timed Error HostLease := fun s =>
  let '(w, r) := registry_register request (time s) (registry s) in (set_registry w s, r).

(** How long a registration takes to reach the store and to return, and the
    time between its two last clock readings. *)
Record Pace := { to_store : Duration; from_store : Duration; between_samples : Duration }.

Record ConfirmedHostLease := { confirmed_lease : HostLease; local_deadline : Z }.

Definition lease_request (m : HostLeaseMaintainer) : HostLeaseRequest :=
  {| lr_id := endpoint_id (endpoint m); lr_session_id := session_id m;
     lr_route := endpoint_route (endpoint m); lr_duration_ms := lease_duration_ms m |}.

Definition renew_once_with_deadline (m : HostLeaseMaintainer) (pace : Pace)
    : M Timed Error ConfirmedHostLease :=
  local_now_ms ← read_clock;
  local_valid_until_ms ← lift (some_or "host lease expiration overflow"
    (u64_checked_add local_now_ms (lease_duration_ms m)));
  pass (to_store pace);;
  lease ← call_register (lease_request m);
  pass (from_store pace);;
  modify (set_failures 0);;
  deadline_anchor ← gets time;
  pass (between_samples pace);;
  now ← read_clock;
  let remaining_ms := u64_saturating_sub local_valid_until_ms now in
  lift (ensure (0 <? remaining_ms) "host lease expired before its registration response arrived");;
  local_deadline ← lift (some_or "local host lease deadline overflow"
    (instant_checked_add deadline_anchor (from_millis remaining_ms)));
  mret {| confirmed_lease := lease; local_deadline := local_deadline |}.

(** ** The renewal task *)

(** The task with its deadline; [lease_lost] is the watch channel. *)
Record LeaseRenewalTask := {
  timed : Timed;
  deadline : Z;
  running : bool;
  lease_lost : bool;
}.

Definition start (m : HostLeaseMaintainer) (pace : Pace) (s : Timed)
    : Timed * anyhow LeaseRenewalTask :=
  match renew_once_with_deadline m pace s with
  | (s, Ok initial) =>
      (s, Ok {| timed := s; deadline := local_deadline initial; running := true;
                lease_lost := false |})
  | (s, Err error) => (s, Err error)
  end.

Definition unregister (m : HostLeaseMaintainer) (s : Timed) : Timed * anyhow () :=
  let '(w, r) := registry_unregister (endpoint_id (endpoint m)) (session_id m)
                   (time s) (registry s) in
  (set_registry w s, r).

(** The biased [select!]s: at the moment [t] they are polled, cancellation is
    looked at first, then the deadline; [Elapsed] is the last branch. *)
Inductive Selected := Cancelled | Expired | Elapsed.

Definition select (shutdown : option Z) (local_deadline t : Z) : Selected :=
  if match shutdown with Some s => s <=? t | None => false end then Cancelled
  else if local_deadline <=? t then Expired
  else Elapsed.

Definition stop (t : Timed) (lost : bool) (task : LeaseRenewalTask) : LeaseRenewalTask :=
  {| timed := t; deadline := deadline task; running := false; lease_lost := lost |}.

(** One turn of the loop: the task wakes at [wake], other clients having acted
    on the registry meanwhile; the renewal is polled to its end, or dropped, at
    [poll]; a dropped one may have reached the store or not. *)
Record Round := {
  wake : Z;
  meanwhile : W -> W;
  pace : Pace;
  poll : Z;
  dropped_reaches : bool;
}.

Definition wait_until_renewal (shutdown : option Z) (r : Round) (task : LeaseRenewalTask)
    : LeaseRenewalTask * bool :=
  let s := set_registry (meanwhile r (registry (timed task))) (at_time (wake r) (timed task)) in
  match select shutdown (deadline task) (wake r) with
  | Cancelled => (stop s (lease_lost task) task, false)
  | Expired => (stop s true task, false)
  | Elapsed => ({| timed := s; deadline := deadline task; running := running task;
                   lease_lost := lease_lost task |}, true)
  end.

(** A renewal dropped while its registration is under way. *)
Definition drop_renewal (m : HostLeaseMaintainer) (pace : Pace) (s : Timed) : Timed :=
  set_registry (registry_register_dropped (lease_request m) (time s + to_store pace) (registry s)) s.

Definition renew_before_deadline (m : HostLeaseMaintainer) (shutdown : option Z) (r : Round)
    (task : LeaseRenewalTask) : LeaseRenewalTask :=
  let '(s, result) := renew_once_with_deadline m (pace r) (timed task) in
  let dropped := at_time (poll r)
    (if dropped_reaches r then drop_renewal m (pace r) (timed task) else timed task) in
  match select shutdown (deadline task) (poll r) with
  | Cancelled => stop dropped (lease_lost task) task
  | Expired => stop dropped true task
  | Elapsed =>
      let s := at_time (poll r) s in
      match result with
      | Ok confirmed => {| timed := s; deadline := local_deadline confirmed;
                           running := running task; lease_lost := lease_lost task |}
      | Err _ =>
          {| timed := set_failures (u64_saturating_add (consecutive_failures s) 1) s;
             deadline := deadline task; running := running task; lease_lost := lease_lost task |}
      end
  end.

Definition renew_round (m : HostLeaseMaintainer) (shutdown : option Z) (task : LeaseRenewalTask)
    (r : Round) : LeaseRenewalTask :=
  if running task
  then let '(task, goes_on) := wait_until_renewal shutdown r task in
       if goes_on then renew_before_deadline m shutdown r task else task
  else task.

(** The loop over a schedule of rounds. *)
Definition renew_until_stopped (m : HostLeaseMaintainer) (shutdown : option Z)
    (rounds : list Round) (task : LeaseRenewalTask) : LeaseRenewalTask :=
  foldl (renew_round m shutdown) task rounds.
End Maintenance.
Arguments Timed W : clear implicits.
Arguments LeaseRenewalTask W : clear implicits.
Arguments Round W : clear implicits.

(** ** What the registry promises a host *)

(** [store_now t]: the registry's own clock, in milliseconds, at the host's time
    [t]; [held id session w t e]: at the host's time [t] the registry grants the
    session what a lease gives it, and does so until its clock shows [e].  A
    registration that succeeds grants it for its duration from the moment it
    reaches the registry; one that fails, or whose caller dropped it, does the
    same or leaves the grant. *)
Class LeaseRegistryLaws (W : Type) (R : LeaseRegistry W) := {
  store_now : Z -> Z;
  held : HostId -> string -> W -> Z -> Z -> Prop;
  store_now_mono t t' : t <= t' -> store_now t <= store_now t';
  store_now_shift t ms : store_now (t + from_millis ms) = store_now t + ms;
  held_later id session w t t' e : t <= t' -> held id session w t e -> held id session w t' e;
  register_stamps request t w w' l :
    registry_register request t w = (w', Ok l) ->
    exists e, store_now t + lr_duration_ms request <= e /\ held (lr_id request) (lr_session_id request) w' t e;
  register_failed request t w w' error :
    registry_register request t w = (w', Err error) ->
    (forall e, held (lr_id request) (lr_session_id request) w t e ->
               held (lr_id request) (lr_session_id request) w' t e) \/
    exists e, store_now t + lr_duration_ms request <= e /\
              held (lr_id request) (lr_session_id request) w' t e;
  register_dropped request t w t' :
    let w' := registry_register_dropped request t w in
    (forall e, held (lr_id request) (lr_session_id request) w t' e ->
               held (lr_id request) (lr_session_id request) w' t' e) \/
    exists e, store_now t + lr_duration_ms request <= e /\
              held (lr_id request) (lr_session_id request) w' t' e;
}.

(** The slack of the two clocks' truncation to milliseconds. *)
Definition TRUNCATION : Duration := from_millis 2.

Section SelfFencing.
Context {W : Type} {R : LeaseRegistry W} {L : LeaseRegistryLaws W R}.
Context (clock : SystemClock) (m : HostLeaseMaintainer).

Definition held_by (w : W) (t e : Z) : Prop :=
  held (endpoint_id (endpoint m)) (session_id m) w t e.

(** Other clients do not take an unexpired lease away; a call of this host that
    arrives late may extend it. *)
Definition leaves_lease (f : W -> W) (t : Z) : Prop :=
  forall w e, held_by w t e -> store_now t < e -> exists e', e <= e' /\ held_by (f w) t e'.

Definition forward (p : Pace) : Prop :=
  0 <= to_store p /\ 0 <= from_store p /\ 0 <= between_samples p.

(** A schedule a process can meet: time goes forward, and a renewal that is not
    dropped takes the time its calls take. *)
Definition timely (shutdown : option Z) (r : Round W) (task : LeaseRenewalTask W) : Prop :=
  time (timed task) <= wake r /\ wake r <= poll r /\ forward (pace r) /\
  (select shutdown (deadline task) (poll r) = Elapsed ->
   wake r + to_store (pace r) + from_store (pace r) + between_samples (pace r) <= poll r) /\
  leaves_lease (meanwhile r) (wake r).

Fixpoint timely_all (shutdown : option Z) (rounds : list (Round W)) (task : LeaseRenewalTask W)
    : Prop :=
  match rounds with
  | [] => True
  | r :: rounds =>
      timely shutdown r task /\ timely_all shutdown rounds (renew_round clock m shutdown task r)
  end.

(** Before [deadline], but for the truncation, the registry's clock is before [e]. *)
Definition ends_by (deadline e : Z) : Prop :=
  forall t, t + TRUNCATION <= deadline -> store_now t < e.

(** The registry shows a lease of this session that outlasts the deadline, unless
    its own clock has passed it. *)
Definition covered (w : W) (deadline t : Z) : Prop :=
  exists e, ends_by deadline e /\ e <= store_now t + lease_duration_ms m /\
    ((exists e', held_by w t e' /\ e <= e') \/ e <= store_now t).

Definition task_ok (task : LeaseRenewalTask W) : Prop :=
  covered (registry (timed task)) (deadline task) (time (timed task)).

Lemma now_ms_bounds t n :
  now_ms clock t = Ok n ->
  n * 1000000 <= anchor_wall clock + (t - anchor_monotonic clock) < n * 1000000 + 1000000.
Proof.
  unfold now_ms, as_millis. intros H. inv_ok.
  match goal with H : u64_try_from _ = _ |- _ => apply u64_try_from_Some in H as [-> _] end.
  Z.to_euclidean_division_equations. lia.
Qed.

(** A confirmed renewal: the window is anchored before the request left. *)
Lemma renewal_confirmed p (s s' : Timed W) c :
  forward p -> renew_once_with_deadline clock m p s = (s', Ok c) ->
  let sent := time s + to_store p in
  time s' = sent + from_store p + between_samples p /\
  consecutive_failures s' = 0 /\
  (exists e, store_now sent + lease_duration_ms m <= e /\ held_by (registry s') sent e) /\
  ends_by (local_deadline c) (store_now sent + lease_duration_ms m).
Proof.
  intros Hp H. unfold renew_once_with_deadline, pass, read_clock, call_register, gets, modify in H.
  unfold lift, mbind, M_bind, mret, M_ret in H. simpl in H.
  destruct (now_ms clock (time s)) as [t0 |] eqn:E0; [| done].
  destruct (some_or _ _) as [valid |] eqn:E1 in H; [| done].
  apply some_or_Ok, u64_checked_add_Some in E1 as [-> _].
  destruct (registry_register _ _ _) as [w [lease |]] eqn:E2 in H; simpl in H; [| done].
  destruct (now_ms clock _) as [t3 |] eqn:E3 in H; [| done].
  destruct (ensure _ _) as [[] |] eqn:E4 in H; [| done]. apply ensure_Ok in E4. bool_prop.
  destruct (some_or _ _) as [deadline |] eqn:E5 in H; [| done]. simplify_eq. simpl.
  apply some_or_Ok in E5. unfold instant_checked_add in E5. case_match; [| done]. simplify_eq.
  split; [done |]. split; [done |]. split; [by apply register_stamps in E2 |].
  apply now_ms_bounds in E0, E3. destruct Hp as (? & ? & ?).
  intros u Hu. unfold u64_saturating_sub, TRUNCATION, from_millis in *.
  eapply Z.le_lt_trans; [apply (store_now_mono _ (time s + from_millis (lease_duration_ms m - 1))) |].
  - unfold from_millis. lia.
  - rewrite store_now_shift. pose proof (store_now_mono (time s) (time s + to_store p)). lia.
Qed.

(** From [w] to [w'], what is held at [t'] is still held, or was stamped at [sent]. *)
Definition keeps (w w' : W) (sent t' : Z) : Prop :=
  (forall e, held_by w t' e -> held_by w' t' e) \/
  exists e, store_now sent + lease_duration_ms m <= e /\ held_by w' t' e.

(** Whatever becomes of it, a renewal leaves the lease or extends it. *)
Lemma renewal_outcome p (s s' : Timed W) r :
  renew_once_with_deadline clock m p s = (s', r) ->
  keeps (registry s) (registry s') (time s + to_store p) (time s + to_store p).
Proof.
  intros H. unfold renew_once_with_deadline, pass, read_clock, call_register, gets, modify in H.
  unfold lift, mbind, M_bind, mret, M_ret in H. simpl in H.
  destruct (now_ms clock (time s)); [| by simplify_eq; left].
  destruct (some_or _ _) in H; [| by simplify_eq; left].
  destruct (registry_register _ _ _) as [w r1] eqn:E in H. simpl in H.
  assert (Hw : registry s' = w) by (repeat (case_match; simplify_eq; simpl); done).
  rewrite Hw. destruct r1 as [lease | error].
  - right. by apply register_stamps in E.
  - by apply register_failed in E.
Qed.

(** ** Rounds *)

Lemma covered_later w deadline t t' : t <= t' -> covered w deadline t -> covered w deadline t'.
Proof.
  intros Ht (e & He & Hle & Hcov). pose proof (store_now_mono t t' Ht).
  exists e. split; [done |]. split; [lia |].
  destruct Hcov as [(e1 & H1 & ?) | ?]; [left | right; lia].
  exists e1. split; [by eapply held_later | done].
Qed.

Lemma covered_kept w w' deadline t sent t' :
  t <= t' -> t <= sent -> keeps w w' sent t' -> covered w deadline t -> covered w' deadline t'.
Proof.
  intros Ht Hsent Hw Hcov. pose proof (store_now_mono t sent Hsent).
  destruct Hcov as (e & He & Hle & Hcov). pose proof (store_now_mono t t' Ht).
  exists e. split; [done |]. split; [lia |].
  destruct Hcov as [(e1 & H1 & ?) | ?]; [| right; lia]. left.
  destruct Hw as [Hw | (e2 & He2 & Hheld2)].
  - exists e1. split; [by apply Hw; eapply held_later | done].
  - exists e2. split; [done | lia].
Qed.

Lemma covered_meanwhile f w deadline t t' :
  t <= t' -> leaves_lease f t' -> covered w deadline t -> covered (f w) deadline t'.
Proof.
  intros Ht Hf (e & He & Hle & Hcov)%(covered_later _ _ _ _ Ht).
  exists e. split; [done |]. split; [done |].
  destruct Hcov as [(e1 & H1 & ?) | ?]; [| by right].
  destruct (decide (store_now t' < e1)); [left | right; lia].
  destruct (Hf _ _ H1) as (e2 & ? & ?); [done |]. exists e2. split; [done | lia].
Qed.

(** A window confirmed by a registration covers the lease at once. *)
Lemma confirmed_covered p (s s' : Timed W) c t :
  0 <= lease_duration_ms m -> forward p -> time s + to_store p <= t ->
  renew_once_with_deadline clock m p s = (s', Ok c) ->
  covered (registry s') (local_deadline c) t.
Proof.
  intros Hd Hp Ht H.
  destruct (renewal_confirmed _ _ _ _ Hp H) as (_ & _ & (e & He & Hheld) & Hends).
  apply (covered_later _ _ _ _ Ht). exists (store_now (time s + to_store p) + lease_duration_ms m).
  split; [done |]. split; [lia |]. left. by exists e.
Qed.

Lemma wait_ok shutdown r task :
  0 <= lease_duration_ms m -> timely shutdown r task -> task_ok task ->
  task_ok (wait_until_renewal shutdown r task).1.
Proof.
  intros Hd (Ht & _ & _ & _ & Hf) Hok. unfold wait_until_renewal.
  case_match; by eapply covered_meanwhile.
Qed.

Lemma renew_ok shutdown r task :
  0 <= lease_duration_ms m -> time (timed task) = wake r ->
  wake r <= poll r -> forward (pace r) ->
  (select shutdown (deadline task) (poll r) = Elapsed ->
   wake r + to_store (pace r) + from_store (pace r) + between_samples (pace r) <= poll r) ->
  task_ok task -> task_ok (renew_before_deadline clock m shutdown r task).
Proof.
  intros Hd Hw Hpoll Hp Htrip Hok. unfold renew_before_deadline.
  destruct (renew_once_with_deadline clock m (pace r) (timed task)) as [s result] eqn:E.
  assert (Hdropped : covered
    (registry (if dropped_reaches r then drop_renewal m (pace r) (timed task) else timed task))
    (deadline task) (poll r)).
  { destruct (dropped_reaches r); [| by eapply covered_later; [| exact Hok]; rewrite Hw].
    eapply (covered_kept (registry (timed task)) _ _ (time (timed task)));
      [by rewrite Hw | | apply (register_dropped (lease_request m)) | exact Hok].
    destruct Hp as (? & _). lia. }
  destruct (select _ _ _) eqn:Hsel; [done | done |]. specialize (Htrip eq_refl).
  destruct Hp as (? & ? & ?). destruct result as [c | error].
  2: { change (covered (registry s) (deadline task) (poll r)).
       apply (covered_later _ _ (time (timed task) + to_store (pace r))); [lia |].
       eapply (covered_kept (registry (timed task)));
         [| | by eapply renewal_outcome | exact Hok]; lia. }
  change (covered (registry s) (local_deadline c) (poll r)).
  apply (confirmed_covered (pace r) (timed task)); [done | done | simpl; lia | done].
Qed.

Lemma renew_round_ok shutdown r task :
  0 <= lease_duration_ms m -> timely shutdown r task -> task_ok task ->
  task_ok (renew_round clock m shutdown task r).
Proof.
  intros Hd Htimely Hok. unfold renew_round. destruct (running task); [| done].
  pose proof (wait_ok _ _ _ Hd Htimely Hok) as Hwait.
  destruct Htimely as (_ & ? & ? & ? & _).
  unfold wait_until_renewal in *. destruct (select _ _ (wake r)); [done | done |].
  by apply renew_ok.
Qed.

Lemma renewals_ok shutdown rounds task :
  0 <= lease_duration_ms m -> timely_all shutdown rounds task -> task_ok task ->
  task_ok (renew_until_stopped clock m shutdown rounds task).
Proof.
  intros Hd. revert task. induction rounds as [| r rounds IH]; [done |].
  intros task [Htimely Hrest] Hok. apply (IH _ Hrest). by apply renew_round_ok.
Qed.

(** A task that lost its lease has stopped. *)
Definition fenced_stopped (task : LeaseRenewalTask W) : Prop :=
  lease_lost task = true -> running task = false.

Lemma renew_round_fenced shutdown r task :
  fenced_stopped task -> fenced_stopped (renew_round clock m shutdown task r).
Proof.
  unfold fenced_stopped, renew_round, wait_until_renewal, renew_before_deadline.
  intros H. destruct (running task) eqn:Hrun; [| congruence].
  repeat (case_match; simplify_eq; simpl; try done); congruence.
Qed.

Lemma renewals_fenced shutdown rounds task :
  fenced_stopped task -> fenced_stopped (renew_until_stopped clock m shutdown rounds task).
Proof.
  revert task. induction rounds as [| r rounds IH]; [done |].
  intros task H. apply IH. by apply renew_round_fenced.
Qed.

(** Within its window, a task that was started holds the lease. *)
Lemma window_covered p (s s0 : Timed W) task0 shutdown rounds :
  0 <= lease_duration_ms m -> forward p -> start clock m p s = (s0, Ok task0) ->
  timely_all shutdown rounds task0 ->
  let task := renew_until_stopped clock m shutdown rounds task0 in
  time (timed task) + TRUNCATION <= deadline task ->
  exists e, held_by (registry (timed task)) (time (timed task)) e /\
            store_now (time (timed task)) < e.
Proof.
  intros Hd Hp Hstart Htimely task Ht.
  unfold start in Hstart. destruct (renew_once_with_deadline _ _ _ _) as [s1 [c |]] eqn:E;
    simplify_eq.
  destruct (renewals_ok shutdown rounds _ Hd Htimely) as (e & Hends & _ & Hcov).
  { destruct (renewal_confirmed _ _ _ _ Hp E) as (Htime & _). destruct Hp as (? & ? & ?).
    change (covered (registry s0) (local_deadline c) (time s0)).
    apply (confirmed_covered p s); [done | done | rewrite Htime; lia | done]. }
  fold task in Hends, Hcov. apply Hends in Ht as Hlt. destruct Hcov as [(e' & ? & ?) | ?]; [| lia].
  exists e'. split; [done | lia].
Qed.

(** C7: Self-fencing: while the confirmed deadline is at least two milliseconds away, the registry
    shows this session's lease and by its own clock the lease has not expired, whatever the
    absolute offset between the clocks, however late the task was polled and whichever renewals
    failed or were dropped.  A running task that is polled at or past the deadline before it is
    told to stop reports the lease lost, and a task that reported it never renews again. *)
Theorem self_fencing p (s s0 : Timed W) task0 shutdown rounds :
  0 <= lease_duration_ms m -> forward p -> start clock m p s = (s0, Ok task0) ->
  timely_all shutdown rounds task0 ->
  let task := renew_until_stopped clock m shutdown rounds task0 in
  (time (timed task) + TRUNCATION <= deadline task ->
   exists e, held_by (registry (timed task)) (time (timed task)) e /\
             store_now (time (timed task)) < e) /\
  (forall r, running task = true -> select shutdown (deadline task) (wake r) <> Cancelled ->
     deadline task <= wake r ->
     lease_lost (renew_round clock m shutdown task r) = true) /\
  (lease_lost task = true -> forall rounds',
     renew_until_stopped clock m shutdown rounds' task = task).
Proof.
  intros Hd Hp Hstart Htimely task. split_and!; [by eapply window_covered | |].
  - intros r Hrun Hsel Hdead. unfold renew_round, wait_until_renewal, select in *.
    rewrite Hrun. case_match; [done |]. by rewrite (proj2 (Z.leb_le _ _) Hdead).
  - intros Hlost rounds'. assert (Hrun : running task = false).
    { revert Hlost. apply renewals_fenced. unfold start in Hstart. case_match.
      by case_match; simplify_eq. }
    clear Hlost Htimely. clearbody task.
    induction rounds' as [| r rounds' IH]; [done |]. simpl.
    replace (renew_round clock m shutdown task r) with task; [done |].
    unfold renew_round. by rewrite Hrun.
Qed.
End SelfFencing.

(** ** The PostgreSQL store keeps the promise

    [offset]: the server's clock less the host's; PostgreSQL reads microseconds
    and [::bigint] rounds to the nearest millisecond.  [faults]: which statements
    fail, before or after they ran. *)
Section Postgres.
Context (offset : Duration) (faults : nat -> Fault).

Definition pg_now_ms (t : Z) : Z := ((t + offset) / 1000 + 500) / 1000.

Definition pg_weather (t : Z) : nat -> Weather := fun n =>
  {| others := fun db => db; now := pg_now_ms t; later := pg_now_ms t; fault := faults n |}.

#[local] Instance pg_lease_registry : LeaseRegistry PgState := {|
  registry_register request t := PostgresHostLeaseStore.register (pg_weather t) request;
  registry_unregister id session t := PostgresHostLeaseStore.unregister (pg_weather t) id session;
  registry_register_dropped request t st :=
    (PostgresHostLeaseStore.register (pg_weather t) request st).1;
|}.

Definition pg_held (id : HostId) (session : string) (st : PgState) : option Z :=
  r ← host_leases (database st) !! id;
  if decide (row_session_id r = session) then Some (row_expires_at_ms r) else None.

Lemma pg_now_ms_mono t t' : t <= t' -> pg_now_ms t <= pg_now_ms t'.
Proof.
  intros Ht. unfold pg_now_ms. apply Z.div_le_mono; [lia |].
  apply Z.add_le_mono_r, Z.div_le_mono; lia.
Qed.

Lemma pg_now_ms_shift t ms : pg_now_ms (t + from_millis ms) = pg_now_ms t + ms.
Proof.
  unfold pg_now_ms, from_millis.
  replace (t + ms * 1000000 + offset) with (t + offset + ms * 1000 * 1000) by lia.
  rewrite Z.div_add by lia.
  replace ((t + offset) / 1000 + ms * 1000 + 500) with ((t + offset) / 1000 + 500 + ms * 1000) by lia.
  by rewrite Z.div_add by lia.
Qed.

(** Every outcome of a registration keeps the lease of its session or stamps it. *)
Definition keeps_or_stamps (request : HostLeaseRequest) (t : Z) (st st' : PgState) : Prop :=
  pg_held (lr_id request) (lr_session_id request) st'
    = pg_held (lr_id request) (lr_session_id request) st \/
  pg_held (lr_id request) (lr_session_id request) st'
    = Some (pg_now_ms t + lr_duration_ms request).

#[local] Instance keeps_or_stamps_preorder request t : PreOrder (keeps_or_stamps request t).
Proof.
  split; [by left |]. intros st1 st2 st3 [H1 | H1] [H2 | H2]; unfold keeps_or_stamps; rewrite H2; auto.
Qed.

Lemma upsert_held request now later db db' e n :
  upsert_lease (lr_id request) (lr_session_id request) (lr_route request) (lr_duration_ms request)
    now later db = Ok (db', e) ->
  pg_held (lr_id request) (lr_session_id request) {| database := db'; statements := n |}
  = match e with
    | Some _ => Some (now + lr_duration_ms request)
    | None => pg_held (lr_id request) (lr_session_id request) {| database := db; statements := n |}
    end.
Proof.
  intros H. destruct e as [e |].
  - apply upsert_lease_Ok in H as (-> & _ & H & _). unfold pg_held. simpl. rewrite H. simpl.
    by rewrite decide_True.
  - unfold upsert_lease in H. by inv_statement.
Qed.

Lemma register_keeps_or_stamps request t :
  respects (keeps_or_stamps request t)
    (PostgresHostLeaseStore.register (pg_weather t) request).
Proof.
  unfold PostgresHostLeaseStore.register. respecting.
  intros st st' r Hq. match goal with H : some_or _ _ = Ok _ |- _ => apply some_or_Ok in H as Hd end.
  apply i64_try_from_Some in Hd as [-> _]. unfold keeps_or_stamps.
  unfold query in Hq. simpl in Hq.
  destruct (faults _); [| by simplify_eq; left |];
    (destruct (upsert_lease _ _ _ _ _ _ _) as [[db' [x |]] |] eqn:E in Hq; simplify_eq;
     [right; by rewrite (upsert_held _ _ _ _ _ _ _ E)
     | left; by rewrite (upsert_held _ _ _ _ _ _ _ E)
     | by left]).
Qed.

(** The lease of the table, whatever the host's time. *)
Lemma stamped_in_table request t st st' l :
  PostgresHostLeaseStore.register (pg_weather t) request st = (st', Ok l) ->
  pg_held (lr_id request) (lr_session_id request) st'
  = Some (pg_now_ms t + lr_duration_ms request).
Proof.
  intros H. apply register_facts in H as (_ & Hs & _ & He & _ & _ & (r & Hr & <-) & _).
  unfold pg_held. rewrite Hr. simpl in *. rewrite decide_True by done. by f_equal.
Qed.

Lemma kept_in_table request t st st' :
  keeps_or_stamps request t st st' ->
  (forall e, pg_held (lr_id request) (lr_session_id request) st = Some e ->
             pg_held (lr_id request) (lr_session_id request) st' = Some e) \/
  exists e, pg_now_ms t + lr_duration_ms request <= e /\
            pg_held (lr_id request) (lr_session_id request) st' = Some e.
Proof. intros [-> | ->]; [by left |]. right. eexists. split; [| reflexivity]. lia. Qed.

#[local] Instance pg_lease_registry_laws : LeaseRegistryLaws PgState pg_lease_registry.
Proof.
  refine {| store_now := pg_now_ms; held id session st _ e := pg_held id session st = Some e;
            store_now_mono := pg_now_ms_mono; store_now_shift := pg_now_ms_shift |}.
  - done.
  - intros request t st st' l H. apply stamped_in_table in H. eexists. split; [| exact H]. lia.
  - intros request t st st' error H. by apply register_keeps_or_stamps, kept_in_table in H.
  - intros request t st _. apply kept_in_table. simpl.
    destruct (PostgresHostLeaseStore.register _ _ _) as [st' r] eqn:E.
    by apply register_keeps_or_stamps in E.
Defined.
End Postgres.

(** A host whose clock is two hours behind the server's; its second registration
    is lost on the way back, its third one succeeds. *)
Definition sample_offset : Duration := from_secs 7200.
Definition sample_faults (n : nat) : Fault :=
  match n with 1%nat => AfterStatement ["connection reset"] | _ => NoFault end.
Definition sample_clock : SystemClock :=
  {| anchor_wall := from_secs 1700000000; anchor_monotonic := 0 |}.
Definition sample_maintainer : HostLeaseMaintainer :=
  {| endpoint := {| endpoint_id := "host-a"; endpoint_route := "http://a" |};
     session_id := "s1"; lease_duration_ms := 30000; renew_every := from_secs 10 |}.
Definition sample_pace : Pace :=
  {| to_store := from_millis 3; from_store := from_millis 4; between_samples := 1000 |}.
Definition sample_round (at_ms : Z) : Round PgState :=
  {| wake := from_millis at_ms; meanwhile := fun w => w; pace := sample_pace;
     poll := from_millis (at_ms + 8); dropped_reaches := false |}.
Definition sample_begin : Timed PgState :=
  {| time := 0; registry := {| database := empty_database; statements := 0 |};
     consecutive_failures := 0 |}.
Definition sample_started : Timed PgState * anyhow (LeaseRenewalTask PgState) :=
  start (R := pg_lease_registry sample_offset sample_faults) sample_clock sample_maintainer
    sample_pace sample_begin.

Lemma self_fencing_witness :
  exists s0 task0, sample_started = (s0, Ok task0) /\
  let task := renew_until_stopped (R := pg_lease_registry sample_offset sample_faults)
    sample_clock sample_maintainer None [sample_round 10010; sample_round 20020] task0 in
  deadline task = from_millis 50020 /\
  exists e, pg_held "host-a" "s1" (registry (timed task)) = Some e /\
            pg_now_ms sample_offset (time (timed task)) < e.
Proof.
  eexists _, _. split; [vm_compute; reflexivity |]. split; [vm_compute; reflexivity |].
  edestruct (self_fencing (R := pg_lease_registry sample_offset sample_faults)
      (L := pg_lease_registry_laws sample_offset sample_faults)
      sample_clock sample_maintainer sample_pace sample_begin) as (H & _ & _);
    [by vm_compute | by vm_compute | vm_compute; reflexivity | | apply H; by vm_compute].
  split; [| split; [| exact I]]; split_and!;
    first [by vm_compute | intros w e Hheld _; exists e; split; [reflexivity | exact Hheld]].
Defined.

(** The slack is real: a registration that takes just under a millisecond opens a
    window in whose last millisecond the registry already counts the lease as
    expired. *)
Lemma window_may_outlast_lease :
  exists s0 task0 e,
    start (R := pg_lease_registry 0 sample_faults) sample_clock sample_maintainer
      {| to_store := 0; from_store := 999999; between_samples := 0 |} sample_begin
    = (s0, Ok task0) /\
    pg_held "host-a" "s1" (registry (timed task0)) = Some e /\
    e <= pg_now_ms 0 (deadline task0 - from_millis 1).
Proof.
  eexists _, _, _. split; [vm_compute; reflexivity |].
  split; [vm_compute; reflexivity | by vm_compute].
Qed.
