(* ===== verification/HostProcess.v ===== *)
(** * The host process

    [src/host/process.rs]: the configuration a host reads from its environment,
    the route it advertises, when it stops, and in which order it shuts down. *)
From Stdlib Require Import Sorted.
From S2P Require Import Prelude Net Identity SocketProtocol Tokens Database Leases LeaseMaintenance.
Local Open Scope string_scope.

Definition HOST_TASK_SHUTDOWN_TIMEOUT : Duration := from_secs 2.
Definition HOST_ACTOR_DRAIN_TIMEOUT : Duration := from_secs 5.
Definition DEFAULT_HOST_IDLE_TIMEOUT_MS : Z := 300000.
Definition MAX_IDLE_TIMEOUT_MS : Z := 86400000.

(** ** Environment variables *)

(** [str::parse::<u64>]: an optional plus sign, at least one digit, no overflow. *)
Fixpoint parse_digits (value : Z) (s : string) : option Z :=
  match s with
  | EmptyString => Some value
  | String a s =>
      if is_ascii_digit a
      then
        let value := (value * 10 + (Z.of_N (N_of_ascii a) - 48))%Z in
        if (value <=? u64_max)%Z then parse_digits value s else None
      else None
  end.
Definition parse_u64 (s : string) : option Z :=
  let digits := match strip_prefix "+" s with Some rest => rest | None => s end in
  if is_empty digits then None else parse_digits 0 digits.

(** What [Display] writes of a [u64] is parsed back. *)
Lemma pretty_N_char_value x :
  (x < 10)%N -> Z.of_N (N_of_ascii (pretty_N_char x)) = (Z.of_N x + 48)%Z.
Proof.
  intros H. assert (x = 0 \/ x = 1 \/ x = 2 \/ x = 3 \/ x = 4 \/ x = 5 \/ x = 6 \/ x = 7 \/ x = 8
                    \/ x = 9)%N as Hx by lia.
  by repeat destruct Hx as [-> | Hx]; [..| subst x].
Qed.

Lemma parse_digits_pretty x s :
  (Z.of_N x <= u64_max)%Z -> parse_digits 0 (pretty_N_go x s) = parse_digits (Z.of_N x) s.
Proof.
  revert s. induction (N.lt_wf_0 x) as [x _ IH]; intros s Hx.
  destruct (decide (x = 0)%N) as [-> | Hpos]; [by rewrite pretty_N_go_0 |].
  rewrite pretty_N_go_step by lia.
  pose proof (N.div_mod x 10 ltac:(done)) as Hdiv. pose proof (N.mod_lt x 10 ltac:(done)) as Hmod.
  assert (x / 10 < x)%N as Hlt by (apply N.div_lt; lia).
  revert Hdiv Hmod Hlt. generalize (x / 10)%N (x mod 10)%N. intros q m Hdiv Hmod Hlt.
  rewrite IH by lia. simpl. rewrite pretty_N_char_digit, pretty_N_char_value by done.
  replace (Z.of_N q * 10 + (Z.of_N m + 48 - 48))%Z with (Z.of_N x) by lia.
  by rewrite (proj2 (Z.leb_le _ _) Hx).
Qed.

Lemma pretty_N_go_nonempty x s : s <> "" -> pretty_N_go x s <> "".
Proof.
  revert s. induction (N.lt_wf_0 x) as [x _ IH]; intros s Hs.
  destruct (decide (x = 0)%N) as [-> | ?]; [by rewrite pretty_N_go_0 |].
  rewrite pretty_N_go_step by lia. apply IH; [apply N.div_lt; lia | done].
Qed.

Lemma display_u64_nonempty z : display_u64 z <> "".
Proof.
  unfold display_u64, pretty, pretty_N. case_decide; [done |].
  rewrite pretty_N_go_step by lia. by apply pretty_N_go_nonempty.
Qed.

Lemma parse_u64_display z : (0 <= z <= u64_max)%Z -> parse_u64 (display_u64 z) = Some z.
Proof.
  intros Hz. unfold parse_u64.
  assert (strip_prefix "+" (display_u64 z) = None) as ->.
  { destruct (strip_prefix "+" (display_u64 z)) as [r |] eqn:E; [| done].
    apply strip_prefix_Some in E. pose proof (display_u64_digits z) as H. by rewrite E in H. }
  rewrite (proj2 (is_empty_false _) (display_u64_nonempty z)).
  unfold display_u64, pretty, pretty_N. case_decide as H0.
  { assert (z = 0)%Z as -> by lia. done. }
  rewrite parse_digits_pretty by lia. simpl. f_equal. lia.
Qed.

Section Config.
Context {Uuids : UuidParser}.
(** [SocketAddr], [str::parse], [Display] and [is_ipv6]; what [tonic]'s
    [Endpoint::from_shared] accepts, with the URI's scheme and host. *)
Context {SocketAddr : Type} (parse_socket_addr : string -> anyhow SocketAddr)
        (display_socket_addr : SocketAddr -> string) (is_ipv6 : SocketAddr -> bool)
        (endpoint_from_shared : string -> anyhow (option string * option string)).
Context (get : string -> option string).

Definition required (name : string) : anyhow string :=
  value ← some_or (name +:+ " is required") (get name);
  ensure (negb (is_empty value)) (name +:+ " must not be empty");;
  Ok value.

(** [get(name).map(parse).transpose().with_context(..)?.unwrap_or(default)] *)
Definition number_or (name unit_ : string) (default : Z) : anyhow Z :=
  match get name with
  | None => Ok default
  | Some value =>
      some_or (name +:+ " must be an integer number of " +:+ unit_) (parse_u64 value)
  end.

Definition duration_ms (name : string) (default : Z) : anyhow Duration :=
  value ← number_or name "milliseconds" default;
  ensure (0 <? value)%Z (name +:+ " must be positive");;
  Ok (from_millis value).

Definition duration_seconds (name : string) (default : Z) : anyhow Duration :=
  value ← number_or name "seconds" default;
  ensure (0 <? value)%Z (name +:+ " must be positive");;
  Ok (from_secs value).

Record ActorHostConfig := {
  control_plane_url : string;
  host_token : string;
  jwt_public_keys : string;
  config_namespace_id : string;
  config_host_id : HostId;
  config_session_id : string;
  executor_socket : string;
  host_bind : SocketAddr;
  host_route : option string;
  public_route_file : option string;
  private_hostname : option string;
  route_file : option string;
  jwt_issuer : string;
  invocation_jwt_audience : string;
  jwt_max_lifetime : Duration;
  lease_duration : Duration;
  config_renew_every : Duration;
  host_idle_timeout : Duration;
}.

Definition or_default (default : string) (o : option string) : string :=
  match o with Some s => s | None => default end.

Definition default_bind (host_route public_route_file private_hostname : option string) : string :=
  if bool_decide (is_Some private_hostname) then "[::]:7101"
  else if bool_decide (is_Some host_route) || bool_decide (is_Some public_route_file)
  then "0.0.0.0:7101"
  else "127.0.0.1:0".

(** [ActorHostConfig::from_lookup] *)
Definition from_lookup : anyhow ActorHostConfig :=
  control_plane_url ← required "DURABLE_OBJECT_CONTROL_PLANE_URL";
  host_token ← required "DURABLE_OBJECT_HOST_TOKEN";
  jwt_public_keys ← required "DURABLE_OBJECT_JWT_PUBLIC_KEYS";
  namespace_id ← required "DURABLE_OBJECT_NAMESPACE_ID";
  ActorScope_validate {| scope_namespace_id := namespace_id |};;
  host_id ← required "DURABLE_OBJECT_HOST_ID";
  ensure (starts_with host_id ("host.v1." +:+ namespace_id +:+ "."))
    "DURABLE_OBJECT_HOST_ID does not belong to DURABLE_OBJECT_NAMESPACE_ID";;
  session_id ← required "DURABLE_OBJECT_SESSION_ID";
  ensure (uuid_ok session_id) "DURABLE_OBJECT_SESSION_ID must be a UUID";;
  let executor_socket :=
    or_default "/tmp/durable-object-executor.sock" (get "DURABLE_OBJECT_EXECUTOR_SOCKET") in
  let host_route := get "DURABLE_OBJECT_HOST_ROUTE" in
  (match host_route with
   | Some route =>
       with_context "DURABLE_OBJECT_HOST_ROUTE must be a valid HTTP or HTTPS URI"
         (endpoint_from_shared route);;
       Ok ()
   | None => Ok ()
   end);;
  let private_hostname := get "DURABLE_OBJECT_HOST_PRIVATE_HOSTNAME" in
  (match private_hostname with
   | Some hostname =>
       ensure (negb (is_empty hostname) && bool_decide (trim hostname = hostname))
         "DURABLE_OBJECT_HOST_PRIVATE_HOSTNAME must be non-empty without surrounding whitespace"
   | None => Ok ()
   end);;
  ensure (bool_decide (host_route = None) || bool_decide (private_hostname = None))
    "DURABLE_OBJECT_HOST_ROUTE and DURABLE_OBJECT_HOST_PRIVATE_HOSTNAME are mutually exclusive";;
  let route_file := get "DURABLE_OBJECT_HOST_ROUTE_FILE" in
  let public_route_file := get "DURABLE_OBJECT_HOST_PUBLIC_ROUTE_FILE" in
  ensure (bool_decide (public_route_file = None)
          || (bool_decide (host_route = None) && bool_decide (private_hostname = None)
              && bool_decide (route_file = None)))
    "DURABLE_OBJECT_HOST_PUBLIC_ROUTE_FILE cannot be combined with other host route settings";;
  host_bind ← with_context "DURABLE_OBJECT_HOST_BIND must be a socket address"
    (parse_socket_addr (or_default (default_bind host_route public_route_file private_hostname)
                          (get "DURABLE_OBJECT_HOST_BIND")));
  let jwt_issuer := or_default "durable-object-control-plane" (get "DURABLE_OBJECT_JWT_ISSUER") in
  let invocation_jwt_audience :=
    or_default "durable-object-invoke" (get "DURABLE_OBJECT_INVOKE_JWT_AUDIENCE") in
  jwt_max_lifetime ← duration_seconds "DURABLE_OBJECT_JWT_MAX_TTL_SECONDS" 1800;
  lease_duration ← duration_ms "DURABLE_OBJECT_LEASE_MS" 30000;
  renew_every ← duration_ms "DURABLE_OBJECT_RENEW_MS" 10000;
  host_idle_timeout ← duration_ms "DURABLE_OBJECT_HOST_IDLE_TIMEOUT_MS" DEFAULT_HOST_IDLE_TIMEOUT_MS;
  ensure (as_millis host_idle_timeout <=? MAX_IDLE_TIMEOUT_MS)%Z
    "DURABLE_OBJECT_HOST_IDLE_TIMEOUT_MS is too large";;
  ensure (as_millis lease_duration <=? MAX_HOST_LEASE_DURATION_MS)%Z
    "DURABLE_OBJECT_LEASE_MS is too large";;
  ensure (renew_every <? lease_duration)%Z
    "DURABLE_OBJECT_RENEW_MS must be shorter than DURABLE_OBJECT_LEASE_MS";;
  Ok {| control_plane_url := control_plane_url; host_token := host_token;
        jwt_public_keys := jwt_public_keys; config_namespace_id := namespace_id;
        config_host_id := host_id; config_session_id := session_id;
        executor_socket := executor_socket; host_bind := host_bind; host_route := host_route;
        public_route_file := public_route_file; private_hostname := private_hostname;
        route_file := route_file; jwt_issuer := jwt_issuer;
        invocation_jwt_audience := invocation_jwt_audience;
        jwt_max_lifetime := jwt_max_lifetime; lease_duration := lease_duration;
        config_renew_every := renew_every; host_idle_timeout := host_idle_timeout |}.

(** [invocation_auth] *)
Definition invocation_auth `{J : Jwt} `{Parser : UrlParser} (config : ActorHostConfig)
    : anyhow ActorJwtVerifier :=
  for_scope (jwt_public_keys config) (jwt_issuer config) (invocation_jwt_audience config)
    Invocation (jwt_max_lifetime config).

(** ** The advertised route *)

(** One look at the route file. *)
Inductive FileRead := Content (text : string) | NotFound | ReadFailed (e : Error).

(** [read_public_route] inside its timeout of 60 seconds: the looks at the file,
    50 ms apart, until the time is up. *)
Fixpoint read_public_route (looks : list FileRead) : anyhow string :=
  match looks with
  | [] => bail "public host route was not published within 60 seconds"
  | Content text :: looks =>
      let route := trim text in
      if is_empty route then read_public_route looks
      else
        endpoint ← with_context "public host route file must contain a valid HTTPS URI"
                     (endpoint_from_shared route);
        ensure (bool_decide (endpoint.1 = Some "https") && bool_decide (is_Some endpoint.2))
          "public host route must use HTTPS";;
        Ok route
  | NotFound :: looks => read_public_route looks
  | ReadFailed e :: _ => Err ("read public host route" :: e)
  end.

(** [lookup]: [lookup_host] at the bound port. *)
Definition advertised_route (config : ActorHostConfig) (bound : SocketAddr)
    (looks : list FileRead) (lookup : string -> anyhow (list SocketAddr)) : anyhow string :=
  match host_route config, public_route_file config, private_hostname config with
  | Some route, _, _ => Ok route
  | None, Some _, _ => read_public_route looks
  | None, None, None => Ok ("http://" +:+ display_socket_addr bound)
  | None, None, Some hostname =>
      addresses ← with_context ("resolve actor host private hostname " +:+ hostname)
                    (lookup hostname);
      address ← some_or ("actor host private hostname " +:+ hostname +:+ " has no IPv6 address")
                  (head (filter (fun a => is_ipv6 a = true) addresses));
      Ok ("http://" +:+ display_socket_addr address)
  end.
End Config.

(** ** When the host stops *)

(** What one turn of [wait_for_host_stop]'s [select!] takes. *)
Inductive StopEvent :=
| ServerEnded (r : anyhow ())
| ExecutorEnded (r : anyhow ())
| JavascriptExited (status : anyhow string)
| ShutdownRequested
| LeaseChanged (sender_gone lost : bool)
| ActivityChanged (sender_gone : bool) (active : Z)
| DeadlinePassed.

(** A turn: [active_before] is the number of activities when the turn began,
    where the [select!] evaluates the timer's precondition, [at_] the time its
    branch was taken. *)
Record Moment := { active_before : Z; at_ : Z; event : StopEvent }.

(** One turn: the result the loop breaks with, or the new idle deadline.  The
    timer's branch is disabled unless nothing was active when the turn began,
    and cannot be taken before the deadline: such a moment changes nothing. *)
Definition host_stop_turn (idle_timeout : Duration) (idle_deadline : Z) (now : Moment)
    : anyhow () + Z :=
  match event now with
  | ServerEnded r => inl (with_context "serve actor host network endpoints" r)
  | ExecutorEnded r => inl (with_context "run JavaScript actor executor" r)
  | JavascriptExited status =>
      inl (status ← status; bail ("JavaScript actor executor exited with " +:+ status))
  | ShutdownRequested => inl (Ok ())
  | LeaseChanged sender_gone lost =>
      if sender_gone || lost then inl (bail "host lease expired; host self-fenced")
      else inr idle_deadline
  | ActivityChanged sender_gone active =>
      if sender_gone then inl (bail "actor activity tracker stopped")
      else if (active =? 0)%Z then inr (at_ now + idle_timeout)%Z
      else inr idle_deadline
  | DeadlinePassed =>
      if (active_before now =? 0)%Z && (idle_deadline <=? at_ now)%Z then inl (Ok ())
      else inr idle_deadline
  end.

(** The loop over the moments its branches were taken at: how many turns it took
    to break, and the result; [None] while it still waits. *)
Fixpoint host_stop_loop (idle_timeout : Duration) (idle_deadline : Z) (moments : list Moment)
    : option (nat * anyhow ()) :=
  match moments with
  | [] => None
  | now :: moments =>
      match host_stop_turn idle_timeout idle_deadline now with
      | inl r => Some (O, r)
      | inr idle_deadline =>
          '(n, r) ← host_stop_loop idle_timeout idle_deadline moments;
          Some (S n, r)
      end
  end.

Definition wait_for_host_stop (started : Z) (idle_timeout : Duration) (moments : list Moment)
    : option (nat * anyhow ()) :=
  host_stop_loop idle_timeout (started + idle_timeout)%Z moments.

(** ** Shutting down *)

(** The steps [serve_actor_host] takes on its surroundings: starting (its three
    dependencies are awaited together by [try_join!], so a failure of one gives
    up the others), running, and stopping. *)
Inductive HostStep :=
| ConnectDependencies | StartRenewal | MarkReady | RunUntilStopped
| DrainActors | CancelTasks | JoinTasks | KillJavascript | StopRenewal | UnregisterLease.
#[export] Instance HostStep_eq_dec : EqDecision HostStep.
Proof. solve_decision. Defined.

(** [stop_host_tasks]: a drain that fails is logged. *)
Definition stop_host_tasks {W} (step : HostStep -> W -> W * anyhow ()) : M W Error () :=
  attempt (F := Error) (step DrainActors);;
  attempt (F := Error) (step CancelTasks);;
  attempt (F := Error) (step JoinTasks);;
  mret ().

Definition finish_actor_host {W} (step : HostStep -> W -> W * anyhow ())
    (stop_result : anyhow ()) : M W Error () :=
  stop_host_tasks step;;
  attempt (F := Error) (step KillJavascript);;
  renewal_result ← attempt (F := Error) (step StopRenewal);
  unregister_result ← attempt (F := Error) (step UnregisterLease);
  lift stop_result;;
  lift renewal_result;;
  lift unregister_result.

(** [prepare_actor_host]: [auth] is the verifier made of the configured keys,
    [maintainer] what [HostLeaseMaintainer::new] makes of it. *)
Definition prepare_actor_host {W A B} (step : HostStep -> W -> W * anyhow ())
    (auth : anyhow A) (maintainer : anyhow B) : M W Error (A * B) :=
  auth ← lift auth;
  step ConnectDependencies;;
  maintainer ← lift maintainer;
  step StartRenewal;;
  mret (auth, maintainer).

(** [serve_actor_host]: the run's result does not keep the host from stopping in order. *)
Definition serve_actor_host {W A B} (step : HostStep -> W -> W * anyhow ())
    (auth : anyhow A) (maintainer : anyhow B) : M W Error () :=
  prepare_actor_host step auth maintainer;;
  step MarkReady;;
  stop_result ← attempt (F := Error) (step RunUntilStopped);
  finish_actor_host step stop_result.

(** ** What the configuration guarantees *)

Section ConfigProofs.
Context {Uuids : UuidParser} {SocketAddr : Type} (parse_socket_addr : string -> anyhow SocketAddr)
        (endpoint_from_shared : string -> anyhow (option string * option string)).
Context (get : string -> option string).

Lemma required_Ok name value : required get name = Ok value -> get name = Some value /\ value <> "".
Proof.
  unfold required. intros H. inv_ok. bool_prop. split; [done |].
  match goal with H : is_empty _ = false |- _ => by apply is_empty_false in H end.
Qed.

Lemma duration_ms_Ok name default d :
  duration_ms get name default = Ok d -> exists ms, d = from_millis ms /\ (0 < ms)%Z.
Proof. unfold duration_ms. intros H. inv_ok. bool_prop. eauto. Qed.

Lemma as_millis_from_millis ms : as_millis (from_millis ms) = ms.
Proof. apply Z.div_mul. lia. Qed.

Lemma maintainer_accepted endpoint session_id lease_ms renew_ms :
  session_id <> "" -> (0 < lease_ms <= MAX_HOST_LEASE_DURATION_MS)%Z -> (0 < renew_ms)%Z ->
  (from_millis renew_ms < from_millis lease_ms)%Z ->
  HostLeaseMaintainer_new endpoint session_id (from_millis lease_ms) (from_millis renew_ms)
  = Ok {| endpoint := endpoint; session_id := session_id; lease_duration_ms := lease_ms;
          renew_every := from_millis renew_ms |}.
Proof.
  intros Hsession [Hpos Hmax] Hrenew Hlt. unfold HostLeaseMaintainer_new.
  rewrite as_millis_from_millis.
  rewrite (proj2 (u64_try_from_Some lease_ms lease_ms)) by (unfold MAX_HOST_LEASE_DURATION_MS, u64_max in *; lia).
  simpl. apply Z.ltb_lt in Hpos, Hlt. rewrite Hpos, Hlt.
  assert (is_zero (from_millis renew_ms) = false) as ->
    by (unfold is_zero, from_millis; apply Z.eqb_neq; lia).
  by destruct session_id.
Qed.

(** C38: Every configuration that is accepted can hold a lease: the maintainer is built from it, its
    requests pass the registry's bound of one minute, and the renewal interval is positive and
    shorter than the lease; the host id carries the namespace's prefix, the session is a UUID, the
    idle timeout is positive and at most a day, and at most one kind of route is given. *)
Theorem configured_host_can_lease config (route : string) :
  from_lookup parse_socket_addr endpoint_from_shared get = Ok config ->
  (exists m,
     HostLeaseMaintainer_new {| endpoint_id := config_host_id config; endpoint_route := route |}
       (config_session_id config) (lease_duration config) (config_renew_every config) = Ok m /\
     validate_duration (lease_request m) = Ok tt /\
     (0 < renew_every m < from_millis (lease_duration_ms m))%Z) /\
  starts_with (config_host_id config) ("host.v1." +:+ config_namespace_id config +:+ ".") = true /\
  uuid_ok (config_session_id config) = true /\
  (0 < host_idle_timeout config <= from_millis MAX_IDLE_TIMEOUT_MS)%Z /\
  (public_route_file config = None \/
   host_route config = None /\ private_hostname config = None /\ route_file config = None) /\
  (host_route config = None \/ private_hostname config = None).
Proof.
  intros H. unfold from_lookup in H. inv_ok.
  repeat match goal with
    | H : required _ _ = Ok _ |- _ => apply required_Ok in H as [? ?]
    | H : duration_ms _ _ _ = Ok _ |- _ => apply duration_ms_Ok in H as (? & -> & ?)
    end.
  rewrite !as_millis_from_millis in *. bool_prop. simpl. split_and!; try done.
  - eexists. split; [by apply maintainer_accepted; [| lia | ..] |]. split.
    + apply validate_duration_Ok. simpl. lia.
    + simpl. unfold from_millis in *. lia.
  - unfold from_millis, MAX_IDLE_TIMEOUT_MS in *. lia.
  - unfold from_millis, MAX_IDLE_TIMEOUT_MS in *. lia.
  - match goal with H : _ || _ && _ && _ = true |- _ => apply orb_true_iff in H as [? | ?] end;
      bool_prop; auto.
  - match goal with H : bool_decide _ || bool_decide _ = true |- _ =>
      apply orb_true_iff in H as [? | ?] end; bool_prop; auto.
Qed.
End ConfigProofs.

(** A small environment, with a parser that accepts every address. *)
Definition sample_environment (name : string) : option string :=
  list_to_map (M := gmap string string) [
    ("DURABLE_OBJECT_CONTROL_PLANE_URL", "http://127.0.0.1:7100");
    ("DURABLE_OBJECT_HOST_TOKEN", "host-jwt"); ("DURABLE_OBJECT_JWT_PUBLIC_KEYS", "{}");
    ("DURABLE_OBJECT_NAMESPACE_ID", "project-1");
    ("DURABLE_OBJECT_HOST_ID", "host.v1.project-1.revision-1.host-1");
    ("DURABLE_OBJECT_SESSION_ID", "00000000-0000-4000-8000-000000000001");
    ("DURABLE_OBJECT_LEASE_MS", "60000")] !! name.

Lemma configured_host_can_lease_witness :
  exists m, validate_duration (lease_request m) = Ok tt /\ lease_duration_ms m = 60000%Z.
Proof.
  eassert (from_lookup (Uuids := hyphenated_uuid_parser) (@Ok Error string)
             (fun _ => Ok (None, None)) sample_environment = Ok _) as E by (vm_compute; reflexivity).
  destruct (configured_host_can_lease _ _ _ _ "http://127.0.0.1:7101" E) as [(m & Hm & ? & _) _].
  exists m. split; [done |]. vm_compute in Hm. by injection Hm as <-.
Defined.

(** ** When the host stops by itself *)

(** The deadline that holds when a turn begins: the idle timeout after the last
    moment the activities came down to zero, or after the loop was entered. *)
Fixpoint idle_deadline_after (idle_timeout : Duration) (idle_deadline : Z) (moments : list Moment)
    : Z :=
  match moments with
  | [] => idle_deadline
  | now :: moments =>
      idle_deadline_after idle_timeout
        (match host_stop_turn idle_timeout idle_deadline now with
         | inl _ => idle_deadline
         | inr idle_deadline => idle_deadline
         end) moments
  end.

(** What made the loop break at a moment, and with which result. *)
Definition stop_reason (idle_deadline : Z) (now : Moment) (r : anyhow ()) : Prop :=
  match event now with
  | ServerEnded r' => r = with_context "serve actor host network endpoints" r'
  | ExecutorEnded r' => r = with_context "run JavaScript actor executor" r'
  | JavascriptExited _ => is_ok r = false
  | ShutdownRequested => r = Ok ()
  | LeaseChanged sender_gone lost =>
      sender_gone || lost = true /\ r = bail "host lease expired; host self-fenced"
  | ActivityChanged sender_gone _ => sender_gone = true /\ r = bail "actor activity tracker stopped"
  | DeadlinePassed => active_before now = 0%Z /\ (idle_deadline <= at_ now)%Z /\ r = Ok ()
  end.

(** A moment at which the activities came down to zero. *)
Definition became_idle (now : Moment) : bool :=
  match event now with
  | ActivityChanged sender_gone active => negb sender_gone && (active =? 0)%Z
  | _ => false
  end.

Lemma host_stop_turn_reason idle_timeout idle_deadline now r :
  host_stop_turn idle_timeout idle_deadline now = inl r -> stop_reason idle_deadline now r.
Proof.
  unfold host_stop_turn, stop_reason. destruct (event now); intros H; repeat case_match;
    simplify_eq; bool_prop; auto.
  - by destruct status.
Qed.

Lemma host_stop_turn_deadline idle_timeout idle_deadline now idle_deadline' :
  host_stop_turn idle_timeout idle_deadline now = inr idle_deadline' ->
  idle_deadline' = if became_idle now then (at_ now + idle_timeout)%Z else idle_deadline.
Proof.
  unfold host_stop_turn, became_idle.
  destruct (event now); intros H; repeat case_match; simplify_eq/=; done.
Qed.

(** The loop breaks at the first turn that yields a result. *)
Lemma host_stop_loop_Some idle_timeout idle_deadline moments n r :
  host_stop_loop idle_timeout idle_deadline moments = Some (n, r) ->
  exists now, moments !! n = Some now /\
    stop_reason (idle_deadline_after idle_timeout idle_deadline (take n moments)) now r.
Proof.
  revert idle_deadline n. induction moments as [| now moments IH]; intros idle_deadline n H;
    simpl in H; [done |].
  destruct (host_stop_turn idle_timeout idle_deadline now) as [r' | d] eqn:E; simpl in H.
  { simplify_eq. exists now. split; [done |]. by apply host_stop_turn_reason in E. }
  destruct (host_stop_loop idle_timeout d moments) as [[m r'] |] eqn:E'; simplify_eq/=.
  apply IH in E' as (now' & ? & ?). exists now'. split; [done |]. by rewrite E.
Qed.

Definition next_deadline (idle_timeout : Duration) (idle_deadline : Z) (now : Moment) : Z :=
  if became_idle now then (at_ now + idle_timeout)%Z else idle_deadline.

Lemma idle_deadline_after_cons idle_timeout idle_deadline now moments :
  idle_deadline_after idle_timeout idle_deadline (now :: moments)
  = idle_deadline_after idle_timeout (next_deadline idle_timeout idle_deadline now) moments.
Proof.
  simpl. f_equal. destruct (host_stop_turn idle_timeout idle_deadline now) as [r | d] eqn:E.
  - apply host_stop_turn_reason in E. unfold stop_reason, next_deadline, became_idle in *.
    destruct (event now); try done. by destruct E as [-> _].
  - by apply host_stop_turn_deadline in E.
Qed.

(** While the clock does not go back, the deadline only moves forward ... *)
Definition timeline (idle_timeout : Duration) (idle_deadline : Z) (moments : list Moment) : Prop :=
  StronglySorted (fun a b => at_ a <= at_ b)%Z moments /\
  Forall (fun now => idle_deadline <= at_ now + idle_timeout)%Z moments.

Lemma timeline_tail idle_timeout idle_deadline now moments :
  timeline idle_timeout idle_deadline (now :: moments) ->
  (idle_deadline <= next_deadline idle_timeout idle_deadline now)%Z /\
  timeline idle_timeout (next_deadline idle_timeout idle_deadline now) moments.
Proof.
  intros [Hsorted Hahead]. apply StronglySorted_inv in Hsorted as [Hsorted Hnow].
  inversion_clear Hahead as [| ? ? Hd Hrest]. unfold next_deadline.
  destruct (became_idle now); split; [lia | | lia | done].
  split; [done |]. eapply Forall_impl; [exact Hnow |]. simpl. lia.
Qed.

Lemma idle_deadline_after_mono idle_timeout idle_deadline moments n :
  timeline idle_timeout idle_deadline moments ->
  (idle_deadline <= idle_deadline_after idle_timeout idle_deadline (take n moments))%Z.
Proof.
  revert idle_deadline n. induction moments as [| now moments IH];
    intros idle_deadline [| n] H; simpl take; try (simpl; lia).
  rewrite idle_deadline_after_cons. apply timeline_tail in H as [Hle H].
  etrans; [exact Hle | by apply IH].
Qed.

(** ... and is an idle timeout after every moment the activities came down to zero. *)
Lemma idle_deadline_after_idle idle_timeout idle_deadline moments n m now :
  timeline idle_timeout idle_deadline moments ->
  m < n -> moments !! m = Some now -> became_idle now = true ->
  (at_ now + idle_timeout <= idle_deadline_after idle_timeout idle_deadline (take n moments))%Z.
Proof.
  revert idle_deadline n m. induction moments as [| first moments IH];
    intros idle_deadline n m H Hm Hnow Hidle; [done |].
  destruct n as [| n]; [lia |]. simpl take. rewrite idle_deadline_after_cons.
  apply timeline_tail in H as [_ H]. destruct m as [| m]; simplify_eq/=.
  - etrans; [| by apply idle_deadline_after_mono]. unfold next_deadline. by rewrite Hidle.
  - apply (IH _ _ m); [done | lia | done | done].
Qed.

(** A moment the loop cannot pass: a task ended, the signal came, the lease was lost. *)
Definition must_stop (now : Moment) : bool :=
  match event now with
  | ServerEnded _ | ExecutorEnded _ | JavascriptExited _ | ShutdownRequested => true
  | LeaseChanged sender_gone lost => sender_gone || lost
  | ActivityChanged sender_gone _ => sender_gone
  | DeadlinePassed => false
  end.

Lemma host_stop_loop_must_stop idle_timeout idle_deadline moments i now :
  moments !! i = Some now -> must_stop now = true ->
  exists n r, n <= i /\ host_stop_loop idle_timeout idle_deadline moments = Some (n, r).
Proof.
  revert idle_deadline i. induction moments as [| first moments IH]; intros d i Hnow Hstop; [done |].
  simpl. destruct (host_stop_turn idle_timeout d first) as [r | d'] eqn:E.
  { exists O, r. split; [lia | done]. }
  destruct i as [| i]; simplify_eq/=.
  - unfold host_stop_turn in E. unfold must_stop in Hstop.
    destruct (event now); simplify_eq/=; by rewrite Hstop in E.
  - destruct (IH d' i) as (n & r & ? & ->); [done | done |]. exists (S n), r. split; [lia | done].
Qed.

(** C37: A host stops at the first turn that has a reason, and never without one: it stops no later
    than the end of its server, its executor or its JavaScript process, the shutdown signal and the
    loss of its lease, which it reports as an error; it stops for idleness only after a turn that
    began without activity, an idle timeout after it started to wait and after every moment its
    activities came down to zero. *)
Theorem host_stops_for_a_reason started idle_timeout moments :
  StronglySorted (fun a b => at_ a <= at_ b)%Z moments ->
  Forall (fun now => started <= at_ now)%Z moments ->
  (forall i now, moments !! i = Some now -> must_stop now = true ->
     exists n r, n <= i /\ wait_for_host_stop started idle_timeout moments = Some (n, r)) /\
  (forall n r, wait_for_host_stop started idle_timeout moments = Some (n, r) ->
     exists now deadline,
       moments !! n = Some now /\ stop_reason deadline now r /\
       (started + idle_timeout <= deadline)%Z /\
       (forall m before, m < n -> moments !! m = Some before -> became_idle before = true ->
          (at_ before + idle_timeout <= deadline)%Z)).
Proof.
  intros Hsorted Hstart. unfold wait_for_host_stop. split.
  { intros i now. apply host_stop_loop_must_stop. }
  intros n r H. apply host_stop_loop_Some in H as (now & Hnow & Hreason).
  assert (timeline idle_timeout (started + idle_timeout) moments) as Htime.
  { split; [done |]. eapply Forall_impl; [exact Hstart |]. simpl. lia. }
  exists now, (idle_deadline_after idle_timeout (started + idle_timeout) (take n moments)).
  split_and!; [done | done | by apply idle_deadline_after_mono |].
  intros m before ? ? ?. by apply (idle_deadline_after_idle _ _ _ _ m).
Qed.

Definition sample_moments : list Moment := [
  {| active_before := 0; at_ := from_secs 10; event := ActivityChanged false 1 |};
  {| active_before := 1; at_ := from_secs 25; event := LeaseChanged false false |};
  {| active_before := 1; at_ := from_secs 40; event := ActivityChanged false 0 |};
  {| active_before := 0; at_ := from_secs 340; event := DeadlinePassed |} ].

Lemma host_stops_for_a_reason_witness :
  exists now deadline, now.(at_) = from_secs 340 /\ stop_reason deadline now (Ok ()) /\
    (from_secs 340 <= deadline)%Z.
Proof.
  destruct (host_stops_for_a_reason 0 (from_secs 300) sample_moments) as [_ Hwhy].
  - repeat constructor; vm_compute; discriminate.
  - repeat constructor; vm_compute; discriminate.
  - destruct (Hwhy 3 (Ok ()) eq_refl) as (now & deadline & Hnow & Hreason & _ & Hidle).
    exists now, deadline. split; [by simplify_eq/= |]. split; [done |].
    apply (Hidle 2 _ ltac:(lia) eq_refl eq_refl).
Defined.

(** ** Starting and stopping take their steps in order *)

Section Steps.
Context {W : Type} (step : HostStep -> W -> W * anyhow ()).

Definition taken (w : W) (steps : list HostStep) : W := foldl (fun w s => (step s w).1) w steps.
Definition succeeds (w : W) (steps : list HostStep) (s : HostStep) : bool :=
  is_ok (step s (taken w steps)).2.

(** [finish_actor_host] takes every step, whatever fails: each failure is kept for the end. *)
Lemma finish_actor_host_runs_all stop_result w :
  (finish_actor_host step stop_result w).1
  = taken w [DrainActors; CancelTasks; JoinTasks; KillJavascript; StopRenewal; UnregisterLease].
Proof.
  unfold taken, finish_actor_host, stop_host_tasks, mbind, M_bind, attempt, lift, mret, M_ret, foldl.
  repeat (match goal with |- context [step ?s ?w] =>
            lazymatch w with context [step] => fail | _ => destruct (step s w) as [? ?] end
          end; cbv beta iota delta [fst]).
  by repeat case_match; simplify_eq/=.
Qed.

(** Which steps a host takes: nothing without its keys, no lease without its
    dependencies and a well-formed lease; and once it runs, every step of the
    shutdown, the lease's unregistration last.  A host that cannot mark itself
    ready leaves its lease to expire. *)
Lemma serve_actor_host_steps {A B} (auth : anyhow A) (maintainer : anyhow B) w :
  (serve_actor_host step auth maintainer w).1
  = taken w
      (if negb (is_ok auth) then []
       else if negb (succeeds w [] ConnectDependencies) || negb (is_ok maintainer)
            then [ConnectDependencies]
       else if negb (succeeds w [ConnectDependencies] StartRenewal)
            then [ConnectDependencies; StartRenewal]
       else if negb (succeeds w [ConnectDependencies; StartRenewal] MarkReady)
            then [ConnectDependencies; StartRenewal; MarkReady]
       else [ConnectDependencies; StartRenewal; MarkReady; RunUntilStopped;
             DrainActors; CancelTasks; JoinTasks; KillJavascript; StopRenewal; UnregisterLease]).
Proof.
  destruct auth as [auth | e]; [| done].
  unfold serve_actor_host, prepare_actor_host, succeeds, taken, mbind, M_bind, lift, mret, M_ret.
  simpl. destruct (step ConnectDependencies w) as [w1 [[] | e1]] eqn:E1; simpl; [| by rewrite E1].
  destruct maintainer as [maintainer | e]; simpl; [| by rewrite E1].
  destruct (step StartRenewal w1) as [w2 [[] | e2]] eqn:E2; simpl; [| by rewrite E1; simpl; rewrite E2].
  destruct (step MarkReady w2) as [w3 [[] | e3]] eqn:E3; simpl;
    [| by rewrite E1; simpl; rewrite E2; simpl; rewrite E3].
  unfold attempt at 1. destruct (step RunUntilStopped w3) as [w4 r4] eqn:E4.
  rewrite finish_actor_host_runs_all. unfold taken. simpl.
  by rewrite E1; simpl; rewrite E2; simpl; rewrite E3; simpl; rewrite E4.
Qed.
End Steps.
