(* ===== verification/Admin.v ===== *)
(** * Deployments and administration

    The deployment a namespace runs, its registry in PostgreSQL and the admin
    service in front of it ([src/control_plane/admin.rs]). *)
From S2P Require Import Prelude Net Identity SocketProtocol StorageUrls Tokens Database Leases.
Local Open Scope string_scope.

Record HostLaunchSpec := {
  spec_namespace_id : string;
  spec_code_revision : string;
  image_ref : string;
  working_directory : string;
  actor_entrypoint : option string;
}.
#[export] Instance HostLaunchSpec_eq_dec : EqDecision HostLaunchSpec.
Proof. solve_decision. Defined.

(** [admin::validate_component] *)
Definition validate_component (name value : string) (maximum : Z) : anyhow () :=
  ensure (negb (is_empty value)) (name +:+ " must not be empty");;
  ensure (len value <=? maximum)%Z
    (name +:+ " must be at most " +:+ display_u64 maximum +:+ " bytes");;
  ensure (all_bytes (fun a => is_ascii_alphanumeric a || is_dash_underscore_dot a) value)
    (name +:+ " contains unsupported characters").

Definition validate_namespace (namespace_id : string) : anyhow () :=
  ActorScope_validate {| scope_namespace_id := namespace_id |}.

Definition HostLaunchSpec_validate (s : HostLaunchSpec) : anyhow () :=
  ActorScope_validate {| scope_namespace_id := spec_namespace_id s |};;
  validate_component "code revision" (spec_code_revision s) 128;;
  ensure (negb (is_empty (image_ref s)) && (len (image_ref s) <=? 255)%Z)
    "sandbox image reference must contain between 1 and 255 bytes";;
  ensure (starts_with (working_directory s) "/" && (len (working_directory s) <=? 1024)%Z)
    "host working directory must be an absolute path of at most 1024 bytes";;
  match actor_entrypoint s with
  | Some entrypoint =>
      ensure (negb (is_empty entrypoint) && (len entrypoint <=? 1024)%Z)
        "actor entrypoint must contain between 1 and 1024 bytes"
  | None => Ok ()
  end.

Definition row_of_spec (s : HostLaunchSpec) : SpecRow :=
  {| row_code_revision := spec_code_revision s; row_image_ref := image_ref s;
     row_working_directory := working_directory s; row_actor_entrypoint := actor_entrypoint s |}.
Definition spec_of_row (namespace_id : string) (r : SpecRow) : HostLaunchSpec :=
  {| spec_namespace_id := namespace_id; spec_code_revision := row_code_revision r;
     image_ref := row_image_ref r; working_directory := row_working_directory r;
     actor_entrypoint := row_actor_entrypoint r |}.

(** The trait [AdminRegistry]. *)
Class AdminRegistry := {
  ensure_namespace_and_register_deployment : HostLaunchSpec -> M PgState Error bool;
  launch_spec : string -> M PgState Error (option HostLaunchSpec);
}.

Section Postgres.
Context (weather : nat -> Weather).

Definition postgres_register (spec : HostLaunchSpec) : M PgState Error bool :=
  lift (HostLaunchSpec_validate spec);;
  rows ← M_context "ensure PostgreSQL namespace and register project deployment"
           (query weather (upsert_project_spec (spec_namespace_id spec) (row_of_spec spec)));
  mret (rows =? 1)%Z.

Definition postgres_launch_spec (namespace_id : string) : M PgState Error (option HostLaunchSpec) :=
  lift (validate_namespace namespace_id);;
  row ← M_context "load PostgreSQL host launch spec"
          (query weather (select_project_spec namespace_id));
  mret (spec_of_row namespace_id <$> row).

Definition PostgresAdminRegistry : AdminRegistry := {|
  ensure_namespace_and_register_deployment := postgres_register;
  launch_spec := postgres_launch_spec;
|}.
End Postgres.

(** [LocalAdminRegistry], the registry of the repository's tests: a set and a map
    behind a mutex that is never poisoned. *)
Module LocalAdminRegistry.
Record LocalAdminState := {
  local_namespaces : gset string;
  launch_specs : gmap string HostLaunchSpec;
}.

Definition default : LocalAdminState := {| local_namespaces := ∅; launch_specs := ∅ |}.

Definition ensure_namespace_and_register_deployment (spec : HostLaunchSpec)
    : M LocalAdminState Error bool :=
  lift (HostLaunchSpec_validate spec);;
  modify (fun s => {| local_namespaces := {[ spec_namespace_id spec ]} ∪ local_namespaces s;
                      launch_specs := launch_specs s |});;
  changed ← gets (fun s => negb (bool_decide (launch_specs s !! spec_namespace_id spec = Some spec)));
  modify (fun s => {| local_namespaces := local_namespaces s;
                      launch_specs := <[ spec_namespace_id spec := spec ]> (launch_specs s) |});;
  mret changed.

Definition launch_spec (namespace_id : string) : M LocalAdminState Error (option HostLaunchSpec) :=
  lift (validate_namespace namespace_id);;
  gets (fun s => launch_specs s !! namespace_id).
End LocalAdminRegistry.

Section Service.
Context `{T : Jwt} {R : AdminRegistry}.

Record AdminService := { admin_token : string; admin_issuer : ActorJwtIssuer }.

Definition AdminService_new (token : string) (issuer : ActorJwtIssuer) : anyhow AdminService :=
  ensure (negb (is_empty token) && bool_decide (trim token = token)) "admin token is invalid";;
  Ok {| admin_token := token; admin_issuer := issuer |}.

Definition admin_authenticate (s : AdminService) (authorization : string) : anyhow () :=
  token ← some_or "admin credential must use Bearer authentication"
            (strip_prefix "Bearer " authorization);
  ensure (negb (is_empty token) && bool_decide (trim token = token)
          && bool_decide (token = admin_token s))
    "admin credential is invalid".

Definition current_deployment (namespace_id : string) : M PgState Error (option HostLaunchSpec) :=
  launch_spec namespace_id.

Definition deployment_exists (namespace_id : string) : M PgState Error bool :=
  spec ← launch_spec namespace_id;
  mret (bool_decide (is_Some spec)).

Definition issue_workflow_token (s : AdminService) (elapsed : option Z) (uuid1 uuid2 : string)
    (namespace_id execution_id storage_region : string) (deadline_unix_ms : Z)
    (private_routing : bool) : anyhow IssuedActorToken :=
  issue_workflow (admin_issuer s) elapsed uuid1 uuid2 namespace_id execution_id storage_region
    deadline_unix_ms private_routing.

(** [AdminService::ensure_namespace_and_register_deployment]: to the registry. *)
Definition register_deployment (spec : HostLaunchSpec) : M PgState Error bool :=
  ensure_namespace_and_register_deployment spec.
End Service.

(** ** Registration *)

Lemma spec_of_row_of_spec s : spec_of_row (spec_namespace_id s) (row_of_spec s) = s.
Proof. by destruct s. Qed.

(** Registering a deployment takes effect at one moment and says whether it
    did: afterwards the namespace exists and runs exactly this (validated)
    specification, every other namespace runs what it ran, placements and
    leases are untouched, and the answer is "changed" if and only if the
    namespace ran something else before. *)
Lemma registration_replaces_deployment
    (weather : nat -> Weather) (spec : HostLaunchSpec) (st st' : PgState) (changed : bool)
    (H : postgres_register weather spec st = (st', Ok changed)) :
  let db := others (weather (Database.statements st)) (database st) in
  HostLaunchSpec_validate spec = Ok tt /\
  (spec_of_row (spec_namespace_id spec) <$> project_specs (database st') !! spec_namespace_id spec)
    = Some spec /\
  spec_namespace_id spec ∈ namespaces (database st') /\
  (forall n, n <> spec_namespace_id spec ->
     project_specs (database st') !! n = project_specs db !! n) /\
  placements (database st') = placements db /\ host_leases (database st') = host_leases db /\
  (changed = false <->
   (spec_of_row (spec_namespace_id spec) <$> project_specs db !! spec_namespace_id spec) = Some spec).
Proof.
  unfold postgres_register in H. inv_client. unfold upsert_project_spec in *.
  assert (Hinj : forall r, r = row_of_spec spec <-> spec_of_row (spec_namespace_id spec) r = spec).
  { intros r. destruct r, spec. unfold row_of_spec, spec_of_row. simpl. split; congruence. }
  split; [done |].
  destruct (project_specs (others _ _) !! spec_namespace_id spec) as [r |] eqn:E.
  - case_bool_decide as Hr; simplify_eq/=;
      match goal with Hdb : _ = database _ |- _ => rewrite <- Hdb; simpl end.
    + rewrite E. simpl. rewrite spec_of_row_of_spec. clear Hinj. set_solver.
    + rewrite lookup_insert_eq. simpl. rewrite spec_of_row_of_spec.
      repeat split; try done; [clear Hinj; set_solver | intros; by rewrite lookup_insert_ne |].
      intros [= Hs]. by apply Hinj in Hs.
  - simplify_eq/=. match goal with Hdb : _ = database _ |- _ => rewrite <- Hdb; simpl end.
    rewrite lookup_insert_eq. simpl. rewrite spec_of_row_of_spec.
    repeat split; try done; [clear Hinj; set_solver |]. intros; by rewrite lookup_insert_ne.
Qed.

(** *** The registry of the tests is the same table *)

(** The specifications of the table, as the local registry keeps them. *)
Definition local_view (db : Database) : LocalAdminRegistry.LocalAdminState :=
  {| LocalAdminRegistry.local_namespaces := namespaces db;
     LocalAdminRegistry.launch_specs :=
       map_imap (fun ns row => Some (spec_of_row ns row)) (project_specs db) |}.

Lemma local_view_lookup db ns :
  LocalAdminRegistry.launch_specs (local_view db) !! ns = spec_of_row ns <$> project_specs db !! ns.
Proof. simpl. rewrite map_lookup_imap. by destruct (project_specs db !! ns). Qed.

Lemma local_view_insert db ns spec :
  map_imap (fun ns row => Some (spec_of_row ns row)) (<[ ns := row_of_spec spec ]> (project_specs db)) =
  <[ ns := spec_of_row ns (row_of_spec spec) ]> (LocalAdminRegistry.launch_specs (local_view db)).
Proof.
  apply map_eq. intros ns'. rewrite map_lookup_imap. destruct (decide (ns' = ns)) as [-> | Hne].
  - by rewrite !lookup_insert_eq.
  - rewrite !lookup_insert_ne by done. simpl. by rewrite map_lookup_imap.
Qed.

(** On an undisturbed database the two registries give the same answers and stay
    the same, a rejected specification or namespace included. *)
Lemma registries_agree (t : Z) (spec : HostLaunchSpec) (ns : string) (st : PgState) :
  (let '(st', x) := postgres_register (calm t) spec st in
   let '(s', y) := LocalAdminRegistry.ensure_namespace_and_register_deployment spec
                     (local_view (database st)) in
   local_view (database st') = s' /\ x = y) /\
  (let '(st', x) := postgres_launch_spec (calm t) ns st in
   let '(s', y) := LocalAdminRegistry.launch_spec ns (local_view (database st)) in
   local_view (database st') = s' /\ x = y).
Proof.
  unfold postgres_register, postgres_launch_spec, LocalAdminRegistry.launch_spec,
    LocalAdminRegistry.ensure_namespace_and_register_deployment,
    mbind, M_bind, lift, gets, modify, M_context, mret, M_ret. split.
  - destruct (HostLaunchSpec_validate spec) as [[] | e]; [| done].
    unfold query, upsert_project_spec. cbn [fault calm others].
    assert (Hsame : forall row, row = row_of_spec spec <->
              spec_of_row (spec_namespace_id spec) row = spec).
    { intros row. destruct row, spec. unfold row_of_spec, spec_of_row. simpl. split; congruence. }
    pose proof (local_view_lookup (database st) (spec_namespace_id spec)) as Hl.
    set (view := local_view (database st)) in *.
    destruct (project_specs (database st) !! spec_namespace_id spec) as [row |] eqn:Hrow; simpl in Hl.
    + case_bool_decide as Hr; simpl; rewrite Hl.
      * apply Hsame in Hr as Hr'. rewrite Hr', bool_decide_eq_true_2 by done. simpl. split; [| done].
        unfold local_view. simpl. f_equal. symmetry. apply insert_id. by rewrite Hl, Hr'.
      * rewrite bool_decide_eq_false_2 by (intros [= Hs]; by apply Hr, Hsame). split; [| done].
        unfold local_view. simpl. f_equal. by rewrite local_view_insert, spec_of_row_of_spec.
    + simpl. rewrite Hl, bool_decide_eq_false_2 by done. split; [| done].
      unfold local_view. simpl. f_equal. by rewrite local_view_insert, spec_of_row_of_spec.
  - destruct (validate_namespace ns) as [[] | e]; [| done]. simpl. split; [done |].
    by rewrite map_lookup_imap; destruct (project_specs (database st) !! ns).
Qed.

Definition sample_spec : HostLaunchSpec :=
  {| spec_namespace_id := "acme"; spec_code_revision := "r1"; image_ref := "im-1";
     working_directory := "/workspace"; actor_entrypoint := Some "src/actors.ts" |}.

Lemma registration_replaces_deployment_witness :
  exists st', postgres_register (calm 1000) sample_spec
      {| database := empty_database; Database.statements := 0 |} = (st', Ok true) /\
    "acme" ∈ namespaces (database st').
Proof.
  eexists. split; [vm_compute; reflexivity |].
  edestruct (registration_replaces_deployment (calm 1000) sample_spec
    {| database := empty_database; Database.statements := 0 |}) as (_ & _ & H & _);
    [vm_compute; reflexivity | exact H].
Defined.
