(* ===== verification/Placement.v ===== *)
(** * Object placements

    Who owns an actor, in which epoch, and which snapshot is its current state
    ([src/placement.rs]): the placement data, the in-memory store, the
    PostgreSQL store, and the abstract register both refine. *)
From S2P Require Import Prelude Identity Database Leases.
Local Open Scope string_scope.

Record ObjectPlacement := {
  object : ActorStorageKey;
  owner : HostId;
  owner_epoch : Z;
  home_region : string;
  state_version : Z;
  state_object : option string;
  last_request_id : option string;
}.
#[export] Instance ObjectPlacement_eq_dec : EqDecision ObjectPlacement.
Proof. solve_decision. Defined.

Inductive PlacementClaim :=
| Acquired (p : ObjectPlacement)
| CurrentClaim (p : ObjectPlacement).

Record StateCommitRequest := {
  sc_object : ActorStorageKey;
  sc_owner : HostId;
  sc_session_id : string;
  sc_owner_epoch : Z;
  sc_expected_version : Z;
  sc_state_object : string;
  sc_request_id : string;
}.
#[export] Instance StateCommitRequest_eq_dec : EqDecision StateCommitRequest.
Proof. solve_decision. Defined.

Inductive StateCommit :=
| Committed (p : ObjectPlacement)
| CurrentState (p : ObjectPlacement).

Definition validate_state_commit (r : StateCommitRequest) : anyhow () :=
  ActorStorageKey_validate (sc_object r);;
  ensure (negb (is_empty (sc_owner r))) "state commit owner is empty";;
  ensure (negb (is_empty (sc_session_id r))) "state commit session is empty";;
  ensure (0 <? sc_owner_epoch r)%Z "state commit owner epoch must be positive";;
  ensure (negb (is_empty (sc_state_object r)) && (len (sc_state_object r) <=? 1024)%Z)
    "state commit object name is invalid";;
  ensure (negb (is_empty (sc_request_id r)) && (len (sc_request_id r) <=? 255)%Z)
    "state commit request ID is invalid".

Definition is_replayed_commit (current : ObjectPlacement) (r : StateCommitRequest) : bool :=
  (state_version current =? u64_saturating_add (sc_expected_version r) 1)%Z
  && bool_decide (state_object current = Some (sc_state_object r))
  && bool_decide (last_request_id current = Some (sc_request_id r)).

(** The head [current] advanced by the commit [r]. *)
Definition advance (current : ObjectPlacement) (version : Z) (r : StateCommitRequest)
    : ObjectPlacement :=
  {| object := object current; owner := owner current; owner_epoch := owner_epoch current;
     home_region := home_region current; state_version := version;
     state_object := Some (sc_state_object r);
     last_request_id := Some (sc_request_id r) |}.

Module LocalObjectPlacementStore.

(** [Mutex<HashMap<ActorStorageKey, ObjectPlacement>>]; nothing panics while
    the lock is held, so it is never poisoned. *)
Abbreviation Store := (gmap ActorStorageKey ObjectPlacement).

Definition get (obj : ActorStorageKey) : M Store Error (option ObjectPlacement) :=
  gets (fun s => s !! obj).

Definition claim (obj : ActorStorageKey) (expected : option ObjectPlacement)
    (new_owner : HostId) (region : string) : M Store Error PlacementClaim :=
  lift (validate_region region);;
  placements ← gets (fun s => s);
  match placements !! obj with
  | None =>
      match expected with
      | None =>
          let placement := {| object := obj; owner := new_owner; owner_epoch := 1;
                              home_region := region; state_version := 0;
                              state_object := None; last_request_id := None |} in
          modify <[ obj := placement ]>;;
          mret (Acquired placement)
      | Some _ => lift (bail "expected object placement no longer exists")
      end
  | Some current =>
      if bool_decide (expected = Some current) then
        lift (ensure (bool_decide (home_region current = region))
                "object home region cannot change");;
        if bool_decide (owner current = new_owner) then mret (CurrentClaim current)
        else
          epoch ← lift (some_or "object owner epoch overflow"
                          (u64_checked_add (owner_epoch current) 1));
          let placement := {| object := obj; owner := new_owner; owner_epoch := epoch;
                              home_region := region;
                              state_version := state_version current;
                              state_object := state_object current;
                              last_request_id := last_request_id current |} in
          modify <[ obj := placement ]>;;
          mret (Acquired placement)
      else mret (CurrentClaim current)
  end.

Definition commit_state (r : StateCommitRequest) : M Store Error StateCommit :=
  lift (validate_state_commit r);;
  placements ← gets (fun s => s);
  current ← lift (some_or "actor placement does not exist" (placements !! sc_object r));
  if is_replayed_commit current r then mret (Committed current)
  else if negb (bool_decide (owner current = sc_owner r))
          || negb (owner_epoch current =? sc_owner_epoch r)%Z
          || negb (state_version current =? sc_expected_version r)%Z
  then mret (CurrentState current)
  else
    version ← lift (some_or "actor state version overflow"
                      (u64_checked_add (state_version current) 1));
    let committed := advance current version r in
    modify <[ sc_object r := committed ]>;;
    mret (Committed committed).
End LocalObjectPlacementStore.

Definition placement_from_row (obj : ActorStorageKey) (row : PlacementRow)
    : anyhow ObjectPlacement :=
  epoch ← u64_from_i64 "PostgreSQL object owner epoch is negative" (row_owner_epoch row);
  version ← u64_from_i64 "PostgreSQL actor state version is negative" (row_state_version row);
  Ok {| object := obj; owner := row_owner_host_id row; owner_epoch := epoch;
        home_region := row_home_region row; state_version := version;
        state_object := row_state_object row; last_request_id := row_last_request_id row |}.

Module PostgresObjectPlacementStore.
Section Store.
Context (weather : nat -> Weather).

Definition get (obj : ActorStorageKey) : M PgState Error (option ObjectPlacement) :=
  row ← M_context "load PostgreSQL object placement"
          (query weather (select_placement obj));
  match row with
  | Some row => p ← lift (placement_from_row obj row); mret (Some p)
  | None => mret None
  end.

Definition current_claim (obj : ActorStorageKey) : M PgState Error PlacementClaim :=
  current ← get obj;
  lift (some_or "object placement disappeared during claim" (CurrentClaim <$> current)).

Definition claim (obj : ActorStorageKey) (expected : option ObjectPlacement)
    (new_owner : HostId) (region : string) : M PgState Error PlacementClaim :=
  lift (ActorStorageKey_validate obj);;
  lift (validate_region region);;
  match expected with
  | None =>
      row ← M_context "insert PostgreSQL object placement"
              (query weather (insert_placement obj new_owner region));
      match row with
      | Some row => p ← lift (placement_from_row obj row); mret (Acquired p)
      | None => current_claim obj
      end
  | Some expected =>
      lift (ensure (bool_decide (object expected = obj)
                    && bool_decide (home_region expected = region))
              "expected object placement does not match the claim");;
      if bool_decide (owner expected = new_owner) then current_claim obj
      else
        expected_epoch ← lift (i64_from_u64
          "object owner epoch exceeds PostgreSQL BIGINT" (owner_epoch expected));
        row ← M_context "claim PostgreSQL object placement"
                (query weather (transfer_placement obj new_owner (owner expected)
                                  expected_epoch region));
        match row with
        | Some row => p ← lift (placement_from_row obj row); mret (Acquired p)
        | None => current_claim obj
        end
  end.

Definition commit_state (r : StateCommitRequest) : M PgState Error StateCommit :=
  lift (validate_state_commit r);;
  expected_epoch ← lift (i64_from_u64
    "object owner epoch exceeds PostgreSQL BIGINT" (sc_owner_epoch r));
  expected_version ← lift (i64_from_u64
    "actor state version exceeds PostgreSQL BIGINT" (sc_expected_version r));
  row ← M_context "commit PostgreSQL actor state head"
          (query weather (update_state_head (sc_object r) (sc_owner r) expected_epoch
             expected_version (sc_session_id r) (sc_state_object r) (sc_request_id r)));
  match row with
  | Some row => p ← lift (placement_from_row (sc_object r) row); mret (Committed p)
  | None =>
      found ← get (sc_object r);
      current ← lift (some_or "actor placement disappeared during state commit" found);
      mret (if is_replayed_commit current r then Committed current else CurrentState current)
  end.
End Store.
End PostgresObjectPlacementStore.

(** ** Rows and placements *)

Definition placement_of_row (obj : ActorStorageKey) (row : PlacementRow) : ObjectPlacement :=
  {| object := obj; owner := row_owner_host_id row; owner_epoch := row_owner_epoch row;
     home_region := row_home_region row; state_version := row_state_version row;
     state_object := row_state_object row; last_request_id := row_last_request_id row |}.

Lemma placement_from_row_Ok obj row p :
  placement_from_row obj row = Ok p -> p = placement_of_row obj row.
Proof.
  unfold placement_from_row. intros H. inv_ok.
  repeat match goal with H : u64_from_i64 _ _ = _ |- _ => apply u64_from_i64_Ok in H as [-> _] end.
  done.
Qed.

(** The table shows the placement [p]. *)
Definition shows (db : Database) (p : ObjectPlacement) : Prop :=
  exists row, placements db !! object p = Some row /\ p = placement_of_row (object p) row.

Lemma shows_intro db obj row p :
  placements db !! obj = Some row -> placement_from_row obj row = Ok p ->
  shows db p /\ object p = obj.
Proof. intros Hrow ->%placement_from_row_Ok. simpl. split; [by exists row | done]. Qed.

Lemma get_Ok weather obj st st' p :
  PostgresObjectPlacementStore.get weather obj st = (st', Ok (Some p)) ->
  database st' = others (weather (statements st)) (database st) /\
  shows (database st') p /\ object p = obj.
Proof.
  unfold PostgresObjectPlacementStore.get. intros H. inv_client.
  match goal with H : select_placement _ _ _ _ = _ |- _ =>
    unfold select_placement in H; injection H as Hdb <- end.
  destruct (placements _ !! obj) as [row |] eqn:E; inv_client.
  split; [done |]. eapply shows_intro; [| done].
  match goal with H : _ = database _ |- _ => rewrite <- H end. done.
Qed.

(** ** The effect of the two updates *)

(** The condition the [UPDATE] puts on a commit: the named epoch of the named
    owner is current, the version is the expected one and the session holds an
    unexpired lease for the owner. *)
Definition may_commit (db : Database) (now : Z) (r : StateCommitRequest) : Prop :=
  exists row, placements db !! sc_object r = Some row /\
    row_owner_host_id row = sc_owner r /\ row_owner_epoch row = sc_owner_epoch r /\
    row_state_version row = sc_expected_version r /\
    holds db (sc_owner r) (sc_session_id r) now.

Definition committed_row (row : PlacementRow) (r : StateCommitRequest) : PlacementRow :=
  {| row_owner_host_id := sc_owner r; row_owner_epoch := sc_owner_epoch r;
     row_home_region := row_home_region row;
     row_state_version := sc_expected_version r + 1;
     row_state_object := Some (sc_state_object r);
     row_last_request_id := Some (sc_request_id r) |}.

Definition state_head_update (r : StateCommitRequest) : Statement (option PlacementRow) :=
  update_state_head (sc_object r) (sc_owner r) (sc_owner_epoch r) (sc_expected_version r)
    (sc_session_id r) (sc_state_object r) (sc_request_id r).

Lemma update_state_head_Some r now later db db' row' :
  state_head_update r now later db = Ok (db', Some row') ->
  may_commit db now r /\
  exists row, placements db !! sc_object r = Some row /\ row' = committed_row row r /\
    db' = set_placements <[ sc_object r := row' ]> db /\
    (sc_expected_version r + 1 <= i64_max)%Z.
Proof.
  intros H. unfold state_head_update, update_state_head in H. inv_statement.
  match goal with Hp : placements db !! _ = Some ?row |- _ =>
    split; [exists row; repeat split; try done; eexists; done | exists row; repeat split] end;
    unfold committed_row; (done || congruence || lia).
Qed.

Lemma update_state_head_None r now later db db' :
  state_head_update r now later db = Ok (db', None) -> db' = db /\ ~ may_commit db now r.
Proof.
  intros H. unfold state_head_update, update_state_head in H.
  inv_statement; (split; [done |]); intros (? & ? & ? & ? & ? & (? & ? & ? & ?)); simplify_eq.
  match goal with H : _ && _ = false |- _ => apply not_true_iff_false in H; apply H end.
  rewrite !andb_true_iff, !bool_decide_eq_true, !Z.eqb_eq, Z.ltb_lt. done.
Qed.

Lemma state_head_update_may r now later db :
  may_commit db now r ->
  (exists row, state_head_update r now later db =
     Ok (set_placements <[ sc_object r := committed_row row r ]> db, Some (committed_row row r)))
  \/ (exists e, state_head_update r now later db = Err e).
Proof.
  intros Hm. destruct (state_head_update r now later db) as [[db' [row' |]] | e] eqn:E; [| | eauto].
  - apply update_state_head_Some in E as (_ & row & _ & -> & -> & _). eauto.
  - apply update_state_head_None in E as [_ Hn]. done.
Qed.

Lemma state_head_update_may_not r now later db x :
  ~ may_commit db now r -> state_head_update r now later db = Ok x -> x = (db, None).
Proof.
  intros Hm H. destruct x as [db' [row |]].
  - by apply update_state_head_Some in H as [? _].
  - by apply update_state_head_None in H as [-> _].
Qed.

(** ** Commits *)

Lemma validate_state_commit_Ok r :
  validate_state_commit r = Ok tt ->
  ActorStorageKey_validate (sc_object r) = Ok tt /\ sc_owner r <> "" /\
  sc_session_id r <> "" /\ (0 < sc_owner_epoch r)%Z /\
  (1 <= len (sc_state_object r) <= 1024)%Z /\ (1 <= len (sc_request_id r) <= 255)%Z.
Proof.
  unfold validate_state_commit. intros H. inv_ok. bool_prop.
  rewrite !is_empty_false in *.
  repeat split; try done; [destruct (sc_state_object r) | destruct (sc_request_id r)];
    try done; unfold len; simpl; lia.
Qed.

(** The head the request asked for: its version, its object, its request. *)
Definition head_of (r : StateCommitRequest) (p : ObjectPlacement) : Prop :=
  object p = sc_object r /\ state_version p = (sc_expected_version r + 1)%Z /\
  state_object p = Some (sc_state_object r) /\ last_request_id p = Some (sc_request_id r).

Lemma is_replayed_commit_head p r :
  (sc_expected_version r <= i64_max)%Z -> object p = sc_object r ->
  is_replayed_commit p r = true <-> head_of r p.
Proof.
  unfold is_replayed_commit, head_of, u64_saturating_add, u64_max, i64_max. intros Hv Ho.
  rewrite !andb_true_iff, Z.eqb_eq, !bool_decide_eq_true, Z.min_l by lia. tauto.
Qed.

Section Commits.
Context (weather : nat -> Weather) (R : rely weather).

Lemma commit_state_guarantees r :
  guarantees (PostgresObjectPlacementStore.commit_state weather r).
Proof.
  unfold PostgresObjectPlacementStore.commit_state, PostgresObjectPlacementStore.get.
  client_guarantees.
Qed.
End Commits.

(** A step of a client between two states, seen from the client. *)
Lemma rely_step weather st (R : rely weather) :
  evolves (database st) (others (weather (statements st)) (database st)).
Proof. apply R. Qed.

Lemma commit_numbers r e v :
  i64_from_u64 "object owner epoch exceeds PostgreSQL BIGINT" (sc_owner_epoch r) = Ok e ->
  i64_from_u64 "actor state version exceeds PostgreSQL BIGINT" (sc_expected_version r) = Ok v ->
  e = sc_owner_epoch r /\ v = sc_expected_version r /\ (sc_expected_version r <= i64_max)%Z.
Proof. intros [-> _]%i64_from_u64_Ok [-> ?]%i64_from_u64_Ok. lia. Qed.

Lemma commit_state_Committed
    (weather : nat -> Weather) (r : StateCommitRequest) (st st' : PgState) (p : ObjectPlacement)
    (R : rely weather)
    (H : PostgresObjectPlacementStore.commit_state weather r st = (st', Ok (Committed p))) :
  exists db, evolves (database st) db /\ evolves db (database st') /\
    shows db p /\ head_of r p.
Proof.
  pose proof (commit_state_guarantees weather R r st st' _ H) as Hg.
  unfold PostgresObjectPlacementStore.commit_state in H. inv_client.
  match goal with H1 : i64_from_u64 _ (sc_owner_epoch r) = _,
      H2 : i64_from_u64 _ (sc_expected_version r) = _ |- _ =>
    destruct (commit_numbers _ _ _ H1 H2) as (-> & -> & Hmax) end.
  exists (database st'). split; [done |]. split; [done |].
  match goal with H : update_state_head _ _ _ _ _ _ _ _ _ _ = Ok (_, ?o) |- _ =>
    destruct o as [row |]; inv_client end.
  - match goal with H : update_state_head _ _ _ _ _ _ _ _ _ _ = _ |- _ =>
      apply update_state_head_Some in H as (_ & row0 & _ & -> & Hdb & _) end.
    edestruct shows_intro as [Hs Ho]; [| done | split; [exact Hs |]].
    { rewrite Hdb. simpl. apply lookup_insert_eq. }
    match goal with H : placement_from_row _ _ = _ |- _ => apply placement_from_row_Ok in H as -> end.
    done.
  - match goal with H : PostgresObjectPlacementStore.get _ _ _ = _ |- _ =>
      apply get_Ok in H as (_ & Hs & Ho) end.
    case_match eqn:Er; simplify_eq. split; [done |].
    by apply is_replayed_commit_head.
Qed.

(** "committed" is never said in vain.  When a commit answers
    [Committed p], the database showed exactly that head (the requested
    version, snapshot object and request id) at some moment during the call,
    whether this call moved the head or found it already moved, and every
    later state of the table descends from it. *)
Lemma commit_state_durable
    (weather : nat -> Weather) (r : StateCommitRequest) (st st' : PgState) (p : ObjectPlacement)
    (R : rely weather)
    (H : PostgresObjectPlacementStore.commit_state weather r st = (st', Ok (Committed p))) :
  exists db, evolves (database st) db /\ evolves db (database st') /\
    shows db p /\ head_of r p.
Proof. by eapply commit_state_Committed. Qed.

Definition placed (epoch version : Z) : PlacementRow :=
  {| row_owner_host_id := "host-a"; row_owner_epoch := epoch; row_home_region := "eu";
     row_state_version := version; row_state_object := None; row_last_request_id := None |}.
Definition sample_database : Database := {|
  host_leases := {[ "host-a" := {| row_session_id := "s1"; row_route := "r";
                                   row_expires_at_ms := 5000 |} ]};
  placements := {[ "object.v1.n.t.i" := placed 2 6 ]};
  namespaces := ∅; project_specs := ∅ |}.
Definition sample_commit : StateCommitRequest := {|
  sc_object := "object.v1.n.t.i"; sc_owner := "host-a"; sc_session_id := "s1";
  sc_owner_epoch := 2; sc_expected_version := 6; sc_state_object := "snapshots/x";
  sc_request_id := "req" |}.

Lemma calm_rely t : rely (calm t).
Proof. by intros n db. Defined.

Lemma commit_state_durable_witness :
  exists p db, shows db p /\ head_of sample_commit p.
Proof.
  edestruct (commit_state_durable (calm 1000) sample_commit
    {| database := sample_database; statements := 0 |}) as (db & _ & _ & H);
    [apply calm_rely | vm_compute; reflexivity | eexists _, db; exact H].
Defined.

Lemma query_blocked_update weather r st st1 r1 :
  (let w := weather (statements st) in ~ may_commit (others w (database st)) (now w) r) ->
  query weather (state_head_update r) st = (st1, r1) ->
  database st1 = others (weather (statements st)) (database st) /\
  statements st1 = S (statements st) /\ forall row, r1 <> Ok (Some row).
Proof.
  intros Hno. unfold query.
  destruct (state_head_update r _ _ _) as [[db' o] | e] eqn:Hu.
  - apply state_head_update_may_not in Hu; [| exact Hno].
    destruct (fault _); intros; simplify_eq; done.
  - destruct (fault _); intros; simplify_eq; done.
Qed.

Lemma get_database weather obj st st' x :
  PostgresObjectPlacementStore.get weather obj st = (st', x) ->
  database st' = others (weather (statements st)) (database st).
Proof.
  unfold PostgresObjectPlacementStore.get, mbind, M_bind, M_context, query, lift,
    select_placement. simpl.
  destruct (fault _); simpl; [| by intros [= <- _]..].
  destruct (placements _ !! obj); simpl; [destruct (placement_from_row _ _) |];
    by intros [= <- _].
Qed.

(** Fencing.  If, when the update runs, the request does not come from the
    current epoch's owner under an unexpired lease of the named session, at the
    expected version, then the call moves no head: the placements it leaves
    behind are those the other clients made. *)
Lemma commit_state_fenced
    (weather : nat -> Weather) (r : StateCommitRequest) (st st' : PgState)
    (x : anyhow StateCommit)
    (Hno : let w := weather (statements st) in
           ~ may_commit (others w (database st)) (now w) r)
    (H : PostgresObjectPlacementStore.commit_state weather r st = (st', x)) :
  let db1 := others (weather (statements st)) (database st) in
  database st' = database st \/ database st' = db1 \/
  database st' = others (weather (S (statements st))) db1.
Proof.
  unfold PostgresObjectPlacementStore.commit_state, mbind, M_bind, lift, M_context in H.
  destruct (validate_state_commit r) as [u | e]; [| left; congruence].
  destruct (i64_from_u64 _ (sc_owner_epoch r)) as [ep | e] eqn:He; [| left; congruence].
  destruct (i64_from_u64 _ (sc_expected_version r)) as [v | e] eqn:Hv; [| left; congruence].
  destruct (commit_numbers _ _ _ He Hv) as (-> & -> & _). simpl in *.
  destruct (query weather _ st) as [st1 r1] eqn:Hq.
  apply (query_blocked_update weather r st _ _ Hno) in Hq as (Hdb1 & Hn1 & Hr1).
  destruct r1 as [[row |] | e]; simpl in H; [by destruct (Hr1 row) | |].
  - right; right. rewrite <- Hn1, <- Hdb1.
    destruct (PostgresObjectPlacementStore.get _ _ _) as [st2 r2] eqn:Hget.
    apply get_database in Hget as <-. unfold mret, M_ret in H.
    repeat case_match; congruence.
  - simplify_eq. auto.
Qed.

(** A commit of the previous epoch, against the same database. *)
Definition stale_commit : StateCommitRequest := {|
  sc_object := "object.v1.n.t.i"; sc_owner := "host-a"; sc_session_id := "s1";
  sc_owner_epoch := 1; sc_expected_version := 6; sc_state_object := "snapshots/y";
  sc_request_id := "old" |}.

Lemma commit_state_fenced_witness :
  let st := {| database := sample_database; statements := 0 |} in
  let '(st', x) := PostgresObjectPlacementStore.commit_state (calm 1000) stale_commit st in
  is_ok x = true /\
  (database st' = sample_database \/ database st' = sample_database \/
   database st' = sample_database).
Proof.
  split; [vm_compute; reflexivity |].
  eapply (commit_state_fenced (calm 1000) stale_commit
    {| database := sample_database; statements := 0 |}); [| vm_compute; reflexivity].
  cbv zeta. intros (row & H1 & _ & H2 & _). vm_compute in H1. injection H1 as <-.
  vm_compute in H2. discriminate.
Defined.

(** ** Claims *)

Lemma transfer_placement_Some obj o eo ee reg now later db db' row' :
  transfer_placement obj o eo ee reg now later db = Ok (db', Some row') ->
  exists row, placements db !! obj = Some row /\
    row_owner_host_id row = eo /\ row_owner_epoch row = ee /\ row_home_region row = reg /\
    row' = {| row_owner_host_id := o; row_owner_epoch := ee + 1; row_home_region := reg;
              row_state_version := row_state_version row;
              row_state_object := row_state_object row;
              row_last_request_id := row_last_request_id row |} /\
    placements db' = <[ obj := row' ]> (placements db).
Proof.
  intros H. unfold transfer_placement in H. inv_statement.
  eexists. repeat split; try done; congruence.
Qed.

Lemma insert_placement_Some obj o reg now later db db' row' :
  insert_placement obj o reg now later db = Ok (db', Some row') ->
  placements db !! obj = None /\
  row' = {| row_owner_host_id := o; row_owner_epoch := 1; row_home_region := reg;
            row_state_version := 0; row_state_object := None; row_last_request_id := None |} /\
  placements db' = <[ obj := row' ]> (placements db).
Proof. intros H. unfold insert_placement in H. inv_statement. done. Qed.

(** What [Acquired p] means for a claim that expected [expected]. *)
Definition acquired_from (db db' : Database) (obj : ActorStorageKey)
    (expected : option ObjectPlacement) (new_owner : HostId) (region : string)
    (p : ObjectPlacement) : Prop :=
  object p = obj /\ owner p = new_owner /\ home_region p = region /\
  placements db' = <[ obj := {| row_owner_host_id := owner p; row_owner_epoch := owner_epoch p;
      row_home_region := home_region p; row_state_version := state_version p;
      row_state_object := state_object p; row_last_request_id := last_request_id p |} ]>
    (placements db) /\
  match expected with
  | None => placements db !! obj = None /\ owner_epoch p = 1%Z /\ state_version p = 0%Z /\
            state_object p = None /\ last_request_id p = None
  | Some e =>
      owner e <> new_owner /\ owner_epoch p = (owner_epoch e + 1)%Z /\
      exists row, placements db !! obj = Some row /\ row_owner_host_id row = owner e /\
        row_owner_epoch row = owner_epoch e /\ state_version p = row_state_version row /\
        state_object p = row_state_object row /\ last_request_id p = row_last_request_id row
  end.

Lemma current_claim_not_acquired weather obj st st' p :
  PostgresObjectPlacementStore.current_claim weather obj st <> (st', Ok (Acquired p)).
Proof.
  unfold PostgresObjectPlacementStore.current_claim. intros H. inv_client.
  match goal with H : CurrentClaim <$> ?o = Some _ |- _ => destruct o; discriminate end.
Qed.

Lemma claim_Acquired
    (weather : nat -> Weather) (obj : ActorStorageKey) (expected : option ObjectPlacement)
    (new_owner : HostId) (region : string) (st st' : PgState) (p : ObjectPlacement)
    (H : PostgresObjectPlacementStore.claim weather obj expected new_owner region st
         = (st', Ok (Acquired p))) :
  acquired_from (others (weather (statements st)) (database st)) (database st')
    obj expected new_owner region p.
Proof.
  unfold PostgresObjectPlacementStore.claim in H. inv_client.
  destruct expected as [e |]; inv_client; bool_prop.
  - case_bool_decide as Ho; [by edestruct current_claim_not_acquired |]. inv_client.
    match goal with H : i64_from_u64 _ _ = _ |- _ => apply i64_from_u64_Ok in H as [-> _] end.
    match goal with H : transfer_placement _ _ _ _ _ _ _ _ = Ok (_, ?o) |- _ =>
      destruct o as [row |] end; [| by edestruct current_claim_not_acquired].
    inv_client.
    match goal with H : transfer_placement _ _ _ _ _ _ _ _ = _ |- _ =>
      apply transfer_placement_Some in H as (row0 & ? & ? & ? & ? & -> & Hdb) end.
    match goal with H : placement_from_row _ _ = _ |- _ => apply placement_from_row_Ok in H as -> end.
    repeat split; simpl; try done. eauto 10.
  - match goal with H : insert_placement _ _ _ _ _ _ = Ok (_, ?o) |- _ =>
      destruct o as [row |] end; [| by edestruct current_claim_not_acquired].
    inv_client.
    match goal with H : insert_placement _ _ _ _ _ _ = _ |- _ =>
      apply insert_placement_Some in H as (? & -> & Hdb) end.
    match goal with H : placement_from_row _ _ = _ |- _ => apply placement_from_row_Ok in H as -> end.
    done.
Qed.

(** A host that is told it acquired an actor really became the owner in one
    database step: either the actor had no placement (epoch 1, no state), or
    the expected owner and epoch were still current and were replaced by the
    next epoch, every bit of state kept. *)
Lemma claim_acquired
    (weather : nat -> Weather) (obj : ActorStorageKey) (expected : option ObjectPlacement)
    (new_owner : HostId) (region : string) (st st' : PgState) (p : ObjectPlacement)
    (H : PostgresObjectPlacementStore.claim weather obj expected new_owner region st
         = (st', Ok (Acquired p))) :
  acquired_from (others (weather (statements st)) (database st)) (database st')
    obj expected new_owner region p.
Proof. by eapply claim_Acquired. Qed.

Definition transferred : option ObjectPlacement :=
  Some (placement_of_row "object.v1.n.t.i" (placed 2 6)).

Lemma claim_acquired_witness :
  exists st' p, acquired_from sample_database (database st') "object.v1.n.t.i"
    transferred "host-b" "eu" p.
Proof.
  eexists _, _. apply (claim_acquired (calm 1000) "object.v1.n.t.i" transferred "host-b" "eu"
    {| database := sample_database; statements := 0 |}).
  vm_compute. reflexivity.
Defined.

(** ** The two stores agree *)

(** The database as the in-memory store sees it. *)
Definition view (db : Database) : LocalObjectPlacementStore.Store :=
  map_imap (fun obj row => Some (placement_of_row obj row)) (placements db).

Lemma lookup_view db obj : view db !! obj = placement_of_row obj <$> placements db !! obj.
Proof. unfold view. rewrite map_lookup_imap. by destruct (placements db !! obj). Qed.

Lemma view_insert db obj row :
  view (set_placements <[ obj := row ]> db) = <[ obj := placement_of_row obj row ]> (view db).
Proof.
  apply map_eq. intros k. rewrite lookup_view. simpl.
  destruct (decide (k = obj)) as [-> | Hne].
  - by rewrite !lookup_insert_eq.
  - by rewrite !lookup_insert_ne, lookup_view.
Qed.

(** The columns are in the range the code can store and advance. *)
Definition rows_in_range (db : Database) : Prop :=
  forall obj row, placements db !! obj = Some row ->
    (0 <= row_owner_epoch row <= i64_max)%Z /\ (0 <= row_state_version row < i64_max)%Z.

Lemma placement_from_row_in_range obj row :
  (0 <= row_owner_epoch row <= i64_max)%Z -> (0 <= row_state_version row <= i64_max)%Z ->
  placement_from_row obj row = Ok (placement_of_row obj row).
Proof.
  intros He Hv. unfold placement_from_row, i64_max in *.
  rewrite (proj2 (u64_from_i64_Ok _ (row_owner_epoch row) (row_owner_epoch row)))
    by (unfold u64_max; lia). simpl.
  rewrite (proj2 (u64_from_i64_Ok _ (row_state_version row) (row_state_version row)))
    by (unfold u64_max; lia). done.
Qed.

Lemma calm_get t obj n db :
  rows_in_range db ->
  PostgresObjectPlacementStore.get (calm t) obj {| database := db; statements := n |} =
  ({| database := db; statements := S n |},
   Ok (placement_of_row obj <$> placements db !! obj)).
Proof.
  intros Hr. unfold PostgresObjectPlacementStore.get, mbind, M_bind, M_context, query, lift,
    select_placement. simpl.
  destruct (placements db !! obj) as [row |] eqn:E; simpl; [| done].
  destruct (Hr _ _ E). rewrite placement_from_row_in_range by lia. done.
Qed.

Lemma commit_not_replayed row r :
  (sc_expected_version r <= i64_max)%Z -> row_state_version row = sc_expected_version r ->
  is_replayed_commit (placement_of_row (sc_object r) row) r = false.
Proof.
  intros Hv He. apply not_true_iff_false. intros (_ & H & _)%is_replayed_commit_head; [| done..].
  simpl in H. lia.
Qed.

Lemma advance_committed_row row r :
  row_owner_host_id row = sc_owner r -> row_owner_epoch row = sc_owner_epoch r ->
  row_state_version row = sc_expected_version r ->
  advance (placement_of_row (sc_object r) row) (row_state_version row + 1) r =
  placement_of_row (sc_object r) (committed_row row r).
Proof. unfold advance, placement_of_row. simpl. intros -> -> ->. done. Qed.

Section Calm.
Context (t : Z) (r : StateCommitRequest) (st : PgState).
Context (Hrows : rows_in_range (database st)).
Context (He : (0 <= sc_owner_epoch r <= i64_max)%Z).
Context (Hv : (0 <= sc_expected_version r <= i64_max)%Z).
Let now := (t + Z.of_nat (statements st))%Z.
Context (Hlease : holds (database st) (sc_owner r) (sc_session_id r) now).

Lemma calm_update :
  query (calm t) (state_head_update r) st =
  match placements (database st) !! sc_object r with
  | Some row =>
      if bool_decide (row_owner_host_id row = sc_owner r)
         && (row_owner_epoch row =? sc_owner_epoch r)%Z
         && (row_state_version row =? sc_expected_version r)%Z
      then ({| database := set_placements <[ sc_object r := committed_row row r ]> (database st);
               statements := S (statements st) |}, Ok (Some (committed_row row r)))
      else ({| database := database st; statements := S (statements st) |}, Ok None)
  | None => ({| database := database st; statements := S (statements st) |}, Ok None)
  end.
Proof.
  destruct Hlease as (l & Hl & Hs & Ht).
  unfold query, state_head_update, update_state_head. cbn [calm others fault Database.now].
  fold now. rewrite Hl.
  destruct (placements (database st) !! sc_object r) as [row |] eqn:E; [| done].
  destruct (Hrows _ _ E) as [Hre Hrv].
  rewrite (bool_decide_eq_true_2 _ Hs), (proj2 (Z.ltb_lt now _) Ht), !andb_true_r.
  destruct (_ && _) eqn:Hc; [| done]. bool_prop.
  rewrite (proj2 (bigint_Ok _ (row_state_version row + 1)))
    by (unfold i64_min, i64_max in *; lia).
  simpl. rewrite (proj2 (Z.leb_le 0 (row_state_version row + 1))) by lia. simpl.
  unfold committed_row. do 3 f_equal; congruence.
Qed.

(** C24: On a database that answers and that nobody else writes meanwhile, with rows in the range of
    their columns, with the committing session's lease live and an epoch and a version that fit the
    columns, the PostgreSQL store and the in-memory store are the same register: a commit is accepted
    or refused by both alike, with the same reported placement, and both hold the same placements
    afterwards; replays, conflicts, invalid requests and missing placements included. *)
Theorem commit_state_stores_agree :
  let '(st', x) := PostgresObjectPlacementStore.commit_state (calm t) r st in
  let '(s', y) := LocalObjectPlacementStore.commit_state r (view (database st)) in
  view (database st') = s' /\ result_ok x = result_ok y.
Proof.
  unfold PostgresObjectPlacementStore.commit_state, LocalObjectPlacementStore.commit_state,
    mbind, M_bind, lift, gets, modify, M_context.
  destruct (validate_state_commit r) as [u | e]; [| done].
  rewrite (proj2 (i64_from_u64_Ok _ (sc_owner_epoch r) (sc_owner_epoch r)))
    by (unfold i64_min; lia).
  rewrite (proj2 (i64_from_u64_Ok _ (sc_expected_version r) (sc_expected_version r)))
    by (unfold i64_min; lia).
  fold (state_head_update r). rewrite calm_update, lookup_view.
  destruct (placements (database st) !! sc_object r) as [row |] eqn:E; simpl.
  - rewrite <- !negb_andb. destruct (_ && _) eqn:Hc; simpl.
    + bool_prop. rewrite commit_not_replayed by (done || lia).
      destruct (Hrows _ _ E). rewrite placement_from_row_in_range by (simpl; lia).
      rewrite (proj2 (u64_checked_add_Some _ _ (row_state_version row + 1)))
        by (unfold u64_max, i64_max in *; lia).
      simpl. rewrite view_insert, advance_committed_row by done. done.
    + rewrite calm_get, E by done. simpl. by destruct (is_replayed_commit _ _).
  - rewrite calm_get by done. rewrite E. done.
Qed.
End Calm.

Lemma sample_rows_in_range : rows_in_range sample_database.
Proof.
  intros obj row H. unfold sample_database in H. simpl in H.
  apply lookup_singleton_Some in H as [_ <-]. vm_compute. intuition discriminate.
Defined.

Lemma commit_state_stores_agree_witness :
  let '(st', x) := PostgresObjectPlacementStore.commit_state (calm 1000) sample_commit
                     {| database := sample_database; statements := 0 |} in
  let '(s', y) := LocalObjectPlacementStore.commit_state sample_commit (view sample_database) in
  view (database st') = s' /\ result_ok x = result_ok y.
Proof.
  apply (commit_state_stores_agree 1000 sample_commit
    {| database := sample_database; statements := 0 |}).
  - apply sample_rows_in_range.
  - vm_compute. intuition discriminate.
  - vm_compute. intuition discriminate.
  - eexists. split; [vm_compute; reflexivity |]. split; reflexivity.
Defined.
