(* ===== verification/ControlPlane.v ===== *)
(** * The control plane

    The commands hosts send ([src/control_plane/protocol.rs]), how the service
    executes them, how it routes a workflow to the host that owns an actor, and
    how it provisions hosts ([src/control_plane/service.rs]).

    The stores are the PostgreSQL stores over the shared tables.  The state of
    the service is its database client and its two route caches; everything
    else it reads (clock, random identifiers, cache expiry) is indexed by the
    number of statements its client has issued. *)
From S2P Require Import Prelude Net Json Identity SocketProtocol StorageUrls Sandbox Tokens.
From S2P Require Import Database Leases Admin Placement.
Local Open Scope string_scope.

Definition HOST_TOKEN_RENEWAL_WINDOW_SECONDS : Z := 10 * 60.

(** ** Messages *)

Inductive ControlPlaneCommand :=
| RegisterLease (request : HostLeaseRequest)
| UnregisterLease (host_id : HostId)
| PrepareStateWrite (actor : ActorKey) (host_id : HostId) (owner_epoch expected_version : Z)
| CommitState (actor : ActorKey) (host_id : HostId) (owner_epoch expected_version : Z)
    (state_object request_id : string).

Inductive ControlPlaneCommandReply :=
| UnitReply
| LeaseReply (lease : HostLease) (replacement_token : option string)
| StateWriteTicketReply (ticket : StateWriteTicket)
| StateCommitted (state_version : Z) (next_write : option StateWriteTicket).

#[export] Instance command_eq_dec : EqDecision ControlPlaneCommand.
Proof. solve_decision. Defined.
#[export] Instance reply_eq_dec : EqDecision ControlPlaneCommandReply.
Proof. solve_decision. Defined.

(** ** Helpers *)

Definition validate_state_owner (principal : ActorPrincipal) (host_id : HostId)
    (owner_epoch : Z) (placement : ObjectPlacement) : anyhow () :=
  ensure (bool_decide (owner placement = host_id)) "host does not own this actor";;
  ensure (Placement.owner_epoch placement =? owner_epoch)%Z "actor owner epoch is stale";;
  ensure (bool_decide (home_region placement = Tokens.region principal))
    "host is outside the actor home region".

Definition host_matches_revision (host : HostId) (namespace revision : string) : bool :=
  starts_with host ("host.v1." +:+ namespace +:+ "." +:+ revision +:+ ".").

Definition validate_host_route `{UrlParser} (route : string) : anyhow () :=
  route ← url_parse route;
  ensure (is_http route) "host route must be an HTTP origin";;
  ensure (is_empty (username route) && bool_decide (password route = None))
    "host route must not contain credentials";;
  ensure (bool_decide (path route = "/") && bool_decide (url_query route = None)
          && bool_decide (fragment route = None))
    "host route must not contain a path, query, or fragment".

(** [service.rs] *)
Definition service_unix_seconds (elapsed : option Z) : anyhow Z :=
  millis ← since_epoch elapsed;
  i64_try (millis / 1000).

Definition select_target_region (current : option ObjectPlacement) (storage_region : string)
    (configured_regions : list string) : anyhow string :=
  match current with
  | Some placement => Ok (home_region placement)
  | None =>
      ensure (existsb (String.eqb storage_region) configured_regions)
        "workflow storage region has no Standard bucket";;
      Ok storage_region
  end.

(** ** What the service reads besides the database *)

Class Surroundings := {
  weather : nat -> Weather;
  (** the [k]-th clock reading of an operation after [n] statements *)
  clock : nat -> nat -> option Z;
  (** the [k]-th [Uuid::new_v4()] *)
  uuid : nat -> nat -> string;
  (** [Uuid::new_v4().simple()] of a write ticket *)
  nonce : nat -> string;
  (** the cache entries that have not expired *)
  fresh : nat -> bool;
}.

Section Service.
Context {E : Surroundings} {T : Jwt} {Parser : UrlParser} {Signer : UrlSigner}.

Abbreviation Pg := (M PgState Error) (only parsing).

Definition at_time {A} (f : nat -> A) : Pg A := gets (fun st => f (Database.statements st)).

(** The trait [HostProvisioner]. *)
Record HostProvisioner := {
  ensure_host : HostLaunchSpec -> string -> Pg HostLease;
  public_host_route : HostLaunchSpec -> string -> Pg string;
  warm_image : HostLaunchSpec -> string -> Pg ImageWarmup;
  terminate_hosts : HostLaunchSpec -> list string -> Pg HostTermination;
}.

Record RoutingDependencies := {
  registry : AdminRegistry;
  provisioner : option HostProvisioner;
}.

Record ControlPlaneService := {
  storage_urls : GcsStorageUrlSigner;
  auth : ActorJwtVerifier;
  host_token_issuer : option ActorJwtIssuer;
  routing : option RoutingDependencies;
}.
Context (s : ControlPlaneService).

(** ** Commands *)

Definition replacement_host_token (principal : ActorPrincipal) : Pg (option string) :=
  elapsed ← at_time (fun n => clock n 0);
  now ← lift (service_unix_seconds elapsed);
  if (HOST_TOKEN_RENEWAL_WINDOW_SECONDS <? i64_saturating_sub (expires_at principal) now)%Z
  then mret None
  else
    issuer ← lift (some_or "JWT issuer is not configured" (host_token_issuer s));
    code_revision ← lift (some_or "host token has no code revision" (code_revision principal));
    elapsed ← at_time (fun n => clock n 1);
    issued ← lift (issue_host issuer elapsed (scope_namespace_id (scope principal))
                     (Tokens.host_id principal) (session_id principal) code_revision
                     (Tokens.region principal));
    mret (Some (token issued)).

Definition register_lease (principal : ActorPrincipal) (request : HostLeaseRequest)
    : Pg ControlPlaneCommandReply :=
  lift (validate_host_id principal (lr_id request));;
  lift (ensure (bool_decide (lr_session_id request = session_id principal))
          "lease session does not match host token");;
  lift (validate_host_route (lr_route request));;
  lease ← PostgresHostLeaseStore.register weather request;
  replacement_token ← replacement_host_token principal;
  mret (LeaseReply lease replacement_token).

Definition unregister_lease (principal : ActorPrincipal) (host_id : HostId)
    : Pg ControlPlaneCommandReply :=
  lift (validate_host_id principal host_id);;
  PostgresHostLeaseStore.unregister weather host_id (session_id principal);;
  mret UnitReply.

Definition require_active_host (principal : ActorPrincipal) : Pg HostLease :=
  status ← PostgresHostLeaseStore.lease_status weather (Tokens.host_id principal);
  lift (ensure (is_active status) "host lease is not active");;
  lease ← lift (some_or "active host lease is missing" (lease status));
  lift (ensure (bool_decide (hl_session_id lease = session_id principal))
          "host lease belongs to another session");;
  mret lease.

Definition current_placement (actor : ActorKey) : Pg ObjectPlacement :=
  current ← PostgresObjectPlacementStore.get weather (storage_key actor);
  lift (some_or "actor has no current placement" current).

Definition state_write_ticket (region : string) (actor : ActorKey) (expected_version : Z)
    : Pg StateWriteTicket :=
  next ← lift (some_or "actor state version overflow" (u64_checked_add expected_version 1));
  nonce ← at_time nonce;
  elapsed ← at_time (fun n => clock n 0);
  lift (write_ticket (storage_urls s) nonce elapsed region actor next).

Definition prepare_state_write (principal : ActorPrincipal) (actor : ActorKey) (host_id : HostId)
    (owner_epoch expected_version : Z) : Pg ControlPlaneCommandReply :=
  lift (ActorKey_validate actor);;
  lift (ensure (ActorScope_contains (scope principal) actor) "actor crossed the host namespace");;
  lift (validate_host_id principal host_id);;
  require_active_host principal;;
  placement ← current_placement actor;
  lift (validate_state_owner principal host_id owner_epoch placement);;
  lift (ensure (Placement.state_version placement =? expected_version)%Z
          "actor state version changed before write preparation");;
  ticket ← state_write_ticket (home_region placement) actor expected_version;
  mret (StateWriteTicketReply ticket).

Definition commit_state (principal : ActorPrincipal) (actor : ActorKey) (host_id : HostId)
    (owner_epoch expected_version : Z) (state_object request_id : string)
    : Pg ControlPlaneCommandReply :=
  lift (ActorKey_validate actor);;
  lift (ensure (ActorScope_contains (scope principal) actor) "actor crossed the host namespace");;
  lift (validate_host_id principal host_id);;
  require_active_host principal;;
  next ← lift (some_or "actor state version overflow" (u64_checked_add expected_version 1));
  lift (validate_snapshot_object_name actor next state_object);;
  committed ← PostgresObjectPlacementStore.commit_state weather
    {| sc_object := storage_key actor; sc_owner := host_id;
       sc_session_id := session_id principal; sc_owner_epoch := owner_epoch;
       sc_expected_version := expected_version; sc_state_object := state_object;
       sc_request_id := request_id |};
  placement ← lift (match committed with
                    | Committed placement => Ok placement
                    | CurrentState _ =>
                        bail "actor ownership or state version changed before commit"
                    end);
  next_write ← attempt (state_write_ticket (home_region placement) actor
                          (Placement.state_version placement));
  mret (StateCommitted (Placement.state_version placement) (result_ok next_write)).

Definition execute_command (principal : ActorPrincipal) (command : ControlPlaneCommand)
    : Pg ControlPlaneCommandReply :=
  lift (ensure (bool_decide (process_role principal = Host))
          "only hosts may use the internal control-plane API");;
  match command with
  | RegisterLease request => register_lease principal request
  | UnregisterLease host_id => unregister_lease principal host_id
  | PrepareStateWrite actor host_id owner_epoch expected_version =>
      prepare_state_write principal actor host_id owner_epoch expected_version
  | CommitState actor host_id owner_epoch expected_version state_object request_id =>
      commit_state principal actor host_id owner_epoch expected_version state_object request_id
  end.

(** ** Routing *)

Record RoutedActor := {
  ra_placement : ObjectPlacement;
  ra_lease : HostLease;
  ra_spec : HostLaunchSpec;
}.

Definition active_target (current : option ObjectPlacement) (spec : HostLaunchSpec)
    : Pg (option RoutedActor) :=
  match current with
  | None => mret None
  | Some placement =>
      if negb (host_matches_revision (owner placement) (spec_namespace_id spec)
                 (spec_code_revision spec))
      then mret None
      else
        status ← PostgresHostLeaseStore.lease_status weather (owner placement);
        if negb (is_active status) then mret None
        else
          lease ← lift (some_or "active lease is missing" (lease status));
          mret (Some {| ra_placement := placement; ra_lease := lease; ra_spec := spec |})
  end.

Definition target_region (current : option ObjectPlacement) (storage_region : string)
    : anyhow string :=
  select_target_region current storage_region (regions (storage_urls s)).

Definition claimed_placement (c : PlacementClaim) : ObjectPlacement :=
  match c with Acquired p | CurrentClaim p => p end.

(** The [loop] of [route_actor]: [None] when [fuel] rounds ended in [continue]. *)
Fixpoint route_loop (fuel : nat) (actor : ActorKey) (storage_region : string)
    (provisioner : option HostProvisioner) (spec : HostLaunchSpec) : Pg (option RoutedActor) :=
  match fuel with
  | O => mret None
  | S fuel =>
      current ← PostgresObjectPlacementStore.get weather (storage_key actor);
      active ← active_target current spec;
      match active with
      | Some target => mret (Some target)
      | None =>
          region ← lift (target_region current storage_region);
          provisioner' ← lift (some_or "sandbox provider is not configured" provisioner);
          lease ← ensure_host provisioner' spec region;
          claim ← PostgresObjectPlacementStore.claim weather (storage_key actor) current
                    (hl_id lease) region;
          if bool_decide (owner (claimed_placement claim) = hl_id lease)
          then mret (Some {| ra_placement := claimed_placement claim; ra_lease := lease;
                             ra_spec := spec |})
          else route_loop fuel actor storage_region provisioner spec
      end
  end.

Definition route_actor (fuel : nat) (actor : ActorKey) (storage_region : string)
    : Pg (option RoutedActor) :=
  routing ← lift (some_or "actor routing is not configured" (routing s));
  spec ← launch_spec (AdminRegistry := registry routing) (namespace_id actor);
  spec ← lift (some_or "project has no registered actor code" spec);
  route_loop fuel actor storage_region (provisioner routing) spec.

(** ** Workflow targets *)

Inductive WorkflowRoute := InvocationRoute | ControlPlaneRoute.

Record WorkflowActorTarget := {
  target_route : string;
  target_token : string;
  target_owner_epoch : Z;
  target_state_version : Z;
  target_state_read_url : string;
  target_expires_at_ms : Z;
}.

Definition SocketTargetKey : Type := ActorKey * HostId * string * Z.

(** The client and the caches [public_routes] and [socket_targets]. *)
Record ServiceState := {
  pg : PgState;
  public_routes : gmap (HostId * string) string;
  socket_targets : gmap (ActorKey * HostId * string * Z) WorkflowActorTarget;
}.

Abbreviation Svc := (M ServiceState Error) (only parsing).

Definition on_pg {A} (c : Pg A) : Svc A := fun st =>
  let '(pg', r) := c (pg st) in
  ({| pg := pg'; public_routes := public_routes st; socket_targets := socket_targets st |}, r).

Definition set_public_route (k : HostId * string) (v : string) : Svc () := modify (fun st =>
  {| pg := pg st; public_routes := <[ k := v ]> (public_routes st);
     socket_targets := socket_targets st |}).
Definition set_socket_targets
    (f : gmap (ActorKey * HostId * string * Z) WorkflowActorTarget ->
         gmap (ActorKey * HostId * string * Z) WorkflowActorTarget) : Svc () := modify (fun st =>
  {| pg := pg st; public_routes := public_routes st; socket_targets := f (socket_targets st) |}).

(** A cache entry is found when it is there and has not expired. *)
Definition cached {A} (f : ServiceState -> option A) : Svc (option A) :=
  gets (fun st => if fresh (Database.statements (pg st)) then f st else None).

(** [RoutingDependencies::provisioner], [ControlPlaneService::provisioner] *)
Definition service_provisioner : anyhow HostProvisioner :=
  some_or "sandbox provider is not configured" (routing s ≫= provisioner).

(** [map_err(|error| anyhow!("{error:#}"))] *)
Definition flatten_error {A} (c : Svc A) : Svc A := fun st =>
  let '(st', r) := c st in (st', map_err (fun e => [alternate e]) r).

Definition public_route_of (target : RoutedActor) : Svc string :=
  if starts_with (hl_route (ra_lease target)) "https://" then mret (hl_route (ra_lease target))
  else
    let key := (hl_id (ra_lease target), hl_session_id (ra_lease target)) in
    hit ← cached (fun st => public_routes st !! key);
    match hit with
    | Some route => mret route
    | None =>
        flatten_error (
          provisioner ← lift service_provisioner;
          route ← on_pg (public_host_route provisioner (ra_spec target)
                           (home_region (ra_placement target)));
          set_public_route key route;;
          mret route)
    end.

Definition workflow_may_resolve (principal : ActorPrincipal) (actor : ActorKey) : bool :=
  bool_decide (process_role principal = Workflow) && ActorScope_contains (scope principal) actor.

(** [None] when [route_actor] ran out of fuel. *)
Definition resolve_workflow_route (fuel : nat) (principal : ActorPrincipal) (actor : ActorKey)
    (route_kind : WorkflowRoute) : Svc (option WorkflowActorTarget) :=
  lift (ActorKey_validate actor);;
  lift (ensure (workflow_may_resolve principal actor) "workflow token cannot resolve this actor");;
  routed ← on_pg (route_actor fuel actor (Tokens.region principal));
  match routed with
  | None => mret None
  | Some target =>
      state_read_url ← lift (match Placement.state_object (ra_placement target) with
                             | Some object_name =>
                                 read_url (storage_urls s) (home_region (ra_placement target))
                                   object_name
                             | None => Ok ""
                             end);
      issuer ← lift (some_or "JWT issuer is not configured" (host_token_issuer s));
      elapsed ← on_pg (at_time (fun n => clock n 0));
      issued ← lift (issue_invocation_target issuer elapsed actor (hl_id (ra_lease target))
                       (hl_session_id (ra_lease target)) (spec_code_revision (ra_spec target))
                       (home_region (ra_placement target))
                       (Placement.owner_epoch (ra_placement target))
                       (Placement.state_version (ra_placement target)) state_read_url
                       (expires_at principal));
      route ← (match route_kind with
               | InvocationRoute =>
                   if private_routing principal
                      && bool_decide (Tokens.region principal = home_region (ra_placement target))
                   then mret (hl_route (ra_lease target))
                   else public_route_of target
               | ControlPlaneRoute => public_route_of target
               end);
      mret (Some {| target_route := route; target_token := token issued;
                    target_owner_epoch := Placement.owner_epoch (ra_placement target);
                    target_state_version := Placement.state_version (ra_placement target);
                    target_state_read_url := state_read_url;
                    target_expires_at_ms := token_expires_at_ms issued |})
  end.

(** ** Socket dispatch *)

Definition socket_key (principal : ActorPrincipal) (actor : ActorKey)
    : ActorKey * HostId * string * Z :=
  (actor, Tokens.host_id principal, session_id principal, expires_at principal).

Definition resolve_and_cache (fuel : nat) (principal : ActorPrincipal) (actor : ActorKey)
    (key : ActorKey * HostId * string * Z) : Svc (option WorkflowActorTarget) :=
  flatten_error (
    target ← resolve_workflow_route fuel principal actor ControlPlaneRoute;
    (match target with
     | Some t => set_socket_targets <[ key := t ]>
     | None => mret ()
     end);;
    mret target).

(** [(now + 5) * 1000] is computed in [i64]; clocks are far below its range. *)
Definition socket_target (fuel : nat) (principal : ActorPrincipal) (actor : ActorKey)
    : Svc (option WorkflowActorTarget) :=
  lift (ActorKey_validate actor);;
  lift (ensure (workflow_may_resolve principal actor) "workflow token cannot resolve this actor");;
  elapsed ← on_pg (at_time (fun n => clock n 0));
  now ← lift (service_unix_seconds elapsed);
  lift (ensure (now <? expires_at principal)%Z "workflow token has expired");;
  let key := socket_key principal actor in
  hit ← cached (fun st => socket_targets st !! key);
  match hit with
  | Some target =>
      if ((now + 5) * 1000 <? target_expires_at_ms target)%Z then mret (Some target)
      else
        set_socket_targets (delete key);;
        resolve_and_cache fuel principal actor key
  | None => resolve_and_cache fuel principal actor key
  end.

Section Dispatch.
Context `{J : Json}.
(** [send_socket_event]: the gRPC exchange with the host of a target. *)
Context (send_socket_event : nat -> WorkflowActorTarget -> ActorSocketInvocation ->
           anyhow ActorExecutionResult).

(** [for attempt in 0..2]; the outer [None] is [route_actor] out of fuel. *)
Fixpoint dispatch_attempts (attempts : list nat) (fuel : nat) (principal : ActorPrincipal)
    (invocation : ActorSocketInvocation) : Svc (option (list ActorSocketEffect)) :=
  let key := socket_key principal (si_actor invocation) in
  match attempts with
  | [] => lift (bail "unreachable: socket dispatch returns after its final attempt")
  | attempt :: attempts =>
      target ← socket_target fuel principal (si_actor invocation);
      match target with
      | None => mret None
      | Some target =>
          sent ← on_pg (at_time (fun n => send_socket_event n target invocation));
          match sent with
          | Ok (Completed _ effects) => mret (Some effects)
          | Ok (Reroute | HostUnavailable) =>
              set_socket_targets (delete key);;
              if Nat.eqb attempt 1
              then lift (bail "actor host remained unavailable after socket reroute")
              else dispatch_attempts attempts fuel principal invocation
          | Ok (Failed failure) =>
              lift (bail (Identity.code failure +:+ ": " +:+ Identity.message failure))
          | Err error =>
              set_socket_targets (delete key);;
              lift (Err error)
          end
      end
  end.

Definition dispatch_socket_event (fuel : nat) (principal : ActorPrincipal)
    (invocation : ActorSocketInvocation) : Svc (option (list ActorSocketEffect)) :=
  dispatch_attempts [0; 1] fuel principal invocation.
End Dispatch.

(** ** Deployments *)

Definition terminate_deployment_hosts (spec : HostLaunchSpec) : Pg () :=
  match routing s ≫= provisioner with
  | None => mret ()
  | Some provisioner =>
      attempt (E := Error) (terminate_hosts provisioner spec (regions (storage_urls s)));;
      mret ()
  end.

Definition register_deployment (admin : AdminRegistry) (spec : HostLaunchSpec) : Pg bool :=
  previous ← current_deployment (R := admin) (spec_namespace_id spec);
  changed ← ensure_namespace_and_register_deployment (AdminRegistry := admin) spec;
  (match previous with
   | Some previous => if (changed : bool) then terminate_deployment_hosts previous else mret ()
   | None => mret ()
   end);;
  mret changed.

(** The spawned task's outcome is only logged. *)
Definition warm_deployment_image (spec : HostLaunchSpec) (region : string) : Pg () :=
  match routing s ≫= provisioner with
  | None => mret ()
  | Some provisioner =>
      if negb (existsb (String.eqb region) (regions (storage_urls s))) then mret ()
      else attempt (E := Error) (warm_image provisioner spec region);; mret ()
  end.
End Service.

(** ** Provisioning hosts through a sandbox provider *)

Section Provisioner.
Context {E : Surroundings} {T : Jwt} {Parser : UrlParser} {P : SandboxProvider}.

Record SandboxHostProvisioner := {
  runtime : HostSandboxRuntimeConfig;
  provisioner_issuer : ActorJwtIssuer;
}.
Context (p : SandboxHostProvisioner).

(** [SandboxHostProvisioner::request] *)
Definition sandbox_request (spec : HostLaunchSpec) (region : string)
    : M PgState Error EnsureHostRequest :=
  id ← at_time (fun n => uuid n 0);
  let host_id := "host.v1." +:+ spec_namespace_id spec +:+ "." +:+ spec_code_revision spec
                 +:+ "." +:+ id in
  session_id ← at_time (fun n => uuid n 1);
  elapsed ← at_time (fun n => clock n 0);
  issued ← lift (issue_host (provisioner_issuer p) elapsed (spec_namespace_id spec) host_id
                   session_id (spec_code_revision spec) region);
  jwt_public_keys ← lift (verifier_keys_json (provisioner_issuer p));
  mret {| er_namespace_id := spec_namespace_id spec; er_code_revision := spec_code_revision spec;
          er_canonical_region := region; er_host_id := host_id; er_session_id := session_id;
          er_host_token := token issued; er_jwt_public_keys := jwt_public_keys;
          er_control_plane_url := control_plane_url (runtime p);
          er_jwt_issuer := jwt_issuer (runtime p);
          er_invocation_jwt_audience := invocation_jwt_audience (runtime p);
          er_image_ref := image_ref spec; er_working_directory := working_directory spec;
          er_actor_entrypoint := actor_entrypoint spec;
          er_actor_idle_timeout_ms := actor_idle_timeout_ms (runtime p);
          er_host_idle_timeout_ms := host_idle_timeout_ms (runtime p) |}.

Definition active_lease (handle : ActorHostHandle) (region : string) : M PgState Error HostLease :=
  lift (ensure (bool_decide (handle_canonical_region handle = region))
          "sandbox provider returned the wrong region");;
  lift (validate_host_route (handle_route handle));;
  status ← PostgresHostLeaseStore.lease_status weather (handle_host_id handle);
  lift (ensure (is_active status) "sandbox host lease is not active");;
  lease ← lift (some_or "active sandbox lease is missing" (lease status));
  lift (ensure (bool_decide (hl_route lease = handle_route handle))
          "sandbox route does not match its lease");;
  mret lease.

Definition sandbox_ensure_host (spec : HostLaunchSpec) (region : string)
    : M PgState Error HostLease :=
  request ← sandbox_request spec region;
  handle ← at_time (fun n => provider_ensure_host n request);
  handle ← lift handle;
  active_lease handle region.

Definition sandbox_public_host_route (spec : HostLaunchSpec) (region : string)
    : M PgState Error string :=
  response ← at_time (fun n => provider_public_host_route n
    {| pr_namespace_id := spec_namespace_id spec; pr_code_revision := spec_code_revision spec;
       pr_canonical_region := region |});
  response ← lift response;
  lift (validate_host_route (public_route response));;
  mret (public_route response).

Definition sandbox_warm_image (spec : HostLaunchSpec) (region : string)
    : M PgState Error ImageWarmup :=
  warmup ← at_time (fun n => provider_warm_image n
    {| wi_namespace_id := spec_namespace_id spec; wi_code_revision := spec_code_revision spec;
       wi_canonical_region := region; wi_image_ref := image_ref spec |});
  lift warmup.

Definition sandbox_terminate_hosts (spec : HostLaunchSpec) (regions : list string)
    : M PgState Error HostTermination :=
  termination ← at_time (fun n => provider_terminate_hosts n
    {| th_namespace_id := spec_namespace_id spec; th_code_revision := spec_code_revision spec;
       th_canonical_regions := regions |});
  lift termination.

Definition sandbox_provisioner : HostProvisioner := {|
  ensure_host := sandbox_ensure_host;
  public_host_route := sandbox_public_host_route;
  warm_image := sandbox_warm_image;
  terminate_hosts := sandbox_terminate_hosts;
|}.
End Provisioner.

(** ** The wire: the service's endpoint and the hosts' client *)

Section Wire.
Context {E : Surroundings} {T : Jwt} {Parser : UrlParser} {Signer : UrlSigner} {Uuids : UuidParser}.

(** [serde_json] at the two message types. *)
Class CommandSerde := {
  command_to_vec : ControlPlaneCommand -> anyhow bytes;
  command_from_slice : bytes -> anyhow ControlPlaneCommand;
  reply_to_vec : ControlPlaneCommandReply -> anyhow bytes;
  reply_from_slice : bytes -> anyhow ControlPlaneCommandReply;
}.
(** Messages are read back as they were written. *)
Class CommandSerdeLaws (serde : CommandSerde) : Prop := {
  command_round_trip command b : command_to_vec command = Ok b -> command_from_slice b = Ok command;
  reply_round_trip reply b : reply_to_vec reply = Ok b -> reply_from_slice b = Ok reply;
}.
Context {S : CommandSerde}.

(** [ActorControlPlaneService::execute] *)
Definition execute (s : ControlPlaneService) (metadata : option (option string))
    (decode_at : Z) (elapsed : option Z) (command_json : bytes) : M PgState Status bytes := fun st =>
  match authenticate (auth s) decode_at elapsed metadata with
  | Err e => (st, Err e)
  | Ok principal =>
      match command_from_slice command_json with
      | Err e => (st, Err (status InvalidArgument ("invalid command: " +:+ alternate e)))
      | Ok command =>
          let '(st', r) := execute_command s principal command st in
          (st', reply ← map_err (fun e => status FailedPrecondition (to_string e)) r;
                map_err (fun e => status Internal (to_string e)) (reply_to_vec reply))
      end
  end.

(** [ControlPlaneClient]: its state is the world it calls out to and the current
    bearer authorization. *)
Definition bearer_authorization (parse_metadata : string -> anyhow string) (token : string)
    : anyhow string :=
  ensure (negb (is_empty token) && bool_decide (trim token = token)) "actor token is invalid";;
  with_context "actor token is not valid gRPC metadata" (parse_metadata ("Bearer " +:+ token)).

Section Client.
Context {W : Type} (parse_metadata : string -> anyhow string).
(** The gRPC call: an authorization value and a request in a world, its reply. *)
Context (rpc : string -> bytes -> W -> W * anyhow bytes).
(** [{reply:?}] *)
Context (debug : ControlPlaneCommandReply -> string).

Abbreviation Client := (M (W * string) Error) (only parsing).

Definition client_execute (command : ControlPlaneCommand) : Client ControlPlaneCommandReply :=
  request ← lift (command_to_vec command);
  authorization ← gets snd;
  reply ← M_context "execute actor control-plane command"
    (fun '(w, held) => let '(w, r) := rpc authorization request w in ((w, held), r));
  lift (with_context "decode actor control-plane reply" (reply_from_slice reply)).

Definition replace_token (token : string) : Client () :=
  authorization ← lift (bearer_authorization parse_metadata token);
  modify (fun '(w, _) => (w, authorization)).

Definition client_prepare_state_write (actor : ActorKey) (host_id : HostId)
    (owner_epoch expected_version : Z) : Client StateWriteTicket :=
  reply ← client_execute (PrepareStateWrite actor host_id owner_epoch expected_version);
  lift (match reply with
        | StateWriteTicketReply ticket => Ok ticket
        | reply => bail ("unexpected prepare-state-write reply: " +:+ debug reply)
        end).

Definition client_commit_state (actor : ActorKey) (host_id : HostId)
    (owner_epoch expected_version : Z) (state_object request_id : string)
    : Client (Z * option StateWriteTicket) :=
  reply ← client_execute (CommitState actor host_id owner_epoch expected_version state_object
                            request_id);
  lift (match reply with
        | StateCommitted state_version next_write => Ok (state_version, next_write)
        | reply => bail ("unexpected commit-state reply: " +:+ debug reply)
        end).

Definition client_register (request : HostLeaseRequest) : Client HostLease :=
  reply ← client_execute (RegisterLease request);
  match reply with
  | LeaseReply lease replacement_token =>
      (match replacement_token with
       | Some token => replace_token token
       | None => mret ()
       end);;
      mret lease
  | reply => lift (bail ("unexpected register-lease reply: " +:+ debug reply))
  end.

Definition client_unregister (id : HostId) (_session_id : string) : Client () :=
  reply ← client_execute (UnregisterLease id);
  lift (match reply with
        | UnitReply => Ok ()
        | reply => bail ("unexpected unregister-lease reply: " +:+ debug reply)
        end).
End Client.
End Wire.
