(* ===== verification/ControlPlaneSafety.v ===== *)
(** * What the control plane guarantees

    Commands act only for the host that sent them, "committed" is durable, a
    routed actor is owned by a host with a live lease, and routing gives up a
    round only to a competing claim. *)
From S2P Require Import Prelude Net Json Identity SocketProtocol StorageUrls Sandbox Tokens.
From S2P Require Import Database Leases Admin Placement ControlPlane.
Local Open Scope string_scope.

(** ** Commands are confined *)

Section Commands.
Context {E : Surroundings} {T : Jwt} {Parser : UrlParser} {Signer : UrlSigner}.

(** Nobody else is writing. *)
Definition quiet : Prop := forall n db, others (weather n) db = db.

(** The head of [actor] moved under its owner [h], from version [v] to the
    snapshot [o] of the next one, recorded for request [rq]. *)
Definition head_moved (actor : ActorKey) (h : HostId) (v : Z) (o rq : string)
    (row row' : PlacementRow) : Prop :=
  row_owner_host_id row = h /\ row_owner_host_id row' = h /\
  row_owner_epoch row' = row_owner_epoch row /\ row_home_region row' = row_home_region row /\
  row_state_version row = v /\ row_state_version row' = (v + 1)%Z /\
  row_state_object row' = Some o /\ row_last_request_id row' = Some rq /\
  validate_snapshot_object_name actor (v + 1) o = Ok tt.

(** What a command may do to the lease row of its own host.  Registering writes
    the requested route under the sender's session, over no row, a row of that
    session or one a statement's clock found expired; unregistering removes a
    row of the sender's session and no other; no other command changes it. *)
Definition lease_change (p : ActorPrincipal) (command : ControlPlaneCommand)
    (old new : option LeaseRow) : Prop :=
  match command with
  | RegisterLease request =>
      (exists l, new = Some l /\ row_session_id l = session_id p /\
         row_route l = lr_route request) /\
      (forall l, old = Some l -> row_session_id l = session_id p \/
         exists n, (row_expires_at_ms l <= later (weather n))%Z)
  | UnregisterLease _ =>
      (exists l, old = Some l /\ row_session_id l = session_id p) /\ new = None
  | _ => False
  end.

(** What a command may do to the head of the actor stored under [k]: only a
    commit changes one, that of its actor, which is in the sender's namespace
    and owned by the sender. *)
Definition head_change (p : ActorPrincipal) (command : ControlPlaneCommand)
    (k : ActorStorageKey) (row row' : PlacementRow) : Prop :=
  match command with
  | CommitState actor _ _ v o rq =>
      k = storage_key actor /\ namespace_id actor = scope_namespace_id (scope p) /\
      head_moved actor (Tokens.host_id p) v o rq row row'
  | _ => False
  end.

(** The changes the principal [p] may make with [command]. *)
Record within (p : ActorPrincipal) (command : ControlPlaneCommand) (db db' : Database)
    : Prop := {
  w_specs : project_specs db' = project_specs db;
  w_namespaces : namespaces db' = namespaces db;
  w_leases id : host_leases db' !! id = host_leases db !! id \/
    (id = Tokens.host_id p /\
     lease_change p command (host_leases db !! id) (host_leases db' !! id));
  w_placements k : placements db' !! k = placements db !! k \/
    exists row row', placements db !! k = Some row /\ placements db' !! k = Some row' /\
      head_change p command k row row';
}.

Definition within_state (p : ActorPrincipal) (command : ControlPlaneCommand)
    (st st' : PgState) : Prop :=
  within p command (database st) (database st').

Lemma within_refl p c db : within p c db db.
Proof. split; auto. Qed.

Lemma lease_change_trans p c : Transitive (lease_change p c).
Proof.
  intros a b d. destruct c; simpl; try done.
  - intros [_ Ha] [Hd _]. done.
  - intros [_ ->] [(l & ? & _) _]. done.
Qed.

Lemma head_change_trans p c k : Transitive (head_change p c k).
Proof.
  intros a b d. destruct c; simpl; try done. unfold head_moved.
  intros (_ & _ & _ & _ & _ & _ & _ & Hv & _) (_ & _ & _ & _ & _ & _ & Hv' & _). lia.
Qed.

#[local] Instance within_preorder p c : PreOrder (within_state p c).
Proof.
  split.
  - intros st. split; auto.
  - intros s1 s2 s3 [A1 A2 A3 A4] [B1 B2 B3 B4]. split; try congruence.
    + intros id. destruct (B3 id) as [-> | [-> HB]]; [apply A3 | right].
      split; [done |]. destruct (A3 (Tokens.host_id p)) as [<- | [_ HA]]; [done |].
      by eapply lease_change_trans.
    + intros k. destruct (B4 k) as [-> | (r & r' & Hr & Hr' & M2)]; [apply A4 |].
      right. destruct (A4 k) as [Eq | (r1 & r1' & Hr1 & Hr1' & M1)].
      * rewrite Eq in Hr. by exists r, r'.
      * exists r1, r'. simplify_eq. split_and!; try done. by eapply head_change_trans.
Qed.

Lemma query_within p c {A} (q : Statement A) :
  quiet ->
  (forall n db db' x, q (now (weather n)) (later (weather n)) db = Ok (db', x) ->
     within p c db db') ->
  respects (within_state p c) (query weather q).
Proof.
  intros Q Hq st st' r H. unfold query in H. unfold within_state. rewrite Q in H.
  repeat case_match; simplify_eq; simpl; (by eapply Hq) || apply within_refl.
Qed.

Lemma lease_status_within p c id :
  quiet -> respects (within_state p c) (PostgresHostLeaseStore.lease_status weather id).
Proof.
  intros Q. unfold PostgresHostLeaseStore.lease_status. respecting.
  apply query_within; [done |]. intros * [= <- _]. apply within_refl.
Qed.

Lemma get_within p c k :
  quiet -> respects (within_state p c) (PostgresObjectPlacementStore.get weather k).
Proof.
  intros Q. unfold PostgresObjectPlacementStore.get. respecting.
  apply query_within; [done |]. intros * [= <- _]. apply within_refl.
Qed.

Lemma upsert_lease_within p request n db db' x :
  lr_id request = Tokens.host_id p -> lr_session_id request = session_id p ->
  forall d, upsert_lease (lr_id request) (lr_session_id request) (lr_route request) d
    (now (weather n)) (later (weather n)) db = Ok (db', x) ->
  within p (RegisterLease request) db db'.
Proof.
  intros Hi Hs d H. unfold upsert_lease in H. rewrite Hi, Hs in H.
  inv_statement; try apply within_refl; (split; try done; [| by left]; intros id; simpl;
    destruct (decide (id = Tokens.host_id p)) as [-> | Hne];
    [right; rewrite lookup_insert_eq | left; by rewrite lookup_insert_ne]).
  - split; [done |]. split; [by eexists |]. intros l' Hl'. simplify_eq.
    match goal with Hb : _ || _ = true |- _ => apply orb_true_iff in Hb as [Hb | Hb] end;
      bool_prop; [by left | right; exists n; lia].
  - split; [done |]. split; [by eexists |]. intros l' Hl'. congruence.
Qed.

Lemma delete_lease_within p h n db db' x :
  delete_lease (Tokens.host_id p) (session_id p) (now (weather n)) (later (weather n)) db
    = Ok (db', x) -> within p (UnregisterLease h) db db'.
Proof.
  intros H. unfold delete_lease in H. inv_statement; try apply within_refl.
  split; try done; [| by left]. intros id. simpl.
  destruct (decide (id = Tokens.host_id p)) as [-> | Hne];
    [right | left; by rewrite lookup_delete_ne].
  rewrite lookup_delete_eq. bool_prop. split_and!; [done | by eexists | done].
Qed.

Lemma state_head_update_within p actor h e v o rq r now later db db' x :
  sc_object r = storage_key actor -> sc_owner r = Tokens.host_id p ->
  sc_expected_version r = v -> sc_state_object r = o -> sc_request_id r = rq ->
  namespace_id actor = scope_namespace_id (scope p) ->
  validate_snapshot_object_name actor (v + 1) o = Ok tt ->
  state_head_update r now later db = Ok (db', x) ->
  within p (CommitState actor h e v o rq) db db'.
Proof.
  intros Hk Ho Hv Hob Hrq Hn Hname H. destruct x as [row' |].
  - apply update_state_head_Some in H as
      ((row0 & Hrow0 & Hw & He & Hver & _) & row & Hrow & -> & -> & _).
    rewrite Hrow in Hrow0. injection Hrow0 as <-.
    split; try done; [by left |]. intros k. simpl.
    destruct (decide (k = sc_object r)) as [-> | Hne]; [right | left; by rewrite lookup_insert_ne].
    exists row, (committed_row row r). rewrite lookup_insert_eq. split_and!; try done.
    unfold head_moved, committed_row. simpl. split_and!; try done; congruence.
  - apply update_state_head_None in H as [-> _]. apply within_refl.
Qed.

Lemma validate_host_id_Ok p h u : validate_host_id p h = Ok u -> h = Tokens.host_id p.
Proof. unfold validate_host_id. intros H. apply ensure_Ok in H. bool_prop. done. Qed.

Lemma ActorScope_contains_Ok p a :
  ActorScope_contains (scope p) a = true -> namespace_id a = scope_namespace_id (scope p).
Proof. unfold ActorScope_contains. intros H. bool_prop. done. Qed.

Context (Q : quiet) (s : ControlPlaneService) (p : ActorPrincipal).

Lemma register_within request :
  lr_id request = Tokens.host_id p -> lr_session_id request = session_id p ->
  respects (within_state p (RegisterLease request))
    (PostgresHostLeaseStore.register weather request).
Proof.
  intros Hi Hs. unfold PostgresHostLeaseStore.register. respecting.
  apply query_within; [done |]. intros *. by apply upsert_lease_within.
Qed.

Lemma unregister_within h :
  respects (within_state p (UnregisterLease h))
    (PostgresHostLeaseStore.unregister weather (Tokens.host_id p) (session_id p)).
Proof.
  unfold PostgresHostLeaseStore.unregister. respecting.
  apply query_within; [done |]. intros *. apply delete_lease_within.
Qed.

Lemma replacement_host_token_within c :
  respects (within_state p c) (replacement_host_token s p).
Proof. unfold replacement_host_token, at_time. respecting. Qed.

Lemma require_active_host_within c : respects (within_state p c) (require_active_host p).
Proof. unfold require_active_host. respecting. by apply lease_status_within. Qed.

Lemma state_write_ticket_within c r a v :
  respects (within_state p c) (state_write_ticket s r a v).
Proof. unfold state_write_ticket, at_time. respecting. Qed.

Lemma current_placement_within c a : respects (within_state p c) (current_placement a).
Proof. unfold current_placement. respecting. by apply get_within. Qed.

Lemma commit_within actor h e v o rq r :
  sc_object r = storage_key actor -> sc_owner r = Tokens.host_id p ->
  sc_expected_version r = v -> sc_state_object r = o -> sc_request_id r = rq ->
  namespace_id actor = scope_namespace_id (scope p) ->
  validate_snapshot_object_name actor (v + 1) o = Ok tt ->
  respects (within_state p (CommitState actor h e v o rq))
    (PostgresObjectPlacementStore.commit_state weather r).
Proof.
  intros Hk Ho Hv Hob Hrq Hn Hname. unfold PostgresObjectPlacementStore.commit_state.
  apply respects_lift_bind; [apply _ |]; intros _ _.
  apply respects_lift_bind; [apply _ |]; intros e' He'.
  apply respects_lift_bind; [apply _ |]; intros v' Hv'.
  destruct (commit_numbers _ _ _ He' Hv') as (-> & -> & _).
  respecting; [| by apply get_within].
  apply query_within; [done |]. intros n db db' x.
  by apply (state_head_update_within _ _ _ _ _ _ _ _ (now (weather n)) (later (weather n))).
Qed.

Lemma validated_name actor v next o :
  u64_checked_add v 1 = Some next ->
  validate_snapshot_object_name actor next o = Ok tt ->
  validate_snapshot_object_name actor (v + 1) o = Ok tt.
Proof. by intros [-> _]%u64_checked_add_Some. Qed.

Lemma execute_command_within command : 
  respects (within_state p command) (execute_command s p command).
Proof.
  unfold execute_command. apply respects_lift_bind; [apply _ |]; intros _ _.
  destruct command as [request | h | a h e v | a h e v o rq].
  - unfold register_lease. respecting; inv_ok; bool_prop;
      [apply register_within; [by eapply validate_host_id_Ok | done]
      | apply replacement_host_token_within].
  - unfold unregister_lease. respecting.
    match goal with H : validate_host_id _ _ = _ |- _ => apply validate_host_id_Ok in H as -> end.
    apply unregister_within.
  - unfold prepare_state_write. respecting;
      [apply require_active_host_within | apply current_placement_within
      | apply state_write_ticket_within].
  - unfold commit_state. respecting;
      [apply require_active_host_within | | apply state_write_ticket_within..].
    inv_ok.
    match goal with H : validate_host_id _ _ = _ |- _ => apply validate_host_id_Ok in H end.
    match goal with H : ActorScope_contains _ _ = _ |- _ => apply ActorScope_contains_Ok in H end.
    apply commit_within; simpl; try done. by eapply validated_name.
Qed.

(** C10: whatever a host sends, in whatever way the command ends, the control
    plane changes nothing on its behalf but what is its own.  Registering
    writes the row of its own host id, under its own session and with the
    route it sent, over no row, a row of that session, or one that had expired
    by a statement's clock; unregistering removes that row only when it is held
    by its own session; preparing a write changes nothing; a commit moves one
    head, that of an actor of its namespace that it owns, from the expected
    version to the next, in the same epoch and region, to the snapshot named
    for that very actor and version.  A token of another role changes nothing
    and is refused.
    (Stated for a command that runs without interference by others.) *)
Theorem commands_are_confined
    (command : ControlPlaneCommand) (st st' : PgState) (r : anyhow ControlPlaneCommandReply)
    (H : execute_command s p command st = (st', r)) :
  within p command (database st) (database st') /\
  (process_role p <> Host -> st' = st /\ exists e, r = Err e).
Proof.
  split; [by apply (execute_command_within command _ _ _ H) |].
  intros Hr. unfold execute_command, mbind, M_bind, lift in H.
  rewrite bool_decide_eq_false_2 in H by done. simpl in H. simplify_eq. eauto.
Qed.
End Commands.

(** ** Commits *)

(** At some moment of the call that went from [st] to [st'], the table showed
    the placement [p]. *)
Definition placement_shown (st st' : PgState) (p : ObjectPlacement) : Prop :=
  exists db, evolves (database st) db /\ evolves db (database st') /\ shows db p.

(** The head that commits version [v] of [actor]: object [o], request [rq]. *)
Definition committed_head (actor : ActorKey) (v : Z) (o rq : string) (p : ObjectPlacement) : Prop :=
  object p = storage_key actor /\ Placement.state_version p = v /\
  Placement.state_object p = Some o /\ last_request_id p = Some rq.

(** The actor changed hands at least [n] times from some moment of the call on. *)
Definition taken_over (k : ActorStorageKey) (n : nat) (st st' : PgState) : Prop :=
  exists db row row', evolves (database st) db /\ evolves db (database st') /\
    placements db !! k = Some row /\ placements (database st') !! k = Some row' /\
    (row_owner_epoch row + Z.of_nat n <= row_owner_epoch row')%Z.

Section Commits.
Context {E : Surroundings} {T : Jwt} {Parser : UrlParser} {Signer : UrlSigner}.

(** A client moves forward: allowed changes, more statements. *)
Definition advances (st st' : PgState) : Prop :=
  evolves (database st) (database st') /\ Database.statements st <= Database.statements st'.

#[local] Instance advances_preorder : PreOrder advances.
Proof.
  split.
  - intros st. by split.
  - intros a b c [? ?] [? ?]. split; [by etrans | lia].
Qed.

Context (R : rely weather).

Lemma query_advances {A} (q : Statement A) :
  well_behaved q -> respects advances (query weather q).
Proof.
  intros Hq st st' r H. split; [by eapply query_guarantees |].
  unfold query in H. repeat case_match; simplify_eq; simpl; lia.
Qed.

Ltac advancing :=
  respecting; try (apply query_advances; solve [auto with statements]).

Lemma lease_status_advances id :
  respects advances (PostgresHostLeaseStore.lease_status weather id).
Proof. unfold PostgresHostLeaseStore.lease_status. advancing. Qed.

Lemma get_advances k : respects advances (PostgresObjectPlacementStore.get weather k).
Proof. unfold PostgresObjectPlacementStore.get. advancing. Qed.

Lemma current_claim_advances k :
  respects advances (PostgresObjectPlacementStore.current_claim weather k).
Proof. unfold PostgresObjectPlacementStore.current_claim. advancing. apply get_advances. Qed.

Lemma claim_advances k e o r :
  respects advances (PostgresObjectPlacementStore.claim weather k e o r).
Proof.
  unfold PostgresObjectPlacementStore.claim. advancing; apply current_claim_advances.
Qed.

Lemma require_active_host_advances p : respects advances (require_active_host p).
Proof. unfold require_active_host. advancing. apply lease_status_advances. Qed.

Lemma state_write_ticket_advances s r a v : respects advances (state_write_ticket s r a v).
Proof. unfold state_write_ticket, at_time. advancing. Qed.

Lemma state_write_ticket_Ok s r a v st st' t :
  state_write_ticket s r a v st = (st', Ok t) ->
  StorageUrls.state_version t = (v + 1)%Z /\
  validate_snapshot_object_name a (v + 1) (object_name t) = Ok tt.
Proof.
  unfold state_write_ticket, at_time, gets. intros H.
  apply M_bind_Ok in H as (s1 & next & [-> Hn]%lift_Ok & H). apply some_or_Ok in Hn.
  apply u64_checked_add_Some in Hn as [-> Hmax].
  unfold mbind, M_bind, lift in H. injection H as _ H. unfold write_ticket in H. inv_ok.
  simpl. split; [done |]. by eapply snapshot_object_name_validates.
Qed.

Lemma state_committed_facts
    (s : ControlPlaneService) (p : ActorPrincipal) (actor : ActorKey) (h : HostId)
    (epoch expected : Z) (o rq : string) (st st' : PgState) (v : Z)
    (next : option StateWriteTicket)
    (H : execute_command s p (CommitState actor h epoch expected o rq) st =
         (st', Ok (StateCommitted v next))) :
  process_role p = Host /\ h = Tokens.host_id p /\
  namespace_id actor = scope_namespace_id (scope p) /\ v = (expected + 1)%Z /\
  (exists l st1, require_active_host p st = (st1, Ok l) /\ hl_session_id l = session_id p) /\
  validate_snapshot_object_name actor v o = Ok tt /\
  (exists placement, placement_shown st st' placement /\ committed_head actor v o rq placement) /\
  (forall t, next = Some t -> StorageUrls.state_version t = (v + 1)%Z /\
     validate_snapshot_object_name actor (v + 1) (object_name t) = Ok tt).
Proof.
  unfold execute_command in H. inv_client. bool_prop. unfold commit_state in H0. inv_client.
  match goal with Hh : validate_host_id _ _ = _ |- _ => apply validate_host_id_Ok in Hh as -> end.
  match goal with Hh : ActorScope_contains _ _ = _ |- _ => apply ActorScope_contains_Ok in Hh end.
  match goal with Hh : u64_checked_add _ _ = _ |- _ =>
    apply u64_checked_add_Some in Hh as [-> _] end.
  destruct x12 as [c |]; inv_ok.
  match goal with Hh : PostgresObjectPlacementStore.commit_state _ _ _ = _ |- _ =>
    apply (commit_state_Committed _ _ _ _ _ R) in Hh as (db & Hdb & Hdb' & Hs & Ho & Hv & Hob & Hrq) end.
  simpl in *. rewrite Hv in *.
  match goal with Ha : require_active_host _ _ = _ |- _ =>
    pose proof (require_active_host_advances p _ _ _ Ha) as [Hadv _];
    pose proof Ha as Hl; unfold require_active_host in Hl end.
  match goal with Ht : attempt _ _ = _ |- _ => rename Ht into Htk end.
  unfold attempt in Htk. destruct (state_write_ticket _ _ _ _ _) as [s2 r2] eqn:Et.
  injection Htk as -> ->.
  split_and!; try done.
  - eexists _, _. split; [done |]. inv_client. by bool_prop.
  - exists x14. split; [| done]. exists db. split_and!; [by etrans | | done].
    etrans; [done |]. apply (state_write_ticket_advances _ _ _ _ _ _ _ Et).
  - intros t Ht. destruct x16; simplify_eq/=. by eapply state_write_ticket_Ok.
Qed.

Lemma execute_command_advances s p command : respects advances (execute_command s p command).
Proof.
  unfold execute_command, register_lease, unregister_lease, prepare_state_write, commit_state,
    replacement_host_token, current_placement, at_time,
    PostgresHostLeaseStore.register, PostgresHostLeaseStore.unregister,
    PostgresObjectPlacementStore.commit_state.
  advancing; first [apply require_active_host_advances | apply get_advances
                   | apply state_write_ticket_advances | idtac].
  all: try (destruct command; advancing).
Qed.

(** A prepared write is a ticket for the next version. *)
Lemma state_write_prepared s p actor h epoch expected st st' t :
  execute_command s p (PrepareStateWrite actor h epoch expected) st
  = (st', Ok (StateWriteTicketReply t)) ->
  exists region st1 st2, state_write_ticket s region actor expected st1 = (st2, Ok t).
Proof.
  intros H. unfold execute_command in H. inv_client. unfold prepare_state_write in H0. inv_client.
  do 3 eexists. done.
Qed.

Lemma state_committed_ticket s p actor h epoch expected o rq st st' v t :
  execute_command s p (CommitState actor h epoch expected o rq) st
  = (st', Ok (StateCommitted v (Some t))) ->
  exists region st1 st2 v', state_write_ticket s region actor v' st1 = (st2, Ok t).
Proof.
  intros H. unfold execute_command in H. inv_client. unfold commit_state in H0. inv_client.
  match goal with Ht : attempt _ _ = _ |- _ => rename Ht into Htk end.
  unfold attempt in Htk. destruct (state_write_ticket _ _ _ _ _) as [s2 r2] eqn:Et.
  injection Htk as -> ->. do 4 eexists. rewrite Et. f_equal.
  match goal with H : result_ok ?r = Some t |- _ => destruct r; by simplify_eq/= end.
Qed.

(** C4: "committed" is what it says, for whom it says: the reply
    [StateCommitted v next] to a host's commit means the host is the one the
    token names, the actor is in its namespace, its own session held an
    unexpired lease when the control plane looked, the snapshot is named for
    this actor and version [v] (the expected one plus one), and at some moment
    during the call the placement table showed exactly this head, from which
    every later head descends; the ticket that comes with it is for the next
    version of the same actor. *)
Theorem state_committed_durable
    (s : ControlPlaneService) (p : ActorPrincipal) (actor : ActorKey) (h : HostId)
    (epoch expected : Z) (o rq : string) (st st' : PgState) (v : Z)
    (next : option StateWriteTicket)
    (H : execute_command s p (CommitState actor h epoch expected o rq) st =
         (st', Ok (StateCommitted v next))) :
  process_role p = Host /\ h = Tokens.host_id p /\
  namespace_id actor = scope_namespace_id (scope p) /\ v = (expected + 1)%Z /\
  (exists l st1, require_active_host p st = (st1, Ok l) /\ hl_session_id l = session_id p) /\
  validate_snapshot_object_name actor v o = Ok tt /\
  (exists placement, placement_shown st st' placement /\ committed_head actor v o rq placement) /\
  (forall t, next = Some t -> StorageUrls.state_version t = (v + 1)%Z /\
     validate_snapshot_object_name actor (v + 1) (object_name t) = Ok tt).
Proof. by eapply state_committed_facts. Qed.
End Commits.

(** ** Routing *)

Section Routing.
Context {E : Surroundings} {T : Jwt} {Parser : UrlParser} {Signer : UrlSigner}.
Context (R : rely weather).
#[local] Existing Instance advances_preorder.

(** During the call that went from [st] to [st'], the lease store reported the
    lease [l] as unexpired. *)
Definition lease_reported (st st' : PgState) (l : HostLease) : Prop :=
  exists st1 st2 status, advances st st1 /\ advances st2 st' /\
    PostgresHostLeaseStore.lease_status weather (hl_id l) st1 = (st2, Ok status) /\
    is_active status = true /\ lease status = Some l.

(** What the control plane relies on from a provisioner and a registry. *)
Class HostProvisionerLaws (p : HostProvisioner) : Prop := {
  ensure_host_advances spec region : respects advances (ensure_host p spec region);
  ensure_host_live spec region st st' l :
    ensure_host p spec region st = (st', Ok l) -> lease_reported st st' l;
  public_host_route_advances spec region : respects advances (public_host_route p spec region);
}.
Class AdminRegistryLaws (r : AdminRegistry) : Prop := {
  launch_spec_advances ns : respects advances (launch_spec (AdminRegistry := r) ns);
}.

#[export] Instance postgres_registry_laws : AdminRegistryLaws (PostgresAdminRegistry weather).
Proof.
  split. intros ns. simpl. unfold postgres_launch_spec. respecting.
  apply query_advances; [done |]. auto with statements.
Qed.

Lemma active_status_lease id st st' status l :
  PostgresHostLeaseStore.lease_status weather id st = (st', Ok status) ->
  lease status = Some l -> hl_id l = id.
Proof.
  unfold PostgresHostLeaseStore.lease_status. intros H Hl. inv_client.
  simpl in Hl. subst. match goal with q : Z * option LeaseRow |- _ => destruct q as [? [row |]] end;
    simpl in *; by inv_ok.
Qed.

Section Sandbox.
Context {Q : SandboxProvider} (p : SandboxHostProvisioner).

Lemma sandbox_request_advances spec region :
  respects advances (sandbox_request p spec region).
Proof. unfold sandbox_request, at_time. respecting. Qed.

Lemma active_lease_advances handle region : respects advances (active_lease handle region).
Proof. unfold active_lease. respecting. by apply lease_status_advances. Qed.

(** The sandbox provisioner keeps its promise, whatever the provider answers. *)
#[export] Instance sandbox_provisioner_laws : HostProvisionerLaws (sandbox_provisioner p).
Proof.
  split; simpl; unfold sandbox_ensure_host.
  - intros spec region. respecting; [apply sandbox_request_advances | |].
    + unfold at_time. respecting.
    + apply active_lease_advances.
  - intros spec region st st' l H. apply M_bind_Ok in H as (s1 & rq & H1 & H).
    apply sandbox_request_advances in H1.
    unfold at_time, gets, mbind, M_bind, lift in H.
    destruct (provider_ensure_host _ rq) as [handle |]; [| done].
    unfold active_lease in H. inv_client. bool_prop.
    match goal with Hs : PostgresHostLeaseStore.lease_status _ _ _ = _ |- _ =>
      rename Hs into Hst end.
    match goal with Hl : lease _ = Some _ |- _ =>
      pose proof (active_status_lease _ _ _ _ _ Hst Hl) as Hid end.
    eexists _, _, _. rewrite Hid. split_and!; done.
  - intros spec region. unfold sandbox_public_host_route, at_time. respecting.
Qed.
End Sandbox.

(** *** Claims *)

Lemma current_claim_Ok k st st' c :
  PostgresObjectPlacementStore.current_claim weather k st = (st', Ok c) ->
  exists row, c = CurrentClaim (placement_of_row k row) /\ placements (database st') !! k = Some row /\
    database st' = others (weather (Database.statements st)) (database st).
Proof.
  unfold PostgresObjectPlacementStore.current_claim. intros H. inv_client.
  match goal with Hm : CurrentClaim <$> ?o = Some _ |- _ => destruct o as [q |]; [| done] end.
  simplify_eq/=. match goal with Hg : PostgresObjectPlacementStore.get _ _ _ = _ |- _ =>
    apply get_Ok in Hg as (? & (row & ? & Hrow) & ?) end. exists row. subst. rewrite <- Hrow. eauto.
Qed.

Lemma shows_row db k row : placements db !! k = Some row -> shows db (placement_of_row k row).
Proof. intros H. by exists row. Qed.

Lemma transfer_placement_None obj o eo ee reg now later db db' :
  transfer_placement obj o eo ee reg now later db = Ok (db', None) ->
  db' = db /\ forall row, placements db !! obj = Some row -> row_owner_host_id row = eo ->
    row_owner_epoch row = ee -> row_home_region row = reg -> False.
Proof.
  intros H. unfold transfer_placement in H. inv_statement; (split; [done |]); [| done].
  intros row Hr Ho He Hg. simplify_eq.
  match goal with Hb : _ && _ = false |- _ => apply not_true_iff_false in Hb; apply Hb end.
  rewrite !andb_true_iff, !bool_decide_eq_true, Z.eqb_eq. done.
Qed.

(** A claim shows what it answers; when the answer names another owner although
    the row at hand was the expected one, the epoch has moved on. *)
Lemma claim_Ok k expected o region st st' c :
  PostgresObjectPlacementStore.claim weather k expected o region st = (st', Ok c) ->
  shows (database st') (claimed_placement c) /\ object (claimed_placement c) = k /\
  (owner (claimed_placement c) = o \/
   forall row e, placements (database st) !! k = Some row -> expected = Some e ->
     owner e = row_owner_host_id row -> Placement.owner_epoch e = row_owner_epoch row ->
     home_region e = row_home_region row -> (row_owner_epoch row < Placement.owner_epoch (claimed_placement c))%Z).
Proof.
  unfold PostgresObjectPlacementStore.claim. intros H. inv_client. destruct expected as [e |].
  - inv_client. bool_prop. case_bool_decide as Ho; [| inv_client].
    + match goal with Hc : PostgresObjectPlacementStore.current_claim _ _ _ = _ |- _ =>
        apply current_claim_Ok in Hc as (row' & -> & Hrow' & Hdb) end.
      split_and!; [by apply shows_row | done |]. simpl.
      destruct (decide (row_owner_host_id row' = o)) as [| Hne]; [by left | right].
      intros row e' Hrow [= <-] He1 He2 He3. rewrite Hdb in Hrow'.
      destruct (R (Database.statements st) (database st) _ row Hrow) as (row2 & Hrow2 & Hev).
      simplify_eq/=. destruct Hev as (_ & Hle & _ & Hown & _).
      destruct (decide (row_owner_epoch row' = row_owner_epoch row)); [| lia].
      by rewrite Hown in Hne.
    + match goal with Hf : i64_from_u64 _ _ = _ |- _ => apply i64_from_u64_Ok in Hf as [-> _] end.
      match goal with Ht : transfer_placement _ _ _ _ _ _ _ _ = Ok (_, ?x) |- _ =>
        destruct x as [row' |]; [apply transfer_placement_Some in Ht as (? & _ & _ & _ & _ & -> & Hdb)
                                | apply transfer_placement_None in Ht as [Hdb Hno]] end.
      * inv_client.
        match goal with Hp : placement_from_row _ _ = _ |- _ => apply placement_from_row_Ok in Hp as -> end.
        split_and!; try done; [| by left]. eexists. split; [| done].
        rewrite Hdb. apply lookup_insert_eq.
      * match goal with Hc : PostgresObjectPlacementStore.current_claim _ _ _ = _ |- _ =>
          apply current_claim_Ok in Hc as (row' & -> & Hrow' & Hdb') end.
        split_and!; [by apply shows_row | done |]. right. intros row e' Hrow [= <-] He1 He2 He3.
        destruct (R (Database.statements st) (database st) _ row Hrow) as (row1 & Hrow1 & Hev1). rewrite <- Hdb in Hrow1.
        match type of Hdb' with database _ = others (weather ?n) ?d =>
          destruct (R n d _ row1 Hrow1) as (row2 & Hrow2 & Hev2) end.
        rewrite <- Hdb' in Hrow2.
        simplify_eq/=. destruct Hev1 as (Hreg & Hle1 & _ & Hown & _), Hev2 as (_ & Hle2 & _).
        destruct (decide (row_owner_epoch row1 = row_owner_epoch row)) as [Heq |]; [| lia].
        rewrite Hdb in Hrow1. exfalso.
        apply (Hno row1); [done | rewrite Hown by done | |]; congruence.
  - inv_client.
    match goal with Ht : insert_placement _ _ _ _ _ _ = Ok (_, ?x) |- _ =>
      destruct x as [row' |]; [apply insert_placement_Some in Ht as (_ & -> & Hdb) |] end.
    + inv_client.
      match goal with Hp : placement_from_row _ _ = _ |- _ => apply placement_from_row_Ok in Hp as -> end.
      split_and!; try done; [| by left]. eexists. split; [| done].
      rewrite Hdb. apply lookup_insert_eq.
    + match goal with Hc : PostgresObjectPlacementStore.current_claim _ _ _ = _ |- _ =>
        apply current_claim_Ok in Hc as (row' & -> & Hrow' & _) end.
      split_and!; [by apply shows_row | done |]. by right.
Qed.

Lemma get_None k st st' :
  PostgresObjectPlacementStore.get weather k st = (st', Ok None) ->
  placements (database st') !! k = None.
Proof.
  unfold PostgresObjectPlacementStore.get. intros H. inv_client.
  match goal with Hs : select_placement _ _ _ _ = Ok (_, ?o) |- _ =>
    unfold select_placement in Hs; injection Hs as Hdb Hrow; destruct o end; inv_client.
  congruence.
Qed.

(** *** The routing loop *)

Lemma active_target_advances current spec : respects advances (active_target current spec).
Proof. unfold active_target. respecting. by apply lease_status_advances. Qed.

Lemma lease_reported_mono st0 st st' st1 l :
  advances st0 st -> advances st' st1 -> lease_reported st st' l -> lease_reported st0 st1 l.
Proof.
  intros H0 H1 (a & b & status & Ha & Hb & H). exists a, b, status.
  split_and!; [by etrans | by etrans | apply H..].
Qed.

Lemma placement_shown_mono st0 st st' st1 p :
  advances st0 st -> advances st' st1 -> placement_shown st st' p -> placement_shown st0 st1 p.
Proof.
  intros [H0 _] [H1 _] (db & Ha & Hb & H). exists db. split_and!; [by etrans | by etrans | done].
Qed.

Lemma active_target_Ok current spec st st' t :
  active_target current spec st = (st', Ok (Some t)) ->
  current = Some (ra_placement t) /\ owner (ra_placement t) = hl_id (ra_lease t) /\
  ra_spec t = spec /\ lease_reported st st' (ra_lease t) /\
  host_matches_revision (hl_id (ra_lease t)) (spec_namespace_id spec) (spec_code_revision spec) = true.
Proof.
  unfold active_target. intros H. destruct current as [pl |]; [| inv_client].
  case_match eqn:Hm; [inv_client |]. bool_prop. inv_client.
  case_match eqn:Ha; inv_client. bool_prop. simpl.
  match goal with Hs : PostgresHostLeaseStore.lease_status _ _ _ = _ |- _ =>
    rename Hs into Hst end.
  match goal with Hl : lease _ = Some _ |- _ =>
    pose proof (active_status_lease _ _ _ _ _ Hst Hl) as Hid end.
  rewrite Hid. split_and!; try done. eexists _, _, _. rewrite Hid. split_and!; done.
Qed.

Section Loop.
Context (s : ControlPlaneService) (actor : ActorKey) (region : string).
Context (prov : option HostProvisioner) (spec : HostLaunchSpec).
Context (Hprov : forall p, prov = Some p -> HostProvisionerLaws p).
Let k := storage_key actor.

(** What a routed actor is. *)
Record routed_ok (st st' : PgState) (t : RoutedActor) : Prop := {
  ro_actor : object (ra_placement t) = k;
  ro_owner : owner (ra_placement t) = hl_id (ra_lease t);
  ro_spec : ra_spec t = spec;
  ro_lease : lease_reported st st' (ra_lease t);
  ro_placement : placement_shown st st' (ra_placement t);
}.

(** One round, unfolded: it routes, or it lost a claim. *)
Lemma route_round fuel st st' r :
  route_loop s (S fuel) actor region prov spec st = (st', Ok r) ->
  (exists t, r = Some t /\ routed_ok st st' t) \/
  (exists current st0 st1 row, PostgresObjectPlacementStore.get weather k st = (st0, Ok current) /\
     advances st0 st1 /\ placements (database st1) !! k = Some row /\
     (forall p, current = Some p -> (Placement.owner_epoch p < row_owner_epoch row)%Z) /\
     route_loop s fuel actor region prov spec st1 = (st', Ok r)).
Proof.
  simpl. intros H. apply M_bind_Ok in H as (st0 & current & Hget & H).
  pose proof (get_advances R _ _ _ _ Hget) as A0.
  apply M_bind_Ok in H as (sta & active & Hact & H).
  pose proof (active_target_advances _ _ _ _ _ Hact) as A1.
  destruct active as [t |].
  - inv_client. left. exists t. split; [done |].
    apply active_target_Ok in Hact as (-> & Ho & Hs & Hl & _).
    apply get_Ok in Hget as (_ & Hshow & Hobj). split; try done.
    + eapply lease_reported_mono; [done | reflexivity | done].
    + exists (database st0). split_and!; [apply A0 | apply A1 | done].
  - apply M_bind_Ok in H as (? & reg & [-> _]%lift_Ok & H).
    apply M_bind_Ok in H as (? & p & [-> Hp%some_or_Ok]%lift_Ok & H).
    apply M_bind_Ok in H as (ste & l & Hens & H).
    pose proof (ensure_host_advances (HostProvisionerLaws := Hprov p Hp) _ _ _ _ _ Hens) as A2.
    apply M_bind_Ok in H as (stc & c & Hclaim & H).
    pose proof (claim_advances R _ _ _ _ _ _ _ Hclaim) as A3.
    pose proof (claim_Ok _ _ _ _ _ _ _ Hclaim) as (Hshow & Hobj & Hlost).
    case_bool_decide as Hown.
    + inv_client. left. eexists. split; [done |]. split; simpl; try done.
      * eapply lease_reported_mono; [| exact A3 |]; [| by apply (ensure_host_live (HostProvisionerLaws := Hprov p eq_refl) _ _ _ _ _ Hens)].
        by etrans.
      * eexists. split_and!; [| reflexivity | exact Hshow].
        etrans; [apply A0 |]. etrans; [apply A1 |]. etrans; [apply A2 | apply A3].
    + right. destruct Hlost as [| Hlost]; [done |].
      destruct Hshow as (row & Hrow & Heq). rewrite Hobj in *.
      exists current, st0, stc, row. split_and!; try done.
      * etrans; [done |]. by etrans.
      * intros pl ->. apply get_Ok in Hget as (_ & (row0 & Hrow0 & Heq0) & Hobj0).
        rewrite Hobj0 in *.
        destruct (proj1 (transitivity A1 A2) _ _ Hrow0) as (row1 & Hrow1 & Hreg & Hle & _ & Hsame & _).
        destruct (proj1 A3 _ _ Hrow1) as (row2 & Hrow2 & _ & Hle2 & _).
        rewrite Heq0, Heq in *. simplify_eq/=.
        destruct (decide (row_owner_epoch row1 = row_owner_epoch row0)) as [Hsm |]; [| lia].
        rewrite <- Hsm. apply (Hlost row1 _ Hrow1 eq_refl); simpl; [by rewrite Hsame | done | done].
Qed.

Lemma route_loop_advances fuel : respects advances (route_loop s fuel actor region prov spec).
Proof.
  induction fuel as [| fuel IH]; simpl; [respecting |].
  respecting; [by apply get_advances | apply active_target_advances | | by apply claim_advances].
  match goal with Hp : some_or _ _ = Ok _ |- _ =>
    exact (ensure_host_advances (HostProvisionerLaws := Hprov _ (proj1 (some_or_Ok _ _ _) Hp)) _ _)
  end.
Qed.

Lemma route_loop_Ok fuel st st' t :
  route_loop s fuel actor region prov spec st = (st', Ok (Some t)) -> routed_ok st st' t.
Proof.
  revert st. induction fuel as [| fuel IH]; intros st H; [simpl in H; inv_client |].
  apply route_round in H as
    [(t' & [= <-] & Ht) | (current & st0 & st1 & row & Hg & A1 & _ & _ & Hloop)]; [done |].
  pose proof (get_advances R _ _ _ _ Hg) as A0. destruct (IH _ Hloop) as [H1 H2 H3 H4 H5].
  split; try done.
  - eapply lease_reported_mono; [by etrans | reflexivity | done].
  - eapply placement_shown_mono; [by etrans | reflexivity | done].
Qed.

(** Every lost round costs the actor one change of hands. *)
Lemma route_loop_exhausted fuel st st' row :
  route_loop s fuel actor region prov spec st = (st', Ok None) ->
  placements (database st) !! k = Some row ->
  exists row', placements (database st') !! k = Some row' /\
    (row_owner_epoch row + Z.of_nat fuel <= row_owner_epoch row')%Z.
Proof.
  revert st row. induction fuel as [| fuel IH]; intros st row H Hrow.
  - simpl in H. inv_client. exists row. split; [done | lia].
  - apply route_round in H as
      [(t' & [=] & _) | (current & st0 & st1 & row1 & Hg & A1 & Hrow1 & Hlt & Hloop)].
    destruct (IH _ _ Hloop Hrow1) as (row' & Hrow' & Hle). exists row'. split; [done |].
    pose proof (get_advances R _ _ _ _ Hg) as [A0 _].
    destruct (A0 _ _ Hrow) as (row0 & Hrow0 & _ & Hle0 & _).
    destruct current as [p |].
    + apply get_Ok in Hg as (_ & (r & Hr & Hp) & Ho). rewrite Ho in *.
      specialize (Hlt p eq_refl). rewrite Hp in Hlt. simplify_eq/=. lia.
    + apply get_None in Hg. subst k. congruence.
Qed.
End Loop.

Context (s : ControlPlaneService) (dep : RoutingDependencies).
Context (Hdep : routing s = Some dep) {Hreg : AdminRegistryLaws (registry dep)}.
Context (Hprov : forall p, provisioner dep = Some p -> HostProvisionerLaws p).

Lemma route_actor_Ok fuel actor region st st' r :
  route_actor s fuel actor region st = (st', Ok r) ->
  exists spec st1, advances st st1 /\
    launch_spec (AdminRegistry := registry dep) (namespace_id actor) st = (st1, Ok (Some spec)) /\
    route_loop s fuel actor region (provisioner dep) spec st1 = (st', Ok r).
Proof.
  unfold route_actor. rewrite Hdep. intros H. apply M_bind_Ok in H as (? & ? & [-> [= <-]]%lift_Ok & H).
  apply M_bind_Ok in H as (st1 & o & Hs & H).
  apply M_bind_Ok in H as (? & spec & [-> Ho%some_or_Ok]%lift_Ok & H). subst o.
  exists spec, st1. split_and!; [exact (launch_spec_advances _ _ _ _ Hs) | done | done].
Qed.

(** C21: routing hands out owners only: the placement a workflow is routed by was
    in the table during the call, belongs to the actor asked for and is owned by
    exactly the host whose lease goes with it, and the lease store reported that
    lease as unexpired during the same call; the launch specification is the one
    registered for the actor's namespace. *)
Theorem routed_actor_owned
    (fuel : nat) (actor : ActorKey) (region : string) (st st' : PgState) (t : RoutedActor)
    (H : route_actor s fuel actor region st = (st', Ok (Some t))) :
  object (ra_placement t) = storage_key actor /\
  owner (ra_placement t) = hl_id (ra_lease t) /\
  placement_shown st st' (ra_placement t) /\ lease_reported st st' (ra_lease t) /\
  exists st1, launch_spec (AdminRegistry := registry dep) (namespace_id actor) st =
    (st1, Ok (Some (ra_spec t))).
Proof.
  apply route_actor_Ok in H as (spec & st1 & A & Hs & H).
  destruct (route_loop_Ok _ _ _ _ _ Hprov _ _ _ _ H) as [H1 H2 H3 H4 H5].
  split_and!; try done.
  - by eapply placement_shown_mono.
  - by eapply lease_reported_mono.
  - exists st1. by rewrite H3.
Qed.

(** The public route of a target is looked up while the tables move on. *)
Lemma public_route_of_advances t st st' r :
  public_route_of s t st = (st', r) -> advances (pg st) (pg st').
Proof.
  unfold public_route_of, flatten_error, cached, mbind, M_bind, gets, mret, M_ret, lift, on_pg.
  intros H. destruct (starts_with _ _); [by simplify_eq|].
  destruct (fresh _); [destruct (public_routes st !! _); [by simplify_eq |] |];
    (unfold service_provisioner in H; rewrite Hdep in H; simpl in H;
     destruct (provisioner dep) as [p |] eqn:Hp; [| by simplify_eq/=]; simpl in H;
     destruct (public_host_route p _ _ _) as [st1 r1] eqn:Hr;
     pose proof (public_host_route_advances (HostProvisionerLaws := Hprov p eq_refl) _ _ _ _ _ Hr);
     destruct r1; by simplify_eq/=).
Qed.

(** A workflow is sent to a version that the placement table showed, with the URL
    of that version's object. *)
Lemma resolved_target_shown fuel principal actor kind st st' t :
  resolve_workflow_route s fuel principal actor kind st = (st', Ok (Some t)) ->
  exists db row, evolves (database (pg st)) db /\ evolves db (database (pg st')) /\
    placements db !! storage_key actor = Some row /\
    row_state_version row = target_state_version t /\
    match row_state_object row with
    | None => target_state_read_url t = ""
    | Some obj => exists region, read_url (storage_urls s) region obj = Ok (target_state_read_url t)
    end.
Proof.
  unfold resolve_workflow_route. intros H. inv_client.
  unfold on_pg at 1 in H1. destruct (route_actor _ _ _ _ _) as [st1 r1] eqn:Hroute.
  injection H1 as <- ->. destruct x4 as [target |]; [| by inv_client].
  apply routed_actor_owned in Hroute as (Hobj & _ & (db & Hdb & Hdb' & (row & Hrow & Hp)) & _).
  apply M_bind_Ok in H2 as (? & u & [-> Hu]%lift_Ok & H2).
  apply M_bind_Ok in H2 as (? & issuer & [-> _]%lift_Ok & H2).
  apply M_bind_Ok in H2 as (st2 & elapsed & Htime & H2).
  apply M_bind_Ok in H2 as (? & issued & [-> _]%lift_Ok & H2).
  apply M_bind_Ok in H2 as (st3 & route & Hkind & [-> [= <-]]%M_ret_Ok).
  unfold on_pg, at_time, gets in Htime. injection Htime as <- _.
  assert (evolves (database st1) (database (pg st3))) as Hlast.
  { destruct kind; [destruct (_ && _)|]; [by inv_client | |];
      by apply public_route_of_advances in Hkind as [? _]. }
  rewrite Hobj in Hrow. exists db, row. rewrite Hp in Hu |- *. simpl in *.
  split_and!; [done | by etrans | done | done |].
  destruct (row_state_object row); [by exists (row_home_region row) | by injection Hu as <-].
Qed.

(** A round is repeated only when somebody else took the actor over in the
    meantime: a call that is still undecided after [n + 1] rounds has seen the
    actor change hands at least [n] times while it ran. *)
Lemma routing_rounds_are_takeovers
    (n : nat) (actor : ActorKey) (region : string) (st st' : PgState)
    (H : route_actor s (S n) actor region st = (st', Ok None)) :
  taken_over (storage_key actor) n st st'.
Proof.
  apply route_actor_Ok in H as (spec & st1 & A & Hs & H).
  apply route_round in H as
    [(t' & [=] & _) | (current & st0 & st2 & row & Hg & A1 & Hrow & _ & H)]; [| done].
  destruct (route_loop_exhausted _ _ _ _ _ Hprov _ _ _ _ H Hrow) as (row' & Hrow' & Hle).
  pose proof (get_advances R _ _ _ _ Hg) as A0.
  exists (database st2), row, row'. split_and!; try done.
  - apply (transitivity A (transitivity A0 A1)).
  - apply (route_loop_advances _ _ _ _ _ Hprov _ _ _ _ H).
Qed.
End Routing.

(** ** A deployment *)

#[local] Instance plain_signer : UrlSigner := {|
  sign_url bucket object method _ _ _ :=
    Ok ("https://storage/" +:+ method +:+ "/" +:+ bucket +:+ "/" +:+ object);
|}.

Definition calm_surroundings : Surroundings := {|
  weather := calm 1000000;
  clock _ _ := Some 1000000%Z;
  uuid _ _ := sample_session;
  nonce _ := "0123456789abcdef0123456789abcdef";
  fresh _ := true;
|}.

Definition sample_principal : ActorPrincipal :=
  {| scope := {| scope_namespace_id := "acme" |}; Tokens.host_id := sample_host;
     session_id := sample_session; process_role := Host; Tokens.region := "eu";
     private_routing := false; code_revision := Some "r1"; expires_at := 5000;
     invocation := None |}.

Definition owned_row : PlacementRow :=
  {| row_owner_host_id := sample_host; row_owner_epoch := 3; row_home_region := "eu";
     row_state_version := 6;
     row_state_object :=
       Some "snapshots/01/0123456789abcdef0123456789abcdee/acme/Counter/1/6.json";
     row_last_request_id := Some "r6" |}.

Definition deployment_database : Database := {|
  host_leases :=
    {[ sample_host := {| row_session_id := sample_session; row_route := "https://h";
                         row_expires_at_ms := 5000000 |};
       "host-b" := {| row_session_id := sample_session; row_route := "https://b/";
                      row_expires_at_ms := 5000000 |} ]};
  placements := {[ "object.v1.acme.Counter.1" := owned_row ]};
  namespaces := {[ "acme" ]};
  project_specs := {[ "acme" := row_of_spec sample_spec ]} |}.

Definition deployment_start : PgState :=
  {| database := deployment_database; Database.statements := 0 |}.

Definition sample_commit_command : ControlPlaneCommand :=
  CommitState sample_actor sample_host 3 6
    "snapshots/01/0123456789abcdef0123456789abcdef/acme/Counter/1/7.json" "req".

Section CalmDeployment.
#[local] Existing Instance calm_surroundings.

Definition calm_service : ControlPlaneService :=
  {| storage_urls := {| buckets := {[ "eu" := "objects" ]} |};
     auth := sample_verifier "control" ControlPlane;
     host_token_issuer := Some sample_issuer;
     routing := Some {| registry := PostgresAdminRegistry weather; provisioner := None |} |}.

Lemma calm_surroundings_rely : rely weather.
Proof. intros n db. reflexivity. Defined.

Lemma calm_quiet : quiet.
Proof. intros n db. reflexivity. Defined.

Lemma commands_are_confined_witness :
  exists st' r, execute_command calm_service sample_principal sample_commit_command
      deployment_start = (st', Ok r) /\
    within sample_principal sample_commit_command deployment_database (database st') /\
    database st' <> deployment_database.
Proof.
  destruct (execute_command calm_service sample_principal sample_commit_command deployment_start)
    as [st' [r | e]] eqn:H; [| vm_compute in H; discriminate].
  exists st', r. split; [reflexivity |]. split.
  - apply (commands_are_confined calm_quiet calm_service sample_principal
      sample_commit_command deployment_start st' (Ok r) H).
  - vm_compute in H. injection H as <- _. vm_compute. discriminate.
Defined.

Lemma state_committed_durable_witness :
  exists st' next, execute_command calm_service sample_principal sample_commit_command
      deployment_start = (st', Ok (StateCommitted 7 next)) /\
    exists db placement, shows db placement /\ Placement.state_version placement = 7%Z.
Proof.
  destruct (execute_command calm_service sample_principal sample_commit_command deployment_start)
    as [st' [[| | | v next] | e]] eqn:H; try (vm_compute in H; discriminate).
  assert (Hv : v = 7%Z) by (vm_compute in H; injection H as _ <- _; reflexivity). subst v.
  exists st', next. split; [reflexivity |].
  destruct (state_committed_durable calm_surroundings_rely calm_service sample_principal sample_actor
    sample_host 3 6 _ "req" deployment_start st' 7 next H)
    as (_ & _ & _ & _ & _ & _ & (pl & (db & _ & _ & Hs) & _ & Hv & _) & _).
  exists db, pl. exact (conj Hs Hv).
Defined.

Lemma routed_actor_owned_witness :
  exists st' t, route_actor calm_service 1 sample_actor "eu" deployment_start = (st', Ok (Some t)) /\
    hl_id (ra_lease t) = sample_host /\ owner (ra_placement t) = hl_id (ra_lease t).
Proof.
  destruct (route_actor calm_service 1 sample_actor "eu" deployment_start)
    as [st' [[t |] | e]] eqn:H; try (vm_compute in H; discriminate).
  exists st', t. split; [reflexivity |]. split.
  - vm_compute in H. injection H as _ <-. reflexivity.
  - edestruct (routed_actor_owned calm_surroundings_rely calm_service
      {| registry := PostgresAdminRegistry weather; provisioner := None |} eq_refl
      (Hreg := postgres_registry_laws calm_surroundings_rely)) as (_ & Ho & _);
      [| exact H | exact Ho].
    intros p Hp. discriminate.
Defined.
End CalmDeployment.

(** *** An actor that everybody wants

    Before every statement of this client, somebody else takes the actor, as
    long as the epoch's column has room. *)

Definition take_over (db : Database) : Database :=
  match placements db !! "object.v1.acme.Counter.1" with
  | Some row =>
      if (row_owner_epoch row <? i64_max)%Z then
        set_placements <[ "object.v1.acme.Counter.1" :=
          {| row_owner_host_id := "host.v1.acme.r0.x"; row_owner_epoch := row_owner_epoch row + 1;
             row_home_region := row_home_region row; row_state_version := row_state_version row;
             row_state_object := row_state_object row;
             row_last_request_id := row_last_request_id row |} ]> db
      else db
  | None => db
  end.

Definition contended_surroundings : Surroundings := {|
  weather n := {| others := take_over; now := 1000000; later := 1000000; fault := NoFault |};
  clock _ _ := Some 1000000%Z;
  uuid _ _ := sample_session;
  nonce _ := "0123456789abcdef0123456789abcdef";
  fresh _ := true;
|}.

Lemma contended_rely : rely (weather (Surroundings := contended_surroundings)).
Proof.
  intros n db. simpl. unfold take_over. destruct (placements db !! _) eqn:Hr; [| reflexivity].
  destruct (_ <? _)%Z; [| reflexivity].
  apply evolves_insert. intros r0 H0. simplify_eq. unfold row_evolves. simpl.
  split_and!; try done; lia.
Defined.

Section ContendedDeployment.
#[local] Existing Instance contended_surroundings.

#[local] Instance always_host_b : SandboxProvider := {|
  provider_ensure_host _ request := Ok {| handle_host_id := "host-b"; handle_route := "https://b/";
    handle_canonical_region := er_canonical_region request; provisioning := None |};
  provider_public_host_route _ _ := Err ["no route"];
  provider_warm_image _ _ := Err ["no image"];
  provider_terminate_hosts _ _ := Err ["no hosts"];
|}.

Definition contended_provisioner : SandboxHostProvisioner :=
  {| runtime := {| control_plane_url := "https://c"; jwt_issuer := "https://ldo";
       invocation_jwt_audience := "hosts"; actor_idle_timeout_ms := 1; host_idle_timeout_ms := 1 |};
     provisioner_issuer := sample_issuer |}.

Definition contended_routing : RoutingDependencies :=
  {| registry := PostgresAdminRegistry weather;
     provisioner := Some (sandbox_provisioner contended_provisioner) |}.

Definition contended_service : ControlPlaneService :=
  {| storage_urls := {| buckets := {[ "eu" := "objects" ]} |};
     auth := sample_verifier "control" ControlPlane;
     host_token_issuer := Some sample_issuer; routing := Some contended_routing |}.

Lemma contended_rounds_are_takeovers :
  exists st', route_actor contended_service 3 sample_actor "eu" deployment_start = (st', Ok None) /\
    exists row row', (row_owner_epoch row + 2 <= row_owner_epoch row')%Z /\
      placements (database st') !! storage_key sample_actor = Some row'.
Proof.
  destruct (route_actor contended_service 3 sample_actor "eu" deployment_start)
    as [st' [[t |] | e]] eqn:H; try (vm_compute in H; discriminate).
  exists st'. split; [reflexivity |].
  edestruct (routing_rounds_are_takeovers contended_rely contended_service contended_routing eq_refl
    (Hreg := postgres_registry_laws contended_rely)) with (n := 2) as
    (db & row & row' & _ & _ & _ & Hr & Hle); [| exact H | exists row, row'; exact (conj Hle Hr)].
  intros p [= <-]. apply (sandbox_provisioner_laws contended_rely).
Defined.
End ContendedDeployment.
