(* ===== verification/ProvisioningTelemetry.v ===== *)
(** * The latency event of a host's provisioning

    [SandboxHostProvisioner::ensure_host] of [src/control_plane/service.rs] with its
    event [actor_host_provisioning]: what the provider tells of its own milestones,
    and the clock readings around the check of the new host's lease. *)
From S2P Require Import Prelude Net Identity Sandbox SandboxCommand Tokens Database Leases Admin.
From S2P Require Import ControlPlane ControlPlaneSafety Timeline.
Local Open Scope string_scope.
Local Open Scope Z_scope.

Inductive ProvisioningMilestone := lease_validated_at_ms.
#[export] Instance ProvisioningMilestone_eq_dec : EqDecision ProvisioningMilestone.
Proof. solve_decision. Defined.

(** The fields of the event.  Those of a ready host are read off its provisioning,
    when the provider tells it; those of a failed provider off the failure of its
    command, when that is what failed. *)
Record ProvisioningLine := {
  pl_namespace_id : string;
  pl_code_revision : string;
  pl_region : string;
  pl_host_id : HostId;
  pl_provider : option string;
  pl_provider_resource_id : option string;
  pl_provider_reused : option bool;
  pl_command : ProviderCommandTimings;
  pl_modal : option ActorHostProvisioning;
  pl_lease_validated_at_ms : option Z;
  pl_completed_at_ms : Z;
  pl_outcome : string;
  pl_error : option string;
}.

Section Provisioning.
Context {E : Surroundings} {T : Jwt} {Parser : UrlParser} {P : SandboxProvider} `{I : Instants}.
(** [error.downcast_ref::<ProviderCommandFailure>()] of what the [n]-th call of the
    provider fails with. *)
Context (command_failure : nat -> EnsureHostRequest -> option ProviderCommandTimings).
Context (p : SandboxHostProvisioner).

(** The milestones of the provider's command, as the provisioning repeats them. *)
Definition command_timings_of (provisioning : option ActorHostProvisioning) : ProviderCommandTimings :=
  {| spawned_at_ms := provisioning ≫= command_spawned_at_ms;
     SandboxCommand.request_written_at_ms := provisioning ≫= p_request_written_at_ms;
     SandboxCommand.process_completed_at_ms := provisioning ≫= p_process_completed_at_ms;
     SandboxCommand.response_decoded_at_ms := provisioning ≫= p_response_decoded_at_ms |}.

Definition provider_failed_line (spec : HostLaunchSpec) (region : string) (request : EnsureHostRequest)
    (command : option ProviderCommandTimings) (error : Error) (_ : Timings ProvisioningMilestone) (now : Z)
    : ProvisioningLine :=
  {| pl_namespace_id := spec_namespace_id spec; pl_code_revision := spec_code_revision spec;
     pl_region := region; pl_host_id := er_host_id request; pl_provider := None;
     pl_provider_resource_id := None; pl_provider_reused := None;
     pl_command := default no_timings command; pl_modal := None; pl_lease_validated_at_ms := None;
     pl_completed_at_ms := now; pl_outcome := "provider_failed"; pl_error := Some (alternate error) |}.

Definition ready_line (spec : HostLaunchSpec) (region : string) (lease : HostLease)
    (provisioning : option ActorHostProvisioning) (timings : Timings ProvisioningMilestone) (now : Z)
    : ProvisioningLine :=
  {| pl_namespace_id := spec_namespace_id spec; pl_code_revision := spec_code_revision spec;
     pl_region := region; pl_host_id := hl_id lease;
     pl_provider := Some (default "unknown" (provisioning_provider <$> provisioning));
     pl_provider_resource_id := Some (default "" (provisioning_resource_id <$> provisioning));
     pl_provider_reused := Some (default false (reused <$> provisioning));
     pl_command := command_timings_of provisioning; pl_modal := provisioning;
     pl_lease_validated_at_ms := reached_at timings lease_validated_at_ms;
     pl_completed_at_ms := now; pl_outcome := "ready"; pl_error := None |}.

(** [SandboxHostProvisioner::ensure_host] *)
Definition timed_sandbox_ensure_host (spec : HostLaunchSpec) (region : string)
    : M (PgState * Watch ProvisioningLine) Error HostLease :=
  timed_now (
    request ← untimed (sandbox_request p spec region);
    handle ← untimed (at_time (fun n => provider_ensure_host n request));
    match handle with
    | Err error =>
        command ← untimed (at_time (fun n => command_failure n request));
        report (provider_failed_line spec region request command error);;
        lift (Err error)
    | Ok handle =>
        lease ← untimed (active_lease handle region);
        mark lease_validated_at_ms;;
        report (ready_line spec region lease (provisioning handle));;
        mret lease
    end).

(** ** Measuring changes nothing *)

Lemma provisioning_timings_change_nothing spec region (st : PgState) (w : Watch ProvisioningLine) :
  sandbox_ensure_host p spec region st
  = ((timed_sandbox_ensure_host spec region (st, w)).1.1,
     (timed_sandbox_ensure_host spec region (st, w)).2).
Proof.
  eapply (erases_timed_now _ (sandbox_ensure_host p spec region)) with (s := (st, w)).
  unfold sandbox_ensure_host. erasing; [| by intros [[s0 w0] t0]].
  rename value into handle. intros s.
  change ((lift (Ok handle) ≫= fun handle : ActorHostHandle => active_lease handle region) (plain s))
    with (active_lease handle region (plain s)).
  unfold mbind, M_bind. rewrite (erases_untimed _ s).
  by destruct (untimed (active_lease handle region) s) as [[[s' w'] t] [lease | e]].
Qed.

(** ** What is logged *)

(** One event for a host that is ready, whose lease was checked before it, and one for a
    provider that failed; but none when the request cannot be made, nor when the
    provider's host holds no lease that serves it. *)
Lemma provisioning_logged spec region (st st' : PgState) (w w' : Watch ProvisioningLine) r :
  timed_sandbox_ensure_host spec region (st, w) = ((st', w'), r) ->
  exists lines, events w' = (events w ++ lines)%list /\
    match r with
    | Ok lease => exists line x, lines = [line] /\ pl_outcome line = "ready" /\ pl_error line = None /\
        pl_host_id line = hl_id lease /\ pl_region line = region /\
        pl_lease_validated_at_ms line = Some x /\ 0 <= x <= pl_completed_at_ms line
    | Err error => lines = [] \/ exists line, lines = [line] /\ pl_outcome line = "provider_failed" /\
        pl_error line = Some (alternate error) /\ pl_lease_validated_at_ms line = None /\
        0 <= pl_completed_at_ms line
    end.
Proof.
  unfold timed_sandbox_ensure_host, timed_now, timed_from, mbind, M_bind. simpl. intros H.
  assert (Hmono : forall k, instant (readings w) <= instant (k + readings w)) by (intros; apply instant_mono; lia).
  destruct (sandbox_request p spec region st) as [st1 [request | e]];
    [| simplify_eq/=; exists []; rewrite app_nil_r; auto].
  simpl in H. destruct (provider_ensure_host _ request) as [handle | e]; simpl in H.
  - destruct (active_lease handle region st1) as [st2 [lease | e]]; simplify_eq/=;
      [| exists []; rewrite app_nil_r; auto].
    eexists. split; [reflexivity |]. eexists _, _. do 5 (split; [reflexivity |]). split; [reflexivity |].
    simpl. unfold elapsed. simpl.
    pose proof (Hmono 1%nat). pose proof (instant_next (S (readings w))). simpl in *. lia.
  - simplify_eq/=. eexists. split; [reflexivity |]. right. eexists. do 4 (split; [reflexivity |]).
    unfold elapsed. simpl. pose proof (Hmono 1%nat). simpl in *. lia.
Qed.
End Provisioning.

(** ** Three hosts

    One whose lease is active, a provider that fails while its command runs, and a
    host whose lease is not active. *)
#[local] Instance ticking : Instants.
Proof. refine {| instant n := Z.of_nat n * 1000 |}. intros n n' Hn. lia. Defined.

Section Sample.
#[local] Existing Instance contended_surroundings.

Definition host_of (id : HostId) (request : EnsureHostRequest) : ActorHostHandle :=
  {| handle_host_id := id; handle_route := "https://b/";
     handle_canonical_region := er_canonical_region request; provisioning := None |}.
Definition one_provider (answer : EnsureHostRequest -> anyhow ActorHostHandle) : SandboxProvider := {|
  provider_ensure_host _ request := answer request;
  provider_public_host_route _ _ := Err ["no route"];
  provider_warm_image _ _ := Err ["no image"];
  provider_terminate_hosts _ _ := Err ["no hosts"];
|}.

Definition sample_command : ProviderCommandTimings :=
  {| spawned_at_ms := Some 1; SandboxCommand.request_written_at_ms := Some 2;
     SandboxCommand.process_completed_at_ms := None; SandboxCommand.response_decoded_at_ms := None |}.

Definition sample_provisioning (answer : EnsureHostRequest -> anyhow ActorHostHandle) :=
  timed_sandbox_ensure_host (P := one_provider answer) (fun _ _ => Some sample_command)
    contended_provisioner sample_spec "eu" (deployment_start, {| readings := 0; events := [] |}).
Definition shown (line : ProvisioningLine) : string * option Z * option Z * Z :=
  (pl_outcome line, spawned_at_ms (pl_command line), pl_lease_validated_at_ms line, pl_completed_at_ms line).

Example sample_provisionings :
  (fun answer => (is_ok (sample_provisioning answer).2, shown <$> events (sample_provisioning answer).1.2))
    <$> [(fun request => Ok (host_of "host-b" request)); (fun _ => Err ["modal failed"]);
         (fun request => Ok (host_of "host-c" request))]
  = [ (true, [("ready", None, Some 1000, 2000)]); (false, [("provider_failed", Some 1, None, 1000)]);
      (false, []) ].
Proof. vm_compute. reflexivity. Qed.
End Sample.
