(* ===== verification/SocketGateway.v ===== *)
(** * The socket gateway

    [src/control_plane/websocket.rs]: the control plane's registry of open
    WebSockets, the events it hands to actors, and the effects actors ask for;
    [src/control_plane/event_sink.rs], the events it reports.  A connection's
    task is a program over the gateway's state; what other tasks do at its
    [await]s is part of the script it runs. *)
From S2P Require Import Prelude Json Identity SocketProtocol Tokens.
Local Open Scope string_scope.

Definition MAX_CONNECTIONS_PER_ACTOR : nat := 128.
Definition MAX_SOCKET_EFFECTS_REQUEST_BYTES : Z := 32 * 1024 * 1024.

Section Data.
Context `{J : Json}.

Inductive OutboundMessage :=
| OutMessage (message : ActorSocketMessage)
| OutClose (code : Z) (reason : string).

(** [outbound] names the channel of the connection's task. *)
Record RegisteredSocket := {
  connection : ActorSocketConnection;
  outbound : nat;
  open : bool;
  trigger_id : option string;
}.

End Data.
Abbreviation SocketRegistry := (gmap ActorKey (gmap string RegisteredSocket)) (only parsing).

Section Gateway.
Context `{J : Json} `{B : Base64}.

Record SocketMessageEvent := {
  event_id : string;
  event_namespace_id : string;
  event_actor_type : string;
  event_actor_id : string;
  event_trigger_id : option string;
  event_connection_id : string;
  event_message : ActorSocketMessage;
}.

Definition SocketMessageEvent_new (event_id : string) (actor : ActorKey)
    (trigger_id : option string) (connection_id : string) (message : ActorSocketMessage)
    : SocketMessageEvent :=
  {| event_id := event_id; event_namespace_id := namespace_id actor;
     event_actor_type := actor_type actor; event_actor_id := actor_id actor;
     event_trigger_id := trigger_id; event_connection_id := connection_id;
     event_message := message |}.

(** The registry, the queues of the channels whose receiver lives, the channels
    and identifiers handed out so far, the events actors were given and whether
    they handled them, in the order of their answers, and the events spawned
    towards the sink. *)
Record GatewayState := {
  entries : SocketRegistry;
  channels : gmap nat (list OutboundMessage);
  next_channel : nat;
  next_uuid : nat;
  dispatched : list (ActorKey * (ActorSocketEvent * bool));
  delivered : list SocketMessageEvent;
}.

Definition with_entries (f : SocketRegistry -> SocketRegistry) (g : GatewayState) : GatewayState :=
  {| entries := f (entries g); channels := channels g; next_channel := next_channel g;
     next_uuid := next_uuid g; dispatched := dispatched g; delivered := delivered g |}.
Definition with_channels (f : gmap nat (list OutboundMessage) -> gmap nat (list OutboundMessage))
    (g : GatewayState) : GatewayState :=
  {| entries := entries g; channels := f (channels g); next_channel := next_channel g;
     next_uuid := next_uuid g; dispatched := dispatched g; delivered := delivered g |}.
Definition log_dispatch (actor : ActorKey) (event : ActorSocketEvent) (handled : bool)
    (g : GatewayState) : GatewayState :=
  {| entries := entries g; channels := channels g; next_channel := next_channel g;
     next_uuid := next_uuid g;
     dispatched := (dispatched g ++ [(actor, (event, handled))])%list;
     delivered := delivered g |}.
Definition log_delivery (event : SocketMessageEvent) (g : GatewayState) : GatewayState :=
  {| entries := entries g; channels := channels g; next_channel := next_channel g;
     next_uuid := next_uuid g; dispatched := dispatched g;
     delivered := (delivered g ++ [event])%list |}.

Definition skip_uuid (g : GatewayState) : GatewayState :=
  {| entries := entries g; channels := channels g; next_channel := next_channel g;
     next_uuid := S (next_uuid g); dispatched := dispatched g; delivered := delivered g |}.

(** ** The registry *)

(** [mpsc::UnboundedSender::send]: lost when the receiver is gone. *)
Definition send_on (channel : nat) (message : OutboundMessage) (g : GatewayState) : GatewayState :=
  with_channels (alter (fun queue => queue ++ [message])%list channel) g.

(** [mpsc::unbounded_channel()] *)
Definition unbounded_channel (g : GatewayState) : GatewayState * nat :=
  ({| entries := entries g; channels := <[ next_channel g := [] ]> (channels g);
      next_channel := S (next_channel g); next_uuid := next_uuid g;
      dispatched := dispatched g; delivered := delivered g |}, next_channel g).

Definition connections_of (actor : ActorKey) (entries : SocketRegistry)
    : gmap string RegisteredSocket :=
  match entries !! actor with Some connections => connections | None => ∅ end.

Definition insert (actor : ActorKey) (connection : ActorSocketConnection) (outbound : nat)
    (trigger_id : option string) (entries : SocketRegistry) : SocketRegistry * bool :=
  let connections := connections_of actor entries in
  if decide (MAX_CONNECTIONS_PER_ACTOR <= size connections)
  then (<[ actor := connections ]> entries, false)
  else
    (<[ actor := <[ SocketProtocol.id connection :=
         {| connection := connection; outbound := outbound; open := false;
            trigger_id := trigger_id |} ]> connections ]> entries, true).

Definition remove (actor : ActorKey) (connection_id : string) (entries : SocketRegistry)
    : SocketRegistry * option ActorSocketConnection :=
  match entries !! actor with
  | None => (entries, None)
  | Some connections =>
      let removed := connection <$> connections !! connection_id in
      let connections := delete connection_id connections in
      (if decide (connections = ∅) then delete actor entries
       else <[ actor := connections ]> entries, removed)
  end.

(** [SocketRegistry::connections]: the open ones, in the map's order. *)
Definition connections (actor : ActorKey) (entries : SocketRegistry) : list ActorSocketConnection :=
  connection <$> filter (fun e => open e = true)
    (snd <$> map_to_list (connections_of actor entries)).

Definition lookup_socket (actor : ActorKey) (connection_id : string) (entries : SocketRegistry)
    : option RegisteredSocket :=
  entries !! actor ≫= fun connections => connections !! connection_id.

Definition update_socket (actor : ActorKey) (connection_id : string)
    (f : RegisteredSocket -> RegisteredSocket) (entries : SocketRegistry) : SocketRegistry :=
  alter (alter f connection_id) actor entries.

Definition trigger_id_of (actor : ActorKey) (connection_id : option string)
    (entries : SocketRegistry) : option string :=
  connection_id ← connection_id;
  e ← lookup_socket actor connection_id entries;
  trigger_id e.

Definition sender (actor : ActorKey) (connection_id : string) (entries : SocketRegistry)
    : option nat :=
  outbound <$> lookup_socket actor connection_id entries.

Definition set_open (e : RegisteredSocket) : RegisteredSocket :=
  {| connection := connection e; outbound := outbound e; open := true; trigger_id := trigger_id e |}.
Definition set_connection (f : ActorSocketConnection -> ActorSocketConnection)
    (e : RegisteredSocket) : RegisteredSocket :=
  {| connection := f (connection e); outbound := outbound e; open := open e;
     trigger_id := trigger_id e |}.

Definition activate (actor : ActorKey) (connection_id : string) : SocketRegistry -> SocketRegistry :=
  update_socket actor connection_id set_open.

(** ** Effects *)

Definition is_recipient (except_connection_ids tags : list string) (e : RegisteredSocket) : bool :=
  open e
  && negb (bool_decide (SocketProtocol.id (connection e) ∈ except_connection_ids))
  && forallb (fun tag => bool_decide (tag ∈ SocketProtocol.tags (connection e))) tags.

Definition recipients (actor : ActorKey) (except_connection_ids tags : list string)
    (entries : SocketRegistry) : list nat :=
  outbound <$> filter (fun e => is_recipient except_connection_ids tags e = true)
    (snd <$> map_to_list (connections_of actor entries)).

Definition apply_one (actor : ActorKey) (effect : ActorSocketEffect) (g : GatewayState)
    : GatewayState :=
  match effect with
  | Broadcast message except_connection_ids tags =>
      foldl (fun g channel => send_on channel (OutMessage message) g) g
        (recipients actor except_connection_ids tags (entries g))
  | SetMetadata connection_id metadata =>
      with_entries (update_socket actor connection_id (set_connection (fun c =>
        {| SocketProtocol.id := SocketProtocol.id c; SocketProtocol.metadata := metadata;
           SocketProtocol.tags := SocketProtocol.tags c |}))) g
  | SetTags connection_id tags =>
      with_entries (update_socket actor connection_id (set_connection (fun c =>
        {| SocketProtocol.id := SocketProtocol.id c;
           SocketProtocol.metadata := SocketProtocol.metadata c;
           SocketProtocol.tags := tags |}))) g
  | Send connection_id message =>
      match sender actor connection_id (entries g) with
      | Some channel => send_on channel (OutMessage message) g
      | None => g
      end
  | Close connection_id code reason | Reject connection_id code reason =>
      match sender actor connection_id (entries g) with
      | Some channel => send_on channel (OutClose code reason) g
      | None => g
      end
  end.

Definition apply (actor : ActorKey) (effects : list ActorSocketEffect) (g : GatewayState)
    : GatewayState :=
  foldl (fun g effect => apply_one actor effect g) g effects.

(** ** Events *)

Definition prepare_event (actor : ActorKey) (event : ActorSocketEvent) (entries : SocketRegistry)
    : SocketRegistry * (ActorSocketEvent * list ActorSocketConnection) :=
  match event with
  | Connect connection => (entries, (event, connections actor entries ++ [connection])%list)
  | Message _ _ => (entries, (event, connections actor entries))
  | Disconnect connection code reason was_clean =>
      let '(entries, removed) := remove actor (SocketProtocol.id connection) entries in
      let connection := match removed with Some c => c | None => connection end in
      (entries, (Disconnect connection code reason was_clean, connections actor entries))
  end.

Section Tasks.
(** [dispatch_socket_event]: [ControlPlane.dispatch_socket_event] together with
    what other tasks do while it runs; [uuid]: the [n]-th [Uuid::new_v4()];
    [socket_events]: whether an event sink is configured; [base64_encode]:
    [STANDARD.encode]; [parse_initialization]: [serde_json::from_str] at
    [SocketInitialization]. *)
Context (dispatch_socket_event :
           ActorPrincipal -> ActorSocketInvocation -> M GatewayState Error (list ActorSocketEffect)).
Context (uuid : nat -> string) (socket_events : bool).
Context (base64_encode : bytes -> string).
Context (parse_initialization : string -> anyhow Value).

Definition new_uuid : M GatewayState Error string := fun g =>
  (skip_uuid g, Ok (uuid (next_uuid g))).

(** A write of the registry under its lock. *)
Definition on_entries {A} (f : SocketRegistry -> SocketRegistry * A) : M GatewayState Error A :=
  fun g => (with_entries (fun r => (f r).1) g, Ok (f (entries g)).2).

(** [ControlPlaneService::deliver_socket_message_event]: the delivery itself is a
    spawned task whose failure is logged. *)
Definition deliver_socket_message_event (actor : ActorKey) (trigger_id : option string)
    (event : ActorSocketEvent) : M GatewayState Error () :=
  match event with
  | Message connection_id message =>
      if socket_events
      then
        event_id ← new_uuid;
        modify (log_delivery
                  (SocketMessageEvent_new event_id actor trigger_id connection_id message))
      else mret ()
  | _ => mret ()
  end.

Definition connecting_id (event : ActorSocketEvent) : option string :=
  match event with Connect connection => Some (SocketProtocol.id connection) | _ => None end.
Definition message_connection_id (event : ActorSocketEvent) : option string :=
  match event with Message connection_id _ => Some connection_id | _ => None end.

(** The actor answered, with effects it may ask for. *)
Definition handled (result : anyhow (list ActorSocketEffect)) : bool :=
  match result with
  | Ok effects => is_ok (validate_socket_effects effects)
  | Err _ => false
  end.

(** The end of [dispatch]: the answer of the actor. *)
Definition finish_dispatch (actor : ActorKey) (event : ActorSocketEvent) (trigger_message : bool)
    (result : anyhow (list ActorSocketEffect)) : M GatewayState Error bool :=
  match result with
  | Ok effects =>
      if is_ok (validate_socket_effects effects)
      then
        modify (apply actor effects);;
        (match connecting_id event with
         | Some connection_id => modify (with_entries (activate actor connection_id))
         | None => mret ()
         end);;
        (if trigger_message
         then
           trigger_id ← gets (fun g => trigger_id_of actor (message_connection_id event) (entries g));
           deliver_socket_message_event actor trigger_id event
         else mret ());;
        mret true
      else mret false
  | Err _ => mret false
  end.

Definition dispatch (actor : ActorKey) (principal : ActorPrincipal) (event : ActorSocketEvent)
    (trigger_message : bool) : M GatewayState Error bool :=
  '(event, connections) ← on_entries (prepare_event actor event);
  request_id ← new_uuid;
  result ← attempt (dispatch_socket_event principal
    {| si_request_id := request_id; si_actor := actor; si_event := event;
       si_connections := connections; si_state := None |});
  modify (log_dispatch actor event (handled result));;
  finish_dispatch actor event trigger_message result.

(** ** A connection's task *)

(** [axum::extract::ws::Message] *)
Inductive WsMessage :=
| WsText (data : string)
| WsBinary (data : bytes)
| WsPing (data : bytes)
| WsPong (data : bytes)
| WsClose (frame : option (Z * string)).

Definition websocket_message (message : ActorSocketMessage) : option WsMessage :=
  match message with
  | Text data => Some (WsText data)
  | Binary data => WsBinary <$> result_ok (base64_decode data)
  end.

(** What the socket gives first: [None] on a timeout, at the end of the stream,
    or on an error. *)
Definition receive_metadata (first : option WsMessage) : option Value :=
  match first with
  | Some (WsText document) =>
      if (MAX_SOCKET_METADATA_BYTES + 128 <? len document)%Z then None
      else
        metadata ← result_ok (parse_initialization document);
        if is_ok (validate_socket_metadata metadata) then Some metadata else None
  | _ => None
  end.

(** One turn of the [select!]: what the socket received, [None] at the end of the
    stream or on an error, or the channel; [sent] is whether a frame the turn
    writes goes through; [meanwhile] is what other tasks did before it. *)
Inductive Turn := Inbound (message : option WsMessage) (sent : bool) | Outbound (sent : bool).
Record ScriptTurn := { turn : Turn; meanwhile : GatewayState -> GatewayState }.

(** [outbound_rx.recv()]: [None] when the sender in the registry is gone. *)
Inductive Received := NotReady | Closed | Ready (message : OutboundMessage).
Definition recv (channel : nat) (still_registered : bool) : M GatewayState Error Received :=
  queue ← gets (fun g => channels g !! channel);
  match queue with
  | Some (message :: rest) =>
      modify (with_channels (<[ channel := rest ]>));; mret (Ready message)
  | _ => mret (if still_registered then NotReady else Closed)
  end.

(** The code, reason and cleanness a disconnect reports. *)
Definition Disconnection : Type := Z * string * bool.
Definition lost : Disconnection := (1006%Z, "", false).
Definition handler_failed : Disconnection := (1011%Z, "actor socket handler failed", false).

(** The loop ends with the disconnection and the frames it wrote, the latest
    last; the script ends when the stream does. *)
Fixpoint run_loop (actor : ActorKey) (principal : ActorPrincipal) (connection_id : string)
    (channel : nat) (script : list ScriptTurn)
    : M GatewayState Error (Disconnection * list WsMessage) :=
  match script with
  | [] => mret (lost, [])
  | now :: script =>
      modify (meanwhile now);;
      match turn now with
      | Inbound (Some (WsText data)) _ =>
          ok ← dispatch actor principal (Message connection_id (Text data)) true;
          if ok : bool then run_loop actor principal connection_id channel script
          else mret (handler_failed, [])
      | Inbound (Some (WsBinary data)) _ =>
          ok ← dispatch actor principal
                 (Message connection_id (Binary (base64_encode data))) true;
          if ok : bool then run_loop actor principal connection_id channel script
          else mret (handler_failed, [])
      | Inbound (Some (WsPing data)) sent =>
          if sent : bool
          then
            '(disconnection, frames) ← run_loop actor principal connection_id channel script;
            mret (disconnection, WsPong data :: frames)
          else mret (lost, [])
      | Inbound (Some (WsPong _)) _ => run_loop actor principal connection_id channel script
      | Inbound (Some (WsClose frame)) _ =>
          mret (match frame with
                | None => (1000%Z, "", true)
                | Some (code, reason) => (code, reason, true)
                end, [])
      | Inbound None _ => mret (lost, [])
      | Outbound sent =>
          registered ← gets (fun g => bool_decide
            (is_Some (lookup_socket actor connection_id (entries g))));
          received ← recv channel registered;
          match received with
          | NotReady => run_loop actor principal connection_id channel script
          | Closed => mret (lost, [])
          | Ready (OutMessage message) =>
              match websocket_message message with
              | None =>
                  mret ((1011%Z, "actor produced an invalid socket message", false), [])
              | Some frame =>
                  if sent : bool
                  then
                    '(disconnection, frames) ←
                       run_loop actor principal connection_id channel script;
                    mret (disconnection, frame :: frames)
                  else mret (lost, [])
              end
          | Ready (OutClose code reason) =>
              mret ((code, reason, true), [WsClose (Some (code, reason))])
          end
      end
  end.

Record SocketAccess := {
  access_actor : ActorKey;
  access_principal : ActorPrincipal;
  access_metadata : option Value;
  access_trigger_id : option string;
}.

(** [run_connection] from the registration on: connect, serve, disconnect. *)
Definition serve_connection (actor : ActorKey) (principal : ActorPrincipal)
    (connection : ActorSocketConnection) (channel : nat) (script : list ScriptTurn)
    : M GatewayState Error (list WsMessage) :=
  accepted ← dispatch actor principal (Connect connection) false;
  if accepted : bool
  then
    '((code, reason, was_clean), frames) ←
       run_loop actor principal (SocketProtocol.id connection) channel script;
    dispatch actor principal (Disconnect connection code reason was_clean) false;;
    on_entries (remove actor (SocketProtocol.id connection));;
    mret frames
  else
    on_entries (remove actor (SocketProtocol.id connection));;
    mret [WsClose (Some (1011%Z, "actor rejected the connection"))].

(** [run_connection]: the frames it writes. *)
Definition run_connection (access : SocketAccess) (first : option WsMessage)
    (script : list ScriptTurn) : M GatewayState Error (list WsMessage) :=
  let actor := access_actor access in
  let principal := access_principal access in
  match (match access_metadata access with
         | Some metadata => Some metadata
         | None => receive_metadata first
         end) with
  | None => mret [WsClose (Some (1002%Z, "socket metadata was not initialized"))]
  | Some metadata =>
      connection_id ← new_uuid;
      let connection := {| SocketProtocol.id := connection_id;
                           SocketProtocol.metadata := metadata; SocketProtocol.tags := [] |} in
      channel ← (fun g => let '(g, channel) := unbounded_channel g in (g, Ok channel));
      inserted ← on_entries (insert actor connection channel (access_trigger_id access));
      frames ←
        (if inserted : bool
         then serve_connection actor principal connection channel script
         else mret [WsClose (Some (1013%Z, "actor connection limit reached"))]);
      modify (with_channels (delete channel));;
      mret frames
  end.
End Tasks.
End Gateway.

(** ** The registry stays in order *)

Section RegistryProofs.
Context {J : Json} {B : Base64}.

(** At most 128 connections of an actor, none for an actor without any, each under
    its own id with a channel of its own that was handed out. *)
Record gateway_ok (g : GatewayState) : Prop := {
  go_bound actor m : entries g !! actor = Some m -> 1 <= size m <= MAX_CONNECTIONS_PER_ACTOR;
  go_keyed actor i e : lookup_socket actor i (entries g) = Some e ->
    SocketProtocol.id (connection e) = i /\ outbound e < next_channel g;
  go_unique a1 i1 e1 a2 i2 e2 :
    lookup_socket a1 i1 (entries g) = Some e1 -> lookup_socket a2 i2 (entries g) = Some e2 ->
    outbound e1 = outbound e2 -> a1 = a2 /\ i1 = i2;
}.

Definition empty_gateway : GatewayState :=
  {| entries := ∅; channels := ∅; next_channel := 0; next_uuid := 0; dispatched := [];
     delivered := [] |}.

(** The tasks' steps: the new channel is known to its own task only, so that
    registering it is one step. *)
Definition register (actor : ActorKey) (c : ActorSocketConnection) (t : option string)
    (g : GatewayState) : GatewayState :=
  let '(g, channel) := unbounded_channel g in
  with_entries (fun r => (insert actor c channel t r).1) g.

Inductive gateway_step : relation GatewayState :=
| G_register g actor c t : gateway_step g (register actor c t g)
| G_remove g actor i : gateway_step g (with_entries (fun r => (remove actor i r).1) g)
| G_prepare g actor event :
    gateway_step g (with_entries (fun r => (prepare_event actor event r).1) g)
| G_effect g actor effect : gateway_step g (apply_one actor effect g)
| G_activate g actor i : gateway_step g (with_entries (activate actor i) g)
| G_channels g f : gateway_step g (with_channels f g)
| G_dispatched g actor event ok : gateway_step g (log_dispatch actor event ok g)
| G_delivered g event : gateway_step g (log_delivery event g)
| G_uuid g : gateway_step g (skip_uuid g).

Lemma lookup_socket_Some actor i (r : SocketRegistry) e :
  lookup_socket actor i r = Some e <-> exists m, r !! actor = Some m /\ m !! i = Some e.
Proof. unfold lookup_socket. apply bind_Some. Qed.

Lemma lookup_socket_connections_of actor i (r : SocketRegistry) :
  lookup_socket actor i r = connections_of actor r !! i.
Proof. unfold lookup_socket, connections_of. by destruct (r !! actor). Qed.

Lemma lookup_update_socket a i f (r : SocketRegistry) a' i' :
  lookup_socket a' i' (update_socket a i f r)
  = if decide (a' = a /\ i' = i) then f <$> lookup_socket a' i' r else lookup_socket a' i' r.
Proof.
  unfold lookup_socket, update_socket. destruct (decide (a' = a)) as [-> | Ha].
  - rewrite lookup_alter_eq. destruct (r !! a) as [m |]; simpl; [| by case_match].
    destruct (decide (i' = i)) as [-> | Hi].
    + by rewrite lookup_alter_eq, decide_True.
    + rewrite lookup_alter_ne by done. rewrite decide_False; [done | tauto].
  - rewrite lookup_alter_ne by done. rewrite decide_False; [done | tauto].
Qed.

Lemma lookup_insert_socket a (c : ActorSocketConnection) ch t (r : SocketRegistry) a' i' :
  (insert a c ch t r).2 = true ->
  lookup_socket a' i' (insert a c ch t r).1
  = if decide (a' = a /\ i' = SocketProtocol.id c)
    then Some {| connection := c; outbound := ch; open := false; trigger_id := t |}
    else lookup_socket a' i' r.
Proof.
  unfold insert. destruct (decide (_ <= _)) as [| Hsize]; simpl; [done | intros _].
  unfold lookup_socket at 1. destruct (decide (a' = a)) as [-> | Ha].
  - rewrite lookup_insert_eq. simpl. destruct (decide (i' = SocketProtocol.id c)) as [-> | Hi].
    + by rewrite lookup_insert_eq, decide_True.
    + rewrite lookup_insert_ne by done. rewrite decide_False by tauto.
      by rewrite lookup_socket_connections_of.
  - rewrite lookup_insert_ne by done. rewrite decide_False by tauto. done.
Qed.

Lemma lookup_insert_refused a (c : ActorSocketConnection) ch t (r : SocketRegistry) a' i' :
  (insert a c ch t r).2 = false ->
  lookup_socket a' i' (insert a c ch t r).1 = lookup_socket a' i' r.
Proof.
  unfold insert. destruct (decide (_ <= _)) as [Hsize |]; simpl; [intros _ | done].
  unfold lookup_socket. destruct (decide (a' = a)) as [-> | Ha].
  - rewrite lookup_insert_eq. simpl. unfold connections_of. by destruct (r !! a).
  - by rewrite lookup_insert_ne.
Qed.

Lemma lookup_remove_socket a i (r : SocketRegistry) a' i' :
  lookup_socket a' i' (remove a i r).1
  = if decide (a' = a /\ i' = i) then None else lookup_socket a' i' r.
Proof.
  unfold remove, lookup_socket. destruct (r !! a) as [m |] eqn:Hm; simpl.
  2: { case_decide as Hd; [| done]. destruct Hd as [-> ->]. by rewrite Hm. }
  destruct (decide (a' = a)) as [-> | Ha].
  - rewrite Hm. simpl. case_decide as He.
    + rewrite lookup_delete_eq. simpl. case_decide as Hd; [done |].
      rewrite <- (lookup_delete_ne m i i') by (intros ->; tauto). by rewrite He, lookup_empty.
    + rewrite lookup_insert_eq. simpl. destruct (decide (i' = i)) as [-> | Hi].
      * by rewrite lookup_delete_eq, decide_True.
      * rewrite lookup_delete_ne by done. rewrite decide_False; [done | tauto].
  - rewrite (decide_False (P := a' = a /\ i' = i)) by tauto.
    case_decide; [by rewrite lookup_delete_ne |
      by rewrite lookup_insert_ne].
Qed.

(** *** Preservation *)

(** Updates that keep ids and channels. *)
Definition keeps_identity (f : RegisteredSocket -> RegisteredSocket) : Prop :=
  forall e, SocketProtocol.id (connection (f e)) = SocketProtocol.id (connection e) /\
            outbound (f e) = outbound e.

Lemma size_alter (f : RegisteredSocket -> RegisteredSocket) i (m : gmap string RegisteredSocket) :
  size (alter f i m) = size m.
Proof. rewrite <- !(size_dom (D := gset string)). by rewrite dom_alter_L. Qed.

(** A registry whose sockets come from [g]'s, with their ids and channels. *)
Lemma gateway_ok_shrink g (r : SocketRegistry) :
  gateway_ok g ->
  (forall a m, r !! a = Some m -> 1 <= size m <= MAX_CONNECTIONS_PER_ACTOR) ->
  (forall a i e, lookup_socket a i r = Some e -> exists e', lookup_socket a i (entries g) = Some e' /\
     SocketProtocol.id (connection e) = SocketProtocol.id (connection e') /\
     outbound e = outbound e') ->
  gateway_ok (with_entries (fun _ => r) g).
Proof.
  intros [Hbound Hkeyed Huniq] Hb Hsub. split; simpl; [done | |].
  - intros a i e (e' & H & -> & ->)%Hsub. by apply (Hkeyed a i e').
  - intros a1 i1 e1 a2 i2 e2 (e1' & H1 & _ & ->)%Hsub (e2' & H2 & _ & ->)%Hsub. eauto.
Qed.

Lemma gateway_ok_update g a i f :
  keeps_identity f -> gateway_ok g -> gateway_ok (with_entries (update_socket a i f) g).
Proof.
  intros Hf Hok. apply gateway_ok_shrink; [done | |].
  - intros a' m Hm. unfold update_socket in Hm. rewrite lookup_alter in Hm.
    case_decide; [| by eapply go_bound].
    apply fmap_Some in Hm as (m0 & Hm0 & ->). rewrite size_alter. by eapply go_bound.
  - intros a' i' e H. rewrite lookup_update_socket in H. case_decide; [| by eauto].
    apply fmap_Some in H as (e0 & He0 & ->). destruct (Hf e0). eauto.
Qed.

Lemma gateway_ok_remove g a i :
  gateway_ok g -> gateway_ok (with_entries (fun r => (remove a i r).1) g).
Proof.
  intros Hok. apply (gateway_ok_shrink g (remove a i (entries g)).1); [done | |].
  - intros a' m Hm. unfold remove in Hm. destruct (entries g !! a) as [m0 |] eqn:Hm0; simpl in Hm;
      [| by eapply go_bound].
    apply go_bound in Hm0 as Hs; [| done]. case_decide as He.
    + apply lookup_delete_Some in Hm as [_ Hm]. by eapply go_bound.
    + apply lookup_insert_Some in Hm as [[<- <-] | [_ Hm]]; [| by eapply go_bound].
      apply map_size_non_empty_iff in He. rewrite map_size_delete in *.
      destruct (m0 !! i); unfold Datatypes.id in *; lia.
  - intros a' i' e H. rewrite lookup_remove_socket in H. case_decide; [done | eauto].
Qed.

Lemma gateway_ok_register g actor c t : gateway_ok g -> gateway_ok (register actor c t g).
Proof.
  intros [Hbound Hkeyed Huniq].
  assert (Hlook : forall a i e, lookup_socket a i (entries (register actor c t g)) = Some e ->
    lookup_socket a i (entries g) = Some e \/
    a = actor /\ i = SocketProtocol.id c /\ SocketProtocol.id (connection e) = i /\
    outbound e = next_channel g).
  { intros a i e. unfold register. simpl.
    destruct (insert actor c (next_channel g) t (entries g)).2 eqn:Hins.
    - rewrite lookup_insert_socket by done. case_decide as Hd; [| auto].
      destruct Hd as [-> ->]. intros [= <-]. by right.
    - rewrite lookup_insert_refused by done. auto. }
  split.
  - intros a m. unfold register, insert. simpl. unfold connections_of.
    destruct (decide _) as [Hsize | Hsize]; simpl;
      intros [[<- <-] | [_ Hm]]%lookup_insert_Some; eauto.
    + destruct (entries g !! actor) eqn:E; [eauto | rewrite map_size_empty in Hsize].
      unfold MAX_CONNECTIONS_PER_ACTOR in Hsize. lia.
    + rewrite map_size_insert. unfold MAX_CONNECTIONS_PER_ACTOR in *.
      destruct (entries g !! actor) as [m0 |] eqn:E;
        [apply Hbound in E; case_match; unfold Datatypes.id; lia |].
      rewrite lookup_empty, map_size_empty. lia.
  - assert (Hn : next_channel (register actor c t g) = S (next_channel g)) by done.
    intros a i e [H | (-> & -> & ? & ?)]%Hlook; rewrite Hn; [| split; [done | lia]].
    destruct (Hkeyed _ _ _ H). split; [done | lia].
  - intros a1 i1 e1 a2 i2 e2 H1%Hlook H2%Hlook Ho.
    destruct H1 as [H1 | (-> & -> & _ & H1)], H2 as [H2 | (-> & -> & _ & H2)]; eauto.
    + apply Hkeyed in H1 as [_ ?]. lia.
    + apply Hkeyed in H2 as [_ ?]. lia.
Qed.

Lemma send_on_entries channel message g : entries (send_on channel message g) = entries g.
Proof. done. Qed.

Lemma gateway_ok_entries g g' :
  entries g' = entries g -> next_channel g <= next_channel g' -> gateway_ok g -> gateway_ok g'.
Proof.
  intros He Hn [Hb Hk Hu]. split; rewrite He; [done | | done].
  intros a i e H%Hk. split; [tauto | lia].
Qed.

Lemma sends_entries message l g :
  entries (foldl (fun g channel => send_on channel message g) g l) = entries g /\
  next_channel (foldl (fun g channel => send_on channel message g) g l) = next_channel g.
Proof.
  revert g. induction l as [| ch l IH]; intros g; simpl; [done |].
  destruct (IH (send_on ch message g)) as [-> ->]. done.
Qed.

Lemma gateway_ok_effect g actor effect : gateway_ok g -> gateway_ok (apply_one actor effect g).
Proof.
  intros Hok. destruct effect; simpl.
  2: { destruct (sends_entries (OutMessage message)
         (recipients actor except_connection_ids tags (entries g)) g) as [? Hn].
       eapply gateway_ok_entries; [done | lia | done]. }
  4,5: apply gateway_ok_update; [by intros [] | done].
  all: case_match; [by apply (gateway_ok_entries g) | done].
Qed.

Lemma gateway_ok_step g g' : gateway_step g g' -> gateway_ok g -> gateway_ok g'.
Proof.
  intros Hs Hok. destruct Hs.
  - by apply gateway_ok_register.
  - by apply gateway_ok_remove.
  - destruct event; simpl; try by apply (gateway_ok_entries g).
    apply (gateway_ok_entries
      (with_entries (fun r => (remove actor (SocketProtocol.id connection0) r).1) g));
      [| done | by apply gateway_ok_remove].
    simpl. by destruct (remove actor _ (entries g)).
  - by apply gateway_ok_effect.
  - apply gateway_ok_update; [by intros [] | done].
  - by apply (gateway_ok_entries g).
  - by apply (gateway_ok_entries g).
  - by apply (gateway_ok_entries g).
  - by apply (gateway_ok_entries g).
Qed.

Lemma empty_gateway_ok : gateway_ok empty_gateway.
Proof.
  split; simpl.
  - intros a m. by rewrite lookup_empty.
  - intros a i e. unfold lookup_socket. by rewrite lookup_empty.
  - intros a1 i1 e1 a2 i2 e2. unfold lookup_socket. by rewrite lookup_empty.
Qed.

Lemma gateway_reachable_ok g : rtc gateway_step empty_gateway g -> gateway_ok g.
Proof.
  revert g. apply (rtc_ind_r (fun g => gateway_ok g)); [apply empty_gateway_ok |].
  intros g g' _ Hs Hok. by eapply gateway_ok_step.
Qed.

(** *** Where effects go *)

Lemma elem_of_sockets actor (r : SocketRegistry) e :
  e ∈ snd <$> map_to_list (connections_of actor r) <-> exists i, lookup_socket actor i r = Some e.
Proof.
  rewrite list_elem_of_fmap. setoid_rewrite lookup_socket_connections_of. split.
  - intros ([i e'] & -> & H%elem_of_map_to_list). by exists i.
  - intros [i H]. exists (i, e). split; [done | by apply elem_of_map_to_list].
Qed.

Lemma elem_of_recipients actor ex tags (r : SocketRegistry) ch :
  ch ∈ recipients actor ex tags r <->
  exists i e, lookup_socket actor i r = Some e /\ outbound e = ch /\ is_recipient ex tags e = true.
Proof.
  unfold recipients. rewrite list_elem_of_fmap. setoid_rewrite list_elem_of_filter.
  setoid_rewrite elem_of_sockets. naive_solver.
Qed.

Lemma recipients_NoDup g actor ex tags :
  gateway_ok g -> NoDup (recipients actor ex tags (entries g)).
Proof.
  intros Hok.
  assert (Hinj : forall p1 p2, p1 ∈ map_to_list (connections_of actor (entries g)) ->
    p2 ∈ map_to_list (connections_of actor (entries g)) -> outbound p1.2 = outbound p2.2 -> p1 = p2).
  { intros [i1 e1] [i2 e2] H1%elem_of_map_to_list H2%elem_of_map_to_list Ho. simpl in Ho.
    rewrite <- lookup_socket_connections_of in H1, H2.
    destruct (go_unique g Hok _ _ _ _ _ _ H1 H2 Ho) as [_ <-]. congruence. }
  unfold recipients. apply NoDup_fmap_2_strong.
  - intros e1 e2 H1 H2 Ho.
    apply list_elem_of_filter in H1 as [_ ([? ?] & -> & H1)%list_elem_of_fmap].
    apply list_elem_of_filter in H2 as [_ ([? ?] & -> & H2)%list_elem_of_fmap].
    by rewrite (Hinj _ _ H1 H2 Ho).
  - apply NoDup_filter, NoDup_fmap_2_strong; [| apply NoDup_map_to_list].
    intros p1 p2 H1 H2 He. apply Hinj; [done | done | by rewrite He].
Qed.

Lemma sends_channels message l g ch :
  NoDup l ->
  channels (foldl (fun g channel => send_on channel message g) g l) !! ch
  = (fun queue => queue ++ if decide (ch ∈ l) then [message] else [])%list <$> channels g !! ch.
Proof.
  intros Hnd. revert g. induction Hnd as [| c l Hc Hnd IH]; intros g; simpl.
  - destruct (channels g !! ch); simpl; [by rewrite app_nil_r | done].
  - rewrite IH. simpl. rewrite lookup_alter. destruct (decide (c = ch)) as [-> | Hne].
    + rewrite (decide_False (P := ch ∈ l)) by done. rewrite decide_True by left.
      destruct (channels g !! ch); simpl; [by rewrite app_nil_r | done].
    + destruct (channels g !! ch); simpl; [| done].
      by rewrite (decide_ext (ch ∈ l) (ch ∈ c :: l)) by (rewrite elem_of_cons; naive_solver).
Qed.

(** What an effect of [actor] may change. *)
Definition confined (actor : ActorKey) (g g' : GatewayState) : Prop :=
  (forall a i, a <> actor -> lookup_socket a i (entries g') = lookup_socket a i (entries g)) /\
  (forall i, outbound <$> lookup_socket actor i (entries g')
             = outbound <$> lookup_socket actor i (entries g)) /\
  (forall ch, (forall i e, lookup_socket actor i (entries g) = Some e -> outbound e <> ch) ->
     channels g' !! ch = channels g !! ch).

#[local] Instance confined_preorder actor : PreOrder (confined actor).
Proof.
  split; [done |]. intros g1 g2 g3 (Ha & Hb & Hc) (Ha' & Hb' & Hc'). split_and!.
  - intros a i Hne. by rewrite Ha', Ha.
  - intros i. by rewrite Hb', Hb.
  - intros ch Hch. rewrite Hc', Hc; [done | done |]. intros i e He Ho.
    pose proof (Hb i) as Hi. rewrite He in Hi. simpl in Hi. symmetry in Hi.
    apply fmap_Some in Hi as (e1 & He1 & He1'). apply (Hch i e1); [done | congruence].
Qed.

Lemma confined_update actor i f g :
  keeps_identity f -> confined actor g (with_entries (update_socket actor i f) g).
Proof.
  intros Hf. split_and!; simpl; [| | done].
  - intros a i' Hne. rewrite lookup_update_socket, decide_False; [done | tauto].
  - intros i'. rewrite lookup_update_socket. case_decide; [| done].
    destruct (lookup_socket actor i' (entries g)) as [e |]; [| done]. simpl. by destruct (Hf e) as [_ ->].
Qed.

Lemma confined_send actor i message g :
  confined actor g (match sender actor i (entries g) with
                    | Some channel => send_on channel message g
                    | None => g
                    end).
Proof.
  destruct (sender actor i (entries g)) as [ch |] eqn:Hs; [| done].
  apply fmap_Some in Hs as (e & He & ->). split_and!; [done | done |].
  intros ch Hch. simpl. apply lookup_alter_ne. by apply (Hch i).
Qed.

Lemma confined_effect actor effect g :
  gateway_ok g -> confined actor g (apply_one actor effect g).
Proof.
  intros Hok. destruct effect; simpl; try apply confined_send.
  - destruct (sends_entries (OutMessage message)
      (recipients actor except_connection_ids tags (entries g)) g) as [He _].
    split_and!; rewrite ?He; [done | done |]. intros ch Hch.
    rewrite sends_channels by by apply recipients_NoDup.
    rewrite decide_False; [| intros (i & e & H & Ho & _)%elem_of_recipients; by apply (Hch i e)].
    destruct (channels g !! ch); simpl; [by rewrite app_nil_r | done].
  - apply confined_update. by intros [].
  - apply confined_update. by intros [].
Qed.

Lemma confined_effects actor effects g : gateway_ok g -> confined actor g (apply actor effects g).
Proof.
  unfold apply. revert g. induction effects as [| effect effects IH]; intros g Hok; simpl; [done |].
  etrans; [by apply confined_effect | apply IH]. by apply gateway_ok_effect.
Qed.

(** C19: The effects of an actor reach its own sockets only: no socket of another actor changes, no
    message enters a channel that is not one of the actor's; and a broadcast is queued exactly
    once for every open socket of the actor that has all the tags and is not excepted. *)
Theorem effects_stay_with_actor g actor effects message ex tags :
  rtc gateway_step empty_gateway g ->
  (forall a i, a <> actor ->
     lookup_socket a i (entries (apply actor effects g)) = lookup_socket a i (entries g)) /\
  (forall ch, (forall i e, lookup_socket actor i (entries g) = Some e -> outbound e <> ch) ->
     channels (apply actor effects g) !! ch = channels g !! ch) /\
  (forall i e queue, lookup_socket actor i (entries g) = Some e ->
     channels g !! outbound e = Some queue ->
     channels (apply_one actor (Broadcast message ex tags) g) !! outbound e
     = Some (queue ++ if is_recipient ex tags e then [OutMessage message] else [])%list).
Proof.
  intros Hok%gateway_reachable_ok. destruct (confined_effects actor effects g Hok) as (? & _ & ?).
  split; [done |]. split; [done |]. intros i e queue He Hq. simpl.
  rewrite sends_channels, Hq by by apply recipients_NoDup. simpl. do 2 f_equal.
  destruct (is_recipient ex tags e) eqn:Hr.
  - rewrite decide_True; [done |]. apply elem_of_recipients. eauto.
  - rewrite decide_False; [done |]. intros (i' & e' & He' & Ho & Hr')%elem_of_recipients.
    destruct (go_unique g Hok _ _ _ _ _ _ He' He Ho) as [_ ->]. congruence.
Qed.
End RegistryProofs.

(** ** The tasks take those steps *)

Section TaskProofs.
Context {J : Json} {B : Base64}.
Context (dispatch_socket_event :
           ActorPrincipal -> ActorSocketInvocation -> M GatewayState Error (list ActorSocketEffect)).
Context (uuid : nat -> string) (socket_events : bool) (base64_encode : bytes -> string).
Context (parse_initialization : string -> anyhow Value).

Abbreviation steps := (rtc gateway_step).
Abbreviation dispatch := (dispatch dispatch_socket_event uuid socket_events).
Abbreviation run_loop := (run_loop dispatch_socket_event uuid socket_events base64_encode).
Abbreviation run_connection :=
  (run_connection dispatch_socket_event uuid socket_events base64_encode parse_initialization).

(** Dispatching an event takes steps: those of the tasks that run meanwhile. *)
Context (dispatch_steps : forall principal invocation,
           respects steps (dispatch_socket_event principal invocation)).

Lemma respects_modify (f : GatewayState -> GatewayState) :
  (forall g, steps g (f g)) -> respects (E := Error) steps (modify f).
Proof. intros Hf g g' r [= <- _]. apply Hf. Qed.

Lemma respects_modify_once (f : GatewayState -> GatewayState) :
  (forall g, gateway_step g (f g)) -> respects (E := Error) steps (modify f).
Proof. intros Hf. apply respects_modify. intros g. by apply rtc_once. Qed.

Lemma respects_new_uuid : respects steps (new_uuid uuid).
Proof. intros g g' r [= <- _]. apply rtc_once, G_uuid. Qed.

Lemma respects_prepare actor event : respects steps (on_entries (prepare_event actor event)).
Proof. intros g g' r [= <- _]. apply rtc_once, G_prepare. Qed.

Lemma respects_remove actor i : respects steps (on_entries (remove actor i)).
Proof. intros g g' r [= <- _]. apply rtc_once, G_remove. Qed.

Lemma apply_steps actor effects g : steps g (apply actor effects g).
Proof.
  unfold apply. revert g. induction effects as [| effect effects IH]; intros g; simpl; [done |].
  eapply rtc_l; [apply G_effect | apply IH].
Qed.

Lemma respects_deliver actor t event :
  respects steps (deliver_socket_message_event uuid socket_events actor t event).
Proof.
  unfold deliver_socket_message_event. destruct event, socket_events; try apply respects_ret, _.
  respecting; [apply respects_new_uuid | apply respects_modify_once; intros; apply G_delivered].
Qed.

Lemma respects_dispatch actor principal event t : respects steps (dispatch actor principal event t).
Proof.
  unfold dispatch, finish_dispatch. respecting; try apply dispatch_steps.
  all: try apply respects_prepare; try apply respects_new_uuid; try apply respects_deliver.
  all: try (apply respects_modify; intros; apply apply_steps).
  all: apply respects_modify_once; intros; constructor.
Qed.

Lemma respects_recv channel registered : respects steps (recv channel registered).
Proof.
  unfold recv. respecting. apply respects_modify_once. intros. apply G_channels.
Qed.

Definition script_steps (script : list ScriptTurn) : Prop :=
  Forall (fun now => forall g, steps g (meanwhile now g)) script.

Lemma respects_run_loop actor principal i channel script :
  script_steps script -> respects steps (run_loop actor principal i channel script).
Proof.
  induction 1 as [| now script Hnow _ IH]; simpl; [apply respects_ret, _ |].
  respecting; try apply respects_dispatch; try apply respects_recv.
  all: by apply respects_modify.
Qed.

(** Opening the channel and registering it is one step. *)
Lemma respects_register {A} actor c t (k : nat -> bool -> M GatewayState Error A) :
  (forall channel inserted, respects steps (k channel inserted)) ->
  respects steps (channel ← (fun g => let '(g, channel) := unbounded_channel g in (g, Ok channel));
                  inserted ← on_entries (insert actor c channel t); k channel inserted).
Proof.
  intros Hk g g' r H. eapply rtc_l; [apply (G_register g actor c t) |].
  by apply (Hk (next_channel g) (insert actor c (next_channel g) t (entries g)).2 _ _ r).
Qed.

Lemma respects_run_connection access first script :
  script_steps script -> respects steps (run_connection access first script).
Proof.
  intros Hscript. unfold run_connection.
  destruct (match access_metadata access with
            | Some metadata => Some metadata
            | None => receive_metadata parse_initialization first
            end); [| apply respects_ret, _].
  apply respects_bind; [apply _ | apply respects_new_uuid |]. intros _ _ id _.
  apply respects_register. intros channel inserted.
  unfold serve_connection.
  respecting; try apply respects_dispatch; try apply respects_remove; try by apply respects_run_loop.
  apply respects_modify_once. intros. apply G_channels.
Qed.
End TaskProofs.

(** However tasks interleave, the registry keeps at most 128 sockets of an actor, each under its
    own id with a channel nobody else has: a connection's whole task, with every event it
    dispatches and every effect it applies, takes only the registry's steps when the tasks that
    run meanwhile do. *)
Lemma tasks_keep_registry {J : Json} {B : Base64} dispatch_socket_event uuid socket_events
    base64_encode parse_initialization access first script g g' r :
  rtc gateway_step empty_gateway g ->
  (forall principal invocation,
     respects (rtc gateway_step) (dispatch_socket_event principal invocation)) ->
  Forall (fun now => forall g, rtc gateway_step g (meanwhile now g)) script ->
  run_connection dispatch_socket_event uuid socket_events base64_encode parse_initialization
    access first script g = (g', r) ->
  rtc gateway_step g g' /\ gateway_ok g'.
Proof.
  intros Hg Hd Hs H.
  assert (rtc gateway_step g g') by (by eapply respects_run_connection).
  split; [done |]. apply gateway_reachable_ok. by etrans.
Qed.

(** ** The life of a connection *)

Section Lifecycle.
Context {J : Json} {B : Base64}.
Context (dispatch_socket_event :
           ActorPrincipal -> ActorSocketInvocation -> M GatewayState Error (list ActorSocketEffect)).
Context (uuid : nat -> string) (socket_events : bool) (base64_encode : bytes -> string).
Context (parse_initialization : string -> anyhow Value).
Context (actor : ActorKey) (i : string).

Definition event_connection (event : ActorSocketEvent) : string :=
  match event with
  | Connect connection | Disconnect connection _ _ _ => SocketProtocol.id connection
  | Message connection_id _ => connection_id
  end.

(** An event the actor was given, and whether it handled it. *)
Abbreviation Answered := (ActorSocketEvent * bool)%type (only parsing).

Definition event_of (d : ActorKey * Answered) : list Answered :=
  if decide (d.1 = actor /\ event_connection d.2.1 = i) then [d.2] else [].

(** The events of the connection so far. *)
Definition events (g : GatewayState) : list Answered := dispatched g ≫= event_of.

Definition keyed (g : GatewayState) : Prop :=
  forall e, lookup_socket actor i (entries g) = Some e -> SocketProtocol.id (connection e) = i.

(** What other tasks do leaves the connection's events and its id alone. *)
Definition leaves_connection (g g' : GatewayState) : Prop :=
  events g' = events g /\ (keyed g -> keyed g').

(** The event an actor is given: a disconnect carries the registered connection. *)
Definition prepared (event event' : ActorSocketEvent) : Prop :=
  match event, event' with
  | Disconnect c code reason clean, Disconnect c' code' reason' clean' =>
      SocketProtocol.id c' = SocketProtocol.id c /\ (code', reason', clean') = (code, reason, clean)
  | _, _ => event' = event
  end.

Context (dispatch_leaves : forall principal invocation g,
           leaves_connection g (dispatch_socket_event principal invocation g).1).

Lemma events_log a event ok (g : GatewayState) :
  events (log_dispatch a event ok g) = (events g ++ event_of (a, (event, ok)))%list.
Proof. unfold events. simpl. rewrite bind_app. simpl. by rewrite app_nil_r. Qed.

Lemma keyed_update a i' f g :
  keeps_identity f -> keyed g -> keyed (with_entries (update_socket a i' f) g).
Proof.
  intros Hf Hk e He. simpl in He. rewrite lookup_update_socket in He. case_decide; [| by apply Hk].
  apply fmap_Some in He as (e' & He' & ->). destruct (Hf e') as [-> _]. by apply Hk.
Qed.

Lemma effect_leaves a effect (g : GatewayState) : leaves_connection g (apply_one a effect g).
Proof.
  destruct effect; simpl; try (by case_match).
  - set (l := recipients _ _ _ _). clearbody l. revert g.
    induction l as [| ch l IH]; intros g; simpl; [done |].
    destruct (IH (send_on ch (OutMessage message) g)) as [IH1 IH2]. by split.
  - split; [done |]. intros Hk. apply keyed_update; [by intros [] | done].
  - split; [done |]. intros Hk. apply keyed_update; [by intros [] | done].
Qed.

#[local] Instance leaves_connection_preorder : PreOrder leaves_connection.
Proof.
  split; [done |]. intros g1 g2 g3 [H1 H2] [H3 H4]. split; [congruence | auto].
Qed.

Lemma effects_leave a effects (g : GatewayState) : leaves_connection g (apply a effects g).
Proof.
  unfold apply. revert g. induction effects as [| effect effects IH]; intros g; simpl; [done |].
  etrans; [apply effect_leaves | apply IH].
Qed.

(** A program that always answers and leaves the connection alone. *)
Definition quiet {A} (c : M GatewayState Error A) : Prop :=
  forall g, exists g' x, c g = (g', Ok x) /\ leaves_connection g g'.

Lemma quiet_ret {A} (x : A) : quiet (mret x).
Proof. intros g. by exists g, x. Qed.

Lemma quiet_bind {A A'} (c : M GatewayState Error A) (k : A -> M GatewayState Error A') :
  quiet c -> (forall x, quiet (k x)) -> quiet (c ≫= k).
Proof.
  intros Hc Hk g. destruct (Hc g) as (g1 & x & H1 & L1). destruct (Hk x g1) as (g2 & y & H2 & L2).
  exists g2, y. unfold mbind, M_bind. rewrite H1. split; [done | by etrans].
Qed.

Lemma quiet_modify f : (forall g, leaves_connection g (f g)) -> quiet (modify f).
Proof. intros Hf g. by exists (f g), (). Qed.

Lemma quiet_gets {A} (f : GatewayState -> A) : quiet (gets f).
Proof. intros g. by exists g, (f g). Qed.

Lemma quiet_attempt {A} (c : M GatewayState Error A) :
  (forall g, leaves_connection g (c g).1) -> quiet (attempt c).
Proof.
  intros Hc g. specialize (Hc g). unfold attempt. destruct (c g) as [g' r]. by exists g', r.
Qed.

Lemma quiet_deliver a t event : quiet (deliver_socket_message_event uuid socket_events a t event).
Proof.
  unfold deliver_socket_message_event. destruct event, socket_events; try apply quiet_ret.
  apply quiet_bind; [intros g; by eexists _, _ | intros id]. by apply quiet_modify.
Qed.

Lemma activate_leaves connection_id g :
  leaves_connection g (with_entries (activate actor connection_id) g).
Proof. split; [done |]. intros Hk. apply keyed_update; [by intros [] | done]. Qed.

Lemma prepare_spec event (g : GatewayState) :
  event_connection event = i -> keyed g ->
  let '(r, (event', _)) := prepare_event actor event (entries g) in
  prepared event event' /\ event_connection event' = i /\ keyed (with_entries (fun _ => r) g).
Proof.
  intros Hi Hk. destruct event as [c | | c code reason clean]; simpl in *; [by split_and! .. |].
  rewrite Hi. destruct (remove actor i (entries g)) as [r removed] eqn:E.
  assert (Hr : r = (remove actor i (entries g)).1) by by rewrite E.
  assert (Hrem : removed = connection <$> lookup_socket actor i (entries g)).
  { unfold remove, lookup_socket in *. destruct (entries g !! actor); simpl in E; by simplify_eq. }
  assert (Hid : SocketProtocol.id (match removed with Some c' => c' | None => c end) = i).
  { subst removed. destruct (lookup_socket _ _ _) eqn:He; simpl; [by apply Hk | done]. }
  simpl. split_and!; [by rewrite Hid | done | done |].
  intros e. simpl. rewrite Hr, lookup_remove_socket. by rewrite decide_True.
Qed.

Abbreviation dispatch := (dispatch dispatch_socket_event uuid socket_events).
Abbreviation run_loop := (run_loop dispatch_socket_event uuid socket_events base64_encode).

(** The end of a dispatch says whether the actor handled the event. *)
Lemma finish_spec event t result (g : GatewayState) :
  exists g', finish_dispatch uuid socket_events actor event t result g = (g', Ok (handled result)) /\
    leaves_connection g g'.
Proof.
  unfold finish_dispatch, handled. destruct result as [effects | error]; [| by exists g].
  destruct (is_ok _); [| by exists g].
  assert (quiet (modify (E := Error) (apply actor effects);;
      (match connecting_id event with
       | Some connection_id => modify (with_entries (activate actor connection_id))
       | None => mret ()
       end);;
      (if t
       then
         trigger_id ← gets (fun g => trigger_id_of actor (message_connection_id event) (entries g));
         deliver_socket_message_event uuid socket_events actor trigger_id event
       else mret ()))) as Hq.
  { repeat (apply quiet_bind; [| intros []]).
    - apply quiet_modify, effects_leave.
    - destruct (connecting_id event); [apply quiet_modify, activate_leaves | apply quiet_ret].
    - destruct t; [| apply quiet_ret]. apply quiet_bind; [apply quiet_gets | intros id].
      apply quiet_deliver. }
  destruct (Hq g) as (g' & [] & H & Hl). exists g'. split; [| done].
  revert H. unfold mbind, M_bind, mret, M_ret. simpl. destruct (connecting_id event); simpl.
  all: destruct t; simpl; try (by intros [= <-]).
  all: by destruct (deliver_socket_message_event _ _ _ _ _ _) as [? []]; intros [= <-].
Qed.

(** A dispatch always answers, and hands over one event. *)
Lemma dispatch_spec principal event t (g : GatewayState) :
  event_connection event = i -> keyed g ->
  exists g' ok event', dispatch actor principal event t g = (g', Ok ok) /\ keyed g' /\
    events g' = (events g ++ [(event', ok)])%list /\ prepared event event'.
Proof.
  intros Hi Hk. pose proof (prepare_spec event g Hi Hk) as Hprep.
  unfold dispatch, on_entries, new_uuid, modify, mbind, M_bind, attempt. unfold with_entries at 1.
  simpl. destruct (prepare_event actor event (entries g)) as [r [event' connections]] eqn:E.
  destruct Hprep as (Hp & Hi' & Hk'). simpl. rewrite ?E. cbn [fst snd].
  set (g1 := skip_uuid _). set (invocation := {| si_request_id := _ |}).
  pose proof (dispatch_leaves principal invocation g1) as [Hev1 Hk1].
  destruct (dispatch_socket_event principal invocation g1) as [g2 result]. cbn [fst] in *.
  destruct (finish_spec event' t result (log_dispatch actor event' (handled result) g2))
    as (g3 & Hrun & Hev2 & Hk2).
  exists g3, (handled result), event'. split_and!; [exact Hrun | | | done].
  - apply Hk2. apply Hk1. exact Hk'.
  - rewrite Hev2, events_log, Hev1. unfold event_of. by rewrite decide_True.
Qed.

(** Programs that always answer, with a result and a log of the connection's
    events in the relation [P]. *)
Definition hands {A} (P : A -> list Answered -> Prop) (c : M GatewayState Error A) : Prop :=
  forall g, keyed g -> exists g' x log, c g = (g', Ok x) /\ keyed g' /\
    events g' = (events g ++ log)%list /\ P x log.

Lemma hands_quiet {A} (P : A -> list Answered -> Prop) (c : M GatewayState Error A) :
  quiet c -> (forall x, P x []) -> hands P c.
Proof.
  intros Hc HP g Hk. destruct (Hc g) as (g' & x & H & Hev & Hk'). exists g', x, [].
  rewrite app_nil_r. auto.
Qed.

Lemma hands_ret {A} (P : A -> list Answered -> Prop) x : P x [] -> hands P (mret x).
Proof. intros HP g Hk. exists g, x, []. by rewrite app_nil_r. Qed.

Lemma hands_bind {A A'} P (Q : A' -> list Answered -> Prop) (c : M GatewayState Error A)
    (k : A -> M GatewayState Error A') :
  hands P c -> (forall x log, P x log -> hands (fun y log' => Q y (log ++ log')%list) (k x)) ->
  hands Q (c ≫= k).
Proof.
  intros Hc Hk g Hg. destruct (Hc g Hg) as (g1 & x & log1 & H1 & Hk1 & Hev1 & HP).
  destruct (Hk x log1 HP g1 Hk1) as (g2 & y & log2 & H2 & Hk2 & Hev2 & HQ).
  exists g2, y, (log1 ++ log2)%list. split_and!; [| done | | done].
  - unfold mbind, M_bind. by rewrite H1.
  - by rewrite Hev2, Hev1, app_assoc.
Qed.

Lemma hands_quiet_bind {A A'} (Q : A' -> list Answered -> Prop) (c : M GatewayState Error A)
    (k : A -> M GatewayState Error A') :
  quiet c -> (forall x, hands Q (k x)) -> hands Q (c ≫= k).
Proof.
  intros Hc Hk. apply (hands_bind (fun _ log => log = [])); [by apply hands_quiet |].
  intros x log ->. apply Hk.
Qed.

Lemma hands_dispatch principal message t :
  hands (fun ok log => log = [(Message i message, ok)])
    (dispatch actor principal (Message i message) t).
Proof.
  intros g Hk. destruct (dispatch_spec principal (Message i message) t g eq_refl Hk)
    as (g' & ok & event' & H & Hk' & Hev & ->). by eexists g', ok, _.
Qed.

Lemma quiet_recv channel registered : quiet (recv channel registered).
Proof.
  unfold recv. apply quiet_bind; [apply quiet_gets |]. intros [[| message rest] |];
    try apply quiet_ret. apply quiet_bind; [by apply quiet_modify | intros; apply quiet_ret].
Qed.

Definition script_leaves (script : list ScriptTurn) : Prop :=
  Forall (fun now => forall g, leaves_connection g (meanwhile now g)) script.

(** The event a frame from the socket becomes. *)
Definition inbound_event (now : ScriptTurn) : option ActorSocketEvent :=
  match turn now with
  | Inbound (Some (WsText data)) _ => Some (Message i (Text data))
  | Inbound (Some (WsBinary data)) _ => Some (Message i (Binary (base64_encode data)))
  | _ => None
  end.

(** How a connected socket is served, turn by turn: the events its actor is
    given, with whether it handled them, the disconnection at the end and the
    frames written. *)
Inductive Served : list ScriptTurn -> list Answered -> Disconnection -> list WsMessage -> Prop :=
| StreamEnds : Served [] [] lost []
| MessageHandled now script event log d frames :
    inbound_event now = Some event -> Served script log d frames ->
    Served (now :: script) ((event, true) :: log) d frames
| MessageFailed now script event :
    inbound_event now = Some event -> Served (now :: script) [(event, false)] handler_failed []
| PingAnswered now script data log d frames :
    turn now = Inbound (Some (WsPing data)) true -> Served script log d frames ->
    Served (now :: script) log d (WsPong data :: frames)
| PongIgnored now script data sent log d frames :
    turn now = Inbound (Some (WsPong data)) sent -> Served script log d frames ->
    Served (now :: script) log d frames
| PeerCloses now script sent :
    turn now = Inbound (Some (WsClose None)) sent ->
    Served (now :: script) [] (1000%Z, "", true) []
| PeerClosesWith now script code reason sent :
    turn now = Inbound (Some (WsClose (Some (code, reason)))) sent ->
    Served (now :: script) [] (code, reason, true) []
| SocketFails now script sent :
    turn now = Inbound None sent -> Served (now :: script) [] lost []
| PongNotSent now script data :
    turn now = Inbound (Some (WsPing data)) false -> Served (now :: script) [] lost []
| NothingQueued now script sent log d frames :
    turn now = Outbound sent -> Served script log d frames -> Served (now :: script) log d frames
| SenderGone now script sent : turn now = Outbound sent -> Served (now :: script) [] lost []
| FrameWritten now script message frame log d frames :
    turn now = Outbound true -> websocket_message message = Some frame ->
    Served script log d frames -> Served (now :: script) log d (frame :: frames)
| FrameNotSent now script : turn now = Outbound false -> Served (now :: script) [] lost []
| FrameInvalid now script message sent :
    turn now = Outbound sent -> websocket_message message = None ->
    Served (now :: script) [] (1011%Z, "actor produced an invalid socket message", false) []
| ActorCloses now script code reason sent :
    turn now = Outbound sent ->
    Served (now :: script) [] (code, reason, true) [WsClose (Some (code, reason))].

Lemma hands_run_loop principal channel script :
  script_leaves script ->
  hands (fun '(d, frames) log => Served script log d frames)
    (run_loop actor principal i channel script).
Proof.
  induction 1 as [| now script Hnow _ IH]; simpl; [by apply hands_ret; constructor |].
  apply hands_quiet_bind; [by apply quiet_modify | intros _].
  assert (Hmessage : forall message, inbound_event now = Some (Message i message) ->
    hands (fun '(d, frames) log => Served (now :: script) log d frames)
      (ok ← dispatch actor principal (Message i message) true;
       if ok : bool then run_loop actor principal i channel script
       else mret (handler_failed, []))).
  { intros message Hm. eapply hands_bind; [apply hands_dispatch |]. intros ok log ->.
    destruct ok; [| by apply hands_ret; simpl; eapply MessageFailed].
    intros g Hg. destruct (IH g Hg) as (g' & [d frames] & log & ? & ? & ? & ?).
    exists g', (d, frames), log. split_and!; [done.. |]. by eapply MessageHandled. }
  assert (Hcons : forall frame,
    (forall log d frames, Served script log d frames ->
       Served (now :: script) log d (frame :: frames)) ->
    hands (fun '(d, frames) log => Served (now :: script) log d frames) (
      '(disconnection, frames) ← run_loop actor principal i channel script;
      mret (disconnection, frame :: frames))).
  { intros frame Hf. eapply hands_bind; [exact IH |]. intros [d frames] log HS.
    apply hands_ret. rewrite app_nil_r. auto. }
  assert (Hskip :
    (forall log d frames, Served script log d frames -> Served (now :: script) log d frames) ->
    hands (fun '(d, frames) log => Served (now :: script) log d frames)
      (run_loop actor principal i channel script)).
  { intros Hf g Hg. destruct (IH g Hg) as (g' & [d frames] & log & ? & ? & ? & ?).
    exists g', (d, frames), log. split_and!; auto. }
  unfold inbound_event in Hmessage.
  destruct (turn now) as [[[data | data | data | data | frame] |] sent | sent] eqn:Ht.
  - by apply Hmessage.
  - by apply Hmessage.
  - destruct sent; [apply Hcons; intros; by apply PingAnswered |
                    apply hands_ret; by eapply PongNotSent].
  - apply Hskip. intros. by eapply PongIgnored.
  - apply hands_ret. destruct frame as [[code reason] |];
      [by eapply PeerClosesWith | by eapply PeerCloses].
  - apply hands_ret. by eapply SocketFails.
  - apply hands_quiet_bind; [apply quiet_gets | intros registered].
    apply hands_quiet_bind; [apply quiet_recv |].
    intros [| | [message | code reason]];
      [apply Hskip; intros; by eapply NothingQueued | apply hands_ret; by eapply SenderGone | |
       apply hands_ret; by eapply ActorCloses].
    destruct (websocket_message message) eqn:Hm; [| apply hands_ret; by eapply FrameInvalid].
    destruct sent; [apply Hcons; intros; by eapply FrameWritten |
                    apply hands_ret; by eapply FrameNotSent].
Qed.

Lemma removed_socket r a :
  lookup_socket a i (remove (J := J) a i r).1 = None.
Proof. rewrite lookup_remove_socket. by rewrite decide_True. Qed.

(** A registered connection: offered once; when the actor handles the offer it is
    served, and a disconnect, with what the serving ended with, is the last the
    actor hears of it. *)
Inductive Connected (c : ActorSocketConnection) (script : list ScriptTurn) :
    list Answered -> list WsMessage -> Prop :=
| Rejected :
    Connected c script [(Connect c, false)]
      [WsClose (Some (1011%Z, "actor rejected the connection"))]
| Lived log code reason clean frames c' ok :
    Served script log (code, reason, clean) frames -> SocketProtocol.id c' = SocketProtocol.id c ->
    Connected c script
      ((Connect c, true) :: log ++ [(Disconnect c' code reason clean, ok)])%list frames.

Lemma serve_spec principal c channel script (g : GatewayState) :
  SocketProtocol.id c = i -> script_leaves script -> keyed g ->
  exists g' frames life,
    serve_connection dispatch_socket_event uuid socket_events base64_encode actor principal c
      channel script g = (g', Ok frames) /\
    lookup_socket actor i (entries g') = None /\
    events g' = (events g ++ life)%list /\ Connected c script life frames.
Proof.
  intros Hi Hs Hk. unfold serve_connection. rewrite Hi. unfold mbind, M_bind, on_entries.
  destruct (dispatch_spec principal (Connect c) false g Hi Hk)
    as (g1 & ok & event1 & H1 & Hk1 & Hev1 & ->). rewrite H1. destruct ok.
  2: { eexists _, _, [(Connect c, false)].
       split_and!; [done | apply removed_socket | done | by constructor]. }
  destruct (hands_run_loop principal channel script Hs g1 Hk1)
    as (g2 & [[[code reason] clean] frames] & log & H2 & Hk2 & Hev2 & Hlog). rewrite H2.
  destruct (dispatch_spec principal (Disconnect c code reason clean) false g2 Hi Hk2)
    as (g3 & ok & event3 & H3 & Hk3 & Hev3 & Hp). rewrite H3.
  destruct event3 as [| | c' code' reason' clean']; try done. destruct Hp as [Hid [= -> -> ->]].
  eexists _, frames, ((Connect c, true) :: log ++ [(Disconnect c' code reason clean, ok)])%list.
  split_and!; [done | apply removed_socket | | by apply Lived].
  change (events g3 = (events g ++ (Connect c, true) :: log ++
    [(Disconnect c' code reason clean, ok)])%list).
  rewrite Hev3, Hev2, Hev1. by rewrite <- !app_assoc.
Qed.

Lemma register_spec c channel t (g : GatewayState) :
  SocketProtocol.id c = i -> lookup_socket actor i (entries g) = None ->
  let '(r, inserted) := insert actor c channel t (entries g) in
  inserted = negb (bool_decide (MAX_CONNECTIONS_PER_ACTOR <= size (connections_of actor (entries g)))) /\
  keyed (with_entries (fun _ => r) g) /\
  (inserted = false -> lookup_socket actor i r = None).
Proof.
  intros Hi Hfree. destruct (insert actor c channel t (entries g)) as [r inserted] eqn:E.
  assert (Hr : r = (insert actor c channel t (entries g)).1) by by rewrite E.
  assert (Hin : inserted = (insert actor c channel t (entries g)).2) by by rewrite E.
  split. { rewrite Hin. unfold insert. by repeat case_decide || case_bool_decide. }
  unfold keyed. simpl. rewrite Hr. destruct inserted; symmetry in Hin.
  - split; [| done]. intros e. rewrite lookup_insert_socket by done.
    rewrite decide_True by done. by intros [= <-].
  - rewrite lookup_insert_refused by done. rewrite Hfree. done.
Qed.
End Lifecycle.


(** ** Two browsers on one actor *)

Definition sample_metadata : Value (Json := text_json) := "{}".
Definition first_socket : ActorSocketConnection (J := text_json) :=
  {| SocketProtocol.id := "first"; SocketProtocol.metadata := sample_metadata;
     SocketProtocol.tags := [] |}.
Definition sample_dispatch (principal : ActorPrincipal) (invocation : ActorSocketInvocation)
    : M GatewayState Error (list ActorSocketEffect) :=
  fun g => (g, Ok [Broadcast (Text "hello") [] []]).
Definition sample_uuid (n : nat) : string := "uuid-" +:+ pretty n.
Definition sample_socket_access : SocketAccess :=
  {| access_actor := sample_actor; access_principal := for_external_socket "u1" "u2" sample_actor "eu" 100;
     access_metadata := Some sample_metadata; access_trigger_id := Some "trigger" |}.
Definition sample_script : list ScriptTurn :=
  [{| turn := Inbound (Some (WsText "ping")) true; meanwhile := fun g => g |};
   {| turn := Outbound true; meanwhile := fun g => g |};
   {| turn := Inbound (Some (WsClose None)) true; meanwhile := fun g => g |}].
(** One socket is open already. *)
Definition sample_gateway : GatewayState :=
  with_entries (activate sample_actor "first")
    (register sample_actor first_socket None empty_gateway).
Definition sample_run : GatewayState * anyhow (list WsMessage) :=
  run_connection sample_dispatch sample_uuid true (fun _ => "") (fun _ => bail "") sample_socket_access
    None sample_script sample_gateway.

Lemma sample_gateway_reachable : rtc gateway_step empty_gateway sample_gateway.
Proof. eapply rtc_l; [apply G_register | apply rtc_once, G_activate]. Qed.

Lemma effects_stay_with_actor_witness :
  channels (apply_one sample_actor (Broadcast (Text "news") [] []) sample_gateway) !! 0
  = Some [OutMessage (Text "news")].
Proof.
  destruct (effects_stay_with_actor sample_gateway sample_actor [] (Text "news") [] []
              sample_gateway_reachable) as (_ & _ & H).
  apply (H "first" {| connection := first_socket; outbound := 0; open := true; trigger_id := None |} []); reflexivity.
Defined.

Lemma tasks_keep_registry_witness :
  sample_run.2 = Ok [WsText "hello"] /\
  (rtc gateway_step sample_gateway sample_run.1 /\ gateway_ok sample_run.1) /\
  channels sample_run.1 !! 0
    = Some [OutMessage (Text "hello"); OutMessage (Text "hello"); OutMessage (Text "hello")].
Proof.
  split; [vm_compute; reflexivity |]. split; [| vm_compute; reflexivity].
  eapply (tasks_keep_registry sample_dispatch sample_uuid true (fun _ => "") (fun _ => bail "")
            sample_socket_access None sample_script sample_gateway).
  - apply sample_gateway_reachable.
  - intros principal invocation g g' r [= <- _]. apply rtc_refl.
  - repeat constructor.
  - apply surjective_pairing.
Defined.

