(* ===== verification/PublicApi.v ===== *)
(** * The public HTTP API

    [src/control_plane/public_api.rs], the HTTP side of
    [src/control_plane/websocket.rs], and the external authorization of sockets
    ([src/control_plane/socket_auth.rs]).  Routing, body limits and JSON decoding
    are axum's; the handlers take the decoded parts and the headers. *)
From S2P Require Import Prelude Net Json Identity SocketProtocol StorageUrls Sandbox Tokens.
From S2P Require Import Database Leases Admin Placement ControlPlane SocketGateway.
Local Open Scope string_scope.

(** ** Requests and errors *)

(** The headers the handlers read: a value that is not visible ASCII has no
    string. *)
Record Headers := {
  header_authorization : option (option string);
  header_sec_websocket_protocol : option (option string);
}.

Definition BAD_REQUEST : Z := 400.
Definition UNAUTHORIZED : Z := 401.
Definition FORBIDDEN : Z := 403.
Definition CONFLICT : Z := 409.
Definition INTERNAL_SERVER_ERROR : Z := 500.
Definition SERVICE_UNAVAILABLE : Z := 503.
Definition NO_CONTENT : Z := 204.

Record ApiError := { api_status : Z; api_code : string; api_message : string }.

Definition ApiError_new (status : Z) (code message : string) : ApiError :=
  {| api_status := status; api_code := code; api_message := message |}.
Definition bad_request (message : string) : ApiError :=
  ApiError_new BAD_REQUEST "invalid_request" message.
Definition unauthorized (message : string) : ApiError :=
  ApiError_new UNAUTHORIZED "unauthenticated" message.
Definition forbidden (message : string) : ApiError := ApiError_new FORBIDDEN "forbidden" message.
Definition conflict (message : string) : ApiError := ApiError_new CONFLICT "conflict" message.
Definition unavailable (message : string) : ApiError :=
  ApiError_new SERVICE_UNAVAILABLE "unavailable" message.
Definition internal (message : string) : ApiError :=
  ApiError_new INTERNAL_SERVER_ERROR "internal" message.

(** [.map_err(f)] on a call. *)
Definition M_map_err {S E F A} (f : E -> F) (c : M S E A) : M S F A := fun st =>
  let '(st', r) := c st in (st', map_err f r).

Definition authorization (headers : Headers) : Result ApiError string :=
  match header_authorization headers with
  | None => Err (unauthorized "bearer credential is required")
  | Some None => Err (unauthorized "bearer credential is invalid")
  | Some (Some value) => Ok value
  end.

(** ** Handlers *)

Section Handlers.
Context {E : Surroundings} {T : Jwt} {Parser : UrlParser} {Signer : UrlSigner}.
Context (service : ControlPlaneService) (registry : AdminRegistry) (admin : AdminService).

Definition authorized_admin (headers : Headers) : Result ApiError () :=
  value ← authorization headers;
  map_err (fun _ => unauthorized "admin credential was rejected") (admin_authenticate admin value).

(** [decode_at], [elapsed]: the clock readings of the token's validation. *)
Definition authorized_workflow (decode_at : Z) (elapsed : option Z) (headers : Headers)
    (actor : ActorKey) : Result ApiError ActorPrincipal :=
  value ← authorization headers;
  principal ← map_err (fun _ => unauthorized "workflow token was rejected")
                (authenticate_authorization (auth service) decode_at elapsed value);
  if negb (bool_decide (process_role principal = Workflow))
  then Err (forbidden "credential is not a workflow token")
  else if negb (ActorScope_contains (scope principal) actor)
  then Err (forbidden "workflow token cannot cross namespace scope")
  else Ok principal.

Record RegisterDeploymentRequest := {
  code_revision : string;
  image_ref : string;
  working_directory : string;
  actor_entrypoint : option string;
  warm_region : option string;
}.

Definition requested_spec (namespace_id : string) (request : RegisterDeploymentRequest)
    : HostLaunchSpec :=
  {| spec_namespace_id := namespace_id; spec_code_revision := code_revision request;
     Admin.image_ref := image_ref request; Admin.working_directory := working_directory request;
     Admin.actor_entrypoint := actor_entrypoint request |}.

Definition register_deployment (namespace_id : string) (headers : Headers)
    (request : RegisterDeploymentRequest) : M PgState ApiError bool :=
  lift (authorized_admin headers);;
  let spec := requested_spec namespace_id request in
  changed ← M_map_err (fun e => bad_request (to_string e))
              (ControlPlane.register_deployment service registry spec);
  (match warm_region request with
   | Some region =>
       M_map_err (fun e => bad_request (to_string e)) (warm_deployment_image service spec region)
   | None => mret ()
   end);;
  mret changed.

Record IssueWorkflowTokenRequest := {
  execution_id : string;
  deadline_unix_ms : Z;
  storage_region : string;
  request_private_routing : bool;
}.

Definition issue_workflow_token (elapsed : option Z) (uuid1 uuid2 : string)
    (namespace_id : string) (headers : Headers) (request : IssueWorkflowTokenRequest)
    : M PgState ApiError IssuedActorToken :=
  lift (authorized_admin headers);;
  (if is_empty (execution_id request) || (255 <? len (execution_id request))%Z
   then lift (Err (bad_request "workflow execution ID is invalid")) else mret ());;
  (if (deadline_unix_ms request <=? 0)%Z
   then lift (Err (bad_request "workflow deadline is required")) else mret ());;
  exists_ ← M_map_err (fun e => internal (to_string e)) (deployment_exists (R := registry) namespace_id);
  (if negb exists_ then lift (Err (conflict "project has no registered actor code")) else mret ());;
  lift (map_err (fun e => bad_request (to_string e))
    (Admin.issue_workflow_token admin elapsed uuid1 uuid2 namespace_id (execution_id request)
       (storage_region request) (deadline_unix_ms request) (request_private_routing request))).

(** [jwks]: [parse] is [serde_json::from_slice]. *)
Definition jwks {V} (parse : bytes -> anyhow V) : Result ApiError V :=
  document ← map_err (fun e => internal (to_string e)) (jwks_json (admin_issuer admin));
  map_err (fun e => internal (to_string e)) (parse document).

(** [None] when the routing's fuel ran out. *)
Definition resolve_actor_target (fuel : nat) (decode_at : Z) (elapsed : option Z)
    (actor : ActorKey) (headers : Headers) : M ServiceState ApiError (option WorkflowActorTarget) :=
  lift (map_err (fun e => bad_request (to_string e)) (ActorKey_validate actor));;
  principal ← lift (authorized_workflow decode_at elapsed headers actor);
  M_map_err (fun e => unavailable ("actor host is unavailable: " +:+ alternate e))
    (resolve_workflow_route service fuel principal actor InvocationRoute).
End Handlers.

(** ** External authorization of sockets *)

Definition MAX_SOCKET_AUTHORIZATION_RESPONSE_BYTES : Z := 128 * 1024.

Inductive SocketAuthorizationError := Rejected | AuthorizationUnavailable (e : Error).

Section SocketAuthorization.
Context `{J : Json} {Parser : UrlParser}.

Record SocketAuthorizationRequest := {
  request_trigger_id : string;
  request_actor_id : string;
  request_credential : string;
}.

Record SocketAuthorization := {
  authorized_actor : ActorKey;
  authorized_region : string;
  authorized_metadata : Value;
  authorized_expires_at : Z;
}.

Record SocketAuthorizationResponse := {
  response_namespace_id : string;
  response_actor_type : string;
  response_actor_id : string;
  response_storage_region : string;
  response_metadata : Value;
  response_expires_at : Z;
}.

(** [serde_json::from_slice] at the response. *)
Context (parse_response : bytes -> anyhow SocketAuthorizationResponse).

(** What [reqwest] gives back: the status, the declared length and the body,
    chunk by chunk. *)
Record HttpResponse := {
  http_status : Z;
  content_length : option Z;
  body_chunks : list (anyhow bytes);
}.

(** [Response::error_for_status]: 4xx and 5xx are errors. *)
Definition error_for_status (r : HttpResponse) : anyhow HttpResponse :=
  ensure (negb ((400 <=? http_status r) && (http_status r <? 600)))%Z
    ("HTTP status " +:+ display_u64 (http_status r));;
  Ok r.

Definition response_too_large : string :=
  "socket authorization response exceeds "
  +:+ display_u64 MAX_SOCKET_AUTHORIZATION_RESPONSE_BYTES +:+ " bytes".

Fixpoint read_chunks (document : bytes) (chunks : list (anyhow bytes)) : anyhow bytes :=
  match chunks with
  | [] => Ok document
  | chunk :: chunks =>
      chunk ← chunk;
      ensure (u64_saturating_add (bytes_len document) (bytes_len chunk)
              <=? MAX_SOCKET_AUTHORIZATION_RESPONSE_BYTES)%Z response_too_large;;
      read_chunks (document ++ chunk)%list chunks
  end.

Definition read_authorization_response (r : HttpResponse) : anyhow SocketAuthorizationResponse :=
  (match content_length r with
   | Some n => ensure (n <=? MAX_SOCKET_AUTHORIZATION_RESPONSE_BYTES)%Z response_too_large
   | None => Ok ()
   end);;
  document ← read_chunks [] (body_chunks r);
  with_context "decode socket authorization response" (parse_response document).

(** [now] is [unix_seconds()]. *)
Definition into_authorization (now : anyhow Z) (requested_actor_id : string)
    (r : SocketAuthorizationResponse) : anyhow SocketAuthorization :=
  ensure (bool_decide (response_actor_id r = requested_actor_id))
    "socket authorization changed the requested actor ID";;
  ensure (negb (is_empty (response_storage_region r)))
    "socket authorization omitted its storage region";;
  now ← now;
  ensure (now <? response_expires_at r)%Z "socket authorization has expired";;
  validate_socket_metadata (response_metadata r);;
  let actor := {| namespace_id := response_namespace_id r; actor_type := response_actor_type r;
                  actor_id := response_actor_id r |} in
  ActorKey_validate actor;;
  Ok {| authorized_actor := actor; authorized_region := response_storage_region r;
        authorized_metadata := response_metadata r;
        authorized_expires_at := response_expires_at r |}.

Record HttpSocketAuthenticator := { authenticator_url : string; authenticator_token : string }.

Definition HttpSocketAuthenticator_new (url token : string) : anyhow HttpSocketAuthenticator :=
  parsed ← with_context "socket authorization URL is invalid" (url_parse url);
  ensure (bool_decide (scheme parsed = "http") || bool_decide (scheme parsed = "https"))
    "socket authorization URL must use HTTP or HTTPS";;
  ensure (negb (is_empty token)) "socket authorization token must not be empty";;
  Ok {| authenticator_url := url; authenticator_token := token |}.

(** [post]: the exchange with the application's endpoint. *)
Definition authorize (post : string -> string -> SocketAuthorizationRequest -> anyhow HttpResponse)
    (a : HttpSocketAuthenticator) (now : anyhow Z) (request : SocketAuthorizationRequest)
    : Result SocketAuthorizationError SocketAuthorization :=
  response ← map_err AuthorizationUnavailable
    (post (authenticator_url a) (authenticator_token a) request);
  if existsb (Z.eqb (http_status response)) [401; 403; 404]%Z then Err Rejected
  else
    response ← map_err AuthorizationUnavailable (error_for_status response);
    response ← map_err AuthorizationUnavailable (read_authorization_response response);
    map_err AuthorizationUnavailable (into_authorization now (request_actor_id request) response).
End SocketAuthorization.

(** ** The socket endpoints *)

Record SocketApiError := { socket_status : Z; socket_message : string }.

Definition socket_bad_request : SocketApiError :=
  {| socket_status := BAD_REQUEST; socket_message := "invalid socket request" |}.
Definition socket_unauthorized (message : string) : SocketApiError :=
  {| socket_status := UNAUTHORIZED; socket_message := message |}.
Definition socket_forbidden (message : string) : SocketApiError :=
  {| socket_status := FORBIDDEN; socket_message := message |}.
Definition from_authorization (e : SocketAuthorizationError) : SocketApiError :=
  match e with
  | Rejected => socket_unauthorized "socket credential was rejected"
  | AuthorizationUnavailable _ =>
      {| socket_status := SERVICE_UNAVAILABLE;
         socket_message := "socket authorization is unavailable" |}
  end.

Section Sockets.
Context {T : Jwt} {J : Json} {B : Base64} {Parser : UrlParser}.
Context (verifier : ActorJwtVerifier).

Definition authorize_workflow (decode_at : Z) (elapsed : option Z) (headers : Headers)
    (actor : ActorKey) : Result SocketApiError ActorPrincipal :=
  value ← (match header_authorization headers with
           | None => Err (socket_unauthorized "actor token is required")
           | Some None => Err (socket_unauthorized "actor token is invalid")
           | Some (Some value) => Ok value
           end);
  principal ← map_err (fun _ => socket_unauthorized "actor token was rejected")
                (authenticate_authorization verifier decode_at elapsed value);
  if negb (bool_decide (process_role principal = Workflow))
     || negb (ActorScope_contains (scope principal) actor)
  then Err (socket_forbidden "workflow token is not valid for this actor")
  else Ok principal.

Fixpoint find_ticket (protocols : list string) : option string :=
  match protocols with
  | [] => None
  | protocol :: protocols =>
      match strip_prefix "terse-ticket." (trim protocol) with
      | Some ticket => Some ticket
      | None => find_ticket protocols
      end
  end.

Definition nonempty (s : string) : option string := if is_empty s then None else Some s.

Definition external_credential (headers : Headers) : option string :=
  match (value ← mjoin (header_authorization headers);
         credential ← strip_prefix "Bearer " value;
         nonempty credential) with
  | Some credential => Some credential
  | None =>
      value ← mjoin (header_sec_websocket_protocol headers);
      ticket ← find_ticket (split_char ","%char value);
      nonempty ticket
  end.

Definition apply_effects (decode_at : Z) (elapsed : option Z) (actor : ActorKey)
    (headers : Headers) (effects : list ActorSocketEffect) : M GatewayState SocketApiError Z :=
  lift (map_err (fun _ => socket_bad_request) (ActorKey_validate actor));;
  lift (authorize_workflow decode_at elapsed headers actor);;
  lift (map_err (fun _ => socket_bad_request) (validate_socket_effects effects));;
  modify (apply actor effects);;
  mret NO_CONTENT.

(** The access an upgraded connection runs with. *)
Definition connect_workflow (decode_at : Z) (elapsed : option Z) (actor : ActorKey)
    (headers : Headers) : Result SocketApiError SocketAccess :=
  map_err (fun _ => socket_bad_request) (ActorKey_validate actor);;
  principal ← authorize_workflow decode_at elapsed headers actor;
  Ok {| access_actor := actor; access_principal := principal; access_metadata := None;
        access_trigger_id := None |}.

(** [ControlPlaneService::authorize_socket] *)
Definition authorize_socket
    (socket_authenticator :
       option (SocketAuthorizationRequest -> Result SocketAuthorizationError SocketAuthorization))
    (request : SocketAuthorizationRequest) : Result SocketAuthorizationError SocketAuthorization :=
  match socket_authenticator with
  | None => Err (AuthorizationUnavailable ["socket authorization is not configured"])
  | Some authorize => authorize request
  end.

Definition connect_external
    (socket_authenticator :
       option (SocketAuthorizationRequest -> Result SocketAuthorizationError SocketAuthorization))
    (uuid1 uuid2 trigger_id actor_id : string) (headers : Headers)
    : Result SocketApiError SocketAccess :=
  credential ← (match external_credential headers with
                | Some credential => Ok credential
                | None => Err (socket_unauthorized "socket credential is required")
                end);
  let request := {| request_trigger_id := trigger_id; request_actor_id := actor_id;
                    request_credential := credential |} in
  authorization ← map_err from_authorization (authorize_socket socket_authenticator request);
  Ok {| access_actor := authorized_actor authorization;
        access_principal := for_external_socket uuid1 uuid2 (authorized_actor authorization)
          (authorized_region authorization) (authorized_expires_at authorization);
        access_metadata := Some (authorized_metadata authorization);
        access_trigger_id := Some trigger_id |}.
End Sockets.

(** ** Who gets a socket *)

Section AuthorizationProofs.
Context {J : Json} {Parser : UrlParser}.
Context (parse_response : bytes -> anyhow SocketAuthorizationResponse).

Lemma read_chunks_Ok chunks document d :
  read_chunks document chunks = Ok d ->
  exists bs, chunks = Ok <$> bs /\ d = (document ++ mjoin bs)%list /\
    (bytes_len document <= MAX_SOCKET_AUTHORIZATION_RESPONSE_BYTES ->
     bytes_len d <= MAX_SOCKET_AUTHORIZATION_RESPONSE_BYTES)%Z.
Proof.
  revert document. induction chunks as [| chunk chunks IH]; intros document H; simpl in H.
  - inv_ok. exists []. simpl. rewrite app_nil_r. done.
  - inv_ok. match goal with H : _ = Ok d |- _ => apply IH in H as (bs & -> & -> & Hl) end. bool_prop.
    unfold bytes_len, u64_saturating_add, u64_max, MAX_SOCKET_AUTHORIZATION_RESPONSE_BYTES in *.
    eexists (_ :: bs). split; [done |]. simpl. rewrite app_assoc. split; [done |].
    intros _. apply Hl. rewrite length_app in *. lia.
Qed.

(** What an accepted answer of the application establishes. *)
Lemma authorize_Ok post a now request r :
  authorize parse_response post a now request = Ok r ->
  ActorKey_validate (authorized_actor r) = Ok tt /\
  actor_id (authorized_actor r) = request_actor_id request /\
  (exists n, now = Ok n /\ (n < authorized_expires_at r)%Z) /\
  validate_socket_metadata (authorized_metadata r) = Ok tt /\
  exists response bs, post (authenticator_url a) (authenticator_token a) request = Ok response /\
    (http_status response < 400 \/ 600 <= http_status response)%Z /\
    body_chunks response = Ok <$> bs /\
    (bytes_len (mjoin bs) <= MAX_SOCKET_AUTHORIZATION_RESPONSE_BYTES)%Z.
Proof.
  intros H. unfold authorize in H. inv_ok. destruct (existsb _ _); [done |]. inv_ok.
  unfold into_authorization, read_authorization_response, error_for_status in *. inv_ok. bool_prop.
  match goal with H : read_chunks _ _ = _ |- _ => apply read_chunks_Ok in H as (bs & Hbs & -> & Hl) end.
  split_and!; simpl; try done; [eauto |].
  eexists _, bs. split; [done |]. split_and!; [| done | by apply Hl].
  match goal with H : _ && _ = false |- _ => apply andb_false_iff in H as [H | H] end; bool_prop; lia.
Qed.
End AuthorizationProofs.

Section Sockets.
Context {J : Json} {Parser : UrlParser}.

Lemma nonempty_Some s t : nonempty s = Some t <-> t = s /\ s <> "".
Proof.
  unfold nonempty. destruct s; simpl; split; [done | by intros [-> ?] | by intros [= <-] | by intros [-> _]].
Qed.

Lemma external_credential_nonempty headers credential :
  external_credential headers = Some credential -> credential <> "".
Proof.
  unfold external_credential. intros H. case_match eqn:E.
  - injection H as ->. apply bind_Some in E as (v & _ & E). apply bind_Some in E as (c & _ & E).
    by apply nonempty_Some in E as [-> ?].
  - apply bind_Some in H as (v & _ & H). apply bind_Some in H as (c & _ & H).
    by apply nonempty_Some in H as [-> ?].
Qed.

(** C20: A browser gets a socket only when the application's endpoint accepted its non-empty
    credential for that trigger and actor id with an answer of at most 128 KiB: the actor is a
    valid key with the requested id, the session has not expired, its metadata is within its
    bound, and the principal it runs with is a workflow of the actor's own namespace, without any
    capability to be invoked as a host. *)
Theorem external_socket_authorized parse_response post a now uuid1 uuid2 trigger_id requested
    headers access :
  connect_external (Some (authorize parse_response post a now)) uuid1 uuid2 trigger_id requested
    headers = Ok access ->
  let principal := access_principal access in
  ActorKey_validate (access_actor access) = Ok tt /\
  actor_id (access_actor access) = requested /\
  (exists n, now = Ok n /\ (n < expires_at principal)%Z) /\
  process_role principal = Workflow /\ invocation principal = None /\
  (forall other, ActorScope_contains (scope principal) other = true <->
                 namespace_id other = namespace_id (access_actor access)) /\
  (exists metadata, access_metadata access = Some metadata /\
                    validate_socket_metadata metadata = Ok tt) /\
  exists credential response bs, external_credential headers = Some credential /\ credential <> "" /\
    post (authenticator_url a) (authenticator_token a)
      {| request_trigger_id := trigger_id; request_actor_id := requested;
         request_credential := credential |} = Ok response /\
    (http_status response < 400 \/ 600 <= http_status response)%Z /\
    body_chunks response = Ok <$> bs /\
    (bytes_len (mjoin bs) <= MAX_SOCKET_AUTHORIZATION_RESPONSE_BYTES)%Z.
Proof.
  intros H. unfold connect_external, authorize_socket in H.
  destruct (external_credential headers) as [credential |] eqn:Hc; [| done]. simpl in H. inv_ok.
  match goal with H : authorize _ _ _ _ _ = _ |- _ =>
    apply authorize_Ok in H as (? & ? & ? & ? & response & bs & ? & ? & ? & ?) end.
  simpl in *. split_and!; try done.
  - intros other. unfold ActorScope_contains. simpl. by rewrite bool_decide_eq_true.
  - eauto.
  - exists credential, response, bs. split_and!; try done. by apply external_credential_nonempty in Hc.
Qed.
End Sockets.

(** An application that vouches for one actor. *)
Definition sample_response : SocketAuthorizationResponse (J := text_json) :=
  {| response_namespace_id := "acme"; response_actor_type := "Counter"; response_actor_id := "1";
     response_storage_region := "eu"; response_metadata := sample_metadata;
     response_expires_at := 2000 |}.
Definition sample_post (url token : string) (request : SocketAuthorizationRequest)
    : anyhow HttpResponse :=
  if String.eqb (request_credential request) "ticket"
  then Ok {| http_status := 200; content_length := None; body_chunks := [Ok []] |}
  else Ok {| http_status := 403; content_length := None; body_chunks := [] |}.
Definition browser_headers : Headers :=
  {| header_authorization := None;
     header_sec_websocket_protocol := Some (Some "terse-do, terse-ticket.ticket") |}.
Definition sample_access : Result SocketApiError SocketAccess :=
  connect_external (Some (authorize (fun _ => Ok sample_response) sample_post
    {| authenticator_url := "https://app.example/authorize"; authenticator_token := "t" |}
    (Ok 1000%Z))) "u1" "u2" "trigger" "1" browser_headers.

Lemma external_socket_authorized_witness :
  exists access, sample_access = Ok access /\
    ActorKey_validate (access_actor access) = Ok tt /\ actor_id (access_actor access) = "1".
Proof.
  eexists. split; [vm_compute; reflexivity |].
  split; eapply (external_socket_authorized (fun _ => Ok sample_response) sample_post
    {| authenticator_url := "https://app.example/authorize"; authenticator_token := "t" |}
    (Ok 1000%Z) "u1" "u2" "trigger" "1" browser_headers); vm_compute; reflexivity.
Defined.

(** ** Requests without a credential *)

Section Guards.
Context {E : Surroundings} {T : Jwt} {Parser : UrlParser} {Signer : UrlSigner} {J : Json} {B : Base64}.
Context (service : ControlPlaneService) (registry : AdminRegistry) (admin : AdminService).

(** The two answers to a caller who is not who the endpoint is for. *)
Definition refused (status : Z) : Prop := status = UNAUTHORIZED \/ status = FORBIDDEN.

Lemma authorized_admin_refused headers e :
  authorized_admin admin headers = Err e -> api_status e = UNAUTHORIZED.
Proof.
  unfold authorized_admin, authorization. destruct (header_authorization headers) as [[value |] |];
    simpl; [| by intros [= <-] | by intros [= <-]].
  destruct (admin_authenticate admin value); simpl; [done | by intros [= <-]].
Qed.

(** The caller [p] holds the admin token, or a workflow token for the actor. *)
Definition admin_credential (headers : Headers) : Prop :=
  exists value, header_authorization headers = Some (Some value) /\
                admin_authenticate admin value = Ok tt.
Definition workflow_credential (v : ActorJwtVerifier) (decode_at : Z) (elapsed : option Z)
    (headers : Headers) (actor : ActorKey) : Prop :=
  exists value p, header_authorization headers = Some (Some value) /\
    authenticate_authorization v decode_at elapsed value = Ok p /\
    process_role p = Workflow /\ ActorScope_contains (scope p) actor = true.

Lemma authorized_admin_iff headers :
  authorized_admin admin headers = Ok tt <-> admin_credential headers.
Proof.
  unfold authorized_admin, admin_credential, authorization.
  destruct (header_authorization headers) as [[value |] |]; simpl.
  - destruct (admin_authenticate admin value) as [[] |] eqn:Ha; simpl; split; eauto; [done |].
    intros (v & [= <-] & ?). congruence.
  - split; [done | by intros (? & ? & _)].
  - split; [done | by intros (? & ? & _)].
Qed.

(** The four ways a workflow token is looked at. *)
Ltac workflow_cases headers actor :=
  let value := fresh "value" in let p := fresh "p" in
  let Ha := fresh "Ha" in let Hr := fresh "Hr" in
  destruct (header_authorization headers) as [[value |] |]; simpl;
    [| split; [by left | by intros (? & ? & ? & _)] ..];
  destruct (authenticate_authorization _ _ _ value) as [p |] eqn:Ha; simpl;
    [| split; [by left |]; intros (? & ? & [= <-] & ? & _); congruence];
  destruct (bool_decide (process_role p = Workflow)) eqn:Hr; simpl; bool_prop;
    [| split; [by right |]; intros (? & ? & [= <-] & ? & ? & _); congruence];
  destruct (ActorScope_contains (scope p) actor) eqn:?; simpl; [by eauto 6 |];
  split; [by right |]; intros (? & ? & [= <-] & ? & ? & ?); congruence.

Lemma authorized_workflow_cases decode_at elapsed headers actor :
  match authorized_workflow service decode_at elapsed headers actor with
  | Ok p => workflow_credential (auth service) decode_at elapsed headers actor
  | Err e => refused (api_status e) /\
             ~ workflow_credential (auth service) decode_at elapsed headers actor
  end.
Proof.
  unfold authorized_workflow, workflow_credential, authorization, refused.
  workflow_cases headers actor.
Qed.

Lemma authorize_workflow_cases verifier decode_at elapsed headers actor :
  match authorize_workflow verifier decode_at elapsed headers actor with
  | Ok p => workflow_credential verifier decode_at elapsed headers actor
  | Err e => refused (socket_status e) /\
             ~ workflow_credential verifier decode_at elapsed headers actor
  end.
Proof.
  unfold authorize_workflow, workflow_credential, refused.
  workflow_cases headers actor.
Qed.

(** A refused caller's request runs nothing. *)
Lemma register_refused_Err namespace_id headers deployment e (st : PgState) :
  authorized_admin admin headers = Err e ->
  register_deployment service registry admin namespace_id headers deployment st = (st, Err e).
Proof. intros H. unfold register_deployment, lift, mbind, M_bind. by rewrite H. Qed.

Lemma token_refused_Err elapsed uuid1 uuid2 namespace_id headers token_request e (st : PgState) :
  authorized_admin admin headers = Err e ->
  issue_workflow_token registry admin elapsed uuid1 uuid2 namespace_id headers token_request st
  = (st, Err e).
Proof. intros H. unfold issue_workflow_token, lift, mbind, M_bind. by rewrite H. Qed.

Lemma target_refused_Err fuel decode_at elapsed actor headers e (svc : ServiceState) :
  ActorKey_validate actor = Ok tt ->
  authorized_workflow service decode_at elapsed headers actor = Err e ->
  resolve_actor_target service fuel decode_at elapsed actor headers svc = (svc, Err e).
Proof. intros H1 H2. unfold resolve_actor_target, lift, mbind, M_bind. by rewrite H1, H2. Qed.

Lemma socket_refused_Err verifier decode_at elapsed actor headers effects s (g : GatewayState) :
  ActorKey_validate actor = Ok tt ->
  authorize_workflow verifier decode_at elapsed headers actor = Err s ->
  connect_workflow verifier decode_at elapsed actor headers = Err s /\
  apply_effects verifier decode_at elapsed actor headers effects g = (g, Err s).
Proof.
  intros H1 H2. unfold connect_workflow, apply_effects, lift, mbind, M_bind, result_bind.
  by rewrite H1, H2.
Qed.

(** An invalid actor key is refused before its credential is looked at. *)
Lemma invalid_actor_Err fuel verifier decode_at elapsed actor headers effects e (svc : ServiceState)
    (g : GatewayState) :
  ActorKey_validate actor = Err e ->
  resolve_actor_target service fuel decode_at elapsed actor headers svc
  = (svc, Err (bad_request (to_string e))) /\
  connect_workflow verifier decode_at elapsed actor headers = Err socket_bad_request /\
  apply_effects verifier decode_at elapsed actor headers effects g = (g, Err socket_bad_request).
Proof.
  intros H. unfold resolve_actor_target, connect_workflow, apply_effects, lift, mbind, M_bind, result_bind.
  by rewrite H.
Qed.

(** Without the credential an endpoint asks for - the admin token, or a workflow token of the
    actor's namespace - nothing changes and the answer is 401 or 403; effects are applied exactly
    when the caller has it and every effect is valid. *)
Lemma endpoints_require_credentials fuel decode_at elapsed uuid1 uuid2 namespace_id actor headers
    deployment token_request effects (st : PgState) (svc : ServiceState) (g : GatewayState) :
  (~ admin_credential headers -> exists e, api_status e = UNAUTHORIZED /\
     register_deployment service registry admin namespace_id headers deployment st = (st, Err e) /\
     issue_workflow_token registry admin elapsed uuid1 uuid2 namespace_id headers token_request st
     = (st, Err e)) /\
  (ActorKey_validate actor = Ok tt ->
   ~ workflow_credential (auth service) decode_at elapsed headers actor -> exists e s,
     refused (api_status e) /\ refused (socket_status s) /\
     resolve_actor_target service fuel decode_at elapsed actor headers svc = (svc, Err e) /\
     connect_workflow (auth service) decode_at elapsed actor headers = Err s /\
     apply_effects (auth service) decode_at elapsed actor headers effects g = (g, Err s)) /\
  (ActorKey_validate actor = Ok tt ->
   workflow_credential (auth service) decode_at elapsed headers actor ->
     apply_effects (auth service) decode_at elapsed actor headers effects g
     = if is_ok (validate_socket_effects effects) then (apply actor effects g, Ok NO_CONTENT)
       else (g, Err socket_bad_request)).
Proof.
  split_and!.
  - intros Hno. destruct (authorized_admin admin headers) as [[] | e] eqn:Ha.
    { by apply authorized_admin_iff in Ha. }
    exists e. split; [by eapply authorized_admin_refused |].
    split; [by apply register_refused_Err | by apply token_refused_Err].
  - intros Hactor Hno.
    pose proof (authorized_workflow_cases decode_at elapsed headers actor) as H1.
    pose proof (authorize_workflow_cases (auth service) decode_at elapsed headers actor) as H2.
    destruct (authorized_workflow _ _ _ _ _) as [p | e] eqn:E1; [done |].
    destruct (authorize_workflow _ _ _ _ _) as [p | s] eqn:E2; [done |].
    exists e, s. destruct H1 as [? _], H2 as [? _].
    split_and!; try done; [by apply target_refused_Err | by eapply socket_refused_Err ..].
  - intros Hactor Hyes.
    pose proof (authorize_workflow_cases (auth service) decode_at elapsed headers actor) as H2.
    destruct (authorize_workflow _ _ _ _ _) as [p | s] eqn:E2; [| by destruct H2].
    unfold apply_effects, lift, mbind, M_bind. rewrite Hactor, E2. simpl.
    by destruct (validate_socket_effects effects) as [[] |].
Qed.
End Guards.
