(* ===== verification/ResolutionTelemetry.v ===== *)
(** * The latency event of a target resolution

    [TargetResolutionTimings] of [src/control_plane/service.rs] and the event
    [actor_target_resolution] of [src/control_plane/public_api.rs]: the resolution
    of [ControlPlane] and [PublicApi] with its clock readings.  A call without
    timings ([None]) is the plain program. *)
From S2P Require Import Prelude Net Json Identity SocketProtocol StorageUrls Sandbox Tokens.
From S2P Require Import Database Leases Admin Placement ControlPlane ControlPlaneSafety PublicApi Timeline.
Local Open Scope string_scope.
Local Open Scope Z_scope.

(** The optional fields of [TargetResolutionTimings]. *)
Inductive ResolutionMilestone :=
| request_validated_at_ms | workflow_authenticated_at_ms | deployment_loaded_at_ms
| placement_loaded_at_ms | lease_checked_at_ms | host_ensured_at_ms | placement_claimed_at_ms
| state_url_signed_at_ms | invocation_token_issued_at_ms | route_selected_at_ms.
#[export] Instance ResolutionMilestone_eq_dec : EqDecision ResolutionMilestone.
Proof. solve_decision. Defined.

(** The event's fields; [started_at_ms] is always zero. *)
Record ResolutionLine := {
  rl_request_id : string;
  rl_actor : ActorKey;
  rl_milestones : ResolutionMilestone -> option Z;
  rl_completed_at_ms : Z;
  rl_outcome : string;
  rl_error_code : option string;
  rl_error : option string;
}.

Section Resolution.
Context {E : Surroundings} `{J : Json} {T : Jwt} `{B : Base64} {Parser : UrlParser} {Signer : UrlSigner}
        {Uuids : UuidParser}.
Context `{I : Instants} (service : ControlPlaneService).

Abbreviation TimedM S := (M ((S * Watch ResolutionLine) * Timings ResolutionMilestone)) (only parsing).

(** ** Routing *)

Definition lease_checked (current : option ObjectPlacement) (spec : HostLaunchSpec) : bool :=
  match current with
  | Some placement =>
      host_matches_revision (owner placement) (spec_namespace_id spec) (spec_code_revision spec)
  | None => false
  end.

Fixpoint timed_route_loop (fuel : nat) (actor : ActorKey) (storage_region : string)
    (provisioner : option HostProvisioner) (spec : HostLaunchSpec)
    : TimedM PgState Error (option RoutedActor) :=
  match fuel with
  | O => mret None
  | S fuel =>
      current ← untimed (PostgresObjectPlacementStore.get weather (storage_key actor));
      mark placement_loaded_at_ms;;
      active ← untimed (active_target current spec);
      (if lease_checked current spec then mark lease_checked_at_ms else mret ());;
      match active with
      | Some target => mret (Some target)
      | None =>
          region ← lift (target_region service current storage_region);
          provisioner' ← lift (some_or "sandbox provider is not configured" provisioner);
          lease ← untimed (ensure_host provisioner' spec region);
          mark host_ensured_at_ms;;
          claim ← untimed (PostgresObjectPlacementStore.claim weather (storage_key actor) current
                             (hl_id lease) region);
          if bool_decide (owner (claimed_placement claim) = hl_id lease)
          then
            mark placement_claimed_at_ms;;
            mret (Some {| ra_placement := claimed_placement claim; ra_lease := lease;
                          ra_spec := spec |})
          else timed_route_loop fuel actor storage_region provisioner spec
      end
  end.

Definition timed_route_actor (fuel : nat) (actor : ActorKey) (storage_region : string)
    : TimedM PgState Error (option RoutedActor) :=
  routing ← lift (some_or "actor routing is not configured" (routing service));
  spec ← untimed (launch_spec (AdminRegistry := registry routing) (namespace_id actor));
  spec ← lift (some_or "project has no registered actor code" spec);
  mark deployment_loaded_at_ms;;
  timed_route_loop fuel actor storage_region (provisioner routing) spec.

(** [on_pg] for a timed program. *)
Definition timed_on_pg {A} (c : TimedM PgState Error A) : TimedM ServiceState Error A :=
  timed_zoom pg (fun pg' st => {| pg := pg'; public_routes := public_routes st;
                                  socket_targets := socket_targets st |}) c.

(** ** The target *)

(** [resolve_workflow_route] with [Some(timings)]. *)
Definition timed_resolve_workflow_route (fuel : nat) (principal : ActorPrincipal) (actor : ActorKey)
    (route_kind : WorkflowRoute) : TimedM ServiceState Error (option WorkflowActorTarget) :=
  lift (ActorKey_validate actor);;
  lift (ensure (workflow_may_resolve principal actor) "workflow token cannot resolve this actor");;
  routed ← timed_on_pg (timed_route_actor fuel actor (Tokens.region principal));
  match routed with
  | None => mret None
  | Some target =>
      state_read_url ← lift (match Placement.state_object (ra_placement target) with
                             | Some object_name =>
                                 read_url (storage_urls service)
                                   (home_region (ra_placement target)) object_name
                             | None => Ok ""
                             end);
      mark state_url_signed_at_ms;;
      issuer ← lift (some_or "JWT issuer is not configured" (host_token_issuer service));
      elapsed ← untimed (on_pg (ControlPlane.at_time (fun n => clock n 0)));
      issued ← lift (issue_invocation_target issuer elapsed actor (hl_id (ra_lease target))
                       (hl_session_id (ra_lease target)) (spec_code_revision (ra_spec target))
                       (home_region (ra_placement target))
                       (Placement.owner_epoch (ra_placement target))
                       (Placement.state_version (ra_placement target)) state_read_url
                       (expires_at principal));
      mark invocation_token_issued_at_ms;;
      route ← untimed (match route_kind with
               | InvocationRoute =>
                   if private_routing principal
                      && bool_decide (Tokens.region principal = home_region (ra_placement target))
                   then mret (hl_route (ra_lease target))
                   else public_route_of service target
               | ControlPlaneRoute => public_route_of service target
               end);
      mark route_selected_at_ms;;
      mret (Some {| target_route := route; target_token := token issued;
                    target_owner_epoch := Placement.owner_epoch (ra_placement target);
                    target_state_version := Placement.state_version (ra_placement target);
                    target_state_read_url := state_read_url;
                    target_expires_at_ms := token_expires_at_ms issued |})
  end.

Definition resolve_workflow_target_timed (fuel : nat) (principal : ActorPrincipal)
    (actor : ActorKey) : TimedM ServiceState Error (option WorkflowActorTarget) :=
  timed_resolve_workflow_route fuel principal actor InvocationRoute.

(** ** The endpoint *)

(** The line of a resolution; none while it is still routing. *)
Definition log_resolution (request_id : string) (actor : ActorKey) (_ _ : ServiceState)
    (timings : Timings ResolutionMilestone) (now : Z)
    (result : Result ApiError (option WorkflowActorTarget)) : list ResolutionLine :=
  let line outcome error_code error :=
    {| rl_request_id := request_id; rl_actor := actor; rl_milestones := reached_at timings;
       rl_completed_at_ms := now; rl_outcome := outcome; rl_error_code := error_code;
       rl_error := error |} in
  match result with
  | Ok None => []
  | Ok (Some _) => [line "resolved" None None]
  | Err error => [line "failed" (Some (api_code error)) (Some (api_message error))]
  end.

(** [x_request_id]: the header, when it is visible ASCII. *)
Definition timed_resolve_actor_target (fuel : nat) (decode_at : Z) (elapsed : option Z)
    (x_request_id : option string) (actor : ActorKey) (headers : Headers)
    : M (ServiceState * Watch ResolutionLine) ApiError (option WorkflowActorTarget) :=
  timed (log_resolution (default "" x_request_id) actor) (
    lift (map_err (fun e => bad_request (to_string e)) (ActorKey_validate actor));;
    mark request_validated_at_ms;;
    principal ← lift (authorized_workflow service decode_at elapsed headers actor);
    mark workflow_authenticated_at_ms;;
    M_map_err (fun e => unavailable ("actor host is unavailable: " +:+ alternate e))
      (resolve_workflow_target_timed fuel principal actor)).

(** ** The timings change nothing *)

Lemma route_loop_erases fuel actor region prov spec :
  erases plain (timed_route_loop fuel actor region prov spec)
    (route_loop service fuel actor region prov spec).
Proof. induction fuel as [| fuel IH]; simpl; erasing. Qed.

Lemma route_actor_erases fuel actor region :
  erases plain (timed_route_actor fuel actor region) (route_actor service fuel actor region).
Proof. unfold timed_route_actor, route_actor. erasing. apply route_loop_erases. Qed.

Lemma on_pg_erases {A} (c : TimedM PgState Error A) d :
  erases plain c d -> erases plain (timed_on_pg c) (on_pg d).
Proof. intros Hc. apply (erases_zoom _ _ _ _ Hc). Qed.

Lemma resolve_workflow_route_erases fuel principal actor kind :
  erases plain (timed_resolve_workflow_route fuel principal actor kind)
    (resolve_workflow_route service fuel principal actor kind).
Proof.
  unfold timed_resolve_workflow_route, resolve_workflow_route. erasing.
  apply on_pg_erases, route_actor_erases.
Qed.

(** Measuring a resolution is transparent, too. *)
Lemma resolution_timings_change_nothing fuel decode_at elapsed x_request_id actor headers
    (st : ServiceState) (w : Watch ResolutionLine) :
  resolve_actor_target service fuel decode_at elapsed actor headers st
  = ((timed_resolve_actor_target fuel decode_at elapsed x_request_id actor headers (st, w)).1.1,
     (timed_resolve_actor_target fuel decode_at elapsed x_request_id actor headers (st, w)).2).
Proof.
  apply (erases_timed (log_resolution (default "" x_request_id) actor) _
           (resolve_actor_target service fuel decode_at elapsed actor headers)) with (s := (st, w)).
  unfold resolve_actor_target. erasing. intros s. unfold M_map_err.
  rewrite (resolve_workflow_route_erases fuel _ actor InvocationRoute s).
  unfold resolve_workflow_target_timed. by destruct (timed_resolve_workflow_route _ _ _ _ s).
Qed.

(** ** Paths

    A resolution whose first round of routing settles takes one of three paths: the
    actor's host is alive; there is no host of this revision; or there was one and
    its lease has lapsed. *)

Definition resolution_rank (f : ResolutionMilestone) : nat :=
  match f with
  | request_validated_at_ms => 0 | workflow_authenticated_at_ms => 1
  | deployment_loaded_at_ms => 2 | placement_loaded_at_ms => 3 | lease_checked_at_ms => 4
  | host_ensured_at_ms => 5 | placement_claimed_at_ms => 6 | state_url_signed_at_ms => 7
  | invocation_token_issued_at_ms => 8 | route_selected_at_ms => 9
  end.

Definition path_through (routing : list ResolutionMilestone) : list ResolutionMilestone :=
  [request_validated_at_ms; workflow_authenticated_at_ms; deployment_loaded_at_ms;
   placement_loaded_at_ms] ++ routing ++
  [state_url_signed_at_ms; invocation_token_issued_at_ms; route_selected_at_ms].
Definition warm_path := path_through [lease_checked_at_ms].
Definition cold_path := path_through [host_ensured_at_ms; placement_claimed_at_ms].
Definition lapsed_path :=
  path_through [lease_checked_at_ms; host_ensured_at_ms; placement_claimed_at_ms].
Definition paths : list (list ResolutionMilestone) := [warm_path; cold_path; lapsed_path].

(** The milestones reached are those of [l]. *)
Definition exactly (l : list ResolutionMilestone) (at_ : ResolutionMilestone -> option Z) : Prop :=
  forall f, reached at_ f = bool_decide (f ∈ l).

(** Stopped somewhere on a path. *)
Definition stopped (at_ : ResolutionMilestone -> option Z) : Prop :=
  exists p l, p ∈ paths /\ l `prefix_of` p /\ exactly l at_.

Abbreviation TState S := ((S * Watch ResolutionLine) * Timings ResolutionMilestone)%type (only parsing).

Definition on_path {S} (l : list ResolutionMilestone) (s : TState S) : Prop :=
  exactly l (reached_at s.2).
Definition off_path {S} (s : TState S) : Prop := stopped (reached_at s.2).

Definition viable (l : list ResolutionMilestone) : bool :=
  existsb (fun p => bool_decide (l `prefix_of` p)) paths.

Lemma viable_stopped {S} l (s : TState S) : viable l = true -> on_path l s -> off_path s.
Proof.
  intros (p & Hp & Hl)%existsb_exists Hs. apply bool_decide_eq_true in Hl.
  exists p, l. split_and!; try done. by apply list_elem_of_In.
Qed.

Lemma path_untimed {S A} n l (c : M S Error A) :
  viable l = true ->
  leads resolution_rank (on_path l) n (untimed c) (fun _ => on_path l) n off_path.
Proof.
  intros Hl. apply leads_untimed; [done |]. intros s w t s' r _ Hs _.
  destruct r; [done | by eapply viable_stopped].
Qed.

Lemma path_lift {S X A} n l (r : Result X A) :
  viable l = true ->
  leads resolution_rank (on_path l) n (lift r : M (TState S) X A) (fun _ => on_path l) n off_path.
Proof.
  intros Hl. apply leads_lift; [done |]. intros s Hs. destruct r; [done | by eapply viable_stopped].
Qed.

Lemma path_mark {S X} n l f :
  (n <= resolution_rank f)%nat ->
  leads resolution_rank (on_path l) n (mark f : M (TState S) X ()) (fun _ => on_path (l ++ [f]))
    (1 + resolution_rank f) off_path.
Proof.
  intros Hn.
  eapply leads_weaken;
    [by apply (leads_mark _ (on_path (l ++ [f])) n f _ off_path) | done | | done | done].
  intros s Hs x g. cbn [fst snd]. rewrite reached_reach, (Hs g).
  rewrite <- bool_decide_or. apply bool_decide_ext.
  rewrite elem_of_app, list_elem_of_singleton. tauto.
Qed.

(** Only a host of the current revision is active. *)
Lemma active_target_checked current spec st st' t :
  active_target current spec st = (st', Ok (Some t)) -> lease_checked current spec = true.
Proof.
  unfold active_target, lease_checked. destruct current as [placement |]; [| done].
  by destruct (host_matches_revision _ _ _).
Qed.

Definition routed_path (routing : list ResolutionMilestone) : list ResolutionMilestone :=
  [request_validated_at_ms; workflow_authenticated_at_ms; deployment_loaded_at_ms;
   placement_loaded_at_ms] ++ routing.
Definition routings : list (list ResolutionMilestone) :=
  [[lease_checked_at_ms]; [host_ensured_at_ms; placement_claimed_at_ms];
   [lease_checked_at_ms; host_ensured_at_ms; placement_claimed_at_ms]].

(** Routed in the first round, or not. *)
Definition settled {S A} (r : option A) (s : TState S) : Prop :=
  match r with
  | Some _ => exists routing, routing ∈ routings /\ on_path (routed_path routing) s
  | None => True
  end.

Ltac on_the_way :=
  match goal with
  | |- leads _ _ _ (untimed _) _ _ _ => apply path_untimed; vm_compute; reflexivity
  | |- leads _ _ _ (lift _) _ _ _ => apply path_lift; vm_compute; reflexivity
  | |- leads _ _ _ (mark _) _ _ _ => apply path_mark; simpl; lia
  end.

(** The second half of a round, with the lease checked before or not. *)
Ltac provisions :=
  eapply leads_bind; [by on_the_way |]; intros region';
  eapply leads_bind; [by on_the_way |]; intros provisioner';
  eapply leads_bind; [by on_the_way |]; intros lease;
  eapply leads_bind; [by on_the_way |]; intros [];
  eapply leads_bind; [by on_the_way |]; intros claim;
  case_match;
  [ eapply leads_bind; [by on_the_way |]; intros [];
    intros s s' r Hs Hpath Hret; unfold mret, M_ret in Hret; simplify_eq; split; [exact Hs |];
    eexists; (split; [| exact Hpath]); by repeat constructor
  | intros s s' r Hs Hpath Hret; unfold mret, M_ret in Hret; simplify_eq; split;
    [by eapply on_time_weaken; [| exact Hs]; simpl; lia | done] ].

Lemma route_round_path actor region prov spec :
  leads resolution_rank
    (on_path [request_validated_at_ms; workflow_authenticated_at_ms; deployment_loaded_at_ms]) 3
    (timed_route_loop 1 actor region prov spec) settled 7 off_path.
Proof.
  simpl. eapply leads_bind; [by on_the_way |]. intros current.
  eapply leads_bind; [by on_the_way |]. intros [].
  eapply (leads_bind _ _ _ _ (fun active s => on_path (routed_path []) s /\
    (is_Some active -> lease_checked current spec = true)) 4).
  { apply leads_untimed; [by simpl |]. intros st w t st' r _ Hs H.
    destruct r as [active | e]; [| eapply viable_stopped; [| exact Hs]; by vm_compute].
    split; [done |]. intros [x ->]. by apply active_target_checked in H. }
  intros active. destruct (lease_checked current spec).
  - eapply (leads_bind _ _ _ _ (fun _ => on_path (routed_path [lease_checked_at_ms])) 5).
    { eapply leads_weaken; [by apply (path_mark 4) | done | by intros s [? _] | done | done]. }
    intros []. destruct active as [target |]; [| provisions].
    intros s s' r Hs Hpath H. unfold mret, M_ret in H. simplify_eq.
    split; [eapply on_time_weaken; [| exact Hs]; lia |]. eexists. split; [| exact Hpath]. by constructor.
  - eapply (leads_bind _ _ _ _ (fun _ s => on_path (routed_path []) s /\ active = None) 4).
    { intros s s' r Hs [Hpath Hnone] H. unfold mret, M_ret in H. simplify_eq. split_and!; [done.. |].
      destruct active; [| done]. by pose proof (Hnone ltac:(by eexists)). }
    intros []. destruct active as [target |].
    + intros s s' r Hs [_ Hno]. done.
    + apply (leads_weaken _ (on_path (routed_path [])) _ 4 4 _ settled settled 7 off_path off_path);
        [| done | by intros s [? _] | done | done]. provisions.
Qed.

Lemma route_actor_path actor region :
  leads resolution_rank (on_path [request_validated_at_ms; workflow_authenticated_at_ms]) 2
    (timed_route_actor 1 actor region) settled 7 off_path.
Proof.
  unfold timed_route_actor.
  eapply leads_bind; [by on_the_way |]. intros routing.
  eapply leads_bind; [by on_the_way |]. intros spec.
  eapply leads_bind; [by on_the_way |]. intros spec'.
  eapply leads_bind; [by on_the_way |]. intros []. apply route_round_path.
Qed.

(** The whole of a path was taken. *)
Definition resolved {S A} (r : option A) (s : TState S) : Prop :=
  match r with Some _ => exists p, p ∈ paths /\ on_path p s | None => True end.

Lemma resolve_workflow_route_path principal actor kind :
  leads resolution_rank (on_path [request_validated_at_ms; workflow_authenticated_at_ms]) 2
    (timed_resolve_workflow_route 1 principal actor kind) resolved 10 off_path.
Proof.
  unfold timed_resolve_workflow_route.
  eapply leads_bind; [by on_the_way |]. intros [].
  eapply leads_bind; [by on_the_way |]. intros [].
  eapply leads_bind.
  { apply (leads_zoom resolution_rank _ _
      (fun t => exactly [request_validated_at_ms; workflow_authenticated_at_ms] (reached_at t)) 2 _
      (fun r t => match r with
                  | Some _ => exists routing, routing ∈ routings /\
                                exactly (routed_path routing) (reached_at t)
                  | None => True end) 7
      (fun t => stopped (reached_at t))).
    apply route_actor_path. }
  intros [target |]; [| apply leads_ret; [simpl; lia | done]].
  apply (leads_exists _ (fun routing => routing ∈ routings) (fun routing => on_path (routed_path routing))).
  intros routing Hrouting.
  set (signed := (routed_path routing ++ [state_url_signed_at_ms])%list).
  set (issued := (signed ++ [invocation_token_issued_at_ms])%list).
  assert (viable (routed_path routing) = true /\ viable signed = true /\ viable issued = true /\
    (issued ++ [route_selected_at_ms])%list ∈ paths) as (H1 & H2 & H3 & H4).
  { unfold routings in Hrouting. rewrite !elem_of_cons, elem_of_nil in Hrouting.
    destruct Hrouting as [-> | [-> | [-> | []]]];
      (split; [vm_compute; reflexivity |]); (split; [vm_compute; reflexivity |]);
      (split; [vm_compute; reflexivity |]); by repeat constructor. }
  eapply leads_bind; [by apply path_lift |]. intros u.
  eapply leads_bind; [by apply path_mark; simpl; lia |]. intros [].
  eapply leads_bind; [by apply path_lift |]. intros issuer.
  eapply leads_bind; [by apply path_untimed |]. intros elapsed.
  eapply leads_bind; [by apply path_lift |]. intros target_token.
  eapply leads_bind; [by apply path_mark; simpl; lia |]. intros [].
  eapply leads_bind; [by apply path_untimed |]. intros route.
  eapply leads_bind; [by apply path_mark; simpl; lia |]. intros [].
  apply leads_ret; [simpl; lia |]. intros s Hs. by eexists.
Qed.

Lemma resolution_logs_once decode_at elapsed actor headers fuel :
  respects same_log
    (lift (map_err (fun e => bad_request (to_string e)) (ActorKey_validate actor));;
     mark request_validated_at_ms;;
     principal ← lift (authorized_workflow service decode_at elapsed headers actor);
     mark workflow_authenticated_at_ms;;
     M_map_err (fun e => unavailable ("actor host is unavailable: " +:+ alternate e))
       (resolve_workflow_target_timed fuel principal actor)).
Proof.
  assert (Hloop : forall prov spec region, respects same_log (timed_route_loop fuel actor region prov spec)).
  { intros prov spec region. induction fuel as [| fuel' IH]; simpl; respecting;
      first [apply untimed_same_log | apply mark_same_log | done]. }
  respecting; try apply mark_same_log.
  match goal with |- respects _ (M_map_err ?f (resolve_workflow_target_timed _ ?p _)) =>
    enough (Hr : respects same_log (resolve_workflow_target_timed fuel p actor)) end.
  { intros t t' r Hm. unfold M_map_err in Hm. destruct (resolve_workflow_target_timed _ _ _ t) eqn:E1.
    simplify_eq. by eapply Hr. }
  unfold resolve_workflow_target_timed, timed_resolve_workflow_route.
  respecting; try first [apply untimed_same_log | apply mark_same_log].
  apply zoom_same_log. unfold timed_route_actor.
  respecting; first [apply untimed_same_log | apply mark_same_log | apply Hloop].
Qed.

(** What the line of a resolution shows when its first round of routing settles. *)
Lemma resolution_tells_its_path decode_at elapsed x_request_id actor headers
    (st st' : ServiceState) (w w' : Watch ResolutionLine) r :
  timed_resolve_actor_target 1 decode_at elapsed x_request_id actor headers (st, w)
    = ((st', w'), r) ->
  exists lines, events w' = (events w ++ lines)%list /\
    match r with
    | Ok None => lines = []
    | _ => exists line, lines = [line] /\ rl_actor line = actor /\
        rl_request_id line = default "" x_request_id /\ 0 <= rl_completed_at_ms line /\
        ordered resolution_rank (rl_milestones line) (rl_completed_at_ms line) /\
        match r with
        | Err error => rl_outcome line = "failed" /\ rl_error_code line = Some (api_code error) /\
            stopped (rl_milestones line)
        | Ok _ => rl_outcome line = "resolved" /\ exists p, p ∈ paths /\ exactly p (rl_milestones line)
        end
    end.
Proof.
  intros H.
  eapply (timed_leads resolution_rank _ (on_path [])) in H
    as (t & w1 & limit & -> & Hrun & Hlimit & Hord & Hr);
    [| | by intros f; destruct f].
  2: { eapply leads_bind; [by on_the_way |]. intros []. eapply leads_bind; [by on_the_way |]. intros [].
       eapply leads_bind; [by on_the_way |]. intros principal. eapply leads_bind; [by on_the_way |]. intros [].
       intros s s' r' Hs HP Hc. unfold M_map_err, resolve_workflow_target_timed in Hc.
       destruct (timed_resolve_workflow_route _ _ _ _ s) as [s1 r1] eqn:E1.
       pose proof (resolve_workflow_route_path _ _ _ s s1 r1 Hs HP E1) as Hq.
       simplify_eq. destruct r1; exact Hq. }
  apply resolution_logs_once in Hrun. unfold same_log in Hrun. simpl in Hrun.
  exists (log_resolution (default "" x_request_id) actor st st' t limit r).
  split; [simpl; by rewrite Hrun |].
  destruct r as [[target |] | error]; [| done |]; (eexists; split; [reflexivity |]; by split_and!).
Qed.
End Resolution.

(** ** Timelines

    The deployment of [ControlPlaneSafety], with the clock advancing by a microsecond
    between readings. *)
#[local] Instance ticking : Instants.
Proof. refine {| instant n := Z.of_nat n * 1000 |}. intros n n' Hn. lia. Defined.

#[local] Instance storage_signer : UrlSigner := {|
  sign_url bucket object method _ _ _ :=
    Ok ("https://storage/" +:+ method +:+ "/" +:+ bucket +:+ "/" +:+ object);
|}.

(** A workflow of the actor's region, and nobody. *)
Definition workflow_headers : Headers :=
  {| header_authorization :=
       match issue_workflow sample_issuer (Some 1000000) sample_session sample_session "acme" "run" "eu"
               5000000 true with
       | Ok t => Some (Some ("Bearer " +:+ token t)) | Err _ => None end;
     header_sec_websocket_protocol := None |}.
Definition no_headers : Headers :=
  {| header_authorization := None; header_sec_websocket_protocol := None |}.

Definition resolution_milestones (line : ResolutionLine) : list (option Z) :=
  rl_milestones line <$>
    [request_validated_at_ms; workflow_authenticated_at_ms; deployment_loaded_at_ms;
     placement_loaded_at_ms; lease_checked_at_ms; host_ensured_at_ms; placement_claimed_at_ms;
     state_url_signed_at_ms; invocation_token_issued_at_ms; route_selected_at_ms].
Definition resolution_watch : Watch ResolutionLine := {| readings := 0; events := [] |}.
Definition service_start : ServiceState :=
  {| pg := deployment_start; public_routes := ∅; socket_targets := ∅ |}.

Section Calm.
#[local] Existing Instance calm_surroundings.

Definition sample_resolution (headers : Headers) :=
  timed_resolve_actor_target calm_service 1 1000 (Some 1000000) (Some "req-7") sample_actor
    headers (service_start, resolution_watch).

(** The actor's host is alive; a request without a credential. *)
Example sample_resolutions :
  (fun headers => resolution_milestones <$> events (sample_resolution headers).1.2)
    <$> [workflow_headers; no_headers]
  = [ [[Some 1000; Some 2000; Some 3000; Some 4000; Some 5000; None; None; Some 6000; Some 7000; Some 8000]];
      [[Some 1000; None; None; None; None; None; None; None; None; None]] ].
Proof. vm_compute. reflexivity. Qed.

Lemma resolution_tells_its_path_witness :
  exists target line, (sample_resolution workflow_headers).2 = Ok (Some target) /\
    events (sample_resolution workflow_headers).1.2 = [line] /\ rl_outcome line = "resolved" /\
    exists p, p ∈ paths /\ exactly p (rl_milestones line).
Proof.
  destruct (sample_resolution workflow_headers) as [[st' w'] [[target |] | e]] eqn:H;
    try (vm_compute in H; discriminate).
  destruct (resolution_tells_its_path calm_service 1000 (Some 1000000) (Some "req-7") sample_actor
    workflow_headers service_start st' resolution_watch w' (Ok (Some target)) H)
    as (lines & Hlines & line & -> & _ & _ & _ & _ & Hout & Hp).
  exists target, line. split_and!; try done.
Defined.
End Calm.

(** *** A race

    The actor has no host.  While this control plane prepares one, another one
    claims the actor for a host that is alive: the claim is lost, and the second
    round finds that host. *)
Definition abandoned_database : Database :=
  set_placements <[ "object.v1.acme.Counter.1" :=
    {| row_owner_host_id := "host.v1.acme.r0.x"; row_owner_epoch := 3; row_home_region := "eu";
       row_state_version := 6; row_state_object := None; row_last_request_id := None |} ]>
    deployment_database.
Definition raced_database (db : Database) : Database :=
  set_placements <[ "object.v1.acme.Counter.1" :=
    {| row_owner_host_id := sample_host; row_owner_epoch := 4; row_home_region := "eu";
       row_state_version := 6; row_state_object := None; row_last_request_id := None |} ]> db.

Definition raced_surroundings (lost : nat) : Surroundings := {|
  weather n := {| others := if decide (n = lost) then raced_database else fun db => db;
                  now := 1000000; later := 1000000; fault := NoFault |};
  clock _ _ := Some 1000000%Z;
  uuid _ _ := sample_session;
  nonce _ := "0123456789abcdef0123456789abcdef";
  fresh _ := true;
|}.

#[local] Instance host_b_provider : SandboxProvider := {|
  provider_ensure_host _ request := Ok {| handle_host_id := "host-b"; handle_route := "https://b/";
    handle_canonical_region := er_canonical_region request; provisioning := None |};
  provider_public_host_route _ _ := Err ["no route"];
  provider_warm_image _ _ := Err ["no image"];
  provider_terminate_hosts _ _ := Err ["no hosts"];
|}.

Definition raced_service (E : Surroundings) : ControlPlaneService :=
  {| storage_urls := {| buckets := {[ "eu" := "objects" ]} |};
     auth := sample_verifier "control" ControlPlane;
     host_token_issuer := Some sample_issuer;
     routing := Some {| registry := PostgresAdminRegistry weather;
                        provisioner := Some (sandbox_provisioner contended_provisioner) |} |}.

Definition raced_resolution (lost : nat) :=
  timed_resolve_actor_target (E := raced_surroundings lost) (raced_service (raced_surroundings lost))
    2 1000 (Some 1000000) (Some "req-8") sample_actor workflow_headers
    ({| pg := {| database := abandoned_database; Database.statements := 0 |};
        public_routes := ∅; socket_targets := ∅ |}, resolution_watch).

(** The milestones of the second round overwrite those of the first: the host that was
    ensured in vain shows before the placement that was found. *)
Example lost_claim_rewinds_the_timeline :
  resolution_milestones <$> events (raced_resolution 3).1.2 =
    [[Some 1000; Some 2000; Some 3000; Some 6000; Some 7000; Some 5000; None; Some 8000; Some 9000; Some 10000]] /\
  resolution_milestones <$> events (raced_resolution 4).1.2 =
    [[Some 1000; Some 2000; Some 3000; Some 4000; None; Some 5000; Some 6000; Some 7000; Some 8000; Some 9000]].
Proof. vm_compute. split; reflexivity. Qed.
