(* ===== verification/HttpRouter.v ===== *)
(** * The public HTTP surface

    The routers of [src/control_plane/public_api.rs] and
    [src/control_plane/websocket.rs] merged into one table, and a request from
    its method and path to its answer: the route, the extractors in the order of
    the handler's parameters, the handler ([PublicApi]), and the response.
    Matching a path, decoding a JSON body within a limit and checking the
    headers of a WebSocket handshake are axum's; they are the parameters of
    [Axum], and [AxumLaws] is what its documentation says of their rejections. *)
From S2P Require Import Prelude Net Json Identity SocketProtocol StorageUrls Sandbox Tokens.
From S2P Require Import Database Leases Admin Placement ControlPlane ControlPlaneSafety.
From S2P Require Import SocketGateway PublicApi.
Local Open Scope string_scope.

(** ** The table of routes *)

Inductive Method := GET | HEAD | PUT | POST | OtherMethod (name : string).
#[export] Instance Method_eq_dec : EqDecision Method.
Proof. solve_decision. Defined.

Inductive Endpoint :=
| Jwks | RegisterDeployment | IssueWorkflowToken | ResolveActorTarget
| ConnectWorkflow | ConnectExternal | ApplyEffects.
#[export] Instance Endpoint_eq_dec : EqDecision Endpoint.
Proof. solve_decision. Defined.

(** A handler at a path, and the limit of the [DefaultBodyLimit] layer above it. *)
Record Route := {
  route_path : string;
  route_method : Method;
  route_endpoint : Endpoint;
  route_body_limit : Z;
}.

Definition MAX_CONTROL_PLANE_MESSAGE_BYTES : Z := 16 * 1024 * 1024.
Definition MAX_SOCKET_EFFECTS_REQUEST_BYTES : Z := 32 * 1024 * 1024.

(** [.layer(DefaultBodyLimit::max(limit))]: the routes added so far. *)
Definition with_body_limit (limit : Z) (routes : list (string * Method * Endpoint)) : list Route :=
  (fun '(path, method, endpoint) =>
     {| route_path := path; route_method := method; route_endpoint := endpoint;
        route_body_limit := limit |}) <$> routes.

(** [websocket::router] *)
Definition socket_router : list Route :=
  with_body_limit MAX_SOCKET_EFFECTS_REQUEST_BYTES
    [("/v1/namespaces/{namespace_id}/actors/{actor_type}/{actor_id}/websocket", GET, ConnectWorkflow);
     ("/v1/socket/{trigger_id}/{actor_id}", GET, ConnectExternal);
     ("/v1/namespaces/{namespace_id}/actors/{actor_type}/{actor_id}/socket-effects", POST,
      ApplyEffects)].

(** [public_api::router]: the sockets are merged below the layer. *)
Definition router : list Route :=
  (with_body_limit MAX_CONTROL_PLANE_MESSAGE_BYTES
    [("/.well-known/jwks.json", GET, Jwks);
     ("/v1/namespaces/{namespace_id}/deployment", PUT, RegisterDeployment);
     ("/v1/namespaces/{namespace_id}/workflow-tokens", POST, IssueWorkflowToken);
     ("/v1/namespaces/{namespace_id}/actors/{actor_type}/{actor_id}/target", POST,
      ResolveActorTarget)]
   ++ socket_router)%list.

(** [get] also serves HEAD. *)
Definition serves (route : Route) (method : Method) : bool :=
  bool_decide (method = route_method route)
  || (bool_decide (method = HEAD) && bool_decide (route_method route = GET)).

(** ** Requests and responses *)

Record HttpRequest := {
  req_method : Method;
  req_path : string;
  req_headers : Headers;
  req_content_type : option string;
  req_body : bytes;
}.

Section Responses.
Context {J : Json}.

(** The JSON the API writes. *)
#[warnings="-register-all"]
Inductive Document :=
| DBool (b : bool)
| DNumber (n : Z)
| DString (s : string)
| DObject (fields : list (string * Document)).

Inductive ResponseBody :=
| NoBody
| TextBody (text : string)
| JsonBody (document : Document)
| ValueBody (value : Value).

Record Response := { response_status : Z; response_body : ResponseBody }.

Definition OK : Z := 200.
Definition NOT_FOUND : Z := 404.
Definition METHOD_NOT_ALLOWED : Z := 405.
Definition PAYLOAD_TOO_LARGE : Z := 413.

(** [Json(reply).into_response()] *)
Definition json_response (document : Document) : Response :=
  {| response_status := OK; response_body := JsonBody document |}.

(** [ErrorDocument] and [ErrorBody] *)
Definition ErrorDocument (code message : string) : Document :=
  DObject [("error", DObject [("code", DString code); ("message", DString message)])].

(** [ApiError::into_response] *)
Definition ApiError_into_response (e : ApiError) : Response :=
  {| response_status := api_status e;
     response_body := JsonBody (ErrorDocument (api_code e) (api_message e)) |}.

(** [SocketApiError::into_response] *)
Definition SocketApiError_into_response (e : SocketApiError) : Response :=
  {| response_status := socket_status e; response_body := TextBody (socket_message e) |}.

(** The replies, with the names serde gives their fields. *)
Definition DeploymentReply (changed : bool) : Document := DObject [("changed", DBool changed)].
Definition IssueWorkflowTokenReply (issued : IssuedActorToken) : Document :=
  DObject [("token", DString (Tokens.token issued)); ("expiresAtMs", DNumber (token_expires_at_ms issued))].
Definition ActorTargetReply (target : WorkflowActorTarget) : Document :=
  DObject [("route", DString (target_route target)); ("token", DString (target_token target));
           ("ownerEpoch", DNumber (target_owner_epoch target));
           ("stateVersion", DNumber (target_state_version target));
           ("stateReadUrl", DString (target_state_read_url target));
           ("expiresAtMs", DNumber (target_expires_at_ms target))].

(** [upgrade_socket]: the limits of the connection, the subprotocols it may
    select, and the access [run_connection] is started with. *)
Record Upgrade := {
  max_frame_size : Z;
  max_message_size : Z;
  protocols : list string;
  on_upgrade : SocketAccess;
}.

Definition upgrade_socket (protocols : list string) (access : SocketAccess) : Upgrade :=
  {| max_frame_size := MAX_SOCKET_MESSAGE_BYTES; max_message_size := MAX_SOCKET_MESSAGE_BYTES;
     protocols := protocols; on_upgrade := access |}.

Inductive Answer := Respond (response : Response) | SwitchProtocols (upgrade : Upgrade).

(** What axum does.  [match_path pattern path] is the values of the pattern's
    parameters, or the rejection of a value that does not decode; [json_*] are
    the [Json] extractor at the three requests under a body limit. *)
Class Axum := {
  match_path : string -> string -> option (Result Response (list string));
  json_deployment : Z -> HttpRequest -> Result Response RegisterDeploymentRequest;
  json_workflow_token : Z -> HttpRequest -> Result Response IssueWorkflowTokenRequest;
  json_effects : Z -> HttpRequest -> Result Response (list ActorSocketEffect);
  websocket_upgrade : HttpRequest -> Result Response ();
}.

(** Rejections are client or server errors; a body over the limit is one. *)
Class AxumLaws (A : Axum) : Prop := {
  path_rejected pattern path e : match_path pattern path = Some (Err e) -> (400 <= response_status e)%Z;
  deployment_rejected limit r e : json_deployment limit r = Err e -> (400 <= response_status e)%Z;
  workflow_token_rejected limit r e :
    json_workflow_token limit r = Err e -> (400 <= response_status e)%Z;
  effects_rejected limit r e : json_effects limit r = Err e -> (400 <= response_status e)%Z;
  upgrade_rejected r e : websocket_upgrade r = Err e -> (400 <= response_status e)%Z;
  deployment_limited limit r d : json_deployment limit r = Ok d -> (bytes_len (req_body r) <= limit)%Z;
  workflow_token_limited limit r d :
    json_workflow_token limit r = Ok d -> (bytes_len (req_body r) <= limit)%Z;
  effects_limited limit r d : json_effects limit r = Ok d -> (bytes_len (req_body r) <= limit)%Z;
}.
End Responses.

(** ** Serving a request *)

(** The part of a state a call works on. *)
Definition zoom {S P E A} (view : S -> P) (put : P -> S -> S) (c : M P E A) : M S E A := fun st =>
  let '(p, r) := c (view st) in (put p st, r).

Section Server.
Context {E : Surroundings} {T : Jwt} {J : Json} {B : Base64} {Parser : UrlParser}
        {Signer : UrlSigner} {A : Axum}.
Context (service : ControlPlaneService) (registry : AdminRegistry) (admin : AdminService).
Context (socket_authenticator :
           option (SocketAuthorizationRequest -> Result SocketAuthorizationError SocketAuthorization)).
(** [serde_json::from_slice] at the key set, the clock readings and identifiers
    of the request, and the fuel of the routing loop. *)
Context (value_from_slice : bytes -> anyhow Value).
Context (decode_at : Z) (elapsed : option Z) (uuid1 uuid2 : string) (fuel : nat).

(** [PublicApiState] and [SocketServerState]: what their clones share. *)
Record ServerState := { invocations : ServiceState; sockets : GatewayState }.

Definition on_invocations {Er R} (c : M ServiceState Er R) : M ServerState Er R :=
  zoom invocations (fun p st => {| invocations := p; sockets := sockets st |}) c.
Definition on_sockets {Er R} (c : M GatewayState Er R) : M ServerState Er R :=
  zoom sockets (fun p st => {| invocations := invocations st; sockets := p |}) c.
Definition on_tables {Er R} (c : M PgState Er R) : M ServerState Er R :=
  on_invocations (zoom pg (fun p st =>
    {| pg := p; public_routes := public_routes st; socket_targets := socket_targets st |}) c).

(** A handler's result as a response: [None] when the routing's fuel ran out. *)
Definition api {R} (c : M ServerState ApiError R) : M ServerState Response R :=
  M_map_err ApiError_into_response c.
Definition socket_api {R} (c : M ServerState SocketApiError R) : M ServerState Response R :=
  M_map_err SocketApiError_into_response c.

Definition reply (document : Document) : M ServerState Response (option Answer) :=
  mret (Some (Respond (json_response document))).

(** [Path] at a tuple of another size. *)
Definition wrong_parameters : Response :=
  {| response_status := INTERNAL_SERVER_ERROR; response_body := TextBody "wrong number of path arguments" |}.

Definition actor_of (namespace_id actor_type actor_id : string) : ActorKey :=
  {| Identity.namespace_id := namespace_id; Identity.actor_type := actor_type;
     Identity.actor_id := actor_id |}.

Definition run_endpoint (route : Route) (params : list string) (request : HttpRequest)
    : M ServerState Response (option Answer) :=
  let headers := req_headers request in
  let limit := route_body_limit route in
  match route_endpoint route, params with
  | Jwks, _ =>
      value ← api (lift (jwks admin value_from_slice));
      mret (Some (Respond {| response_status := OK; response_body := ValueBody value |}))
  | RegisterDeployment, [namespace_id] =>
      deployment ← lift (json_deployment limit request);
      changed ← api (on_tables (register_deployment service registry admin namespace_id headers
                                  deployment));
      reply (DeploymentReply changed)
  | IssueWorkflowToken, [namespace_id] =>
      wanted ← lift (json_workflow_token limit request);
      issued ← api (on_tables (issue_workflow_token registry admin elapsed uuid1 uuid2 namespace_id
                                 headers wanted));
      reply (IssueWorkflowTokenReply issued)
  | ResolveActorTarget, [namespace_id; actor_type; actor_id] =>
      target ← api (on_invocations (resolve_actor_target service fuel decode_at elapsed
                      (actor_of namespace_id actor_type actor_id) headers));
      match target with
      | Some target => reply (ActorTargetReply target)
      | None => mret None
      end
  | ConnectWorkflow, [namespace_id; actor_type; actor_id] =>
      lift (websocket_upgrade request);;
      access ← socket_api (lift (connect_workflow (auth service) decode_at elapsed
                 (actor_of namespace_id actor_type actor_id) headers));
      mret (Some (SwitchProtocols (upgrade_socket [] access)))
  | ConnectExternal, [trigger_id; actor_id] =>
      lift (websocket_upgrade request);;
      access ← socket_api (lift (connect_external socket_authenticator uuid1 uuid2 trigger_id
                 actor_id headers));
      mret (Some (SwitchProtocols (upgrade_socket ["terse-do"] access)))
  | ApplyEffects, [namespace_id; actor_type; actor_id] =>
      effects ← lift (json_effects limit request);
      status ← socket_api (on_sockets (apply_effects (auth service) decode_at elapsed
                 (actor_of namespace_id actor_type actor_id) headers effects));
      mret (Some (Respond {| response_status := status; response_body := NoBody |}))
  | _, _ => lift (Err wrong_parameters)
  end.

(** The first route whose pattern matches (no two of the table can,
    [routes_do_not_overlap]). *)
Fixpoint find_route (routes : list Route) (path : string)
    : option (Route * Result Response (list string)) :=
  match routes with
  | [] => None
  | route :: routes =>
      match match_path (route_path route) path with
      | Some params => Some (route, params)
      | None => find_route routes path
      end
  end.

(** The answer to a HEAD request has no body. *)
Definition strip_body (method : Method) (answer : Answer) : Answer :=
  match answer with
  | Respond response =>
      if bool_decide (method = HEAD)
      then Respond {| response_status := response_status response; response_body := NoBody |}
      else answer
  | SwitchProtocols _ => answer
  end.

Definition refuse (status : Z) : M ServerState Response (option Answer) :=
  lift (Err {| response_status := status; response_body := NoBody |}).

Definition answer_request (request : HttpRequest) : M ServerState Response (option Answer) :=
  match find_route router (req_path request) with
  | None => refuse NOT_FOUND
  | Some (route, params) =>
      if negb (serves route (req_method request)) then refuse METHOD_NOT_ALLOWED
      else
        params ← lift params;
        run_endpoint route params request
  end.

(** [None]: the routing loop has not ended within its fuel. *)
Definition serve (request : HttpRequest) (st : ServerState) : ServerState * option Answer :=
  let '(st', r) := answer_request request st in
  (st', strip_body (req_method request) <$> match r with Ok answer => answer | Err e => Some (Respond e) end).
End Server.

(** ** What a request can do *)

Section Proofs.
Context {E : Surroundings} {T : Jwt} {J : Json} {B : Base64} {Parser : UrlParser}
        {Signer : UrlSigner} {A : Axum} {Laws : AxumLaws A}.
Context (service : ControlPlaneService) (registry : AdminRegistry) (admin : AdminService).
Context (socket_authenticator :
           option (SocketAuthorizationRequest -> Result SocketAuthorizationError SocketAuthorization)).
Context (value_from_slice : bytes -> anyhow Value).
Context (decode_at : Z) (elapsed : option Z) (uuid1 uuid2 : string) (fuel : nat).

Abbreviation serve := (serve service registry admin socket_authenticator value_from_slice decode_at
                         elapsed uuid1 uuid2 fuel) (only parsing).
Abbreviation run_endpoint := (run_endpoint service registry admin socket_authenticator
                                value_from_slice decode_at elapsed uuid1 uuid2 fuel) (only parsing).

(** The application's endpoint vouches for the credential of a browser. *)
Definition browser_credential (headers : Headers) (trigger_id actor_id : string) : Prop :=
  exists authorize credential authorization, socket_authenticator = Some authorize /\
    external_credential headers = Some credential /\
    authorize {| request_trigger_id := trigger_id; request_actor_id := actor_id;
                 request_credential := credential |} = Ok authorization.

(** The credential each endpoint is for. *)
Definition allowed (endpoint : Endpoint) (params : list string) (headers : Headers) : Prop :=
  match endpoint, params with
  | Jwks, _ => True
  | RegisterDeployment, [_] | IssueWorkflowToken, [_] => admin_credential admin headers
  | ResolveActorTarget, [namespace_id; actor_type; actor_id]
  | ConnectWorkflow, [namespace_id; actor_type; actor_id]
  | ApplyEffects, [namespace_id; actor_type; actor_id] =>
      workflow_credential (auth service) decode_at elapsed headers
        (actor_of namespace_id actor_type actor_id)
  | ConnectExternal, [trigger_id; actor_id] => browser_credential headers trigger_id actor_id
  | _, _ => False
  end.

Definition reads_body (endpoint : Endpoint) : bool :=
  match endpoint with
  | RegisterDeployment | IssueWorkflowToken | ApplyEffects => true
  | _ => false
  end.

(** The request is what the handler's parameters ask for. *)
Definition extracted (route : Route) (params : list string) (request : HttpRequest) : Prop :=
  match route_endpoint route, params with
  | RegisterDeployment, [_] => is_ok (json_deployment (route_body_limit route) request) = true
  | IssueWorkflowToken, [_] => is_ok (json_workflow_token (route_body_limit route) request) = true
  | ResolveActorTarget, [namespace_id; actor_type; actor_id] =>
      ActorKey_validate (actor_of namespace_id actor_type actor_id) = Ok tt
  | ConnectWorkflow, [namespace_id; actor_type; actor_id] =>
      is_ok (websocket_upgrade request) = true /\
      ActorKey_validate (actor_of namespace_id actor_type actor_id) = Ok tt
  | ConnectExternal, [_; _] => is_ok (websocket_upgrade request) = true
  | ApplyEffects, [namespace_id; actor_type; actor_id] =>
      is_ok (json_effects (route_body_limit route) request) = true /\
      ActorKey_validate (actor_of namespace_id actor_type actor_id) = Ok tt
  | _, _ => False
  end.

(** The sockets a request may touch: those of the actor it names. *)
Definition sockets_confined (endpoint : Endpoint) (params : list string) (g g' : GatewayState) : Prop :=
  g' = g \/
  exists namespace_id actor_type actor_id effects, endpoint = ApplyEffects /\
    params = [namespace_id; actor_type; actor_id] /\ validate_socket_effects effects = Ok tt /\
    g' = apply (actor_of namespace_id actor_type actor_id) effects g.

Definition is_refusal (st st' : ServerState) (r : Result Response (option Answer)) : Prop :=
  st' = st /\ exists e, r = Err e /\ (400 <= response_status e)%Z.

Lemma zoom_pure {S P Er R} (view : S -> P) put (c : M P Er R) st r :
  (forall x, put (view x) x = x) -> c (view st) = (view st, r) -> zoom view put c st = (st, r).
Proof. intros Hput H. unfold zoom. rewrite H. by rewrite Hput. Qed.

Lemma on_sockets_pure {Er R} (c : M GatewayState Er R) st r :
  c (sockets st) = (sockets st, r) -> on_sockets c st = (st, r).
Proof. intros H. apply zoom_pure; [by intros [] | done]. Qed.
Lemma on_invocations_pure {Er R} (c : M ServiceState Er R) st r :
  c (invocations st) = (invocations st, r) -> on_invocations c st = (st, r).
Proof. intros H. apply zoom_pure; [by intros [] | done]. Qed.
Lemma on_tables_pure {Er R} (c : M PgState Er R) st r :
  c (pg (invocations st)) = (pg (invocations st), r) -> on_tables c st = (st, r).
Proof. intros H. apply on_invocations_pure, zoom_pure; [by intros [] | done]. Qed.

Lemma on_invocations_sockets {Er R} (c : M ServiceState Er R) st :
  sockets (on_invocations c st).1 = sockets st.
Proof. unfold on_invocations, zoom. by destruct (c _). Qed.

(** [guarded P c]: [c] does nothing but refuse unless [P] holds. *)
Definition guarded (P : Prop) (c : M ServerState Response (option Answer)) : Prop :=
  forall st st' r, c st = (st', r) -> P \/ is_refusal st st' r.

Lemma guarded_granted (P : Prop) c : P -> guarded P c.
Proof. intros HP st st' r _. by left. Qed.

Lemma guarded_refuses P c e :
  (forall st, c st = (st, Err e)) -> (400 <= response_status e)%Z -> guarded P c.
Proof. intros Hc He st st' r H. rewrite Hc in H. injection H as <- <-. right. split; eauto. Qed.

Lemma guarded_lift {R} P (r : Result Response R) k :
  (forall x, r = Ok x -> guarded P (k x)) ->
  (forall e, r = Err e -> 400 <= response_status e)%Z -> guarded P (lift r ≫= k).
Proof.
  intros Hk He. destruct r as [x | e]; [by apply Hk |]. eapply guarded_refuses; [done | by apply He].
Qed.

Lemma api_pure {R} (c : M ServerState ApiError R) (k : R -> M ServerState Response (option Answer)) st e :
  c st = (st, Err e) -> (api c ≫= k) st = (st, Err (ApiError_into_response e)).
Proof. intros H. unfold api, M_map_err, mbind, M_bind. by rewrite H. Qed.

Lemma socket_api_pure {R} (c : M ServerState SocketApiError R)
    (k : R -> M ServerState Response (option Answer)) st e :
  c st = (st, Err e) -> (socket_api c ≫= k) st = (st, Err (SocketApiError_into_response e)).
Proof. intros H. unfold socket_api, M_map_err, mbind, M_bind. by rewrite H. Qed.

(** The answer to an unauthorized caller is an error. *)
Lemma refused_status status : refused status -> (400 <= status)%Z.
Proof. intros [-> | ->]; done. Qed.

Lemma authorized_admin_cases headers :
  admin_credential admin headers \/
  exists e, authorized_admin admin headers = Err e /\ refused (api_status e).
Proof.
  destruct (authorized_admin admin headers) as [[] | e] eqn:Ha.
  - left. by apply authorized_admin_iff.
  - right. exists e. split; [done |]. left. by eapply authorized_admin_refused.
Qed.

(** A workflow endpoint runs for a valid actor and a token for it, or it refuses. *)
Lemma workflow_cases headers actor :
  (ActorKey_validate actor = Ok tt /\
   workflow_credential (auth service) decode_at elapsed headers actor) \/
  exists e s, (400 <= api_status e /\ 400 <= socket_status s)%Z /\
    forall effects svc g,
      resolve_actor_target service fuel decode_at elapsed actor headers svc = (svc, Err e) /\
      connect_workflow (auth service) decode_at elapsed actor headers = Err s /\
      apply_effects (auth service) decode_at elapsed actor headers effects g = (g, Err s).
Proof.
  destruct (ActorKey_validate actor) as [[] | e] eqn:Hv.
  - pose proof (authorized_workflow_cases service decode_at elapsed headers actor) as H1.
    pose proof (authorize_workflow_cases (auth service) decode_at elapsed headers actor) as H2.
    destruct (authorized_workflow _ _ _ _ _) as [p | e] eqn:E1; [by left |].
    destruct (authorize_workflow _ _ _ _ _) as [p | s] eqn:E2; [by left |].
    destruct H1 as [H1%refused_status _], H2 as [H2%refused_status _].
    right. exists e, s. split; [done |]. intros effects svc g.
    split; [by apply target_refused_Err | by apply socket_refused_Err].
  - right. exists (bad_request (to_string e)), socket_bad_request. split; [done |].
    intros effects svc g. by eapply invalid_actor_Err.
Qed.

Lemma connect_external_cases trigger_id requested headers :
  match connect_external socket_authenticator uuid1 uuid2 trigger_id requested headers with
  | Ok _ => browser_credential headers trigger_id requested
  | Err s => socket_status s = UNAUTHORIZED \/ socket_status s = SERVICE_UNAVAILABLE
  end.
Proof.
  unfold connect_external, authorize_socket. destruct (external_credential headers) as [credential |] eqn:Hc; [| by left].
  unfold mbind, result_bind. destruct socket_authenticator as [authorize |] eqn:Ha; [| by right].
  simpl. destruct (authorize _) as [a | [|]] eqn:Hauth; simpl; [| by left | by right].
  do 3 eexists. by split_and!.
Qed.

(** What a request must carry for a handler to run. *)
Definition granted (route : Route) (params : list string) (request : HttpRequest) : Prop :=
  allowed (route_endpoint route) params (req_headers request) /\
  (reads_body (route_endpoint route) = true ->
   (bytes_len (req_body request) <= route_body_limit route)%Z).

Lemma admin_endpoint_guarded route namespace_id request :
  route_endpoint route = RegisterDeployment \/ route_endpoint route = IssueWorkflowToken ->
  guarded (granted route [namespace_id] request) (run_endpoint route [namespace_id] request).
Proof.
  intros Hroute. unfold run_endpoint, granted.
  destruct (authorized_admin_cases (req_headers request)) as [Hyes | (e & He & Hst%refused_status)];
    destruct Hroute as [-> | ->]; apply guarded_lift;
    try (by intros ? ?%deployment_rejected || by intros ? ?%workflow_token_rejected); intros d Hd;
    try (apply guarded_granted; split; [done | intros _];
         first [by eapply deployment_limited | by eapply workflow_token_limited]).
  all: apply (guarded_refuses _ _ (ApiError_into_response e)); [| exact Hst]; intros st; apply api_pure, on_tables_pure;
    by (apply register_refused_Err || apply token_refused_Err).
Qed.

Lemma workflow_endpoint_guarded route namespace_id actor_type actor_id request :
  route_endpoint route = ResolveActorTarget \/ route_endpoint route = ConnectWorkflow \/
  route_endpoint route = ApplyEffects ->
  guarded (granted route [namespace_id; actor_type; actor_id] request)
    (run_endpoint route [namespace_id; actor_type; actor_id] request).
Proof.
  intros Hroute. unfold run_endpoint, granted.
  destruct (workflow_cases (req_headers request) (actor_of namespace_id actor_type actor_id))
    as [[_ Hyes] | (e & s & [He Hs] & Hno)]; destruct Hroute as [-> | [-> | ->]];
    try (apply guarded_lift; [intros x Hx
      | by intros ? ?%upgrade_rejected || by intros ? ?%effects_rejected]).
  all: try (apply guarded_granted; split; [done |]; try done; intros _; by eapply effects_limited).
  - apply (guarded_refuses _ _ (ApiError_into_response e)); [| exact He]. intros st.
    apply api_pure, on_invocations_pure. by destruct (Hno [] (invocations st) (sockets st)) as (-> & _ & _).
  - apply (guarded_refuses _ _ (SocketApiError_into_response s)); [| exact Hs]. intros st.
    apply socket_api_pure. unfold lift. by destruct (Hno [] (invocations st) (sockets st)) as (_ & -> & _).
  - apply (guarded_refuses _ _ (SocketApiError_into_response s)); [| exact Hs]. intros st.
    apply socket_api_pure, on_sockets_pure. by destruct (Hno x (invocations st) (sockets st)) as (_ & _ & ->).
Qed.

Lemma external_endpoint_guarded route trigger_id requested request :
  route_endpoint route = ConnectExternal ->
  guarded (granted route [trigger_id; requested] request)
    (run_endpoint route [trigger_id; requested] request).
Proof.
  intros Hroute. unfold run_endpoint, granted. rewrite Hroute.
  apply guarded_lift; [intros x Hx | by intros ? ?%upgrade_rejected].
  pose proof (connect_external_cases trigger_id requested (req_headers request)) as H.
  destruct (connect_external _ _ _ _ _ _) as [access | s]; [by apply guarded_granted |].
  apply (guarded_refuses _ _ (SocketApiError_into_response s)); [intros st; by apply socket_api_pure |].
  simpl. by destruct H as [-> | ->].
Qed.

Lemma run_endpoint_guarded route params request :
  guarded (granted route params request) (run_endpoint route params request).
Proof.
  destruct (route_endpoint route) eqn:Hroute.
  1: apply guarded_granted; unfold granted; by rewrite Hroute.
  all: destruct params as [| a [| b [| c [| d params]]]];
    try (eapply guarded_refuses; [intros st; unfold run_endpoint; by rewrite Hroute | done]).
  all: first [by apply admin_endpoint_guarded; auto | by apply workflow_endpoint_guarded; auto
             | by apply external_endpoint_guarded].
Qed.

(** Nothing but effects touches the registry of sockets. *)
Definition keeps_sockets (st st' : ServerState) : Prop := sockets st' = sockets st.

#[local] Instance keeps_sockets_preorder : PreOrder keeps_sockets.
Proof. split; unfold keeps_sockets; [by intros st | congruence]. Qed.

Lemma respects_api {R} (c : M ServerState ApiError R) :
  respects keeps_sockets c -> respects keeps_sockets (api c).
Proof.
  intros Hc st st' r H. unfold api, M_map_err in H. destruct (c st) as [st1 r1] eqn:E1.
  injection H as <- _. by eapply Hc.
Qed.

Lemma respects_socket_api {R} (r : Result SocketApiError R) :
  respects keeps_sockets (socket_api (lift r)).
Proof. by intros st st' r' [= <- _]. Qed.

Lemma respects_on_invocations {Er R} (c : M ServiceState Er R) :
  respects keeps_sockets (on_invocations c).
Proof. intros st st' r H. unfold on_invocations, zoom in H. destruct (c _). by injection H as <- _. Qed.

Lemma respects_on_tables {Er R} (c : M PgState Er R) : respects keeps_sockets (on_tables c).
Proof. apply respects_on_invocations. Qed.

Create HintDb http.
#[local] Hint Resolve respects_api respects_socket_api respects_on_invocations respects_on_tables
  respects_lift keeps_sockets_preorder : http.

Lemma apply_effects_cases actor headers effects g :
  let '(g', _) := apply_effects (auth service) decode_at elapsed actor headers effects g in
  g' = g \/ validate_socket_effects effects = Ok tt /\ g' = apply actor effects g.
Proof.
  unfold apply_effects, lift, mbind, M_bind.
  destruct (map_err _ (ActorKey_validate actor)); [| by left].
  destruct (authorize_workflow _ _ _ _ _); [| by left].
  destruct (validate_socket_effects effects) as [[] |] eqn:Hv; simpl; [by right | by left].
Qed.

Lemma effects_endpoint_sockets route params request st :
  route_endpoint route = ApplyEffects ->
  sockets_confined ApplyEffects params (sockets st) (sockets (run_endpoint route params request st).1).
Proof.
  intros Hroute. unfold run_endpoint. rewrite Hroute.
  destruct params as [| a [| b [| c [| d params]]]]; try by left.
  destruct (json_effects _ _) as [effects |]; [| by left].
  pose proof (apply_effects_cases (actor_of a b c) (req_headers request) effects (sockets st)) as H.
  unfold lift, socket_api, M_map_err, on_sockets, zoom, mbind, M_bind.
  destruct (apply_effects _ _ _ _ _ _ _) as [g' r]. destruct r; simpl;
    (destruct H as [-> | [Hv ->]]; [by left | right; by eauto 8]).
Qed.

Lemma run_endpoint_sockets route params request st :
  sockets_confined (route_endpoint route) params (sockets st)
    (sockets (run_endpoint route params request st).1).
Proof.
  destruct (decide (route_endpoint route = ApplyEffects)) as [Heq | Hne].
  { rewrite Heq. by apply effects_endpoint_sockets. }
  left. assert (respects keeps_sockets (run_endpoint route params request)) as Hr.
  { unfold run_endpoint. destruct (route_endpoint route); try done;
      respecting; unfold reply; eauto with http; respecting. }
  destruct (run_endpoint route params request st) as [st' r] eqn:H. by apply Hr in H.
Qed.

Lemma strip_body_respond method e :
  exists response, strip_body method (Respond e) = Respond response /\
                   response_status response = response_status e.
Proof. simpl. case_bool_decide; eauto. Qed.

(** [routed request route params]: the request reaches the endpoint of [route]. *)
Definition routed (request : HttpRequest) (route : Route) (params : list string) : Prop :=
  find_route router (req_path request) = Some (route, Ok params) /\
  serves route (req_method request) = true.

Abbreviation answer_request := (answer_request service registry admin socket_authenticator
                                  value_from_slice decode_at elapsed uuid1 uuid2 fuel) (only parsing).

Lemma find_route_rejected routes path route e :
  find_route routes path = Some (route, Err e) -> (400 <= response_status e)%Z.
Proof.
  induction routes as [| first routes IH]; simpl; [done |].
  destruct (match_path (route_path first) path) as [params |] eqn:Hm; [| done].
  intros [= <- ->]. by eapply path_rejected.
Qed.

(** A request that reaches no endpoint is refused. *)
Lemma answer_request_cases request :
  (exists route params, routed request route params /\
     answer_request request = run_endpoint route params request) \/
  guarded False (answer_request request).
Proof.
  unfold answer_request, routed. destruct (find_route router (req_path request)) as [[route params] |] eqn:Hf.
  - destruct (serves route (req_method request)) eqn:Hs; simpl; [| right; by eapply guarded_refuses].
    destruct params as [params | e].
    + left. by exists route, params.
    + right. eapply guarded_refuses; [done |]. by eapply find_route_rejected.
  - right. by eapply guarded_refuses.
Qed.

(** What a caller without the credential is told. *)
Definition denied (endpoint : Endpoint) (status : Z) : Prop :=
  refused status \/ endpoint = ConnectExternal /\ status = SERVICE_UNAVAILABLE.

Lemma is_ok_bind_lift {R Er} (r : Result Er R) (k : R -> M ServerState Er (option Answer)) st :
  is_ok r = true -> exists x, r = Ok x /\ (lift r ≫= k) st = k x st.
Proof. destruct r; [eauto | done]. Qed.

Lemma admin_denied route namespace_id request st :
  route_endpoint route = RegisterDeployment \/ route_endpoint route = IssueWorkflowToken ->
  extracted route [namespace_id] request -> ~ admin_credential admin (req_headers request) ->
  exists e, run_endpoint route [namespace_id] request st = (st, Err e) /\ refused (response_status e).
Proof.
  unfold extracted, run_endpoint. intros Hroute Hex Hno.
  destruct (authorized_admin_cases (req_headers request)) as [| (e & He & Hst)]; [done |].
  exists (ApiError_into_response e). split; [| done].
  destruct Hroute as [Hr | Hr]; rewrite Hr in Hex |- *;
    edestruct @is_ok_bind_lift as (d & _ & ->); try exact Hex; apply api_pure, on_tables_pure;
    by (apply register_refused_Err || apply token_refused_Err).
Qed.

Lemma workflow_denied route namespace_id actor_type actor_id request st :
  route_endpoint route = ResolveActorTarget \/ route_endpoint route = ConnectWorkflow \/
  route_endpoint route = ApplyEffects ->
  extracted route [namespace_id; actor_type; actor_id] request ->
  ~ workflow_credential (auth service) decode_at elapsed (req_headers request)
      (actor_of namespace_id actor_type actor_id) ->
  exists e, run_endpoint route [namespace_id; actor_type; actor_id] request st = (st, Err e) /\
            refused (response_status e).
Proof.
  set (actor := actor_of namespace_id actor_type actor_id).
  unfold extracted, run_endpoint. fold actor. intros Hroute Hex Hno.
  pose proof (authorized_workflow_cases service decode_at elapsed (req_headers request) actor) as H1.
  pose proof (authorize_workflow_cases (auth service) decode_at elapsed (req_headers request) actor) as H2.
  destruct (authorized_workflow _ _ _ _ _) as [p | e] eqn:E1; [done |].
  destruct (authorize_workflow _ _ _ _ _) as [p | s] eqn:E2; [done |].
  destruct Hroute as [Hr | [Hr | Hr]]; rewrite Hr in Hex |- *.
  - exists (ApiError_into_response e). split; [| by destruct H1].
    by apply api_pure, on_invocations_pure, target_refused_Err.
  - exists (SocketApiError_into_response s). split; [| by destruct H2]. destruct Hex as [Hup Hactor].
    edestruct @is_ok_bind_lift as (d & _ & ->); [exact Hup |]. apply socket_api_pure. unfold lift.
    by destruct (socket_refused_Err _ _ _ _ _ [] _ (sockets st) Hactor E2) as [-> _].
  - exists (SocketApiError_into_response s). split; [| by destruct H2]. destruct Hex as [Hup Hactor].
    edestruct @is_ok_bind_lift as (effects & _ & ->); [exact Hup |].
    apply socket_api_pure, on_sockets_pure.
    by destruct (socket_refused_Err _ _ _ _ _ effects _ (sockets st) Hactor E2) as [_ ->].
Qed.

Lemma run_endpoint_denied route params request st :
  extracted route params request -> ~ allowed (route_endpoint route) params (req_headers request) ->
  exists e, run_endpoint route params request st = (st, Err e) /\
            denied (route_endpoint route) (response_status e).
Proof.
  intros Hex Hno. unfold denied.
  destruct (route_endpoint route) eqn:Hr; try (unfold extracted in Hex; by rewrite Hr in Hex);
    destruct params as [| a [| b [| c [| d params]]]]; try (unfold extracted in Hex; by rewrite Hr in Hex);
    cbn [allowed] in Hno.
  1, 2: edestruct (admin_denied route a request st) as (e & ? & ?); eauto.
  1, 2, 4: edestruct (workflow_denied route a b c request st) as (e & ? & ?); eauto.
  unfold extracted, run_endpoint in *. rewrite Hr in Hex |- *.
  pose proof (connect_external_cases a b (req_headers request)) as H.
  destruct (connect_external _ _ _ _ _ _) as [access | s] eqn:Hc; [done |].
  exists (SocketApiError_into_response s). split.
  - edestruct @is_ok_bind_lift as (d & _ & ->); [exact Hex |]. by apply socket_api_pure.
  - simpl. destruct H as [-> | ->]; [left; by left | by right].
Qed.

Lemma serve_denied route params request st :
  routed request route params -> extracted route params request ->
  ~ allowed (route_endpoint route) params (req_headers request) ->
  exists response, serve request st = (st, Some (Respond response)) /\
    denied (route_endpoint route) (response_status response).
Proof.
  intros [Hf Hs] Hex Hno.
  destruct (run_endpoint_denied route params request st Hex Hno) as (e & He & Hd).
  unfold serve, answer_request. rewrite Hf, Hs. simpl. unfold lift, mbind, M_bind.
  cbn beta iota. rewrite He.
  destruct (strip_body_respond (req_method request) e) as (response & Hr & Hst).
  exists response. rewrite Hst. split; [| done]. by rewrite <- Hr.
Qed.

(** C9: Whatever request arrives, either it reached one of the seven endpoints with the credential
    that endpoint is for (the public key set asks for none) and a body within the endpoint's limit, and then of the sockets at most
    those of the actor named by the path of a socket-effects request changed, and as its validated
    effects say; or nothing changed and the answer is an error.  A request that an endpoint can
    read but that lacks the credential is answered 401 or 403, or 503 when the application that
    vouches for browsers is unavailable. *)
Theorem requests_need_their_credential request st :
  let '(st', answer) := serve request st in
  ((exists route params, routed request route params /\ granted route params request /\
      sockets_confined (route_endpoint route) params (sockets st) (sockets st')) \/
   (st' = st /\ exists response, answer = Some (Respond response) /\
                                (400 <= response_status response)%Z)) /\
  (forall route params, routed request route params -> extracted route params request ->
     ~ allowed (route_endpoint route) params (req_headers request) ->
     st' = st /\ exists response, answer = Some (Respond response) /\
       denied (route_endpoint route) (response_status response)).
Proof.
  unfold serve. destruct (answer_request request st) as [st' r] eqn:Hrun. split.
  - assert (is_refusal st st' r -> st' = st /\ exists response,
      strip_body (req_method request) <$> match r with Ok a => a | Err e => Some (Respond e) end
      = Some (Respond response) /\ (400 <= response_status response)%Z) as Href.
    { intros [-> (e & -> & He)]. split; [done |].
      destruct (strip_body_respond (req_method request) e) as (response & Hr & Hst).
      exists response. rewrite Hst. split; [| done]. by rewrite <- Hr. }
    destruct (answer_request_cases request) as [(route & params & Hrouted & Heq) | Hno].
    + rewrite Heq in Hrun. destruct (run_endpoint_guarded route params request st st' r Hrun);
        [left | by right; apply Href].
      exists route, params. split_and!; [done.. |].
      pose proof (run_endpoint_sockets route params request st) as Hsock. by rewrite Hrun in Hsock.
    + right. destruct (Hno st st' r Hrun) as [[] | H]. by apply Href.
  - intros route params Hr Hex Hno.
    destruct (serve_denied route params request st Hr Hex Hno) as (response & Hserve & Hd).
    unfold serve in Hserve. rewrite Hrun in Hserve. injection Hserve as -> ->. eauto.
Qed.
End Proofs.

(** ** A segment-wise matcher, and the table under it *)

Definition is_parameter (segment : string) : bool := starts_with segment "{".

(** A parameter takes one segment that is not empty. *)
Fixpoint match_segments (pattern path : list string) : option (list string) :=
  match pattern, path with
  | [], [] => Some []
  | expected :: pattern, segment :: path =>
      params ← match_segments pattern path;
      if is_parameter expected then if is_empty segment then None else Some (segment :: params)
      else if String.eqb expected segment then Some params else None
  | _, _ => None
  end.

Definition matches (pattern path : string) : option (list string) :=
  match_segments (split_char "/"%char pattern) (split_char "/"%char path).

(** Two patterns are apart when a literal segment, or their lengths, tell them apart. *)
Fixpoint apart (p q : list string) : bool :=
  match p, q with
  | [], [] => false
  | a :: p, b :: q =>
      negb (is_parameter a) && negb (is_parameter b) && negb (String.eqb a b) || apart p q
  | _, _ => true
  end.

Lemma apart_segments p q path :
  apart p q = true -> is_Some (match_segments p path) -> match_segments q path = None.
Proof.
  revert q path. induction p as [| a p IH]; intros [| b q] [| s path]; simpl;
    try done; try by intros ? [? ?].
  intros Hapart [params Hp].
  apply bind_Some in Hp as (params' & Hp & Ha). apply orb_true_iff in Hapart as [Hneq | Hapart].
  - bool_prop. destruct (match_segments q path); simpl; [| done].
    destruct (is_parameter a); [done |]. destruct (is_parameter b); [done |].
    destruct (String.eqb_spec a s) as [-> |]; [| done]. rewrite String.eqb_sym. by case_match.
  - by rewrite (IH q path Hapart) by eauto.
Qed.

(** No path matches two routes: the order of the table does not matter. *)
Lemma routes_do_not_overlap i j r s path :
  router !! i = Some r -> router !! j = Some s ->
  is_Some (matches (route_path r) path) -> is_Some (matches (route_path s) path) -> i = j.
Proof.
  intros Hi Hj Hr [params Hs]. destruct (decide (i = j)) as [| Hne]; [done | exfalso].
  assert (forallb (fun '(i, r) => forallb (fun '(j, s) =>
      bool_decide (i = j) || apart (split_char "/"%char (route_path r)) (split_char "/"%char (route_path s)))
      (imap pair router)) (imap pair router) = true) as Hall by (vm_compute; reflexivity).
  rewrite forallb_forall in Hall.
  assert (forall k x, router !! k = Some x -> In (k, x) (imap pair router)) as Hin.
  { intros k x Hk. apply list_elem_of_In, list_elem_of_lookup. exists k. by rewrite list_lookup_imap, Hk. }
  specialize (Hall _ (Hin i r Hi)). cbv beta iota in Hall. rewrite forallb_forall in Hall.
  specialize (Hall _ (Hin j s Hj)). cbv beta iota in Hall. apply orb_true_iff in Hall as [Heq | Hapart]; bool_prop.
  - done.
  - unfold matches in *. by rewrite (apart_segments _ _ _ Hapart Hr) in Hs.
Qed.

(** ** A server, evaluated *)

#[local] Instance plain_signer : UrlSigner := {| sign_url _ _ _ _ _ _ := Ok "https://storage/" |}.

Definition sample_deployment : RegisterDeploymentRequest :=
  {| PublicApi.code_revision := "r2"; PublicApi.image_ref := "registry/image@sha256:1";
     PublicApi.working_directory := "/app"; PublicApi.actor_entrypoint := None;
     warm_region := None |}.
Definition sample_token_request : IssueWorkflowTokenRequest :=
  {| execution_id := "run-1"; deadline_unix_ms := 1100000; PublicApi.storage_region := "eu";
     request_private_routing := false |}.

(** The [Json] extractor at a body that means [x]. *)
Definition json_of {X} (x : X) (limit : Z) (request : HttpRequest) : Result Response X :=
  if negb (bool_decide (req_content_type request = Some "application/json"))
  then Err {| response_status := 415; response_body := NoBody |}
  else if (bytes_len (req_body request) <=? limit)%Z then Ok x
  else Err {| response_status := PAYLOAD_TOO_LARGE; response_body := NoBody |}.

#[local] Instance plain_axum : Axum := {|
  match_path pattern path := Ok <$> matches pattern path;
  json_deployment := json_of sample_deployment;
  json_workflow_token := json_of sample_token_request;
  json_effects := json_of [];
  websocket_upgrade request :=
    if bool_decide (req_method request = GET) then Ok tt
    else Err {| response_status := METHOD_NOT_ALLOWED; response_body := NoBody |};
|}.

Lemma json_of_Err {X} (x : X) limit request e :
  json_of x limit request = Err e -> (400 <= response_status e)%Z.
Proof. unfold json_of. repeat case_match; intros [= <-]; done. Qed.
Lemma json_of_Ok {X} (x : X) limit request y :
  json_of x limit request = Ok y -> (bytes_len (req_body request) <= limit)%Z.
Proof. unfold json_of. repeat case_match; intros [= <-]; by bool_prop. Qed.

Lemma plain_axum_laws : AxumLaws plain_axum.
Proof.
  split; simpl; intros *.
  - destruct (matches _ _); done.
  - apply json_of_Err.
  - apply json_of_Err.
  - apply json_of_Err.
  - case_bool_decide; [done | by intros [= <-]].
  - apply json_of_Ok.
  - apply json_of_Ok.
  - apply json_of_Ok.
Qed.

Section Sample.
#[local] Existing Instance calm_surroundings.

Definition sample_server : ServerState :=
  {| invocations := {| pg := deployment_start; public_routes := ∅; socket_targets := ∅ |};
     sockets := empty_gateway |}.
Definition sample_admin : AdminService :=
  {| admin_token := "a-long-enough-administration-token"; admin_issuer := sample_issuer |}.

Definition deployment_request (authorization : option string) : HttpRequest :=
  {| req_method := PUT; req_path := "/v1/namespaces/acme/deployment";
     req_headers := {| header_authorization := Some <$> authorization;
                       header_sec_websocket_protocol := None |};
     req_content_type := Some "application/json"; req_body := [] |}.

Definition sample_serve (request : HttpRequest) : ServerState * option Answer :=
  serve calm_service (PostgresAdminRegistry (weather (Surroundings := calm_surroundings))) sample_admin None
    (fun _ => Ok "") 1000 (Some 1000000%Z) "u1" "u2" 1 request sample_server.

Definition status_of (answer : option Answer) : option Z :=
  match answer with Some (Respond response) => Some (response_status response) | _ => None end.

Example served_statuses :
  (fun r => status_of (sample_serve r).2) <$>
    [deployment_request (Some "Bearer a-long-enough-administration-token");
     deployment_request (Some "Bearer another"); deployment_request None]
  = [Some OK; Some UNAUTHORIZED; Some UNAUTHORIZED].
Proof. vm_compute. reflexivity. Qed.

Lemma requests_need_their_credential_witness :
  (sample_serve (deployment_request None)).1 = sample_server /\
  status_of (sample_serve (deployment_request None)).2 = Some UNAUTHORIZED /\
  status_of (sample_serve (deployment_request (Some "Bearer a-long-enough-administration-token"))).2
  = Some OK.
Proof.
  destruct (requests_need_their_credential (Laws := plain_axum_laws) calm_service
    (PostgresAdminRegistry (weather (Surroundings := calm_surroundings))) sample_admin None
    (fun _ => Ok "") 1000 (Some 1000000%Z) "u1" "u2" 1 (deployment_request None) sample_server)
    as [_ H].
  edestruct H as [Hst (response & Hans & _)].
  - split; vm_compute; reflexivity.
  - vm_compute. reflexivity.
  - intros (value & Hv & _). vm_compute in Hv. discriminate.
  - split; [exact Hst |]. split; vm_compute; reflexivity.
Defined.
End Sample.
