(* ===== verification/ControlPlaneProcess.v ===== *)
(** * The control-plane process

    [src/control_plane/process.rs]: the configuration read from the environment
    and the parts it is assembled into; and, from the sandbox provider, the
    environment a provisioned host is given ([npm/providers/modal.ts]), so that
    the two processes' configurations can be put together. *)
From S2P Require Import Prelude Net Identity SocketProtocol StorageUrls Sandbox SandboxCommand Tokens Database Admin ControlPlane PublicApi HostProcess.
Local Open Scope string_scope.

Definition DEFAULT_JWT_ISSUER : string := "durable-object-control-plane".
Definition DEFAULT_AUTHORITY_AUDIENCE : string := "durable-object-authority".
Definition DEFAULT_INVOCATION_AUDIENCE : string := "durable-object-invoke".
Definition DEFAULT_JWT_TTL_SECONDS : Z := 1800.
Definition DEFAULT_ACTOR_IDLE_TIMEOUT_MS : Z := 60000.
Definition DEFAULT_HOST_IDLE_TIMEOUT_MS : Z := 300000.
Definition MAX_IDLE_TIMEOUT_MS : Z := 86400000.

Record ControlPlaneStorageConfig := {
  postgres_url : string;
  standard_buckets : gmap string string;
}.

Record SandboxProviderConfig := {
  provider_name : string;
  command : string;
  environment : list (string * string);
  provider_runtime : HostSandboxRuntimeConfig;
}.

Record SocketEventSinkConfig := { sink_url : string; sink_token : string }.
Record SocketAuthenticatorConfig := { auth_url : string; auth_token : string }.

(** [HttpSocketMessageEventSink]: its client is reqwest's. *)
Record HttpSocketMessageEventSink := { event_sink_url : string; event_sink_token : string }.

Section Config.
Context {Parser : UrlParser}.
(** [SocketAddr]'s [parse], [serde_json] at the bucket map and [Url::to_string]. *)
Context {SocketAddr : Type} (parse_socket_addr : string -> anyhow SocketAddr)
        (decode_buckets : string -> anyhow (gmap string string)) (url_to_string : Url -> string).
Context (get : string -> option string).

Record ControlPlaneProcessConfig := {
  bind : SocketAddr;
  jwt_signing_key : string;
  jwt_key_id : string;
  cp_jwt_issuer : string;
  cp_authority_audience : string;
  cp_invocation_audience : string;
  cp_jwt_max_lifetime : Duration;
  cp_admin_token : string;
  storage : ControlPlaneStorageConfig;
  sandbox_provider : option SandboxProviderConfig;
  socket_event_sink : option SocketEventSinkConfig;
  socket_authenticator : option SocketAuthenticatorConfig;
}.

Definition required (name : string) : anyhow string :=
  value ← some_or (name +:+ " is required") (get name);
  ensure (negb (is_empty value)) (name +:+ " must not be empty");;
  Ok value.

Definition validated_http_url (value name : string) : anyhow string :=
  url ← with_context (name +:+ " must be a URL") (url_parse value);
  ensure (is_http url) (name +:+ " must be HTTP or HTTPS");;
  Ok (url_to_string url).

(** [get(name).map(parse).transpose().with_context(..)?.unwrap_or(default)] *)
Definition integer_or (name : string) (default : Z) : anyhow Z :=
  match get name with
  | None => Ok default
  | Some value => some_or (name +:+ " must be an integer") (parse_u64 value)
  end.

Definition idle_timeout (name : string) (default : Z) : anyhow Z :=
  value ← integer_or name default;
  ensure ((1 <=? value)%Z && (value <=? MAX_IDLE_TIMEOUT_MS)%Z)
    (name +:+ " is outside the supported range");;
  Ok value.

Definition provider_credential (name : string) : anyhow string :=
  value ← required name;
  ensure (bool_decide (trim value = value)) (name +:+ " has surrounding whitespace");;
  Ok value.

Definition socket_authenticator_config : anyhow (option SocketAuthenticatorConfig) :=
  match get "DURABLE_OBJECT_SOCKET_AUTH_URL", get "DURABLE_OBJECT_SOCKET_AUTH_TOKEN" with
  | None, None => Ok None
  | Some url, Some token =>
      url ← validated_http_url url "DURABLE_OBJECT_SOCKET_AUTH_URL";
      Ok (Some {| auth_url := url; auth_token := token |})
  | _, _ => bail "DURABLE_OBJECT_SOCKET_AUTH_URL and DURABLE_OBJECT_SOCKET_AUTH_TOKEN must be configured together"
  end.

Definition socket_event_sink_config : anyhow (option SocketEventSinkConfig) :=
  match get "DURABLE_OBJECT_SOCKET_EVENT_URL", get "DURABLE_OBJECT_SOCKET_EVENT_TOKEN" with
  | None, None => Ok None
  | Some url, Some token =>
      url ← validated_http_url url "DURABLE_OBJECT_SOCKET_EVENT_URL";
      Ok (Some {| sink_url := url; sink_token := token |})
  | _, _ => bail "DURABLE_OBJECT_SOCKET_EVENT_URL and DURABLE_OBJECT_SOCKET_EVENT_TOKEN must be configured together"
  end.

Definition sandbox_provider_config (issuer audience : string) : anyhow (option SandboxProviderConfig) :=
  match get "DURABLE_OBJECT_SANDBOX_PROVIDER" with
  | None =>
      ensure (bool_decide (get "DURABLE_OBJECT_SANDBOX_COMMAND" = None))
        "sandbox command requires a provider";;
      Ok None
  | Some provider_name =>
      ensure (bool_decide (provider_name = "modal"))
        ("unsupported sandbox provider " +:+ quoted provider_name);;
      token_id ← provider_credential "MODAL_TOKEN_ID";
      token_secret ← provider_credential "MODAL_TOKEN_SECRET";
      url ← required "DURABLE_OBJECT_CONTROL_PLANE_URL";
      control_plane_url ← validated_http_url url "DURABLE_OBJECT_CONTROL_PLANE_URL";
      actor_idle_timeout_ms ←
        idle_timeout "DURABLE_OBJECT_ACTOR_IDLE_TIMEOUT_MS" DEFAULT_ACTOR_IDLE_TIMEOUT_MS;
      host_idle_timeout_ms ←
        idle_timeout "DURABLE_OBJECT_HOST_IDLE_TIMEOUT_MS" DEFAULT_HOST_IDLE_TIMEOUT_MS;
      Ok (Some {|
        provider_name := provider_name;
        command := or_default "little-durable-objects-modal" (get "DURABLE_OBJECT_SANDBOX_COMMAND");
        environment := [("MODAL_TOKEN_ID", token_id); ("MODAL_TOKEN_SECRET", token_secret)];
        provider_runtime := {|
          Sandbox.control_plane_url := control_plane_url; Sandbox.jwt_issuer := issuer;
          Sandbox.invocation_jwt_audience := audience;
          Sandbox.actor_idle_timeout_ms := actor_idle_timeout_ms;
          Sandbox.host_idle_timeout_ms := host_idle_timeout_ms |} |})
  end.

(** [ControlPlaneProcessConfig::from_lookup] *)
Definition from_lookup : anyhow ControlPlaneProcessConfig :=
  bind ← with_context "DURABLE_OBJECT_CONTROL_PLANE_BIND must be a socket address"
    (parse_socket_addr (or_default "127.0.0.1:7100" (get "DURABLE_OBJECT_CONTROL_PLANE_BIND")));
  jwt_signing_key ← required "DURABLE_OBJECT_JWT_SIGNING_KEY";
  let jwt_key_id := or_default "primary" (get "DURABLE_OBJECT_JWT_KEY_ID") in
  let issuer := or_default DEFAULT_JWT_ISSUER (get "DURABLE_OBJECT_JWT_ISSUER") in
  let authority_audience :=
    or_default DEFAULT_AUTHORITY_AUDIENCE (get "DURABLE_OBJECT_AUTHORITY_JWT_AUDIENCE") in
  let invocation_audience :=
    or_default DEFAULT_INVOCATION_AUDIENCE (get "DURABLE_OBJECT_INVOKE_JWT_AUDIENCE") in
  ttl ← integer_or "DURABLE_OBJECT_JWT_MAX_TTL_SECONDS" DEFAULT_JWT_TTL_SECONDS;
  let jwt_max_lifetime := from_secs ttl in
  ensure (negb (is_zero jwt_max_lifetime)) "DURABLE_OBJECT_JWT_MAX_TTL_SECONDS must be positive";;
  admin_token ← required "DURABLE_OBJECT_ADMIN_TOKEN";
  ensure (bool_decide (trim admin_token = admin_token))
    "DURABLE_OBJECT_ADMIN_TOKEN has surrounding whitespace";;
  buckets ← required "DURABLE_OBJECT_STANDARD_BUCKETS";
  standard_buckets ← with_context "DURABLE_OBJECT_STANDARD_BUCKETS must be a JSON region-to-bucket map"
    (decode_buckets buckets);
  validate_buckets standard_buckets;;
  postgres_url ← required "DURABLE_OBJECT_POSTGRES_URL";
  sandbox_provider ← sandbox_provider_config issuer invocation_audience;
  socket_event_sink ← socket_event_sink_config;
  socket_authenticator ← socket_authenticator_config;
  Ok {| bind := bind; jwt_signing_key := jwt_signing_key; jwt_key_id := jwt_key_id;
        cp_jwt_issuer := issuer; cp_authority_audience := authority_audience;
        cp_invocation_audience := invocation_audience; cp_jwt_max_lifetime := jwt_max_lifetime;
        cp_admin_token := admin_token;
        storage := {| postgres_url := postgres_url; standard_buckets := standard_buckets |};
        sandbox_provider := sandbox_provider; socket_event_sink := socket_event_sink;
        socket_authenticator := socket_authenticator |}.

(** ** Assembling the process *)

(** [HttpSocketMessageEventSink::new] *)
Definition HttpSocketMessageEventSink_new (url token : string) : anyhow HttpSocketMessageEventSink :=
  parsed ← with_context "socket event sink URL is invalid" (url_parse url);
  ensure (bool_decide (scheme parsed = "http") || bool_decide (scheme parsed = "https"))
    "socket event sink URL must use HTTP or HTTPS";;
  ensure (negb (is_empty token)) "socket event sink token must not be empty";;
  Ok {| event_sink_url := url; event_sink_token := token |}.

(** [.map(f).transpose()?] *)
Definition transpose {A B} (f : A -> anyhow B) (o : option A) : anyhow (option B) :=
  match o with
  | None => Ok None
  | Some a => b ← f a; Ok (Some b)
  end.
End Config.

Section Assembly.
Context {E : Surroundings} {T : Jwt} {B : Base64} {Parser : UrlParser} {P : SandboxProvider}.
Context {SocketAddr : Type}.
(** [PostgresDatabase::connect] and Google's application-default credentials. *)
Context (connect : string -> anyhow ()) (build_signer : anyhow ()).

Record ControlPlaneParts := {
  service : ControlPlaneService;
  socket_events : option HttpSocketMessageEventSink;
  authenticator : option HttpSocketAuthenticator;
  admin : AdminService;
}.

Definition sandbox_provisioner_of (issuer : ActorJwtIssuer) (config : SandboxProviderConfig)
    : anyhow HostProvisioner :=
  validate_command_provider (provider_name config) (command config);;
  Ok (sandbox_provisioner {| runtime := provider_runtime config; provisioner_issuer := issuer |}).

(** [GcsStorageUrlSigner::from_adc] *)
Definition from_adc (buckets : gmap string string) : anyhow GcsStorageUrlSigner :=
  build_signer;;
  GcsStorageUrlSigner_new buckets.

(** [control_plane_routes], up to the routers and servers made of the parts. *)
Definition control_plane_routes (config : ControlPlaneProcessConfig (SocketAddr := SocketAddr))
    : anyhow ControlPlaneParts :=
  issuer ← from_base64_pkcs8 (jwt_signing_key config) (jwt_key_id config) (cp_jwt_issuer config)
             (cp_authority_audience config) (cp_invocation_audience config)
             (cp_jwt_max_lifetime config);
  keys ← verifier_keys_json issuer;
  auth ← for_scope keys (cp_jwt_issuer config) (cp_authority_audience config)
           Tokens.ControlPlane (cp_jwt_max_lifetime config);
  connect (postgres_url (storage config));;
  storage_urls ← from_adc (standard_buckets (storage config));
  provisioner ← transpose (sandbox_provisioner_of issuer) (sandbox_provider config);
  socket_events ← transpose (fun sink => HttpSocketMessageEventSink_new (sink_url sink) (sink_token sink))
                    (socket_event_sink config);
  authenticator ← transpose (fun auth => HttpSocketAuthenticator_new (auth_url auth) (auth_token auth))
                    (socket_authenticator config);
  admin ← AdminService_new (cp_admin_token config) issuer;
  Ok {| service := {| storage_urls := storage_urls; auth := auth;
                      host_token_issuer := Some issuer;
                      routing := Some {| registry := PostgresAdminRegistry weather;
                                         provisioner := provisioner |} |};
        socket_events := socket_events; authenticator := authenticator; admin := admin |}.
End Assembly.

(** ** The environment of a provisioned host

    [hostEnvironment] of [npm/providers/modal.ts]: what the sandbox of a host
    is started with. *)

Definition hostPort : Z := 7101.
Definition hostRouteFile : string := "/tmp/durable-object-route".
Definition readyFile : string := "/tmp/durable-object-ready".
Definition modalPrivateHostname : string := "i6pn.modal.local".

Definition hostEnvironment (request : EnsureHostRequest) (privateNetwork : bool)
    : list (string * string) :=
  [("DURABLE_OBJECT_PROCESS_ROLE", "host");
   ("DURABLE_OBJECT_HOST_TOKEN", er_host_token request);
   ("DURABLE_OBJECT_JWT_PUBLIC_KEYS", er_jwt_public_keys request);
   ("DURABLE_OBJECT_NAMESPACE_ID", er_namespace_id request);
   ("DURABLE_OBJECT_CONTROL_PLANE_URL", er_control_plane_url request);
   ("DURABLE_OBJECT_JWT_ISSUER", er_jwt_issuer request);
   ("DURABLE_OBJECT_INVOKE_JWT_AUDIENCE", er_invocation_jwt_audience request);
   ("DURABLE_OBJECT_HOST_ID", er_host_id request);
   ("DURABLE_OBJECT_SESSION_ID", er_session_id request);
   ("DURABLE_OBJECT_REGION", er_canonical_region request);
   ("DURABLE_OBJECT_CODE_REVISION", er_code_revision request);
   ("DURABLE_OBJECT_EXECUTOR_SOCKET", "/tmp/durable-object-executor.sock");
   ("DURABLE_OBJECT_HOST_READY_FILE", readyFile);
   ("DURABLE_OBJECT_HOST_BIND",
     (if privateNetwork then "[::]" else "0.0.0.0") +:+ ":" +:+ display_u64 hostPort);
   ("DURABLE_OBJECT_ACTOR_IDLE_TIMEOUT_MS", display_u64 (er_actor_idle_timeout_ms request));
   ("DURABLE_OBJECT_HOST_IDLE_TIMEOUT_MS", display_u64 (er_host_idle_timeout_ms request))]
  ++ (match er_actor_entrypoint request with
      | Some entrypoint =>
          if is_empty entrypoint then [] else [("DURABLE_OBJECT_ENTRYPOINT", entrypoint)]
      | None => []
      end)
  ++ (if privateNetwork
      then [("DURABLE_OBJECT_HOST_PRIVATE_HOSTNAME", modalPrivateHostname);
            ("DURABLE_OBJECT_HOST_ROUTE_FILE", hostRouteFile)]
      else [("DURABLE_OBJECT_HOST_PUBLIC_ROUTE_FILE", hostRouteFile)]).

(** [std::env::var(name).ok()] *)
Fixpoint env_var (env : list (string * string)) (name : string) : option string :=
  match env with
  | [] => None
  | (key, value) :: env => if String.eqb key name then Some value else env_var env name
  end.

(** [main.rs]'s [run]: which process the environment asks for. *)
Inductive ProcessRole := RunControlPlane | RunHost.
Definition process_role (role : option string) : anyhow ProcessRole :=
  let role := or_default "host" role in
  if String.eqb role "control_plane" then Ok RunControlPlane
  else if String.eqb role "host" then Ok RunHost
  else bail ("unsupported DURABLE_OBJECT_PROCESS_ROLE " +:+ quoted role).

(** ** What an accepted configuration can still fail on *)

Section Accepted.
Context {E : Surroundings} {T : Jwt} {B : Base64} {Parser : UrlParser} {P : SandboxProvider}.
Context {SocketAddr : Type} (parse_socket_addr : string -> anyhow SocketAddr)
        (decode_buckets : string -> anyhow (gmap string string)) (url_to_string : Url -> string).
Context (get : string -> option string).
Context (connect : string -> anyhow ()) (build_signer : anyhow ()).
(** A URL that was parsed is written back as one that parses to it. *)
Context (url_round_trip : forall value u, url_parse value = Ok u -> url_parse (url_to_string u) = Ok u).

Definition http_url (url : string) : Prop := exists u, url_parse url = Ok u /\ is_http u = true.

Lemma required_value name value :
  required get name = Ok value -> get name = Some value /\ value <> "".
Proof.
  unfold required. intros H. inv_ok. bool_prop. split; [done |].
  match goal with H : is_empty _ = false |- _ => by apply is_empty_false in H end.
Qed.

Lemma validated_http_url_Ok value name url :
  validated_http_url url_to_string value name = Ok url -> http_url url.
Proof. unfold validated_http_url. intros H. inv_ok. eexists. split; [by eapply url_round_trip | done]. Qed.

Lemma idle_timeout_Ok name default ms :
  idle_timeout get name default = Ok ms -> (1 <= ms <= MAX_IDLE_TIMEOUT_MS)%Z.
Proof. unfold idle_timeout. intros H. inv_ok. bool_prop. lia. Qed.

(** What the configuration of a sandbox provider satisfies. *)
Record provider_ok (issuer audience : string) (p : SandboxProviderConfig) : Prop := {
  ok_name : provider_name p = "modal";
  ok_url : http_url (Sandbox.control_plane_url (provider_runtime p));
  ok_issuer : Sandbox.jwt_issuer (provider_runtime p) = issuer;
  ok_audience : Sandbox.invocation_jwt_audience (provider_runtime p) = audience;
  ok_actor_idle : (1 <= Sandbox.actor_idle_timeout_ms (provider_runtime p) <= MAX_IDLE_TIMEOUT_MS)%Z;
  ok_host_idle : (1 <= Sandbox.host_idle_timeout_ms (provider_runtime p) <= MAX_IDLE_TIMEOUT_MS)%Z;
}.

Lemma sandbox_provider_config_Ok issuer audience p :
  sandbox_provider_config url_to_string get issuer audience = Ok (Some p) ->
  provider_ok issuer audience p.
Proof.
  unfold sandbox_provider_config. destruct (get _) as [name |]; intros H; inv_ok. bool_prop.
  repeat match goal with
    | H : idle_timeout _ _ _ = Ok _ |- _ => apply idle_timeout_Ok in H
    | H : validated_http_url _ _ _ = Ok _ |- _ => apply validated_http_url_Ok in H
    end.
  by split.
Qed.

Lemma socket_event_sink_config_Ok sink :
  socket_event_sink_config url_to_string get = Ok (Some sink) -> http_url (sink_url sink).
Proof.
  unfold socket_event_sink_config. destruct (get _), (get _); intros H; inv_ok; try done.
  by eapply validated_http_url_Ok.
Qed.

Lemma socket_authenticator_config_Ok a :
  socket_authenticator_config url_to_string get = Ok (Some a) -> http_url (auth_url a).
Proof.
  unfold socket_authenticator_config. destruct (get _), (get _); intros H; inv_ok; try done.
  by eapply validated_http_url_Ok.
Qed.

(** What a configuration that was accepted satisfies. *)
Record config_ok (config : ControlPlaneProcessConfig (SocketAddr := SocketAddr)) : Prop := {
  ok_admin_token : cp_admin_token config <> "" /\ trim (cp_admin_token config) = cp_admin_token config;
  ok_lifetime : is_zero (cp_jwt_max_lifetime config) = false;
  ok_buckets : validate_buckets (standard_buckets (storage config)) = Ok tt;
  ok_provider : forall p, sandbox_provider config = Some p ->
    provider_ok (cp_jwt_issuer config) (cp_invocation_audience config) p;
  ok_sink : forall s, socket_event_sink config = Some s -> http_url (sink_url s);
  ok_authenticator : forall a, socket_authenticator config = Some a -> http_url (auth_url a);
}.

Lemma from_lookup_ok config :
  from_lookup parse_socket_addr decode_buckets url_to_string get = Ok config -> config_ok config.
Proof.
  unfold from_lookup. intros H. inv_ok. bool_prop.
  match goal with H : required _ "DURABLE_OBJECT_ADMIN_TOKEN" = _ |- _ =>
    apply required_value in H as [_ ?] end.
  split; simpl; try done.
  - intros p ->. by apply sandbox_provider_config_Ok.
  - intros s ->. by apply socket_event_sink_config_Ok.
  - intros a ->. by apply socket_authenticator_config_Ok.
Qed.

Lemma http_url_scheme url : http_url url ->
  exists u, url_parse url = Ok u /\
    (bool_decide (scheme u = "http") || bool_decide (scheme u = "https")) = true.
Proof. intros (u & Hu & H). exists u. split; [done |]. unfold is_http in H. by bool_prop. Qed.

Lemma is_ok_transpose {A A'} (f : A -> anyhow A') o (Q : A -> Prop) :
  (forall a, o = Some a -> is_ok (f a) = true <-> Q a) ->
  is_ok (transpose f o) = true <-> forall a, o = Some a -> Q a.
Proof.
  intros HQ. destruct o as [a |]; simpl; [| done]. specialize (HQ a eq_refl).
  destruct (f a) as [b | e] eqn:Ef; simpl in *; split.
  - intros _ a' [= <-]. by apply HQ.
  - done.
  - done.
  - intros H. by apply HQ, H.
Qed.

Lemma is_ok_bind {A A'} (r : anyhow A) (f : A -> anyhow A') :
  is_ok (r ≫= f) = true <-> exists a, r = Ok a /\ is_ok (f a) = true.
Proof. destruct r as [a | e]; simpl; split; naive_solver. Qed.

Lemma command_provider_accepted issuer p :
  provider_name p = "modal" ->
  is_ok (sandbox_provisioner_of issuer p) = true <-> command p <> "" /\ trim (command p) = command p.
Proof.
  intros Hname. unfold sandbox_provisioner_of, validate_command_provider. rewrite Hname.
  destruct (command p) as [| c s] eqn:Hc; simpl; [naive_solver |].
  case_bool_decide; simpl; naive_solver.
Qed.

Lemma sink_accepted url token :
  http_url url -> is_ok (HttpSocketMessageEventSink_new url token) = true <-> token <> "".
Proof.
  intros (u & Hu & Hscheme)%http_url_scheme. unfold HttpSocketMessageEventSink_new.
  rewrite Hu. simpl. rewrite Hscheme. simpl. by destruct token.
Qed.

Lemma authenticator_accepted url token :
  http_url url -> is_ok (HttpSocketAuthenticator_new url token) = true <-> token <> "".
Proof.
  intros (u & Hu & Hscheme)%http_url_scheme. unfold HttpSocketAuthenticator_new.
  rewrite Hu. simpl. rewrite Hscheme. simpl. by destruct token.
Qed.

(** The keys: the issuer, and a verifier of what it issues. *)
Definition keys_usable (config : ControlPlaneProcessConfig (SocketAddr := SocketAddr)) : Prop :=
  exists issuer keys,
    from_base64_pkcs8 (jwt_signing_key config) (jwt_key_id config) (cp_jwt_issuer config)
      (cp_authority_audience config) (cp_invocation_audience config)
      (cp_jwt_max_lifetime config) = Ok issuer /\
    verifier_keys_json issuer = Ok keys /\
    is_ok (for_scope keys (cp_jwt_issuer config) (cp_authority_audience config)
             Tokens.ControlPlane (cp_jwt_max_lifetime config)) = true.

(** A control plane whose configuration was accepted is assembled exactly when its signing keys
    are usable, the database and the storage credentials are there, the sandbox command is neither
    empty nor surrounded by whitespace and the tokens of its socket endpoints are not empty: the
    bucket map, the URLs, the provider and the admin token cannot fail any more. *)
Lemma accepted_configuration_assembles config :
  from_lookup parse_socket_addr decode_buckets url_to_string get = Ok config ->
  is_ok (control_plane_routes connect build_signer config) = true <->
    keys_usable config /\
    is_ok (connect (postgres_url (storage config))) = true /\ is_ok build_signer = true /\
    (forall p, sandbox_provider config = Some p -> command p <> "" /\ trim (command p) = command p) /\
    (forall s, socket_event_sink config = Some s -> sink_token s <> "") /\
    (forall a, socket_authenticator config = Some a -> auth_token a <> "").
Proof.
  intros H%from_lookup_ok. destruct H as [[Hadmin Htrim] _ Hbuckets Hprovider Hsink Hauth].
  assert (forall issuer, is_ok (AdminService_new (cp_admin_token config) issuer) = true) as Hadm.
  { intros issuer. unfold AdminService_new. rewrite (proj2 (is_empty_false _) Hadmin).
    by rewrite bool_decide_eq_true_2. }
  assert (is_ok (from_adc build_signer (standard_buckets (storage config))) = is_ok build_signer)
    as Hadc.
  { unfold from_adc, GcsStorageUrlSigner_new. rewrite Hbuckets. by destruct build_signer. }
  assert (forall issuer, is_ok (transpose (sandbox_provisioner_of issuer) (sandbox_provider config)) = true
    <-> forall p, sandbox_provider config = Some p -> command p <> "" /\ trim (command p) = command p)
    as Hprov.
  { intros issuer. apply is_ok_transpose. intros p Heq.
    eapply command_provider_accepted, (ok_name _ _ _ (Hprovider p Heq)). }
  pose proof (is_ok_transpose _ _ _ (fun s Heq => sink_accepted _ (sink_token s) (Hsink s Heq))) as Hsnk.
  pose proof (is_ok_transpose _ _ _ (fun a Heq => authenticator_accepted _ (auth_token a) (Hauth a Heq)))
    as Hath.
  rewrite <- Hsnk, <- Hath, <- Hadc. unfold control_plane_routes, keys_usable. split.
  - intros Hok. repeat (apply is_ok_bind in Hok as (? & ? & Hok)).
    split_and!; [do 2 eexists; split_and!; [done | done |] | ..];
      try (by match goal with H : ?r = Ok _ |- is_ok ?r = true => rewrite H end).
    match goal with H : transpose (sandbox_provisioner_of ?issuer) _ = Ok _ |- _ =>
      apply (Hprov issuer); by rewrite H end.
  - intros ((issuer & keys & -> & Hkeys & Hver) & Hcon & Hsig & Hcom & Hs & Ha). simpl.
    rewrite Hkeys. simpl. apply (Hprov issuer) in Hcom. specialize (Hadm issuer).
    repeat match goal with H : is_ok _ = true |- _ => apply is_ok_spec in H as [? H] end.
    by do 7 (apply is_ok_bind; eexists; split; [eassumption |]).
Qed.
End Accepted.

(** ** A provisioned host accepts its environment *)

Section Provisioned.
Context {E : Surroundings} {T : Jwt} {L : JwtLaws T} {B : Base64} {Parser : UrlParser}
        {Uuids : UuidParser}.
Context {SocketAddr : Type} (parse_socket_addr : string -> anyhow SocketAddr)
        (decode_buckets : string -> anyhow (gmap string string)) (url_to_string : Url -> string)
        (endpoint_from_shared : string -> anyhow (option string * option string)).
Context (get : string -> option string).
(** Generated identifiers are UUIDs and the empty string is not one; neither is
    it a URL, nor a JWK set's JSON; the socket addresses of the sandbox parse. *)
Context (url_round_trip : forall value u, url_parse value = Ok u -> url_parse (url_to_string u) = Ok u).
Context (uuids : (forall n k, uuid_ok (uuid n k) = true) /\ uuid_ok "" = false).
Context (no_empty_url : is_ok (url_parse "") = false).
Context (keys_nonempty : forall issuer, verifier_keys_json issuer <> Ok "").
Context (addresses : forall address, address = "[::]:7101" \/ address = "0.0.0.0:7101" ->
  is_ok (parse_socket_addr address) = true).

(** What the provisioner asks of the sandbox provider. *)
Lemma sandbox_request_Ok p spec region st st' request :
  sandbox_request p spec region st = (st', Ok request) ->
  er_namespace_id request = spec_namespace_id spec /\
  (exists rest, er_host_id request = "host.v1." +:+ spec_namespace_id spec +:+ "." +:+ rest) /\
  uuid_ok (er_session_id request) = true /\
  er_host_token request <> "" /\ er_jwt_public_keys request <> "" /\
  er_control_plane_url request = Sandbox.control_plane_url (runtime p) /\
  er_jwt_issuer request = Sandbox.jwt_issuer (runtime p) /\
  er_invocation_jwt_audience request = Sandbox.invocation_jwt_audience (runtime p) /\
  er_host_idle_timeout_ms request = Sandbox.host_idle_timeout_ms (runtime p).
Proof.
  unfold sandbox_request, at_time. intros H.
  unfold mbind, M_bind, gets, lift, mret, M_ret in H. repeat case_match; simplify_eq/=.
  split_and!; try done.
  - by eexists.
  - apply uuids.
  - match goal with H : issue_host _ _ _ _ _ _ _ = Ok _ |- _ =>
      unfold issue_host in H; inv_ok end.
    match goal with H : issue _ _ = Ok _ |- _ =>
      apply issue_Ok in H as [H _]; apply token_trimmed in H as [H _] end.
    by apply is_empty_false.
  - match goal with H : verifier_keys_json _ = Ok _ |- ?k <> _ => intros ->; by apply keys_nonempty in H end.
Qed.

Lemma host_required env name value :
  env_var env name = Some value -> value <> "" ->
  HostProcess.required (env_var env) name = Ok value.
Proof. intros H Hne. unfold HostProcess.required. rewrite H. simpl. by destruct value. Qed.

(** Look a name up in the environment of a host. *)
Ltac env_lookup :=
  unfold hostEnvironment;
  match goal with request : EnsureHostRequest, privateNetwork : bool |- _ =>
    destruct (er_actor_entrypoint request) as [entrypoint |];
      [destruct (is_empty entrypoint) |]; destruct privateNetwork; reflexivity
  end.

(** The next setting is required, and there. *)
Ltac required_step :=
  apply bind_Ok; eexists; split; [apply host_required; [env_lookup | try done] |].

(** The configuration a host reads from its sandbox's environment. *)
Definition host_config (request : EnsureHostRequest) (privateNetwork : bool) (address : SocketAddr)
    : ActorHostConfig (SocketAddr := SocketAddr) := {|
  HostProcess.control_plane_url := er_control_plane_url request;
  HostProcess.host_token := er_host_token request;
  HostProcess.jwt_public_keys := er_jwt_public_keys request;
  config_namespace_id := er_namespace_id request;
  config_host_id := er_host_id request; config_session_id := er_session_id request;
  executor_socket := "/tmp/durable-object-executor.sock";
  host_bind := address; host_route := None;
  public_route_file := if privateNetwork then None else Some hostRouteFile;
  private_hostname := if privateNetwork then Some modalPrivateHostname else None;
  route_file := if privateNetwork then Some hostRouteFile else None;
  HostProcess.jwt_issuer := er_jwt_issuer request;
  HostProcess.invocation_jwt_audience := er_invocation_jwt_audience request;
  HostProcess.jwt_max_lifetime := from_secs 1800;
  lease_duration := from_millis 30000; config_renew_every := from_millis 10000;
  host_idle_timeout := from_millis (er_host_idle_timeout_ms request) |}.

Lemma host_environment_values request privateNetwork :
  let value := env_var (hostEnvironment request privateNetwork) in
  value "DURABLE_OBJECT_HOST_ROUTE" = None /\
  value "DURABLE_OBJECT_HOST_PRIVATE_HOSTNAME"
    = (if privateNetwork then Some modalPrivateHostname else None) /\
  value "DURABLE_OBJECT_HOST_ROUTE_FILE" = (if privateNetwork then Some hostRouteFile else None) /\
  value "DURABLE_OBJECT_HOST_PUBLIC_ROUTE_FILE"
    = (if privateNetwork then None else Some hostRouteFile) /\
  value "DURABLE_OBJECT_HOST_BIND"
    = Some ((if privateNetwork then "[::]" else "0.0.0.0") +:+ ":" +:+ display_u64 hostPort) /\
  value "DURABLE_OBJECT_EXECUTOR_SOCKET" = Some "/tmp/durable-object-executor.sock" /\
  value "DURABLE_OBJECT_JWT_ISSUER" = Some (er_jwt_issuer request) /\
  value "DURABLE_OBJECT_INVOKE_JWT_AUDIENCE" = Some (er_invocation_jwt_audience request) /\
  value "DURABLE_OBJECT_JWT_MAX_TTL_SECONDS" = None /\
  value "DURABLE_OBJECT_LEASE_MS" = None /\ value "DURABLE_OBJECT_RENEW_MS" = None /\
  value "DURABLE_OBJECT_HOST_IDLE_TIMEOUT_MS"
    = Some (display_u64 (er_host_idle_timeout_ms request)).
Proof. split_and!; env_lookup. Qed.

Lemma host_environment_accepted request privateNetwork rest :
  ActorScope_validate {| scope_namespace_id := er_namespace_id request |} = Ok tt ->
  er_host_id request = "host.v1." +:+ er_namespace_id request +:+ "." +:+ rest ->
  uuid_ok (er_session_id request) = true ->
  er_host_token request <> "" -> er_jwt_public_keys request <> "" ->
  er_control_plane_url request <> "" ->
  (1 <= er_host_idle_timeout_ms request <= MAX_IDLE_TIMEOUT_MS)%Z ->
  exists address,
    HostProcess.from_lookup parse_socket_addr endpoint_from_shared
      (env_var (hostEnvironment request privateNetwork))
    = Ok (host_config request privateNetwork address).
Proof.
  intros Hscope Hhost Hsession Htoken Hkeys Hurl Hidle.
  assert (er_namespace_id request <> "") as Hns.
  { intros Hns. by rewrite Hns in Hscope. }
  assert (er_session_id request <> "") as Hne.
  { intros Heq. rewrite Heq in Hsession. destruct uuids as [_ ?]. congruence. }
  assert (exists address, parse_socket_addr
    ((if privateNetwork then "[::]" else "0.0.0.0") +:+ ":" +:+ display_u64 hostPort) = Ok address)
    as [address Haddress].
  { apply is_ok_spec, addresses. by destruct privateNetwork; [left | right]. }
  exists address. unfold HostProcess.from_lookup, duration_seconds, duration_ms, number_or.
  destruct (host_environment_values request privateNetwork)
    as (H1 & H2 & H3 & H4 & H5 & H6 & H7 & H8 & H9 & H10 & H11 & H12).
  do 4 required_step. apply bind_Ok; exists tt; split; [done |].
  required_step. { by rewrite Hhost. }
  apply bind_Ok; exists tt; split.
  { rewrite Hhost. apply ensure_Ok. apply starts_with_spec. exists rest.
    by rewrite !append_assoc. }
  required_step. apply bind_Ok; exists tt; split; [by rewrite Hsession |].
  rewrite H1, H2, H3, H4, H5, H6, H7, H8, H9, H10, H11, H12. cbn [or_default]. rewrite Haddress.
  rewrite parse_u64_display by (unfold MAX_IDLE_TIMEOUT_MS, u64_max in *; lia).
  do 4 (apply bind_Ok; exists tt; split; [by destruct privateNetwork |]).
  apply bind_Ok; exists address; split; [done |]. cbv zeta.
  apply bind_Ok; exists (from_secs 1800); split; [done |].
  apply bind_Ok; exists (from_millis 30000); split; [done |].
  apply bind_Ok; exists (from_millis 10000); split; [done |].
  apply bind_Ok; exists (from_millis (er_host_idle_timeout_ms request)); split.
  { simpl. by rewrite (proj2 (Z.ltb_lt 0 _)) by lia. }
  apply bind_Ok; exists tt; split.
  { apply ensure_Ok. rewrite as_millis_from_millis. apply Z.leb_le. apply Hidle. }
  done.
Qed.

(** C36: The configuration a control plane was started with is one its hosts start with: whatever the
    provisioner asks of the sandbox provider for a valid deployment, on a private network or not,
    the host launched with the environment made of it accepts its configuration, and has the
    namespace, identity, session and token it was issued, the control plane's URL, issuer and
    audience, and the idle timeout that was configured. *)
Theorem provisioned_host_configures config provider issuer spec region st st' request privateNetwork :
  from_lookup parse_socket_addr decode_buckets url_to_string get = Ok config ->
  sandbox_provider config = Some provider ->
  HostLaunchSpec_validate spec = Ok tt ->
  sandbox_request {| runtime := provider_runtime provider; provisioner_issuer := issuer |}
    spec region st = (st', Ok request) ->
  process_role (env_var (hostEnvironment request privateNetwork) "DURABLE_OBJECT_PROCESS_ROLE")
    = Ok RunHost /\
  exists address host,
    HostProcess.from_lookup parse_socket_addr endpoint_from_shared
      (env_var (hostEnvironment request privateNetwork)) = Ok host /\
    host = host_config request privateNetwork address /\
    config_namespace_id host = spec_namespace_id spec /\
    starts_with (config_host_id host) ("host.v1." +:+ spec_namespace_id spec +:+ ".") = true /\
    HostProcess.jwt_issuer host = cp_jwt_issuer config /\
    HostProcess.invocation_jwt_audience host = cp_invocation_audience config /\
    HostProcess.control_plane_url host = Sandbox.control_plane_url (provider_runtime provider) /\
    host_idle_timeout host
      = from_millis (Sandbox.host_idle_timeout_ms (provider_runtime provider)).
Proof.
  intros Hconfig Hprovider Hspec Hrequest.
  apply from_lookup_ok in Hconfig; [| done].
  destruct (ok_provider _ Hconfig _ Hprovider) as [_ Hurl Hissuer Haudience _ Hidle].
  apply sandbox_request_Ok in Hrequest
    as (Hns & (rest & Hhost) & Hsession & Htoken & Hkeys & Hcp & Hiss & Haud & Htimeout).
  simpl in *. rewrite <- Hns in *.
  destruct (host_environment_accepted request privateNetwork rest) as [address Hok].
  - unfold HostLaunchSpec_validate in Hspec. rewrite <- Hns in Hspec. by inv_ok.
  - done.
  - done.
  - done.
  - done.
  - rewrite Hcp. intros Hempty. destruct Hurl as (u & Hu & _). rewrite Hempty in Hu.
    by rewrite Hu in no_empty_url.
  - by rewrite Htimeout.
  - split; [done |]. exists address, (host_config request privateNetwork address). simpl.
    split_and!; try congruence; [done |]. rewrite Hhost. apply starts_with_spec. exists rest.
    by rewrite !append_assoc.
Qed.
End Provisioned.

(** ** A small deployment *)

Definition sample_url : Url :=
  {| scheme := "https"; host_str := Some "cp"; username := ""; password := None; path := "/";
     url_query := None; fragment := None |}.
#[local] Instance one_url : UrlParser := {|
  url_parse value := if String.eqb value "https://cp/" then Ok sample_url else Err ["not a URL"] |}.
Definition write_url (u : Url) : string := "https://cp/".

Lemma one_url_round_trip value u : url_parse value = Ok u -> url_parse (write_url u) = Ok u.
Proof. simpl. by destruct (String.eqb _ _). Defined.

Definition sample_settings : list (string * string) := [
  ("DURABLE_OBJECT_JWT_SIGNING_KEY", "000"); ("DURABLE_OBJECT_ADMIN_TOKEN", "admin-token");
  ("DURABLE_OBJECT_STANDARD_BUCKETS", "us-east=actors");
  ("DURABLE_OBJECT_POSTGRES_URL", "postgresql://localhost/actors");
  ("DURABLE_OBJECT_SANDBOX_PROVIDER", "modal"); ("MODAL_TOKEN_ID", "id");
  ("MODAL_TOKEN_SECRET", "secret"); ("DURABLE_OBJECT_CONTROL_PLANE_URL", "https://cp/");
  ("DURABLE_OBJECT_HOST_IDLE_TIMEOUT_MS", "120000");
  ("DURABLE_OBJECT_SOCKET_AUTH_URL", "https://cp/"); ("DURABLE_OBJECT_SOCKET_AUTH_TOKEN", "")].
Definition sample_buckets (text : string) : anyhow (gmap string string) :=
  match split_char "="%char text with
  | [region; bucket] => Ok {[ region := bucket ]}
  | _ => Err ["not a bucket map"]
  end.

Section Sample.
#[local] Instance still : Surroundings := {|
  weather n := {| others db := db; now := 1000000; later := 1000000; fault := NoFault |};
  clock _ _ := Some 1000000%Z; uuid _ _ := "00000000-0000-4000-8000-000000000001";
  nonce _ := "0123456789abcdef0123456789abcdef"; fresh _ := true |}.
(** Keys written as themselves. *)
#[local] Instance plain_base64 : Base64 :=
  {| base64_decode s := Ok (Ascii.byte_of_ascii <$> String.list_ascii_of_string s) |}.
#[local] Instance no_sandboxes : SandboxProvider := {|
  provider_ensure_host _ _ := Err ["no host"]; provider_public_host_route _ _ := Err ["no route"];
  provider_warm_image _ _ := Err ["no image"]; provider_terminate_hosts _ _ := Err ["no hosts"] |}.

Definition sample_issuer_of : ActorJwtIssuer (J := spelled_jwt) :=
  {| encoding_key := "000" : @EncodingKey spelled_jwt; public_key := ("primary", "000");
     key_id := "primary"; issuer := DEFAULT_JWT_ISSUER;
     authority_audience := DEFAULT_AUTHORITY_AUDIENCE;
     invocation_audience := DEFAULT_INVOCATION_AUDIENCE; issuer_max_lifetime := from_secs 1800 |}.

(** Everything is there; with a socket endpoint, everything but its token. *)
Lemma accepted_configuration_assembles_witness :
  (exists config,
     from_lookup (@Ok Error string) sample_buckets write_url (env_var (take 9 sample_settings)) = Ok config /\
     is_ok (control_plane_routes (fun _ => Ok ()) (Ok ()) config) = true) /\
  (exists config,
     from_lookup (@Ok Error string) sample_buckets write_url (env_var sample_settings) = Ok config /\
     is_ok (control_plane_routes (fun _ => Ok ()) (Ok ()) config) = false).
Proof.
  split.
  - eassert (from_lookup (@Ok Error string) sample_buckets write_url
               (env_var (take 9 sample_settings)) = Ok _) as H by (vm_compute; reflexivity).
    eexists. split; [exact H |].
    rewrite (accepted_configuration_assembles _ _ _ _ _ _ one_url_round_trip _ H).
    split; [| split; [reflexivity | split; [reflexivity | split; [| split]]]].
    + exists sample_issuer_of, "primary:000". split; [reflexivity |].
      split; [reflexivity | reflexivity].
    + simpl. intros p [= <-]. split; [discriminate | vm_compute; reflexivity].
    + simpl. discriminate.
    + simpl. discriminate.
  - eassert (from_lookup (@Ok Error string) sample_buckets write_url (env_var sample_settings) = Ok _)
      as H by (vm_compute; reflexivity).
    eexists. split; [exact H |].
    apply not_true_iff_false. rewrite (accepted_configuration_assembles _ _ _ _ _ _ one_url_round_trip _ H).
    intros (_ & _ & _ & _ & _ & Htoken). by eapply Htoken.
Defined.

Lemma spelled_keys_nonempty issuer : verifier_keys_json issuer <> Ok "".
Proof.
  unfold verifier_keys_json, jwks_json. simpl. unfold from_utf8. intros H. inv_ok.
  by destruct (public_key issuer) as [[] key].
Qed.

Definition sample_spec : HostLaunchSpec :=
  {| spec_namespace_id := "acme"; spec_code_revision := "r1"; Admin.image_ref := "im-1";
     Admin.working_directory := "/app"; Admin.actor_entrypoint := Some "actors.js" |}.
Definition sample_state : PgState := {| database := empty_database; Database.statements := 0 |}.
Definition sample_provider : SandboxProviderConfig :=
  {| provider_name := "modal"; command := "little-durable-objects-modal";
     environment := [("MODAL_TOKEN_ID", "id"); ("MODAL_TOKEN_SECRET", "secret")];
     provider_runtime := {|
       Sandbox.control_plane_url := "https://cp/"; Sandbox.jwt_issuer := DEFAULT_JWT_ISSUER;
       Sandbox.invocation_jwt_audience := DEFAULT_INVOCATION_AUDIENCE;
       Sandbox.actor_idle_timeout_ms := 60000; Sandbox.host_idle_timeout_ms := 120000 |} |}.

Lemma provisioned_host_configures_witness :
  exists request host,
    HostProcess.from_lookup (@Ok Error string) (fun _ => Ok (None, None))
      (env_var (hostEnvironment request false)) = Ok host /\
    config_namespace_id host = "acme" /\ host_idle_timeout host = from_millis 120000.
Proof.
  eassert (from_lookup (@Ok Error string) sample_buckets write_url
             (env_var (take 9 sample_settings)) = Ok _) as H by (vm_compute; reflexivity).
  destruct (sandbox_request {| runtime := provider_runtime sample_provider;
      provisioner_issuer := sample_issuer_of |} sample_spec "us-east" sample_state)
    as [st' [request | e]] eqn:Hr.
  - assert ((forall n k, uuid_ok (uuid n k) = true) /\ uuid_ok "" = false) as Hu
      by (split; [by intros | done]).
    destruct (provisioned_host_configures (@Ok Error string) sample_buckets write_url
      (fun _ => Ok (None, None)) _ one_url_round_trip Hu eq_refl spelled_keys_nonempty
      (fun _ _ => eq_refl) _ sample_provider _ sample_spec _ _ _ _ false H eq_refl eq_refl Hr)
      as (_ & ? & host & Hok & _ & Hns & _ & _ & _ & _ & Hidle).
    exists request, host. exact (conj Hok (conj Hns Hidle)).
  - exfalso. assert (is_ok (@Err Error EnsureHostRequest e) = true) as Hno; [| done].
    change (Err e) with (st', @Err Error EnsureHostRequest e).2. rewrite <- Hr. vm_compute. reflexivity.
Defined.
End Sample.
