(* ===== verification/Entry.v ===== *)
(** * The program's entry points

    [src/main.rs] and the serving half of [src/control_plane/process.rs]: which
    process the environment asks for, the control plane's start over its
    assembled parts, the signal that ends a process, and the public HTTP surface
    ([HttpRouter]) of an assembled control plane.  Binding a listener, axum's
    server, the signals and standard input are the environment's. *)
From S2P Require Import Prelude Net Json Identity SocketProtocol StorageUrls Sandbox Tokens.
From S2P Require Import Database Admin ControlPlane SocketGateway PublicApi HttpRouter.
From S2P Require Import ControlPlaneProcess.
Local Open Scope string_scope.

(** ** The service's builders *)

Section Builders.
Context {E : Surroundings} {T : Jwt}.

(** [ControlPlaneService::new] *)
Definition ControlPlaneService_new (storage_urls : GcsStorageUrlSigner) (auth : ActorJwtVerifier)
    : ControlPlaneService :=
  {| ControlPlane.storage_urls := storage_urls; ControlPlane.auth := auth;
     host_token_issuer := None; routing := None |}.

(** [ControlPlaneService::with_routing] *)
Definition with_routing (registry : AdminRegistry) (issuer : ActorJwtIssuer)
    (provisioner : option HostProvisioner) (service : ControlPlaneService) : ControlPlaneService :=
  {| ControlPlane.storage_urls := ControlPlane.storage_urls service;
     ControlPlane.auth := ControlPlane.auth service;
     host_token_issuer := Some issuer;
     routing := Some {| ControlPlane.registry := registry; ControlPlane.provisioner := provisioner |} |}.
End Builders.

(** ** Events for the application *)

Section Sink.
Context {J : Json} {B : Base64}.

(** [HttpSocketMessageEventSink::deliver]: [post] is the HTTP client with the
    sink's bearer token. *)
Definition deliver (post : string -> string -> SocketMessageEvent -> anyhow HttpResponse)
    (sink : HttpSocketMessageEventSink) (event : SocketMessageEvent) : anyhow () :=
  response ← post (event_sink_url sink) (event_sink_token sink) event;
  with_context "socket event sink rejected the event" (error_for_status response);;
  Ok ().

(** An event is delivered when the application answers with neither a client nor
    a server error, and only to the URL and with the token of the configuration. *)
Lemma deliver_Ok post sink event :
  deliver post sink event = Ok tt <->
  exists response, post (event_sink_url sink) (event_sink_token sink) event = Ok response /\
    (http_status response < 400 \/ 600 <= http_status response)%Z.
Proof.
  unfold deliver, error_for_status. split.
  - intros H. inv_ok. bool_prop. eexists. split; [done |].
    match goal with H : _ && _ = false |- _ => apply andb_false_iff in H as [H | H] end; bool_prop; lia.
  - intros (response & -> & Hst). simpl.
    assert ((400 <=? http_status response) && (http_status response <? 600) = false)%Z as ->; [| done].
    apply andb_false_iff. rewrite Z.leb_gt, Z.ltb_ge. lia.
Qed.
End Sink.

(** ** Serving the control plane *)

Section Serving.
Context {E : Surroundings} {T : Jwt} {J : Json} {B : Base64} {Parser : UrlParser}
        {Signer : UrlSigner} {P : SandboxProvider} {A : Axum}.
Context {SocketAddr Listener : Type}.
Context (connect : string -> anyhow ()) (build_signer : anyhow ()).

(** [serve_control_plane] and [serve_routes]: [tcp_bind] is [TcpListener::bind],
    [axum_serve] the server until its graceful shutdown. *)
Definition serve_control_plane (tcp_bind : SocketAddr -> anyhow Listener)
    (axum_serve : Listener -> ControlPlaneParts -> anyhow ())
    (config : ControlPlaneProcessConfig (SocketAddr := SocketAddr)) : anyhow () :=
  parts ← control_plane_routes connect build_signer config;
  listener ← with_context "bind durable-object control plane" (tcp_bind (bind config));
  with_context "serve durable-object control plane" (axum_serve listener parts).

(** The public half of [control_plane_routes]: [public_api::router] over the
    service, with the authenticator [with_socket_authenticator] gave it. *)
Definition public_api (parse_response : bytes -> anyhow SocketAuthorizationResponse)
    (post : string -> string -> SocketAuthorizationRequest -> anyhow HttpResponse)
    (value_from_slice : bytes -> anyhow Value) (now : anyhow Z) (decode_at : Z) (elapsed : option Z)
    (uuid1 uuid2 : string) (fuel : nat) (parts : ControlPlaneParts)
    : HttpRequest -> ServerState -> ServerState * option Answer :=
  serve (service parts) (PostgresAdminRegistry weather) (admin parts)
    ((fun a => authorize parse_response post a now) <$> authenticator parts)
    value_from_slice decode_at elapsed uuid1 uuid2 fuel.

Lemma transpose_Some {X Y} (f : X -> anyhow Y) o y :
  transpose f o = Ok y -> o = None <-> y = None.
Proof. destruct o; simpl; intros H; inv_ok; split; done. Qed.

(** The assembled service is the builders'. *)
Lemma assembled_service (config : ControlPlaneProcessConfig (SocketAddr := SocketAddr)) parts :
  control_plane_routes connect build_signer config = Ok parts ->
  (exists storage_urls auth issuer provisioner,
     service parts = with_routing (PostgresAdminRegistry weather) issuer provisioner
                       (ControlPlaneService_new storage_urls auth) /\
     admin_issuer (admin parts) = issuer) /\
  (authenticator parts = None <-> socket_authenticator config = None) /\
  (socket_events parts = None <-> socket_event_sink config = None).
Proof.
  intros H. unfold control_plane_routes in H. inv_ok. simpl.
  repeat match goal with H : transpose _ _ = Ok _ |- _ => apply transpose_Some in H end.
  split_and!; [| by symmetry | by symmetry].
  do 4 eexists. split; [reflexivity |].
  match goal with H : AdminService_new _ _ = Ok _ |- _ => unfold AdminService_new in H end.
  by inv_ok.
Qed.

(** Without an authenticator in the configuration no browser gets a socket: a
    handshake at [/v1/socket] changes nothing and is answered 401 or 503. *)
Lemma no_authenticator_no_browsers {Laws : AxumLaws A} parse_response post value_from_slice now
    decode_at elapsed uuid1 uuid2 fuel
    (config : ControlPlaneProcessConfig (SocketAddr := SocketAddr)) parts request route params st :
  control_plane_routes connect build_signer config = Ok parts ->
  socket_authenticator config = None ->
  routed request route params -> route_endpoint route = ConnectExternal ->
  extracted route params request ->
  exists response,
    public_api parse_response post value_from_slice now decode_at elapsed uuid1 uuid2 fuel parts
      request st = (st, Some (Respond response)) /\
    denied ConnectExternal (response_status response).
Proof.
  intros (_ & Hauth & _)%assembled_service Hnone Hr Hroute Hex. apply Hauth in Hnone.
  unfold public_api. rewrite Hnone. simpl.
  destruct (serve_denied (service parts) (PostgresAdminRegistry weather) (admin parts) None
    value_from_slice decode_at elapsed uuid1 uuid2 fuel route params request st) as (response & Hserve & Hd);
    [exact Hr | exact Hex | |].
  - rewrite Hroute. destruct params as [| a [| b [|]]]; simpl;
      first [by intros [] | by intros (? & ? & ? & [=] & _)].
  - exists response. split; [exact Hserve |]. by rewrite Hroute in Hd.
Qed.
End Serving.

(** ** The process *)

(** [run] of [main.rs], over the two processes it can become. *)
Definition run (environment : list (string * string)) (control_plane host : anyhow ()) : anyhow () :=
  role ← process_role (env_var environment "DURABLE_OBJECT_PROCESS_ROLE");
  match role with
  | RunControlPlane => control_plane
  | RunHost => host
  end.

(** [main]: the exit status. *)
Definition exit_status (result : anyhow ()) : Z := if is_ok result then 0 else 1.

(** What the process can hear of its end: the signal, and what reading one byte
    of standard input gives ([None]: an error). *)
Inductive LifetimeEvent := CtrlC | StdinRead (bytes_read : option Z).

(** [wait_for_parent_stdin_close] at one read: whether it returns. *)
Definition stdin_closed (bytes_read : option Z) : bool :=
  match bytes_read with
  | Some n => (n =? 0)%Z
  | None => true
  end.

Inductive ShutdownReason := ShutdownSignal | ParentExited.

(** [shutdown_signal]: standard input is read only under
    [DURABLE_OBJECT_PARENT_LIFETIME_STDIN]; [None] while it waits. *)
Fixpoint shutdown_signal (parent_lifetime : bool) (events : list LifetimeEvent)
    : option ShutdownReason :=
  match events with
  | [] => None
  | CtrlC :: _ => Some ShutdownSignal
  | StdinRead n :: events =>
      if parent_lifetime && stdin_closed n then Some ParentExited
      else shutdown_signal parent_lifetime events
  end.

(** A process is told to stop by the signal or, when a parent asked for it, by
    the end of its standard input, and by nothing it reads from there. *)
Lemma shutdown_signal_None parent_lifetime events :
  shutdown_signal parent_lifetime events = None <->
  (CtrlC ∉ events) /\
  (parent_lifetime = true -> forall n, StdinRead n ∈ events -> stdin_closed n = false).
Proof.
  induction events as [| event events IH]; simpl.
  - split; [| done]. intros _. split; [apply not_elem_of_nil | intros _ n H; by apply not_elem_of_nil in H].
  - destruct event as [| n].
    + split; [done |]. intros [H _]. exfalso. apply H. left.
    + destruct (parent_lifetime && stdin_closed n) eqn:Hc.
      * bool_prop. split; [done |]. intros [_ Hnot]. subst.
        rewrite (Hnot eq_refl n) in *; [done | left].
      * rewrite IH, not_elem_of_cons. setoid_rewrite elem_of_cons.
        split; intros [H1 H2]; split; [done | | tauto |]; intros Hp m; subst; simpl in Hc.
        { intros [[= ->] | Hm]; [done | by apply H2]. }
        { intros Hm. apply H2; [done | by right]. }
Qed.
