(* ===== verification/Fencing.v ===== *)
(** * Fencing: what the stores guarantee together

    All processes share the lease and the placement tables.  [step] is one
    statement of any of them at the database's clock, with the events it
    causes; [Ledger] is the abstract system those events describe: leases held
    by one session at a time and one linear history of states per actor. *)
From S2P Require Import Prelude Identity Database Leases Placement.
Local Open Scope string_scope.

(** ** Events and the abstract ledger *)

Inductive Event :=
| LeaseGranted (host session : string) (at_ms expires_at_ms : Z)
| LeaseReleased (host session : string)
| OwnerPlaced (obj owner : string) (epoch : Z)
| HeadCommitted (obj owner session : string) (epoch version : Z)
    (state_object request_id : string) (at_ms : Z).

Record Register := {
  reg_owner : HostId;
  reg_epoch : Z;
  reg_version : Z;
  reg_head : option (string * string);
}.

Record Ledger := {
  led_leases : gmap HostId (string * Z);
  led_registers : gmap ActorStorageKey Register;
}.
Definition empty_ledger : Ledger := {| led_leases := ∅; led_registers := ∅ |}.

Definition ledger_lease (f : gmap HostId (string * Z) -> gmap HostId (string * Z)) (l : Ledger) :=
  {| led_leases := f (led_leases l); led_registers := led_registers l |}.
Definition ledger_register
    (f : gmap ActorStorageKey Register -> gmap ActorStorageKey Register) (l : Ledger) :=
  {| led_leases := led_leases l; led_registers := f (led_registers l) |}.

(** No other session holds [h] at [at_ms]. *)
Definition lease_free (l : Ledger) (h s : string) (at_ms : Z) : bool :=
  match led_leases l !! h with
  | Some (s', e') => bool_decide (s' = s) || (e' <=? at_ms)%Z
  | None => true
  end.

(** The contract, event by event: an event the contract forbids gives [None]. *)
Definition apply_event (l : Ledger) (e : Event) : option Ledger :=
  match e with
  | LeaseGranted h s at_ms expires =>
      guard (expires <= at_ms + MAX_HOST_LEASE_DURATION_MS)%Z;;
      guard (lease_free l h s at_ms = true);;
      Some (ledger_lease <[ h := (s, expires) ]> l)
  | LeaseReleased h s =>
      '(s', _) ← led_leases l !! h;
      guard (s' = s);;
      Some (ledger_lease (delete h) l)
  | OwnerPlaced obj owner epoch =>
      match led_registers l !! obj with
      | None =>
          guard (epoch = 1)%Z;;
          Some (ledger_register <[ obj := {| reg_owner := owner; reg_epoch := 1;
                  reg_version := 0; reg_head := None |} ]> l)
      | Some r =>
          guard (epoch = reg_epoch r + 1)%Z;;
          Some (ledger_register <[ obj := {| reg_owner := owner; reg_epoch := epoch;
                  reg_version := reg_version r; reg_head := reg_head r |} ]> l)
      end
  | HeadCommitted obj owner session epoch version so rq at_ms =>
      r ← led_registers l !! obj;
      '(s, expires) ← led_leases l !! owner;
      guard (reg_owner r = owner /\ reg_epoch r = epoch /\ version = reg_version r + 1 /\
             s = session /\ at_ms < expires)%Z;;
      Some (ledger_register <[ obj := {| reg_owner := owner; reg_epoch := epoch;
              reg_version := version; reg_head := Some (so, rq) |} ]> l)
  end.

Fixpoint apply_events (l : Ledger) (es : list Event) : option Ledger :=
  match es with
  | [] => Some l
  | e :: es' => l' ← apply_event l e; apply_events l' es'
  end.

(** ** Statements as steps of the shared system *)

Inductive step : Z * Database -> list Event -> Z * Database -> Prop :=
| StepTick t t' db : (t <= t')%Z -> step (t, db) [] (t', db)
| StepRegister t now later db db' h s route d o :
    (t <= now <= later)%Z -> (1 <= d <= MAX_HOST_LEASE_DURATION_MS)%Z ->
    upsert_lease h s route d now later db = Ok (db', o) ->
    step (t, db) (match o with Some e => [LeaseGranted h s later e] | None => [] end) (later, db')
| StepUnregister t db db' h s n :
    delete_lease h s t t db = Ok (db', n) ->
    step (t, db) (if (n =? 1)%Z then [LeaseReleased h s] else []) (t, db')
| StepInsert t db db' obj owner region o :
    insert_placement obj owner region t t db = Ok (db', o) ->
    step (t, db) (match o with Some _ => [OwnerPlaced obj owner 1] | None => [] end) (t, db')
| StepTransfer t db db' obj owner expected epoch region o :
    transfer_placement obj owner expected epoch region t t db = Ok (db', o) ->
    step (t, db)
      (match o with Some _ => [OwnerPlaced obj owner (epoch + 1)] | None => [] end) (t, db')
| StepCommit t db db' r o :
    state_head_update r t t db = Ok (db', o) ->
    step (t, db)
      (match o with
       | Some _ => [HeadCommitted (sc_object r) (sc_owner r) (sc_session_id r)
                      (sc_owner_epoch r) (sc_expected_version r + 1)
                      (sc_state_object r) (sc_request_id r) t]
       | None => [] end) (t, db')
| StepDeploy t db db' ns spec n :
    upsert_project_spec ns spec t t db = Ok (db', n) -> step (t, db) [] (t, db').

Inductive steps : Z * Database -> list Event -> Z * Database -> Prop :=
| StepsNil s : steps s [] s
| StepsCons s1 s2 s3 es es' : step s1 es s2 -> steps s2 es' s3 -> steps s1 (es ++ es') s3.

(** Everything that can have happened since the migrations created the tables. *)
Definition reachable (es : list Event) (t : Z) (db : Database) : Prop :=
  exists t0, steps (t0, empty_database) es (t, db).

Lemma steps_one s es s' : step s es s' -> steps s es s'.
Proof. intros H. rewrite <- (app_nil_r es). econstructor; [exact H | constructor]. Qed.

Lemma steps_app s1 s2 s3 es es' :
  steps s1 es s2 -> steps s2 es' s3 -> steps s1 (es ++ es') s3.
Proof.
  induction 1 as [| s1 s2 s2' es1 es2 H Hs IH]; intros H3; [done |].
  rewrite <- app_assoc. econstructor; eauto.
Qed.

Lemma apply_events_app l es es' :
  apply_events l (es ++ es') = apply_events l es ≫= fun l' => apply_events l' es'.
Proof.
  revert l. induction es as [| e es IH]; intros l; simpl; [done |].
  destruct (apply_event l e); simpl; auto.
Qed.

(** ** Refinement *)

Definition register_of (row : PlacementRow) : Register :=
  {| reg_owner := row_owner_host_id row; reg_epoch := row_owner_epoch row;
     reg_version := row_state_version row;
     reg_head := '(so) ← row_state_object row; rq ← row_last_request_id row; Some (so, rq) |}.
Definition lease_of (row : LeaseRow) : string * Z :=
  (row_session_id row, row_expires_at_ms row).

Definition ledger_of (db : Database) : Ledger :=
  {| led_leases := lease_of <$> host_leases db; led_registers := register_of <$> placements db |}.

Lemma ledger_of_set_lease db h row :
  ledger_of (set_lease <[ h := row ]> db) = ledger_lease <[ h := lease_of row ]> (ledger_of db).
Proof. unfold ledger_of, set_lease, ledger_lease. simpl. by rewrite fmap_insert. Qed.

Lemma ledger_of_delete_lease db h :
  ledger_of (set_lease (delete h) db) = ledger_lease (delete h) (ledger_of db).
Proof. unfold ledger_of, set_lease, ledger_lease. simpl. by rewrite fmap_delete. Qed.

Lemma ledger_of_set_placement db obj row :
  ledger_of (set_placements <[ obj := row ]> db) =
  ledger_register <[ obj := register_of row ]> (ledger_of db).
Proof. unfold ledger_of, set_placements, ledger_register. simpl. by rewrite fmap_insert. Qed.

(** [guard] opens when its condition holds. *)
Lemma guard_true {A} (P : Prop) `{Decision P} (k : P -> option A) x :
  P -> (forall p, k p = Some x) -> (guard P ≫= k) = Some x.
Proof. intros HP Hk. case_guard; simpl; [done | contradiction]. Qed.

Ltac open_guards := repeat (apply guard_true; [| intros _]).

Lemma upsert_lease_event now later db db' h s route d o :
  (now <= later)%Z -> (1 <= d <= MAX_HOST_LEASE_DURATION_MS)%Z ->
  upsert_lease h s route d now later db = Ok (db', o) ->
  match o with
  | Some e => apply_event (ledger_of db) (LeaseGranted h s later e) = Some (ledger_of db')
  | None => ledger_of db' = ledger_of db
  end.
Proof.
  intros Ht Hd H. unfold upsert_lease in H. inv_statement; try done;
    rewrite ledger_of_set_lease; simpl; open_guards; try done; try lia;
    unfold lease_free; simpl; rewrite lookup_fmap;
    match goal with H : host_leases db !! _ = _ |- _ => rewrite H end; simpl; done.
Qed.

Lemma delete_lease_event now later db db' h s n :
  delete_lease h s now later db = Ok (db', n) ->
  if (n =? 1)%Z
  then apply_event (ledger_of db) (LeaseReleased h s) = Some (ledger_of db')
  else ledger_of db' = ledger_of db.
Proof.
  intros H. unfold delete_lease in H. inv_statement; try done; simpl.
  rewrite ledger_of_delete_lease, lookup_fmap.
  match goal with H : host_leases db !! _ = _ |- _ => rewrite H end. simpl.
  by open_guards.
Qed.

Lemma insert_placement_event now later db db' obj owner region o :
  insert_placement obj owner region now later db = Ok (db', o) ->
  match o with
  | Some _ => apply_event (ledger_of db) (OwnerPlaced obj owner 1) = Some (ledger_of db')
  | None => ledger_of db' = ledger_of db
  end.
Proof.
  intros H. unfold insert_placement in H. inv_statement; try done. simpl.
  rewrite ledger_of_set_placement, lookup_fmap.
  match goal with H : placements db !! _ = _ |- _ => rewrite H end. simpl. by open_guards.
Qed.

Lemma transfer_placement_event now later db db' obj owner expected epoch region o :
  transfer_placement obj owner expected epoch region now later db = Ok (db', o) ->
  match o with
  | Some _ => apply_event (ledger_of db) (OwnerPlaced obj owner (epoch + 1))
              = Some (ledger_of db')
  | None => ledger_of db' = ledger_of db
  end.
Proof.
  intros H. unfold transfer_placement in H. inv_statement; try done. simpl.
  rewrite ledger_of_set_placement, lookup_fmap.
  match goal with H : placements db !! _ = _ |- _ => rewrite H end. simpl.
  subst; by open_guards.
Qed.

Lemma update_state_head_event now later db db' r o :
  state_head_update r now later db = Ok (db', o) ->
  match o with
  | Some _ => apply_event (ledger_of db)
      (HeadCommitted (sc_object r) (sc_owner r) (sc_session_id r) (sc_owner_epoch r)
         (sc_expected_version r + 1) (sc_state_object r) (sc_request_id r) now)
      = Some (ledger_of db')
  | None => ledger_of db' = ledger_of db
  end.
Proof.
  destruct o as [row' |]; intros H;
    [| apply update_state_head_None in H as [-> _]; done].
  apply update_state_head_Some in H as ((row & Hp & Ho & He & Hv & l & Hl & Hs & Ht) & row0 & Hp' & -> & -> & _).
  simplify_eq. simpl. rewrite ledger_of_set_placement, !lookup_fmap, Hp. simpl. rewrite Hl. simpl.
  open_guards; [repeat split; (done || congruence || lia) | done].
Qed.

Lemma upsert_project_spec_event now later db db' ns spec n :
  upsert_project_spec ns spec now later db = Ok (db', n) -> ledger_of db' = ledger_of db.
Proof. intros H. unfold upsert_project_spec in H. by inv_statement. Qed.

Lemma step_refines s es s' :
  step s es s' -> apply_events (ledger_of s.2) es = Some (ledger_of s'.2).
Proof.
  assert (Hone : forall db db' e (b : bool),
    (if b then apply_event (ledger_of db) e = Some (ledger_of db')
     else ledger_of db' = ledger_of db) ->
    apply_events (ledger_of db) (if b then [e] else []) = Some (ledger_of db')).
  { intros db db' e [] H; cbn [apply_events]; [by rewrite H | by rewrite H]. }
  destruct 1; cbn [fst snd].
  - done.
  - apply upsert_lease_event in H1; [| lia | done].
    destruct o; [by apply (Hone _ _ _ true) | by apply (Hone _ _ (LeaseReleased "" "") false)].
  - apply Hone. by eapply delete_lease_event.
  - apply insert_placement_event in H.
    destruct o; [by apply (Hone _ _ _ true) | by apply (Hone _ _ (LeaseReleased "" "") false)].
  - apply transfer_placement_event in H.
    destruct o; [by apply (Hone _ _ _ true) | by apply (Hone _ _ (LeaseReleased "" "") false)].
  - apply update_state_head_event in H.
    destruct o; [by apply (Hone _ _ _ true) | by apply (Hone _ _ (LeaseReleased "" "") false)].
  - apply upsert_project_spec_event in H. by rewrite H.
Qed.

Lemma steps_refine s es s' :
  steps s es s' -> apply_events (ledger_of s.2) es = Some (ledger_of s'.2).
Proof.
  induction 1 as [s | s1 s2 s3 es es' H Hs IH]; [done |].
  by rewrite apply_events_app, (step_refines _ _ _ H).
Qed.

Lemma ledger_of_empty : ledger_of empty_database = empty_ledger.
Proof. unfold ledger_of, empty_ledger. simpl. by rewrite !fmap_empty. Qed.

(** C15: the stores implement the ledger.  Whatever the processes do, in any
    interleaving, the events that happened are allowed by the contract one
    after the other, and the tables are what those events add up to. *)
Theorem stores_refine_ledger (es : list Event) (t : Z) (db : Database)
    (H : reachable es t db) :
  apply_events empty_ledger es = Some (ledger_of db).
Proof.
  destruct H as [t0 H]. apply steps_refine in H. simpl in H. by rewrite ledger_of_empty in H.
Qed.

(** ** One linear history per actor *)

Definition committed_versions (obj : ActorStorageKey) (es : list Event) : list Z :=
  omap (fun e => match e with
                 | HeadCommitted o _ _ _ version _ _ _ =>
                     if decide (o = obj) then Some version else None
                 | _ => None
                 end) es.

Definition last_head (obj : ActorStorageKey) (start : option (string * string))
    (es : list Event) : option (string * string) :=
  foldl (fun h e => match e with
                    | HeadCommitted o _ _ _ _ so rq _ =>
                        if decide (o = obj) then Some (so, rq) else h
                    | _ => h
                    end) start es.

Definition reg_version_of (l : Ledger) (obj : ActorStorageKey) : Z :=
  match led_registers l !! obj with Some r => reg_version r | None => 0 end.
Definition reg_head_of (l : Ledger) (obj : ActorStorageKey) : option (string * string) :=
  led_registers l !! obj ≫= reg_head.

Lemma guard_Some {A} (P : Prop) `{Decision P} (k : P -> option A) x :
  (guard P ≫= k) = Some x -> exists p, k p = Some x.
Proof. intros Hk. case_guard; simpl in Hk; [eauto | done]. Qed.

(** Run an allowed event backwards. *)
Ltac inv_event :=
  repeat match goal with
  | H : (guard _ ≫= _) = Some _ |- _ => apply guard_Some in H as [? H]; cbn beta in H
  | H : Some _ = Some _ |- _ => injection H as H; try subst
  | H : _ /\ _ |- _ => destruct H
  end.

Lemma apply_event_register l e l' obj :
  apply_event l e = Some l' ->
  committed_versions obj [e] = seqZ (reg_version_of l obj + 1)
                                 (reg_version_of l' obj - reg_version_of l obj) /\
  (reg_version_of l obj <= reg_version_of l' obj)%Z /\
  reg_head_of l' obj = last_head obj (reg_head_of l obj) [e].
Proof.
  unfold reg_version_of, reg_head_of. intros H.
  destruct e as [h s a x | h s | o ow ep | o ow s ep v so rq a]; simpl in H.
  - inv_event. simpl. rewrite Z.sub_diag. done.
  - destruct (led_leases l !! h) as [[s' e'] |]; [| done]. simpl in H. inv_event. simpl.
    rewrite Z.sub_diag. done.
  - destruct (led_registers l !! o) as [r |] eqn:E; inv_event; simpl;
      (destruct (decide (obj = o)) as [-> | Hne];
       [rewrite lookup_insert_eq, E | rewrite lookup_insert_ne by done]; simpl;
       rewrite Z.sub_diag; done).
  - destruct (led_registers l !! o) as [r |] eqn:E; [| done]. simpl in H.
    destruct (led_leases l !! ow) as [[s' e'] |]; [| done]. simpl in H. inv_event. simpl.
    unfold committed_versions. simpl.
    destruct (decide (o = obj)) as [-> | Hne]; simpl.
    + rewrite lookup_insert_eq, E. simpl. subst v.
      replace (reg_version r + 1 - reg_version r)%Z with 1%Z by lia. split; [done |].
      split; [lia | done].
    + rewrite lookup_insert_ne by done. rewrite Z.sub_diag. done.
Qed.

Lemma apply_events_register es l l' obj :
  apply_events l es = Some l' ->
  committed_versions obj es = seqZ (reg_version_of l obj + 1)
                                (reg_version_of l' obj - reg_version_of l obj) /\
  (reg_version_of l obj <= reg_version_of l' obj)%Z /\
  reg_head_of l' obj = last_head obj (reg_head_of l obj) es.
Proof.
  revert l. induction es as [| e es IH]; intros l H; simpl in H.
  - simplify_eq. rewrite Z.sub_diag. done.
  - destruct (apply_event l e) as [l1 |] eqn:E; [| done]. simpl in H.
    apply (apply_event_register _ _ _ obj) in E as (Hv1 & Hle1 & Hh1).
    apply IH in H as (Hv2 & Hle2 & Hh2).
    change (e :: es) with ([e] ++ es)%list. unfold committed_versions, last_head in *.
    rewrite omap_app, foldl_app, Hv1, Hv2, Hh2, Hh1. split; [| split; [lia | done]].
    replace (reg_version_of l' obj - reg_version_of l obj)%Z
      with ((reg_version_of l1 obj - reg_version_of l obj)
            + (reg_version_of l' obj - reg_version_of l1 obj))%Z by lia.
    rewrite (seqZ_app _ (reg_version_of l1 obj - reg_version_of l obj)) by lia.
    do 2 f_equal. lia.
Qed.

(** C3: one linear history per actor.  The versions committed for an actor are
    exactly 1, 2, ..., n in commit order, n being the version the table shows:
    no version is committed twice, none is skipped, no commit is lost; and the
    table's snapshot object and request id are those of the last commit. *)
Theorem linear_history
    (es : list Event) (t : Z) (db : Database) (obj : ActorStorageKey) (row : PlacementRow)
    (H : reachable es t db) (Hrow : placements db !! obj = Some row) :
  committed_versions obj es = seqZ 1 (row_state_version row) /\
  (0 <= row_state_version row)%Z /\
  reg_head (register_of row) = last_head obj None es.
Proof.
  destruct H as [t0 H]. apply steps_refine in H. simpl in H. rewrite ledger_of_empty in H.
  apply (apply_events_register _ _ _ obj) in H as (Hv & Hle & Hh).
  unfold reg_version_of, reg_head_of in *. simpl in *.
  rewrite lookup_fmap, Hrow in *. simpl in *. rewrite lookup_empty in *. simpl in *.
  by rewrite Z.sub_0_r in Hv.
Qed.

(** A short run of the whole system: a host registers, places an actor and
    commits its first state; another host takes over and commits the second. *)
Definition commit_by (owner session : string) (epoch version : Z) (request : string)
    : StateCommitRequest := {|
  sc_object := "object.v1.n.t.i"; sc_owner := owner; sc_session_id := session;
  sc_owner_epoch := epoch; sc_expected_version := version;
  sc_state_object := "snapshots/" +:+ request; sc_request_id := request |}.

Definition takeover_events : list Event :=
  [LeaseGranted "host-a" "s1" 1000 31000;
   OwnerPlaced "object.v1.n.t.i" "host-a" 1;
   HeadCommitted "object.v1.n.t.i" "host-a" "s1" 1 1 "snapshots/r1" "r1" 1000;
   LeaseGranted "host-b" "s2" 40000 50000;
   OwnerPlaced "object.v1.n.t.i" "host-b" 2;
   HeadCommitted "object.v1.n.t.i" "host-b" "s2" 2 2 "snapshots/r2" "r2" 40000].

Definition takeover_row : PlacementRow := {|
  row_owner_host_id := "host-b"; row_owner_epoch := 2; row_home_region := "eu";
  row_state_version := 2; row_state_object := Some "snapshots/r2";
  row_last_request_id := Some "r2" |}.

Lemma takeover_reachable :
  exists db, reachable takeover_events 40000 db /\
             placements db !! "object.v1.n.t.i" = Some takeover_row.
Proof.
  eexists. split.
  - exists 1000%Z.
    eapply (StepsCons _ _ _ [_]).
    { eapply (StepRegister 1000 1000 1000 _ _ "host-a" "s1" "route" 30000 (Some 31000%Z));
        [lia | unfold MAX_HOST_LEASE_DURATION_MS; lia | vm_compute; reflexivity]. }
    eapply (StepsCons _ _ _ [_]).
    { eapply (StepInsert 1000 _ _ "object.v1.n.t.i" "host-a" "eu" (Some _)).
      vm_compute; reflexivity. }
    eapply (StepsCons _ _ _ [_]).
    { eapply (StepCommit 1000 _ _ (commit_by "host-a" "s1" 1 0 "r1") (Some _)).
      vm_compute; reflexivity. }
    eapply (StepsCons _ _ _ [_]).
    { eapply (StepRegister 1000 40000 40000 _ _ "host-b" "s2" "route" 10000 (Some 50000%Z));
        [lia | unfold MAX_HOST_LEASE_DURATION_MS; lia | vm_compute; reflexivity]. }
    eapply (StepsCons _ _ _ [_]).
    { eapply (StepTransfer 40000 _ _ "object.v1.n.t.i" "host-b" "host-a" 1 "eu" (Some _)).
      vm_compute; reflexivity. }
    eapply (StepsCons _ _ _ [_]).
    { eapply (StepCommit 40000 _ _ (commit_by "host-b" "s2" 2 1 "r2") (Some _)).
      vm_compute; reflexivity. }
    constructor.
  - vm_compute. reflexivity.
Defined.

Lemma stores_refine_ledger_witness :
  exists db, apply_events empty_ledger takeover_events = Some (ledger_of db).
Proof.
  destruct takeover_reachable as [db [H _]]. exists db.
  exact (stores_refine_ledger takeover_events 40000 db H).
Defined.

Lemma linear_history_witness :
  committed_versions "object.v1.n.t.i" takeover_events = seqZ 1 2 /\ (0 <= 2)%Z /\
  Some ("snapshots/r2", "r2") = last_head "object.v1.n.t.i" None takeover_events.
Proof.
  destruct takeover_reachable as [db [H Hr]].
  exact (linear_history takeover_events 40000 db "object.v1.n.t.i" takeover_row H Hr).
Defined.

(** ** One owner per epoch *)

(** Registers keep their epochs ordered, with one owner each. *)
Definition register_evolves (obj : ActorStorageKey) (l l' : Ledger) : Prop :=
  forall r, led_registers l !! obj = Some r ->
  exists r', led_registers l' !! obj = Some r' /\ (reg_epoch r <= reg_epoch r')%Z /\
    (reg_epoch r' = reg_epoch r -> reg_owner r' = reg_owner r).

#[export] Instance register_evolves_preorder obj : PreOrder (register_evolves obj).
Proof.
  split.
  - intros l r Hr. exists r. split; [done | split; [lia | done]].
  - intros l1 l2 l3 H12 H23 r Hr.
    apply H12 in Hr as (r2 & Hr2 & Hle & Ho). apply H23 in Hr2 as (r3 & Hr3 & Hle' & Ho').
    exists r3. split; [done |]. split; [lia |]. intros He. rewrite Ho', Ho by lia. done.
Qed.

Lemma register_evolves_insert obj o r' l :
  (forall r, led_registers l !! o = Some r ->
     (reg_epoch r <= reg_epoch r')%Z /\ (reg_epoch r' = reg_epoch r -> reg_owner r' = reg_owner r)) ->
  register_evolves obj l (ledger_register <[ o := r' ]> l).
Proof.
  intros Hr r Hl. simpl. destruct (decide (obj = o)) as [-> | Hne].
  - rewrite lookup_insert_eq. eauto.
  - rewrite lookup_insert_ne by done. exists r. split; [done | split; [lia | done]].
Qed.

Lemma register_evolves_lease obj f l : register_evolves obj l (ledger_lease f l).
Proof. intros r Hr. exists r. split; [done | split; [lia | done]]. Qed.

Lemma apply_event_evolves l e l' obj :
  apply_event l e = Some l' -> register_evolves obj l l'.
Proof.
  intros H. destruct e as [h s a x | h s | o ow ep | o ow s ep v so rq a]; simpl in H.
  - inv_event. apply register_evolves_lease.
  - destruct (led_leases l !! h) as [[s' e'] |]; [| done]. simpl in H. inv_event.
    apply register_evolves_lease.
  - destruct (led_registers l !! o) as [r |] eqn:E; inv_event; apply register_evolves_insert;
      intros r0 Hr0; simplify_eq; simpl; split; lia.
  - destruct (led_registers l !! o) as [r |] eqn:E; [| done]. simpl in H.
    destruct (led_leases l !! ow) as [[s' e'] |]; [| done]. simpl in H. inv_event.
    apply register_evolves_insert. intros r0 Hr0. simplify_eq. simpl. split; [lia | done].
Qed.

Lemma apply_events_evolves es l l' obj :
  apply_events l es = Some l' -> register_evolves obj l l'.
Proof.
  revert l. induction es as [| e es IH]; intros l H; simpl in H; [by simplify_eq |].
  destruct (apply_event l e) as [l1 |] eqn:E; [| done]. simpl in H.
  etrans; [by eapply apply_event_evolves | by apply IH].
Qed.

Lemma committed_register l obj owner session ep v so rq a l' :
  apply_event l (HeadCommitted obj owner session ep v so rq a) = Some l' ->
  exists r r', led_registers l !! obj = Some r /\ led_registers l' !! obj = Some r' /\
    reg_owner r = owner /\ reg_epoch r = ep /\ reg_owner r' = owner /\ reg_epoch r' = ep.
Proof.
  simpl. intros H. destruct (led_registers l !! obj) as [r |]; [| done]. simpl in H.
  destruct (led_leases l !! owner) as [[s' e'] |]; [| done]. simpl in H. inv_event.
  exists r. eexists. simpl. rewrite lookup_insert_eq. done.
Qed.

Lemma apply_events_middle l es1 e es2 l' :
  apply_events l (es1 ++ e :: es2) = Some l' ->
  exists l1 l2, apply_events l es1 = Some l1 /\ apply_event l1 e = Some l2 /\
                apply_events l2 es2 = Some l'.
Proof.
  rewrite apply_events_app. intros H.
  destruct (apply_events l es1) as [l1 |] eqn:E1; [| done]. simpl in H.
  destruct (apply_event l1 e) as [l2 |] eqn:E2; [| done]. eauto.
Qed.

(** C5: epochs fence owners.  Of two commits to one actor the later has the
    later or the same epoch, and within one epoch every commit is by one and the
    same owner: a displaced owner never commits after its successor did. *)
Theorem epochs_fence_owners
    (es0 es1 es2 : list Event) (t : Z) (db : Database) (obj : ActorStorageKey)
    (o1 s1 so1 rq1 : string) (ep1 v1 t1 : Z) (o2 s2 so2 rq2 : string) (ep2 v2 t2 : Z)
    (H : reachable (es0 ++ HeadCommitted obj o1 s1 ep1 v1 so1 rq1 t1 ::
                    es1 ++ HeadCommitted obj o2 s2 ep2 v2 so2 rq2 t2 :: es2) t db) :
  (ep1 <= ep2)%Z /\ (ep1 = ep2 -> o1 = o2).
Proof.
  destruct H as [t0 H]. apply steps_refine in H. simpl in H.
  apply apply_events_middle in H as (la & lb & _ & H1 & Hrest).
  apply apply_events_middle in Hrest as (lc & ld & Hmid & H2 & _).
  apply committed_register in H1 as (_ & r1 & _ & Hr1 & _ & _ & <- & <-).
  apply committed_register in H2 as (r2 & _ & Hr2 & _ & <- & <- & _).
  apply (apply_events_evolves _ _ _ obj) in Hmid.
  destruct (Hmid _ Hr1) as (r' & Hr' & Hle & Ho).
  rewrite Hr2 in Hr'. injection Hr' as <-. split; [done |]. intros He. by rewrite Ho.
Qed.

Lemma epochs_fence_owners_witness : (1 <= 2)%Z /\ (1 = 2 -> "host-a" = "host-b")%Z.
Proof.
  destruct takeover_reachable as [db [H _]].
  exact (epochs_fence_owners
    [LeaseGranted "host-a" "s1" 1000 31000; OwnerPlaced "object.v1.n.t.i" "host-a" 1]
    [LeaseGranted "host-b" "s2" 40000 50000; OwnerPlaced "object.v1.n.t.i" "host-b" 2] []
    40000 db "object.v1.n.t.i" "host-a" "s1" "snapshots/r1" "r1" 1 1 1000
    "host-b" "s2" "snapshots/r2" "r2" 2 2 40000 H).
Defined.

(** ** Leases are exclusive *)

(** The lease of [h] as the events tell it: the last grant, unless released. *)
Definition last_lease (h : HostId) (es : list Event) : option (string * Z) :=
  foldl (fun acc e => match e with
                      | LeaseGranted h' s _ x => if decide (h' = h) then Some (s, x) else acc
                      | LeaseReleased h' _ => if decide (h' = h) then None else acc
                      | _ => acc
                      end) None es.

Lemma apply_events_lease es l h :
  apply_events empty_ledger es = Some l -> led_leases l !! h = last_lease h es.
Proof.
  revert l. induction es as [| e es IH] using rev_ind; intros l H; simpl in H; [by simplify_eq |].
  apply apply_events_middle in H as (l1 & l2 & H1 & H2 & [= ->]). rename H2 into H.
  apply IH in H1. unfold last_lease in *. rewrite foldl_app. simpl. rewrite <- H1.
  destruct e as [h' s a x | h' s | o ow ep | o ow s ep v so rq a]; simpl in H.
  - inv_event. simpl. destruct (decide (h' = h)) as [-> | Hne].
    + by rewrite lookup_insert_eq.
    + by rewrite lookup_insert_ne.
  - destruct (led_leases l1 !! h') as [[s' e'] |]; [| done]. simpl in H. inv_event. simpl.
    destruct (decide (h' = h)) as [-> | Hne].
    + by rewrite lookup_delete_eq.
    + by rewrite lookup_delete_ne.
  - destruct (led_registers l1 !! o); by inv_event.
  - destruct (led_registers l1 !! o) as [r |] eqn:E; [| done]. simpl in H.
    destruct (led_leases l1 !! ow) as [[s' e'] |]; [| done]. simpl in H. by inv_event.
Qed.

(** What an event says about the lease it needs, given the events before it. *)
Definition lease_discipline (before : list Event) (e : Event) : Prop :=
  match e with
  | HeadCommitted _ owner session _ _ _ _ at_ms =>
      exists expires, last_lease owner before = Some (session, expires) /\ (at_ms < expires)%Z
  | LeaseGranted h s at_ms expires =>
      (expires <= at_ms + MAX_HOST_LEASE_DURATION_MS)%Z /\
      forall s' e', last_lease h before = Some (s', e') -> s' <> s -> (e' <= at_ms)%Z
  | LeaseReleased h s => exists expires, last_lease h before = Some (s, expires)
  | OwnerPlaced _ _ _ => True
  end.

Lemma apply_event_lease_discipline l es e l' :
  apply_events empty_ledger es = Some l -> apply_event l e = Some l' -> lease_discipline es e.
Proof.
  intros Hl H.
  destruct e as [h s a x | h s | o ow ep | o ow s ep v so rq a]; simpl in H |- *.
  - inv_event. split; [done |]. intros s' e' Hs Hne.
    rewrite <- (apply_events_lease _ _ h Hl) in Hs. unfold lease_free in *.
    rewrite Hs in *.
    match goal with H : _ || _ = true |- _ => apply orb_true_iff in H as [H | H] end;
      bool_prop; done.
  - rewrite <- (apply_events_lease _ _ h Hl).
    destruct (led_leases l !! h) as [[s' e'] |]; [| done]. simpl in H. inv_event. eauto.
  - done.
  - rewrite <- (apply_events_lease _ _ ow Hl).
    destruct (led_registers l !! o) as [r |] eqn:E; [| done]. simpl in H.
    destruct (led_leases l !! ow) as [[s' e'] |]; [| done]. simpl in H. inv_event.
    subst. eauto.
Qed.

(** C12: every commit happens under a lease, and a lease excludes every other
    session.  A commit at time [t] is by the session that was last granted its
    host, before that grant's expiry; a grant lasts at most one minute, and is
    given to a new session only when the previous session's grant has expired
    or was released by that session. *)
Theorem leases_exclude_sessions
    (before after : list Event) (e : Event) (t : Z) (db : Database)
    (H : reachable (before ++ e :: after) t db) :
  lease_discipline before e.
Proof.
  destruct H as [t0 H]. apply steps_refine in H. simpl in H. rewrite ledger_of_empty in H.
  apply apply_events_middle in H as (l1 & l2 & H1 & H2 & _).
  by eapply apply_event_lease_discipline.
Qed.

Lemma leases_exclude_sessions_witness :
  exists expires, Some ("s2", 50000%Z) = Some ("s2", expires) /\ (40000 < expires)%Z.
Proof.
  destruct takeover_reachable as [db [H _]].
  exact (leases_exclude_sessions
    [LeaseGranted "host-a" "s1" 1000 31000; OwnerPlaced "object.v1.n.t.i" "host-a" 1;
     HeadCommitted "object.v1.n.t.i" "host-a" "s1" 1 1 "snapshots/r1" "r1" 1000;
     LeaseGranted "host-b" "s2" 40000 50000; OwnerPlaced "object.v1.n.t.i" "host-b" 2] []
    (HeadCommitted "object.v1.n.t.i" "host-b" "s2" 2 2 "snapshots/r2" "r2" 40000) 40000 db H).
Defined.

(** ** The clients are such processes

    The operations of the two PostgreSQL stores only take steps of the system,
    provided the other clients do and the database's clock does not run
    backwards from one statement to the next. *)

Section Clients.
Context (weather : nat -> Weather).

(** The clock after the first [n] statements. *)
Definition clock_at (start : Z) (n : nat) : Z :=
  match n with O => start | S m => later (weather m) end.

Definition well_clocked (start : Z) : Prop := forall n db,
  exists es, steps (clock_at start n, db) es (now (weather n), others (weather n) db) /\
             (now (weather n) <= later (weather n))%Z.

Definition realizes {A} (start : Z) (c : M PgState Error A) : Prop := forall st st' r,
  c st = (st', r) ->
  exists es, steps (clock_at start (statements st), database st) es
                   (clock_at start (statements st'), database st').

(** A statement taken between two clock readings is some steps. *)
Definition stepwise {A} (q : Statement A) : Prop := forall now later db db' x,
  (now <= later)%Z -> q now later db = Ok (db', x) ->
  exists es, steps (now, db) es (later, db').

Lemma steps_then_tick t t' t'' db es db' :
  step (t, db) es (t', db') -> (t' <= t'')%Z ->
  exists es', steps (t, db) es' (t'', db').
Proof.
  intros H Ht. exists (es ++ [])%list. econstructor; [exact H |].
  apply steps_one. by constructor.
Qed.

Context (start : Z) (W : well_clocked start).

Lemma query_realizes {A} (q : Statement A) : stepwise q -> realizes start (query weather q).
Proof.
  intros Hq st st' r H. unfold query in H.
  destruct (W (statements st) (database st)) as (es & Hes & Ht).
  assert (Hidle : exists es, steps (clock_at start (statements st), database st) es
            (later (weather (statements st)), others (weather (statements st)) (database st))).
  { eexists. eapply steps_app; [exact Hes | apply steps_one; by constructor]. }
  destruct (q _ _ _) as [[db' x] | e] eqn:E.
  - destruct (Hq _ _ _ _ _ Ht E) as [es' Hes'].
    assert (Hrun : exists es, steps (clock_at start (statements st), database st) es
              (later (weather (statements st)), db')) by (eexists; by eapply steps_app).
    destruct (fault _); simplify_eq; simpl; done.
  - destruct (fault _); simplify_eq; simpl; done.
Qed.

Lemma bind_realizes {A B} (c : M PgState Error A) (k : A -> M PgState Error B) :
  realizes start c -> (forall a, realizes start (k a)) -> realizes start (c ≫= k).
Proof.
  intros Hc Hk st st' r H. unfold mbind, M_bind in H.
  destruct (c st) as [s1 [a | e]] eqn:E; [| simplify_eq; eauto].
  apply Hc in E as [es1 ?]. apply Hk in H as [es2 ?]. eexists. by eapply steps_app.
Qed.

Lemma context_realizes {A} msg (c : M PgState Error A) :
  realizes start c -> realizes start (M_context msg c).
Proof.
  intros Hc st st' r H. unfold M_context in H. destruct (c st) as [s1 r1] eqn:E.
  simplify_eq. eauto.
Qed.

Lemma lift_realizes {A} (r : Result Error A) : realizes start (lift r).
Proof. intros st st' r' H. unfold lift in H. simplify_eq. eexists. constructor. Qed.

Lemma ret_realizes {A} (x : A) : realizes start (mret x : M PgState Error A).
Proof. intros st st' r' H. unfold mret, M_ret in H. simplify_eq. eexists. constructor. Qed.
End Clients.

Lemma upsert_lease_stepwise h s r d :
  (1 <= d <= MAX_HOST_LEASE_DURATION_MS)%Z -> stepwise (upsert_lease h s r d).
Proof.
  intros Hd n l db db' x Ht H. eexists. apply steps_one.
  eapply StepRegister; [| exact Hd | exact H]. lia.
Qed.

Lemma delete_lease_stepwise h s : stepwise (delete_lease h s).
Proof.
  intros n l db db' x Ht H. eapply steps_then_tick; [| exact Ht].
  eapply StepUnregister. exact H.
Qed.

Lemma select_stepwise {A} (f : Z -> Database -> A) :
  stepwise (fun now _ db => Ok (db, f now db)).
Proof.
  intros n l db db' x Ht H. simplify_eq. eexists. apply steps_one. by constructor.
Qed.

Lemma insert_placement_stepwise k o r : stepwise (insert_placement k o r).
Proof.
  intros n l db db' x Ht H. eapply steps_then_tick; [| exact Ht].
  eapply (StepInsert n db db' k o r). exact H.
Qed.

Lemma transfer_placement_stepwise k o eo ee r : stepwise (transfer_placement k o eo ee r).
Proof.
  intros n l db db' x Ht H. eapply steps_then_tick; [| exact Ht].
  eapply (StepTransfer n db db' k o eo ee r). exact H.
Qed.

Lemma state_head_update_stepwise r : stepwise (state_head_update r).
Proof.
  intros n l db db' x Ht H. eapply steps_then_tick; [| exact Ht].
  eapply (StepCommit n db db' r). exact H.
Qed.

Lemma select_lease_status_stepwise h : stepwise (select_lease_status h).
Proof. apply (select_stepwise (fun now db => (now, host_leases db !! h))). Qed.

Lemma select_placement_stepwise k : stepwise (select_placement k).
Proof. apply (select_stepwise (fun _ db => placements db !! k)). Qed.

Lemma update_state_head_stepwise k o e v s so rq :
  stepwise (update_state_head k o e v s so rq).
Proof. apply (state_head_update_stepwise (Build_StateCommitRequest k o s e v so rq)). Qed.

Create HintDb stepwise.
#[export] Hint Resolve delete_lease_stepwise insert_placement_stepwise
  transfer_placement_stepwise update_state_head_stepwise select_lease_status_stepwise
  select_placement_stepwise : stepwise.

(** [client_realizes] closes [realizes] goals by the shape of the program. *)
Ltac client_realizes W :=
  repeat first
    [ progress intros
    | apply bind_realizes
    | apply context_realizes
    | apply lift_realizes
    | apply ret_realizes
    | apply (query_realizes _ _ W); solve [eauto with stepwise]
    | case_match
    | case_bool_decide ].

Section Operations.
Context (weather : nat -> Weather) (start : Z) (W : well_clocked weather start).

Lemma register_realizes request :
  realizes weather start (PostgresHostLeaseStore.register weather request).
Proof.
  unfold PostgresHostLeaseStore.register.
  destruct (validate_duration request) as [[] | e] eqn:E;
    [| intros st st' r H; apply (lift_realizes weather start (Err e)) in H; exact H].
  apply validate_duration_Ok in E.
  apply bind_realizes; [apply lift_realizes | intros _].
  intros st st' r H. unfold mbind, M_bind, lift in H.
  rewrite (proj2 (i64_try_from_Some _ (lr_duration_ms request))) in H
    by (unfold MAX_HOST_LEASE_DURATION_MS, i64_min, i64_max in *; lia).
  simpl in H. revert st st' r H.
  change (realizes weather start
    (row ← M_context "register PostgreSQL host lease"
            (query weather (upsert_lease (lr_id request) (lr_session_id request)
                              (lr_route request) (lr_duration_ms request)));
     expires ← lift (some_or "host lease is held by a different active session" row);
     expires_at_ms ← lift (u64_from_i64 "PostgreSQL host lease expiration is negative" expires);
     mret {| hl_id := lr_id request; hl_session_id := lr_session_id request;
             hl_route := lr_route request; hl_expires_at_ms := expires_at_ms |})).
  apply bind_realizes; [apply context_realizes, (query_realizes _ _ W), upsert_lease_stepwise; done |].
  client_realizes W.
Qed.

(** C17: the operations of the lease store and of the placement store are
    processes of the system: under any failures and interference, each of them
    takes the tables from where it found them to where it left them by steps,
    so that the theorems on reachable histories apply to every execution. *)
Theorem store_operations_are_steps :
  (forall request, realizes weather start (PostgresHostLeaseStore.register weather request)) /\
  (forall id s, realizes weather start (PostgresHostLeaseStore.unregister weather id s)) /\
  (forall id, realizes weather start (PostgresHostLeaseStore.lease_status weather id)) /\
  (forall obj, realizes weather start (PostgresObjectPlacementStore.get weather obj)) /\
  (forall obj expected owner region,
     realizes weather start (PostgresObjectPlacementStore.claim weather obj expected owner region)) /\
  (forall r, realizes weather start (PostgresObjectPlacementStore.commit_state weather r)).
Proof using W.
  unfold PostgresHostLeaseStore.unregister, PostgresHostLeaseStore.lease_status,
    PostgresObjectPlacementStore.claim, PostgresObjectPlacementStore.current_claim,
    PostgresObjectPlacementStore.commit_state, PostgresObjectPlacementStore.get.
  split; [apply register_realizes |].
  repeat split; client_realizes W.
Qed.
End Operations.

Lemma calm_well_clocked : well_clocked (calm 0) 0.
Proof.
  intros n db. exists []. split; [| simpl; lia].
  destruct n as [| n]; simpl; [constructor |].
  apply steps_one. constructor. lia.
Qed.

Lemma store_operations_are_steps_witness :
  let '(st', r) := PostgresObjectPlacementStore.claim (calm 0) "object.v1.n.t.i" None "h" "eu"
                     {| database := empty_database; statements := 0 |} in
  is_ok r = true /\ exists es, steps (0, empty_database)%Z es
    (clock_at (calm 0) 0 (statements st'), database st').
Proof.
  split; [vm_compute; reflexivity |].
  pose proof (store_operations_are_steps (calm 0) 0 calm_well_clocked)
    as (_ & _ & _ & _ & Hclaim & _).
  eapply (Hclaim "object.v1.n.t.i" None "h" "eu" {| database := empty_database; statements := 0 |}).
  vm_compute. reflexivity.
Defined.
