(* ===== verification/Schema.v ===== *)
(** * The tables are well typed

    The column types, checks and foreign key of [migrations/V1__initial.sql], with
    what the statements keep in addition: on the reachable tables of [Fencing]
    every row has the type the Rust code expects of it, so that reading a row
    back never fails. *)
From S2P Require Import Prelude Identity Database Leases Placement Admin Fencing.
Local Open Scope string_scope.

(** [BIGINT NOT NULL CHECK (x > 0)], [BIGINT NOT NULL CHECK (x >= 0)] *)
Definition positive_bigint (z : Z) : Prop := (0 < z <= i64_max)%Z.
Definition natural_bigint (z : Z) : Prop := (0 <= z <= i64_max)%Z.

Definition lease_row_typed (row : LeaseRow) : Prop := positive_bigint (row_expires_at_ms row).

(** Beyond the columns: an actor has an object and a last request exactly from its
    first version on. *)
Record placement_row_typed (row : PlacementRow) : Prop := {
  typed_epoch : positive_bigint (row_owner_epoch row);
  typed_version : natural_bigint (row_state_version row);
  typed_object : row_state_object row = None <-> row_state_version row = 0%Z;
  typed_request : row_last_request_id row = None <-> row_state_version row = 0%Z;
}.

Record tables_typed (db : Database) : Prop := {
  typed_leases : map_Forall (fun _ row => lease_row_typed row) (host_leases db);
  typed_placements : map_Forall (fun _ row => placement_row_typed row) (placements db);
  typed_specs : dom (project_specs db) ⊆ namespaces db;
}.

Lemma empty_typed : tables_typed empty_database.
Proof. split; simpl; [apply map_Forall_empty.. | set_solver]. Qed.

Lemma set_lease_typed f db :
  tables_typed db -> map_Forall (fun _ row => lease_row_typed row) (f (host_leases db)) ->
  tables_typed (set_lease f db).
Proof. by intros [? ? ?]. Qed.

Lemma set_placement_typed obj row db :
  tables_typed db -> placement_row_typed row -> tables_typed (set_placements <[ obj := row ]> db).
Proof. intros [? ? ?] Hrow. split; simpl; [done | by apply map_Forall_insert_2 | done]. Qed.

(** *** Every statement keeps the types *)

Lemma upsert_lease_typed h s r d now later db db' o :
  upsert_lease h s r d now later db = Ok (db', o) -> tables_typed db -> tables_typed db'.
Proof.
  intros H Ht. unfold upsert_lease in H.
  inv_statement; try done; (apply set_lease_typed; [done |]; apply map_Forall_insert_2; [| apply Ht]);
    unfold lease_row_typed, positive_bigint; simpl; lia.
Qed.

Lemma delete_lease_typed h s now later db db' n :
  delete_lease h s now later db = Ok (db', n) -> tables_typed db -> tables_typed db'.
Proof.
  intros H Ht. unfold delete_lease in H. inv_statement; try done.
  apply set_lease_typed; [done |]. apply map_Forall_delete, Ht.
Qed.

Lemma insert_placement_typed obj o region now later db db' x :
  insert_placement obj o region now later db = Ok (db', x) -> tables_typed db -> tables_typed db'.
Proof.
  intros H Ht. unfold insert_placement in H. inv_statement; try done.
  apply set_placement_typed; [done |]. by split; unfold positive_bigint, natural_bigint, i64_max; simpl.
Qed.

Lemma transfer_placement_typed obj o expected epoch region now later db db' x :
  transfer_placement obj o expected epoch region now later db = Ok (db', x) ->
  tables_typed db -> tables_typed db'.
Proof.
  intros H Ht. unfold transfer_placement in H. inv_statement; try done.
  apply set_placement_typed; [done |].
  match goal with Hr : placements db !! obj = Some _ |- _ => apply (typed_placements _ Ht) in Hr as [] end.
  split; simpl; unfold positive_bigint in *; done || lia.
Qed.

Lemma update_state_head_typed obj o epoch v s so rq now later db db' x :
  update_state_head obj o epoch v s so rq now later db = Ok (db', x) ->
  tables_typed db -> tables_typed db'.
Proof.
  intros H Ht. unfold update_state_head in H. inv_statement; try done.
  apply set_placement_typed; [done |].
  match goal with Hr : placements db !! obj = Some _ |- _ => apply (typed_placements _ Ht) in Hr as [] end.
  split; simpl; unfold natural_bigint in *; try done; try lia; split; intros; discriminate || lia.
Qed.

Lemma upsert_project_spec_typed ns spec now later db db' n :
  upsert_project_spec ns spec now later db = Ok (db', n) -> tables_typed db -> tables_typed db'.
Proof.
  intros H [Hl Hp Hs]. unfold upsert_project_spec in H.
  inv_statement; split; simpl; try done; rewrite ?dom_insert_L; set_solver.
Qed.

Lemma step_typed t db es t' db' :
  step (t, db) es (t', db') -> tables_typed db -> tables_typed db'.
Proof.
  intros H. remember (t, db) as s eqn:Hs. remember (t', db') as s' eqn:Hs'.
  destruct H; simplify_eq; [done | | | | | |].
  - by eapply upsert_lease_typed.
  - by eapply delete_lease_typed.
  - by eapply insert_placement_typed.
  - by eapply transfer_placement_typed.
  - by eapply (update_state_head_typed _ _ _ _ _ _ _ t t).
  - by eapply upsert_project_spec_typed.
Qed.

Lemma reachable_typed es t db : reachable es t db -> tables_typed db.
Proof.
  intros [t0 H]. remember (t0, empty_database) as s eqn:Hs. remember (t, db) as s' eqn:Hs'.
  assert (tables_typed s.2) as Ht by (subst; apply empty_typed). clear Hs t0. revert Hs' Ht.
  induction H as [s | [t1 db1] [t2 db2] s3 es1 es2 Hstep _ IH]; intros Hs' Ht; [by subst |].
  apply IH; [done |]. by eapply step_typed.
Qed.

(** C16: the tables are well typed at every reachable moment: every column holds a
    value of its SQL type that satisfies its checks, the specifications refer to
    registered namespaces, and an actor has a state object and a last request
    exactly from its first version on.  Hence every row the code reads back is
    accepted: no lease expiration, owner epoch or state version is ever rejected
    as negative, and what is decoded is the row. *)
Theorem reachable_rows_decode (es : list Event) (t : Z) (db : Database) (H : reachable es t db) :
  tables_typed db /\
  (forall obj row, placements db !! obj = Some row ->
     placement_from_row obj row = Ok (placement_of_row obj row)) /\
  (forall id row, host_leases db !! id = Some row ->
     u64_from_i64 "PostgreSQL host lease expiration is negative" (row_expires_at_ms row) =
       Ok (row_expires_at_ms row)).
Proof.
  apply reachable_typed in H as Ht. split_and!; [done | |].
  - intros obj row [[He1 He2] [Hv1 Hv2] _ _]%(typed_placements _ Ht).
    unfold placement_from_row, i64_max in *.
    rewrite !(proj2 (u64_from_i64_Ok _ _ _)) by (split; [reflexivity | unfold u64_max; lia]). done.
  - intros id row [He1 He2]%(typed_leases _ Ht).
    apply u64_from_i64_Ok. unfold i64_max, u64_max in *. split; [done | lia].
Qed.

Lemma reachable_rows_decode_witness :
  exists db, reachable takeover_events 40000 db /\ tables_typed db /\
    exists row, placements db !! "object.v1.n.t.i" = Some row /\
      placement_from_row "object.v1.n.t.i" row = Ok (placement_of_row "object.v1.n.t.i" row).
Proof.
  destruct takeover_reachable as [db [H Hr]]. exists db.
  destruct (reachable_rows_decode takeover_events 40000 db H) as (Ht & Hp & _).
  split; [exact H |]. split; [exact Ht |].
  exists takeover_row. split; [exact Hr | exact (Hp _ _ Hr)].
Defined.
