(* ===== verification/Routing.v ===== *)
(** * Routing ends

    [route_actor] of control_plane/service.rs repeats its round, without a bound,
    for as long as it loses its claim to somebody else.  With the column types of
    [Schema] kept by everybody this cannot go on: every lost round costs the actor
    a change of hands, every change of hands raises its owner epoch, and the
    epoch's column is bounded. *)
From S2P Require Import Prelude Net Identity StorageUrls Sandbox Tokens.
From S2P Require Import Database Leases Admin Placement Fencing Schema.
From S2P Require Import ControlPlane ControlPlaneSafety.
Local Open Scope string_scope.

(** ** The types are kept along a call *)

Definition keeps_types (st st' : PgState) : Prop :=
  tables_typed (database st) -> tables_typed (database st').

#[local] Instance keeps_types_preorder : PreOrder keeps_types.
Proof. split; unfold keeps_types; intros ? **; auto. Qed.

Section Types.
Context {E : Surroundings}.

(** The other clients of the tables keep the column types. *)
Definition rely_typed : Prop :=
  forall n db, tables_typed db -> tables_typed (others (weather n) db).

Context (W : rely_typed).

Lemma query_keeps_types {A} (q : Statement A) :
  (forall now later db db' x, q now later db = Ok (db', x) ->
     tables_typed db -> tables_typed db') ->
  respects keeps_types (query weather q).
Proof.
  intros Hq st st' r H Ht. unfold query in H. apply (W (Database.statements st)) in Ht.
  repeat case_match; simplify_eq; simpl; first [done | by eapply Hq].
Qed.

Lemma select_keeps_types {A} (f : Z -> Database -> A) :
  respects keeps_types (query weather (fun now _ db => Ok (db, f now db))).
Proof. apply query_keeps_types. intros ? ? ? ? ? H. by simplify_eq. Qed.

Lemma lease_status_keeps_types id :
  respects keeps_types (PostgresHostLeaseStore.lease_status weather id).
Proof.
  unfold PostgresHostLeaseStore.lease_status. respecting.
  apply (select_keeps_types (fun now db => (now, host_leases db !! id))).
Qed.

Lemma get_keeps_types k : respects keeps_types (PostgresObjectPlacementStore.get weather k).
Proof.
  unfold PostgresObjectPlacementStore.get. respecting.
  apply (select_keeps_types (fun _ db => placements db !! k)).
Qed.

Lemma current_claim_keeps_types k :
  respects keeps_types (PostgresObjectPlacementStore.current_claim weather k).
Proof. unfold PostgresObjectPlacementStore.current_claim. respecting. apply get_keeps_types. Qed.

Lemma claim_keeps_types k e o r :
  respects keeps_types (PostgresObjectPlacementStore.claim weather k e o r).
Proof.
  unfold PostgresObjectPlacementStore.claim.
  respecting; try apply current_claim_keeps_types; apply query_keeps_types; intros *;
    [apply transfer_placement_typed | apply insert_placement_typed].
Qed.

Lemma active_target_keeps_types current spec :
  respects keeps_types (active_target current spec).
Proof. unfold active_target. respecting. apply lease_status_keeps_types. Qed.

(** What is relied on from a provisioner and a registry, and that those of the
    service have it. *)
Class ProvisionerTypes (p : HostProvisioner) : Prop :=
  ensure_host_typed spec region : respects keeps_types (ensure_host p spec region).
Class RegistryTypes (r : AdminRegistry) : Prop :=
  launch_spec_typed ns : respects keeps_types (launch_spec (AdminRegistry := r) ns).

#[export] Instance postgres_registry_types : RegistryTypes (PostgresAdminRegistry weather).
Proof.
  intros ns. simpl. unfold postgres_launch_spec. respecting.
  apply (select_keeps_types (fun _ db => project_specs db !! ns)).
Qed.

#[export] Instance sandbox_provisioner_types `{SandboxProvider} (p : SandboxHostProvisioner) :
  ProvisionerTypes (sandbox_provisioner p).
Proof.
  intros spec region. simpl.
  unfold sandbox_ensure_host, sandbox_request, active_lease, at_time. respecting.
  apply lease_status_keeps_types.
Qed.
End Types.

(** ** The loop *)

Lemma Z_of_nat_above (z : Z) : exists n, (z < Z.of_nat n)%Z.
Proof. exists (Z.to_nat (Z.max 0 z + 1)). lia. Qed.

Section Routing.
Context {E : Surroundings} {T : Jwt} {Parser : UrlParser} {Signer : UrlSigner}.
Context (R : rely weather) (W : rely_typed).

Lemma route_loop_keeps_types s fuel actor region prov spec :
  (forall p, prov = Some p -> ProvisionerTypes p) ->
  respects keeps_types (route_loop s fuel actor region prov spec).
Proof.
  intros Hp. induction fuel as [| fuel IH]; simpl; [respecting |].
  respecting; [by apply get_keeps_types | by apply active_target_keeps_types | |
               by apply claim_keeps_types].
  match goal with H : some_or _ _ = Ok _ |- _ => apply some_or_Ok in H end. by apply Hp.
Qed.

(** More rounds do not change what fewer have decided. *)
Lemma route_loop_more s actor region prov spec n m st st' r :
  n <= m -> r <> Ok None ->
  route_loop s n actor region prov spec st = (st', r) ->
  route_loop s m actor region prov spec st = (st', r).
Proof.
  revert m st. induction n as [| n IH]; intros m st Hle Hr H.
  { simpl in H. unfold mret, M_ret in H. by simplify_eq. }
  destruct m as [| m]; [lia |]. simpl in *. unfold mbind, M_bind in *.
  repeat (case_match; try done). by eapply IH; [lia | |].
Qed.

Context (s : ControlPlaneService) (dep : RoutingDependencies).
Context (Hdep : routing s = Some dep).
Context {Hreg : AdminRegistryLaws (registry dep)} {Htyp : RegistryTypes (registry dep)}.
Context (Hprov : forall p, provisioner dep = Some p ->
  HostProvisionerLaws p /\ ProvisionerTypes p).

Lemma route_actor_keeps_types fuel actor region :
  respects keeps_types (route_actor s fuel actor region).
Proof.
  unfold route_actor. rewrite Hdep. simpl. respecting; simplify_eq/=; [apply Htyp |].
  apply route_loop_keeps_types. intros p Hp. by apply Hprov.
Qed.

Lemma route_actor_more actor region n m st st' r :
  n <= m -> r <> Ok None ->
  route_actor s n actor region st = (st', r) -> route_actor s m actor region st = (st', r).
Proof.
  intros Hle Hr. unfold route_actor, mbind, M_bind. repeat (case_match; try done).
  by apply route_loop_more.
Qed.

Lemma route_loop_split n actor region prov spec st st' :
  route_loop s (S n) actor region prov spec st = (st', Ok None) ->
  exists mid, route_loop s 1 actor region prov spec st = (mid, Ok None) /\
    route_loop s n actor region prov spec mid = (st', Ok None).
Proof.
  simpl. unfold mbind, M_bind, mret, M_ret. intros H.
  repeat (case_match; simplify_eq; try done); by eexists.
Qed.

(** Undecided after [n + 1] rounds: the row is there, and its epoch is beyond [n]. *)
Lemma route_loop_epoch n actor region spec st st' :
  tables_typed (database st) ->
  route_loop s (S n) actor region (provisioner dep) spec st = (st', Ok None) ->
  (Z.of_nat n < i64_max)%Z.
Proof.
  intros Ht H. assert (forall p, provisioner dep = Some p -> HostProvisionerLaws p) as HL
    by (intros p Hp; by apply Hprov).
  assert (forall p, provisioner dep = Some p -> ProvisionerTypes p) as HT
    by (intros p Hp; by apply Hprov).
  pose proof (route_loop_keeps_types _ _ _ _ _ _ HT _ _ _ H Ht) as Ht'.
  apply route_loop_split in H as (mid & H1 & H2).
  pose proof (route_loop_keeps_types _ _ _ _ _ _ HT _ _ _ H1 Ht) as Htm.
  apply (route_round R s actor region _ spec HL) in H1
    as [(t & [=] & _) | (_ & _ & ? & row & _ & _ & Hrow & _ & [-> _]%M_ret_Ok)].
  destruct (route_loop_exhausted R _ _ _ _ _ HL _ _ _ _ H2 Hrow) as (row' & Hrow' & Hle).
  destruct (typed_placements _ Htm _ _ Hrow) as [[Hpos _] _ _ _].
  destruct (typed_placements _ Ht' _ _ Hrow') as [[_ Hmax] _ _ _]. lia.
Qed.

Lemma route_actor_decides fuel actor region st st' :
  (i64_max < Z.of_nat fuel)%Z -> tables_typed (database st) ->
  route_actor s fuel actor region st <> (st', Ok None).
Proof.
  intros Hf Ht H. destruct fuel as [| n]; [unfold i64_max in Hf; lia |].
  unfold route_actor in H. rewrite Hdep in H.
  apply M_bind_Ok in H as (? & ? & [-> [= <-]]%lift_Ok & H).
  apply M_bind_Ok in H as (st1 & o & Hs & H).
  apply M_bind_Ok in H as (? & spec & [-> _]%lift_Ok & H).
  apply Htyp in Hs. apply route_loop_epoch in H; [lia | by apply Hs].
Qed.

(** What the unbounded loop of the source gives: every number of rounds beyond the
    largest epoch gives it. *)
Definition routes_to (actor : ActorKey) (region : string) (st st' : PgState)
    (r : anyhow (option RoutedActor)) : Prop :=
  forall fuel, (i64_max < Z.of_nat fuel)%Z -> route_actor s fuel actor region st = (st', r).

(** C22: routing ends, and loses no race for nothing.  The source repeats its
    round for as long as it loses its claim; when every client keeps the column
    types of the placement table, there is one outcome, a routed actor or an
    error, that every number of rounds beyond the largest value of the epoch's
    column gives, so the unbounded loop gives it too.  A round is repeated only
    when somebody else took the actor over: a call still undecided after [n + 1]
    rounds has seen the actor change hands at least [n] times while it ran. *)
Theorem routing_terminates
    (actor : ActorKey) (region : string) (st : PgState) (Ht : tables_typed (database st)) :
  (exists st' r, routes_to actor region st st' r /\ r <> Ok None) /\
  (forall n st', route_actor s (S n) actor region st = (st', Ok None) ->
     taken_over (storage_key actor) n st st').
Proof.
  split.
  - destruct (Z_of_nat_above i64_max) as [n Hn].
    destruct (route_actor s n actor region st) as [st' r] eqn:H. exists st', r.
    assert (r <> Ok None) as Hr by (intros ->; by eapply route_actor_decides in H).
    split; [| done]. intros m Hm.
    destruct (decide (n <= m)) as [Hle | Hgt]; [by eapply route_actor_more |].
    destruct (route_actor s m actor region st) as [st2 r2] eqn:H2.
    assert (r2 <> Ok None) as Hr2 by (intros ->; by eapply route_actor_decides in H2).
    apply (route_actor_more _ _ _ n) in H2; [congruence | lia | done].
  - intros n st' H. apply (routing_rounds_are_takeovers R s dep Hdep) in H; [done |].
    intros p Hp. by apply Hprov.
Qed.
End Routing.

(** ** An actor that everybody wants *)

Lemma take_over_typed db : tables_typed db -> tables_typed (take_over db).
Proof.
  intros Ht. unfold take_over. destruct (placements db !! _) as [row |] eqn:Hrow; [| done].
  destruct (row_owner_epoch row <? i64_max)%Z eqn:Hmax; [| done].
  apply set_placement_typed; [done |]. apply (typed_placements _ Ht) in Hrow as [[H1 H2] H3 H4 H5].
  by split; simpl; [unfold positive_bigint; lia | | |].
Defined.

Lemma deployment_typed : tables_typed deployment_database.
Proof.
  split; simpl.
  - apply map_Forall_insert_2; [by vm_compute | apply map_Forall_singleton; by vm_compute].
  - apply map_Forall_singleton. by split; simpl; unfold positive_bigint, natural_bigint, i64_max.
  - vm_compute. set_solver.
Defined.

Section ContendedDeployment.
#[local] Existing Instance contended_surroundings.

Lemma contended_typed : rely_typed.
Proof. intros n db. exact (take_over_typed db). Defined.

Lemma routing_terminates_witness :
  (exists st', route_actor contended_service 3 sample_actor "eu" deployment_start = (st', Ok None) /\
     taken_over (storage_key sample_actor) 2 deployment_start st') /\
  exists st' r, routes_to contended_service sample_actor "eu" deployment_start st' r /\ r <> Ok None.
Proof.
  destruct (routing_terminates contended_rely contended_typed contended_service
    contended_routing eq_refl
    (Hreg := postgres_registry_laws contended_rely)
    (Htyp := postgres_registry_types contended_typed))
    with (actor := sample_actor) (region := "eu") (st := deployment_start)
    as [Hend Hover]; [| exact deployment_typed |].
  - intros p [= <-]. split; [apply (sandbox_provisioner_laws contended_rely)
                            | apply (sandbox_provisioner_types contended_typed)].
  - split; [| exact Hend].
    destruct (route_actor contended_service 3 sample_actor "eu" deployment_start)
      as [st' [[t |] | e]] eqn:H; try (vm_compute in H; discriminate).
    exists st'. split; [reflexivity |]. exact (Hover 2 st' H).
Defined.
End ContendedDeployment.
