(* ===== verification/Executor.v ===== *)
(** * The customer executor's connection

    The host talks to the JavaScript process that runs the actors over one
    socket ([src/actor/executor_connection.rs]): commands carry a message id,
    replies come back in any order, and an actor the process still holds is
    invoked without sending its state again. *)
From S2P Require Import Prelude Json Identity SocketProtocol.
Local Open Scope string_scope.

Definition ACTOR_EXECUTOR_PROTOCOL_VERSION : Z := 13.
Definition MAX_ACTOR_EXECUTOR_MESSAGE_BYTES : Z := 32 * 1024 * 1024.
(** The bound in [exchange_with_state]. *)
Definition MAX_TRACKED_RESIDENTS : Z := 4096.

(** [fetch_add] wraps around. *)
Definition u64_wrapping_add (a b : Z) : Z := (a + b) mod 2 ^ 64.

Section Executor.
Context `{J : Json}.

Inductive ExecutorCommand :=
| Invoke (invocation : ActorMethodInvocation)
| WebsocketEvent (invocation : ActorSocketInvocation)
| Evict (eviction : ActorMethodEviction).

Inductive ExecutorReply :=
| StateRequired
| Invoked (result state : Value) (effects : list ActorSocketEffect)
| WebsocketHandled (state : Value) (effects : list ActorSocketEffect)
| ReplyFailed (code message : string)
| Evicted.

Record ExecutorCommandEnvelope := {
  command : ExecutorCommand;
  envelope_state : option Value;
  resident_only : bool;
}.

Inductive ActorExecutorServerMessage :=
| Attached (protocol : Z)
| Command (message_id : Z) (command : ExecutorCommandEnvelope).

Inductive ActorExecutorClientMessage :=
| Attach (protocol : Z) (actor_types : list string)
| Reply (message_id : Z) (reply : ExecutorReply).

(** [serde_json] at the two message types. *)
Class ExecutorSerde := {
  server_message_to_vec : ActorExecutorServerMessage -> anyhow bytes;
  client_message_from_slice : bytes -> anyhow ActorExecutorClientMessage;
}.
Context {S : ExecutorSerde}.

(** [JsActorExecutor]; [pending] maps a message id to the call that waits for
    its reply, [sent] is what was written to the socket. *)
Record JsActorExecutor := {
  actor_types : gset string;
  next_message_id : Z;
  pending : gmap Z nat;
  residents : gset ActorKey;
  sent : list ActorExecutorServerMessage;
}.

Definition JsActorExecutor_new (actor_types : list string) : JsActorExecutor :=
  {| actor_types := list_to_set actor_types; next_message_id := 1; pending := ∅;
     residents := ∅; sent := [] |}.

Definition supports (e : JsActorExecutor) (actor_type : string) : bool :=
  bool_decide (actor_type ∈ actor_types e).

Definition with_pending (f : gmap Z nat -> gmap Z nat) (e : JsActorExecutor) : JsActorExecutor :=
  {| actor_types := actor_types e; next_message_id := next_message_id e;
     pending := f (pending e); residents := residents e; sent := sent e |}.
Definition with_residents (f : gset ActorKey -> gset ActorKey) (e : JsActorExecutor)
    : JsActorExecutor :=
  {| actor_types := actor_types e; next_message_id := next_message_id e;
     pending := pending e; residents := f (residents e); sent := sent e |}.
Definition with_sent (m : ActorExecutorServerMessage) (e : JsActorExecutor) : JsActorExecutor :=
  {| actor_types := actor_types e; next_message_id := next_message_id e;
     pending := pending e; residents := residents e; sent := (sent e ++ [m])%list |}.

(** ** Attaching *)

(** [accept_connection]: the first message decides. *)
Definition accept_attach (first : anyhow (option ActorExecutorClientMessage))
    : anyhow (list string) :=
  first ← first;
  match first with
  | Some (Attach protocol actor_types) =>
      ensure (protocol =? ACTOR_EXECUTOR_PROTOCOL_VERSION)%Z
        ("customer actor executor uses unsupported protocol version " +:+ display_u64 protocol);;
      ensure (match actor_types with [] => false | _ => true end)
        "customer actor executor did not advertise any actor types";;
      Ok actor_types
  | Some _ => bail "first customer actor executor message must attach the process"
  | None => bail "customer actor executor disconnected before attaching"
  end.

(** ** Reading and writing lines *)

Definition ascii_is_whitespace (b : Byte.byte) : bool :=
  is_ascii_whitespace (Ascii.ascii_of_byte b).

Definition trim_ascii_end (document : bytes) : bytes :=
  reverse (drop_while ascii_is_whitespace (reverse document)).

(** [document] is what [read_until] took: up to a newline, the end of the input,
    or one byte more than the bound. *)
Definition read_client_message (document : bytes) : anyhow (option ActorExecutorClientMessage) :=
  match document with
  | [] => Ok None
  | _ =>
      ensure (bytes_len document <=? MAX_ACTOR_EXECUTOR_MESSAGE_BYTES)%Z
        ("customer actor executor message exceeds "
         +:+ display_u64 MAX_ACTOR_EXECUTOR_MESSAGE_BYTES +:+ " bytes");;
      message ← with_context "decode customer actor executor message"
                  (client_message_from_slice (trim_ascii_end document));
      Ok (Some message)
  end.

(** Why a write failed: [ActorExecutorMessageTooLarge], or the socket. *)
Inductive WriteError := MessageTooLarge | WriteFailed (e : Error).

Definition too_large_message : string :=
  "actor executor command exceeds " +:+ display_u64 MAX_ACTOR_EXECUTOR_MESSAGE_BYTES +:+ " bytes".

(** [written] is the outcome of [write_all]. *)
Definition write_server_message (message : ActorExecutorServerMessage) (written : anyhow ())
    : M JsActorExecutor WriteError () :=
  bytes ← lift (map_err WriteFailed (server_message_to_vec message));
  if (MAX_ACTOR_EXECUTOR_MESSAGE_BYTES <? bytes_len bytes + 1)%Z
  then lift (Err MessageTooLarge)
  else
    modify (with_sent message);;
    lift (map_err WriteFailed written).

(** ** One exchange *)

(** What an exchange meets: whether the write went through, what the other
    calls do to the executor while this one waits, and the reply, [None] when
    the connection is lost first. *)
Record Wire := {
  written : anyhow ();
  meanwhile : JsActorExecutor -> JsActorExecutor;
  answer : option ExecutorReply;
}.

(** Allocate an id and register the waiting call [c]. *)
Definition begin_exchange (c : nat) : M JsActorExecutor Error Z := fun e =>
  let message_id := next_message_id e in
  ({| actor_types := actor_types e; next_message_id := u64_wrapping_add message_id 1;
      pending := <[ message_id := c ]> (pending e); residents := residents e;
      sent := sent e |}, Ok message_id).

Definition remove_pending (message_id : Z) : M JsActorExecutor Error () :=
  modify (with_pending (delete message_id)).

(** [deliver]: the call that waits for this message, if any. *)
Definition deliver (message_id : Z) : M JsActorExecutor Error nat :=
  waiting ← gets (fun e => pending e !! message_id);
  modify (with_pending (delete message_id));;
  lift (some_or ("actor executor replied to unknown message " +:+ display_u64 message_id) waiting).

Definition disconnect (e : JsActorExecutor) : JsActorExecutor := with_pending (fun _ => ∅) e.

(** [read_executor_messages], one message: the call it answers, with the reply. *)
Definition handle_client_message (message : anyhow (option ActorExecutorClientMessage))
    : M JsActorExecutor Error (nat * ExecutorReply) :=
  message ← lift message;
  match message with
  | None => lift (bail "customer JavaScript actor executor disconnected")
  | Some (Reply message_id reply) => c ← deliver message_id; mret (c, reply)
  | Some (Attach _ _) => lift (bail "customer actor executor attached more than once")
  end.

(** [read_executor_messages]: the replies it hands out, and the error it ends
    with, [None] while it waits for more input. *)
Fixpoint read_executor_messages (incoming : list (anyhow (option ActorExecutorClientMessage)))
    (e : JsActorExecutor) : JsActorExecutor * list (nat * ExecutorReply) * option Error :=
  match incoming with
  | [] => (e, [], None)
  | message :: incoming =>
      match handle_client_message message e with
      | (e, Err error) => (disconnect e, [], Some error)
      | (e, Ok delivered) =>
          let '(e, rest, error) := read_executor_messages incoming e in
          (e, delivered :: rest, error)
      end
  end.

Definition exchange (wire : Wire) (c : nat) (cmd : ExecutorCommand) (state : option Value)
    (resident_only : bool) : M JsActorExecutor Error ExecutorReply :=
  message_id ← begin_exchange c;
  write_result ← attempt (write_server_message
    (Command message_id
       {| command := cmd; envelope_state := state; resident_only := resident_only |})
    (written wire));
  match write_result with
  | Err error =>
      remove_pending message_id;;
      match error with
      | MessageTooLarge => mret (ReplyFailed "resource_exhausted" too_large_message)
      | WriteFailed e => lift (Err ("send command to customer actor executor" :: e))
      end
  | Ok _ =>
      modify (meanwhile wire);;
      lift (some_or "customer actor executor disconnected before replying" (answer wire))
  end.

(** ** Hydration *)

Definition command_actor (cmd : ExecutorCommand) : ActorKey :=
  match cmd with
  | Invoke i => mi_actor i
  | WebsocketEvent i => si_actor i
  | Evict v => ev_actor v
  end.

Definition is_state_required (r : ExecutorReply) : bool :=
  match r with StateRequired => true | _ => false end.
Definition is_executed (r : ExecutorReply) : bool :=
  match r with Invoked _ _ _ | WebsocketHandled _ _ => true | _ => false end.

Definition or_null (state : option Value) : Value :=
  match state with Some v => v | None => Null end.

Definition add_resident (actor : ActorKey) (residents : gset ActorKey) : gset ActorKey :=
  {[ actor ]} ∪ (if (MAX_TRACKED_RESIDENTS <=? Z.of_nat (size residents))%Z then ∅ else residents).

(** The end of [exchange_with_state]: what the last reply means for the actor. *)
Definition settle (actor : ActorKey) (reply : ExecutorReply)
    : M JsActorExecutor Error ExecutorReply :=
  lift (ensure (negb (is_state_required reply)) "actor executor refused explicit hydration");;
  (if is_executed reply then modify (with_residents (add_resident actor)) else mret ());;
  mret reply.

(** [wire1] and [wire2]: the two exchanges it may make. *)
Definition exchange_with_state (wire1 wire2 : Wire) (c1 c2 : nat) (cmd : ExecutorCommand)
    (state : option Value) : M JsActorExecutor Error ExecutorReply :=
  let actor := command_actor cmd in
  resident ← gets (fun e => bool_decide (actor ∈ residents e));
  modify (with_residents (fun r => r ∖ {[ actor ]}));;
  reply ← exchange wire1 c1 cmd (if resident : bool then None else Some (or_null state)) resident;
  reply ← (if resident && is_state_required reply
           then exchange wire2 c2 cmd (Some (or_null state)) false
           else mret reply);
  settle actor reply.

(** ** The [ActorExecutor] trait *)

Definition invoke_with_state (wire1 wire2 : Wire) (c1 c2 : nat)
    (invocation : ActorMethodInvocation) (state : option Value)
    : M JsActorExecutor Error ActorMethodOutcome :=
  reply ← exchange_with_state wire1 wire2 c1 c2
    (Invoke {| mi_request_id := mi_request_id invocation; mi_actor := mi_actor invocation;
       mi_method := mi_method invocation; mi_args := mi_args invocation; mi_state := None;
       mi_connections := mi_connections invocation |}) state;
  lift (match reply with
        | Invoked result state effects => Ok (MethodCompleted result state effects)
        | ReplyFailed code message =>
            Ok (MethodFailed {| Identity.code := code; Identity.message := message |})
        | Evicted | StateRequired =>
            bail "actor executor returned eviction reply to invocation"
        | WebsocketHandled _ _ => bail "actor executor returned socket reply to invocation"
        end).

Definition handle_socket_with_state (wire1 wire2 : Wire) (c1 c2 : nat)
    (invocation : ActorSocketInvocation) (state : option Value)
    : M JsActorExecutor Error ActorSocketOutcome :=
  reply ← exchange_with_state wire1 wire2 c1 c2
    (WebsocketEvent {| si_request_id := si_request_id invocation; si_actor := si_actor invocation;
       si_event := si_event invocation; si_connections := si_connections invocation;
       si_state := None |}) state;
  lift (match reply with
        | WebsocketHandled state effects => Ok (Handled state effects)
        | ReplyFailed code message =>
            Ok (SocketFailed {| Identity.code := code; Identity.message := message |})
        | Invoked _ _ _ | Evicted | StateRequired =>
            bail "actor executor returned the wrong reply to socket event"
        end).

(** [invoke], [handle_socket]: the state comes with the invocation. *)
Definition invoke (wire1 wire2 : Wire) (c1 c2 : nat) (invocation : ActorMethodInvocation)
    : M JsActorExecutor Error ActorMethodOutcome :=
  invoke_with_state wire1 wire2 c1 c2 invocation (mi_state invocation).
Definition handle_socket (wire1 wire2 : Wire) (c1 c2 : nat) (invocation : ActorSocketInvocation)
    : M JsActorExecutor Error ActorSocketOutcome :=
  handle_socket_with_state wire1 wire2 c1 c2 invocation (si_state invocation).

Definition evict (wire : Wire) (c : nat) (eviction : ActorMethodEviction)
    : M JsActorExecutor Error () :=
  modify (with_residents (fun r => r ∖ {[ ev_actor eviction ]}));;
  reply ← exchange wire c (Evict eviction) None false;
  lift (match reply with
        | Evicted => Ok ()
        | ReplyFailed code message =>
            bail ("actor executor rejected eviction (" +:+ code +:+ "): " +:+ message)
        | Invoked _ _ _ => bail "actor executor returned the wrong reply to eviction"
        | WebsocketHandled _ _ | StateRequired =>
            bail "actor executor returned socket reply to eviction"
        end).

(** ** Traffic

    The calls that share the connection, and its reader: [issued] maps a call
    to the message id it was given, [delivered] lists the replies handed to
    calls, the latest first. *)
Record Traffic := {
  exec : JsActorExecutor;
  issued : gmap nat Z;
  delivered : list (nat * Z * ExecutorReply);
}.

Definition Traffic_new (actor_types : list string) : Traffic :=
  {| exec := JsActorExecutor_new actor_types; issued := ∅; delivered := [] |}.

Definition on_exec (f : JsActorExecutor -> JsActorExecutor) (t : Traffic) : Traffic :=
  {| exec := f (exec t); issued := issued t; delivered := delivered t |}.

Inductive traffic_step : relation Traffic :=
| T_begin t c e id :
    issued t !! c = None -> begin_exchange c (exec t) = (e, Ok id) ->
    traffic_step t {| exec := e; issued := <[ c := id ]> (issued t); delivered := delivered t |}
| T_write t message : traffic_step t (on_exec (with_sent message) t)
| T_residents t f : traffic_step t (on_exec (with_residents f) t)
| T_give_up t id : traffic_step t (on_exec (with_pending (delete id)) t)
| T_read t id reply c e :
    handle_client_message (Ok (Some (Reply id reply))) (exec t) = (e, Ok (c, reply)) ->
    traffic_step t {| exec := e; issued := issued t;
                      delivered := (c, id, reply) :: delivered t |}
| T_disconnect t : traffic_step t (on_exec disconnect t).

(** The counter has not come around. *)
Definition ids_left (t : Traffic) : Prop := (Z.of_nat (size (issued t)) < 2 ^ 64 - 1)%Z.

Record traffic_ok (t : Traffic) : Prop := {
  to_next : next_message_id (exec t) = (1 + Z.of_nat (size (issued t)))%Z;
  to_issued c id : issued t !! c = Some id -> (1 <= id < next_message_id (exec t))%Z;
  to_unique c c' id : issued t !! c = Some id -> issued t !! c' = Some id -> c = c';
  to_pending c id : pending (exec t) !! id = Some c -> issued t !! c = Some id;
  to_delivered c id r :
    (c, id, r) ∈ delivered t -> issued t !! c = Some id /\ pending (exec t) !! id = None;
  to_once : NoDup ((fun d => d.1.1) <$> delivered t);
}.

(** ** What is written for an actor *)

Definition envelope_of (m : ActorExecutorServerMessage) : option ExecutorCommandEnvelope :=
  match m with Command _ envelope => Some envelope | Attached _ => None end.

(** The envelopes sent for [actor], in order. *)
Definition envelopes_to (actor : ActorKey) (e : JsActorExecutor) : list ExecutorCommandEnvelope :=
  filter (fun envelope => command_actor (command envelope) = actor)
    (omap envelope_of (sent e)).

(** Whatever the other calls do meanwhile, they neither write for [actor] nor
    record it as resident: its execution gate admits one execution at a time. *)
Definition leaves_alone (actor : ActorKey) (wire : Wire) : Prop :=
  forall e, envelopes_to actor (meanwhile wire e) = envelopes_to actor e /\
            (actor ∈ residents (meanwhile wire e) -> actor ∈ residents e).

Definition resident_envelope (cmd : ExecutorCommand) : ExecutorCommandEnvelope :=
  {| command := cmd; envelope_state := None; resident_only := true |}.
Definition hydrating_envelope (cmd : ExecutorCommand) (state : option Value)
    : ExecutorCommandEnvelope :=
  {| command := cmd; envelope_state := Some (or_null state); resident_only := false |}.
End Executor.
Arguments ExecutorSerde J : clear implicits.

(** ** Replies and the calls that wait for them *)

Section TrafficProofs.
Context {J : Json}.

Lemma traffic_new_ok actor_types : traffic_ok (Traffic_new actor_types).
Proof.
  split; simpl; [done | | | | | constructor]; intros *; rewrite ?lookup_empty; try done.
  by intros ?%elem_of_nil.
Qed.

Lemma handle_reply_Ok id reply (e e' : JsActorExecutor) c r :
  handle_client_message (Ok (Some (Reply id reply))) e = (e', Ok (c, r)) <->
  pending e !! id = Some c /\ r = reply /\ e' = with_pending (delete id) e.
Proof.
  unfold handle_client_message, deliver, modify, gets, lift. simpl.
  unfold mbind, M_bind, mret, M_ret. simpl.
  destruct (pending e !! id) as [c' |]; simpl; [| by split; [| intros [? ?]]].
  split; [by intros [= <- <- <-] | by intros ([= ->] & -> & ->)].
Qed.

Lemma traffic_ok_begin t c e id :
  traffic_ok t -> issued t !! c = None -> begin_exchange c (exec t) = (e, Ok id) ->
  ids_left {| exec := e; issued := <[ c := id ]> (issued t); delivered := delivered t |} ->
  traffic_ok {| exec := e; issued := <[ c := id ]> (issued t); delivered := delivered t |}.
Proof.
  intros [Hnext Hissued Huniq Hpending Hdel Honce] Hc [= <- <-] Hleft.
  unfold ids_left in Hleft. simpl in *. rewrite map_size_insert_None in Hleft by done.
  assert (Hfresh : forall c', issued t !! c' <> Some (next_message_id (exec t)))
    by (intros c' ?%Hissued; lia).
  assert (Hwrap : u64_wrapping_add (next_message_id (exec t)) 1
                  = (next_message_id (exec t) + 1)%Z)
    by (apply Z.mod_small; lia).
  split; simpl.
  - rewrite Hwrap, map_size_insert_None by done. lia.
  - intros c' id' [[<- <-] | [_ Hc']]%lookup_insert_Some; rewrite Hwrap; [lia |].
    apply Hissued in Hc'. lia.
  - intros c1 c2 id' [[<- <-] | [_ H1]]%lookup_insert_Some [[<- H2] | [_ H2]]%lookup_insert_Some;
      simplify_eq; [done | by apply Hfresh in H2 | by apply Hfresh in H1 | eauto].
  - intros c' id' [[<- <-] | [Hid H]]%lookup_insert_Some; [by rewrite lookup_insert_eq |].
    apply Hpending in H. rewrite lookup_insert_ne; [done | congruence].
  - intros c' id' r [H1 H2]%Hdel. split; [rewrite lookup_insert_ne; congruence |].
    rewrite lookup_insert_ne; [done |]. intros <-. by apply Hfresh in H1.
  - done.
Qed.

(** Removing waiting calls, or touching anything else, keeps the traffic in order. *)
Lemma traffic_ok_weaken t f :
  next_message_id (f (exec t)) = next_message_id (exec t) ->
  pending (f (exec t)) ⊆ pending (exec t) ->
  traffic_ok t -> traffic_ok (on_exec f t).
Proof.
  intros Hnext Hsub [H1 H2 H3 H4 H5 H6].
  split; simpl; rewrite ?Hnext; try done.
  - intros c id H. apply H4. by eapply lookup_weaken.
  - intros c id r [Hi Hp]%H5. split; [done |]. by eapply lookup_weaken_None.
Qed.

Lemma traffic_ok_read t id reply c e :
  traffic_ok t ->
  handle_client_message (Ok (Some (Reply id reply))) (exec t) = (e, Ok (c, reply)) ->
  traffic_ok {| exec := e; issued := issued t; delivered := (c, id, reply) :: delivered t |}.
Proof.
  intros [H1 H2 H3 H4 H5 H6] (Hp & _ & ->)%handle_reply_Ok.
  split; simpl; try done.
  - intros c' id' [_ H]%lookup_delete_Some. by apply H4.
  - intros c' id' r [[= -> -> ->] | Hin]%elem_of_cons.
    + split; [by apply H4 | apply lookup_delete_eq].
    + apply H5 in Hin as [? Hnone]. split; [done |]. by apply lookup_delete_None; right.
  - constructor; [| done].
    intros ([[c' id'] r] & Hc & Hin)%list_elem_of_fmap. simpl in Hc. subst c'.
    apply H5 in Hin as [Hi Hnone]. apply H4 in Hp as Hi'. congruence.
Qed.

Lemma traffic_step_issued t t' : traffic_step t t' -> issued t ⊆ issued t'.
Proof.
  intros Hs. destruct Hs; try done. by apply insert_subseteq.
Qed.

Lemma traffic_step_ids_left t t' : traffic_step t t' -> ids_left t' -> ids_left t.
Proof.
  unfold ids_left. intros Hs%traffic_step_issued%map_subseteq_size. lia.
Qed.

Lemma traffic_ok_step t t' : traffic_step t t' -> ids_left t' -> traffic_ok t -> traffic_ok t'.
Proof.
  intros Hs Hleft Hok. destruct Hs;
    [by apply traffic_ok_begin | | | | by apply traffic_ok_read |];
    apply traffic_ok_weaken; simpl; try done; [apply delete_subseteq | apply map_empty_subseteq].
Qed.

Lemma traffic_ok_reachable actor_types t :
  rtc traffic_step (Traffic_new actor_types) t -> ids_left t -> traffic_ok t.
Proof.
  revert t. apply (rtc_ind_r (fun t => ids_left t -> traffic_ok t)).
  - intros _. apply traffic_new_ok.
  - intros t t' _ Hs IH Hleft. eapply traffic_ok_step; [done.. |].
    apply IH. by eapply traffic_step_ids_left.
Qed.

(** C34: Whatever order calls start, give up and are answered in, a reply reaches the call whose
    message carried its id, no call is given two replies, and a call that still waits is the one
    the next reply with its id is handed to, as long as fewer than 2^64 - 1 messages were sent. *)
Theorem replies_reach_their_call (actor_types : list string) (t : Traffic) :
  rtc traffic_step (Traffic_new actor_types) t -> ids_left t ->
  (forall c id reply, (c, id, reply) ∈ delivered t -> issued t !! c = Some id) /\
  NoDup ((fun d => d.1.1) <$> delivered t) /\
  (forall c id reply, pending (exec t) !! id = Some c ->
     issued t !! c = Some id /\
     (forall id' reply', (c, id', reply') ∉ delivered t) /\
     read_executor_messages [Ok (Some (Reply id reply))] (exec t)
     = (with_pending (delete id) (exec t), [(c, reply)], None)).
Proof.
  intros Hr Hleft. apply traffic_ok_reachable in Hr as [_ _ _ H4 H5 H6]; [| done].
  split_and!; [intros c id r Hin; by eapply H5 | done |].
  intros c id reply Hp. split_and!; [by apply H4 | |].
  - intros id' reply' [Hi Hnone]%H5. apply H4 in Hp as ?. congruence.
  - assert (E : handle_client_message (Ok (Some (Reply id reply))) (exec t)
                = (with_pending (delete id) (exec t), Ok (c, reply)))
      by by apply handle_reply_Ok.
    cbn [read_executor_messages]. by rewrite E.
Qed.

(** Two calls, answered out of order; the second reply to the same id ends the connection. *)
Definition sample_traffic : Traffic :=
  let e0 := JsActorExecutor_new ["Counter"] in
  let e2 := (begin_exchange 8 (begin_exchange 7 e0).1).1 in
  {| exec := with_pending (delete 2%Z) e2;
     issued := <[ 8 := 2%Z ]> (<[ 7 := 1%Z ]> ∅);
     delivered := [(8, 2%Z, Evicted)] |}.
End TrafficProofs.

Lemma replies_reach_their_call_witness :
  (rtc traffic_step (Traffic_new ["Counter"]) sample_traffic /\ ids_left sample_traffic) /\
  pending (exec sample_traffic) !! 1%Z = Some 7 /\
  (forall reply, read_executor_messages [Ok (Some (Reply 1 reply))] (exec sample_traffic)
     = (with_pending (delete 1%Z) (exec sample_traffic), [(7, reply)], None)).
Proof.
  assert (Hr : rtc traffic_step (Traffic_new ["Counter"]) sample_traffic).
  { eapply rtc_l; [eapply (T_begin _ 7); reflexivity |].
    eapply rtc_l; [eapply (T_begin _ 8); reflexivity |].
    eapply rtc_l; [eapply (T_read _ 2 Evicted 8); reflexivity | apply rtc_refl]. }
  assert (Hleft : ids_left sample_traffic) by reflexivity.
  split_and!; [done | done | reflexivity |].
  intros reply. by apply (replies_reach_their_call ["Counter"] sample_traffic Hr Hleft).
Defined.

(** ** Hydration *)

Section HydrationProofs.
Context {J : Json} {S : ExecutorSerde J}.

Lemma envelopes_to_sent actor message (e : JsActorExecutor) :
  envelopes_to actor (with_sent message e)
  = (envelopes_to actor e ++
     match envelope_of message with
     | Some envelope =>
         if decide (command_actor (command envelope) = actor) then [envelope] else []
     | None => []
     end)%list.
Proof.
  unfold envelopes_to. simpl. rewrite omap_app, filter_app. simpl.
  destruct (envelope_of message); [| done]. by rewrite filter_cons.
Qed.

(** One exchange writes its message at most once, and an executed reply comes from the process. *)
Lemma exchange_written wire c cmd state ro (e e' : JsActorExecutor) r :
  leaves_alone (command_actor cmd) wire -> (command_actor cmd ∉ residents e) ->
  exchange wire c cmd state ro e = (e', r) ->
  (command_actor cmd ∉ residents e') /\
  (exists wrote,
     envelopes_to (command_actor cmd) e' = (envelopes_to (command_actor cmd) e ++ wrote)%list /\
     (wrote = [{| command := cmd; envelope_state := state; resident_only := ro |}] /\
      (forall reply, r = Ok reply -> answer wire = Some reply)
      \/ wrote = [] /\ (forall reply, r = Ok reply ->
           reply = ReplyFailed "resource_exhausted" too_large_message))).
Proof.
  intros Hquiet Hres H. unfold exchange, write_server_message, attempt, begin_exchange,
    remove_pending, modify, lift, mbind, M_bind, mret, M_ret in H. simpl in H.
  set (message := Command _ _) in H.
  assert (Hsent : forall e1 : JsActorExecutor, sent e1 = sent e ->
    envelopes_to (command_actor cmd) (with_sent message e1)
    = (envelopes_to (command_actor cmd) e
       ++ [{| command := cmd; envelope_state := state; resident_only := ro |}])%list).
  { intros e1 He1. rewrite envelopes_to_sent. unfold envelopes_to. rewrite He1. simpl.
    by rewrite decide_True. }
  destruct (server_message_to_vec message) as [b | err]; simpl in H.
  2: { simplify_eq. split; [done |]. exists []. rewrite app_nil_r. split; [done | by right]. }
  destruct (_ <? _)%Z; simpl in H.
  { simplify_eq. split; [done |]. exists []. rewrite app_nil_r. split; [done | right].
    split; [done |]. by intros reply [= <-]. }
  destruct (written wire) as [[] | err]; simpl in H; simplify_eq.
  - edestruct Hquiet as [Hw Hr]. split; [intros Hin; by apply Hr in Hin |].
    eexists. split; [etrans; [apply Hw | by apply Hsent] | left].
    split; [done |]. intros reply Hreply. by apply some_or_Ok in Hreply.
  - split; [done |]. eexists. split; [by apply Hsent | by left].
Qed.

Lemma add_resident_in actor (r : gset ActorKey) : actor ∈ add_resident actor r.
Proof. unfold add_resident. set_solver. Qed.

Lemma settle_spec actor r1 (e e' : JsActorExecutor) r :
  (actor ∉ residents e) ->
  match r1 with Ok reply => settle actor reply e | Err error => (e, Err error) end = (e', r) ->
  r <> Ok StateRequired /\
  (actor ∈ residents e' <-> (exists reply, r = Ok reply /\ is_executed reply = true)) /\
  envelopes_to actor e' = envelopes_to actor e /\
  (forall reply, r = Ok reply -> r1 = Ok reply).
Proof.
  intros Hres Hs. pose proof (add_resident_in actor (residents e)).
  destruct r1 as [[] |]; unfold settle, modify, lift, mbind, M_bind, mret, M_ret in Hs;
    simpl in Hs; simplify_eq; split_and!; try done;
    first [by intros reply [= <-] | split; [by eauto | by intros (? & [= <-] & ?)]].
Qed.

(** C33: The hydration protocol: a process that does not hold the actor is sent one command with the
    state; one that holds it is asked without the state, and again with it only when it answers
    that it needs it.  An executed reply is the answer to the last message written, an actor is
    recorded as resident exactly when its command was executed, and a caller never sees
    [StateRequired]. *)
Theorem hydration_protocol wire1 wire2 c1 c2 cmd state (e e' : JsActorExecutor) r :
  leaves_alone (command_actor cmd) wire1 -> leaves_alone (command_actor cmd) wire2 ->
  exchange_with_state wire1 wire2 c1 c2 cmd state e = (e', r) ->
  r <> Ok StateRequired /\
  (command_actor cmd ∈ residents e' <->
   (exists reply, r = Ok reply /\ is_executed reply = true)) /\
  exists wrote, envelopes_to (command_actor cmd) e'
                = (envelopes_to (command_actor cmd) e ++ wrote)%list /\
  (if bool_decide (command_actor cmd ∈ residents e)
   then wrote = [] \/ wrote = [resident_envelope cmd]
        \/ wrote = [resident_envelope cmd; hydrating_envelope cmd state]
           /\ answer wire1 = Some StateRequired
   else wrote = [] \/ wrote = [hydrating_envelope cmd state]) /\
  (forall reply, r = Ok reply -> is_executed reply = true ->
     match wrote with
     | [_] => answer wire1 = Some reply
     | [_; _] => answer wire2 = Some reply
     | _ => False
     end).
Proof.
  intros Hq1 Hq2 H. unfold exchange_with_state, gets, modify, lift, mbind, M_bind, mret, M_ret in H.
  simpl in H. set (e0 := with_residents _ e) in H. set (actor := command_actor cmd) in *.
  assert (Hres0 : actor ∉ residents e0) by (simpl; apply not_elem_of_difference; right; by apply elem_of_singleton).
  change (envelopes_to actor e) with (envelopes_to actor e0).
  destruct (exchange wire1 _ _ _ _ _) as [e1 r1] eqn:E1.
  destruct (exchange_written _ _ _ _ _ _ _ _ Hq1 Hres0 E1) as (H1 & w1 & Hw1 & W1). fold actor in H1, Hw1.
  assert (Hcase : (actor ∈ residents e /\ r1 = Ok StateRequired) \/
    match r1 with Ok reply => settle actor reply e1 | Err error => (e1, Err error) end = (e', r)).
  { destruct r1 as [[] |]; auto; simpl in H; rewrite ?andb_false_r in H; auto.
    rewrite andb_true_r in H. case_bool_decide; auto. }
  destruct Hcase as [[Hres ->] | Hs].
  - rewrite bool_decide_true in * by done. simpl in H.
    destruct (exchange wire2 _ _ _ _ _) as [e2 r2] eqn:E2.
    destruct (exchange_written _ _ _ _ _ _ _ _ Hq2 H1 E2) as (H2 & w2 & Hw2 & W2).
    fold actor in H2, Hw2. destruct (settle_spec _ _ _ _ _ H2 H) as (? & ? & Hs & Hr).
    split; [done |]. split; [done |]. exists (w1 ++ w2)%list.
    rewrite Hs, Hw2, Hw1, app_assoc. split; [done |].
    destruct W1 as [[-> A1] | [-> F1]]; [| by discriminate (F1 _ eq_refl)].
    destruct W2 as [[-> A2] | [-> F2]]; simpl; split; auto.
    intros reply Hreply%Hr Hx. apply F2 in Hreply. by subst reply.
  - destruct (settle_spec _ _ _ _ _ H1 Hs) as (? & ? & Hs' & Hr).
    split; [done |]. split; [done |]. exists w1. rewrite Hs', Hw1. split; [done |].
    destruct W1 as [[-> A1] | [-> F1]]; split; [by case_bool_decide; auto | by auto | |].
    + case_bool_decide; auto.
    + intros reply Hreply%Hr Hx. apply F1 in Hreply. by subst reply.
Qed.

(** A reply is the process's answer, or the report of an oversized command. *)
Lemma exchange_reply wire c cmd state ro (e e' : JsActorExecutor) reply :
  exchange wire c cmd state ro e = (e', Ok reply) ->
  answer wire = Some reply \/ reply = ReplyFailed "resource_exhausted" too_large_message.
Proof.
  unfold exchange. intros (e1 & id & _ & H)%M_bind_Ok.
  apply M_bind_Ok in H as (e2 & [[] | error] & _ & H).
  - apply M_bind_Ok in H as (e3 & [] & _ & H). injection H as _ H. left. by apply some_or_Ok in H.
  - apply M_bind_Ok in H as (e3 & [] & _ & H). destruct error; [right | done]. by injection H as _ <-.
Qed.

(** The first command for a resident actor does not depend on the state the caller loaded: only a
    process that says it needs it receives it. *)
Lemma resident_state_not_sent wire1 wire2 c1 c2 cmd state state' (e : JsActorExecutor) :
  command_actor cmd ∈ residents e -> answer wire1 <> Some StateRequired ->
  exchange_with_state wire1 wire2 c1 c2 cmd state e
  = exchange_with_state wire1 wire2 c1 c2 cmd state' e.
Proof.
  intros Hres Hans.
  unfold exchange_with_state, gets, modify, lift, mbind, M_bind, mret, M_ret. simpl.
  rewrite !bool_decide_true by done. simpl.
  set (e0 := with_residents _ e).
  destruct (exchange wire1 _ _ _ _ _) as [e1 [reply |]] eqn:E1; [| done].
  apply exchange_reply in E1 as [E1 | ->]; [| done]. by destruct reply.
Qed.
End HydrationProofs.

(** A process without its actors any more, on a connection that works. *)
Definition sample_serde : ExecutorSerde text_json :=
  {| server_message_to_vec _ := Ok []; client_message_from_slice _ := bail "sample" |}.
#[local] Existing Instance sample_serde.
Definition sample_counter : ActorKey :=
  {| namespace_id := "dev"; actor_type := "Counter"; actor_id := "a" |}.
Definition sample_invoke : ExecutorCommand :=
  Invoke {| mi_request_id := "r"; mi_actor := sample_counter; mi_method := "increment";
            mi_args := []; mi_state := None; mi_connections := [] |}.
Definition sample_wire (reply : ExecutorReply) : Wire :=
  {| written := Ok (); meanwhile := fun e => e; answer := Some reply |}.
Definition sample_invoked : ExecutorReply := Invoked (J := text_json) "2" "{n:2}" [].
Definition sample_state : Value (Json := text_json) := "{n:1}".
Definition sample_executor : JsActorExecutor :=
  with_residents (fun _ => {[ sample_counter ]}) (JsActorExecutor_new ["Counter"]).

Lemma hydration_protocol_witness :
  exists e' r, exchange_with_state (sample_wire StateRequired)
    (sample_wire sample_invoked) 7 8 sample_invoke (Some sample_state) sample_executor
    = (e', r) /\
  r = Ok sample_invoked /\
  sent e' = [Command 1 (resident_envelope sample_invoke);
             Command 2 (hydrating_envelope sample_invoke (Some sample_state))] /\
  (sample_counter ∈ residents e' <-> (exists reply, r = Ok reply /\ is_executed reply = true)).
Proof.
  eexists _, _. split; [reflexivity |]. split; [reflexivity |]. split; [reflexivity |].
  by apply (hydration_protocol (sample_wire StateRequired) (sample_wire sample_invoked)
              7 8 sample_invoke (Some sample_state) sample_executor).
Defined.
