(* ===== verification/HostStartup.v ===== *)
(** * How a host comes up and goes down

    The sockets and tasks around an actor host: the Unix socket on which the
    JavaScript process attaches and the life of that connection
    ([src/actor/executor_connection.rs]), the TCP listener with its route file and
    the joining of the three dependencies ([src/host/process.rs]), and the end of
    the lease renewal ([src/host/lease_maintenance.rs]). *)
From S2P Require Import Prelude Json Identity SocketProtocol Net Leases LeaseMaintenance Executor HostProcess.
Local Open Scope string_scope.

(** ** Files

    What is at a path: a socket, or anything else.  The [n]-th access to the file
    system fails when [io n] says so, and then changes nothing. *)

Inductive Entry := SocketEntry | OtherEntry.
#[export] Instance Entry_eq_dec : EqDecision Entry.
Proof. solve_decision. Defined.

Record Files := { entries : gmap string Entry; contents : gmap string string; accesses : nat }.

(** [std::io::Error]: the one kind the code tells apart, or any other. *)
Inductive IoError := IoNotFound | IoOther (e : Error).
Definition io_error (e : IoError) : Error :=
  match e with IoNotFound => ["No such file or directory (os error 2)"] | IoOther e => e end.

(** [Path::parent], of a path without repeated or trailing slashes. *)
Definition path_parent (path : string) : option string :=
  if is_empty path || bool_decide (path = "/") then None
  else
    let parent := join_char "/" (removelast (split_char "/" path)) in
    Some (if is_empty parent && starts_with path "/" then "/" else parent).

Section FileSystem.
Context (io : nat -> option Error).

Definition access {A} (f : Files -> Files * Result IoError A) : M Files IoError A := fun fs =>
  let passed fs := {| entries := entries fs; contents := contents fs; accesses := S (accesses fs) |} in
  match io (accesses fs) with
  | Some e => (passed fs, Err (IoOther e))
  | None => let '(fs, r) := f fs in (passed fs, r)
  end.
Definition set_entries (es : gmap string Entry) (fs : Files) : Files :=
  {| entries := es; contents := contents fs; accesses := accesses fs |}.

(** [symlink_metadata(path)], [remove_file(path)], [create_dir_all(path)],
    [UnixListener::bind(path)], [write(path, text)] *)
Definition symlink_metadata (path : string) : M Files IoError Entry :=
  access (fun fs => (fs, match entries fs !! path with Some e => Ok e | None => Err IoNotFound end)).
Definition remove_file (path : string) : M Files IoError () :=
  access (fun fs => match entries fs !! path with
                    | Some _ => (set_entries (delete path (entries fs)) fs, Ok tt)
                    | None => (fs, Err IoNotFound)
                    end).
Definition create_dir_all (path : string) : M Files IoError () := access (fun fs => (fs, Ok tt)).
Definition unix_bind (path : string) : M Files IoError () :=
  access (fun fs => match entries fs !! path with
                    | Some _ => (fs, Err (IoOther ["Address already in use (os error 98)"]))
                    | None => (set_entries (<[ path := SocketEntry ]> (entries fs)) fs, Ok tt)
                    end).
Definition write_text (path text : string) : M Files IoError () :=
  access (fun fs => ({| entries := entries fs; contents := <[ path := text ]> (contents fs);
                        accesses := accesses fs |}, Ok tt)).

(** [?] turns an I/O error into an [anyhow] error. *)
Definition io_try {A} (c : M Files IoError A) : M Files Error A := fun fs =>
  let '(fs, r) := c fs in (fs, map_err io_error r).

(** ** The socket the executor attaches to *)

Definition prepare_socket_path (path : string) : M Files Error () :=
  found ← attempt (symlink_metadata path);
  match found with
  | Ok kind =>
      lift (ensure (bool_decide (kind = SocketEntry))
              ("refusing to replace non-socket actor executor path " +:+ path));;
      io_try (remove_file path)
  | Err IoNotFound => mret ()
  | Err e => lift (Err (io_error e))
  end.

Definition remove_socket (path : string) : M Files Error () :=
  removed ← attempt (remove_file path);
  match removed with
  | Ok _ | Err IoNotFound => mret ()
  | Err e => lift (Err (io_error e))
  end.

(** [ActorExecutorListener], and its [bind] *)
Record ActorExecutorListener := { socket_path : string }.

Definition create_socket_directory (path : string) : M Files Error () :=
  match path_parent path with
  | Some parent =>
      M_context ("create actor executor directory " +:+ parent) (io_try (create_dir_all parent))
  | None => mret ()
  end.

Definition bind (path : string) : M Files Error ActorExecutorListener :=
  prepare_socket_path path;;
  create_socket_directory path;;
  M_context ("bind actor executor socket " +:+ path) (io_try (unix_bind path));;
  mret {| socket_path := path |}.

Context `{J : Json} {Serde : @ExecutorSerde J}.

(** What happens at the listener, in order: a peer connects, or accepting fails;
    a connected peer's first line arrives, or reading it fails. *)
Inductive ArrivalEvent := Connects (peer : anyhow nat) | Sends (peer : nat) (line : anyhow bytes).

(** [UnixListener::accept] waits, without a limit, for the first peer; [None] when
    nobody has come.  What happens afterwards is left. *)
Fixpoint listener_accept (events : list ArrivalEvent) : option (anyhow nat * list ArrivalEvent) :=
  match events with
  | [] => None
  | Connects peer :: events => Some (peer, events)
  | Sends _ _ :: events => listener_accept events
  end.

(** The line the accepted peer sends; what others do goes unnoticed. *)
Fixpoint peer_line (peer : nat) (events : list ArrivalEvent) : option (anyhow bytes) :=
  match events with
  | [] => None
  | Sends p line :: events => if (p =? peer)%nat then Some line else peer_line peer events
  | Connects _ :: events => peer_line peer events
  end.

(** [ActorExecutorListener::accept_connection]; [None] while it still waits. *)
Definition accept_connection (l : ActorExecutorListener) (events : list ArrivalEvent)
    : option (anyhow JsActorExecutor) :=
  '(stream, events) ← listener_accept events;
  match with_context ("accept actor executor at " +:+ socket_path l) stream with
  | Err e => Some (Err e)
  | Ok peer =>
      line ← peer_line peer events;
      Some (attach ← accept_attach (line ← line; read_client_message line);
            Ok (JsActorExecutor_new attach))
  end.

(** [ActorExecutorListener::accept]: the socket file is removed once the
    connection was accepted or refused.  [None]: the future still waits, or was
    dropped while it did, which runs nothing more. *)
Definition accept (l : ActorExecutorListener) (events : list ArrivalEvent)
    : M Files Error (option JsActorExecutor) :=
  match accept_connection l events with
  | None => mret None
  | Some result =>
      cleanup ← attempt (remove_socket (socket_path l));
      match result, cleanup with
      | Ok connection, Ok _ => mret (Some connection)
      | Err error, _ => lift (Err error)
      | Ok _, Err error => lift (Err error)
      end
  end.

(** [connect_executor]: [javascript] is what became of spawning the process.  The
    future waits, without a limit and without looking at the process, for
    somebody to attach: [None] while it does, or when [try_join!] dropped it
    there. *)
Definition connect_executor {Child} (socket : string) (javascript : anyhow Child)
    (events : list ArrivalEvent) : M Files Error (option (JsActorExecutor * Child)) :=
  listener ← bind socket;
  child ← lift javascript;
  executor ← accept listener events;
  mret ((fun executor => (executor, child)) <$> executor).

(** [ActorExecutorConnection::mark_ready]: [written] is the outcome of the write. *)
Definition mark_ready (written : anyhow ()) : M JsActorExecutor Error () := fun e =>
  let '(e, r) := write_server_message (Attached ACTOR_EXECUTOR_PROTOCOL_VERSION) written e in
  (e, map_err (fun err => match err with MessageTooLarge => [too_large_message] | WriteFailed e => e end) r).

(** [JsActorExecutor::close]: the failure of the writer's shutdown is ignored. *)
Definition close (e : JsActorExecutor) : JsActorExecutor := disconnect e.

(** What the [select!] of [ActorExecutorConnection::run] takes: the end of the
    reader, with its result or the error of joining it, or the shutdown. *)
Inductive RunEvent := ReaderEnded (joined : anyhow (anyhow ())) | ShutdownCancelled.
Definition run (e : JsActorExecutor) (event : RunEvent) : JsActorExecutor * anyhow () :=
  match event with
  | ReaderEnded (Ok result) => (e, result)
  | ReaderEnded (Err error) => (e, Err error)
  | ShutdownCancelled => (close e, Ok tt)
  end.

(** [ActorExecutor::handle_socket] and [evict] of an executor that does not
    define them. *)
Definition default_handle_socket : anyhow ActorSocketOutcome :=
  Ok (SocketFailed {| Identity.code := "socket_not_supported";
                      Identity.message := "actor executor does not support sockets" |}).
Definition default_evict : anyhow () := Ok tt.
End FileSystem.

(** ** Joining the dependencies *)

(** How the three futures that [try_join!] polls end. *)
Inductive Ended (C L E : Type) :=
| ControlPlaneEnded (r : anyhow C)
| ListenerEnded (r : anyhow L)
| ExecutorConnected (r : anyhow E).
Arguments ControlPlaneEnded {_ _ _} _.
Arguments ListenerEnded {_ _ _} _.
Arguments ExecutorConnected {_ _ _} _.

(** [connect_host_dependencies]: the first failure ends the wait; [None] while
    some future still runs. *)
Fixpoint connect_host_dependencies {C L E} (ends : list (Ended C L E)) (c : option C) (l : option L)
    (e : option E) : option (anyhow (C * L * E)) :=
  match c, l, e with
  | Some c, Some l, Some e => Some (Ok (c, l, e))
  | _, _, _ =>
      match ends with
      | [] => None
      | ControlPlaneEnded (Ok c) :: ends => connect_host_dependencies ends (Some c) l e
      | ListenerEnded (Ok l) :: ends => connect_host_dependencies ends c (Some l) e
      | ExecutorConnected (Ok e) :: ends => connect_host_dependencies ends c l (Some e)
      | ControlPlaneEnded (Err error) :: _ | ListenerEnded (Err error) :: _
      | ExecutorConnected (Err error) :: _ => Some (Err error)
      end
  end.

Section Bind.
Context {SocketAddr : Type} (display_socket_addr : SocketAddr -> string) (is_ipv6 : SocketAddr -> bool)
        (endpoint_from_shared : string -> anyhow (option string * option string))
        (io : nat -> option Error).

(** [bind_host]: [bound] is the address the listener got, [looks] and [lookup] what
    the advertised route depends on. *)
Definition bind_host (config : ActorHostConfig (SocketAddr := SocketAddr)) (bound : anyhow SocketAddr) (looks : list FileRead)
    (lookup : string -> anyhow (list SocketAddr)) : M Files Error (string * HostEndpoint) :=
  bound ← lift (with_context ("bind actor host at " +:+ display_socket_addr (host_bind config)) bound);
  route ← lift (advertised_route display_socket_addr is_ipv6 endpoint_from_shared config bound looks lookup);
  (match route_file config with
   | Some path => M_context ("write actor host route to " +:+ path) (io_try (write_text io path route))
   | None => mret ()
   end);;
  mret (route, {| endpoint_id := config_host_id config; endpoint_route := route |}).
End Bind.

(** ** The end of the renewal *)

(** [LeaseRenewalTask::shutdown]: [joined] is how the task ended once it was
    cancelled, [None] when it did not within the timeout and was aborted. *)
Definition shutdown_renewal (joined : option (anyhow ())) : anyhow () :=
  match joined with
  | Some r => r
  | None => bail ("host lease renewal did not stop within "
                  +:+ display_u64 (as_millis LEASE_RENEWAL_SHUTDOWN_TIMEOUT) +:+ "ms")
  end.

(** ** The executor's socket *)

Section SocketProofs.
Context (io : nat -> option Error) `{J : Json} {Serde : @ExecutorSerde J}.

(** What an operation on the socket's path may do: leave everything else as it
    was, and never touch what is not a socket. *)
Definition only_socket (path : string) (fs fs' : Files) : Prop :=
  (forall p, p <> path -> entries fs' !! p = entries fs !! p) /\
  (entries fs !! path = Some OtherEntry -> entries fs' !! path = Some OtherEntry) /\
  contents fs' = contents fs.

#[local] Instance only_socket_preorder path : PreOrder (only_socket path).
Proof.
  split; [by intros fs |]. intros f1 f2 f3 (E1 & O1 & C1) (E2 & O2 & C2).
  split_and!; [intros p Hp; by rewrite E2, E1 | auto | congruence].
Qed.

Lemma access_run {A} (f : Files -> Files * Result IoError A) fs fs' r :
  access io f fs = (fs', r) ->
  (exists e, io (accesses fs) = Some e /\ r = Err (IoOther e) /\ entries fs' = entries fs /\
     contents fs' = contents fs) \/
  (io (accesses fs) = None /\ exists fs1, f fs = (fs1, r) /\ entries fs' = entries fs1 /\
     contents fs' = contents fs1).
Proof.
  unfold access. destruct (io (accesses fs)) as [e |].
  - intros [= <- <-]. left. by exists e.
  - destruct (f fs) as [fs1 r1]. intros [= <- <-]. right. split; [done |]. by exists fs1.
Qed.

Lemma only_socket_same path fs fs' :
  entries fs' = entries fs -> contents fs' = contents fs -> only_socket path fs fs'.
Proof. intros He Hc. unfold only_socket. by rewrite He, Hc. Qed.

(** Removing a file whose path holds no other kind of file. *)
Lemma remove_file_run path fs fs' r :
  remove_file io path fs = (fs', r) ->
  (entries fs !! path = Some OtherEntry \/ only_socket path fs fs') /\
  (io (accesses fs) = None -> r = Err IoNotFound \/ r = Ok tt) /\
  (r = Err IoNotFound \/ r = Ok tt -> entries fs' !! path = None) /\
  (forall p, p <> path -> entries fs' !! p = entries fs !! p) /\ contents fs' = contents fs.
Proof.
  intros [(e & Hio & -> & He & Hc) | (Hio & fs1 & Hf & He & Hc)]%access_run.
  - split_and!; [right; by apply only_socket_same | congruence | by intros [[=] | [=]] | by rewrite He | done].
  - destruct (entries fs !! path) as [kind |] eqn:Hk; injection Hf as <- <-; rewrite He, Hc; simpl.
    + split_and!; [destruct kind; [right | by left] | auto | by rewrite lookup_delete_eq
        | intros p Hp; by rewrite lookup_delete_ne | done].
      unfold only_socket. rewrite He, Hc. simpl.
      split_and!; [intros p Hp; by rewrite lookup_delete_ne | congruence | done].
    + split_and!; [right; by apply only_socket_same | auto | done | done | done].
Qed.

Definition works : Prop := forall n, io n = None.

Lemma prepare_socket_path_run path fs fs' r :
  prepare_socket_path io path fs = (fs', r) ->
  only_socket path fs fs' /\
  (r = Ok tt -> entries fs !! path <> Some OtherEntry /\ entries fs' !! path = None) /\
  (works -> entries fs !! path <> Some OtherEntry -> r = Ok tt).
Proof.
  unfold prepare_socket_path, mbind, M_bind, attempt, io_try, lift, mret, M_ret. intros H.
  destruct (symlink_metadata io path fs) as [fs1 found] eqn:Hm.
  apply access_run in Hm as [(e & Hio & -> & He & Hc) | (_ & fs2 & Hf & He & Hc)].
  { injection H as <- <-. split_and!; [by apply only_socket_same | done | intros Hw; congruence]. }
  destruct (entries fs !! path) as [kind |] eqn:Hk; injection Hf as <- <-; simpl in H.
  - case_bool_decide as Hsock; simpl in H; [subst kind |].
    + destruct (remove_file io path fs1) as [fs3 r3] eqn:Hr. injection H as <- <-.
      pose proof Hr as Hr'. unfold remove_file, access in Hr'.
      apply remove_file_run in Hr as ([Hother | Hsame] & _ & Hgone & _); [congruence |].
      split_and!; [etrans; [by apply only_socket_same | done] | |].
      * intros Hok. split; [done |]. apply Hgone. right. by destruct r3 as [[] |].
      * intros Hw _. rewrite Hw, He, Hk in Hr'. by injection Hr' as <- <-.
    + injection H as <- <-. split_and!; [by apply only_socket_same | done |].
      intros _ Hne. destruct Hne. by destruct kind.
  - injection H as <- <-. split_and!; [by apply only_socket_same | | done].
    intros _. split; [done | congruence].
Qed.

(** Directories are not files of the model. *)
Lemma create_directory_run path fs fs' r :
  create_socket_directory io path fs = (fs', r) ->
  entries fs' = entries fs /\ contents fs' = contents fs /\ (works -> r = Ok tt).
Proof.
  unfold create_socket_directory. destruct (path_parent path); [| by intros [= <- <-]].
  unfold M_context, io_try, create_dir_all. destruct (access io _ fs) as [fs1 r1] eqn:Ha. intros [= <- <-].
  apply access_run in Ha as [(e & Hio & -> & He & Hc) | (_ & fs2 & Hf & He & Hc)].
  - split_and!; [done | done | intros Hw; congruence].
  - by injection Hf as <- <-.
Qed.

Lemma unix_bind_run msg path fs fs' r :
  M_context msg (io_try (unix_bind io path)) fs = (fs', r) ->
  entries fs !! path = None ->
  only_socket path fs fs' /\ (r = Ok tt -> entries fs' !! path = Some SocketEntry) /\ (works -> r = Ok tt).
Proof.
  unfold M_context, io_try, unix_bind. destruct (access io _ fs) as [fs1 r1] eqn:Ha. intros [= <- <-] Hk.
  apply access_run in Ha as [(e & Hio & -> & He & Hc) | (_ & fs2 & Hf & He & Hc)].
  - split_and!; [by apply only_socket_same | done | intros Hw; congruence].
  - rewrite Hk in Hf. injection Hf as <- <-. simpl in *. unfold only_socket. rewrite He, Hc.
    split_and!; try done; [intros p Hp; by rewrite lookup_insert_ne | congruence | by rewrite lookup_insert_eq].
Qed.

Lemma bind_run path fs fs' r :
  bind io path fs = (fs', r) ->
  only_socket path fs fs' /\
  (forall l, r = Ok l -> l = {| socket_path := path |} /\ entries fs !! path <> Some OtherEntry /\
     entries fs' !! path = Some SocketEntry) /\
  (works -> entries fs !! path <> Some OtherEntry -> r = Ok {| socket_path := path |}).
Proof.
  unfold bind, mbind, M_bind. intros H.
  destruct (prepare_socket_path io path fs) as [fs1 r1] eqn:Hp.
  apply prepare_socket_path_run in Hp as (Hs1 & Hok1 & Hw1).
  destruct r1 as [[] | e]; [| injection H as <- <-; split_and!; [done | done | intros Hw Hne; by specialize (Hw1 Hw Hne)]].
  destruct (Hok1 eq_refl) as [Hne Hgone].
  destruct (create_socket_directory io path fs1) as [fs2 r2] eqn:Hd.
  apply create_directory_run in Hd as (He2 & Hc2 & Hw2).
  assert (only_socket path fs fs2) as Hs2 by (etrans; [done | by apply only_socket_same]).
  destruct r2 as [[] | e]; [| injection H as <- <-; split_and!; [done | done | intros Hw; by specialize (Hw2 Hw)]].
  destruct (M_context _ _ fs2) as [fs3 r3] eqn:Hu.
  apply unix_bind_run in Hu as (Hs3 & Hok3 & Hw3); [| by rewrite He2].
  assert (only_socket path fs fs3) as Hs4 by (by etrans).
  destruct r3 as [[] | e]; injection H as <- <-;
    (split_and!; [done | | intros Hw; by specialize (Hw3 Hw)]); [intros l [= <-]; auto | done].
Qed.

(** *** Who is accepted *)

Definition is_connects (event : ArrivalEvent) : bool :=
  match event with Connects _ => true | Sends _ _ => false end.
Definition is_line_of (peer : nat) (event : ArrivalEvent) : bool :=
  match event with Connects _ => false | Sends p _ => (p =? peer)%nat end.

Lemma listener_accept_spec events :
  match listener_accept events with
  | Some (peer, rest) => exists before, events = (before ++ Connects peer :: rest)%list /\
      forallb (fun e => negb (is_connects e)) before = true
  | None => forallb (fun e => negb (is_connects e)) events = true
  end.
Proof.
  induction events as [| [peer | p line] events IH]; simpl; [done | by exists [] |].
  destruct (listener_accept events) as [[peer rest] |]; [| done].
  destruct IH as (before & -> & H). by exists (Sends p line :: before).
Qed.

Lemma peer_line_spec peer events :
  match peer_line peer events with
  | Some line => exists before after, events = (before ++ Sends peer line :: after)%list /\
      forallb (fun e => negb (is_line_of peer e)) before = true
  | None => forallb (fun e => negb (is_line_of peer e)) events = true
  end.
Proof.
  induction events as [| [p | p line] events IH]; simpl; [done | |].
  - destruct (peer_line peer events) as [line |]; [| done].
    destruct IH as (before & after & -> & H). by exists (Connects p :: before), after.
  - destruct (p =? peer)%nat eqn:Hp; [apply Nat.eqb_eq in Hp as ->; by exists [], events |].
    destruct (peer_line peer events) as [line' |]; simpl; [| done].
    destruct IH as (before & after & -> & H).
    exists (Sends p line :: before), after. split; [done |]. simpl. by rewrite Hp.
Qed.

(** The first peer that connected, and its first line, an attach of this protocol
    version with at least one actor type. *)
Definition attached_by (peer : nat) (events : list ArrivalEvent) (e : JsActorExecutor) : Prop :=
  exists before between after line types,
    events = (before ++ Connects (Ok peer) :: between ++ Sends peer (Ok line) :: after)%list /\
    forallb (fun e => negb (is_connects e)) before = true /\
    forallb (fun e => negb (is_line_of peer e)) between = true /\
    read_client_message line = Ok (Some (Attach ACTOR_EXECUTOR_PROTOCOL_VERSION types)) /\
    types <> [] /\ e = JsActorExecutor_new types.

(** Nobody has connected, or the first peer that did has not sent a line. *)
Definition nobody_attached (events : list ArrivalEvent) : Prop :=
  forallb (fun e => negb (is_connects e)) events = true \/
  exists before peer after, events = (before ++ Connects (Ok peer) :: after)%list /\
    forallb (fun e => negb (is_connects e)) before = true /\
    forallb (fun e => negb (is_line_of peer e)) after = true.

Lemma accept_connection_spec l events :
  match accept_connection l events with
  | None => nobody_attached events
  | Some (Ok e) => exists peer, attached_by peer events e
  | Some (Err _) => True
  end.
Proof.
  unfold accept_connection. pose proof (listener_accept_spec events) as Hs.
  destruct (listener_accept events) as [[[peer | err] rest] |]; simpl; [| done | by left].
  destruct Hs as (before & -> & Hb). pose proof (peer_line_spec peer rest) as Hl.
  destruct (peer_line peer rest) as [[line | err] |]; simpl; [| done | right; eauto 10].
  destruct Hl as (between & after & -> & Hbe). unfold accept_attach.
  destruct (read_client_message line) as [[[protocol types |] |] |] eqn:Hm; try done. simpl.
  destruct (protocol =? _)%Z eqn:Hp; [| done]. bool_prop. subst protocol. simpl.
  destruct types as [| t types]; [done |]. simpl. exists peer. unfold attached_by. eauto 15.
Qed.

(** Accepting removes the socket, whatever came of the connection; waiting does
    not. *)
Lemma accept_run path events fs fs' r :
  accept io {| socket_path := path |} events fs = (fs', r) -> entries fs !! path <> Some OtherEntry ->
  only_socket path fs fs' /\
  (forall e, r = Ok (Some e) -> (exists peer, attached_by peer events e) /\
     entries fs' !! path = None) /\
  (r = Ok None -> nobody_attached events /\ fs' = fs) /\
  (works -> r <> Ok None -> entries fs' !! path = None).
Proof.
  unfold accept, remove_socket, mbind, M_bind, attempt, lift, mret, M_ret. intros H Hne.
  pose proof (accept_connection_spec {| socket_path := path |} events) as Hspec. simpl in H.
  destruct (accept_connection _ events) as [result |];
    [| injection H as <- <-; split_and!; [done.. | intros _ Hn; by destruct Hn]].
  destruct (remove_file io path fs) as [fs1 r1] eqn:Hr.
  apply remove_file_run in Hr as ([Hother | Hsame] & Hok & Hgone & _); [done |].
  assert (fs' = fs1 /\ r <> Ok None /\ (forall e, r = Ok (Some e) -> result = Ok e /\
            (r1 = Err IoNotFound \/ r1 = Ok tt))) as (-> & Hnone & Hr).
  { destruct r1 as [[] | [| e]]; simpl in H; destruct result; injection H as <- <-;
      (split; [done |]; split; [done |]); intros ? [= <-]; auto. }
  split_and!; [done | | done | intros Hw _; by apply Hgone, Hok].
  intros e He. destruct (Hr e He) as [-> ?]. auto.
Qed.

(** C32: The executor attaches once, over a socket that is the host's own.
    Whatever accesses to the file system fail and whoever connects, connecting
    it changes no path but the socket's, and never replaces or removes a file
    there that is not a socket: then it fails.  When it succeeds, the peer that
    connected first was taken, no other peer's messages were read, its first
    message was an attach of this protocol version with at least one actor
    type, the executor starts with these types and nothing pending, and the
    socket's file is gone.  The wait for that has no limit: while nobody has
    connected, or the first peer has not sent a line, the future has no result,
    and the socket is there, also when the future is dropped.  On a file system
    that works, the file is gone whenever the future ended after the process
    was spawned, whether a peer attached or was refused. *)
Theorem executor_attaches_once {Child} (socket : string) (javascript : anyhow Child)
    (events : list ArrivalEvent) (fs fs' : Files) (r : anyhow (option (JsActorExecutor * Child)))
    (H : connect_executor io socket javascript events fs = (fs', r)) :
  only_socket socket fs fs' /\
  (entries fs !! socket = Some OtherEntry -> is_ok r = false) /\
  (forall e child, r = Ok (Some (e, child)) ->
     javascript = Ok child /\ entries fs' !! socket = None /\
     exists peer, attached_by peer events e) /\
  (r = Ok None -> is_ok javascript = true /\ nobody_attached events /\
     entries fs' !! socket = Some SocketEntry) /\
  (works -> entries fs !! socket <> Some OtherEntry -> is_ok javascript = true -> r <> Ok None ->
     entries fs' !! socket = None).
Proof.
  unfold connect_executor, mbind, M_bind, lift, mret, M_ret in H.
  destruct (bind io socket fs) as [fs1 r1] eqn:Hb. apply bind_run in Hb as (Hs1 & Hok1 & Hw1).
  destruct r1 as [l | err]; [| injection H as <- <-; split_and!; [done | done | done | done |
    intros Hw Hne; by specialize (Hw1 Hw Hne)]].
  destruct (Hok1 l eq_refl) as (-> & Hne & Hsock).
  destruct javascript as [child | err]; [| injection H as <- <-; by split_and!].
  destruct (accept io _ events fs1) as [fs2 r2] eqn:Ha.
  apply accept_run in Ha as (Hs2 & Hok2 & Hwait & Hw2); [| congruence].
  assert (only_socket socket fs fs2) as Hs3 by (by etrans).
  destruct r2 as [[e |] | err]; injection H as <- <-; split_and!; try done; auto.
  - intros e' child' [= <- <-]. destruct (Hok2 e eq_refl). auto.
  - intros _. destruct (Hwait eq_refl) as [? ->]. auto.
Qed.
End SocketProofs.

(** *** The connection's end *)

(** However [run] ends for a shutdown, no call waits for a reply any more, and
    ending is no error; the end of the reader is reported as it was. *)
Lemma run_ends `{J : Json} {Serde : @ExecutorSerde J} (e e' : JsActorExecutor) event r :
  run e event = (e', r) ->
  match event with
  | ShutdownCancelled => r = Ok tt /\ pending e' = ∅
  | ReaderEnded (Ok result) => r = result /\ e' = e
  | ReaderEnded (Err error) => r = Err error /\ e' = e
  end.
Proof. by destruct event as [[[[] |] |] |]; intros [= <- <-]. Qed.

(** *** The dependencies together *)

Definition end_error {C L E} (end_ : Ended C L E) : option Error :=
  match end_ with
  | ControlPlaneEnded (Err e) | ListenerEnded (Err e) | ExecutorConnected (Err e) => Some e
  | _ => None
  end.

(** In whichever order they come up, the three dependencies are handed on. *)
Lemma dependencies_in_any_order {C L E} (ends : list (Ended C L E)) c l e :
  ends ≡ₚ [ControlPlaneEnded (Ok c); ListenerEnded (Ok l); ExecutorConnected (Ok e)] ->
  connect_host_dependencies ends None None None = Some (Ok (c, l, e)).
Proof.
  intros H. pose proof (Permutation_length H) as Hlen.
  destruct ends as [| x [| y [| z [| ? ?]]]]; try done. clear Hlen.
  apply Permutation_cons_inv_l in H as (l1 & l2 & Hl & H).
  destruct l1 as [| a [| a' [| a'' [| ? ?]]]]; simplify_eq/=;
    apply Permutation_cons_inv_l in H as (m1 & m2 & Hm & H);
    destruct m1 as [| b [| b' [| ? ?]]]; simplify_eq/=;
    apply Permutation_singleton_r in H; simplify_eq/=; done.
Qed.

(** While the wait goes on, the first failure is its result; a result is final. *)
Lemma dependencies_first_failure {C L E} (before after : list (Ended C L E)) end_ error c l e :
  connect_host_dependencies before c l e = None -> end_error end_ = Some error ->
  connect_host_dependencies (before ++ end_ :: after) c l e = Some (Err error).
Proof.
  revert c l e. induction before as [| x before IH]; intros c l e Hwait Hend.
  - destruct c, l, e; try done; simpl; destruct end_ as [[] | [] | []]; by simplify_eq/=.
  - simpl in *. destruct c, l, e; try done; destruct x as [[] | [] | []]; try done; by apply IH.
Qed.

Lemma dependencies_final {C L E} (before after : list (Ended C L E)) c l e r :
  connect_host_dependencies before c l e = Some r ->
  connect_host_dependencies (before ++ after) c l e = Some r.
Proof.
  revert c l e. induction before as [| x before IH]; intros c l e H.
  - destruct c, l, e; simplify_eq/=; by destruct after.
  - simpl in *. destruct c, l, e; try done; destruct x as [[] | [] | []]; try done; by apply IH.
Qed.

(** The route a host advertises is the one in its endpoint, and what its route file
    then says. *)
Lemma bind_host_Ok {SocketAddr} display is_ipv6 from_shared io config bound looks lookup fs fs' route ep :
  bind_host (SocketAddr := SocketAddr) display is_ipv6 from_shared io config bound looks lookup fs =
    (fs', Ok (route, ep)) ->
  ep = {| endpoint_id := config_host_id config; endpoint_route := route |} /\
  (exists addr, bound = Ok addr /\
     advertised_route display is_ipv6 from_shared config addr looks lookup = Ok route) /\
  contents fs' = match route_file config with Some p => <[ p := route ]> (contents fs) | None => contents fs end.
Proof.
  unfold bind_host, mbind, M_bind, lift, mret, M_ret, M_context, io_try. intros H.
  destruct bound as [addr | err]; [| done]. simpl in H.
  destruct (advertised_route _ _ _ _ _ _ _) as [rt | err] eqn:Hr; [| done].
  destruct (route_file config) as [p |]; [| injection H as <- <- <-; eauto].
  unfold write_text in H. destruct (access io _ fs) as [fs1 r1] eqn:Ha.
  apply access_run in Ha as [(e & _ & -> & _) | (_ & fs2 & Hf & He & Hc)]; [done |].
  injection Hf as <- <-. injection H as <- <- <-. eauto.
Qed.

(** *** A process that attaches *)

(** Every line is an attach of the counter's process. *)
#[local] Instance attaching : ExecutorSerde text_json :=
  {| server_message_to_vec _ := Ok [];
     client_message_from_slice _ := Ok (Attach ACTOR_EXECUTOR_PROTOCOL_VERSION ["Counter"]) |}.

Definition stale_files : Files :=
  {| entries := {[ "/run/ldo/executor.sock" := SocketEntry; "/run/ldo/host.json" := OtherEntry ]};
     contents := ∅; accesses := 0 |}.
(** A peer connects, then another; the first one attaches. *)
Definition attaching_arrival : list ArrivalEvent :=
  [Connects (Ok 1); Connects (Ok 2); Sends 2 (Err ["reset"]); Sends 1 (Ok [Byte.x7b])].

(** A socket left by an earlier host is replaced and then removed; and while
    nobody attaches, the start has no result and the new socket stays. *)
Lemma executor_attaches_once_witness :
  (exists fs' e, connect_executor (fun _ => None) "/run/ldo/executor.sock" (Ok 7) attaching_arrival
       stale_files = (fs', Ok (Some (e, 7))) /\
     entries fs' !! "/run/ldo/executor.sock" = None /\
     entries fs' !! "/run/ldo/host.json" = Some OtherEntry) /\
  (exists fs', connect_executor (fun _ => None) "/run/ldo/executor.sock" (Ok 7) [] stale_files
       = (fs', Ok None) /\ entries fs' !! "/run/ldo/executor.sock" = Some SocketEntry).
Proof.
  split; [eexists _, _ | eexists]; (split; [vm_compute; reflexivity |]).
  - edestruct (executor_attaches_once (fun _ => None) "/run/ldo/executor.sock" (Ok 7)
      attaching_arrival stale_files) as ((Hothers & _) & _ & Hok & _); [vm_compute; reflexivity |].
    split; [apply (Hok _ _ eq_refl) |]. rewrite Hothers by discriminate. reflexivity.
  - edestruct (executor_attaches_once (fun _ => None) "/run/ldo/executor.sock" (Ok 7) []
      stale_files) as (_ & _ & _ & Hwait & _); [vm_compute; reflexivity |].
    apply (Hwait eq_refl).
Defined.

(** While the executor's future waits, the others can only end the start by
    failing; it is then dropped, and [nobody_attached] leaves the socket. *)
Lemma start_without_executor {C L E} (ends : list (Ended C L E)) c l r :
  Forall (fun end_ => match end_ with ExecutorConnected _ => False | _ => True end) ends ->
  connect_host_dependencies ends c l None = Some r -> exists error, r = Err error.
Proof.
  intros H. revert c l. induction H as [| [[] | [] | []] ends Hend _ IH]; intros c l;
    destruct c, l; simpl; try done; try (by intros [= <-]; eexists); apply IH.
Qed.
