(* ===== verification/StartupTelemetry.v ===== *)
(** * The latency event of a host's start

    [HostStartupTimings], [timed_connection] and the event [actor_host_startup] of
    [src/host/process.rs], over the steps of HostProcess.v.  The three dependencies
    are futures of one task: [try_join!] polls them in any order, so the milestones
    of different futures are not ordered, and the first failure drops the others
    where they are. *)
From S2P Require Import Prelude Identity HostProcess HostStartup Timeline.
Local Open Scope string_scope.
Local Open Scope Z_scope.

(** The optional fields of [HostStartupTimings]. *)
Inductive StartupMilestone :=
| authentication_ready_at_ms | control_plane_connected_at_ms | listener_bound_at_ms
| private_route_resolved_at_ms | javascript_spawned_at_ms | executor_attached_at_ms
| lease_registered_at_ms | executor_notified_at_ms.
#[export] Instance StartupMilestone_eq_dec : EqDecision StartupMilestone.
Proof. solve_decision. Defined.

(** The event's fields; [started_at_ms] is always zero. *)
Record StartupLine := {
  sl_namespace_id : string;
  sl_host_id : HostId;
  sl_configuration_loaded_at_ms : Z;
  sl_milestones : StartupMilestone -> option Z;
  sl_completed_at_ms : Z;
  sl_outcome : string;
  sl_error : option string;
}.

(** ** The dependencies *)

(** What the awaits of the three futures answer: the channel to the control plane;
    the listener, then the rest of [bind_host]; the executor's socket with the
    spawned process, then its attachment. *)
Record Dependencies (C L X : Type) := {
  connected_to : anyhow C;
  bound : anyhow ();
  resolved : anyhow L;
  spawned : anyhow ();
  attached : anyhow X;
}.
Arguments connected_to {C L X} _.
Arguments bound {C L X} _.
Arguments resolved {C L X} _.
Arguments spawned {C L X} _.
Arguments attached {C L X} _.

(** How far the futures are. *)
Record Joining (C L X : Type) := {
  j_control_plane : option C;
  j_bound : bool;
  j_listener : option L;
  j_spawned : bool;
  j_executor : option X;
}.
Arguments Build_Joining {C L X} _ _ _ _ _.
Arguments j_control_plane {C L X} _.
Arguments j_bound {C L X} _.
Arguments j_listener {C L X} _.
Arguments j_spawned {C L X} _.
Arguments j_executor {C L X} _.

(** The future whose await is over next. *)
Inductive Turn := ControlPlaneTurn | ListenerTurn | ExecutorTurn.

Section Startup.
Context {C L X W A B : Type} `{I : Instants} (deps : Dependencies C L X).

Abbreviation TimedM := (M ((W * Watch StartupLine) * Timings StartupMilestone)) (only parsing).
Abbreviation Joining := (Joining C L X).

Definition nothing_yet : Joining := Build_Joining None false None false None.

(** A future that has ended is not polled again. *)
Definition turn_of (turn : Turn) (j : Joining) : TimedM Error Joining :=
  let 'Build_Joining c b l s x := j in
  match turn with
  | ControlPlaneTurn =>
      match c with
      | Some _ => mret j
      | None =>
          c ← lift (connected_to deps);
          mark control_plane_connected_at_ms;;
          mret (Build_Joining (Some c) b l s x)
      end
  | ListenerTurn =>
      match l with
      | Some _ => mret j
      | None =>
          if b then
            l ← lift (resolved deps);
            mark private_route_resolved_at_ms;;
            mret (Build_Joining c b (Some l) s x)
          else
            lift (bound deps);;
            mark listener_bound_at_ms;;
            mret (Build_Joining c true l s x)
      end
  | ExecutorTurn =>
      match x with
      | Some _ => mret j
      | None =>
          if s then
            x ← lift (attached deps);
            mark executor_attached_at_ms;;
            mret (Build_Joining c b l s (Some x))
          else
            lift (spawned deps);;
            mark javascript_spawned_at_ms;;
            mret (Build_Joining c b l true x)
      end
  end.

(** [connect_host_dependencies]; [None] while a future still waits. *)
Fixpoint timed_join (turns : list Turn) (j : Joining) : TimedM Error (option (C * L * X)) :=
  match j_control_plane j, j_listener j, j_executor j with
  | Some c, Some l, Some x => mret (Some (c, l, x))
  | _, _, _ =>
      match turns with
      | [] => mret None
      | turn :: turns => j ← turn_of turn j; timed_join turns j
      end
  end.

(** ** The start *)

Context (namespace_id : string) (host_id : HostId).

(** [log_startup]; [loaded] is [configuration_loaded_at_ms]. *)
Definition log_startup (loaded : Z) (outcome : string) (error : option Error)
    (timings : Timings StartupMilestone) (now : Z) : StartupLine :=
  {| sl_namespace_id := namespace_id; sl_host_id := host_id; sl_configuration_loaded_at_ms := loaded;
     sl_milestones := reached_at timings; sl_completed_at_ms := now; sl_outcome := outcome;
     sl_error := alternate <$> error |}.

Context (step : HostStep -> W -> W * anyhow ()) (auth : anyhow A) (maintainer : anyhow B).

Definition timed_prepare_actor_host (turns : list Turn) : TimedM Error (option (A * (C * L * X) * B)) :=
  auth ← lift auth;
  mark authentication_ready_at_ms;;
  joined ← timed_join turns nothing_yet;
  match joined with
  | None => mret None
  | Some dependencies =>
      maintainer ← lift maintainer;
      untimed (step StartRenewal);;
      mark lease_registered_at_ms;;
      mret (Some (auth, dependencies, maintainer))
  end.

(** [serve_actor_host]: [started] and [configured] are the readings at the beginning
    and at the end of [ActorHostConfig::from_lookup]. *)
Definition timed_serve_actor_host (started configured : nat) (turns : list Turn)
    : M (W * Watch StartupLine) Error (option ()) :=
  let loaded := instant configured - instant started in
  timed_from (instant started) (
    prepared ← attempt (timed_prepare_actor_host turns);
    match prepared with
    | Err error => report (log_startup loaded "failed" (Some error));; lift (Err error)
    | Ok None => mret None
    | Ok (Some _) =>
        notified ← attempt (untimed (step MarkReady));
        match notified with
        | Err error => report (log_startup loaded "failed" (Some error));; lift (Err error)
        | Ok _ =>
            mark executor_notified_at_ms;;
            report (log_startup loaded "ready" None);;
            untimed (stop_result ← attempt (F := Error) (step RunUntilStopped);
                     finish_actor_host step stop_result);;
            mret (Some ())
        end
    end).

(** ** Measuring changes nothing *)

(** Which futures end in which turn. *)
Fixpoint ends_of (turns : list Turn) (j : Joining) : list (Ended C L X) :=
  let 'Build_Joining c b l s x := j in
  match turns with
  | [] => []
  | ControlPlaneTurn :: turns =>
      match c with
      | Some _ => ends_of turns j
      | None => ControlPlaneEnded (connected_to deps)
                :: ends_of turns (Build_Joining (result_ok (connected_to deps)) b l s x)
      end
  | ListenerTurn :: turns =>
      match l, b, bound deps with
      | Some _, _, _ => ends_of turns j
      | None, true, _ => ListenerEnded (resolved deps)
                         :: ends_of turns (Build_Joining c b (result_ok (resolved deps)) s x)
      | None, false, Ok _ => ends_of turns (Build_Joining c true l s x)
      | None, false, Err error => [ListenerEnded (Err error)]
      end
  | ExecutorTurn :: turns =>
      match x, s, spawned deps with
      | Some _, _, _ => ends_of turns j
      | None, true, _ => ExecutorConnected (attached deps)
                         :: ends_of turns (Build_Joining c b l s (result_ok (attached deps)))
      | None, false, Ok _ => ends_of turns (Build_Joining c b l true x)
      | None, false, Err error => [ExecutorConnected (Err error)]
      end
  end.

Definition joined_result (joined : option (anyhow (C * L * X))) : anyhow (option (C * L * X)) :=
  match joined with
  | None => Ok None
  | Some (Ok dependencies) => Ok (Some dependencies)
  | Some (Err error) => Err error
  end.

Lemma dependencies_joined (ends : list (Ended C L X)) c l x :
  connect_host_dependencies ends (Some c) (Some l) (Some x) = Some (Ok (c, l, x)).
Proof. by destruct ends. Qed.

Lemma join_result (turns : list Turn) (j : Joining) s w t :
  (timed_join turns j ((s, w), t)).2
  = joined_result (connect_host_dependencies (ends_of turns j) (j_control_plane j) (j_listener j)
                     (j_executor j)) /\
  (timed_join turns j ((s, w), t)).1.1.1 = s.
Proof.
  revert j s w t. induction turns as [| turn turns IH]; intros [c b l sp x] s w t.
  { simpl. by destruct c, l, x. }
  destruct turn, c as [c |], l as [l |], x as [x |], b, sp; simpl; rewrite ?dependencies_joined; try done;
    unfold mbind, M_bind, lift, mret, M_ret; simpl; try apply IH;
    match goal with |- context [match ?f deps with _ => _ end] => destruct (f deps) end;
    simpl; try done; apply IH.
Qed.

(** [serve_actor_host] of [HostProcess], with the joined futures for its first step. *)
Definition with_dependencies (joined : anyhow (C * L * X)) (s : HostStep) (w : W) : W * anyhow () :=
  match s with
  | ConnectDependencies => (w, match joined with Ok _ => Ok tt | Err error => Err error end)
  | s => step s w
  end.

Lemma startup_timings_change_nothing started configured turns joined (w : W) (watch : Watch StartupLine) :
  connect_host_dependencies (ends_of turns nothing_yet) None None None = Some joined ->
  let timed := timed_serve_actor_host started configured turns (w, watch) in
  serve_actor_host (with_dependencies joined) auth maintainer w
  = (timed.1.1, match timed.2 with Ok _ => Ok tt | Err error => Err error end).
Proof.
  intros Hjoined timed. subst timed.
  unfold timed_serve_actor_host, timed_from, timed_prepare_actor_host, serve_actor_host, prepare_actor_host,
    mbind, M_bind, attempt, lift, mret, M_ret.
  destruct auth as [a | e]; simpl; [| done].
  match goal with |- context [timed_join turns nothing_yet ((w, ?wt), ?t)] =>
    destruct (join_result turns nothing_yet w wt t) as [Hr Hw];
    destruct (timed_join turns nothing_yet ((w, wt), t)) as [[[w1 wt1] t1] r1] end.
  cbn [fst snd] in Hr, Hw. subst w1 r1.
  change (connect_host_dependencies _ _ _ _) with
    (connect_host_dependencies (ends_of turns nothing_yet) None None None). rewrite Hjoined.
  destruct joined as [[[c l] x] | e]; simpl; [| done].
  destruct maintainer as [b | e]; simpl; [| done].
  destruct (step StartRenewal w) as [w2 [[] | e]]; simpl; [| done].
  destruct (step MarkReady w2) as [w3 [[] | e]]; simpl; [| done].
  destruct (step RunUntilStopped w3) as [w4 r4]; simpl.
  change (finish_actor_host (with_dependencies _) r4 w4) with (finish_actor_host step r4 w4).
  by destruct (finish_actor_host step r4 w4) as [w5 [[] | e]].
Qed.

(** ** The order of the milestones *)

(** What a milestone comes after.  The futures' milestones are ordered within each
    future only. *)
Definition needs (f : StartupMilestone) : list StartupMilestone :=
  match f with
  | authentication_ready_at_ms => []
  | control_plane_connected_at_ms | listener_bound_at_ms | javascript_spawned_at_ms =>
      [authentication_ready_at_ms]
  | private_route_resolved_at_ms => [listener_bound_at_ms]
  | executor_attached_at_ms => [javascript_spawned_at_ms]
  | lease_registered_at_ms =>
      [control_plane_connected_at_ms; private_route_resolved_at_ms; executor_attached_at_ms]
  | executor_notified_at_ms => [lease_registered_at_ms]
  end.

(** No milestone without those it needs, each at or before it. *)
Definition causal (loaded : Z) (at_ : StartupMilestone -> option Z) (limit : Z) : Prop :=
  forall f x, at_ f = Some x -> loaded <= x <= limit /\
    forall g, g ∈ needs f -> exists y, at_ g = Some y /\ y <= x.

Abbreviation TState := ((W * Watch StartupLine) * Timings StartupMilestone)%type (only parsing).

(** The milestones of [l] are reached, nothing is logged. *)
Record stage (loaded : Z) (lines : list StartupLine) (l : StartupMilestone -> bool) (s : TState)
    : Prop := {
  stage_now : loaded <= elapsed s.1.2 s.2;
  stage_causal : causal loaded (reached_at s.2) (elapsed s.1.2 s.2);
  stage_reached f : reached (reached_at s.2) f = l f;
  stage_lines : events s.1.2 = lines;
}.

Definition with_milestone (f : StartupMilestone) (l : StartupMilestone -> bool) (g : StartupMilestone) : bool :=
  bool_decide (g = f) || l g.

Lemma elapsed_tick (w : Watch StartupLine) (t : Timings StartupMilestone) :
  elapsed w t <= elapsed (tick w) t.
Proof. pose proof (instant_next (readings w)). unfold elapsed. simpl. lia. Qed.

Lemma mark_stage {Err'} loaded lines l f (s s' : TState) r :
  stage loaded lines l s -> l f = false -> (forall g, g ∈ needs f -> l g = true) ->
  mark (E := Err') f s = (s', r) -> r = Ok tt /\ stage loaded lines (with_milestone f l) s'.
Proof.
  destruct s as [[s w] t]. intros [Hnow Hcausal Hl Hlines] Hf Hneeds H. unfold mark in H. simplify_eq/=.
  pose proof (elapsed_tick w t) as Htick.
  assert (Hreached : forall g, l g = true -> exists y, reached_at t g = Some y).
  { intros g Hg. rewrite <- Hl in Hg. unfold reached in Hg. destruct (reached_at t g); by eauto. }
  split; [done |]. split; simpl; [unfold elapsed in *; simpl in *; lia | | | done].
  - change (elapsed (tick w) (reach f (elapsed w t) t)) with (elapsed (tick w) t).
    intros g x. simpl. destruct (decide (g = f)) as [-> | Hgf].
    + intros [= <-]. split; [lia |]. intros g Hg.
      destruct (Hreached g (Hneeds g Hg)) as [y Hy]. exists y.
      destruct (decide (g = f)) as [-> |]; [by rewrite (Hneeds f Hg) in Hf |].
      destruct (Hcausal g y Hy) as [? _]. split; [done | lia].
    + intros Hx. destruct (Hcausal g x Hx) as [? Hbefore]. split; [lia |].
      intros h Hh. destruct (Hbefore h Hh) as (y & Hy & ?). exists y.
      destruct (decide (h = f)) as [-> |]; [| done].
      specialize (Hl f). rewrite Hf in Hl. unfold reached in Hl. by rewrite Hy in Hl.
  - intros g. unfold with_milestone. rewrite <- Hl. unfold reached.
    case_bool_decide; by destruct (decide (g = f)).
Qed.

Lemma stage_weaken loaded lines l l' s :
  (forall f, l f = l' f) -> stage loaded lines l s -> stage loaded lines l' s.
Proof. intros Hl [? ? Hr ?]. split; try done. intros f. by rewrite Hr. Qed.

(** A step of the host reads no clock of the start. *)
Lemma untimed_stage {Err' Y} loaded lines l (c : M W Err' Y) (s s' : TState) r :
  stage loaded lines l s -> untimed c s = (s', r) -> stage loaded lines l s'.
Proof.
  destruct s as [[s w] t]. intros [? ? ? ?] H. simpl in H. destruct (c s). simplify_eq. by split.
Qed.

(** While the futures run. *)
Definition joining_stage (j : Joining) (f : StartupMilestone) : bool :=
  match f with
  | authentication_ready_at_ms => true
  | control_plane_connected_at_ms => bool_decide (is_Some (j_control_plane j))
  | listener_bound_at_ms => j_bound j
  | private_route_resolved_at_ms => bool_decide (is_Some (j_listener j))
  | javascript_spawned_at_ms => j_spawned j
  | executor_attached_at_ms => bool_decide (is_Some (j_executor j))
  | lease_registered_at_ms | executor_notified_at_ms => false
  end.
(** A future that has ended took its first step. *)
Definition in_step (j : Joining) : Prop :=
  (is_Some (j_listener j) -> j_bound j = true) /\ (is_Some (j_executor j) -> j_spawned j = true).

(** The side conditions of a turn's milestone, and a turn whose await fails. *)
Ltac turn_marks :=
  first [ done | by intros g ->%list_elem_of_singleton
        | by intros []; unfold with_milestone; case_bool_decide
        | split; simpl; auto; by intros [? ?] ].
Ltac turn_fails := match goal with H : _ = (_, _) |- _ => simpl in H; injection H as <- <-; done end.

Lemma turn_stage loaded lines turn j (s s' : TState) r :
  stage loaded lines (joining_stage j) s -> in_step j -> turn_of turn j s = (s', r) ->
  match r with
  | Ok j' => stage loaded lines (joining_stage j') s' /\ in_step j'
  | Err _ => stage loaded lines (joining_stage j) s'
  end.
Proof.
  intros Hs [Hl Hx] H. destruct j as [c b l sp x]. simpl in *.
  assert (Hmark : forall f j', joining_stage (Build_Joining c b l sp x) f = false ->
    (forall g, g ∈ needs f -> joining_stage (Build_Joining c b l sp x) g = true) ->
    (forall g, with_milestone f (joining_stage (Build_Joining c b l sp x)) g = joining_stage j' g) ->
    in_step j' -> (mark f;; mret j') s = (s', r) ->
    match r with
    | Ok j' => stage loaded lines (joining_stage j') s' /\ in_step j'
    | Err _ => stage loaded lines (joining_stage (Build_Joining c b l sp x)) s'
    end).
  { intros f j' Hf Hneeds Hj' Hstep Hm. unfold mbind, M_bind in Hm.
    destruct (mark f s) as [s1 r1] eqn:E1.
    apply (mark_stage loaded lines _ _ _ _ _ Hs Hf Hneeds) in E1 as [-> Hs1].
    unfold mret, M_ret in Hm. simplify_eq. split; [by eapply stage_weaken | done]. }
  unfold turn_of, lift in H. unfold mbind at 1, M_bind at 1 in H.
  destruct turn.
  - destruct c as [c |]; [by unfold mret, M_ret in H; simplify_eq |].
    destruct (connected_to deps) as [c | e]; [| turn_fails].
    eapply Hmark; [.. | exact H]; turn_marks.
  - destruct l as [l |]; [by unfold mret, M_ret in H; simplify_eq |]. destruct b.
    + destruct (resolved deps) as [l | e]; [| turn_fails].
      eapply Hmark; [.. | exact H]; turn_marks.
    + destruct (bound deps) as [[] | e]; [| turn_fails].
      eapply Hmark; [.. | exact H]; turn_marks.
  - destruct x as [x |]; [by unfold mret, M_ret in H; simplify_eq |]. destruct sp.
    + destruct (attached deps) as [x | e]; [| turn_fails].
      eapply Hmark; [.. | exact H]; turn_marks.
    + destruct (spawned deps) as [[] | e]; [| turn_fails].
      eapply Hmark; [.. | exact H]; turn_marks.
Qed.

Lemma join_stage loaded lines turns j (s s' : TState) r :
  stage loaded lines (joining_stage j) s -> in_step j -> timed_join turns j s = (s', r) ->
  exists j', stage loaded lines (joining_stage j') s' /\ in_step j' /\
    match r with
    | Ok (Some _) => is_Some (j_control_plane j') /\ is_Some (j_listener j') /\ is_Some (j_executor j')
    | _ => True
    end.
Proof.
  revert j s. induction turns as [| turn turns IH]; intros j s Hs Hj H.
  - simpl in H. unfold mret, M_ret in H. exists j.
    destruct (j_control_plane j), (j_listener j), (j_executor j); by simplify_eq/=.
  - assert (Hnext : (j' ← turn_of turn j; timed_join turns j') s = (s', r) ->
      exists j', stage loaded lines (joining_stage j') s' /\ in_step j' /\
        match r with
        | Ok (Some _) => is_Some (j_control_plane j') /\ is_Some (j_listener j') /\ is_Some (j_executor j')
        | _ => True
        end).
    { unfold mbind, M_bind. destruct (turn_of turn j s) as [s1 r1] eqn:E1.
      apply (turn_stage loaded lines) in E1; [| done..].
      destruct r1 as [j1 | e]; [destruct E1; by apply IH | intros ?; simplify_eq; by exists j]. }
    simpl in H. unfold mret, M_ret in H. 
    destruct (j_control_plane j) eqn:?, (j_listener j) eqn:?, (j_executor j) eqn:?; try by apply Hnext.
    simplify_eq. exists j. split_and!; try done; by eexists.
Qed.

(** Preparing, wherever it ends. *)
Lemma prepare_stage loaded lines turns (s s' : TState) r :
  stage loaded lines (fun _ => false) s -> timed_prepare_actor_host turns s = (s', r) ->
  exists l, stage loaded lines l s' /\ l executor_notified_at_ms = false /\
    match r with
    | Ok (Some _) => forall f, f <> executor_notified_at_ms -> l f = true
    | _ => True
    end.
Proof.
  intros Hs H. unfold timed_prepare_actor_host, lift in H. unfold mbind at 1, M_bind at 1 in H.
  destruct auth as [a | e]; [| simplify_eq; by exists (fun _ => false)].
  unfold mbind at 1, M_bind at 1 in H. destruct (mark _ s) as [s1 r1] eqn:E1.
  apply (mark_stage loaded lines _ _ _ _ _ Hs) in E1 as [-> Hs1]; [| done | by intros g ?%elem_of_nil].
  unfold mbind at 1, M_bind at 1 in H. destruct (timed_join turns nothing_yet s1) as [s2 r2] eqn:E2.
  apply (join_stage loaded lines) in E2 as (j & Hs2 & [Hl Hx] & Hall);
    [| by eapply stage_weaken; [| exact Hs1]; intros [] | by split; intros []].
  destruct r2 as [[deps' |] | e]; [| unfold mret, M_ret in H; simplify_eq; by exists (joining_stage j)..].
  destruct Hall as (Hc & Hl' & Hx').
  unfold mbind at 1, M_bind at 1 in H.
  destruct maintainer as [b | e]; [| simplify_eq; by exists (joining_stage j)].
  unfold mbind at 1, M_bind at 1 in H. destruct (untimed (step StartRenewal) s2) as [s3 r3] eqn:E3.
  apply (untimed_stage _ _ _ _ _ _ _ Hs2) in E3 as Hs3.
  destruct r3 as [[] | e]; [| simplify_eq; by exists (joining_stage j)].
  unfold mbind at 1, M_bind at 1 in H. destruct (mark _ s3) as [s4 r4] eqn:E4.
  apply (mark_stage loaded lines _ _ _ _ _ Hs3) in E4 as [-> Hs4]; [| done |].
  - unfold mret, M_ret in H. simplify_eq. eexists. split_and!; [exact Hs4 | done |].
    intros [] Hf; unfold with_milestone; simpl; auto; by apply bool_decide_eq_true.
  - intros g. unfold needs. rewrite !elem_of_cons, elem_of_nil.
    intros [-> | [-> | [-> | []]]]; by apply bool_decide_eq_true.
Qed.

(** What a line logged at a stage shows. *)
Definition line_tells (line : StartupLine) (r : Result Error (option ())) : Prop :=
  sl_host_id line = host_id /\
  causal (sl_configuration_loaded_at_ms line) (sl_milestones line) (sl_completed_at_ms line) /\
  0 <= sl_configuration_loaded_at_ms line <= sl_completed_at_ms line /\
  ((sl_outcome line = "ready" /\ sl_error line = None /\
      forall f, reached (sl_milestones line) f = true) \/
   (sl_outcome line = "failed" /\ reached (sl_milestones line) executor_notified_at_ms = false /\
      exists error, r = Err error /\ sl_error line = Some (alternate error))).

Lemma failed_line loaded lines l w (watch : Watch StartupLine) t error :
  0 <= loaded -> stage loaded lines l ((w, watch), t) -> l executor_notified_at_ms = false ->
  line_tells (log_startup loaded "failed" (Some error) t (elapsed watch t)) (Err error).
Proof.
  intros Hpos [Hnow Hcausal Hr _] Hl. simpl in *.
  split_and!; try done. right. split_and!; [done | by rewrite Hr | eauto].
Qed.

Lemma ready_line_tells loaded lines l w (watch : Watch StartupLine) t r :
  0 <= loaded -> stage loaded lines l ((w, watch), t) -> (forall f, l f = true) ->
  line_tells (log_startup loaded "ready" None t (elapsed watch t)) r.
Proof.
  intros Hpos [Hnow Hcausal Hr _] Hl. simpl in *.
  split_and!; try done. left. split_and!; [done.. |]. intros f. by rewrite Hr.
Qed.

(** The event of a start: none while a future waits, else one, and only one however long
    the host then runs.  Each milestone comes after those it needs, whatever the order in
    which the futures went on, and at or after the configuration's; a ready host reached
    all of them, a failed one was not announced to its executor, and its error is the
    one the process ends with. *)
Lemma startup_tells_its_path started configured turns w w' (watch watch' : Watch StartupLine) r :
  (started <= configured <= readings watch)%nat ->
  timed_serve_actor_host started configured turns (w, watch) = ((w', watch'), r) ->
  exists lines, events watch' = (events watch ++ lines)%list /\
    ((lines = [] /\ r = Ok None) \/
     exists line, lines = [line] /\ line_tells line r).
Proof.
  intros [Hsc Hcw] H. unfold timed_serve_actor_host, timed_from in H.
  set (loaded := instant configured - instant started) in *.
  assert (0 <= loaded) as Hpos by (pose proof (instant_mono _ _ Hsc); subst loaded; lia).
  assert (Hs : stage loaded (events watch) (fun _ => false) ((w, watch), Timings_new (instant started))).
  { split; simpl; try done.
    unfold elapsed. simpl. pose proof (instant_mono _ _ Hcw). subst loaded. lia. }
  unfold mbind at 1, M_bind at 1, attempt at 1 in H.
  destruct (timed_prepare_actor_host _ _) as [[[w1 watch1] t1] r1] eqn:E1.
  apply (prepare_stage loaded (events watch)) in E1 as (l & Hs1 & Hl & Hall); [| done].
  destruct r1 as [[prepared |] | e].
  - unfold mbind at 1, M_bind at 1, attempt at 1 in H. simpl in H.
    destruct (step MarkReady w1) as [w2 [[] | e]].
    + simpl in H.
      destruct (mark (E := Error) executor_notified_at_ms ((w2, watch1), t1)) as [[[w3 watch3] t3] r3] eqn:E3.
      assert (Hs2 : stage loaded (events watch) l ((w2, watch1), t1)) by (by destruct Hs1; split).
      apply (mark_stage loaded (events watch) _ _ _ _ _ Hs2 Hl) in E3 as E3'; [destruct E3' as [-> Hs3] |].
      2: { intros g ->%list_elem_of_singleton. by apply Hall. }
      unfold mark in E3. simplify_eq.
      exists [log_startup loaded "ready" None (reach executor_notified_at_ms (elapsed watch1 t1) t1)
                (elapsed (tick watch1) (reach executor_notified_at_ms (elapsed watch1 t1) t1))].
      unfold mbind, M_bind, attempt in H. simpl in H.
      destruct (step RunUntilStopped _) as [w4 r4].
      assert (events watch' = (events watch ++ [log_startup loaded "ready" None
        (reach executor_notified_at_ms (elapsed watch1 t1) t1)
        (elapsed (tick watch1) (reach executor_notified_at_ms (elapsed watch1 t1) t1))])%list) as ->.
      { rewrite <- (stage_lines _ _ _ _ Hs3).
        destruct (finish_actor_host step r4 w4) as [w5 [[] | e]]; simpl in H;
          unfold mret, M_ret in H; by simplify_eq/=. }
      split; [done |]. right. eexists. split; [reflexivity |].
      eapply ready_line_tells; [done | exact Hs3 |].
      intros f. unfold with_milestone. case_bool_decide; [done |]. by rewrite Hall.
    + simplify_eq/=. exists [log_startup loaded "failed" (Some e) t1 (elapsed watch1 t1)].
      split; [by rewrite <- (stage_lines _ _ _ _ Hs1) |]. right. eexists. split; [reflexivity |].
      by eapply failed_line.
  - simpl in H. unfold mret, M_ret in H. simplify_eq. exists [].
    rewrite app_nil_r. split; [exact (stage_lines _ _ _ _ Hs1) | auto].
  - simplify_eq/=. exists [log_startup loaded "failed" (Some e) t1 (elapsed watch1 t1)].
    split; [by rewrite <- (stage_lines _ _ _ _ Hs1) |]. right. eexists. split; [reflexivity |].
    by eapply failed_line.
Qed.
End Startup.

(** ** Two starts

    The clock advances by a microsecond between readings, of which the first two are
    the configuration's. *)
#[local] Instance ticking : Instants.
Proof. refine {| instant n := Z.of_nat n * 1000 |}. intros n n' Hn. lia. Defined.

Definition sample_dependencies (spawned_process : anyhow ()) : Dependencies nat nat nat :=
  {| connected_to := Ok 1%nat; bound := Ok tt; resolved := Ok 2%nat; spawned := spawned_process;
     attached := Ok 3%nat |}.
Definition sample_start (spawned_process : anyhow ()) (turns : list Turn) :=
  timed_serve_actor_host (W := list HostStep) (sample_dependencies spawned_process) "acme" "host-a"
    (fun s steps => ((steps ++ [s])%list, Ok tt)) (Ok tt) (Ok tt) 0 1 turns
    ([], {| readings := 2; events := [] |}).
Definition startup_milestones (line : StartupLine) : list (option Z) :=
  sl_milestones line <$>
    [authentication_ready_at_ms; control_plane_connected_at_ms; listener_bound_at_ms;
     private_route_resolved_at_ms; javascript_spawned_at_ms; executor_attached_at_ms;
     lease_registered_at_ms; executor_notified_at_ms].

(** A start whose route is resolved last; one whose process cannot be spawned, which drops
    the bound listener and the connected channel; and one that still waits. *)
Example sample_starts :
  (fun '(spawned_process, turns) =>
     let start := sample_start spawned_process turns in
     (sl_outcome <$> events start.1.2, startup_milestones <$> events start.1.2, start.1.1))
    <$> [ (Ok tt, [ExecutorTurn; ListenerTurn; ControlPlaneTurn; ExecutorTurn; ListenerTurn]);
          (Err ["no node"], [ListenerTurn; ControlPlaneTurn; ExecutorTurn; ListenerTurn]);
          (Ok tt, [ListenerTurn; ExecutorTurn]) ]
  = [ (["ready"],
       [[Some 2000; Some 5000; Some 4000; Some 7000; Some 3000; Some 6000; Some 8000; Some 9000]],
       [StartRenewal; MarkReady; RunUntilStopped; DrainActors; CancelTasks; JoinTasks; KillJavascript;
        StopRenewal; UnregisterLease]);
      (["failed"], [[Some 2000; Some 4000; Some 3000; None; None; None; None; None]], []);
      ([], [], []) ].
Proof. vm_compute. reflexivity. Qed.
