(* ===== verification/ExecutionGate.v ===== *)
(** * Per-actor execution gates

    [src/actor_state/actor.rs]: a map of weak references to gates, each gate a
    FIFO mutex and a semaphore of 33 admissions.  A call of [admit] takes
    several steps (it may wait for the mutex, be cancelled while it waits, and
    its guard releases the gate, the mutex and the permit one after the other),
    so the component is a transition system over all its tasks. *)
From S2P Require Import Prelude Identity.
Local Open Scope string_scope.
Local Open Scope nat_scope.

Definition MAX_ADMITTED_INVOCATIONS_PER_ACTOR : nat := 33.

Abbreviation Task := nat (only parsing).

(** Who holds the execution mutex: a task inside its guard, or one whose guard
    is being dropped and has already let go of the [Arc] of the gate. *)
Inductive Holder := Executing (t : Task) | Unlocking (t : Task).
#[export] Instance Holder_eq_dec : EqDecision Holder.
Proof. solve_decision. Defined.

(** [ActorExecutionGate] with the tasks that refer to it: [queue] waits for the
    mutex in order; [leaving] holds nothing but its permit any more. *)
Record ActorExecutionGate := {
  gate_key : ActorStorageKey;
  queue : list Task;
  holder : option Holder;
  leaving : list Task;
}.

Definition holder_count (g : ActorExecutionGate) : nat :=
  match holder g with Some _ => 1 | None => 0 end.
(** [Weak::strong_count]: waiting and executing tasks keep the [Arc]. *)
Definition strong_count (g : ActorExecutionGate) : nat :=
  length (queue g) + match holder g with Some (Executing _) => 1 | _ => 0 end.
(** Permits taken from the semaphore. *)
Definition admitted (g : ActorExecutionGate) : nat :=
  length (queue g) + holder_count g + length (leaving g).

(** [locks] maps a key to a weak reference; [gates] are the gates the
    references point to, dead ones included. *)
Record ActorExecutionLocks := {
  locks : gmap ActorStorageKey nat;
  gates : gmap nat ActorExecutionGate;
  next_gate : nat;
}.

Definition ActorExecutionLocks_new : ActorExecutionLocks :=
  {| locks := ∅; gates := ∅; next_gate := 0 |}.

(** [Weak::upgrade] *)
Definition upgrade (s : ActorExecutionLocks) (gate : nat) : option ActorExecutionGate :=
  g ← gates s !! gate;
  if decide (0 < strong_count g) then Some g else None.

Definition set_gate (gate : nat) (g : ActorExecutionGate) (s : ActorExecutionLocks)
    : ActorExecutionLocks :=
  {| locks := locks s; gates := <[ gate := g ]> (gates s); next_gate := next_gate s |}.

(** [locks.retain(|_, gate| gate.strong_count() > 0)] *)
Definition retain (s : ActorExecutionLocks) : gmap ActorStorageKey nat :=
  omap (fun gate => if decide (is_Some (upgrade s gate)) then Some gate else None) (locks s).

(** [ActorExecutionLocks::gate] *)
Definition gate (storage_key : ActorStorageKey) (s : ActorExecutionLocks)
    : ActorExecutionLocks * nat :=
  let kept := retain s in
  match (kept !! storage_key) with
  | Some g => ({| locks := kept; gates := gates s; next_gate := next_gate s |}, g)
  | None =>
      let fresh := {| gate_key := storage_key; queue := []; holder := None; leaving := [] |} in
      ({| locks := <[ storage_key := next_gate s ]> kept;
          gates := <[ next_gate s := fresh ]> (gates s);
          next_gate := S (next_gate s) |}, next_gate s)
  end.

(** [admit_task] up to the wait for the mutex: [Full] without a permit, otherwise the
    task queues.  [try_acquire_owned] fails when every permit is taken. *)
Inductive Admission := Full | Queued (gate : nat).

Definition admit_task (t : Task) (storage_key : ActorStorageKey) (s : ActorExecutionLocks)
    : ActorExecutionLocks * Admission :=
  let '(s, id) := gate storage_key s in
  match gates s !! id with
  | None => (s, Full)
  | Some g =>
      if decide (admitted g < MAX_ADMITTED_INVOCATIONS_PER_ACTOR) then
        (set_gate id {| gate_key := gate_key g; queue := queue g ++ [t];
                        holder := holder g; leaving := leaving g |} s, Queued id)
      else (s, Full)
  end.

(** The mutex goes to the first waiter. *)
Definition acquire (g : ActorExecutionGate) : option ActorExecutionGate :=
  match holder g, queue g with
  | None, t :: q => Some {| gate_key := gate_key g; queue := q;
                            holder := Some (Executing t); leaving := leaving g |}
  | _, _ => None
  end.

(** The future of a waiting [admit_task] is dropped. *)
Definition cancel (t : Task) (g : ActorExecutionGate) : option ActorExecutionGate :=
  if decide (t ∈ queue g)
  then Some {| gate_key := gate_key g; queue := filter (fun t' => t' <> t) (queue g);
               holder := holder g; leaving := leaving g |}
  else None.

(** [ActorExecutionGuard] is dropped: [_gate], then [_execution], then
    [_admission]. *)
Definition drop_gate (g : ActorExecutionGate) : option ActorExecutionGate :=
  match holder g with
  | Some (Executing t) => Some {| gate_key := gate_key g; queue := queue g;
                                  holder := Some (Unlocking t); leaving := leaving g |}
  | _ => None
  end.
Definition drop_execution (g : ActorExecutionGate) : option ActorExecutionGate :=
  match holder g with
  | Some (Unlocking t) => Some {| gate_key := gate_key g; queue := queue g;
                                  holder := None; leaving := t :: leaving g |}
  | _ => None
  end.
Definition drop_admission (t : Task) (g : ActorExecutionGate) : option ActorExecutionGate :=
  if decide (t ∈ leaving g)
  then Some {| gate_key := gate_key g; queue := queue g; holder := holder g;
               leaving := filter (fun t' => t' <> t) (leaving g) |}
  else None.

Inductive GateStep : ActorExecutionGate -> ActorExecutionGate -> Prop :=
| StepAcquire g g' : acquire g = Some g' -> GateStep g g'
| StepCancel t g g' : cancel t g = Some g' -> GateStep g g'
| StepDropGate g g' : drop_gate g = Some g' -> GateStep g g'
| StepDropExecution g g' : drop_execution g = Some g' -> GateStep g g'
| StepDropAdmission t g g' : drop_admission t g = Some g' -> GateStep g g'.

Inductive locks_step : ActorExecutionLocks -> ActorExecutionLocks -> Prop :=
| StepAdmit t key s : locks_step s (admit_task t key s).1
| StepGate id g g' s :
    gates s !! id = Some g -> GateStep g g' -> locks_step s (set_gate id g' s).

Inductive locks_reachable : ActorExecutionLocks -> Prop :=
| LocksNew : locks_reachable ActorExecutionLocks_new
| LocksStep s s' : locks_reachable s -> locks_step s s' -> locks_reachable s'.

(** ** Invariant *)

Record locks_wf (s : ActorExecutionLocks) : Prop := {
  live_gate_is_registered : forall id g, gates s !! id = Some g -> 0 < strong_count g ->
    locks s !! gate_key g = Some id;
  registered_gate_has_key : forall key id, locks s !! key = Some id ->
    exists g, gates s !! id = Some g /\ gate_key g = key;
  gates_are_numbered : forall id, is_Some (gates s !! id) -> id < next_gate s;
  admissions_bounded : forall id g, gates s !! id = Some g ->
    admitted g <= MAX_ADMITTED_INVOCATIONS_PER_ACTOR;
}.

Lemma lookup_retain s key id :
  retain s !! key = Some id <-> locks s !! key = Some id /\ is_Some (upgrade s id).
Proof.
  unfold retain. rewrite lookup_omap. destruct (locks s !! key) as [i |]; simpl.
  - case_decide; split; [by intros [= ->] | by intros [[= ->] _] | done | by intros [[= ->] ?]].
  - split; [done | by intros []].
Qed.

Lemma upgrade_Some s id g :
  upgrade s id = Some g <-> gates s !! id = Some g /\ 0 < strong_count g.
Proof.
  unfold upgrade. destruct (gates s !! id) as [g' |]; simpl.
  - case_decide; split; [by intros [= ->] | by intros [[= ->] _] | done | by intros [[= ->] ?]].
  - split; [done | by intros []].
Qed.

Lemma GateStep_counts g g' :
  GateStep g g' ->
  gate_key g' = gate_key g /\ strong_count g' <= strong_count g /\ admitted g' <= admitted g.
Proof.
  unfold strong_count, admitted, holder_count.
  destruct 1 as [g g' H | t g g' H | g g' H | g g' H | t g g' H];
    unfold acquire, cancel, drop_gate, drop_execution, drop_admission in H;
    repeat case_match; simplify_eq; simpl;
    try (pose proof (length_filter (fun t' => t' <> t) (queue g)));
    try (pose proof (length_filter (fun t' => t' <> t) (leaving g)));
    simpl in *; (split; [done |]); try lia.
Qed.

Lemma locks_wf_new : locks_wf ActorExecutionLocks_new.
Proof.
  split; simpl; intros *; rewrite ?lookup_empty; done.
Qed.

(** A step inside one gate. *)
Lemma locks_wf_gate_step s id g g' :
  locks_wf s -> gates s !! id = Some g -> GateStep g g' -> locks_wf (set_gate id g' s).
Proof.
  intros [H1 H2 H3 H4] Hg (Hk & Hs & Ha)%GateStep_counts. split; simpl.
  - intros i gi Hi Hl. apply lookup_insert_Some in Hi as [[<- <-] | [_ Hi]]; [| eauto].
    rewrite Hk. apply H1; [done | lia].
  - intros key i [gi [Hi <-]]%H2. destruct (decide (i = id)) as [-> | Hne].
    + exists g'. rewrite lookup_insert_eq. simplify_eq. done.
    + exists gi. by rewrite lookup_insert_ne.
  - intros i Hi. apply H3. destruct (decide (i = id)) as [-> | Hne]; [done |].
    by rewrite lookup_insert_ne in Hi.
  - intros i gi Hi. apply lookup_insert_Some in Hi as [[<- <-] | [_ Hi]]; [| eauto].
    etrans; [exact Ha | eauto].
Qed.

(** [gate] returns a gate of the key that no other live gate of the key
    competes with, and keeps the map well formed. *)
Lemma gate_spec key s s' id :
  locks_wf s -> gate key s = (s', id) ->
  locks_wf s' /\ locks s' !! key = Some id /\ (exists g, gates s' !! id = Some g /\ gate_key g = key) /\
  (forall i g, gates s !! i = Some g -> gates s' !! i = Some g) /\
  (forall i g, gates s' !! i = Some g -> gates s !! i = Some g \/
     (i = id /\ g = Build_ActorExecutionGate key [] None [])).
Proof.
  intros Hwf Hgate. destruct Hwf as [H1 H2 H3 H4]. unfold gate in Hgate.
  destruct (retain s !! key) as [i |] eqn:E; simplify_eq; simpl.
  - apply lookup_retain in E as E'. destruct E' as [Hi [g Hup]].
    apply upgrade_Some in Hup as [Hg Hs].
    destruct (H2 _ _ Hi) as (g0 & Hg0 & Hk). simplify_eq.
    repeat split; simpl; eauto.
    + intros j gj Hj Hl. apply lookup_retain. split; [eauto |]. exists gj. by apply upgrade_Some.
    + intros k j [Hj _]%lookup_retain. eauto.
  - assert (Hfresh : gates s !! next_gate s = None).
    { destruct (gates s !! next_gate s) eqn:Hn; [| done].
      exfalso. apply (Nat.lt_irrefl (next_gate s)), H3. by rewrite Hn. }
    rewrite !lookup_insert_eq. repeat split; simpl; eauto.
    + intros j gj Hj Hl. apply lookup_insert_Some in Hj as [[<- <-] | [Hne Hj]].
      { unfold strong_count in Hl. simpl in Hl. lia. }
      destruct (decide (gate_key gj = key)) as [Hkey | Hkey].
      * exfalso. assert (Hr : retain s !! key = Some j); [| congruence].
        apply lookup_retain. rewrite <- Hkey. split; [eauto |].
        exists gj. by apply upgrade_Some.
      * rewrite lookup_insert_ne by done. apply lookup_retain.
        split; [eauto |]. exists gj. by apply upgrade_Some.
    + intros k j [[<- <-] | [Hne [Hj [gj Hup]]%lookup_retain]]%lookup_insert_Some.
      { rewrite lookup_insert_eq. eauto. }
      apply H2 in Hj as (g & Hg & Hk). exists g. split; [| done].
      rewrite lookup_insert_ne; [done | congruence].
    + intros j [g Hj]. apply lookup_insert_Some in Hj as [[<- _] | [_ Hj]]; [lia |].
      apply Nat.lt_lt_succ_r, H3. eauto.
    + intros j gj Hj. apply lookup_insert_Some in Hj as [[<- <-] | [_ Hj]]; [| eauto].
      unfold admitted, MAX_ADMITTED_INVOCATIONS_PER_ACTOR. simpl. lia.
    + intros j gj Hj. rewrite lookup_insert_ne; [done | congruence].
    + intros j gj Hj. apply lookup_insert_Some in Hj as [[<- <-] | [_ Hj]]; auto.
Qed.

Lemma locks_wf_admit t key s : locks_wf s -> locks_wf (admit_task t key s).1.
Proof.
  intros Hwf. unfold admit_task. destruct (gate key s) as [s' id] eqn:E.
  apply (gate_spec _ _ _ _ Hwf) in E as (Hwf' & Hl & (g & Hg & Hk) & _).
  rewrite Hg. case_decide as Hp; simpl; [| done].
  destruct Hwf' as [H1 H2 H3 H4]. split; simpl.
  - intros i gi Hi Hs. apply lookup_insert_Some in Hi as [[<- <-] | [_ Hi]]; [| eauto].
    simpl. by rewrite Hk.
  - intros k i [gi [Hi <-]]%H2. destruct (decide (i = id)) as [-> | Hne].
    + eexists. rewrite lookup_insert_eq. simplify_eq. done.
    + exists gi. by rewrite lookup_insert_ne.
  - intros i Hi. apply H3. destruct (decide (i = id)) as [-> | Hne]; [done |].
    by rewrite lookup_insert_ne in Hi.
  - intros i gi Hi. apply lookup_insert_Some in Hi as [[<- <-] | [_ Hi]]; [| eauto].
    unfold admitted, holder_count in *. simpl. rewrite length_app. simpl. lia.
Qed.

Lemma locks_reachable_wf s : locks_reachable s -> locks_wf s.
Proof.
  induction 1 as [| s s' Hr IH Hs]; [apply locks_wf_new |].
  destruct Hs; [by apply locks_wf_admit | by eapply locks_wf_gate_step].
Qed.

(** ** Properties *)

(** C39: an actor runs one invocation at a time.  Gates are created on demand
    and forgotten when unused, yet two tasks inside their guards for the same
    key are always the same task of the same gate. *)
Theorem execution_is_exclusive
    (s : ActorExecutionLocks) (id1 id2 : nat) (g1 g2 : ActorExecutionGate) (t1 t2 : nat)
    (H : locks_reachable s)
    (Hg1 : gates s !! id1 = Some g1) (Ht1 : holder g1 = Some (Executing t1))
    (Hg2 : gates s !! id2 = Some g2) (Ht2 : holder g2 = Some (Executing t2))
    (Hkey : gate_key g1 = gate_key g2) :
  id1 = id2 /\ t1 = t2.
Proof.
  apply locks_reachable_wf in H as [Hlive _ _ _].
  assert (0 < strong_count g1 /\ 0 < strong_count g2) as [H1 H2].
  { unfold strong_count. rewrite Ht1, Ht2. lia. }
  apply (Hlive _ _ Hg1) in H1. apply (Hlive _ _ Hg2) in H2.
  rewrite Hkey in H1. simplify_eq. done.
Qed.

Definition run1 : ActorExecutionLocks := (admit_task 7 "a" (admit_task 1 "a" ActorExecutionLocks_new).1).1.
Definition gate_with (h : option Holder) (q : list nat) : ActorExecutionGate :=
  {| gate_key := "a"; queue := q; holder := h; leaving := [] |}.

Lemma run1_reachable : locks_reachable (set_gate 0 (gate_with (Some (Executing 1)) [7]) run1).
Proof.
  eapply LocksStep; [do 2 (eapply LocksStep; [| apply StepAdmit]); apply LocksNew |].
  eapply (StepGate 0 (gate_with None [1; 7])); [vm_compute; reflexivity |].
  apply StepAcquire. reflexivity.
Defined.

Lemma execution_is_exclusive_witness : 0 = 0 /\ 1 = 1.
Proof.
  refine (execution_is_exclusive _ 0 0 (gate_with (Some (Executing 1)) [7])
    (gate_with (Some (Executing 1)) [7]) 1 1 run1_reachable _ _ _ _ _); vm_compute; reflexivity.
Defined.

(** Admission is bounded and not refused without need: at most 33 tasks
    hold or await an actor's gate, and a call is answered [Full] only when 33
    tasks have a permit of the actor's live gate. *)
Lemma admission_bound
    (s s' : ActorExecutionLocks) (t : nat) (key : ActorStorageKey) (a : Admission)
    (H : locks_reachable s) (Ha : admit_task t key s = (s', a)) :
  (forall id g, gates s' !! id = Some g -> admitted g <= MAX_ADMITTED_INVOCATIONS_PER_ACTOR) /\
  match a with
  | Full => exists id g, gates s !! id = Some g /\ gate_key g = key /\ 0 < strong_count g /\
                         admitted g = MAX_ADMITTED_INVOCATIONS_PER_ACTOR
  | Queued id => exists g, gates s' !! id = Some g /\ gate_key g = key /\ t ∈ queue g
  end.
Proof.
  apply locks_reachable_wf in H. pose proof (locks_wf_admit t key s H) as Hwf'.
  rewrite Ha in Hwf'. split; [apply Hwf' |].
  unfold admit_task in Ha. destruct (gate key s) as [s1 id] eqn:E.
  pose proof E as E'. apply (gate_spec _ _ _ _ H) in E as ([_ _ _ H4] & Hl & (g & Hg & Hk) & _ & Hold).
  rewrite Hg in Ha. pose proof (H4 _ _ Hg) as Hb.
  case_decide as Hp; simplify_eq.
  - eexists. simpl. rewrite lookup_insert_eq. split; [done |]. split; [done |]. simpl. set_solver.
  - assert (Hempty : forall k, g <> Build_ActorExecutionGate k [] None []).
    { intros k ->. apply Hp. unfold admitted, MAX_ADMITTED_INVOCATIONS_PER_ACTOR. simpl. lia. }
    destruct (Hold _ _ Hg) as [Hg0 | [_ Heq]]; [| by apply Hempty in Heq].
    exists id, g. split; [done |]. split; [done |].
    split; [| unfold MAX_ADMITTED_INVOCATIONS_PER_ACTOR in *; lia].
    unfold gate in E'. destruct (retain s !! gate_key g) as [i |] eqn:Er; simplify_eq.
    + simpl in Hl. apply lookup_retain in Hl as [_ [g0 [Hg1 Hs]%upgrade_Some]]. assert (g0 = g) as <- by (simpl in Hg; congruence). done.
    + simpl in Hg. rewrite lookup_insert_eq in Hg. injection Hg as Hg.
      by destruct (Hempty (gate_key g)).
Qed.

Definition run2 : ActorExecutionLocks :=
  set_gate 0 (gate_with (Some (Executing 1)) [7]) run1.

Lemma admission_bound_witness :
  exists g, gates (admit_task 9 "a" run2).1 !! 0 = Some g /\ gate_key g = "a" /\ 9 ∈ queue g.
Proof.
  edestruct (admission_bound run2 (admit_task 9 "a" run2).1 9 "a" (Queued 0) run1_reachable) as [_ H];
    [vm_compute; reflexivity | exact H].
Defined.
