(* ===== verification/ActorHost.v ===== *)
(** * The actor host

    [src/host/actor_host.rs]: how a host runs one invocation or one socket event
    of an actor (validation, admission, cached or loaded state, an unresolved
    earlier commit, replay, execution, publication) and keeps the actor's state
    resident afterwards.

    The customer executor, the control plane, object storage and the clock are
    the environment: each call of a trait method is an operation on an abstract
    world, and the host records the calls it makes, with their answers, in
    [trace].  An invocation is modelled from its arrival to its answer; the gate
    of [ExecutionGate] is what keeps two of them from running for one actor at a
    time, so the cache entry of the actor is not changed by others in between.
    Its log events and their timings are in Telemetry.v. *)
From S2P Require Import Prelude Json Identity SocketProtocol StateLog StorageUrls.
Local Open Scope string_scope.

Definition STATE_WRITE_TICKET_SAFETY_MILLIS : Z := 5 * 1000.

(** [CommittedState]: the answer to a commit. *)
Record CommittedState := {
  committed_version : Z;
  committed_next_write : option StateWriteTicket;
}.

(** What waiting for the actor's gate came to: admitted, or [Full], and whether
    the host started draining meanwhile. *)
Record GateWait := { gate_admission : anyhow bool; drained_meanwhile : bool }.

Section Environment.
Context `{J : Json}.

(** The traits [ActorExecutor], [StateCommitAuthority] and [StateTransport], the
    execution gate and the system clock, over an abstract world.  The executor is
    a trait object: its [invoke_with_state] and [handle_socket_with_state] get
    the state beside the invocation, and what they do with it is theirs.  That
    of a host process is [JsActorExecutor] ([Executor], [Residency]), which
    sends the state only to a process that does not hold the actor. *)
Class HostEnv (W : Type) := {
  supports : string -> bool;
  executor_invoke_with_state :
    ActorMethodInvocation -> option Value -> W -> W * anyhow ActorMethodOutcome;
  executor_handle_socket_with_state :
    ActorSocketInvocation -> option Value -> W -> W * anyhow ActorSocketOutcome;
  executor_evict : ActorMethodEviction -> W -> W * anyhow ();
  prepare_state_write : ActorKey -> HostId -> Z -> Z -> W -> W * anyhow StateWriteTicket;
  commit_state : ActorKey -> HostId -> Z -> Z -> string -> string -> W -> W * anyhow CommittedState;
  transport_read : string -> W -> W * anyhow LoadedState;
  transport_write : string -> bytes -> W -> W * anyhow StateWrite;
  executions_admit : ActorStorageKey -> W -> W * GateWait;
  system_time : W -> W * option Z;
}.

(** An invocation with the state that goes with it. *)
Definition method_with_state (invocation : ActorMethodInvocation) (state : option Value)
    : ActorMethodInvocation :=
  {| mi_request_id := mi_request_id invocation; mi_actor := mi_actor invocation;
     mi_method := mi_method invocation; mi_args := mi_args invocation; mi_state := state;
     mi_connections := mi_connections invocation |}.
Definition socket_with_state (invocation : ActorSocketInvocation) (state : option Value)
    : ActorSocketInvocation :=
  {| si_request_id := si_request_id invocation; si_actor := si_actor invocation;
     si_event := si_event invocation; si_connections := si_connections invocation;
     si_state := state |}.

(** [ActorExecutor::invoke_with_state] and [handle_socket_with_state] of an
    executor that does not define them: the state is put into the invocation. *)
Definition default_invoke_with_state {W} (invoke : ActorMethodInvocation -> W -> W * anyhow ActorMethodOutcome)
    (invocation : ActorMethodInvocation) (state : option Value) : W -> W * anyhow ActorMethodOutcome :=
  invoke (method_with_state invocation state).
Definition default_handle_socket_with_state {W}
    (handle_socket : ActorSocketInvocation -> W -> W * anyhow ActorSocketOutcome)
    (invocation : ActorSocketInvocation) (state : option Value) : W -> W * anyhow ActorSocketOutcome :=
  handle_socket (socket_with_state invocation state).

(** The calls a host makes, with their answers.  The invocation of [CallInvoke]
    and [CallSocket] carries the state the host handed to its executor, which
    need not be what the executor sends on. *)
Inductive Call :=
| CallInvoke (invocation : ActorMethodInvocation) (answer : anyhow ActorMethodOutcome)
| CallSocket (invocation : ActorSocketInvocation) (answer : anyhow ActorSocketOutcome)
| CallEvict (actor : ActorKey)
| CallPrepare (actor : ActorKey) (owner_epoch expected_version : Z)
    (answer : anyhow StateWriteTicket)
| CallCommit (actor : ActorKey) (owner_epoch expected_version : Z)
    (state_object request_id : string) (answer : anyhow CommittedState)
| CallRead (url : string) (answer : anyhow LoadedState)
| CallWrite (url : string) (body : bytes) (answer : anyhow StateWrite).

Record PendingStateCommit := {
  snapshot : StateSnapshot;
  ticket : StateWriteTicket;
}.

Record CachedActorState := {
  c_owner_epoch : Z;
  c_state_version : Z;
  c_state : option Value;
  c_last_request_id : option string;
  c_last_result : option Value;
  c_next_write : option StateWriteTicket;
  c_pending : option PendingStateCommit;
}.

Definition CachedActorState_new (owner_epoch : Z) : CachedActorState :=
  {| c_owner_epoch := owner_epoch; c_state_version := 0; c_state := None;
     c_last_request_id := None; c_last_result := None; c_next_write := None;
     c_pending := None |}.

Context {C : @SnapshotSerde J}.

Definition from_loaded (owner_epoch state_version : Z) (loaded : LoadedState)
    : anyhow CachedActorState :=
  snapshot ← decode (ls_bytes loaded);
  ensure (StateLog.state_version snapshot =? state_version)%Z
    "actor snapshot version does not match its state head";;
  ensure (StateLog.owner_epoch snapshot <=? owner_epoch)%Z
    "actor snapshot belongs to a newer owner epoch";;
  Ok {| c_owner_epoch := owner_epoch; c_state_version := state_version;
        c_state := Some (state snapshot);
        c_last_request_id := Some (StateLog.request_id snapshot);
        c_last_result := Some (result snapshot);
        c_next_write := None; c_pending := None |}.

(** [CachedActorState::replay] *)
Definition cached_replay (cached : CachedActorState) (request_id : string) : option Value :=
  if bool_decide (c_last_request_id cached = Some request_id)
  then c_last_result cached else None.

Context {W : Type} `{Env : !HostEnv W}.

Record ActorHost := {
  endpoint : HostEndpoint;
  host_namespace_id : string;
  cached_state : gmap ActorStorageKey CachedActorState;
  accepting : bool;
  active : Z;
  activity : Z;
  world : W;
  trace : list Call;
}.

Definition ActorHost_new (endpoint : HostEndpoint) (namespace_id : string) (w : W) : ActorHost :=
  {| endpoint := endpoint; host_namespace_id := namespace_id; cached_state := ∅;
     accepting := true; active := 0; activity := 0; world := w; trace := [] |}.

Definition with_cache (f : gmap ActorStorageKey CachedActorState -> gmap ActorStorageKey CachedActorState)
    (h : ActorHost) : ActorHost :=
  {| endpoint := endpoint h; host_namespace_id := host_namespace_id h;
     cached_state := f (cached_state h); accepting := accepting h; active := active h;
     activity := activity h; world := world h; trace := trace h |}.
Definition with_world (w : W) (calls : list Call) (h : ActorHost) : ActorHost :=
  {| endpoint := endpoint h; host_namespace_id := host_namespace_id h;
     cached_state := cached_state h; accepting := accepting h; active := active h;
     activity := activity h; world := w; trace := trace h ++ calls |}.
Definition with_accepting (b : bool) (h : ActorHost) : ActorHost :=
  {| endpoint := endpoint h; host_namespace_id := host_namespace_id h;
     cached_state := cached_state h; accepting := b; active := active h;
     activity := activity h; world := world h; trace := trace h |}.
Definition with_active (n : Z) (h : ActorHost) : ActorHost :=
  {| endpoint := endpoint h; host_namespace_id := host_namespace_id h;
     cached_state := cached_state h; accepting := accepting h; active := n;
     activity := n; world := world h; trace := trace h |}.

Abbreviation HostM := (M ActorHost) (only parsing).

(** An awaited trait call. *)
Definition call {E A} (f : W -> W * A) (log : A -> list Call) : HostM E A := fun h =>
  let '(w, answer) := f (world h) in (with_world w (log answer) h, Ok answer).

Definition begin_activity : HostM Error () := fun h => (with_active (active h + 1) h, Ok tt).
Definition finish_activity : ActorHost -> ActorHost := fun h => with_active (active h - 1) h.
(** [let _activity = ActivityGuard::begin(self);] until the end of [c]. *)
Definition with_activity {A} (c : HostM Error A) : HostM Error A := fun h =>
  let '(h, r) := (begin_activity;; c) h in (finish_activity h, r).

Definition failed (code message : string) : ActorExecutionResult :=
  Failed {| Identity.code := code; Identity.message := message |}.

(** ** The resident state of an actor *)

Definition take_cached_state (object : ActorStorageKey) : HostM Error (option CachedActorState) :=
  cached ← gets (fun h => cached_state h !! object);
  modify (with_cache (delete object));;
  mret cached.

Definition store_cached_state (object : ActorStorageKey) (cached : CachedActorState)
    : HostM Error () :=
  modify (with_cache <[ object := cached ]>).

Definition load_state (owner_epoch state_version : Z) (state_read_url : string)
    : HostM Error CachedActorState :=
  if (state_version =? 0)%Z then
    lift (ensure (is_empty state_read_url) "uninitialized actor has a state URL");;
    mret (CachedActorState_new owner_epoch)
  else
    lift (ensure (negb (is_empty state_read_url)) "initialized actor has no state URL");;
    answer ← call (transport_read state_read_url) (fun a => [CallRead state_read_url a]);
    loaded ← lift (with_context "load actor state" answer);
    lift (from_loaded owner_epoch state_version loaded).

Definition take_or_load_state (object : ActorStorageKey) (owner_epoch state_version : Z)
    (state_read_url : string) : HostM Error CachedActorState :=
  cached ← take_cached_state object;
  match cached with
  | Some cached =>
      if (c_owner_epoch cached =? owner_epoch)%Z then mret cached
      else load_state owner_epoch state_version state_read_url
  | None => load_state owner_epoch state_version state_read_url
  end.

(** ** Execution *)

(** A failed eviction is only logged. *)
Definition evict {E} (actor : ActorKey) : HostM E () :=
  call (executor_evict {| ev_actor := actor |}) (fun _ => [CallEvict actor]);;
  mret ().

Definition throw {S E A} (e : E) : M S E A := fun s => (s, Err e).

(** [match failure.code.as_str()] *)
Definition actor_failure_code (code : string) : string :=
  if bool_decide (code = "resource_exhausted") then "resource_exhausted" else "actor_error".

Context `{B : Base64}.

Definition execute_method (invocation : ActorInvocation) (state : option Value)
    (connections : list ActorSocketConnection)
    : HostM ActorExecutionResult (Value * Value * list ActorSocketEffect) :=
  let request := {| mi_request_id := Identity.request_id invocation; mi_actor := actor invocation;
                    mi_method := method invocation; mi_args := args invocation;
                    mi_state := None; mi_connections := connections |} in
  outcome ← call (executor_invoke_with_state request state)
    (fun a => [CallInvoke (method_with_state request state) a]);
  match outcome with
  | Ok (MethodCompleted result state effects) =>
      match validate_socket_effects effects with
      | Ok _ => mret (result, state, effects)
      | Err error =>
          evict (actor invocation);;
          throw (failed "actor_error"
                   ("actor returned invalid socket effects: " +:+ alternate error))
      end
  | Ok (MethodFailed failure) =>
      evict (actor invocation);;
      throw (failed (actor_failure_code (code failure)) (message failure))
  | Err error =>
      evict (actor invocation);;
      throw (failed "actor_error" ("actor executor failed: " +:+ alternate error))
  end.

Definition execute_socket_event (invocation : ActorSocketInvocation) (state : option Value)
    : HostM ActorExecutionResult (Value * list ActorSocketEffect) :=
  outcome ← call (executor_handle_socket_with_state invocation state)
    (fun a => [CallSocket (socket_with_state invocation state) a]);
  match outcome with
  | Ok (Handled state effects) =>
      match validate_socket_effects effects with
      | Ok _ => mret (state, effects)
      | Err error =>
          evict (si_actor invocation);;
          throw (failed "actor_error"
                   ("actor returned invalid socket effects: " +:+ alternate error))
      end
  | Ok (SocketFailed failure) =>
      throw (failed (actor_failure_code (code failure)) (message failure))
  | Err error =>
      throw (failed "actor_error" ("actor executor failed: " +:+ alternate error))
  end.

(** ** Publication

    These functions take the cached state by mutable reference: they run on the
    host together with the cached state, and keep what they changed when they
    leave through [?]. *)

Abbreviation CacheM := (M (ActorHost * CachedActorState)) (only parsing).

Definition on_host {E A} (c : HostM E A) : CacheM E A := fun '(h, cached) =>
  let '(h', r) := c h in ((h', cached), r).
(** Lend [cached] to [c]: its final value and the outcome of [c]. *)
Definition lend {E A} (cached : CachedActorState) (c : CacheM Error A)
    : HostM E (CachedActorState * anyhow A) := fun h =>
  let '((h', cached'), r) := c (h, cached) in (h', Ok (cached', r)).

Definition cached_gets {E A} (f : CachedActorState -> A) : CacheM E A :=
  gets (fun s => f s.2).
Definition cached_modify {E} (f : CachedActorState -> CachedActorState) : CacheM E () :=
  modify (fun s => (s.1, f s.2)).

Definition set_next_write (t : option StateWriteTicket) (c : CachedActorState) :=
  {| c_owner_epoch := c_owner_epoch c; c_state_version := c_state_version c;
     c_state := c_state c; c_last_request_id := c_last_request_id c;
     c_last_result := c_last_result c; c_next_write := t; c_pending := c_pending c |}.
Definition set_pending (p : option PendingStateCommit) (c : CachedActorState) :=
  {| c_owner_epoch := c_owner_epoch c; c_state_version := c_state_version c;
     c_state := c_state c; c_last_request_id := c_last_request_id c;
     c_last_result := c_last_result c; c_next_write := c_next_write c; c_pending := p |}.
(** The five assignments of [finish_pending_commit], [pending] taken. *)
Definition adopt (pending : PendingStateCommit) (next_write : option StateWriteTicket)
    (c : CachedActorState) :=
  {| c_owner_epoch := c_owner_epoch c;
     c_state_version := StateLog.state_version (snapshot pending);
     c_state := Some (state (snapshot pending));
     c_last_request_id := Some (StateLog.request_id (snapshot pending));
     c_last_result := Some (result (snapshot pending));
     c_next_write := next_write; c_pending := None |}.

Definition finish_pending_commit (invocation : ActorInvocation) : CacheM Error () :=
  cached ← cached_gets (fun c => c);
  match c_pending cached with
  | None => mret ()
  | Some pending =>
      host_id ← on_host (gets (fun h => endpoint_id (endpoint h)));
      answer ← on_host (call
        (commit_state (actor invocation) host_id (c_owner_epoch cached)
           (c_state_version cached) (object_name (ticket pending))
           (StateLog.request_id (snapshot pending)))
        (fun a => [CallCommit (actor invocation) (c_owner_epoch cached)
                     (c_state_version cached) (object_name (ticket pending))
                     (StateLog.request_id (snapshot pending)) a]));
      committed ← lift answer;
      lift (ensure (committed_version committed =? StateLog.state_version (snapshot pending))%Z
              "control plane committed the wrong actor state version");;
      cached_modify (adopt pending (committed_next_write committed))
  end.

Definition host_unix_millis : HostM Error Z :=
  time ← call system_time (fun _ => []);
  lift (unix_millis time).

Definition prepare_ticket (invocation : ActorInvocation) (owner_epoch : Z)
    : CacheM Error StateWriteTicket :=
  version ← cached_gets c_state_version;
  host_id ← on_host (gets (fun h => endpoint_id (endpoint h)));
  answer ← on_host (call (prepare_state_write (actor invocation) host_id owner_epoch version)
             (fun a => [CallPrepare (actor invocation) owner_epoch version a]));
  lift answer.

(** The [match cached.next_write.take()] of [publish_result_once]: the ticket is
    taken whether or not it can be used; the clock is read only for a ticket of
    the right version. *)
Definition take_ticket (invocation : ActorInvocation) (owner_epoch next_version : Z)
    : CacheM Error StateWriteTicket :=
  next_write ← cached_gets c_next_write;
  cached_modify (set_next_write None);;
  match next_write with
  | Some ticket =>
      if (StorageUrls.state_version ticket =? next_version)%Z then
        now ← on_host host_unix_millis;
        if (i64_saturating_add now STATE_WRITE_TICKET_SAFETY_MILLIS <? expires_at_ms ticket)%Z
        then mret ticket
        else prepare_ticket invocation owner_epoch
      else prepare_ticket invocation owner_epoch
  | None => prepare_ticket invocation owner_epoch
  end.

Definition publish_result (invocation : ActorInvocation) (owner_epoch : Z)
    (result next_state : Value) : CacheM Error ActorExecutionResult :=
  version ← cached_gets c_state_version;
  next_version ← lift (some_or "actor state version overflow" (u64_checked_add version 1));
  ticket ← take_ticket invocation owner_epoch next_version;
  lift (ensure (StorageUrls.state_version ticket =? next_version)%Z
          "state write ticket has the wrong version");;
  snapshot ← lift (StateSnapshot_new next_version owner_epoch (Identity.request_id invocation)
                     next_state result);
  body ← lift (encode snapshot);
  answer ← on_host (call (transport_write (url ticket) body)
                      (fun a => [CallWrite (url ticket) body a]));
  write ← lift answer;
  lift (ensure (match write with Written | AlreadyExists => true end)
          "actor snapshot was not stored");;
  cached_modify (set_pending (Some {| snapshot := snapshot; ticket := ticket |}));;
  finish_pending_commit invocation;;
  mret (Completed result []).

(** ** Invocations *)

Definition validate_operation (invocation : ActorInvocation) (allowed_while_draining : bool)
    : HostM Error (option ActorExecutionResult) :=
  accepting ← gets accepting;
  if negb allowed_while_draining && negb accepting then mret (Some HostUnavailable)
  else
    lift (ActorInvocation_validate invocation);;
    host_namespace ← gets host_namespace_id;
    if negb (bool_decide (namespace_id (actor invocation) = host_namespace)) then
      lift (bail "actor invocation crossed the host namespace")
    else if negb (supports (actor_type (actor invocation))) then
      mret (Some (failed "actor_error" "actor type is not loaded by this host"))
    else mret None.

Definition validate_invocation (invocation : ActorInvocation)
    : HostM Error (option ActorExecutionResult) :=
  validate_operation invocation false.

(** [executions.admit_object(&object).await?], during which the host may start to
    drain. *)
Definition admit_object (object : ActorStorageKey) : HostM Error bool :=
  wait ← call (executions_admit object) (fun _ => []);
  modify (fun h => with_accepting (accepting h && negb (drained_meanwhile wait)) h);;
  lift (gate_admission wait).

Definition unresolved : ActorExecutionResult := Failed outcome_unknown_after_execution.

(** What follows once the actor has produced a result and its next state. *)
Definition publish_and_store (invocation : ActorInvocation) (owner_epoch : Z)
    (object : ActorStorageKey) (cached : CachedActorState) (result next_state : Value)
    : HostM Error (anyhow ActorExecutionResult) :=
  '(cached, published) ← lend cached (publish_result invocation owner_epoch result next_state);
  (if is_ok published then mret () else evict (actor invocation));;
  store_cached_state object cached;;
  mret published.

(** The execution proper, under the actor's gate, with its state in hand. *)
Definition run_invocation (invocation : ActorInvocation) (owner_epoch : Z)
    (object : ActorStorageKey) (cached : CachedActorState) : HostM Error ActorExecutionResult :=
  '(cached, finished) ← lend cached (finish_pending_commit invocation);
  match finished with
  | Err _ => store_cached_state object cached;; mret unresolved
  | Ok _ =>
      match cached_replay cached (Identity.request_id invocation) with
      | Some result => store_cached_state object cached;; mret (Completed result [])
      | None =>
          executed ← attempt (execute_method invocation (c_state cached) []);
          match executed with
          | Err failure => store_cached_state object cached;; mret failure
          | Ok (result, next_state, effects) =>
              if option_value_eqb (c_state cached) next_state then
                store_cached_state object cached;; mret (Completed result effects)
              else
                published ← publish_and_store invocation owner_epoch object cached result
                              next_state;
                mret (match published with
                      | Ok (Completed result _) => Completed result effects
                      | Ok result => result
                      | Err _ => unresolved
                      end)
          end
      end
  end.

Definition invoke_actor_once (invocation : ActorInvocation) (owner_epoch state_version : Z)
    (state_read_url : string) : HostM Error ActorExecutionResult :=
  rejected ← validate_invocation invocation;
  match rejected with
  | Some result => mret result
  | None => with_activity (
      let object := storage_key (actor invocation) in
      acquired ← admit_object object;
      if negb acquired then mret HostUnavailable
      else
        accepting ← gets accepting;
        if negb accepting then mret HostUnavailable
        else
          cached ← take_or_load_state object owner_epoch state_version state_read_url;
          run_invocation invocation owner_epoch object cached)
  end.

(** [invoke_actor] adds the log line. *)
Definition invoke_actor : ActorInvocation -> Z -> Z -> string -> HostM Error ActorExecutionResult :=
  invoke_actor_once.

(** ** Socket events *)

Inductive ActorSocketExecutionResult :=
| SocketHandled (effects : list ActorSocketEffect)
| SocketExecutionFailed (failure : ActorInvocationFailure)
| SocketHostUnavailable.

Definition from_actor_result (result : ActorExecutionResult) : ActorSocketExecutionResult :=
  match result with
  | Completed _ effects => SocketHandled effects
  | Failed failure => SocketExecutionFailed failure
  | Reroute | HostUnavailable => SocketHostUnavailable
  end.

Definition socket_event_name (event : ActorSocketEvent) : string :=
  match event with
  | Connect _ => "onConnect"
  | Message _ _ => "onMessage"
  | Disconnect _ _ _ _ => "onDisconnect"
  end.

Definition is_disconnect (event : ActorSocketEvent) : bool :=
  match event with Disconnect _ _ _ _ => true | _ => false end.

Definition socket_unresolved : ActorSocketExecutionResult :=
  SocketExecutionFailed outcome_unknown_after_execution.

Definition run_socket_event (invocation : ActorSocketInvocation) (persistence : ActorInvocation)
    (owner_epoch : Z) (object : ActorStorageKey) (cached : CachedActorState)
    : HostM Error ActorSocketExecutionResult :=
  '(cached, finished) ← lend cached (finish_pending_commit persistence);
  match finished with
  | Err _ => store_cached_state object cached;; mret socket_unresolved
  | Ok _ =>
      outcome ← attempt (execute_socket_event invocation (c_state cached));
      match outcome with
      | Err result => store_cached_state object cached;; mret (from_actor_result result)
      | Ok (next_state, effects) =>
          if option_value_eqb (c_state cached) next_state then
            store_cached_state object cached;; mret (SocketHandled effects)
          else
            published ← publish_and_store persistence owner_epoch object cached Null next_state;
            mret (match published with
                  | Ok (Completed _ _) => SocketHandled effects
                  | Ok result => from_actor_result result
                  | Err _ => socket_unresolved
                  end)
      end
  end.

Definition handle_socket_event_once (invocation : ActorSocketInvocation)
    (owner_epoch state_version : Z) (state_read_url : string) (persistence : ActorInvocation)
    : HostM Error ActorSocketExecutionResult :=
  let disconnecting := is_disconnect (si_event invocation) in
  rejected ← validate_operation persistence disconnecting;
  match rejected with
  | Some result => mret (from_actor_result result)
  | None => with_activity (
      let object := storage_key (si_actor invocation) in
      acquired ← admit_object object;
      if negb acquired then mret SocketHostUnavailable
      else
        accepting ← gets accepting;
        if negb disconnecting && negb accepting then mret SocketHostUnavailable
        else
          cached ← take_or_load_state object owner_epoch state_version state_read_url;
          run_socket_event invocation persistence owner_epoch object cached)
  end.

Definition socket_persistence (invocation : ActorSocketInvocation) : ActorInvocation :=
  {| Identity.request_id := si_request_id invocation; actor := si_actor invocation;
     method := socket_event_name (si_event invocation); args := [] |}.

Definition handle_socket_event (invocation : ActorSocketInvocation)
    (owner_epoch state_version : Z) (state_read_url : string)
    : HostM Error ActorSocketExecutionResult :=
  handle_socket_event_once invocation owner_epoch state_version state_read_url
    (socket_persistence invocation).

(** ** Draining

    [idle_in_time]: whether the running invocations ended before the timeout. *)
Definition drain (idle_in_time : bool) : HostM Error () :=
  modify (with_accepting false);;
  active ← gets active;
  if (active =? 0)%Z || idle_in_time then mret ()
  else lift (Err ["actor invocations did not drain before shutdown"; "deadline has elapsed"]).

(** The outcome column of the invocation log. *)
Definition actor_execution_outcome (result : ActorExecutionResult) : string :=
  match result with
  | Completed _ _ => "completed"
  | Failed _ => "failed"
  | Reroute => "reroute"
  | HostUnavailable => "host_unavailable"
  end.
Definition socket_execution_outcome (result : ActorSocketExecutionResult) : string :=
  match result with
  | SocketHandled _ => "completed"
  | SocketExecutionFailed _ => "failed"
  | SocketHostUnavailable => "host_unavailable"
  end.
End Environment.
