(* ===== verification/HostRuns.v ===== *)
(** * What an invocation does

    The runs of [ActorHost] described call by call: [ran] is a big-step
    specification of an execution under the actor's gate, and
    [run_invocation_refines] shows that the host's code implements it. *)
From S2P Require Import Prelude Json Identity SocketProtocol StateLog StorageUrls ActorHost.
Local Open Scope string_scope.

Section Runs.
Context `{J : Json} {C : @SnapshotSerde J} `{B : Base64} {W : Type} `{Env : !HostEnv W}.

Abbreviation Host := (ActorHost (W := W)).

(** ** Pieces of a run *)

Definition commit_call (actor : ActorKey) (c : CachedActorState) (p : PendingStateCommit)
    (answer : anyhow CommittedState) : Call :=
  CallCommit actor (c_owner_epoch c) (c_state_version c) (object_name (ticket p))
    (StateLog.request_id (snapshot p)) answer.

(** The answer confirms the pending version. *)
Definition confirms (p : PendingStateCommit) (answer : anyhow CommittedState) : bool :=
  match answer with
  | Ok cm => (committed_version cm =? StateLog.state_version (snapshot p))%Z
  | Err _ => false
  end.
Definition answered_ticket (answer : anyhow CommittedState) : option StateWriteTicket :=
  match answer with Ok cm => committed_next_write cm | Err _ => None end.

(** Resolving an earlier commit: nothing to do, confirmed and adopted, or still
    unresolved with the cached state untouched. *)
Inductive resolved (actor : ActorKey) : CachedActorState -> list Call -> CachedActorState -> bool -> Prop :=
| NothingPending c : c_pending c = None -> resolved actor c [] c true
| PendingConfirmed c p answer :
    c_pending c = Some p -> confirms p answer = true ->
    resolved actor c [commit_call actor c p answer] (adopt p (answered_ticket answer) c) true
| PendingUnresolved c p answer :
    c_pending c = Some p -> confirms p answer = false ->
    resolved actor c [commit_call actor c p answer] c false.

Definition method_request (i : ActorInvocation) (state : option Value) : ActorMethodInvocation :=
  {| mi_request_id := Identity.request_id i; mi_actor := actor i; mi_method := method i;
     mi_args := args i; mi_state := state; mi_connections := [] |}.

Definition host_failure (r : ActorExecutionResult) : Prop :=
  exists f, r = Failed f /\ (code f = "actor_error" \/ code f = "resource_exhausted").

(** Executing the method: one call; an eviction follows every failure. *)
Inductive executed (i : ActorInvocation) (state : option Value) :
    list Call -> Result ActorExecutionResult (Value * Value * list ActorSocketEffect) -> Prop :=
| ExecutedOk result next effects :
    validate_socket_effects effects = Ok tt ->
    executed i state
      [CallInvoke (method_request i state) (Ok (MethodCompleted result next effects))]
      (Ok (result, next, effects))
| ExecutedFailed answer r :
    host_failure r ->
    (forall result next effects, answer = Ok (MethodCompleted result next effects) ->
       validate_socket_effects effects <> Ok tt) ->
    executed i state [CallInvoke (method_request i state) answer; CallEvict (actor i)] (Err r).

Definition is_prepare (c : Call) : bool :=
  match c with CallPrepare _ _ _ _ => true | _ => false end.

(** Where the ticket of a publication comes from: the one kept with the state, or
    the answer to a request of this run. *)
Definition ticket_from (c : CachedActorState) (calls : list Call) (t : StateWriteTicket) : Prop :=
  c_next_write c = Some t \/ exists a e v, CallPrepare a e v (Ok t) ∈ calls.

(** The snapshot an invocation publishes on top of [c]. *)
Definition snapshot_of (i : ActorInvocation) (owner_epoch : Z) (c : CachedActorState)
    (result next : Value) : StateSnapshot :=
  {| StateLog.state_version := c_state_version c + 1; StateLog.owner_epoch := owner_epoch;
     StateLog.request_id := Identity.request_id i; StateLog.state := next;
     StateLog.result := result |}.

(** Publishing: abandoned before anything was stored, or stored under a ticket
    of the next version and then committed. *)
Inductive published (i : ActorInvocation) (owner_epoch : Z) (c : CachedActorState)
    (result next : Value) : list Call -> CachedActorState -> bool -> Prop :=
| PublishAbandoned calls c' :
    Forall (fun x => is_prepare x = true) calls -> c' = c \/ c' = set_next_write None c ->
    published i owner_epoch c result next calls c' false
| PublishNotStored calls u b e :
    Forall (fun x => is_prepare x = true) calls ->
    published i owner_epoch c result next (calls ++ [CallWrite u b (Err e)])
      (set_next_write None c) false
| PublishStored calls t b w calls' c' ok :
    Forall (fun x => is_prepare x = true) calls -> ticket_from c calls t ->
    StorageUrls.state_version t = (c_state_version c + 1)%Z ->
    (c_state_version c + 1 <= u64_max)%Z ->
    encode (snapshot_of i owner_epoch c result next) = Ok b ->
    resolved (actor i)
      (set_pending (Some {| snapshot := snapshot_of i owner_epoch c result next; ticket := t |})
         (set_next_write None c)) calls' c' ok ->
    published i owner_epoch c result next
      (calls ++ CallWrite (url t) b (Ok w) :: calls') c' ok.

(** A run under the gate: the calls it makes, the state it leaves resident, its
    answer. *)
Inductive ran (i : ActorInvocation) (owner_epoch : Z) (c : CachedActorState) :
    list Call -> CachedActorState -> ActorExecutionResult -> Prop :=
| RanUnresolved calls c1 :
    resolved (actor i) c calls c1 false -> ran i owner_epoch c calls c1 unresolved
| RanReplayed calls c1 result :
    resolved (actor i) c calls c1 true ->
    cached_replay c1 (Identity.request_id i) = Some result ->
    ran i owner_epoch c calls c1 (Completed result [])
| RanFailed calls c1 calls' r :
    resolved (actor i) c calls c1 true ->
    cached_replay c1 (Identity.request_id i) = None ->
    executed i (c_state c1) calls' (Err r) ->
    ran i owner_epoch c (calls ++ calls') c1 r
| RanUnchanged calls c1 calls' result next effects :
    resolved (actor i) c calls c1 true ->
    cached_replay c1 (Identity.request_id i) = None ->
    executed i (c_state c1) calls' (Ok (result, next, effects)) ->
    option_value_eqb (c_state c1) next = true ->
    ran i owner_epoch c (calls ++ calls') c1 (Completed result effects)
| RanPublished calls c1 calls' result next effects calls'' c2 :
    resolved (actor i) c calls c1 true ->
    cached_replay c1 (Identity.request_id i) = None ->
    executed i (c_state c1) calls' (Ok (result, next, effects)) ->
    option_value_eqb (c_state c1) next = false ->
    published i owner_epoch c1 result next calls'' c2 true ->
    ran i owner_epoch c (calls ++ calls' ++ calls'') c2 (Completed result effects)
| RanUnconfirmed calls c1 calls' result next effects calls'' c2 :
    resolved (actor i) c calls c1 true ->
    cached_replay c1 (Identity.request_id i) = None ->
    executed i (c_state c1) calls' (Ok (result, next, effects)) ->
    option_value_eqb (c_state c1) next = false ->
    published i owner_epoch c1 result next calls'' c2 false ->
    ran i owner_epoch c (calls ++ calls' ++ calls'' ++ [CallEvict (actor i)]) c2 unresolved.

(** ** The host after some calls *)

Lemma with_world_world w1 c1 w2 c2 (h : Host) :
  with_world w2 c2 (with_world w1 c1 h) = with_world w2 (c1 ++ c2) h.
Proof. unfold with_world. simpl. by rewrite app_assoc. Qed.

Lemma with_world_id (h : Host) : with_world (world h) [] h = h.
Proof. unfold with_world. rewrite app_nil_r. by destruct h. Qed.

(** [h'] is [h] after the calls [cs], in some world. *)
Definition after (h : Host) (cs : list Call) (h' : Host) : Prop := exists w, h' = with_world w cs h.

Lemma after_nil h : after h [] h.
Proof. exists (world h). by rewrite with_world_id. Qed.

Lemma after_app h cs h1 cs' h2 : after h cs h1 -> after h1 cs' h2 -> after h (cs ++ cs') h2.
Proof. intros [w ->] [w' ->]. exists w'. by rewrite with_world_world. Qed.

Lemma call_after {E A} (f : W -> W * A) log h h' (r : Result E A) :
  call f log h = (h', r) -> exists a, r = Ok a /\ after h (log a) h'.
Proof.
  unfold call. destruct (f (world h)) as [w a]. intros [= <- <-].
  exists a. split; [done | by exists w].
Qed.

Lemma on_host_run {E A} (c : M Host E A) h cached s r :
  on_host c (h, cached) = (s, r) -> exists h', c h = (h', r) /\ s = (h', cached).
Proof. unfold on_host. destruct (c h) as [h' r']. intros [= <- <-]. eauto. Qed.

(** ** The code takes these runs *)

Lemma finish_pending_commit_resolves i h c h' c' r :
  finish_pending_commit i (h, c) = ((h', c'), r) ->
  exists calls ok, after h calls h' /\ resolved (actor i) c calls c' ok /\ is_ok r = ok.
Proof.
  unfold finish_pending_commit, cached_gets, gets, mbind, M_bind. simpl.
  destruct (c_pending c) as [p |] eqn:Hp.
  - simpl. unfold call.
    destruct (commit_state _ _ _ _ _ _ _) as [w answer]. simpl. unfold lift.
    assert (Ha : after h [commit_call (actor i) c p answer]
                   (with_world w [commit_call (actor i) c p answer] h)) by (by exists w).
    destruct answer as [cm | e]; simpl.
    + destruct (committed_version cm =? _)%Z eqn:Hv; simpl; intros [= <- <- <-].
      * eexists _, true. split; [exact Ha |]. split; [| done].
        by apply (PendingConfirmed _ c p (Ok cm)).
      * eexists _, false. split; [exact Ha |]. split; [| done].
        by apply (PendingUnresolved _ c p (Ok cm)).
    + intros [= <- <- <-]. eexists _, false. split; [exact Ha |]. split; [| done].
      by apply (PendingUnresolved _ c p (Err e)).
  - intros [= <- <- <-]. exists [], true. split; [apply after_nil |].
    split; [by constructor | done].
Qed.

Lemma evict_after {E} a h h' (r : Result E ()) :
  evict a h = (h', r) -> r = Ok tt /\ after h [CallEvict a] h'.
Proof.
  unfold evict, call, mbind, M_bind. destruct (executor_evict _ _) as [w x]. simpl.
  intros [= <- <-]. split; [done | by exists w].
Qed.

Lemma evict_and_throw a h w cs (r : ActorExecutionResult) A h' (x : Result ActorExecutionResult A) :
  (evict a;; throw r) (with_world w cs h) = (h', x) ->
  x = Err r /\ after h (cs ++ [CallEvict a]) h'.
Proof.
  unfold mbind, M_bind. destruct (evict a _) as [h1 y] eqn:E.
  apply evict_after in E as [-> Ha]. intros [= <- <-]. split; [done |].
  eapply after_app; [by exists w | exact Ha].
Qed.

Lemma execute_method_executes i st h h' r :
  execute_method i st [] h = (h', r) -> exists calls, after h calls h' /\ executed i st calls r.
Proof.
  unfold execute_method, mbind at 1, M_bind at 1, call. simpl.
  destruct (executor_invoke_with_state _ _ _) as [w answer].
  destruct answer as [[result next effects | f] | e]; intros H.
  - destruct (validate_socket_effects effects) as [[] | e] eqn:Hv.
    + unfold mret, M_ret in H. injection H as <- <-. eexists. split; [by exists w |].
      by constructor.
    + apply evict_and_throw in H as [-> Ha]. eexists. split; [exact Ha |].
      constructor; [eexists; split; [done | by left] |].
      intros ? ? ? [= <- <- <-]. congruence.
  - apply evict_and_throw in H as [-> Ha]. eexists. split; [exact Ha |].
    constructor; [eexists; split; [done |] | done].
    unfold actor_failure_code. simpl. case_bool_decide; auto.
  - apply evict_and_throw in H as [-> Ha]. eexists. split; [exact Ha |].
    constructor; [eexists; split; [done | by left] | done].
Qed.

Lemma prepare_ticket_after i e h c h' c' r :
  prepare_ticket i e (h, c) = ((h', c'), r) ->
  c' = c /\ exists calls, Forall (fun x => is_prepare x = true) calls /\ after h calls h' /\
    (forall t, r = Ok t -> exists a e v, CallPrepare a e v (Ok t) ∈ calls).
Proof.
  unfold prepare_ticket, cached_gets, gets, mbind, M_bind, on_host, call, lift. simpl.
  destruct (prepare_state_write _ _ _ _ _) as [w a]. simpl. intros [= <- <- <-].
  split; [done |]. eexists. split; [| split; [by exists w |]]; [by repeat constructor |].
  intros t ->. do 3 eexists. by left.
Qed.

Lemma take_ticket_after i e nv h c h' c' r :
  take_ticket i e nv (h, c) = ((h', c'), r) ->
  c' = set_next_write None c /\
  exists calls, Forall (fun x => is_prepare x = true) calls /\ after h calls h' /\
    (forall t, r = Ok t -> ticket_from c calls t).
Proof.
  assert (Hprepare : prepare_ticket i e (h, set_next_write None c) = ((h', c'), r) ->
    c' = set_next_write None c /\
    exists calls, Forall (fun x => is_prepare x = true) calls /\ after h calls h' /\
      (forall t, r = Ok t -> ticket_from c calls t)).
  { intros (-> & calls & Hc & Ha & Ht)%prepare_ticket_after. split; [done |].
    exists calls. split_and!; [done | done |]. intros t Hr. right. by apply Ht. }
  unfold take_ticket, cached_gets, cached_modify, gets, modify, mbind, M_bind. simpl.
  destruct (c_next_write c) as [t |] eqn:Hnext; [| exact Hprepare].
  destruct (_ =? _)%Z; [| exact Hprepare].
  unfold on_host, host_unix_millis, call, mbind, M_bind, lift.
  destruct (system_time (world h)) as [w time].
  assert (Hw : after h [] (with_world w [] h)) by (by exists w).
  destruct (unix_millis time) as [now | err].
  - destruct (_ <? _)%Z.
    + unfold mret, M_ret. intros [= <- <- <-]. split; [done |]. exists [].
      split_and!; [done | done |]. intros t' [= <-]. by left.
    + intros (-> & calls & Hc & Ha & Ht)%prepare_ticket_after. split; [done |]. exists calls.
      split_and!; [done | exact (after_app _ _ _ _ _ Hw Ha) |]. intros t' Hr. right. by apply Ht.
  - intros [= <- <- <-]. split; [done |]. by exists [].
Qed.

(** One [?] of [publish_result]: a fallible step that leaves the state alone. *)
Lemma lift_bind {S E A A'} (r : Result E A) (k : A -> M S E A') s :
  (lift r ≫= k) s = match r with Ok x => k x s | Err e => (s, Err e) end.
Proof. by destruct r. Qed.

(** The end of [publish_result], once the snapshot is stored. *)
Lemma store_and_commit i e c result next h1 h' c' r cs t b wr h :
  Forall (fun x => is_prepare x = true) cs -> ticket_from c cs t ->
  StorageUrls.state_version t = (c_state_version c + 1)%Z ->
  (c_state_version c + 1 <= u64_max)%Z ->
  encode (snapshot_of i e c result next) = Ok b ->
  after h (cs ++ [CallWrite (url t) b (Ok wr)]) h1 ->
  (cached_modify (set_pending (Some {| snapshot := snapshot_of i e c result next; ticket := t |}));;
   finish_pending_commit i;; mret (Completed result [])) (h1, set_next_write None c)
   = ((h', c'), r) ->
  exists calls, after h calls h' /\ published i e c result next calls c' (is_ok r) /\
    (forall x, r = Ok x -> x = Completed result []).
Proof.
  intros Hcs Hfrom Ht Hmax Hb Ha H. unfold mbind, M_bind, cached_modify, modify in H. cbn [fst snd] in H.
  destruct (finish_pending_commit _ _) as [[h2 c2] r2] eqn:Hf.
  apply finish_pending_commit_resolves in Hf as (calls & ok & Ha2 & Hres & Hok).
  exists (cs ++ CallWrite (url t) b (Ok wr) :: calls)%list.
  assert (Hafter : after h (cs ++ CallWrite (url t) b (Ok wr) :: calls) h2).
  { rewrite cons_middle, app_assoc. by eapply after_app. }
  assert (Hpub : published i e c result next (cs ++ CallWrite (url t) b (Ok wr) :: calls) c2 (is_ok r2)).
  { rewrite Hok. by eapply PublishStored. }
  destruct r2 as [[] | err]; injection H as <- <- <-; (split; [done |]; split; [done |]).
  - by intros x [= <-].
  - done.
Qed.

(** A fallible step failed after the calls [cs]: nothing was stored. *)
Ltac abandon Habandon H cs err :=
  injection H as Hh Hc Hr; eapply (Habandon cs err); [done | by right | by subst | congruence].

Lemma publish_result_publishes i e h c result next h' c' r :
  publish_result i e result next (h, c) = ((h', c'), r) ->
  exists calls, after h calls h' /\ published i e c result next calls c' (is_ok r) /\
    (forall x, r = Ok x -> x = Completed result []).
Proof.
  assert (Habandon : forall cs (err : Error) c'',
    Forall (fun x => is_prepare x = true) cs -> c'' = c \/ c'' = set_next_write None c ->
    after h cs h' -> ((h', c''), Err err) = ((h', c'), r) ->
    exists calls, after h calls h' /\ published i e c result next calls c' (is_ok r) /\
      (forall x, r = Ok x -> x = Completed result [])).
  { intros cs err c'' Hcs Hc'' Ha [= <- <-]. exists cs. split; [done |].
    split; [by apply PublishAbandoned | done]. }
  unfold publish_result. unfold mbind at 1, M_bind at 1, cached_gets, gets. cbn [snd].
  rewrite lift_bind. destruct (some_or _ _) as [nv | err] eqn:Hnv; intros H;
    [| injection H as Hh Hc Hr; eapply (Habandon [] err c); [constructor | by left | subst; apply after_nil | congruence]].
  apply some_or_Ok, u64_checked_add_Some in Hnv as [-> Hmax].
  unfold mbind at 1, M_bind at 1 in H.
  destruct (take_ticket _ _ _ _) as [[h1 c1] [t | err]] eqn:Ht;
    apply take_ticket_after in Ht as (-> & cs & Hcs & Ha & Hfrom);
    [| abandon Habandon H cs err].
  rewrite lift_bind in H. destruct (ensure _ _) as [[] | err] eqn:Hv in H;
    [| abandon Habandon H cs err].
  apply ensure_Ok in Hv. bool_prop.
  rewrite lift_bind in H. destruct (StateSnapshot_new _ _ _ _ _) as [sn | err] eqn:Hs in H;
    [| abandon Habandon H cs err].
  apply StateSnapshot_new_Ok in Hs as [-> _].
  rewrite lift_bind in H. destruct (encode _) as [b | err] eqn:Hb in H;
    [| abandon Habandon H cs err].
  unfold mbind at 1, M_bind at 1, on_host, call in H.
  destruct (transport_write (url t) b (world h1)) as [w [wr | err]];
    rewrite lift_bind in H; cbn [ensure] in H.
  - eapply (store_and_commit i e c result next _ _ _ _ cs t b wr); try done.
    { by apply Hfrom. }
    { by eapply (after_app _ _ _ _ _ Ha); exists w. }
    revert H. by destruct wr.
  - injection H as Hh Hc Hr. exists (cs ++ [CallWrite (url t) b (Err err)])%list. subst.
    split; [eapply after_app; [exact Ha | by exists w] |].
    split; [by apply PublishNotStored | done].
Qed.

Lemma lend_run {E A} c (k : M (Host * CachedActorState) Error A) h h' (r : Result E _) :
  lend c k h = (h', r) ->
  exists c' x, k (h, c) = ((h', c'), x) /\ r = Ok (c', x).
Proof.
  unfold lend. destruct (k (h, c)) as [[h1 c1] x]. intros [= <- <-]. eauto.
Qed.

(** The resident entry of [object] is set to [c] after the calls [cs]. *)
Definition stored (h : Host) (cs : list Call) (object : ActorStorageKey)
    (c : CachedActorState) (h' : Host) : Prop :=
  exists h1, after h cs h1 /\ h' = with_cache <[ object := c ]> h1.

Lemma store_run {A} object c (x : A) h cs h1 h' (r : anyhow A) :
  after h cs h1 -> (store_cached_state object c;; mret x) h1 = (h', r) ->
  stored h cs object c h' /\ r = Ok x.
Proof.
  intros Ha. unfold store_cached_state, modify, mbind, M_bind, mret, M_ret.
  intros [= <- <-]. split; [by exists h1 | done].
Qed.

Lemma publish_and_store_run i e object c result next h h' r :
  publish_and_store i e object c result next h = (h', r) ->
  exists calls c' x, r = Ok x /\ published i e c result next calls c' (is_ok x) /\
    stored h (calls ++ if is_ok x then [] else [CallEvict (actor i)]) object c' h' /\
    (forall y, x = Ok y -> y = Completed result []).
Proof.
  unfold publish_and_store. unfold mbind at 1, M_bind at 1.
  destruct (lend _ _ h) as [h1 r1] eqn:Hl. apply lend_run in Hl as (c1 & x & Hp & ->).
  apply publish_result_publishes in Hp as (calls & Ha & Hp & Hx).
  unfold mbind at 1, M_bind at 1. intros H. exists calls, c1, x.
  destruct (is_ok x).
  - unfold mret at 1, M_ret at 1 in H.
    eapply store_run in H as [? ->]; [| exact Ha]. rewrite app_nil_r. done.
  - destruct (evict _ h1) as [h2 r2] eqn:He. apply evict_after in He as [-> He].
    eapply store_run in H as [? ->]; [| eapply after_app; [exact Ha | exact He]]. done.
Qed.

(** C27: the host's execution path implements the run specification.  Whatever
    the executor, the control plane and object storage answer, an execution
    under the actor's gate ends with an answer, never an error; the calls it
    made, the state it leaves resident for the actor and that answer form one
    of the runs of [ran]; and nothing else of the host changes. *)
Theorem run_invocation_refines
    (i : ActorInvocation) (owner_epoch : Z) (object : ActorStorageKey) (c : CachedActorState)
    (h h' : Host) (r : anyhow ActorExecutionResult)
    (H : run_invocation i owner_epoch object c h = (h', r)) :
  exists calls c' result, r = Ok result /\ ran i owner_epoch c calls c' result /\
    stored h calls object c' h'.
Proof.
  unfold run_invocation in H. unfold mbind at 1, M_bind at 1 in H.
  destruct (lend _ _ h) as [h1 r1] eqn:Hl. apply lend_run in Hl as (c1 & x & Hf & ->).
  apply finish_pending_commit_resolves in Hf as (calls & ok & Ha & Hres & <-).
  destruct x as [u | err]; [| eapply store_run in H as [Hst ->]; [| exact Ha];
    eexists _, _, _; split; [done |]; split; [by apply RanUnresolved | done]].
  destruct (cached_replay c1 _) as [result |] eqn:Hrep;
    [eapply store_run in H as [Hst ->]; [| exact Ha];
     eexists _, _, _; split; [done |]; split; [by apply RanReplayed | done] |].
  unfold mbind at 1, M_bind at 1, attempt in H.
  destruct (execute_method _ _ _ h1) as [h2 ex] eqn:He.
  apply execute_method_executes in He as (calls' & Ha' & Hex).
  pose proof (after_app _ _ _ _ _ Ha Ha') as Ha2.
  destruct ex as [[[result next] effects] | failure];
    [| eapply store_run in H as [Hst ->]; [| exact Ha2];
       eexists _, _, _; split; [done |]; split; [by eapply RanFailed | done]].
  destruct (option_value_eqb _ _) eqn:Heq;
    [eapply store_run in H as [Hst ->]; [| exact Ha2];
     eexists _, _, _; split; [done |]; split; [by eapply RanUnchanged | done] |].
  unfold mbind at 1, M_bind at 1 in H.
  destruct (publish_and_store _ _ _ _ _ _ h2) as [h3 r3] eqn:Hp.
  apply publish_and_store_run in Hp as (calls'' & c2 & x & -> & Hpub & (h4 & Ha3 & ->) & Hx).
  injection H as <- <-. pose proof (after_app _ _ _ _ _ Ha2 Ha3) as Ha4.
  rewrite <- app_assoc in Ha4.
  destruct x as [y | err]; cbn [is_ok] in *.
  - rewrite (Hx y) by done. rewrite app_nil_r in Ha4.
    eexists _, _, _. split; [done |]. split; [by eapply RanPublished | by exists h4].
  - eexists _, _, _. split; [done |]. split; [by eapply RanUnconfirmed | by exists h4].
Qed.

(** ** Socket events *)

Definition socket_request (i : ActorSocketInvocation) (state : option Value)
    : ActorSocketInvocation :=
  {| si_request_id := si_request_id i; si_actor := si_actor i; si_event := si_event i;
     si_connections := si_connections i; si_state := state |}.

(** Only an actor that answered effects it may not ask for is evicted; the process
    of one that failed has dropped it by itself. *)
Definition socket_evictions (actor : ActorKey) (answer : anyhow ActorSocketOutcome) : list Call :=
  match answer with Ok (Handled _ _) => [CallEvict actor] | _ => [] end.

(** Handling the event: one call, followed by at most an eviction. *)
Inductive handled (i : ActorSocketInvocation) (state : option Value) :
    list Call -> Result ActorExecutionResult (Value * list ActorSocketEffect) -> Prop :=
| HandledOk next effects :
    validate_socket_effects effects = Ok tt ->
    handled i state [CallSocket (socket_request i state) (Ok (Handled next effects))]
      (Ok (next, effects))
| HandledBadly answer r :
    host_failure r ->
    (forall next effects, answer = Ok (Handled next effects) ->
       validate_socket_effects effects <> Ok tt) ->
    handled i state
      (CallSocket (socket_request i state) answer :: socket_evictions (si_actor i) answer) (Err r).

Inductive socket_ran (i : ActorSocketInvocation) (owner_epoch : Z) (c : CachedActorState) :
    list Call -> CachedActorState -> ActorSocketExecutionResult -> Prop :=
| SocketRanUnresolved calls c1 :
    resolved (si_actor i) c calls c1 false -> socket_ran i owner_epoch c calls c1 socket_unresolved
| SocketRanFailed calls c1 calls' r :
    resolved (si_actor i) c calls c1 true -> handled i (c_state c1) calls' (Err r) ->
    socket_ran i owner_epoch c (calls ++ calls') c1 (from_actor_result r)
| SocketRanUnchanged calls c1 calls' next effects :
    resolved (si_actor i) c calls c1 true ->
    handled i (c_state c1) calls' (Ok (next, effects)) ->
    option_value_eqb (c_state c1) next = true ->
    socket_ran i owner_epoch c (calls ++ calls') c1 (SocketHandled effects)
| SocketRanPublished calls c1 calls' next effects calls'' c2 ok :
    resolved (si_actor i) c calls c1 true ->
    handled i (c_state c1) calls' (Ok (next, effects)) ->
    option_value_eqb (c_state c1) next = false ->
    published (socket_persistence i) owner_epoch c1 Null next calls'' c2 ok ->
    socket_ran i owner_epoch c
      (calls ++ calls' ++ calls'' ++ if ok then [] else [CallEvict (si_actor i)]) c2
      (if ok then SocketHandled effects else socket_unresolved).

Lemma execute_socket_event_handles i st h h' r :
  execute_socket_event i st h = (h', r) -> exists calls, after h calls h' /\ handled i st calls r.
Proof.
  unfold execute_socket_event, mbind at 1, M_bind at 1, call. simpl.
  destruct (executor_handle_socket_with_state _ _ _) as [w answer].
  destruct answer as [[next effects | f] | e]; intros H.
  - destruct (validate_socket_effects effects) as [[] | e] eqn:Hv.
    + unfold mret, M_ret in H. injection H as <- <-. eexists. split; [by exists w |].
      by constructor.
    + apply evict_and_throw in H as [-> Ha]. eexists. split; [exact Ha |].
      apply (HandledBadly i st (Ok (Handled next effects))); [eexists; split; [done | by left] |].
      intros ? ? [= <- <-]. congruence.
  - unfold throw in H. injection H as <- <-. eexists. split; [by exists w |].
    apply (HandledBadly i st (Ok (SocketFailed f))); [eexists; split; [done |] | done].
    unfold actor_failure_code. simpl. case_bool_decide; auto.
  - unfold throw in H. injection H as <- <-. eexists. split; [by exists w |].
    apply (HandledBadly i st (Err e)); [eexists; split; [done | by left] | done].
Qed.

Lemma run_socket_event_runs i e object c h h' r :
  run_socket_event i (socket_persistence i) e object c h = (h', r) ->
  exists calls c' result, r = Ok result /\ socket_ran i e c calls c' result /\
    stored h calls object c' h'.
Proof.
  unfold run_socket_event. unfold mbind at 1, M_bind at 1. intros H.
  destruct (lend _ _ h) as [h1 r1] eqn:Hl. apply lend_run in Hl as (c1 & x & Hf & ->).
  apply finish_pending_commit_resolves in Hf as (calls & ok & Ha & Hres & <-).
  destruct x as [u | err]; [| eapply store_run in H as [Hst ->]; [| exact Ha];
    eexists _, _, _; split; [done |]; split; [by apply SocketRanUnresolved | done]].
  unfold mbind at 1, M_bind at 1, attempt in H.
  destruct (execute_socket_event _ _ h1) as [h2 ex] eqn:He.
  apply execute_socket_event_handles in He as (calls' & Ha' & Hex).
  pose proof (after_app _ _ _ _ _ Ha Ha') as Ha2.
  destruct ex as [[next effects] | failure];
    [| eapply store_run in H as [Hst ->]; [| exact Ha2];
       eexists _, _, _; split; [done |]; split; [by eapply SocketRanFailed | done]].
  destruct (option_value_eqb _ _) eqn:Heq;
    [eapply store_run in H as [Hst ->]; [| exact Ha2];
     eexists _, _, _; split; [done |]; split; [by eapply SocketRanUnchanged | done] |].
  unfold mbind at 1, M_bind at 1 in H.
  destruct (publish_and_store _ _ _ _ _ _ h2) as [h3 r3] eqn:Hp.
  apply publish_and_store_run in Hp as (calls'' & c2 & x & -> & Hpub & (h4 & Ha3 & ->) & Hx).
  injection H as <- <-. pose proof (after_app _ _ _ _ _ Ha2 Ha3) as Ha4.
  rewrite <- app_assoc in Ha4.
  eexists _, _, _. split; [done |]. split; [| by exists h4].
  destruct x as [y | err]; cbn [is_ok] in *; [rewrite (Hx y) by done |].
  - by eapply (SocketRanPublished i e c _ _ _ _ _ _ _ true).
  - by eapply (SocketRanPublished i e c _ _ _ _ _ _ _ false).
Qed.
End Runs.

(** ** Whole invocations *)

Section Invocations.
Context `{J : Json} {C : @SnapshotSerde J} `{B : Base64} {W : Type} `{Env : !HostEnv W}.

Abbreviation Host := (ActorHost (W := W)).

(** What became of a host: the calls made, the cache left, everything else as
    before, except that draining may have begun. *)
Definition observed (h : Host) (calls : list Call)
    (cache : gmap ActorStorageKey CachedActorState) (h' : Host) : Prop :=
  trace h' = (trace h ++ calls)%list /\ cached_state h' = cache /\ endpoint h' = endpoint h /\
  host_namespace_id h' = host_namespace_id h /\ active h' = active h /\
  (accepting h' = true -> accepting h = true).

Definition is_read (c : Call) : bool := match c with CallRead _ _ => true | _ => false end.

(** The cache holds nothing of this epoch. *)
Definition not_resident (cache : gmap ActorStorageKey CachedActorState)
    (object : ActorStorageKey) (owner_epoch : Z) : Prop :=
  forall c, cache !! object = Some c -> c_owner_epoch c <> owner_epoch.

(** Where an execution's state comes from. *)
Inductive obtained (cache : gmap ActorStorageKey CachedActorState) (object : ActorStorageKey)
    (owner_epoch state_version : Z) (url : string) : list Call -> CachedActorState -> Prop :=
| FromCache c :
    cache !! object = Some c -> c_owner_epoch c = owner_epoch ->
    obtained cache object owner_epoch state_version url [] c
| FromNothing :
    not_resident cache object owner_epoch -> state_version = 0%Z -> url = "" ->
    obtained cache object owner_epoch state_version url [] (CachedActorState_new owner_epoch)
| FromStorage loaded c :
    not_resident cache object owner_epoch -> state_version <> 0%Z -> from_loaded owner_epoch state_version loaded = Ok c ->
    obtained cache object owner_epoch state_version url [CallRead url (Ok loaded)] c.

Lemma load_state_run cache object e v u h h' r :
  not_resident cache object e -> load_state e v u h = (h', r) ->
  exists calls, after h calls h' /\ Forall (fun x => is_read x = true) calls /\
    (forall c, r = Ok c -> obtained cache object e v u calls c).
Proof.
  intros Hnr. unfold load_state. intros H. destruct (v =? 0)%Z eqn:Hv; bool_prop; rewrite lift_bind in H.
  - destruct (ensure _ _) as [[] | err] eqn:Hu; injection H as <- <-;
      (exists []; split; [apply after_nil |]; split; [done |]); [| done].
    intros c [= <-]. apply ensure_Ok, is_empty_spec in Hu. by constructor.
  - destruct (ensure _ _) as [[] | err] eqn:Hu;
      [| injection H as <- <-; exists []; split; [apply after_nil | by split]].
    unfold mbind at 1, M_bind at 1, call in H.
    destruct (transport_read u (world h)) as [w a]. rewrite lift_bind in H.
    exists [CallRead u a].
    destruct a as [l | err]; simpl in H; unfold lift in H; injection H as <- <-;
      (split; [by exists w |]; split; [by repeat constructor |]); [| done].
    intros c Hc. by constructor.
Qed.

Lemma after_observed h calls h' cache :
  after h calls h' -> cached_state h = cache -> observed h calls cache h'.
Proof. intros [w ->] <-. unfold observed. simpl. split_and!; done. Qed.

Lemma observed_trans h c1 m1 h1 c2 m2 h2 :
  observed h c1 m1 h1 -> observed h1 c2 m2 h2 -> observed h (c1 ++ c2) m2 h2.
Proof.
  intros (T1 & _ & E1 & N1 & A1 & X1) (T2 & M2 & E2 & N2 & A2 & X2). unfold observed.
  rewrite T2, T1, app_assoc, E2, N2, A2. auto 10.
Qed.

Lemma observed_stored h calls object c h' :
  stored h calls object c h' -> observed h calls (<[ object := c ]> (cached_state h)) h'.
Proof. intros (h1 & [w ->] & ->). unfold observed. simpl. split_and!; done. Qed.

Lemma take_or_load_state_run object e v u h h' r :
  take_or_load_state object e v u h = (h', r) ->
  exists calls, observed h calls (delete object (cached_state h)) h' /\
    Forall (fun x => is_read x = true) calls /\
    (forall c, r = Ok c -> obtained (cached_state h) object e v u calls c) /\
    (forall err, r = Err err -> not_resident (cached_state h) object e).
Proof.
  unfold take_or_load_state, take_cached_state, gets, modify, mbind, M_bind, mret, M_ret.
  set (h0 := with_cache (delete object) h).
  assert (H0 : observed h [] (delete object (cached_state h)) h0) by
    (unfold observed; rewrite app_nil_r; done).
  assert (Hload : not_resident (cached_state h) object e -> load_state e v u h0 = (h', r) ->
    exists calls, observed h calls (delete object (cached_state h)) h' /\
      Forall (fun x => is_read x = true) calls /\
      (forall c, r = Ok c -> obtained (cached_state h) object e v u calls c) /\
      (forall err, r = Err err -> not_resident (cached_state h) object e)).
  { intros Hnr (calls & Ha & Hr & Ho)%(load_state_run _ _ _ _ _ _ _ _ Hnr).
    exists calls. split; [| by split_and!].
    eapply (observed_trans _ []); [exact H0 |]. by apply after_observed. }
  destruct (cached_state h !! object) as [c |] eqn:Hc;
    [| apply Hload; intros c' Hc'; congruence].
  destruct (_ =? _)%Z eqn:He; bool_prop; [| apply Hload; intros c' Hc'; congruence].
  intros [= <- <-]. exists []. split; [done |]. split; [done |]. split; [| done].
  intros c' [= <-]. by apply FromCache.
Qed.

Lemma with_activity_run {A} (c : M Host Error A) h h' r :
  with_activity c h = (h', r) ->
  exists h1, c (with_active (active h + 1) h) = (h1, r) /\ h' = finish_activity h1.
Proof.
  unfold with_activity, mbind, M_bind, begin_activity.
  destruct (c _) as [h1 r1]. intros [= <- <-]. eauto.
Qed.

Lemma observed_activity h calls cache h1 :
  observed (with_active (active h + 1) h) calls cache h1 ->
  observed h calls cache (finish_activity h1).
Proof.
  intros (T & M & E & N & A & X). unfold observed, finish_activity. simpl in *.
  rewrite A. split_and!; try done. lia.
Qed.

Lemma admit_run object h h' r :
  admit_object object h = (h', r) -> observed h [] (cached_state h) h'.
Proof.
  unfold admit_object, call, modify, lift, mbind, M_bind.
  destruct (executions_admit object (world h)) as [w x]. intros [= <- _].
  unfold observed. simpl. rewrite app_nil_r. split_and!; try done.
  by intros [? _]%andb_true_iff.
Qed.

Lemma observed_refl h : observed h [] (cached_state h) h.
Proof. unfold observed. rewrite app_nil_r. done. Qed.

(** The cache after an execution that did not start: as before, or without the
    entry of another epoch, which was to be replaced. *)
Definition untouched (object : ActorStorageKey) (owner_epoch : Z)
    (before after : gmap ActorStorageKey CachedActorState) : Prop :=
  after = before \/ (after = delete object before /\ not_resident before object owner_epoch).

(** An answer that says the actor's code was not reached. *)
Definition not_reached (r : anyhow ActorExecutionResult) : Prop :=
  match r with
  | Err _ => True
  | Ok HostUnavailable => True
  | Ok (Failed f) => Failed f = failed "actor_error" "actor type is not loaded by this host"
  | _ => False
  end.

Lemma validate_operation_run i b h h' r :
  validate_operation i b h = (h', r) ->
  h' = h /\ match r with
            | Err _ => True
            | Ok None => ActorInvocation_validate i = Ok tt /\
                namespace_id (actor i) = host_namespace_id h /\
                supports (actor_type (actor i)) = true /\ (b = false -> accepting h = true)
            | Ok (Some x) => not_reached (Ok x)
            end.
Proof.
  unfold validate_operation, gets, lift, mbind, M_bind, mret, M_ret.
  destruct (negb b && negb (accepting h)) eqn:Ha; [by intros [= <- <-] |].
  destruct (ActorInvocation_validate i) as [[] | err]; [| by intros [= <- <-]].
  case_bool_decide as Hn; simpl; [| by intros [= <- <-]].
  destruct (supports _) eqn:Hs; simpl; intros [= <- <-]; [| done].
  repeat split; try done. intros ->. simpl in Ha. by destruct (accepting h).
Qed.

Lemma deleted_insert object c (m : gmap ActorStorageKey CachedActorState) :
  <[ object := c ]> (delete object m) = <[ object := c ]> m.
Proof. apply insert_delete_eq. Qed.

(** How an invocation can go: it is turned away without reaching the actor, or
    it runs on a state obtained from the cache or from storage. *)
Inductive invocation_run (i : ActorInvocation) (e v : Z) (u : string) (h : Host) :
    list Call -> Host -> anyhow ActorExecutionResult -> Prop :=
| TurnedAway calls cache h' r :
    Forall (fun x => is_read x = true) calls -> observed h calls cache h' ->
    untouched (storage_key (actor i)) e (cached_state h) cache -> not_reached r ->
    invocation_run i e v u h calls h' r
| Ran calls calls' c c' result h' :
    ActorInvocation_validate i = Ok tt -> namespace_id (actor i) = host_namespace_id h ->
    supports (actor_type (actor i)) = true -> accepting h = true ->
    obtained (cached_state h) (storage_key (actor i)) e v u calls c ->
    ran i e c calls' c' result ->
    observed h (calls ++ calls') (<[ storage_key (actor i) := c' ]> (cached_state h)) h' ->
    invocation_run i e v u h (calls ++ calls') h' (Ok result).

(** The part invocations and socket events share: activity, admission, the
    second look at [accepting], the state, then [k]. *)
Definition under_gate {A} (object : ActorStorageKey) (e v : Z) (u : string) (unavailable : A)
    (closed : bool -> bool) (k : CachedActorState -> M Host Error A) : M Host Error A :=
  with_activity (
    acquired ← admit_object object;
    if negb acquired then mret unavailable
    else
      accepting ← gets accepting;
      if closed accepting then mret unavailable
      else
        cached ← take_or_load_state object e v u;
        k cached).

Lemma under_gate_run {A} object e v u (unavailable : A) closed k h h' (r : anyhow A) :
  under_gate object e v u unavailable closed k h = (h', r) ->
  (exists calls cache, Forall (fun x => is_read x = true) calls /\ observed h calls cache h' /\
     untouched object e (cached_state h) cache /\ (r = Ok unavailable \/ exists err, r = Err err)) \/
  (exists calls c h1 h2, obtained (cached_state h) object e v u calls c /\
     observed (with_active (active h + 1) h) calls (delete object (cached_state h)) h1 /\
     k c h1 = (h2, r) /\ h' = finish_activity h2).
Proof.
  intros H. apply with_activity_run in H as (h1 & H & ->). unfold mbind at 1, M_bind at 1 in H.
  destruct (admit_object _ _) as [h2 ra] eqn:Had. apply admit_run in Had as Ho.
  cbn [cached_state with_active] in Ho.
  assert (Haway : forall r', (r' = Ok unavailable \/ exists err, r' = Err err) ->
    (h2, r') = (h1, r) ->
    exists calls cache, Forall (fun x => is_read x = true) calls /\
      observed h calls cache (finish_activity h1) /\
      untouched object e (cached_state h) cache /\ (r = Ok unavailable \/ exists err, r = Err err)).
  { intros r' Hr' [= <- <-]. exists [], (cached_state h).
    split; [done |]. split; [by apply observed_activity | split; [by left | done]]. }
  destruct ra as [[] | err]; cbn [negb] in H;
    [| left; by apply (Haway (Ok unavailable)); [left |] | left; apply (Haway (Err err)); eauto].
  unfold mbind at 1, M_bind at 1, gets in H.
  destruct (closed (accepting h2)); [left; by apply (Haway (Ok unavailable)); [left |] |].
  unfold mbind at 1, M_bind at 1 in H.
  destruct (take_or_load_state _ _ _ _ h2) as [h3 rc] eqn:Hl.
  apply take_or_load_state_run in Hl as (calls & Hl & Hreads & Hob & Hnr).
  pose proof Ho as (_ & Mo & _). rewrite Mo in Hl, Hob, Hnr.
  pose proof (observed_trans _ _ _ _ _ _ _ Ho Hl) as Hl2.
  destruct rc as [c | err].
  - right. exists calls, c, h3, h1. auto.
  - injection H as <- <-. left. exists calls, (delete object (cached_state h)).
    split; [done |]. split; [by apply observed_activity | split; [right; eauto | eauto]].
Qed.

(** An execution that starts where [under_gate_run] leaves it. *)
Lemma ran_observed h calls object h1 calls' c' h2 :
  observed (with_active (active h + 1) h) calls (delete object (cached_state h)) h1 ->
  stored h1 calls' object c' h2 ->
  observed h (calls ++ calls') (<[ object := c' ]> (cached_state h)) (finish_activity h2).
Proof.
  intros H1 H2%observed_stored. apply observed_activity.
  pose proof H1 as (_ & M & _). rewrite M, deleted_insert in H2. by eapply observed_trans.
Qed.

Lemma turned_away_now i e v u h r :
  not_reached r -> invocation_run i e v u h [] h r.
Proof.
  intros Hr. apply (TurnedAway _ _ _ _ _ _ (cached_state h)); [done | apply observed_refl | | done].
  by left.
Qed.

Lemma invoke_actor_runs i e v u h h' r :
  invoke_actor i e v u h = (h', r) -> exists calls, invocation_run i e v u h calls h' r.
Proof.
  unfold invoke_actor, invoke_actor_once, validate_invocation. unfold mbind at 1, M_bind at 1.
  destruct (validate_operation i false h) as [h0 r0] eqn:Hv.
  apply validate_operation_run in Hv as [-> Hv].
  destruct r0 as [[x |] | err];
    [intros [= <- <-]; exists []; by apply turned_away_now |
     | intros [= <- <-]; exists []; by apply turned_away_now].
  destruct Hv as (Hval & Hns & Hsup & Hacc). intros H.
  apply (under_gate_run (storage_key (actor i)) e v u HostUnavailable negb
           (run_invocation i e (storage_key (actor i))))
    in H as [(calls & cache & Hr & Hobs & Hu & Ha) | (calls & c & h1 & h2 & Hob & Hobs & H & ->)].
  - exists calls. eapply TurnedAway; [done | done | done |]. by destruct Ha as [-> | [err ->]].
  - apply run_invocation_refines in H as (calls' & c' & result & -> & Hran & Hst).
    exists (calls ++ calls')%list. eapply Ran; eauto. by eapply ran_observed.
Qed.

(** How a socket event can go. *)
Inductive socket_event_run (i : ActorSocketInvocation) (e v : Z) (u : string) (h : Host) :
    list Call -> Host -> anyhow ActorSocketExecutionResult -> Prop :=
| SocketTurnedAway calls cache h' r :
    Forall (fun x => is_read x = true) calls -> observed h calls cache h' ->
    untouched (storage_key (si_actor i)) e (cached_state h) cache ->
    (forall effects, r <> Ok (SocketHandled effects)) ->
    socket_event_run i e v u h calls h' r
| SocketRan calls calls' c c' result h' :
    namespace_id (si_actor i) = host_namespace_id h ->
    supports (actor_type (si_actor i)) = true ->
    obtained (cached_state h) (storage_key (si_actor i)) e v u calls c ->
    socket_ran i e c calls' c' result ->
    observed h (calls ++ calls') (<[ storage_key (si_actor i) := c' ]> (cached_state h)) h' ->
    socket_event_run i e v u h (calls ++ calls') h' (Ok result).

Lemma handle_socket_event_runs i e v u h h' r :
  handle_socket_event i e v u h = (h', r) -> exists calls, socket_event_run i e v u h calls h' r.
Proof.
  unfold handle_socket_event, handle_socket_event_once. unfold mbind at 1, M_bind at 1.
  destruct (validate_operation _ _ h) as [h0 r0] eqn:Hv.
  apply validate_operation_run in Hv as [-> Hv].
  assert (Haway : forall r', (forall effects, r' <> Ok (SocketHandled effects)) ->
            socket_event_run i e v u h [] h r').
  { intros r' Hr'. apply (SocketTurnedAway _ _ _ _ _ _ (cached_state h));
      [done | apply observed_refl | by left | done]. }
  destruct r0 as [[x |] | err];
    [intros [= <- <-]; exists []; apply Haway; by destruct x |
     | intros [= <- <-]; exists []; by apply Haway].
  destruct Hv as (_ & Hns & Hsup & _). intros H.
  apply (under_gate_run (storage_key (si_actor i)) e v u SocketHostUnavailable
           (fun accepting => negb (is_disconnect (si_event i)) && negb accepting)
           (run_socket_event i (socket_persistence i) e (storage_key (si_actor i))))
    in H as [(calls & cache & Hr & Hobs & Hu & Ha) | (calls & c & h1 & h2 & Hob & Hobs & H & ->)].
  - exists calls. eapply SocketTurnedAway; [done | done | done |].
    by destruct Ha as [-> | [err ->]].
  - apply run_socket_event_runs in H as (calls' & c' & result & -> & Hran & Hst).
    exists (calls ++ calls')%list. eapply SocketRan; eauto. by eapply ran_observed.
Qed.
End Invocations.
