(* ===== verification/HostSafety.v ===== *)
(** * Guarantees of the actor host

    The theorems on [ActorHost], derived from the runs of [HostRuns]: what each
    answer means, exactly-once execution under retries, and the invariants of
    every reachable host. *)
From S2P Require Import Prelude Json Identity SocketProtocol StateLog StorageUrls ActorHost HostRuns.
Local Open Scope string_scope.

Section Guarantees.
Context `{J : Json} {C : @SnapshotSerde J} `{B : Base64} {W : Type} `{Env : !HostEnv W}.

Abbreviation Host := (ActorHost (W := W)).

(** The calls that run the actor's code, store a snapshot or move the head. *)
Definition is_execution (c : Call) : bool :=
  match c with CallInvoke _ _ | CallSocket _ _ => true | _ => false end.
Definition is_effect (c : Call) : bool :=
  match c with
  | CallInvoke _ _ | CallSocket _ _ | CallWrite _ _ _ | CallCommit _ _ _ _ _ _ => true
  | _ => false
  end.

Definition none_of (p : Call -> bool) (calls : list Call) : Prop :=
  Forall (fun c => p c = false) calls.

Lemma none_of_app p l1 l2 : none_of p (l1 ++ l2) <-> none_of p l1 /\ none_of p l2.
Proof. apply Forall_app. Qed.

Lemma none_of_impl (p q : Call -> bool) l :
  (forall c, p c = true -> q c = false) -> Forall (fun c => p c = true) l -> none_of q l.
Proof. intros H Hl. eapply Forall_impl; [exact Hl | auto]. Qed.

Lemma reads_no_effect l : Forall (fun c => is_read c = true) l -> none_of is_effect l.
Proof. apply none_of_impl. by intros []. Qed.
Lemma reads_no_execution l : Forall (fun c => is_read c = true) l -> none_of is_execution l.
Proof. apply none_of_impl. by intros []. Qed.
Lemma prepares_no_execution l : Forall (fun c => is_prepare c = true) l -> none_of is_execution l.
Proof. apply none_of_impl. by intros []. Qed.

Lemma obtained_reads m k e v u calls c :
  obtained m k e v u calls c -> Forall (fun x => is_read x = true) calls.
Proof. destruct 1; by repeat constructor. Qed.

Lemma obtained_epoch m k e v u calls c : obtained m k e v u calls c -> c_owner_epoch c = e.
Proof.
  destruct 1 as [| | l c Hnr Hv Hl]; [done.. |]. unfold from_loaded in Hl. by inv_ok.
Qed.

Lemma resolved_no_execution a c calls c' ok : resolved a c calls c' ok -> none_of is_execution calls.
Proof. destruct 1; by repeat constructor. Qed.

Lemma resolved_epoch a c calls c' ok :
  resolved a c calls c' ok -> c_owner_epoch c' = c_owner_epoch c.
Proof. by destruct 1. Qed.

Lemma resolved_pending a c calls c' : resolved a c calls c' true -> c_pending c' = None.
Proof. by inversion 1. Qed.

Lemma published_no_execution i e c r n calls c' ok :
  published i e c r n calls c' ok -> none_of is_execution calls.
Proof.
  destruct 1; [by apply prepares_no_execution | |];
    (apply none_of_app; split; [by apply prepares_no_execution |]); [by repeat constructor |].
  constructor; [done | by eapply resolved_no_execution].
Qed.

Lemma executed_result i st calls r x y z :
  executed i st calls r -> r = Ok (x, y, z) ->
  calls = [CallInvoke (method_request i st) (Ok (MethodCompleted x y z))].
Proof. destruct 1; congruence. Qed.

(** Failure codes an invocation can answer. *)
Definition host_failure_code (f : ActorInvocationFailure) : Prop :=
  code f = "actor_error" \/ code f = "resource_exhausted" \/ f = outcome_unknown_after_execution.

Lemma ran_answer i e c calls c' r :
  ran i e c calls c' r ->
  match r with
  | Completed _ _ => True
  | Failed f => host_failure_code f
  | Reroute | HostUnavailable => False
  end.
Proof.
  unfold host_failure_code. destruct 1 as [| | ? ? ? r _ _ Hex | | |]; simpl; try tauto.
  inversion Hex as [| ? ? (f & -> & Hf)]; subst. tauto.
Qed.

(** What a failure other than "outcome_unknown" leaves behind, with the calls
    made.  Either the actor was not reached: nothing was run, stored or moved,
    and its resident state is at most dropped.  Or its method ran, once, and
    failed, after the commit that an earlier request had left pending, if any,
    was confirmed: the resident state is the one before with that commit
    adopted, and the executor forgot the actor. *)
Inductive failed_before_storing (i : ActorInvocation) (e v : Z) (u : string) (h h' : Host) :
    list Call -> Prop :=
| NeverRan calls :
    none_of is_effect calls ->
    untouched (storage_key (actor i)) e (cached_state h) (cached_state h') ->
    failed_before_storing i e v u h h' calls
| RanAndFailed reads c commits c' answer :
    obtained (cached_state h) (storage_key (actor i)) e v u reads c ->
    resolved (actor i) c commits c' true ->
    (forall p, c_pending c = Some p -> StateLog.request_id (snapshot p) <> Identity.request_id i) ->
    cached_state h' = <[ storage_key (actor i) := c' ]> (cached_state h) ->
    failed_before_storing i e v u h h'
      (reads ++ commits ++ [CallInvoke (method_request i (c_state c')) answer; CallEvict (actor i)]).

Lemma resolved_not_replayed i c commits c' :
  resolved (actor i) c commits c' true -> cached_replay c' (Identity.request_id i) = None ->
  forall p, c_pending c = Some p -> StateLog.request_id (snapshot p) <> Identity.request_id i.
Proof.
  intros H Hrep p Hp Heq. inversion H as [? Hn | ? p' answer Hp' |]; subst; [congruence |].
  rewrite Hp in Hp'. injection Hp' as <-. unfold cached_replay, adopt in Hrep. simpl in Hrep.
  by rewrite Heq, bool_decide_eq_true_2 in Hrep.
Qed.

Lemma ran_failed_before_storing i e v u h h' reads calls c c' f :
  obtained (cached_state h) (storage_key (actor i)) e v u reads c ->
  ran i e c calls c' (Failed f) ->
  cached_state h' = <[ storage_key (actor i) := c' ]> (cached_state h) ->
  f = outcome_unknown_after_execution \/
  ((code f = "actor_error" \/ code f = "resource_exhausted") /\
   failed_before_storing i e v u h h' (reads ++ calls)).
Proof.
  intros Hob H Hc. inversion H as [| | cs c1 cs' r Hres Hrep Hex | | |]; subst;
    [by left | | by left].
  inversion Hex as [| ? ? (f' & Heq & Hf)]; simplify_eq. right. split; [done |].
  apply (RanAndFailed i e v u h h' reads c cs c'); try done. by eapply resolved_not_replayed.
Qed.

(** C25: only "outcome_unknown" leaves open what became of a request that was not
    completed.  An invocation that ends in an error, or is answered "host
    unavailable", has not touched the actor: no code was run, no snapshot
    stored, no head moved, and the resident state is at most dropped, so that
    it may be routed elsewhere; "reroute" is never answered.  Any other failure
    has the code "actor_error" or "resource_exhausted", and then nothing of
    this request is kept: no snapshot was uploaded, the only commit that may
    have been made is the confirmed one of an earlier request that was still
    pending, and the resident state is the one before, with that commit
    adopted. *)
Theorem turned_away_without_effect
    (i : ActorInvocation) (e v : Z) (u : string) (h h' : Host) (r : anyhow ActorExecutionResult)
    (H : invoke_actor i e v u h = (h', r)) :
  exists calls, trace h' = (trace h ++ calls)%list /\
    match r with
    | Err _ | Ok HostUnavailable =>
        none_of is_effect calls /\
        untouched (storage_key (actor i)) e (cached_state h) (cached_state h')
    | Ok Reroute => False
    | Ok (Failed f) =>
        f = outcome_unknown_after_execution \/
        ((code f = "actor_error" \/ code f = "resource_exhausted") /\
         failed_before_storing i e v u h h' calls)
    | Ok (Completed _ _) => True
    end.
Proof.
  apply invoke_actor_runs in H as [calls H]. exists calls.
  destruct H as [calls cache h' r Hr (T & M & _) Hu Haway
                | calls calls' c c' r h' _ _ _ _ Hob Hran (T & M & _)].
  - rewrite M. split; [done |]. apply reads_no_effect in Hr.
    destruct r as [[| f | |] | err]; simpl in Haway; try done. injection Haway as ->.
    right. split; [by left | by constructor; rewrite ?M].
  - split; [done |].
    destruct r as [| f | |]; try done; try (by apply ran_answer in Hran).
    by eapply ran_failed_before_storing.
Qed.

(** ** What "completed" means *)

(** The calls end with a snapshot of this request, stored under the ticket [t],
    and its confirmed commit; the resident state is that snapshot. *)
Definition committed_under (t : StateWriteTicket) (i : ActorInvocation) (value : Value)
    (calls : list Call) (c' : CachedActorState) : Prop :=
  exists before s b w cm,
    calls = (before ++ [CallWrite (url t) b (Ok w);
                        CallCommit (actor i) (c_owner_epoch c') (StateLog.state_version s - 1)
                          (object_name t) (Identity.request_id i) (Ok cm)])%list /\
    encode s = Ok b /\ committed_version cm = StateLog.state_version s /\
    StateLog.request_id s = Identity.request_id i /\ result s = value /\
    StorageUrls.state_version t = StateLog.state_version s /\
    c_state_version c' = StateLog.state_version s /\ c_state c' = Some (state s) /\
    c_last_request_id c' = Some (Identity.request_id i) /\ c_last_result c' = Some value.
Definition durably_committed (i : ActorInvocation) (value : Value) (calls : list Call)
    (c' : CachedActorState) : Prop := exists t, committed_under t i value calls c'.

(** The recorded result of this request was returned; nothing was run. *)
Definition answered_from_record (i : ActorInvocation) (value : Value)
    (effects : list ActorSocketEffect) (calls : list Call) (c' : CachedActorState) : Prop :=
  none_of is_execution calls /\ effects = [] /\
  c_last_request_id c' = Some (Identity.request_id i) /\ c_last_result c' = Some value.

(** The actor ran last, once, on the resident state and left it as it was. *)
Definition left_unchanged (i : ActorInvocation) (value : Value)
    (effects : list ActorSocketEffect) (calls : list Call) (c' : CachedActorState) : Prop :=
  exists before next,
    calls = (before ++ [CallInvoke (method_request i (c_state c'))
                          (Ok (MethodCompleted value next effects))])%list /\
    none_of is_execution before /\ option_value_eqb (c_state c') next = true.

Lemma published_durably i e c x n calls c' :
  c_owner_epoch c = e -> published i e c x n calls c' true ->
  exists t, committed_under t i x calls c' /\ ticket_from c calls t.
Proof.
  intros He H. inversion H as [| | cs t b w calls' c2 ok Hcs Hfrom Ht Hmax Hb Hres]; subst.
  inversion Hres as [c0 Hnone | c0 p answer Hp Hconf |]; subst; [done |].
  simpl in Hp. injection Hp as <-.
  destruct answer as [cm | err]; [| done]. simpl in Hconf. bool_prop. exists t. split.
  - eexists cs, (snapshot_of i _ c x n), b, w, cm.
    unfold commit_call. simpl in *. rewrite Z.add_simpl_r. split_and!; done.
  - destruct Hfrom as [? | (a & e & v & Hin)]; [by left |]. right. exists a, e, v.
    apply elem_of_app. by left.
Qed.

Lemma committed_under_prefix t i x before calls c' :
  committed_under t i x calls c' -> committed_under t i x (before ++ calls) c'.
Proof.
  intros (b & s & bs & w & cm & -> & H). exists (before ++ b)%list, s, bs, w, cm.
  by rewrite <- app_assoc.
Qed.

(** The run behind an answer "completed", with the ticket of its commit. *)
Lemma completed_run i e v u h h' value effects :
  invoke_actor i e v u h = (h', Ok (Completed value effects)) ->
  exists calls0 calls1 c c', trace h' = (trace h ++ calls0 ++ calls1)%list /\
    cached_state h' !! storage_key (actor i) = Some c' /\
    obtained (cached_state h) (storage_key (actor i)) e v u calls0 c /\
    (answered_from_record i value effects (calls0 ++ calls1) c' \/
     left_unchanged i value effects (calls0 ++ calls1) c' \/
     exists cs c1 cs' next cs2 t, calls1 = (cs ++ cs' ++ cs2)%list /\
       resolved (actor i) c cs c1 true /\ executed i (c_state c1) cs' (Ok (value, next, effects)) /\
       committed_under t i value cs2 c' /\ ticket_from c1 cs2 t).
Proof.
  intros H. apply invoke_actor_runs in H as [calls H]. remember (Ok _) as r eqn:Er.
  destruct H as [calls cache h' r _ _ _ Haway
    | calls0 calls1 c c' r h' _ _ _ _ Hob Hran (T & M & _)]; [by subst |].
  injection Er as ->.
  exists calls0, calls1, c, c'. split; [done |]. rewrite M, lookup_insert_eq.
  split; [done |]. split; [done |]. pose proof (obtained_epoch _ _ _ _ _ _ _ Hob) as He.
  apply obtained_reads, reads_no_execution in Hob.
  remember (Completed value effects) as r eqn:Er.
  destruct Hran as [| cs c1 x Hres Hrep | ? ? ? ? _ _ Hex
    | cs c1 cs' x n eff Hres Hrep Hex Heq | cs c1 cs' x n eff cs2 c2 Hres Hrep Hex Heq Hpub |];
    [done | injection Er as -> <- | | injection Er as -> -> | injection Er as -> -> | done].
  - left. unfold cached_replay in Hrep. case_bool_decide; [| done].
    apply resolved_no_execution in Hres. split; [by apply none_of_app | done].
  - inversion Hex as [| ? ? (f & Hf & _)]; subst; done.
  - right; left. apply resolved_no_execution in Hres.
    rewrite (executed_result _ _ _ _ _ _ _ Hex eq_refl). exists (calls0 ++ cs)%list, n.
    rewrite <- app_assoc. split; [done |]. split; [by apply none_of_app | done].
  - right; right. apply published_durably in Hpub as (t & ? & ?);
      [| by rewrite (resolved_epoch _ _ _ _ _ Hres)].
    by exists cs, c1, cs', n, cs2, t.
Qed.

(** an invocation that answers "completed" keeps its promise.  Either the
    request had been committed before and its recorded result is returned
    without running anything; or the actor ran exactly once and did not change
    its state; or the snapshot with the new state, the result and the request
    id was stored and then confirmed as the actor's next version, and is now
    resident. *)
Lemma completed_is_durable
    (i : ActorInvocation) (e v : Z) (u : string) (h h' : Host) (value : Value)
    (effects : list ActorSocketEffect)
    (H : invoke_actor i e v u h = (h', Ok (Completed value effects))) :
  exists calls c', trace h' = (trace h ++ calls)%list /\
    cached_state h' !! storage_key (actor i) = Some c' /\
    (answered_from_record i value effects calls c' \/
     left_unchanged i value effects calls c' \/
     durably_committed i value calls c').
Proof.
  apply completed_run in H as (calls0 & calls1 & c & c' & T & M & _ & H).
  exists (calls0 ++ calls1)%list, c'. split; [done |]. split; [done |].
  destruct H as [H | [H | (cs & c1 & cs' & n & cs2 & t & -> & _ & _ & H & _)]]; [auto | auto |].
  right; right. exists t. by do 3 apply committed_under_prefix.
Qed.

(** ** Exactly once *)

Lemma resolved_with_pending a c p calls c' :
  c_pending c = Some p -> resolved a c calls c' true ->
  exists answer, confirms p answer = true /\ calls = [commit_call a c p answer] /\
    c' = adopt p (answered_ticket answer) c.
Proof. intros Hp. inversion 1; subst; [congruence |]. simplify_eq. eauto. Qed.

Lemma replay_adopted p nw c (i : ActorInvocation) :
  StateLog.request_id (snapshot p) = Identity.request_id i ->
  cached_replay (adopt p nw c) (Identity.request_id i) = Some (result (snapshot p)).
Proof. intros Hr. unfold cached_replay. simpl. rewrite Hr. by rewrite bool_decide_eq_true_2. Qed.

Lemma ran_same_request i e c p calls c' r :
  c_pending c = Some p -> StateLog.request_id (snapshot p) = Identity.request_id i ->
  ran i e c calls c' r ->
  none_of is_execution calls /\
  (r = unresolved /\ c' = c \/ r = Completed (result (snapshot p)) []).
Proof.
  intros Hp Hr Hran.
  destruct Hran as [cs c1 Hres | cs c1 x Hres Hrep | cs c1 ? ? Hres Hrep _
    | cs c1 ? ? ? ? Hres Hrep _ _ | cs c1 ? ? ? ? ? ? Hres Hrep _ _ _
    | cs c1 ? ? ? ? ? ? Hres Hrep _ _ _].
  1: { split; [by eapply resolved_no_execution |]. left. inversion Hres; by subst. }
  all: apply (resolved_with_pending _ _ _ _ _ Hp) in Hres as (answer & _ & -> & ->);
    rewrite (replay_adopted _ _ _ _ Hr) in Hrep; try discriminate Hrep.
  injection Hrep as <-. split; [by repeat constructor | by right].
Qed.

(** C1: exactly-once execution under retries.  While the commit of a request is
    unresolved on this host, invoking the same request again never runs the
    actor again, whatever else fails: the answer is "outcome unknown" (the
    commit stays pending), the recorded result once the commit is confirmed, or
    a refusal made before the actor was considered. *)
Theorem pending_request_runs_once
    (i : ActorInvocation) (e v : Z) (u : string) (h h' : Host) (r : anyhow ActorExecutionResult)
    (c : CachedActorState) (p : PendingStateCommit)
    (Hc : cached_state h !! storage_key (actor i) = Some c) (He : c_owner_epoch c = e)
    (Hp : c_pending c = Some p)
    (Hsame : StateLog.request_id (snapshot p) = Identity.request_id i)
    (H : invoke_actor i e v u h = (h', r)) :
  exists calls, trace h' = (trace h ++ calls)%list /\ none_of is_execution calls /\
    (not_reached r \/
     r = Ok unresolved /\ cached_state h' !! storage_key (actor i) = Some c \/
     r = Ok (Completed (result (snapshot p)) [])).
Proof.
  apply invoke_actor_runs in H as [calls H]. exists calls.
  destruct H as [calls cache h' r Hr (T & _) _ Haway | calls calls' c0 c' r h' _ _ _ _ Hob Hran (T & M & _)].
  - split; [done |]. split; [by apply reads_no_execution | by left].
  - split; [done |].
    assert (c0 = c /\ calls = []) as [-> ->].
    { destruct Hob as [c0 Hc0 _ | Hnr _ _ | l c0 Hnr _ _]; [by simplify_eq | |];
        by destruct (Hnr _ Hc). }
    apply (ran_same_request _ _ _ _ _ _ _ Hp Hsame) in Hran as [Hn Hcase].
    split; [done |]. rewrite M, lookup_insert_eq. destruct Hcase as [[-> ->] | ->]; auto.
Qed.

(** ** Invariants of every reachable host *)

(** Everything a host process does, in any order, in a world that may change
    arbitrarily between its own calls. *)
Inductive host_reachable : Host -> Prop :=
| HostStart endpoint namespace w : host_reachable (ActorHost_new endpoint namespace w)
| HostInvoke h i e v u : host_reachable h -> host_reachable (invoke_actor i e v u h).1
| HostSocket h i e v u : host_reachable h -> host_reachable (handle_socket_event i e v u h).1
| HostDrain h b : host_reachable h -> host_reachable (drain b h).1
| HostWorld h w : host_reachable h -> host_reachable (with_world w [] h).

(** The object behind [u] holds the bytes [b]. *)
Definition written (calls : list Call) (u : string) (b : bytes) : Prop :=
  exists w, CallWrite u b (Ok w) ∈ calls.

(** The control plane gave the host the ticket [t]. *)
Definition answered (calls : list Call) (t : StateWriteTicket) : Prop :=
  (exists a e v, CallPrepare a e v (Ok t) ∈ calls) \/
  exists a e v obj rq cm, CallCommit a e v obj rq (Ok cm) ∈ calls /\
    committed_next_write cm = Some t.

(** The resident fields are those of no state at all, or of one well-formed
    snapshot of the resident version and of an epoch up to the resident one. *)
Definition resident_wf (c : CachedActorState) : Prop :=
  (c_state_version c = 0%Z /\ c_state c = None /\ c_last_request_id c = None /\
   c_last_result c = None) \/
  exists s, snapshot_wf s /\ c_state_version c = StateLog.state_version s /\
    (StateLog.owner_epoch s <= c_owner_epoch c)%Z /\ c_state c = Some (state s) /\
    c_last_request_id c = Some (StateLog.request_id s) /\ c_last_result c = Some (result s).

(** A pending commit: the next version, this epoch, stored under its ticket. *)
Definition pending_wf (calls : list Call) (c : CachedActorState) (p : PendingStateCommit) : Prop :=
  snapshot_wf (snapshot p) /\
  StateLog.state_version (snapshot p) = (c_state_version c + 1)%Z /\
  StateLog.owner_epoch (snapshot p) = c_owner_epoch c /\
  StorageUrls.state_version (ticket p) = StateLog.state_version (snapshot p) /\
  answered calls (ticket p) /\
  exists b, encode (snapshot p) = Ok b /\ written calls (url (ticket p)) b.

Definition cached_wf (calls : list Call) (c : CachedActorState) : Prop :=
  resident_wf c /\ (forall t, c_next_write c = Some t -> answered calls t) /\
  forall p, c_pending c = Some p -> pending_wf calls c p.

(** A commit call is made for a snapshot of the next version that was stored
    before, under the name being committed. *)
Definition commit_backed (before : list Call) (c : Call) : Prop :=
  match c with
  | CallCommit _ e v obj rq _ =>
      exists s t b, snapshot_wf s /\ encode s = Ok b /\ written before (url t) b /\
        answered before t /\
        object_name t = obj /\ StateLog.request_id s = rq /\ StateLog.owner_epoch s = e /\
        StateLog.state_version s = (v + 1)%Z /\ StorageUrls.state_version t = (v + 1)%Z
  | _ => True
  end.
Definition commits_backed (calls : list Call) : Prop :=
  forall before c later, calls = (before ++ c :: later)%list -> commit_backed before c.

Lemma written_app calls calls' u b : written calls u b -> written (calls ++ calls') u b.
Proof. intros [w H]. exists w. apply elem_of_app. by left. Qed.

Lemma answered_app calls calls' t : answered calls t -> answered (calls ++ calls') t.
Proof.
  intros [(a & e & v & H) | (a & e & v & o & rq & cm & H & Hn)]; [left | right].
  - exists a, e, v. apply elem_of_app. by left.
  - exists a, e, v, o, rq, cm. split; [apply elem_of_app; by left | done].
Qed.

Lemma pending_wf_app calls calls' c p : pending_wf calls c p -> pending_wf (calls ++ calls') c p.
Proof.
  intros (? & ? & ? & ? & ? & b & ? & ?). split_and!; try done; [by apply answered_app |].
  exists b. split; [done | by apply written_app].
Qed.

Lemma cached_wf_app calls calls' c : cached_wf calls c -> cached_wf (calls ++ calls') c.
Proof.
  intros (Hr & Ht & Hp). split_and!; [done | |].
  - intros t H. by apply answered_app, Ht.
  - intros p H. by apply pending_wf_app, Hp.
Qed.

Lemma commits_backed_snoc calls c :
  commits_backed calls -> commit_backed calls c -> commits_backed (calls ++ [c]).
Proof.
  intros Hc Hb before c' later H.
  destruct later as [| x later] using rev_ind.
  - apply app_inj_tail in H as [-> ->]. done.
  - rewrite app_comm_cons, app_assoc in H. apply app_inj_tail in H as [-> _]. by eapply Hc.
Qed.

Definition is_commit (c : Call) : bool :=
  match c with CallCommit _ _ _ _ _ _ => true | _ => false end.

Lemma commits_backed_others calls calls' :
  commits_backed calls -> none_of is_commit calls' -> commits_backed (calls ++ calls').
Proof.
  intros Hc Hn. induction calls' as [| x calls' IH] using rev_ind; [by rewrite app_nil_r |].
  apply none_of_app in Hn as [Hn Hx]. rewrite app_assoc. apply commits_backed_snoc; [auto |].
  inversion Hx; subst. by destruct x.
Qed.

(** A step that makes the calls [calls'] and turns the actor's state [c] into
    [c'] preserves both invariants. *)
Definition preserves (c : CachedActorState) (calls' : list Call) (c' : CachedActorState) : Prop :=
  forall calls, commits_backed calls -> cached_wf calls c ->
    commits_backed (calls ++ calls') /\ cached_wf (calls ++ calls') c'.

Lemma preserves_trans c calls c1 calls' c2 :
  preserves c calls c1 -> preserves c1 calls' c2 -> preserves c (calls ++ calls') c2.
Proof.
  intros H1 H2 cs Hb Hc. destruct (H1 cs Hb Hc) as [Hb1 Hc1]. rewrite app_assoc. by apply H2.
Qed.

Lemma preserves_others c calls : none_of is_commit calls -> preserves c calls c.
Proof.
  intros Hn cs Hb Hc. split; [by apply commits_backed_others | by apply cached_wf_app].
Qed.

Lemma resolved_preserves a c calls c' ok : resolved a c calls c' ok -> preserves c calls c'.
Proof.
  assert (Hbacked : forall cs p answer, cached_wf cs c -> c_pending c = Some p ->
            commit_backed cs (commit_call a c p answer)).
  { intros cs p answer (_ & _ & Hp) Hpend.
    destruct (Hp p Hpend) as (? & Hv & ? & Ht & ? & b & ? & ?).
    exists (snapshot p), (ticket p), b. rewrite Hv in Ht. split_and!; done. }
  destruct 1 as [c Hn | c p answer Hpend Hconf | c p answer Hpend Hconf]; intros cs Hb Hc.
  - rewrite app_nil_r. done.
  - split; [apply commits_backed_snoc; eauto |].
    destruct Hc as (_ & _ & Hp). destruct (Hp p Hpend) as (Hwf & ? & He & _).
    split_and!; [| | done].
    + right. exists (snapshot p). simpl. split_and!; done || lia.
    + intros t Ht. simpl in Ht. destruct answer as [cm | err]; [| done]. right.
      do 6 eexists. split; [| exact Ht]. apply elem_of_app. right. by left.
  - split; [apply commits_backed_snoc; eauto | by apply cached_wf_app].
Qed.

Lemma ticket_from_answered before c calls t :
  cached_wf before c -> ticket_from c calls t -> answered (before ++ calls) t.
Proof.
  intros (_ & Hn & _) [H | (a & e & v & H)]; [by apply answered_app, Hn |].
  left. exists a, e, v. apply elem_of_app. by right.
Qed.

Lemma published_preserves i e c x n calls c' ok :
  c_owner_epoch c = e -> c_pending c = None -> published i e c x n calls c' ok ->
  preserves c calls c'.
Proof.
  intros He Hnp.
  assert (Hprep : forall l, Forall (fun y => is_prepare y = true) l -> none_of is_commit l)
    by (intros l; apply none_of_impl; by intros []).
  assert (Hdrop : preserves c [] (set_next_write None c)).
  { intros cs Hb (? & ? & ?). rewrite app_nil_r. done. }
  destruct 1 as [cs c' Hcs [-> | ->] | cs u b err Hcs | cs t b w cs' c' ok Hcs Hfrom Ht Hmax Hb Hres].
  - apply preserves_others; auto.
  - eapply (preserves_trans _ []); [done |]. apply preserves_others; auto.
  - eapply (preserves_trans _ []); [done |]. apply preserves_others, none_of_app.
    split; [auto | by repeat constructor].
  - apply resolved_preserves in Hres. rewrite cons_middle, app_assoc.
    eapply preserves_trans; [| exact Hres]. intros l Hbk Hc.
    split; [apply commits_backed_others; [done |]; apply none_of_app;
            split; [auto | by repeat constructor] |].
    pose proof (ticket_from_answered _ _ _ _ Hc Hfrom) as Hans.
    apply (cached_wf_app _ (cs ++ [CallWrite (url t) b (Ok w)])) in Hc as (Hr & _).
    split_and!; [done | done |]. intros p [= <-].
    split_and!; simpl; try done; [by eapply encode_wf | |].
    + rewrite app_assoc. by apply answered_app.
    + exists b. split; [done |]. exists w. set_solver.
Qed.

Lemma executed_no_commit i st calls r : executed i st calls r -> none_of is_commit calls.
Proof. destruct 1; by repeat constructor. Qed.

Lemma handled_no_commit i st calls r : handled i st calls r -> none_of is_commit calls.
Proof. destruct 1 as [| [[] |]]; by repeat constructor. Qed.

Lemma ran_preserves i e c calls c' r :
  c_owner_epoch c = e -> ran i e c calls c' r -> preserves c calls c'.
Proof.
  intros He Hran.
  destruct Hran as [cs c1 Hres | cs c1 x Hres _ | cs c1 cs' r Hres _ Hex
    | cs c1 cs' x n eff Hres _ Hex _ | cs c1 cs' x n eff cs2 c2 Hres _ Hex _ Hpub
    | cs c1 cs' x n eff cs2 c2 Hres _ Hex _ Hpub];
    pose proof (resolved_preserves _ _ _ _ _ Hres) as H1; [done | done | | | |];
    apply executed_no_commit, (preserves_others c1) in Hex.
  1,2: by eapply preserves_trans.
  all: apply published_preserves in Hpub;
    [| by rewrite (resolved_epoch _ _ _ _ _ Hres) | by eapply resolved_pending].
  - eapply preserves_trans; [done |]. by eapply preserves_trans.
  - eapply preserves_trans; [done |]. eapply preserves_trans; [done |].
    eapply preserves_trans; [done |]. apply preserves_others. by repeat constructor.
Qed.

Lemma socket_ran_preserves i e c calls c' r :
  c_owner_epoch c = e -> socket_ran i e c calls c' r -> preserves c calls c'.
Proof.
  intros He Hran.
  destruct Hran as [cs c1 Hres | cs c1 cs' r Hres Hex | cs c1 cs' n eff Hres Hex _
    | cs c1 cs' n eff cs2 c2 ok Hres Hex _ Hpub];
    pose proof (resolved_preserves _ _ _ _ _ Hres) as H1; [done | | |];
    apply handled_no_commit, (preserves_others c1) in Hex.
  1,2: by eapply preserves_trans.
  apply published_preserves in Hpub;
    [| by rewrite (resolved_epoch _ _ _ _ _ Hres) | by eapply resolved_pending].
  eapply preserves_trans; [done |]. eapply preserves_trans; [done |].
  eapply preserves_trans; [done |]. apply preserves_others. destruct ok; by repeat constructor.
Qed.

(** The invariant of a host. *)
Definition host_wf (h : Host) : Prop :=
  commits_backed (trace h) /\
  forall k c, cached_state h !! k = Some c -> cached_wf (trace h) c.

Lemma obtained_wf m k e v u calls c before :
  obtained m k e v u calls c -> (forall k c, m !! k = Some c -> cached_wf before c) ->
  commits_backed before ->
  commits_backed (before ++ calls) /\ cached_wf (before ++ calls) c.
Proof.
  intros Hob Hm Hb. split.
  - apply commits_backed_others; [done |]. apply obtained_reads in Hob.
    revert Hob. apply none_of_impl. by intros [].
  - destruct Hob as [c Hc _ | _ _ _ | l c _ _ Hl].
    + rewrite app_nil_r. eauto.
    + split_and!; [by left | done | done].
    + unfold from_loaded in Hl. inv_ok. bool_prop. split_and!; [| done | done]. right.
      eexists. split; [by eapply decode_wf |]. simpl. done.
Qed.

Lemma host_wf_observed h calls cache h' :
  host_wf h -> observed h calls cache h' -> commits_backed (trace h ++ calls) ->
  (forall k c, cache !! k = Some c ->
     cached_state h !! k = Some c \/ cached_wf (trace h ++ calls) c) ->
  host_wf h'.
Proof.
  intros [_ Hc] (T & M & _) Hb Hnew. unfold host_wf. rewrite T, M. split; [done |].
  intros k c [H | H]%Hnew; [| done]. by eapply cached_wf_app, Hc.
Qed.

Lemma host_wf_ran h calls calls' c c' k e v u h' :
  host_wf h -> obtained (cached_state h) k e v u calls c -> preserves c calls' c' ->
  observed h (calls ++ calls') (<[ k := c' ]> (cached_state h)) h' -> host_wf h'.
Proof.
  intros Hwf Hob Hp Hobs.
  destruct (obtained_wf _ _ _ _ _ _ _ (trace h) Hob) as [Hb Hc]; [apply Hwf | apply Hwf |].
  destruct (Hp _ Hb Hc) as [Hb' Hc']. rewrite <- app_assoc in *.
  eapply host_wf_observed; [done | done | done |].
  intros k0 c0 [[<- <-] | [_ ?]]%lookup_insert_Some; auto.
Qed.

Lemma host_wf_untouched h calls cache k e h' :
  host_wf h -> observed h calls cache h' -> untouched k e (cached_state h) cache ->
  Forall (fun x => is_read x = true) calls -> host_wf h'.
Proof.
  intros Hwf Hobs Hu Hr. eapply host_wf_observed; [done | done | |].
  - apply commits_backed_others; [apply Hwf |]. revert Hr. apply none_of_impl. by intros [].
  - intros k0 c Hc. left. destruct Hu as [-> | [-> _]]; [done |].
    by apply lookup_delete_Some in Hc as [_ ?].
Qed.

Lemma host_wf_invoke h i e v u : host_wf h -> host_wf (invoke_actor i e v u h).1.
Proof.
  intros Hwf. destruct (invoke_actor i e v u h) as [h' r] eqn:H.
  apply invoke_actor_runs in H as [calls H]. simpl.
  destruct H as [calls cache h' r Hr Hobs Hu _ | calls calls' c c' r h' _ _ _ _ Hob Hran Hobs].
  - by eapply host_wf_untouched.
  - eapply host_wf_ran; [done | exact Hob | | exact Hobs].
    eapply ran_preserves; [| done]. by eapply obtained_epoch.
Qed.

Lemma host_wf_socket h i e v u : host_wf h -> host_wf (handle_socket_event i e v u h).1.
Proof.
  intros Hwf. destruct (handle_socket_event i e v u h) as [h' r] eqn:H.
  apply handle_socket_event_runs in H as [calls H]. simpl.
  destruct H as [calls cache h' r Hr Hobs Hu _ | calls calls' c c' r h' _ _ Hob Hran Hobs].
  - by eapply host_wf_untouched.
  - eapply host_wf_ran; [done | exact Hob | | exact Hobs].
    eapply socket_ran_preserves; [| done]. by eapply obtained_epoch.
Qed.

Lemma host_reachable_wf h : host_reachable h -> host_wf h.
Proof.
  induction 1 as [ep ns w | h i e v u _ IH | h i e v u _ IH | h b _ IH | h w _ IH].
  - split; [by intros [] ? ? ? | intros k c Hk; simpl in Hk; by rewrite lookup_empty in Hk].
  - by apply host_wf_invoke.
  - by apply host_wf_socket.
  - unfold drain, modify, gets, mbind, M_bind, lift. simpl. by destruct (_ || b).
  - destruct IH as [Hb Hc]. unfold host_wf. simpl. by rewrite app_nil_r.
Qed.

(** In the life of a host, a completed invocation that changed the state was
    committed under a ticket the control plane had given. *)
Lemma completed_under_answered_ticket i e v u h h' value effects :
  host_reachable h ->
  invoke_actor i e v u h = (h', Ok (Completed value effects)) ->
  exists calls c', trace h' = (trace h ++ calls)%list /\
    cached_state h' !! storage_key (actor i) = Some c' /\
    (answered_from_record i value effects calls c' \/
     left_unchanged i value effects calls c' \/
     exists t, committed_under t i value calls c' /\ answered (trace h') t).
Proof.
  intros [Hb Hw]%host_reachable_wf H.
  apply completed_run in H as (calls0 & calls1 & c & c' & T & M & Hob & H).
  exists (calls0 ++ calls1)%list, c'. split; [done |]. split; [done |].
  destruct H as [H | [H | (cs & c1 & cs' & n & cs2 & t & -> & Hres & Hex & H & Hfrom)]]; [auto | auto |].
  right; right. exists t. split; [by do 3 apply committed_under_prefix |].
  destruct (obtained_wf _ _ _ _ _ _ _ (trace h) Hob Hw Hb) as [Hb0 Hw0].
  destruct (resolved_preserves _ _ _ _ _ Hres _ Hb0 Hw0) as [Hb1 Hw1].
  apply executed_no_commit in Hex. destruct (preserves_others c1 cs' Hex _ Hb1 Hw1) as [_ Hw2].
  rewrite T. eapply ticket_from_answered in Hfrom; [| exact Hw2]. by rewrite <- !app_assoc in Hfrom.
Qed.

(** C14: nothing is committed that is not stored.  In the life of a host process
    every commit request was preceded by a successful upload of the snapshot it
    names: well formed, of exactly the next version and the committing epoch,
    carrying the committed request id, under a ticket of that version that the
    control plane had given it. *)
Theorem commits_follow_uploads
    (h : Host) (before later : list Call) (a : ActorKey) (e v : Z) (obj rq : string)
    (answer : anyhow CommittedState)
    (H : host_reachable h)
    (Ht : trace h = (before ++ CallCommit a e v obj rq answer :: later)%list) :
  exists s t b w, answered before t /\ CallWrite (url t) b (Ok w) ∈ before /\ encode s = Ok b /\
    object_name t = obj /\ StateLog.request_id s = rq /\ StateLog.owner_epoch s = e /\
    StateLog.state_version s = (v + 1)%Z /\ StorageUrls.state_version t = (v + 1)%Z.
Proof.
  apply host_reachable_wf in H as [Hb _].
  destruct (Hb _ _ _ Ht) as (s & t & b & _ & He & [w Hw] & ?). exists s, t, b, w. tauto.
Qed.

(** C26: the resident state is always trustworthy: for every actor a host keeps,
    the state, version, last request and last result are together those of one
    well-formed snapshot (or of an actor without state), and a pending commit
    is for the next version, in the resident epoch, and was uploaded: storage
    answered that it was written or that its name was there already. *)
Theorem resident_states_well_formed
    (h : Host) (k : ActorStorageKey) (c : CachedActorState)
    (H : host_reachable h) (Hc : cached_state h !! k = Some c) :
  resident_wf c /\ forall p, c_pending c = Some p -> pending_wf (trace h) c p.
Proof. apply host_reachable_wf in H as [_ Hwf]. by destruct (Hwf k c Hc) as (? & _ & ?). Qed.

(** Identity kept, activity balanced, draining not undone. *)
Definition same_host (h h' : Host) : Prop :=
  endpoint h' = endpoint h /\ host_namespace_id h' = host_namespace_id h /\
  active h' = active h /\ (accepting h' = true -> accepting h = true).
(** The resident states of all actors but [k] are the same. *)
Definition others_kept (k : ActorStorageKey) (h h' : Host) : Prop :=
  forall k', k' <> k -> cached_state h' !! k' = cached_state h !! k'.

(** an invocation or socket event concerns one actor: the resident state of
    every other actor and the identity of the host are as before, the activity
    count is back where it was, and draining is never undone. *)
Lemma invocations_are_confined
    (i : ActorInvocation) (s : ActorSocketInvocation) (e v : Z) (u : string) (h h1 h2 : Host)
    (r1 : anyhow ActorExecutionResult) (r2 : anyhow ActorSocketExecutionResult)
    (H1 : invoke_actor i e v u h = (h1, r1)) (H2 : handle_socket_event s e v u h = (h2, r2)) :
  others_kept (storage_key (actor i)) h h1 /\ others_kept (storage_key (si_actor s)) h h2 /\
  same_host h h1 /\ same_host h h2.
Proof.
  unfold others_kept, same_host.
  assert (Hother : forall k (m m' : gmap ActorStorageKey CachedActorState) k',
            untouched k e m m' -> k' <> k -> m' !! k' = m !! k').
  { intros k m m' k' [-> | [-> _]] Hne; [done | by rewrite lookup_delete_ne]. }
  apply invoke_actor_runs in H1 as [c1 H1]. apply handle_socket_event_runs in H2 as [c2 H2].
  destruct H1 as [? ? ? ? _ (_ & -> & F1) U1 _ | ? ? ? ? ? ? _ _ _ _ _ _ (_ & -> & F1)];
    destruct H2 as [? ? ? ? _ (_ & -> & F2) U2 _ | ? ? ? ? ? ? _ _ _ _ (_ & -> & F2)];
    (split; [| split; [| done]]); intros k Hk; eauto;
    by rewrite lookup_insert_ne.
Qed.

Definition refuses_invocation (h : Host) (i : ActorInvocation) (e v : Z) (u : string) : Prop :=
  invoke_actor i e v u h = (h, Ok HostUnavailable).

(** Once a host drains it starts nothing new: every further invocation, and
    every socket event but a disconnect, is answered "host unavailable" on the
    spot, the host and its world untouched. *)
Lemma draining_host_refuses
    (b : bool) (h h' : Host) (r : anyhow ()) (i : ActorInvocation) (s : ActorSocketInvocation)
    (e v : Z) (u : string)
    (Hd : drain b h = (h', r)) (Hs : is_disconnect (si_event s) = false) :
  refuses_invocation h' i e v u /\
  handle_socket_event s e v u h' = (h', Ok SocketHostUnavailable) /\
  (r = Ok tt -> b = false -> active h' = 0%Z).
Proof.
  assert (accepting h' = false /\ (r = Ok tt -> b = false -> active h' = 0%Z)) as [Ha Hr].
  { revert Hd. unfold drain, modify, gets, mbind, M_bind, lift, mret, M_ret. simpl.
    destruct (active h =? 0)%Z eqn:E; destruct b; simpl; intros [= <- <-]; bool_prop; done. }
  split; [| split; [| done]].
  - unfold refuses_invocation, invoke_actor, invoke_actor_once, validate_invocation,
      validate_operation, gets, mbind, M_bind. by rewrite Ha.
  - unfold handle_socket_event, handle_socket_event_once, validate_operation, gets, mbind, M_bind.
    by rewrite Hs, Ha.
Qed.
End Guarantees.

(** ** A concrete world

    An actor that answers ["1"] with the state ["{n}"], storage that accepts
    every upload, and a control plane whose commits succeed once [commits]
    reaches zero. *)

Record World := { commits : nat }.

Definition sample_ticket (v : Z) : StateWriteTicket :=
  {| StorageUrls.state_version := v; object_name := "snapshots/1"; url := "https://bucket/1";
     expires_at_ms := 100000 |}.

#[local] Instance sample_env : HostEnv (J := text_json) World := {|
  supports t := String.eqb t "Counter";
  executor_invoke_with_state _ _ w := (w, Ok (MethodCompleted (J := text_json) "1" "{n}" []));
  executor_handle_socket_with_state _ _ w := (w, Ok (Handled (J := text_json) "{n}" []));
  executor_evict _ w := (w, Ok tt);
  prepare_state_write _ _ _ v w := (w, Ok (sample_ticket (v + 1)));
  commit_state _ _ _ v _ _ w :=
    match commits w with
    | O => (w, Ok {| committed_version := v + 1; committed_next_write := None |})
    | S n => ({| commits := n |}, Err ["control plane unreachable"])
    end;
  transport_read _ w := (w, Err ["not found"]);
  transport_write _ _ w := (w, Ok Written);
  executions_admit _ w := (w, {| gate_admission := Ok true; drained_meanwhile := false |});
  system_time w := (w, Some 1000%Z);
|}.

Definition sample_host (n : nat) : ActorHost (J := text_json) (W := World) :=
  ActorHost_new {| endpoint_id := "host-a"; endpoint_route := "http://a" |} "project-1"
    {| commits := n |}.
Definition sample_invocation : ActorInvocation (J := text_json) :=
  {| Identity.request_id := "req-1"; actor := counter; method := "increment"; args := [] |}.
Definition sample_event : ActorSocketInvocation (J := text_json) :=
  {| si_request_id := "req-2"; si_actor := counter; si_event := Message "c" (Text "hi");
     si_connections := []; si_state := None |}.

(** The host after its first invocation, with [n] failing commits ahead. *)
Definition after_first (n : nat) : ActorHost (J := text_json) (W := World) :=
  (invoke_actor sample_invocation 1 0 "" (sample_host n)).1.

Lemma turned_away_without_effect_witness :
  exists calls, trace (sample_host 0) = (trace (sample_host 0) ++ calls)%list /\
    none_of is_effect calls /\
    untouched (storage_key counter) 1 (cached_state (sample_host 0)) (cached_state (sample_host 0)).
Proof.
  apply (turned_away_without_effect
    {| Identity.request_id := ""; actor := counter; method := "m"; args := [] |} 1 0 ""
    (sample_host 0) (sample_host 0) (Err ["request ID must not be empty"])).
  vm_compute. reflexivity.
Defined.

Lemma completed_is_durable_witness :
  exists calls c', trace (after_first 0) = ([] ++ calls)%list /\
    cached_state (after_first 0) !! storage_key counter = Some c' /\
    (answered_from_record sample_invocation "1" [] calls c' \/
     left_unchanged sample_invocation "1" [] calls c' \/
     durably_committed sample_invocation "1" calls c').
Proof.
  apply (completed_is_durable sample_invocation 1 0 "" (sample_host 0) (after_first 0)).
  vm_compute. reflexivity.
Defined.

(** One failing commit: the first call cannot confirm it, the retry does. *)
Lemma pending_request_runs_once_witness :
  exists (h' : ActorHost (J := text_json) (W := World)) calls,
    trace h' = (trace (after_first 1) ++ calls)%list /\ none_of is_execution calls /\
    cached_state h' !! storage_key counter <> cached_state (after_first 1) !! storage_key counter.
Proof.
  eexists (invoke_actor sample_invocation 1 0 "" (after_first 1)).1.
  edestruct (pending_request_runs_once sample_invocation 1 0 "" (after_first 1)
    (invoke_actor sample_invocation 1 0 "" (after_first 1)).1)
    as (calls & Ht & Hn & _).
  - vm_compute. reflexivity.
  - vm_compute. reflexivity.
  - vm_compute. reflexivity.
  - vm_compute. reflexivity.
  - vm_compute. reflexivity.
  - exists calls. split; [exact Ht |]. split; [exact Hn |]. vm_compute. discriminate.
Defined.

Lemma after_first_reachable n : host_reachable (after_first n).
Proof. apply HostInvoke, HostStart. Defined.

Lemma commits_follow_uploads_witness :
  exists s t b w, CallWrite (url t) b (Ok w) ∈ take 3 (trace (after_first 0)) /\ encode s = Ok b /\
    object_name t = "snapshots/1".
Proof.
  edestruct (commits_follow_uploads (after_first 0) (take 3 (trace (after_first 0))) []
    counter 1 0 "snapshots/1" "req-1") as (s & t & b & w & _ & H1 & H2 & H3 & _);
    [apply after_first_reachable | vm_compute; reflexivity |].
  exists s, t, b, w. exact (conj H1 (conj H2 H3)).
Defined.

Lemma resident_states_well_formed_witness :
  exists c, resident_wf c /\ forall p, c_pending c = Some p -> pending_wf (trace (after_first 1)) c p.
Proof.
  eexists. apply (resident_states_well_formed (after_first 1) (storage_key counter));
    [apply after_first_reachable | vm_compute; reflexivity].
Defined.

Lemma invocations_are_confined_witness :
  let h2 := (handle_socket_event sample_event 1 0 "" (sample_host 0)).1 in
  others_kept (storage_key counter) (sample_host 0) h2 /\
  same_host (sample_host 0) (after_first 0) /\ same_host (sample_host 0) h2.
Proof.
  edestruct (invocations_are_confined sample_invocation sample_event 1 0 "" (sample_host 0)
    (after_first 0) (handle_socket_event sample_event 1 0 "" (sample_host 0)).1) as (_ & H);
    [vm_compute; reflexivity | vm_compute; reflexivity | exact H].
Defined.

Lemma draining_host_refuses_witness :
  let h' := (drain false (after_first 0)).1 in
  invoke_actor sample_invocation 1 1 "u" h' = (h', Ok HostUnavailable).
Proof.
  edestruct (draining_host_refuses false (after_first 0) (drain false (after_first 0)).1 (Ok tt)
    sample_invocation sample_event 1 1 "u") as [H _];
    [vm_compute; reflexivity | reflexivity | exact H].
Defined.

Lemma run_invocation_refines_witness :
  let run := run_invocation sample_invocation 1 "k" (CachedActorState_new 1) (sample_host 0) in
  length (trace run.1) = 4%nat /\
  exists calls c' result, run.2 = Ok result /\
    ran sample_invocation 1 (CachedActorState_new 1) calls c' result /\
    stored (sample_host 0) calls "k" c' run.1.
Proof.
  split; [vm_compute; reflexivity |].
  apply run_invocation_refines. apply surjective_pairing.
Defined.
