(* ===== verification/Telemetry.v ===== *)
(** * The host's latency events

    [src/host/actor_host.rs] with its timings: the events [actor_host_invocation]
    and [actor_state_write], the readings of the monotonic clock between the steps
    of an invocation, and the program of [ActorHost] underneath.  A function of the
    source that takes [timings: &mut InvocationTimings] is a program over the host,
    the process's watch and those timings. *)
From S2P Require Import Prelude Json Identity SocketProtocol StateLog StorageUrls ActorHost HostRuns HostSafety Timeline.
Local Open Scope string_scope.
Local Open Scope Z_scope.

(** The optional fields of [InvocationTimings] and of [StateWriteTimings]. *)
Inductive InvocationMilestone :=
| queue_admitted_at_ms | state_cache_checked_at_ms | state_downloaded_at_ms | state_decoded_at_ms
| pending_commit_resolved_at_ms | actor_execution_completed_at_ms | state_publication_completed_at_ms.
#[export] Instance InvocationMilestone_eq_dec : EqDecision InvocationMilestone.
Proof. solve_decision. Defined.

Inductive StateWriteMilestone :=
| write_ticket_ready_at_ms | snapshot_created_at_ms | snapshot_encoded_at_ms
| snapshot_uploaded_at_ms | commit_rpc_completed_at_ms.
#[export] Instance StateWriteMilestone_eq_dec : EqDecision StateWriteMilestone.
Proof. solve_decision. Defined.

(** The completion events, with the fields that are logged; [started_at_ms] is
    always zero. *)
Record InvocationLine := {
  il_request_id : string;
  il_actor : ActorKey;
  il_method : string;
  il_host_id : HostId;
  il_milestones : InvocationMilestone -> option Z;
  il_completed_at_ms : Z;
  il_outcome : string;
  il_failure_code : string;
  il_error : option string;
}.

Record StateWriteLine := {
  sw_request_id : string;
  sw_actor : ActorKey;
  sw_host_id : HostId;
  sw_owner_epoch : Z;
  sw_state_version : option Z;
  sw_milestones : StateWriteMilestone -> option Z;
  sw_completed_at_ms : Z;
  sw_outcome : string;
  sw_error : option string;
}.

Inductive HostEvent :=
| ActorHostInvocation (line : InvocationLine)
| ActorStateWrite (line : StateWriteLine).

Section Telemetry.
Context `{J : Json} {C : @SnapshotSerde J} `{B : Base64} {W : Type} `{Env : !HostEnv W} `{I : Instants}.

Abbreviation Host := (ActorHost (W := W)).
Abbreviation HostWatch := (Watch HostEvent).
(** A program that may read the clock and log, and one with timings besides. *)
Abbreviation LogM S := (M (S * HostWatch)) (only parsing).
Abbreviation TimedM S F := (M ((S * HostWatch) * Timings F)) (only parsing).

(** ** Outcomes *)

Definition actor_execution_failure_code (result : ActorExecutionResult) : option string :=
  match result with Failed failure => Some (Identity.code failure) | _ => None end.
Definition socket_execution_failure_code (result : ActorSocketExecutionResult) : option string :=
  match result with SocketExecutionFailed failure => Some (Identity.code failure) | _ => None end.

Definition log_invocation_result (invocation : ActorInvocation) (host : Host)
    (timings : Timings InvocationMilestone) (now : Z) (outcome failure_code : string)
    (error : option string) : list HostEvent :=
  [ActorHostInvocation
    {| il_request_id := Identity.request_id invocation; il_actor := actor invocation;
       il_method := method invocation; il_host_id := endpoint_id (endpoint host);
       il_milestones := reached_at timings; il_completed_at_ms := now;
       il_outcome := outcome; il_failure_code := failure_code; il_error := error |}].

Definition log_invocation (invocation : ActorInvocation) (_ host : Host)
    (timings : Timings InvocationMilestone) (now : Z) (outcome : anyhow ActorExecutionResult)
    : list HostEvent :=
  match outcome with
  | Ok result =>
      log_invocation_result invocation host timings now (actor_execution_outcome result)
        (default "" (actor_execution_failure_code result)) None
  | Err error =>
      log_invocation_result invocation host timings now "host_error" "" (Some (alternate error))
  end.

Definition log_socket_invocation (invocation : ActorInvocation) (_ host : Host)
    (timings : Timings InvocationMilestone) (now : Z) (outcome : anyhow ActorSocketExecutionResult)
    : list HostEvent :=
  match outcome with
  | Ok result =>
      log_invocation_result invocation host timings now (socket_execution_outcome result)
        (default "" (socket_execution_failure_code result)) None
  | Err error =>
      log_invocation_result invocation host timings now "host_error" "" (Some (alternate error))
  end.

(** [state_version] is the next version, computed before the publication. *)
Definition log_state_write (invocation : ActorInvocation) (owner_epoch : Z)
    (before after : Host * CachedActorState) (timings : Timings StateWriteMilestone) (now : Z)
    (outcome : anyhow ActorExecutionResult) : list HostEvent :=
  [ActorStateWrite
    {| sw_request_id := Identity.request_id invocation; sw_actor := actor invocation;
       sw_host_id := endpoint_id (endpoint after.1); sw_owner_epoch := owner_epoch;
       sw_state_version := u64_checked_add (c_state_version before.2) 1;
       sw_milestones := reached_at timings; sw_completed_at_ms := now;
       sw_outcome := match outcome with Ok _ => "committed" | Err _ => "failed" end;
       sw_error := match outcome with Ok _ => None | Err error => Some (alternate error) end |}].

(** ** Publication *)

Definition timed_publish_result_once (invocation : ActorInvocation) (owner_epoch : Z)
    (result next_state : Value)
    : TimedM (Host * CachedActorState) StateWriteMilestone Error ActorExecutionResult :=
  version ← untimed (cached_gets c_state_version);
  next_version ← lift (some_or "actor state version overflow" (u64_checked_add version 1));
  ticket ← untimed (take_ticket invocation owner_epoch next_version);
  lift (ensure (StorageUrls.state_version ticket =? next_version)%Z
          "state write ticket has the wrong version");;
  mark write_ticket_ready_at_ms;;
  snapshot ← lift (StateSnapshot_new next_version owner_epoch (Identity.request_id invocation)
                     next_state result);
  mark snapshot_created_at_ms;;
  body ← lift (encode snapshot);
  mark snapshot_encoded_at_ms;;
  answer ← untimed (on_host (call (transport_write (url ticket) body)
                               (fun a => [CallWrite (url ticket) body a])));
  write ← lift answer;
  mark snapshot_uploaded_at_ms;;
  lift (ensure (match write with Written | AlreadyExists => true end)
          "actor snapshot was not stored");;
  untimed (cached_modify (set_pending (Some {| snapshot := snapshot; ticket := ticket |})));;
  untimed (finish_pending_commit invocation);;
  mark commit_rpc_completed_at_ms;;
  mret (Completed result []).

Definition timed_publish_result (invocation : ActorInvocation) (owner_epoch : Z)
    (result next_state : Value) : LogM (Host * CachedActorState) Error ActorExecutionResult :=
  timed (log_state_write invocation owner_epoch)
    (timed_publish_result_once invocation owner_epoch result next_state).

(** [lend] for a program that logs. *)
Definition lend_logging {E A F} (cached : CachedActorState)
    (c : LogM (Host * CachedActorState) Error A)
    : TimedM Host F E (CachedActorState * anyhow A) := fun '((h, w), t) =>
  let '(((h', cached'), w'), r) := c ((h, cached), w) in (((h', w'), t), Ok (cached', r)).

(** [let _activity = ActivityGuard::begin(self);] *)
Definition timed_with_activity {F A} (c : TimedM Host F Error A) : TimedM Host F Error A :=
  fun s =>
  let '(((h, w), t), r) := (untimed begin_activity;; c) s in (((finish_activity h, w), t), r).

(** ** Invocations *)

Abbreviation InvocationM := (TimedM Host InvocationMilestone) (only parsing).

Definition timed_load_state (owner_epoch state_version : Z) (state_read_url : string)
    : InvocationM Error CachedActorState :=
  if (state_version =? 0)%Z then
    lift (ensure (is_empty state_read_url) "uninitialized actor has a state URL");;
    mret (CachedActorState_new owner_epoch)
  else
    lift (ensure (negb (is_empty state_read_url)) "initialized actor has no state URL");;
    answer ← untimed (call (transport_read state_read_url) (fun a => [CallRead state_read_url a]));
    loaded ← lift (with_context "load actor state" answer);
    mark state_downloaded_at_ms;;
    cached ← lift (from_loaded owner_epoch state_version loaded);
    mark state_decoded_at_ms;;
    mret cached.

Definition timed_take_or_load_state (object : ActorStorageKey) (owner_epoch state_version : Z)
    (state_read_url : string) : InvocationM Error CachedActorState :=
  cached ← untimed (take_cached_state object);
  mark state_cache_checked_at_ms;;
  match cached with
  | Some cached =>
      if (c_owner_epoch cached =? owner_epoch)%Z then mret cached
      else timed_load_state owner_epoch state_version state_read_url
  | None => timed_load_state owner_epoch state_version state_read_url
  end.

Definition timed_publish_and_store (invocation : ActorInvocation) (owner_epoch : Z)
    (object : ActorStorageKey) (cached : CachedActorState) (result next_state : Value)
    : InvocationM Error (anyhow ActorExecutionResult) :=
  '(cached, published) ← lend_logging cached
    (timed_publish_result invocation owner_epoch result next_state);
  mark state_publication_completed_at_ms;;
  untimed (if is_ok published then mret () else evict (actor invocation));;
  untimed (store_cached_state object cached);;
  mret published.

Definition timed_run_invocation (invocation : ActorInvocation) (owner_epoch : Z)
    (object : ActorStorageKey) (cached : CachedActorState)
    : InvocationM Error ActorExecutionResult :=
  '(cached, finished) ← untimed (lend cached (finish_pending_commit invocation));
  match finished with
  | Err _ => untimed (store_cached_state object cached);; mret unresolved
  | Ok _ =>
      mark pending_commit_resolved_at_ms;;
      match cached_replay cached (Identity.request_id invocation) with
      | Some result => untimed (store_cached_state object cached);; mret (Completed result [])
      | None =>
          executed ← untimed (attempt (execute_method invocation (c_state cached) []));
          mark actor_execution_completed_at_ms;;
          match executed with
          | Err failure => untimed (store_cached_state object cached);; mret failure
          | Ok (result, next_state, effects) =>
              if option_value_eqb (c_state cached) next_state then
                untimed (store_cached_state object cached);; mret (Completed result effects)
              else
                published ← timed_publish_and_store invocation owner_epoch object cached result
                              next_state;
                mret (match published with
                      | Ok (Completed result _) => Completed result effects
                      | Ok result => result
                      | Err _ => unresolved
                      end)
          end
      end
  end.

Definition timed_invoke_actor_once (invocation : ActorInvocation) (owner_epoch state_version : Z)
    (state_read_url : string) : InvocationM Error ActorExecutionResult :=
  rejected ← untimed (validate_invocation invocation);
  match rejected with
  | Some result => mret result
  | None => timed_with_activity (
      let object := storage_key (actor invocation) in
      acquired ← untimed (admit_object object);
      if negb acquired then mret HostUnavailable
      else
        mark queue_admitted_at_ms;;
        accepting ← untimed (gets accepting);
        if negb accepting then mret HostUnavailable
        else
          cached ← timed_take_or_load_state object owner_epoch state_version state_read_url;
          timed_run_invocation invocation owner_epoch object cached)
  end.

Definition timed_invoke_actor (invocation : ActorInvocation) (owner_epoch state_version : Z)
    (state_read_url : string) : LogM Host Error ActorExecutionResult :=
  timed (log_invocation invocation)
    (timed_invoke_actor_once invocation owner_epoch state_version state_read_url).

(** ** Socket events *)

Definition timed_run_socket_event (invocation : ActorSocketInvocation)
    (persistence : ActorInvocation) (owner_epoch : Z) (object : ActorStorageKey)
    (cached : CachedActorState) : InvocationM Error ActorSocketExecutionResult :=
  '(cached, finished) ← untimed (lend cached (finish_pending_commit persistence));
  match finished with
  | Err _ => untimed (store_cached_state object cached);; mret socket_unresolved
  | Ok _ =>
      mark pending_commit_resolved_at_ms;;
      outcome ← untimed (attempt (execute_socket_event invocation (c_state cached)));
      mark actor_execution_completed_at_ms;;
      match outcome with
      | Err result => untimed (store_cached_state object cached);; mret (from_actor_result result)
      | Ok (next_state, effects) =>
          if option_value_eqb (c_state cached) next_state then
            untimed (store_cached_state object cached);; mret (SocketHandled effects)
          else
            published ← timed_publish_and_store persistence owner_epoch object cached Null
                          next_state;
            mret (match published with
                  | Ok (Completed _ _) => SocketHandled effects
                  | Ok result => from_actor_result result
                  | Err _ => socket_unresolved
                  end)
      end
  end.

Definition timed_handle_socket_event_once (invocation : ActorSocketInvocation)
    (owner_epoch state_version : Z) (state_read_url : string) (persistence : ActorInvocation)
    : InvocationM Error ActorSocketExecutionResult :=
  let disconnecting := is_disconnect (si_event invocation) in
  rejected ← untimed (validate_operation persistence disconnecting);
  match rejected with
  | Some result => mret (from_actor_result result)
  | None => timed_with_activity (
      let object := storage_key (si_actor invocation) in
      acquired ← untimed (admit_object object);
      if negb acquired then mret SocketHostUnavailable
      else
        mark queue_admitted_at_ms;;
        accepting ← untimed (gets accepting);
        if negb disconnecting && negb accepting then mret SocketHostUnavailable
        else
          cached ← timed_take_or_load_state object owner_epoch state_version state_read_url;
          timed_run_socket_event invocation persistence owner_epoch object cached)
  end.

Definition timed_handle_socket_event (invocation : ActorSocketInvocation)
    (owner_epoch state_version : Z) (state_read_url : string)
    : LogM Host Error ActorSocketExecutionResult :=
  timed (log_socket_invocation (socket_persistence invocation))
    (timed_handle_socket_event_once invocation owner_epoch state_version state_read_url
       (socket_persistence invocation)).
(** ** The timings change nothing *)

Lemma erases_lend {E A F} cached (c : LogM (Host * CachedActorState) Error A) d :
  erases fst c d -> erases plain (lend_logging (E := E) (F := F) cached c) (lend cached d).
Proof.
  intros Hc [[h w] t]. unfold lend, lend_logging, plain. specialize (Hc ((h, cached), w)). simpl in *.
  rewrite Hc. by destruct (c _) as [[[h' cached'] w'] r].
Qed.

Lemma erases_activity {F A} (c : TimedM Host F Error A) d :
  erases plain c d -> erases plain (timed_with_activity c) (with_activity d).
Proof.
  intros Hc s. unfold timed_with_activity, with_activity.
  rewrite (erases_bind plain (untimed begin_activity) begin_activity (fun _ => c) (fun _ => d)
             (erases_untimed _) (fun _ => Hc) s).
  by destruct ((untimed begin_activity;; c) s) as [[[h w] t] r].
Qed.

Lemma publish_result_once_erases i e x n :
  erases plain (timed_publish_result_once i e x n) (publish_result i e x n).
Proof. unfold timed_publish_result_once, publish_result. erasing. Qed.

Lemma publish_and_store_erases i e k c x n :
  erases plain (timed_publish_and_store i e k c x n) (publish_and_store i e k c x n).
Proof.
  unfold timed_publish_and_store, publish_and_store. erasing.
  apply erases_lend, erases_timed, publish_result_once_erases.
Qed.

Lemma load_state_erases k e v u :
  erases plain (timed_take_or_load_state k e v u) (take_or_load_state k e v u).
Proof.
  unfold timed_take_or_load_state, take_or_load_state, timed_load_state, load_state. erasing.
Qed.

Lemma run_invocation_erases i e k c :
  erases plain (timed_run_invocation i e k c) (run_invocation i e k c).
Proof.
  unfold timed_run_invocation, run_invocation. erasing. apply publish_and_store_erases.
Qed.

Lemma run_socket_event_erases i p e k c :
  erases plain (timed_run_socket_event i p e k c) (run_socket_event i p e k c).
Proof.
  unfold timed_run_socket_event, run_socket_event. erasing. apply publish_and_store_erases.
Qed.

Lemma invoke_actor_once_erases i e v u :
  erases plain (timed_invoke_actor_once i e v u) (invoke_actor_once i e v u).
Proof.
  unfold timed_invoke_actor_once, invoke_actor_once. erasing. apply erases_activity. erasing;
    first [apply load_state_erases | apply run_invocation_erases].
Qed.

Lemma handle_socket_event_once_erases i e v u p :
  erases plain (timed_handle_socket_event_once i e v u p) (handle_socket_event_once i e v u p).
Proof.
  unfold timed_handle_socket_event_once, handle_socket_event_once. erasing.
  apply erases_activity. erasing; first [apply load_state_erases | apply run_socket_event_erases].
Qed.

(** ** Calls the milestones are about *)

Definition is_download (c : Call) : bool :=
  match c with CallRead _ (Ok _) => true | _ => false end.
Definition is_upload (c : Call) : bool :=
  match c with CallWrite _ _ (Ok _) => true | _ => false end.
Definition is_quiet (c : Call) : bool := negb (is_download c || is_execution c || is_upload c).

(** From [h] to [h'] no milestone's call was made. *)
Definition quietly (h h' : Host) : Prop :=
  exists calls, trace h' = (trace h ++ calls)%list /\ Forall (fun c => is_quiet c = true) calls.
Definition quietly_cached (s s' : Host * CachedActorState) : Prop := quietly s.1 s'.1.

#[local] Instance quietly_preorder : PreOrder quietly.
Proof.
  split.
  - intros h. exists []. by rewrite app_nil_r.
  - intros h1 h2 h3 (c1 & T1 & Q1) (c2 & T2 & Q2). exists (c1 ++ c2)%list.
    rewrite T2, T1, app_assoc. split; [done | by apply Forall_app].
Qed.
#[local] Instance quietly_cached_preorder : PreOrder quietly_cached.
Proof. unfold quietly_cached. split; [intros s; reflexivity | intros s1 s2 s3; apply transitivity]. Qed.

Lemma call_quiet {E A} (f : W -> W * A) log :
  (forall a, Forall (fun c => is_quiet c = true) (log a)) -> respects quietly (call (E := E) f log).
Proof.
  intros Hlog h h' r H. unfold call in H. destruct (f (world h)) as [w a]. injection H as <- _.
  exists (log a). split; [done | apply Hlog].
Qed.

Lemma modify_quiet {E} (f : Host -> Host) :
  (forall h, trace (f h) = trace h) -> respects quietly (modify (E := E) f).
Proof. intros Hf h h' r H. injection H as <- _. exists []. by rewrite Hf, app_nil_r. Qed.

Lemma cached_modify_quiet {E} f : respects quietly_cached (cached_modify (E := E) f).
Proof. intros s s' r H. injection H as <- _. unfold quietly_cached. reflexivity. Qed.

Lemma on_host_quiet {E A} (c : M Host E A) :
  respects quietly c -> respects quietly_cached (on_host c).
Proof. intros Hc [h k] s r H. apply on_host_run in H as (h' & H & ->). by eapply Hc. Qed.

Lemma lend_quiet {E A} k (c : M (Host * CachedActorState) Error A) :
  respects quietly_cached c -> respects quietly (lend (E := E) k c).
Proof. intros Hc h h' r H. apply lend_run in H as (c' & x & H & _). by apply Hc in H. Qed.

Ltac hushing :=
  respecting;
  repeat first
    [ apply lend_quiet | apply on_host_quiet | apply cached_modify_quiet
    | apply call_quiet; by repeat constructor | apply modify_quiet; by intros
    | progress respecting ].

Lemma finish_pending_commit_quiet i : respects quietly_cached (finish_pending_commit i).
Proof. unfold finish_pending_commit, cached_gets. hushing. Qed.

Lemma take_ticket_quiet i e n : respects quietly_cached (take_ticket i e n).
Proof. unfold take_ticket, prepare_ticket, host_unix_millis, cached_gets. hushing. Qed.

Lemma evict_quiet {E} a : respects quietly (evict (E := E) a).
Proof. unfold evict. hushing. Qed.

Lemma store_quiet k c : respects quietly (store_cached_state k c).
Proof. unfold store_cached_state. hushing. Qed.

Lemma take_cached_quiet k : respects quietly (take_cached_state k).
Proof. unfold take_cached_state. hushing. Qed.

Lemma validate_quiet i b : respects quietly (validate_operation i b).
Proof. unfold validate_operation. hushing. Qed.

Lemma admit_quiet k : respects quietly (admit_object k).
Proof. unfold admit_object. hushing. Qed.

(** ** The order of the milestones, and what they tell *)

Definition invocation_rank (f : InvocationMilestone) : nat :=
  match f with
  | queue_admitted_at_ms => 0 | state_cache_checked_at_ms => 1 | state_downloaded_at_ms => 2
  | state_decoded_at_ms => 3 | pending_commit_resolved_at_ms => 4
  | actor_execution_completed_at_ms => 5 | state_publication_completed_at_ms => 6
  end.
Definition write_rank (f : StateWriteMilestone) : nat :=
  match f with
  | write_ticket_ready_at_ms => 0 | snapshot_created_at_ms => 1 | snapshot_encoded_at_ms => 2
  | snapshot_uploaded_at_ms => 3 | commit_rpc_completed_at_ms => 4
  end.

(** The milestones of a state write are in order before its completion, the upload
    is one that object storage answered, and it is "committed" exactly when the
    commit's milestone was reached. *)
Record write_tells (calls : list Call) (line : StateWriteLine) : Prop := {
  write_ordered : 0 <= sw_completed_at_ms line /\
    ordered write_rank (sw_milestones line) (sw_completed_at_ms line);
  write_uploaded : reached (sw_milestones line) snapshot_uploaded_at_ms = existsb is_upload calls;
  write_committed :
    sw_outcome line = if reached (sw_milestones line) commit_rpc_completed_at_ms
                      then "committed" else "failed";
}.

(** The milestones of an invocation tell the path it took: a state was downloaded,
    the actor ran, a state was published. *)
Record path (at_ : InvocationMilestone -> option Z) (calls : list Call)
    (writes : list StateWriteLine) : Prop := {
  path_downloaded : reached at_ state_downloaded_at_ms = existsb is_download calls;
  path_executed : reached at_ actor_execution_completed_at_ms = existsb is_execution calls;
  path_published :
    match writes with
    | [] => reached at_ state_publication_completed_at_ms = false /\ existsb is_upload calls = false
    | [line] => reached at_ state_publication_completed_at_ms = true /\ write_tells calls line
    | _ => False
    end;
}.

Lemma quiet_calls calls :
  Forall (fun c => is_quiet c = true) calls ->
  existsb is_download calls = false /\ existsb is_execution calls = false /\
  existsb is_upload calls = false.
Proof.
  induction 1 as [| c calls Hc _ (IHd & IHe & IHu)]; [done |]. unfold is_quiet in Hc.
  apply negb_true_iff, orb_false_iff in Hc as [[Hd He]%orb_false_iff Hu].
  simpl. by rewrite Hd, He, Hu.
Qed.

(** *** One state write *)

Section ToldWrite.
Context (h1 : Host) (w1 : HostWatch).

(** Since [h1] and [w1] nothing was logged, and the upload's milestone tells whether
    object storage answered; [committed]: the last milestone was reached. *)
Definition told_write (committed : bool)
    (s : ((Host * CachedActorState) * HostWatch) * Timings StateWriteMilestone) : Prop :=
  let '(((h, _), w), t) := s in
  exists calls, trace h = (trace h1 ++ calls)%list /\
    existsb is_download calls = false /\ existsb is_execution calls = false /\
    events w = events w1 /\ (readings w1 <= readings w)%nat /\
    reached (reached_at t) snapshot_uploaded_at_ms = existsb is_upload calls /\
    reached (reached_at t) commit_rpc_completed_at_ms = committed.

Lemma keeps_told_write {E A} b n (c : M (Host * CachedActorState) E A) m :
  respects quietly_cached c -> (n <= m)%nat -> keeps write_rank (told_write b) n (untimed c) m.
Proof.
  intros Hc Hn. apply leads_untimed; [done |]. intros [h k] w t [h' k'] r _ Hs H.
  apply Hc in H as (calls' & Ht & (Qd & Qe & Qu)%quiet_calls).
  destruct Hs as (calls & Htr & Hd & He & Hev & Hr & Hu & Hb). simpl in *.
  assert (told_write b (((h', k'), w), t)); [| by destruct r].
  exists (calls ++ calls')%list. rewrite Ht, Htr, app_assoc, !existsb_app, Qd, Qe, Qu, !orb_false_r.
  done.
Qed.

Lemma told_write_earlier f b s :
  (write_rank f < 3)%nat -> told_write b s -> marked f (told_write b) s.
Proof.
  intros Hf. destruct s as [[[h k] w] t]. intros (calls & ? & ? & ? & ? & ? & ? & ?) x.
  exists calls. rewrite !reached_reach. split_and!; try done; [simpl; lia | | ];
    by destruct f; simpl in Hf; try lia.
Qed.

(** The steps before and after the upload. *)
Ltac writing :=
  repeat (eapply leads_keep;
    [ first
        [ apply keeps_lift; within
        | apply keeps_mark; [within | within | intros s; apply told_write_earlier; simpl; lia]
        | apply keeps_told_write; [| within];
          first [apply take_ticket_quiet | apply finish_pending_commit_quiet | unfold cached_gets; by hushing] ]
    | intros ? ]).

Lemma publish_result_once_told i e x n :
  leads write_rank (told_write false) 0 (timed_publish_result_once i e x n)
    (fun _ => told_write true) 5 (told_write false).
Proof.
  unfold timed_publish_result_once. writing.
  eapply (leads_bind _ _ _ _ (fun answer => match answer with
    | Ok _ => marked snapshot_uploaded_at_ms (told_write false) | Err _ => told_write false end) 3).
  { apply leads_untimed; [by simpl |]. intros [h k] w t h' r _ Hs Hcall.
    apply on_host_run in Hcall as (h2 & Hcall & ->). apply call_after in Hcall as (answer & -> & (w' & ->)).
    destruct Hs as (calls & Htr & Hd & He & Hev & Hr & Hu & Hb).
    destruct answer as [write | error]; [intros x'|]; eexists; cbn [fst snd];
      (split; [simpl; rewrite Htr, <- app_assoc; reflexivity |]);
      rewrite ?reached_reach, !existsb_app, Hd, He; (split_and!; try done; try (simpl; lia));
      by rewrite ?orb_true_r, ?orb_false_r. }
  intros answer. eapply (leads_bind _ _ _ _ (fun _ => marked snapshot_uploaded_at_ms (told_write false)) 3).
  { apply leads_lift; [done |]. by destruct answer. }
  intros write. eapply (leads_bind _ _ _ _ (fun _ => told_write false) 4); [by apply leads_mark |].
  intros []. writing.
  eapply (leads_bind _ _ _ _ (fun _ => told_write true) 5).
  { eapply leads_weaken;
      [by apply (leads_mark _ (told_write true) 4 _ 5 (told_write false)) | simpl; lia | | done | done].
    intros [[[h k] w] t] (calls & ? & ? & ? & ? & ? & ? & ?) x'. exists calls.
    rewrite !reached_reach. split_and!; try done. simpl. lia. }
  intros []. intros s s' r Hs HP H. unfold mret, M_ret in H. by simplify_eq.
Qed.
End ToldWrite.

Section Told.
Context (h0 : Host) (w0 : HostWatch).

(** Since [h0] and [w0], the milestones reached tell the calls made. *)
Definition told (s : (Host * HostWatch) * Timings InvocationMilestone) : Prop :=
  let '((h, w), t) := s in
  exists calls writes, trace h = (trace h0 ++ calls)%list /\
    events w = (events w0 ++ (ActorStateWrite <$> writes))%list /\
    path (reached_at t) calls writes.

Lemma path_quiet at_ calls calls' writes :
  path at_ calls writes -> Forall (fun c => is_quiet c = true) calls' ->
  path at_ (calls ++ calls') writes.
Proof.
  intros [Hd He Hp] (Qd & Qe & Qu)%quiet_calls.
  split; rewrite ?existsb_app, ?Qd, ?Qe, ?Qu, ?orb_false_r; try done.
  destruct writes as [| line [| ? ?]]; [done | | done].
  destruct Hp as [Hp [? Hup ?]]. split; [done |]. split; [done | | done].
  by rewrite existsb_app, Qu, orb_false_r.
Qed.

Lemma told_quiet h h' w t : quietly h h' -> told ((h, w), t) -> told ((h', w), t).
Proof.
  intros (calls' & Ht & Hq) (calls & writes & Htr & Hev & Hp).
  exists (calls ++ calls')%list, writes. rewrite Ht, Htr, app_assoc. split_and!; [done.. |].
  by apply path_quiet.
Qed.

Definition other_milestone (f : InvocationMilestone) : bool :=
  match f with
  | state_downloaded_at_ms | actor_execution_completed_at_ms | state_publication_completed_at_ms =>
      false
  | _ => true
  end.

Lemma told_marked f s : other_milestone f = true -> told s -> marked f told s.
Proof.
  intros Hf. destruct s as [[h w] t]. intros (calls & writes & Htr & Hev & [Hd He Hp]) x.
  exists calls, writes. split_and!; [done.. |].
  destruct f; try done; split; rewrite reached_reach; try done;
    by destruct writes as [| ? [| ? ?]]; rewrite ?reached_reach.
Qed.

Lemma keeps_told {E A} n (c : M Host E A) m :
  respects quietly c -> (n <= m)%nat -> keeps invocation_rank told n (untimed c) m.
Proof.
  intros Hc Hn. apply leads_untimed; [done |]. intros h w t h' r _ Hs H.
  apply Hc in H. destruct r; by eapply told_quiet.
Qed.

(** The call of a milestone, before the milestone is marked. *)
Lemma told_then f h h' w t calls' :
  trace h' = (trace h ++ calls')%list ->
  existsb is_upload calls' = false ->
  match f with
  | state_downloaded_at_ms =>
      existsb is_download calls' = true /\ existsb is_execution calls' = false
  | actor_execution_completed_at_ms =>
      existsb is_download calls' = false /\ existsb is_execution calls' = true
  | _ => False
  end ->
  told ((h, w), t) -> marked f told ((h', w), t).
Proof.
  intros Ht Hup Hf (calls & writes & Htr & Hev & [Hd He Hp]) x.
  exists (calls ++ calls')%list, writes. cbn [fst snd]. rewrite Ht, Htr, app_assoc. split_and!; [done.. |].
  split; rewrite ?reached_reach, ?existsb_app.
  - destruct f; try done; destruct Hf as [-> _]; [by rewrite orb_true_r | by rewrite orb_false_r, Hd].
  - destruct f; try done; destruct Hf as [_ ->]; [by rewrite orb_false_r, He | by rewrite orb_true_r].
  - rewrite Hup, orb_false_r.
    destruct writes as [| line [| ? ?]]; [| | done]; rewrite ?reached_reach.
    + destruct Hp as [-> ->]. by destruct f.
    + destruct Hp as [-> [? Hl ?]]. rewrite orb_true_r. split; [done |].
      split; [done | by rewrite existsb_app, Hup, orb_false_r | done].
Qed.

Lemma load_state_told k e v u :
  keeps invocation_rank told 1 (timed_take_or_load_state k e v u) 4.
Proof.
  assert (Hload : keeps invocation_rank told 2 (timed_load_state e v u) 4).
  { unfold timed_load_state. case_match; [by keeping |].
    eapply keeps_bind; [by apply (keeps_lift _ _ 2 _ 2) |]. intros _.
    eapply (leads_bind _ _ _ _ (fun answer => match answer with
      | Ok _ => marked state_downloaded_at_ms told | Err _ => told end) 2).
    { apply leads_untimed; [done |]. intros h w t h' r _ Hs Hcall.
      apply call_after in Hcall as (answer & -> & (w' & ->)).
      destruct answer as [l | error]; [by eapply told_then |].
      eapply told_quiet; [| exact Hs]. eexists. split; [done | by repeat constructor]. }
    intros answer. eapply (leads_bind _ _ _ _ (fun _ => marked state_downloaded_at_ms told) 2).
    { apply leads_lift; [done |]. by destruct answer. }
    intros loaded. eapply (leads_bind _ _ _ _ (fun _ => told) 3); [by apply leads_mark |].
    intros []. change (keeps invocation_rank told 3 (cached ← lift (from_loaded e v loaded);
      mark state_decoded_at_ms;; mret cached) 4). keeping. by apply told_marked. }
  unfold timed_take_or_load_state. keeping.
  - apply keeps_told; [apply take_cached_quiet | reflexivity].
  - by apply told_marked.
  - exact Hload.
  - exact Hload.
Qed.

(** Running the actor's code: [c] makes one such call and no other that counts. *)
Lemma execution_told {A A'} n (c : M Host A A') m :
  (n <= m)%nat ->
  (forall h h' r, c h = (h', r) -> exists calls, trace h' = (trace h ++ calls)%list /\
     existsb is_execution calls = true /\ existsb is_download calls = false /\
     existsb is_upload calls = false) ->
  leads invocation_rank told n (untimed (E := Error) (attempt c))
    (fun _ => marked actor_execution_completed_at_ms told) m told.
Proof.
  intros Hn Hc. apply leads_untimed; [done |]. intros h w t h' r _ Hs H.
  unfold attempt in H. destruct (c h) as [h1 r1] eqn:E1. simplify_eq.
  apply Hc in E1 as (calls & Ht & ? & ? & ?). by eapply told_then.
Qed.

(** A publication logs one state write. *)
Lemma publish_result_logs i e x y h k w h' k' w' r :
  timed_publish_result i e x y ((h, k), w) = (((h', k'), w'), r) ->
  exists calls line, trace h' = (trace h ++ calls)%list /\
    events w' = (events w ++ [ActorStateWrite line])%list /\
    (readings w <= readings w')%nat /\
    existsb is_download calls = false /\ existsb is_execution calls = false /\
    write_tells calls line.
Proof.
  intros H. pose proof (publish_result_once_told h w i e x y) as Honce.
  eapply (timed_leads write_rank) in H as (t & w2 & limit & -> & _ & Hlimit & Hord & Hr); [| exact Honce |].
  2: { exists []. rewrite app_nil_r. split_and!; try done. simpl. lia. }
  assert (told_write h w (is_ok r) (((h', k'), w2), t))
    as (calls & Ht & Hd & He & Hev & Hw & Hu & Hc) by by destruct r.
  exists calls. eexists. split_and!; [done | simpl; by rewrite Hev | simpl; lia | done | done |].
  split; simpl; [done | done |]. unfold reached in *. rewrite Hc. by destruct r.
Qed.

Lemma lend_publish_told n i e k x y :
  (n <= 6)%nat ->
  leads invocation_rank told n (lend_logging (E := Error) k (timed_publish_result i e x y))
    (fun _ => marked state_publication_completed_at_ms told) 6 told.
Proof.
  intros Hn [[h w] t] s' r Hs Htold H. unfold lend_logging in H.
  destruct (timed_publish_result i e x y _) as [[[h' k'] w'] r'] eqn:Hpub. simplify_eq.
  apply publish_result_logs in Hpub as (calls' & line & Ht & Hev & Hw & Hd & He & Hline).
  split; [apply (on_time_weaken _ n 6); [lia |]; by eapply on_time_later |].
  destruct Hs as (_ & _ & Hfront).
  destruct Htold as (calls & writes & Htr & Hevents & [Pd Pe Pp]). intros z.
  exists (calls ++ calls')%list, [line]. cbn [fst snd].
  split_and!; [by rewrite Ht, Htr, app_assoc | |].
  - simpl. rewrite Hev, Hevents. destruct writes as [| l [| ? ?]]; [by rewrite app_nil_r | | done].
    destruct Pp as [Pp _]. unfold reached in Pp. by rewrite Hfront in Pp by (simpl; lia).
  - split; rewrite ?reached_reach, ?existsb_app, ?Hd, ?He, ?orb_false_r; try done.
    split; [done |]. destruct Hline as [? Hup ?].
    assert (existsb is_upload calls = false) as Hno.
    { destruct writes as [| l [| ? ?]]; [by destruct Pp | | done].
      destruct Pp as [Pp _]. unfold reached in Pp. by rewrite Hfront in Pp by (simpl; lia). }
    split; [done | by rewrite existsb_app, Hno | done].
Qed.

Lemma publish_and_store_told n i e k c x y :
  (n <= 6)%nat -> keeps invocation_rank told n (timed_publish_and_store i e k c x y) 7.
Proof.
  intros Hn. unfold timed_publish_and_store.
  eapply leads_bind; [by apply lend_publish_told |]. intros [c' published].
  eapply (leads_bind _ _ _ _ (fun _ => told) 7); [by apply leads_mark |]. intros [].
  change (keeps invocation_rank told 7
    (untimed (if is_ok published then mret () else evict (actor i));;
     untimed (store_cached_state k c');; mret published) 7).
  keeping; apply keeps_told; try within; [| apply store_quiet].
  case_match; [apply respects_ret | apply evict_quiet]; apply _.
Qed.

Lemma method_executes i st h h' r :
  execute_method i st [] h = (h', r) -> exists calls, trace h' = (trace h ++ calls)%list /\
    existsb is_execution calls = true /\ existsb is_download calls = false /\
    existsb is_upload calls = false.
Proof. intros (calls & [w ->] & H)%execute_method_executes. exists calls. by destruct H. Qed.

Lemma socket_event_executes i st h h' r :
  execute_socket_event i st h = (h', r) -> exists calls, trace h' = (trace h ++ calls)%list /\
    existsb is_execution calls = true /\ existsb is_download calls = false /\
    existsb is_upload calls = false.
Proof.
  intros (calls & [w ->] & H)%execute_socket_event_handles. exists calls.
  by destruct H as [| [[] |]].
Qed.

(** What follows the execution of the actor's code. *)
Ltac telling :=
  keeping;
  try first
    [ apply keeps_told; [| within]; first [apply store_quiet | by hushing | apply lend_quiet, finish_pending_commit_quiet]
    | by apply told_marked
    | apply publish_and_store_told; simpl; lia ].

Lemma run_invocation_told i e k c : keeps invocation_rank told 4 (timed_run_invocation i e k c) 7.
Proof.
  unfold timed_run_invocation.
  eapply keeps_bind; [apply (keeps_told 4); [apply lend_quiet, finish_pending_commit_quiet | reflexivity] |].
  intros [c1 finished]. case_match; [| by telling].
  eapply keeps_bind; [by apply (keeps_mark _ _ 4 _ 5); [.. | intros s; apply told_marked] |].
  intros []. case_match; [by telling |].
  eapply leads_bind; [by apply (execution_told 5); [| apply method_executes] |]. intros executed.
  eapply (leads_bind _ _ _ _ (fun _ => told) 6); [by apply leads_mark |]. intros [].
  destruct executed as [[[x y] effects] | failure]; [| apply (keeps_bind _ _ 6 _ 6); by telling].
  case_match; [apply (keeps_bind _ _ 6 _ 6); by telling |].
  apply (keeps_bind _ _ 6 _ 7); by telling.
Qed.

Lemma run_socket_event_told i p e k c :
  keeps invocation_rank told 4 (timed_run_socket_event i p e k c) 7.
Proof.
  unfold timed_run_socket_event.
  eapply keeps_bind; [apply (keeps_told 4); [apply lend_quiet, finish_pending_commit_quiet | reflexivity] |].
  intros [c1 finished]. case_match; [| by telling].
  eapply keeps_bind; [by apply (keeps_mark _ _ 4 _ 5); [.. | intros s; apply told_marked] |]. intros [].
  eapply leads_bind; [by apply (execution_told 5); [| apply socket_event_executes] |]. intros handled.
  eapply (leads_bind _ _ _ _ (fun _ => told) 6); [by apply leads_mark |]. intros [].
  destruct handled as [[x effects] | result]; [| apply (keeps_bind _ _ 6 _ 6); by telling].
  case_match; [apply (keeps_bind _ _ 6 _ 6); by telling |].
  apply (keeps_bind _ _ 6 _ 7); by telling.
Qed.

Lemma activity_told {A} n (c : InvocationM Error A) m :
  keeps invocation_rank told n c m -> keeps invocation_rank told n (timed_with_activity c) m.
Proof.
  intros Hc [[h w] t] s' r Hs Htold H. unfold timed_with_activity in H.
  destruct ((untimed begin_activity;; c) _) as [[[h1 w1] t1] r1] eqn:E1. simplify_eq.
  assert (Hboth : keeps invocation_rank told n (untimed begin_activity;; c) m).
  { eapply keeps_bind; [apply (keeps_told n); [| reflexivity] | by intros []].
    intros h0' h1' r' Hb. unfold begin_activity in Hb. simplify_eq. exists []. by rewrite app_nil_r. }
  specialize (Hboth _ _ _ Hs Htold E1). destruct r.
  - destruct Hboth as [Ht Hq]. split; [by eapply on_time_later |]. exact Hq.
  - destruct Hboth as [[j Ht] Hq]. split; [exists j; by eapply on_time_later |]. exact Hq.
Qed.

Lemma invoke_actor_once_told i e v u :
  keeps invocation_rank told 0 (timed_invoke_actor_once i e v u) 7.
Proof.
  unfold timed_invoke_actor_once.
  eapply keeps_bind; [apply (keeps_told 0); [apply validate_quiet | reflexivity] |].
  intros rejected. case_match; [by telling |]. apply activity_told.
  eapply keeps_bind; [apply (keeps_told 0); [apply admit_quiet | reflexivity] |].
  intros acquired. case_match; [by telling |].
  eapply keeps_bind; [by apply (keeps_mark _ _ 0 _ 1); [.. | intros s; apply told_marked] |]. intros [].
  eapply keeps_bind; [by apply (keeps_told 1); [hushing |] |]. intros open.
  case_match; [by telling |].
  eapply keeps_bind; [apply load_state_told |]. intros cached. apply run_invocation_told.
Qed.

Lemma handle_socket_event_once_told i e v u p :
  keeps invocation_rank told 0 (timed_handle_socket_event_once i e v u p) 7.
Proof.
  unfold timed_handle_socket_event_once.
  eapply keeps_bind; [apply (keeps_told 0); [apply validate_quiet | reflexivity] |].
  intros rejected. case_match; [by telling |]. apply activity_told.
  eapply keeps_bind; [apply (keeps_told 0); [apply admit_quiet | reflexivity] |].
  intros acquired. case_match; [by telling |].
  eapply keeps_bind; [by apply (keeps_mark _ _ 0 _ 1); [.. | intros s; apply told_marked] |]. intros [].
  eapply keeps_bind; [by apply (keeps_told 1); [hushing |] |]. intros open.
  case_match; [by telling |].
  eapply keeps_bind; [apply load_state_told |]. intros cached. apply run_socket_event_told.
Qed.
End Told.

(** From [h] and [w] to [h'] and [w'], one operation ran and was logged: after the
    state write it attempted, if any, one event of the given outcome whose
    milestones are in order, none after the completion, and tell its path. *)
Definition logged (i : ActorInvocation) (outcome failure_code : string) (error : option string)
    (h h' : Host) (w w' : HostWatch) : Prop :=
  exists calls writes line,
    trace h' = (trace h ++ calls)%list /\
    events w' = (events w ++ (ActorStateWrite <$> writes) ++ [ActorHostInvocation line])%list /\
    il_request_id line = Identity.request_id i /\ il_actor line = actor i /\
    il_method line = method i /\ il_outcome line = outcome /\ il_failure_code line = failure_code /\
    il_error line = error /\ 0 <= il_completed_at_ms line /\
    ordered invocation_rank (il_milestones line) (il_completed_at_ms line) /\
    path (il_milestones line) calls writes.

Lemma timed_logged {A} (event : Host -> Host -> Timings InvocationMilestone -> Z -> anyhow A -> list HostEvent)
    c i outcome failure_code error (h h' : Host) (w w' : HostWatch) (r : anyhow A) :
  (forall h0 w0, keeps invocation_rank (told h0 w0) 0 c 7) ->
  (forall t now, event h h' t now r = log_invocation_result i h' t now outcome failure_code error) ->
  timed event c (h, w) = ((h', w'), r) -> logged i outcome failure_code error h h' w w'.
Proof.
  intros Hc Hevent H.
  eapply (timed_leads invocation_rank) in H as (t & w1 & limit & -> & _ & Hlimit & Hord & Hr);
    [| apply (Hc h w) |].
  2: { exists [], []. rewrite !app_nil_r. by repeat split. }
  assert (told h w ((h', w1), t)) as (calls & writes & Ht & Hev & Hpath) by by destruct r.
  exists calls, writes. eexists. split; [done |]. rewrite Hevent. simpl. rewrite Hev, app_assoc.
  by split_and!.
Qed.

(** Measuring is transparent: with its clock readings, timings and log lines, an invocation or a
    socket event makes the same calls with the same answers in the same order, leaves the host in
    the same state and answers the same as the program without them, whatever the clock reads and
    whatever was logged before. *)
Lemma timings_change_nothing (h : Host) (w : HostWatch) :
  (forall i e v u, invoke_actor i e v u h
     = ((timed_invoke_actor i e v u (h, w)).1.1, (timed_invoke_actor i e v u (h, w)).2)) /\
  (forall i e v u, handle_socket_event i e v u h
     = ((timed_handle_socket_event i e v u (h, w)).1.1,
        (timed_handle_socket_event i e v u (h, w)).2)).
Proof.
  split; intros i e v u.
  - apply (erases_timed (log_invocation i) _ _ (invoke_actor_once_erases i e v u) (h, w)).
  - apply (erases_timed (log_socket_invocation (socket_persistence i)) _ _
             (handle_socket_event_once_erases i e v u (socket_persistence i)) (h, w)).
Qed.

(** C23: Each method invocation and each socket event, however it ends, logs one completion event,
    which carries its outcome, the failure's code or the host's error, and whose milestones are the
    path it took: in their canonical order and before the completion; a state was downloaded, the
    actor's code ran and a snapshot was uploaded exactly when the milestones say so; and exactly when
    the publication's milestone was reached, one state write was logged before it, whose own
    milestones are in order and which is "committed" exactly when its commit was confirmed. *)
Theorem timeline_tells_the_path (h h' : Host) (w w' : HostWatch) (i : ActorInvocation)
    (e v : Z) (u : string) (r : anyhow ActorExecutionResult) (j : ActorSocketInvocation)
    (e' v' : Z) (u' : string) (h'' : Host) (w'' : HostWatch) (x : anyhow ActorSocketExecutionResult) :
  timed_invoke_actor i e v u (h, w) = ((h', w'), r) ->
  timed_handle_socket_event j e' v' u' (h', w') = ((h'', w''), x) ->
  logged i (match r with Ok result => actor_execution_outcome result | Err _ => "host_error" end)
    (match r with Ok result => default "" (actor_execution_failure_code result) | Err _ => "" end)
    (match r with Ok _ => None | Err error => Some (alternate error) end) h h' w w' /\
  logged (socket_persistence j)
    (match x with Ok result => socket_execution_outcome result | Err _ => "host_error" end)
    (match x with Ok result => default "" (socket_execution_failure_code result) | Err _ => "" end)
    (match x with Ok _ => None | Err error => Some (alternate error) end) h' h'' w' w''.
Proof.
  intros H1 H2. split.
  - eapply timed_logged; [intros h0 w0; apply invoke_actor_once_told | | exact H1]. by destruct r.
  - eapply timed_logged; [intros h0 w0; apply handle_socket_event_once_told | | exact H2].
    by destruct x.
Qed.
End Telemetry.

(** ** A timeline

    A first invocation publishes a state, and a socket event then leaves it as it
    is; the clock advances by a microsecond between readings. *)
#[local] Instance ticking : Instants.
Proof. refine {| instant n := Z.of_nat n * 1000 |}. intros n n' Hn. lia. Defined.

Section Sample.
#[local] Existing Instance sample_env.

Definition sample_watch : Watch HostEvent := {| readings := 0; events := [] |}.
Definition timed_first := timed_invoke_actor sample_invocation 1 0 "" (HostSafety.sample_host 0, sample_watch).
Definition timed_second := timed_handle_socket_event sample_event 1 1 "u" timed_first.1.

Definition invocation_milestones (e : HostEvent) : list (option Z) :=
  match e with
  | ActorHostInvocation line =>
      il_milestones line <$>
        [queue_admitted_at_ms; state_cache_checked_at_ms; state_downloaded_at_ms;
         state_decoded_at_ms; pending_commit_resolved_at_ms; actor_execution_completed_at_ms;
         state_publication_completed_at_ms]
  | ActorStateWrite line =>
      sw_milestones line <$>
        [write_ticket_ready_at_ms; snapshot_created_at_ms; snapshot_encoded_at_ms;
         snapshot_uploaded_at_ms; commit_rpc_completed_at_ms]
  end.

(** The state is not downloaded, and published the first time only. *)
Example sample_timelines :
  invocation_milestones <$> events timed_second.1.2 =
  [ [Some 1000; Some 2000; Some 3000; Some 4000; Some 5000];
    [Some 1000; Some 2000; None; None; Some 3000; Some 4000; Some 12000];
    [Some 1000; Some 2000; None; None; Some 3000; Some 4000; None] ].
Proof. vm_compute. reflexivity. Qed.

Lemma timeline_tells_the_path_witness :
  logged sample_invocation "completed" "" None (HostSafety.sample_host 0) timed_first.1.1
    sample_watch timed_first.1.2 /\
  logged (socket_persistence sample_event) "completed" "" None timed_first.1.1 timed_second.1.1
    timed_first.1.2 timed_second.1.2.
Proof.
  apply (timeline_tells_the_path (HostSafety.sample_host 0) timed_first.1.1 sample_watch
    timed_first.1.2 sample_invocation 1 0 "" (Ok (Completed (J := text_json) "1" [])) sample_event 1 1 "u"
    timed_second.1.1 timed_second.1.2 (Ok (SocketHandled (J := text_json) []))).
  - vm_compute. reflexivity.
  - vm_compute. reflexivity.
Defined.
End Sample.
