(* ===== verification/Activity.v ===== *)
(** * Activity and draining, interleaved

    [src/host/actor_host.rs] counts the operations in flight in an atomic
    counter, publishes the count on a watch channel, from which the process
    decides when the host is idle, and drains by waiting for the count to reach
    zero.  [ActorHost] runs one operation at a time; here the atomic steps of any
    number of operations and of one drain are interleaved, as tasks on several
    threads are.  Sequentially consistent atomics make every access one step; an
    operation that is dropped ends like one that fails. *)
From S2P Require Import Prelude Json ActorHost.

(** ** State *)

(** Where an invocation or socket event is: arrived; past [validate_operation];
    its guard counted, the count [n] not yet published; waiting for the actor's
    gate; executing; its guard being dropped; uncounted, the count [n] not yet
    published; about to notify; gone. *)
Inductive Phase :=
| Arrived
| Validated
| Counted (n : Z)
| Waiting
| Executing
| Leaving
| Uncounted (n : Z)
| Notifying (n : Z)
| Gone.

Record Operation := { disconnecting : bool; phase : Phase }.

(** The drain: not called; about to read the count; about to make its
    notification; waiting with one made after [seen] notifications; ended. *)
Inductive Drain :=
| NotDraining
| Reading
| Noting
| Listening (seen : nat)
| Drained
| TimedOut.

(** The fields [accepting], [active], [activity_tx] and [idle] of the host. *)
Record Activity := {
  accepting : bool;
  active : Z;
  published : Z;
  notifications : nat;
  operations : list Operation;
  drain : Drain;
}.

Definition Activity_new : Activity :=
  {| accepting := true; active := 0; published := 0; notifications := 0; operations := [];
     drain := NotDraining |}.

Definition with_operations (ops : list Operation) (s : Activity) : Activity :=
  {| accepting := accepting s; active := active s; published := published s;
     notifications := notifications s; operations := ops; drain := drain s |}.
Definition with_count (n : Z) (s : Activity) : Activity :=
  {| accepting := accepting s; active := n; published := published s;
     notifications := notifications s; operations := operations s; drain := drain s |}.
Definition with_published (n : Z) (s : Activity) : Activity :=
  {| accepting := accepting s; active := active s; published := n;
     notifications := notifications s; operations := operations s; drain := drain s |}.
Definition notified (s : Activity) : Activity :=
  {| accepting := accepting s; active := active s; published := published s;
     notifications := S (notifications s); operations := operations s; drain := drain s |}.
Definition with_drain (accept : bool) (d : Drain) (s : Activity) : Activity :=
  {| accepting := accept; active := active s; published := published s;
     notifications := notifications s; operations := operations s; drain := d |}.

(** ** Steps *)

(** The next step of an operation.  What it finds is its argument: whether the
    invocation is valid, and whether the gate admits it (a full gate, an error
    or a dropped future do not). *)
Definition operation_step (found : bool) (o : Operation) (s : Activity) : option (Phase * Activity) :=
  match phase o with
  | Arrived =>
      (* validate_operation *)
      Some (if negb (disconnecting o) && negb (accepting s) then (Gone, s)
            else if found then (Validated, s) else (Gone, s))
  | Validated =>
      (* begin_activity: fetch_add, then send *)
      let n := (active s + 1)%Z in Some (Counted n, with_count n s)
  | Counted n => Some (Waiting, with_published n s)
  | Waiting =>
      (* admission, and the second look at [accepting] *)
      Some (if found && (disconnecting o || accepting s) then (Executing, s) else (Leaving, s))
  | Executing => Some (Leaving, s)
  | Leaving =>
      (* finish_activity: fetch_sub, then send, then notify *)
      let n := (active s - 1)%Z in Some (Uncounted n, with_count n s)
  | Uncounted n => Some (Notifying n, with_published n s)
  | Notifying n => Some (Gone, if (n =? 0)%Z then notified s else s)
  | Gone => None
  end.

Definition set_phase (p : Phase) (o : Operation) : Operation :=
  {| disconnecting := disconnecting o; phase := p |}.

(** The next step of the drain; a timeout can only cut a wait short. *)
Definition drain_step (timeout : bool) (s : Activity) : option Activity :=
  match drain s with
  | NotDraining => Some (with_drain false Reading s)
  | Reading => Some (with_drain (accepting s) (if (active s =? 0)%Z then Drained else Noting) s)
  | Noting => Some (with_drain (accepting s) (Listening (notifications s)) s)
  | Listening seen =>
      if decide (seen < notifications s) then Some (with_drain (accepting s) Reading s)
      else if timeout then Some (with_drain (accepting s) TimedOut s)
      else None
  | Drained | TimedOut => None
  end.

Inductive Event :=
| Arrive (disconnecting : bool)
| Operate (i : nat) (found : bool)
| DrainOn (timeout : bool).

Definition step (e : Event) (s : Activity) : option Activity :=
  match e with
  | Arrive d =>
      Some (with_operations (operations s ++ [{| disconnecting := d; phase := Arrived |}]) s)
  | Operate i found =>
      o ← operations s !! i;
      '(p, s) ← operation_step found o s;
      Some (with_operations (<[ i := set_phase p o ]> (operations s)) s)
  | DrainOn timeout => drain_step timeout s
  end.

Fixpoint steps (es : list Event) (s : Activity) : option Activity :=
  match es with
  | [] => Some s
  | e :: es => s ← step e s; steps es s
  end.

Definition reachable (s : Activity) : Prop := exists es, steps es Activity_new = Some s.

(** ** The count *)

(** An operation whose guard is counted. *)
Definition counts (o : Operation) : Z :=
  match phase o with Counted _ | Waiting | Executing | Leaving => 1 | _ => 0 end.
Fixpoint guards (ops : list Operation) : Z :=
  match ops with [] => 0%Z | o :: ops => (counts o + guards ops)%Z end.

(** An operation other than a disconnect that executes. *)
Definition executes (o : Operation) : Prop := disconnecting o = false /\ phase o = Executing.

(** What holds at any moment: the counter counts the guards; once the drain has
    begun nothing is accepted, and once it has ended well nothing executes. *)
Record activity_ok (s : Activity) : Prop := {
  ok_count : active s = guards (operations s);
  ok_accepting : drain s <> NotDraining -> accepting s = false;
  ok_drained : drain s = Drained -> Forall (fun o => ~ executes o) (operations s);
}.

Lemma guards_app ops ops' : guards (ops ++ ops') = (guards ops + guards ops')%Z.
Proof. induction ops as [| o ops IH]; simpl; [done | rewrite IH; lia]. Qed.

Lemma guards_insert ops i o o' :
  ops !! i = Some o -> guards (<[ i := o' ]> ops) = (guards ops - counts o + counts o')%Z.
Proof.
  revert i. induction ops as [| x ops IH]; intros [| i] H; simplify_eq/=; [lia |].
  rewrite (IH _ H). lia.
Qed.

Lemma guards_zero ops : guards ops = 0%Z -> Forall (fun o => counts o = 0%Z) ops.
Proof.
  assert (Hone : forall o, (0 <= counts o)%Z) by (intros o; unfold counts; by destruct (phase o)).
  assert (Hpos : forall l, (0 <= guards l)%Z).
  { induction l as [| o l IH]; simpl; [done |]. specialize (Hone o). lia. }
  induction ops as [| o ops IH]; simpl; intros H; constructor;
    specialize (Hpos ops); specialize (Hone o); [| apply IH]; lia.
Qed.

Lemma operation_step_ok found o s p s' :
  operation_step found o s = Some (p, s') ->
  operations s' = operations s /\ drain s' = drain s /\ accepting s' = accepting s /\
  active s' = (active s - counts o + counts (set_phase p o))%Z /\
  (executes (set_phase p o) -> accepting s = true).
Proof.
  unfold operation_step, executes, counts. simpl.
  destruct o as [d ph]; destruct ph; simpl; intros H; simplify_eq/=;
    repeat (case_match; simplify_eq/=); bool_prop;
    split_and!; try done; try lia; intros [-> ?]; simpl in *; simplify_eq/=; bool_prop; done.
Qed.

Lemma step_ok e s s' : step e s = Some s' -> activity_ok s -> activity_ok s'.
Proof.
  intros H [Hc Ha Hd]. destruct e as [d | i found | timeout]; simpl in H.
  - injection H as <-. split; simpl; [| done |].
    + rewrite guards_app. cbn. lia.
    + intros Hdr. apply Forall_app. split; [auto |]. constructor; [| done]. by intros [_ [=]].
  - destruct (operations s !! i) as [o |] eqn:Ho; [| done]. simpl in H.
    destruct (operation_step found o s) as [[p s1] |] eqn:Hs; [| done]. injection H as <-.
    apply operation_step_ok in Hs as (H1 & H2 & H3 & H4 & H5). split; simpl.
    + rewrite H1, (guards_insert _ _ _ _ Ho). lia.
    + rewrite H2, H3. done.
    + rewrite H1, H2. intros Hdr. apply Forall_insert; [auto |]. intros Hex%H5.
      rewrite Ha in Hex; [done | by rewrite Hdr].
  - unfold drain_step in H. destruct (drain s) eqn:Hdr; simplify_eq/=.
    + by split.
    + split; simpl; [done | intros _; by apply Ha |]. destruct (active s =? 0)%Z eqn:Hz; [| done].
      bool_prop. intros _. rewrite Hc in Hz. apply guards_zero in Hz. eapply Forall_impl; [exact Hz |].
      intros o Ho [_ Hex]. unfold counts in Ho. by rewrite Hex in Ho.
    + split; simpl; [done | intros _; by apply Ha | done].
    + destruct (decide _); [| destruct timeout]; simplify_eq/=;
        (split; simpl; [done | intros _; by apply Ha | done]).
Qed.

Lemma steps_ok es s s' : steps es s = Some s' -> activity_ok s -> activity_ok s'.
Proof.
  revert s. induction es as [| e es IH]; simpl; intros s H; [by simplify_eq |].
  destruct (step e s) as [s1 |] eqn:E; [| done]. intros Hs. eapply IH; [done |]. by eapply step_ok.
Qed.

Lemma reachable_ok s : reachable s -> activity_ok s.
Proof. intros [es H]. eapply steps_ok; [exact H |]. by split. Qed.

(** What a finished drain promises never ends. *)
Lemma drained_stays e s s' : step e s = Some s' -> drain s = Drained -> drain s' = Drained.
Proof.
  destruct e as [d | i found | timeout]; simpl; intros H Hd.
  - by injection H as <-.
  - destruct (operations s !! i) as [o |]; [| done]. simpl in H.
    destruct (operation_step found o s) as [[p s1] |] eqn:Hs; [| done]. injection H as <-.
    apply operation_step_ok in Hs as (_ & H2 & _). simpl. congruence.
  - unfold drain_step in H. by rewrite Hd in H.
Qed.

(** C13: a drain that answers "drained" can be relied on for good.  However the steps
    of the operations and of the drain were interleaved, once the drain has
    ended without its timeout, nothing is accepted any more and no invocation or
    socket event but a disconnect executes, now or after any further steps: one
    that had passed validation before the drain began is stopped by the second
    look at [accepting] when it reaches its gate.  From then on the counter is
    the number of guards held ([reachable_ok] shows it for every reachable state). *)
Theorem drain_is_final (s s' : Activity) (es : list Event)
    (Hs : reachable s) (Hd : drain s = Drained) (H : steps es s = Some s') :
  drain s' = Drained /\ accepting s' = false /\
  Forall (fun o => ~ executes o) (operations s') /\ active s' = guards (operations s').
Proof.
  apply reachable_ok in Hs as Hok. apply (steps_ok _ _ _ H) in Hok as [Hc Ha Hq].
  assert (drain s' = Drained) as Hd'.
  { clear -Hd H. revert s Hd H. induction es as [| e es IH]; simpl; intros s Hd H; [by simplify_eq |].
    destruct (step e s) as [s1 |] eqn:E; [| done]. apply (IH s1); [| done]. by eapply drained_stays. }
  split_and!; [done | apply Ha; by rewrite Hd' | auto | done].
Qed.

(** ** With the host *)

(** The fields of a host. *)
Definition shows_activity `{J : Json} {W : Type} (h : ActorHost (W := W)) (s : Activity) : Prop :=
  ActorHost.accepting h = accepting s /\ ActorHost.active h = active s /\ activity h = published s.

(** The two steps of an operation that nobody interrupts are [begin_activity]... *)
Lemma begin_activity_alone `{J : Json} {W : Type} (h : ActorHost (W := W)) s i o :
  shows_activity h s -> operations s !! i = Some o -> phase o = Validated ->
  exists s', steps [Operate i true; Operate i true] s = Some s' /\
    shows_activity (begin_activity h).1 s' /\
    operations s' !! i = Some (set_phase Waiting o).
Proof.
  intros (Ha & Hn & Hp) Ho Hph. simpl. rewrite Ho. unfold operation_step. simpl. rewrite Hph. simpl.
  rewrite list_lookup_insert_eq by (by eapply lookup_lt_Some). simpl.
  eexists. split; [done |]. unfold shows_activity. simpl. rewrite Hn. split_and!; try done.
  rewrite list_insert_insert_eq, list_lookup_insert_eq; [done |]. by eapply lookup_lt_Some.
Qed.

(** ... and its last three are [finish_activity]. *)
Lemma finish_activity_alone `{J : Json} {W : Type} (h : ActorHost (W := W)) s i o :
  shows_activity h s -> operations s !! i = Some o -> phase o = Leaving ->
  exists s', steps [Operate i true; Operate i true; Operate i true] s = Some s' /\
    shows_activity (finish_activity h) s' /\
    operations s' !! i = Some (set_phase Gone o) /\
    (active s' = 0%Z -> notifications s' = S (notifications s)).
Proof.
  intros (Ha & Hn & Hp) Ho Hph. apply lookup_lt_Some in Ho as Hlt.
  simpl. rewrite Ho. unfold operation_step. simpl. rewrite Hph. simpl.
  rewrite list_lookup_insert_eq by done. simpl. rewrite !list_insert_insert_eq.
  rewrite list_lookup_insert_eq by done. simpl. eexists. split; [done |].
  rewrite ?list_insert_insert_eq. unfold shows_activity.
  destruct (active s - 1 =? 0)%Z eqn:Hz; bool_prop; simpl; rewrite Hn, ?list_lookup_insert_eq by done;
    split_and!; try done; try lia; by rewrite list_lookup_insert_eq by (by rewrite length_insert).
Qed.

(** ** What the interleaving can spoil *)

(** One operation from its arrival to its gate; the four steps of its end, whether
    it executes or is turned away there. *)
Definition enters (i : nat) : list Event := [Operate i true; Operate i true; Operate i true].
Definition leaves (i : nat) : list Event :=
  [Operate i true; Operate i true; Operate i true; Operate i true].

(** Two operations end together; the one that reaches zero publishes first. *)
Definition crossed_ends : list Event :=
  [Arrive false; Arrive false] ++ enters 0 ++ enters 1 ++
  [Operate 0 true; Operate 0 true; Operate 0 true; Operate 1 true; Operate 1 true; Operate 1 true;
   Operate 1 true; Operate 1 true; Operate 0 true; Operate 0 true].

(** The count on the watch channel can stay wrong: two operations that end
    together can publish in the opposite order, and leave "one in flight" on the
    channel of a host where nothing is, which then never counts as idle. *)
Lemma published_count_can_stay_wrong :
  exists s, reachable s /\ Forall (fun o => phase o = Gone) (operations s) /\
    active s = 0%Z /\ published s = 1%Z.
Proof.
  eexists. split; [exists crossed_ends; vm_compute; reflexivity |].
  split; [repeat constructor | done].
Qed.

(** An operation begins while another, the last, ends; the end publishes late. *)
Definition crossed_begin : list Event :=
  [Arrive false] ++ enters 0 ++ [Operate 0 true; Operate 0 true; Operate 0 true] ++
  [Arrive false] ++ enters 1 ++ [Operate 1 true; Operate 0 true; Operate 0 true].

(** It can also say that nothing is in flight while an operation executes. *)
Lemma published_count_can_hide_work :
  exists s o, reachable s /\ o ∈ operations s /\ executes o /\ published s = 0%Z.
Proof.
  eexists _, {| disconnecting := false; phase := Executing |}.
  split; [exists crossed_begin; vm_compute; reflexivity |]. split; [set_solver |]. by split.
Qed.

(** The last operation ends between the drain's look at the count and the making
    of its notification. *)
Definition lost_wakeup : list Event :=
  [Arrive false] ++ enters 0 ++ [Operate 0 true; DrainOn false; DrainOn false] ++ leaves 0 ++
  [DrainOn false].

(** The drain then waits for a notification that has passed: nothing is in flight,
    no step of an operation is left, and only the timeout ends the wait. *)
Lemma drain_can_miss_its_wakeup :
  exists s, reachable s /\ active s = 0%Z /\ Forall (fun o => phase o = Gone) (operations s) /\
    step (DrainOn false) s = None /\ option_map drain (step (DrainOn true) s) = Some TimedOut.
Proof.
  eexists. split; [exists lost_wakeup; vm_compute; reflexivity |].
  split; [done |]. split; [repeat constructor | done].
Qed.

(** ** A drain that ends well *)

Definition drained_by : list Event :=
  [Arrive false] ++ enters 0 ++ [Arrive false; Operate 1 true; DrainOn false; DrainOn false;
   DrainOn false] ++ leaves 0 ++ [DrainOn false; DrainOn false].

(** The second operation had passed validation when the drain began. *)
Lemma drain_is_final_witness :
  exists s s', steps drained_by Activity_new = Some s /\ drain s = Drained /\
    steps [Operate 1 true; Operate 1 true; Operate 1 true] s = Some s' /\
    Forall (fun o => ~ executes o) (operations s') /\ active s' = 1%Z.
Proof.
  eexists _, _. split; [vm_compute; reflexivity |]. split; [reflexivity |].
  split; [vm_compute; reflexivity |].
  edestruct drain_is_final as (_ & _ & Hq & _);
    [exists drained_by; vm_compute; reflexivity | reflexivity | | split; [exact Hq | reflexivity]].
  instantiate (1 := [Operate 1 true; Operate 1 true; Operate 1 true]). vm_compute. reflexivity.
Defined.
