(* ===== verification/System.v ===== *)
(** * The system put together

    A host's environment made of the other components: its control plane is
    [ControlPlaneClient] talking to [ControlPlaneService] over a network that may
    lose messages, the service works on the shared tables, and object storage
    keeps what was uploaded.  What an invocation answers is traced through all of
    them down to the database and the stored bytes. *)
From S2P Require Import Prelude Net Json Identity SocketProtocol StateLog StorageUrls Tokens Database Leases Placement ControlPlane ControlPlaneSafety ActorHost HostRuns HostSafety.
Local Open Scope string_scope.

(** ** Timelines

    The calls of a host are steps of the world, one after the other, between
    which others move the world forward. *)

Section Timelines.
Context {W L : Type} (forward : relation W) `{!PreOrder forward} (step : W -> L -> W -> Prop)
        (step_forward : forall w c w', step w c w' -> forward w w').

(** The calls that were made from the first world to the last. *)
Inductive timeline : W -> list L -> W -> Prop :=
| TimelineQuiet w w' : forward w w' -> timeline w [] w'
| TimelineCall w w1 c w2 calls w' :
    forward w w1 -> step w1 c w2 -> timeline w2 calls w' -> timeline w (c :: calls) w'.

Lemma timeline_earlier w0 w calls w' : forward w0 w -> timeline w calls w' -> timeline w0 calls w'.
Proof using PreOrder0.
  intros H0 H. destruct H as [w w' H | w w1 c w2 calls w' H1 Hs Ht].
  - apply TimelineQuiet. by trans w.
  - eapply TimelineCall; [by trans w | done..].
Qed.

Lemma timeline_app w l1 l2 w' :
  timeline w (l1 ++ l2) w' <-> exists wm, timeline w l1 wm /\ timeline wm l2 w'.
Proof using PreOrder0.
  split.
  - revert w. induction l1 as [| c l1 IH]; simpl; intros w H.
    + exists w. split; [by constructor | done].
    + inversion H as [| ? w1 ? w2 ? ? H1 Hs Ht]; subst. apply IH in Ht as (wm & Ht1 & Ht2).
      exists wm. split; [by econstructor | done].
  - intros (wm & H1 & H2). induction H1 as [w wm H | w w1 c w2 calls wm H Hs _ IH]; simpl.
    + by eapply timeline_earlier.
    + econstructor; [done.. | by apply IH].
Qed.

Lemma timeline_forward w calls w' : timeline w calls w' -> forward w w'.
Proof using PreOrder0 step_forward.
  induction 1 as [| w w1 c w2 calls w' H1 Hs _ IH]; [done |].
  etrans; [done |]. etrans; [by eapply step_forward | done].
Qed.

(** A call that was made is a step between two worlds of the timeline. *)
Lemma timeline_elem w calls w' c :
  timeline w calls w' -> c ∈ calls ->
  exists w1 w2, forward w w1 /\ step w1 c w2 /\ forward w2 w'.
Proof using PreOrder0 step_forward.
  intros H (l1 & l2 & ->)%list_elem_of_split. apply timeline_app in H as (wm & H1 & H2).
  inversion H2 as [| ? w1 ? w2 ? ? Hf Hs Ht]; subst. apply timeline_forward in H1, Ht.
  exists w1, w2. split_and!; [by etrans | done..].
Qed.
End Timelines.

(** ** What a host's calls show

    In an environment each of whose operations is a step for the call it is
    recorded as, the calls of a host are a timeline; when steps move the world
    forward, what a step shows of its call holds in every later world. *)

Section Shown.
Context `{J : Json} {C : @SnapshotSerde J} `{B : Base64} {W : Type} `{Env : !HostEnv W}.
Context (forward : relation W) `{!PreOrder forward} (call_step : W -> Call -> W -> Prop).

(** An operation of the environment, with the call it is recorded as. *)
Definition shows_call {A} (f : W -> W * A) (log : A -> list Call) : Prop :=
  forall w w' a, f w = (w', a) -> timeline forward call_step w (log a) w'.

Class FaithfulEnv : Prop := {
  shows_invoke i st :
    shows_call (executor_invoke_with_state i st) (fun a => [CallInvoke (method_with_state i st) a]);
  shows_socket i st :
    shows_call (executor_handle_socket_with_state i st) (fun a => [CallSocket (socket_with_state i st) a]);
  shows_evict a : shows_call (executor_evict {| ev_actor := a |}) (fun _ => [CallEvict a]);
  shows_prepare a h e v : shows_call (prepare_state_write a h e v) (fun t => [CallPrepare a e v t]);
  shows_commit a h e v obj rq :
    shows_call (commit_state a h e v obj rq) (fun cm => [CallCommit a e v obj rq cm]);
  shows_read u : shows_call (transport_read u) (fun a => [CallRead u a]);
  shows_write u b : shows_call (transport_write u b) (fun a => [CallWrite u b a]);
  shows_admit k : shows_call (executions_admit k) (fun _ => []);
  shows_time : shows_call system_time (fun _ => []);
}.
Context {F : FaithfulEnv}.

Abbreviation Host := (ActorHost (W := W)).

(** From [h] to [h'], the new calls are a timeline of the world. *)
Definition calls_shown (h h' : Host) : Prop :=
  exists calls, trace h' = (trace h ++ calls)%list /\ timeline forward call_step (world h) calls (world h').

#[local] Instance calls_shown_preorder : PreOrder calls_shown.
Proof.
  split.
  - intros h. exists []. rewrite app_nil_r. split; [done | by constructor].
  - intros h1 h2 h3 (c12 & T12 & S12) (c23 & T23 & S23).
    exists (c12 ++ c23)%list. rewrite T23, T12, app_assoc. split; [done |].
    apply timeline_app; [done | eauto].
Qed.

(** The same with the actor's state in hand. *)
Definition calls_shown_cached (s s' : Host * CachedActorState) : Prop := calls_shown s.1 s'.1.
#[local] Instance calls_shown_cached_preorder : PreOrder calls_shown_cached.
Proof.
  unfold calls_shown_cached. split; [intros s; reflexivity |].
  intros s1 s2 s3. apply transitivity.
Qed.

Lemma call_shown {E A} (f : W -> W * A) log :
  shows_call f log -> respects calls_shown (call (E := E) f log).
Proof.
  intros Hf h h' r H. unfold call in H. destruct (f (world h)) as [w a] eqn:Ef.
  apply Hf in Ef. injection H as <- _. by exists (log a).
Qed.

(** A modification of what is neither the world nor the trace. *)
Lemma modify_shown {E} (f : Host -> Host) :
  (forall h, world (f h) = world h /\ trace (f h) = trace h) ->
  respects calls_shown (modify (E := E) f).
Proof.
  intros Hf h h' r H. injection H as <- _. destruct (Hf h) as [Hw Ht]. unfold calls_shown.
  rewrite Hw, Ht. exists []. rewrite app_nil_r. split; [done | by constructor].
Qed.

Lemma cached_modify_shown {E} (f : CachedActorState -> CachedActorState) :
  respects calls_shown_cached (cached_modify (E := E) f).
Proof. intros s s' r H. injection H as <- _. unfold calls_shown_cached. done. Qed.

Lemma on_host_shown {E A} (c : M Host E A) :
  respects calls_shown c -> respects calls_shown_cached (on_host c).
Proof. intros Hc [h k] s r H. apply on_host_run in H as (h' & H & ->). by eapply Hc. Qed.

Lemma lend_shown {E A} k (c : M (Host * CachedActorState) Error A) :
  respects calls_shown_cached c -> respects calls_shown (lend (E := E) k c).
Proof. intros Hc h h' r H. apply lend_run in H as (c' & x & H & _). by apply Hc in H. Qed.

Lemma with_activity_shown {A} (c : M Host Error A) :
  respects calls_shown c -> respects calls_shown (with_activity c).
Proof.
  intros Hc h h' r H. unfold with_activity, begin_activity, mbind, M_bind in H.
  destruct (c _) as [h1 r1] eqn:Ec. injection H as <- _. by apply Hc in Ec.
Qed.

Ltac shows :=
  respecting;
  repeat first
    [ apply with_activity_shown | apply lend_shown | apply on_host_shown | apply cached_modify_shown
    | apply call_shown; first [apply shows_invoke | apply shows_socket | apply shows_evict
                              | apply shows_prepare | apply shows_commit | apply shows_read
                              | apply shows_write | apply shows_admit | apply shows_time]
    | apply modify_shown; by intros
    | progress respecting ].

Lemma finish_pending_commit_shown i : respects calls_shown_cached (finish_pending_commit i).
Proof. unfold finish_pending_commit, cached_gets. shows. Qed.

Lemma prepare_ticket_shown i e : respects calls_shown_cached (prepare_ticket i e).
Proof. unfold prepare_ticket, cached_gets. shows. Qed.

Lemma publish_result_shown i e x n : respects calls_shown_cached (publish_result i e x n).
Proof.
  unfold publish_result, take_ticket, host_unix_millis, cached_gets. shows;
    first [apply prepare_ticket_shown | apply finish_pending_commit_shown].
Qed.

Lemma evict_shown {E} a : respects calls_shown (evict (E := E) a).
Proof. unfold evict. shows. Qed.

Lemma store_shown k c : respects calls_shown (store_cached_state k c).
Proof. unfold store_cached_state. shows. Qed.

Lemma load_state_shown k e v u : respects calls_shown (take_or_load_state k e v u).
Proof. unfold take_or_load_state, take_cached_state, load_state. shows. Qed.

Lemma publish_and_store_shown i e k c x n : respects calls_shown (publish_and_store i e k c x n).
Proof.
  unfold publish_and_store. shows;
    first [apply publish_result_shown | apply evict_shown | apply store_shown].
Qed.

Lemma execute_method_shown i st l : respects calls_shown (execute_method i st l).
Proof. unfold execute_method. shows; try apply evict_shown. all: by intros ? ? ? [= <- _]. Qed.

Lemma execute_socket_event_shown i st : respects calls_shown (execute_socket_event i st).
Proof.
  unfold execute_socket_event. shows; try apply evict_shown.
  all: by intros ? ? ? [= <- _].
Qed.

Lemma run_invocation_shown i e k c : respects calls_shown (run_invocation i e k c).
Proof.
  unfold run_invocation. shows;
    first [apply finish_pending_commit_shown | apply execute_method_shown
          | apply publish_and_store_shown | apply store_shown].
Qed.

Lemma run_socket_event_shown i p e k c : respects calls_shown (run_socket_event i p e k c).
Proof.
  unfold run_socket_event. shows;
    first [apply finish_pending_commit_shown | apply execute_socket_event_shown
          | apply publish_and_store_shown | apply store_shown].
Qed.

Lemma invoke_actor_shown i e v u : respects calls_shown (invoke_actor i e v u).
Proof.
  unfold invoke_actor, invoke_actor_once, validate_invocation, validate_operation, admit_object.
  shows; first [apply load_state_shown | apply run_invocation_shown].
Qed.

Lemma handle_socket_event_shown i e v u : respects calls_shown (handle_socket_event i e v u).
Proof.
  unfold handle_socket_event, handle_socket_event_once, validate_operation, admit_object.
  shows; first [apply load_state_shown | apply run_socket_event_shown].
Qed.

Lemma drain_shown b : respects calls_shown (drain b).
Proof. unfold drain. shows. Qed.

(** The life of a host process in a world that others move forward too. *)
Inductive host_lives : Host -> Prop :=
| LivesStart endpoint namespace w : host_lives (ActorHost_new endpoint namespace w)
| LivesInvoke h i e v u : host_lives h -> host_lives (invoke_actor i e v u h).1
| LivesSocket h i e v u : host_lives h -> host_lives (handle_socket_event i e v u h).1
| LivesDrain h b : host_lives h -> host_lives (drain b h).1
| LivesWorld h w : host_lives h -> forward (world h) w -> host_lives (with_world w [] h).

Lemma host_lives_reachable h : host_lives h -> host_reachable h.
Proof. induction 1; by constructor. Qed.

(** What a step shows of its call, when it holds ever after. *)
Context (step_forward : forall w c w', call_step w c w' -> forward w w')
        (shown : W -> Call -> Prop)
        (step_shown : forall w c w', call_step w c w' -> shown w' c)
        (shown_later : forall w w' c, forward w w' -> shown w c -> shown w' c).

Lemma all_shown h h' :
  calls_shown h h' -> Forall (shown (world h)) (trace h) -> Forall (shown (world h')) (trace h').
Proof.
  intros (calls & -> & Hs) Ht. apply Forall_app. split.
  - apply (timeline_forward _ _ step_forward) in Hs. eapply Forall_impl; [exact Ht |]. intros c. by apply shown_later.
  - apply Forall_forall. intros c (w1 & w2 & _ & Hc & Hf)%(timeline_elem _ _ step_forward _ _ _ _ Hs).
    eapply shown_later; [exact Hf | by eapply step_shown].
Qed.

Lemma host_lives_shown h : host_lives h -> Forall (shown (world h)) (trace h).
Proof.
  assert (Hrun : forall A (c : M Host Error A) h, respects calls_shown c ->
    Forall (shown (world h)) (trace h) -> Forall (shown (world (c h).1)) (trace (c h).1)).
  { intros A c h0 Hc. destruct (c h0) as [h1 r] eqn:E. apply Hc in E. by apply all_shown. }
  induction 1 as [ep ns w | h i e v u _ IH | h i e v u _ IH | h b _ IH | h w _ IH Hw].
  - constructor.
  - apply Hrun; [apply invoke_actor_shown | done].
  - apply Hrun; [apply handle_socket_event_shown | done].
  - apply Hrun; [apply drain_shown | done].
  - simpl. rewrite app_nil_r. eapply Forall_impl; [exact IH |]. intros c. by apply shown_later.
Qed.
End Shown.

(** ** A host in the cloud *)

(** What becomes of an exchange over a network. *)
Inductive Delivery := Delivered | RequestLost (e : Error) | ReplyLost (e : Error).

(** Object storage: the object a signed URL names. *)
Class SignedUrls (Signer : UrlSigner) := {
  object_of : string -> option (string * string);
  signed_url_names bucket object method ttl headers query u :
    sign_url bucket object method ttl headers query = Ok u -> object_of u = Some (bucket, object);
  empty_url_names_nothing : object_of "" = None;
}.

(** The rest of a host's surroundings: the customer's executor, the gates and the
    clock, on a state of their own. *)
Class Elsewhere `{J : Json} (X : Type) := {
  x_supports : string -> bool;
  x_invoke : ActorMethodInvocation -> option Value -> X -> X * anyhow ActorMethodOutcome;
  x_handle_socket : ActorSocketInvocation -> option Value -> X -> X * anyhow ActorSocketOutcome;
  x_evict : ActorMethodEviction -> X -> X * anyhow ();
  x_admit : ActorStorageKey -> X -> X * GateWait;
  x_time : X -> X * option Z;
}.

Section Cloud.
Context `{J : Json} {C : @SnapshotSerde J} `{B : Base64}.
Context {E : Surroundings} {T : Jwt} {Parser : UrlParser} {Signer : UrlSigner} {Signed : SignedUrls Signer}
        {Uuids : UuidParser} {Serde : CommandSerde}.
Context {X : Type} {Rest : Elsewhere X}.
(** The service, when it runs an exchange (the second the token decoder reads and
    the clock), what becomes of exchanges, how failures print, and what others
    have uploaded when an exchange ends. *)
Context (s : ControlPlaneService) (service_time : nat -> Z * option Z)
        (network storage : nat -> Delivery) (transport_error : Status -> Error)
        (debug : ControlPlaneCommandReply -> string) (display_status : Z -> string)
        (parse_url : string -> anyhow (string * option string))
        (uploads : nat -> gmap (string * string) bytes).

Record CloudWorld := {
  pg : PgState;
  authorization : string;
  objects : gmap (string * string) bytes;
  exchanges : nat;
  elsewhere : X;
}.

Definition exchanged (st : PgState) (objs : gmap (string * string) bytes) (w : CloudWorld) : CloudWorld :=
  {| pg := st; authorization := authorization w; objects := objs ∪ uploads (exchanges w);
     exchanges := S (exchanges w);
     elsewhere := elsewhere w |}.
Definition with_elsewhere (x : X) (w : CloudWorld) : CloudWorld :=
  {| pg := pg w; authorization := authorization w; objects := objects w; exchanges := exchanges w;
     elsewhere := x |}.
Definition with_authorization (a : string) (w : CloudWorld) : CloudWorld :=
  {| pg := pg w; authorization := a; objects := objects w; exchanges := exchanges w;
     elsewhere := elsewhere w |}.

Definition received {A} (d : Delivery) (r : anyhow A) : anyhow A :=
  match d with ReplyLost e => Err e | _ => r end.

(** One gRPC call of the host's client. *)
Definition control_plane_rpc (authorization : string) (request : bytes) (w : CloudWorld)
    : CloudWorld * anyhow bytes :=
  match network (exchanges w) with
  | RequestLost e => (exchanged (pg w) (objects w) w, Err e)
  | delivery =>
      let '(decode_at, elapsed) := service_time (exchanges w) in
      let '(st, r) := execute s (Some (Some authorization)) decode_at elapsed request (pg w) in
      (exchanged st (objects w) w, received delivery (map_err transport_error r))
  end.

Definition run_client {A} (c : M (CloudWorld * string) Error A) (w : CloudWorld)
    : CloudWorld * anyhow A :=
  let '((w, held), r) := c (w, authorization w) in (with_authorization held w, r).

(** [impl StateCommitAuthority for ControlPlaneClient] *)
Definition authority_prepare (actor : ActorKey) (host_id : HostId) (owner_epoch expected_version : Z)
    : CloudWorld -> CloudWorld * anyhow StateWriteTicket :=
  run_client (client_prepare_state_write control_plane_rpc debug actor host_id owner_epoch
                expected_version).
Definition authority_commit (actor : ActorKey) (host_id : HostId) (owner_epoch expected_version : Z)
    (state_object request_id : string) : CloudWorld -> CloudWorld * anyhow CommittedState :=
  run_client
    ('(state_version, next_write) ← client_commit_state control_plane_rpc debug actor host_id
        owner_epoch expected_version state_object request_id;
     mret {| committed_version := state_version; committed_next_write := next_write |}).

(** Object storage answers a PUT that must not replace an object, and a GET. *)
Definition put_object (signed_url : string) (body : bytes) (w : CloudWorld) : CloudWorld * anyhow Z :=
  match storage (exchanges w) with
  | RequestLost e => (exchanged (pg w) (objects w) w, Err e)
  | delivery =>
      let '(objs, status) :=
        match object_of signed_url with
        | None => (objects w, 403%Z)
        | Some k =>
            match objects w !! k with
            | Some _ => (objects w, 412%Z)
            | None => (<[ k := body ]> (objects w), 200%Z)
            end
        end in
      (exchanged (pg w) objs w, received delivery (Ok status))
  end.
Definition get_object (signed_url : string) (w : CloudWorld) : anyhow (Z * anyhow bytes) :=
  match storage (exchanges w) with
  | RequestLost e | ReplyLost e => Err e
  | Delivered =>
      match (k ← object_of signed_url; objects w !! k) with
      | Some body => Ok (200%Z, Ok body)
      | None => Ok (404%Z, Ok [])
      end
  end.

(** [HttpStateTransport]: nothing is sent to a URL that is not one. *)
Definition cloud_write (signed_url : string) (body : bytes) (w : CloudWorld)
    : CloudWorld * anyhow StateWrite :=
  match validate_url parse_url signed_url with
  | Err e => (w, Err e)
  | Ok _ =>
      let '(w, response) := put_object signed_url body w in
      (w, http_write parse_url signed_url response display_status)
  end.
Definition cloud_read (signed_url : string) (w : CloudWorld) : CloudWorld * anyhow LoadedState :=
  match validate_url parse_url signed_url with
  | Err e => (w, Err e)
  | Ok _ =>
      (exchanged (pg w) (objects w) w,
       http_read parse_url signed_url (get_object signed_url w) display_status)
  end.

Definition aside {A} (f : X -> X * A) (w : CloudWorld) : CloudWorld * A :=
  let '(x, a) := f (elsewhere w) in (with_elsewhere x w, a).

#[export] Instance cloud_env : HostEnv CloudWorld := {|
  supports := x_supports;
  executor_invoke_with_state i st := aside (x_invoke i st);
  executor_handle_socket_with_state i st := aside (x_handle_socket i st);
  executor_evict e := aside (x_evict e);
  prepare_state_write := authority_prepare;
  commit_state := authority_commit;
  transport_read := cloud_read;
  transport_write := cloud_write;
  executions_admit k := aside (x_admit k);
  system_time := aside x_time;
|}.

(** ** The cloud is faithful *)

(** Placements evolve and stored objects stay. *)
Definition cloud_forward (w w' : CloudWorld) : Prop :=
  evolves (database (pg w)) (database (pg w')) /\ objects w ⊆ objects w'.

#[export] Instance cloud_forward_preorder : PreOrder cloud_forward.
Proof.
  split.
  - intros w. by split.
  - intros w1 w2 w3 [? ?] [? ?]. split; by etrans.
Qed.

(** The ticket's URL is the one of its object. *)
Definition ticket_signed (t : StateWriteTicket) : Prop :=
  exists bucket, object_of (url t) = Some (bucket, object_name t).

(** The table came to show the placement that a commit reports. *)
Definition head_committed (db : Database) (actor : ActorKey) (v : Z) (obj rq : string) : Prop :=
  exists db0 p, evolves db0 db /\ shows db0 p /\ committed_head actor v obj rq p.

Definition cloud_shown (w : CloudWorld) (c : Call) : Prop :=
  match c with
  | CallPrepare _ _ _ (Ok t) => ticket_signed t
  | CallCommit a _ v obj rq (Ok cm) =>
      head_committed (database (pg w)) a (v + 1) obj rq /\
      forall t, committed_next_write cm = Some t -> ticket_signed t
  | CallWrite u b (Ok wr) =>
      exists k b', object_of u = Some k /\ objects w !! k = Some b' /\ (wr = Written -> b' = b)
  | _ => True
  end.

(** The step of a call: the world moves forward, and the answer shows what was
    done or found on the way. *)
Definition cloud_step (w : CloudWorld) (c : Call) (w' : CloudWorld) : Prop :=
  cloud_forward w w' /\
  match c with
  | CallPrepare _ _ _ (Ok t) => ticket_signed t
  | CallCommit a _ v obj rq (Ok cm) =>
      (exists p, placement_shown (pg w) (pg w') p /\ committed_head a (v + 1) obj rq p) /\
      forall t, committed_next_write cm = Some t -> ticket_signed t
  | CallWrite u b (Ok wr) =>
      exists k b', object_of u = Some k /\ objects w' !! k = Some b' /\ (wr = Written -> b' = b)
  | CallRead u (Ok l) => exists k, object_of u = Some k /\ objects w' !! k = Some (ls_bytes l)
  | _ => True
  end.

Lemma cloud_step_forward w c w' : cloud_step w c w' -> cloud_forward w w'.
Proof. by intros [? _]. Qed.

Lemma exchanged_forward st objs w :
  evolves (database (pg w)) (database st) -> objects w ⊆ objs -> cloud_forward w (exchanged st objs w).
Proof.
  intros Hev Hobj. split; [done |]. simpl. etrans; [exact Hobj |]. apply map_union_subseteq_l.
Qed.

(** One call is a timeline when it is a step. *)
Lemma shows_step {A} (f : CloudWorld -> CloudWorld * A) log :
  (forall w w' a, f w = (w', a) -> cloud_step w (log a) w') ->
  shows_call cloud_forward cloud_step f (fun a => [log a]).
Proof.
  intros Hf w w' a H. apply Hf in H. eapply TimelineCall; [reflexivity | done |]. by apply TimelineQuiet.
Qed.

Section CloudLaws.
Context (R : rely weather) {SerdeLaws : CommandSerdeLaws Serde}.

Lemma execute_Ok metadata decode_at elapsed request st st' r :
  execute s metadata decode_at elapsed request st = (st', r) ->
  evolves (database st) (database st') /\
  forall b, r = Ok b -> exists p command reply, command_from_slice request = Ok command /\
    execute_command s p command st = (st', Ok reply) /\ reply_to_vec reply = Ok b.
Proof.
  unfold execute. destruct (authenticate _ _ _ _) as [p | e]; [| by intros [= <- <-]].
  destruct (command_from_slice request) as [command | e]; [| by intros [= <- <-]].
  destruct (execute_command s p command st) as [st1 r1] eqn:Ex. intros [= <- <-].
  split; [by eapply execute_command_advances |]. intros b Hb.
  destruct r1 as [reply | e]; [| done]. exists p, command, reply. split_and!; [done | done |].
  simpl in Hb. by destruct (reply_to_vec reply); simplify_eq/=.
Qed.

Lemma control_plane_rpc_Ok a request w w' r :
  control_plane_rpc a request w = (w', r) ->
  cloud_forward w w' /\
  forall b, r = Ok b -> exists p command reply, command_from_slice request = Ok command /\
    execute_command s p command (pg w) = (pg w', Ok reply) /\ reply_to_vec reply = Ok b.
Proof.
  unfold control_plane_rpc. intros H.
  destruct (network (exchanges w)) as [| e | e]; [| injection H as <- <-; split; [by apply exchanged_forward | done] |];
    destruct (service_time (exchanges w)) as [at_ elapsed];
    destruct (execute _ _ _ _ _ _) as [st r1] eqn:Ex; apply execute_Ok in Ex as [Hev Hr];
    injection H as <- <-; (split; [by apply exchanged_forward |]); intros b Hb; [| done].
  apply Hr. by destruct r1; simplify_eq/=.
Qed.

Lemma client_execute_Ok command w held w' held' r :
  client_execute control_plane_rpc command (w, held) = ((w', held'), r) ->
  cloud_forward w w' /\
  forall reply, r = Ok reply -> exists p, execute_command s p command (pg w) = (pg w', Ok reply).
Proof.
  unfold client_execute, mbind, M_bind, lift, gets, M_context.
  destruct (command_to_vec command) as [request | e] eqn:Hc; [| by intros [= <- <- <-]].
  apply command_round_trip in Hc. simpl.
  destruct (control_plane_rpc held request w) as [w1 r1] eqn:Hrpc.
  apply control_plane_rpc_Ok in Hrpc as [Hf Hr].
  destruct r1 as [b | e]; simpl; intros [= <- <- <-]; (split; [done |]); intros reply Hreply; [| done].
  apply with_context_Ok in Hreply. destruct (Hr b eq_refl) as (p & command' & reply' & Hc' & Hx & Hb).
  apply reply_round_trip in Hb. exists p. congruence.
Qed.

Lemma write_ticket_signed region a v st st' t :
  state_write_ticket s region a v st = (st', Ok t) -> ticket_signed t.
Proof.
  unfold state_write_ticket, at_time. intros H. inv_client. unfold gets in *. simplify_eq.
  match goal with H : write_ticket _ _ _ _ _ _ = Ok _ |- _ => unfold write_ticket in H; inv_ok end.
  eexists. by eapply signed_url_names.
Qed.

(** Running the client in the world. *)
Lemma run_client_Ok {A} (c : M (CloudWorld * string) Error A) w w' r :
  run_client c w = (w', r) -> exists w1 held, c (w, authorization w) = ((w1, held), r) /\
    w' = with_authorization held w1.
Proof. unfold run_client. destruct (c _) as [[w1 held] r1]. intros [= <- <-]. eauto. Qed.

Lemma authority_prepare_steps a h e v w w' r :
  authority_prepare a h e v w = (w', r) -> cloud_step w (CallPrepare a e v r) w'.
Proof.
  intros (w1 & held & H & ->)%run_client_Ok.
  unfold client_prepare_state_write, mbind, M_bind in H.
  destruct (client_execute _ _ _) as [[w2 held2] reply] eqn:Hx. apply client_execute_Ok in Hx as [Hf Hr].
  destruct reply as [reply | err]; injection H as -> -> <-; (split; [done |]); [| done].
  destruct reply as [| | t | ]; try done. destruct (Hr _ eq_refl) as [p Hp].
  apply state_write_prepared in Hp as (region & st1 & st2 & Ht). by apply write_ticket_signed in Ht.
Qed.

Lemma authority_commit_steps a h e v obj rq w w' r :
  authority_commit a h e v obj rq w = (w', r) -> cloud_step w (CallCommit a e v obj rq r) w'.
Proof.
  intros (w1 & held & H & ->)%run_client_Ok.
  unfold client_commit_state, mbind, M_bind in H.
  destruct (client_execute _ _ _) as [[w2 held2] reply] eqn:Hx. apply client_execute_Ok in Hx as [Hf Hr].
  destruct reply as [reply | err]; [| injection H as -> -> <-; by split].
  destruct reply as [| | t | v' next]; injection H as -> -> <-; (split; [done |]); try done.
  destruct (Hr _ eq_refl) as [p Hp]. split.
  - by apply (state_committed_facts R) in Hp as (_ & _ & _ & -> & _ & _ & Hhead & _).
  - simpl. intros t ->. apply state_committed_ticket in Hp as (region & st1 & st2 & v'' & Ht).
    by apply write_ticket_signed in Ht.
Qed.

Lemma put_object_Ok u b w w' response :
  put_object u b w = (w', response) ->
  cloud_forward w w' /\
  forall status, response = Ok status -> status = 412%Z \/ is_success status = true ->
    exists k b', object_of u = Some k /\ objects w' !! k = Some b' /\ (status <> 412%Z -> b' = b).
Proof.
  unfold put_object. intros H.
  destruct (storage (exchanges w)) as [| e | e];
    [| injection H as <- <-; split; [by apply exchanged_forward | done] |];
    (destruct (object_of u) as [k |] eqn:Ho;
     [destruct (objects w !! k) as [b0 |] eqn:Hk |]); injection H as <- <-;
    (split; [apply exchanged_forward; try done; by apply insert_subseteq |]);
    intros status Hs Hok; simplify_eq/=.
  - exists k, b0. split_and!; try done. by apply lookup_union_Some_l.
  - exists k, b. split_and!; try done. by apply lookup_union_Some_l, lookup_insert_eq.
  - by destruct Hok.
Qed.

Lemma cloud_write_steps u b w w' r : cloud_write u b w = (w', r) -> cloud_step w (CallWrite u b r) w'.
Proof.
  unfold cloud_write. intros H.
  destruct (validate_url _ _) as [[] | e] eqn:Hu; [| by injection H as <- <-].
  destruct (put_object u b w) as [w1 response] eqn:Hput. injection H as <- <-.
  apply put_object_Ok in Hput as [Hf Hstored]. split; [done |].
  simpl. destruct (http_write _ _ _ _) as [wr | e] eqn:Hw; [| done].
  unfold http_write in Hw. rewrite Hu in Hw. simpl in Hw.
  destruct response as [status | e]; [simpl in Hw | done].
  destruct (status =? 412)%Z eqn:H412.
  - apply Z.eqb_eq in H412. injection Hw as <-.
    destruct (Hstored _ eq_refl) as (k & b' & ? & ? & _); [by left |]. by exists k, b'.
  - apply Z.eqb_neq in H412. inv_ok.
    destruct (Hstored _ eq_refl) as (k & b' & ? & ? & Hb); [by right |]. exists k, b'. auto.
Qed.

Lemma cloud_read_steps u w w' r : cloud_read u w = (w', r) -> cloud_step w (CallRead u r) w'.
Proof.
  unfold cloud_read. intros H.
  destruct (validate_url _ _) as [[] | e] eqn:Hu; [| by injection H as <- <-].
  injection H as <- Hr. split; [by apply exchanged_forward |]. destruct r as [l | e]; [| done].
  unfold http_read in Hr. rewrite Hu in Hr. simpl in Hr. unfold get_object in Hr.
  destruct (storage _); [| done..]. unfold mbind, option_bind in Hr.
  destruct (object_of u) as [k |]; [| done]. destruct (objects w !! k) as [b |] eqn:Hk; [| done].
  simpl in Hr. injection Hr as <-. exists k. split; [done |]. simpl. by apply lookup_union_Some_l.
Qed.

Lemma aside_forward {A} (f : X -> X * A) w w' a : aside f w = (w', a) -> cloud_forward w w'.
Proof. unfold aside. destruct (f (elsewhere w)) as [x a']. intros [= <- _]. by split. Qed.

Lemma cloud_step_shown w c w' : cloud_step w c w' -> cloud_shown w' c.
Proof.
  intros [_ H]. destruct c as [| | | | a e v obj rq [cm |] | | u b [wr |]]; simpl in *; try done.
  destruct H as [(p & (db & _ & Hdb & Hs) & Hhead) ?]. split; [by exists db, p | done].
Qed.

Lemma cloud_shown_later w w' c : cloud_forward w w' -> cloud_shown w c -> cloud_shown w' c.
Proof.
  intros [Hev Hobj]. destruct c as [| | | | a e v obj rq [cm |] | | u b [wr |]]; simpl; try done.
  - intros [(db & p & Hdb & ?) ?]. split; [| done]. exists db, p. split; [by etrans | done].
  - intros (k & b' & Hk & Hb & ?). exists k, b'. split_and!; [done | | done].
    by eapply lookup_weaken.
Qed.

#[export] Instance cloud_faithful : FaithfulEnv cloud_forward cloud_step.
Proof.
  split.
  - intros i st. apply shows_step. intros w w' a H. split; [exact (aside_forward _ _ _ _ H) | done].
  - intros i st. apply shows_step. intros w w' a H. split; [exact (aside_forward _ _ _ _ H) | done].
  - intros i. apply shows_step. intros w w' a H. split; [exact (aside_forward _ _ _ _ H) | done].
  - intros a h e v. apply shows_step, authority_prepare_steps.
  - intros a h e v obj rq. apply shows_step. intros w w' cm. apply authority_commit_steps.
  - intros u. apply shows_step, cloud_read_steps.
  - intros u b. apply shows_step, cloud_write_steps.
  - intros k w w' a H. constructor. exact (aside_forward _ _ _ _ H).
  - intros w w' a H. constructor. exact (aside_forward _ _ _ _ H).
Qed.

(** ** What an answer is worth *)

Abbreviation CloudHost := (ActorHost (W := CloudWorld)).

(** The head of the actor in the database, now: it is this commit or a later one. *)
Lemma head_committed_now db actor v obj rq :
  head_committed db actor v obj rq ->
  exists row, placements db !! storage_key actor = Some row /\ (v <= row_state_version row)%Z /\
    (row_state_version row = v -> row_state_object row = Some obj /\ row_last_request_id row = Some rq).
Proof.
  intros (db0 & p & Hev & (row & Hrow & ->) & Hobj & Hv & Ho & Hrq). simpl in *.
  rewrite Hobj in Hrow. apply Hev in Hrow as (row' & Hrow' & _ & _ & Hle & _ & Hsame).
  exists row'. split_and!; [done | lia |]. intros Heq.
  destruct Hsame as [-> ->]; [lia |]. by rewrite Ho, Hrq.
Qed.

(** A ticket the control plane answered with is signed. *)
Lemma answered_signed w calls t :
  (forall c, c ∈ calls -> cloud_shown w c) -> answered calls t -> ticket_signed t.
Proof.
  intros Hall [(a & e & v & H) | (a & e & v & obj & rq & cm & H & Hn)]; apply Hall in H; [done |].
  simpl in H. destruct H as [_ H]. by apply H.
Qed.

(** C6: A host that answers "completed" for an invocation that changed the actor's state has made it
    durable in the whole system, whatever messages were lost on the way: the placement table shows
    the actor at this version or a later one, and at exactly this version it names the object and
    this request; and object storage holds that object, whose bytes are the snapshot with the new
    state, the answered result and the request, unless somebody had already used the name. *)
Theorem completed_reaches_the_database (i : ActorInvocation) (e v : Z) (u : string)
    (h h' : CloudHost) (value : Value) (effects : list ActorSocketEffect) :
  host_lives cloud_forward h ->
  invoke_actor i e v u h = (h', Ok (Completed value effects)) ->
  exists calls c', trace h' = (trace h ++ calls)%list /\
    cached_state h' !! storage_key (actor i) = Some c' /\
    (answered_from_record i value effects calls c' \/ left_unchanged i value effects calls c' \/
     exists snap body object_name bucket stored row,
       encode snap = Ok body /\ StateLog.request_id snap = Identity.request_id i /\
       result snap = value /\ c_state c' = Some (state snap) /\
       placements (database (pg (world h'))) !! storage_key (actor i) = Some row /\
       (StateLog.state_version snap <= row_state_version row)%Z /\
       (row_state_version row = StateLog.state_version snap ->
          row_state_object row = Some object_name /\
          row_last_request_id row = Some (Identity.request_id i)) /\
       objects (world h') !! (bucket, object_name) = Some stored /\
       (stored = body \/ exists url, CallWrite url body (Ok AlreadyExists) ∈ calls)).
Proof.
  intros Hlives Hrun.
  pose proof (completed_under_answered_ticket _ _ _ _ _ _ _ _ (host_lives_reachable _ _ Hlives) Hrun)
    as (calls & c' & Ht & Hc & Hcases).
  exists calls, c'. split; [done |]. split; [done |].
  destruct Hcases as [? | [? | (t & Hunder & Hans)]]; [auto | auto |]. right; right.
  assert (host_lives cloud_forward h') as Hlives'.
  { replace h' with (invoke_actor i e v u h).1 by (by rewrite Hrun). by constructor. }
  apply (host_lives_shown cloud_forward cloud_step cloud_step_forward cloud_shown cloud_step_shown cloud_shown_later)
    in Hlives'. rewrite Forall_forall in Hlives'.
  apply (answered_signed (world h')) in Hans as [bucket Hbucket]; [| done].
  destruct Hunder as (before & snap & body & w & cm & -> & Henc & _ & Hrq & Hval & _ & _ & Hst & _).
  assert (cloud_shown (world h') (CallWrite (url t) body (Ok w))) as (k & stored & Hk & Hstored & Hw).
  { apply Hlives'. rewrite Ht. set_solver. }
  assert (cloud_shown (world h') (CallCommit (actor i) (c_owner_epoch c')
            (StateLog.state_version snap - 1) (object_name t) (Identity.request_id i) (Ok cm)))
    as [Hhead _].
  { apply Hlives'. rewrite Ht. set_solver. }
  rewrite Z.sub_add in Hhead. apply head_committed_now in Hhead as (row & Hrow & Hle & Heq).
  exists snap, body, (object_name t), bucket, stored, row. split_and!; try done; [congruence |].
  destruct w; [left; by apply Hw | right; exists (url t); set_solver].
Qed.
End CloudLaws.
End Cloud.

(** ** A small system

    A deployment with one counter, its host, and a wire that knows the messages
    of one invocation. *)

(** Messages numbered by a list of those that are known. *)
Section Known.
Context {A : Type} `{!EqDecision A} (known : list A).
Definition known_to_vec (x : A) : anyhow bytes :=
  match list_find (fun y => y = x) known with
  | Some (n, _) => Ok (replicate n Byte.x00)
  | None => Err ["unknown message"]
  end.
Definition known_from_slice (b : bytes) : anyhow A := some_or "unknown message" (known !! length b).
Lemma known_round_trip x b : known_to_vec x = Ok b -> known_from_slice b = Ok x.
Proof.
  unfold known_to_vec, known_from_slice.
  destruct (list_find _ known) as [[n y] |] eqn:H; [| done]. intros [= <-].
  apply list_find_Some in H as (Hn & -> & _). rewrite length_replicate. by rewrite Hn.
Qed.
End Known.

(** A URL is its bucket and object, the bucket without a question mark. *)
#[local] Instance marked_signer : UrlSigner := {|
  sign_url bucket object _ _ _ _ :=
    if contains_char "?" bucket then Err ["unsupported bucket"]
    else Ok ("https://" +:+ (bucket +:+ String "?" object)) |}.
#[local] Instance marked_urls : SignedUrls marked_signer.
Proof.
  refine {| object_of u :=
    match strip_prefix "https://" u with
    | Some rest =>
        match split_char "?" rest with
        | bucket :: rest => Some (bucket, join_char "?" rest)
        | [] => None
        end
    | None => None
    end |}.
  2: done.
  intros bucket object method ttl headers query u. simpl sign_url.
  destruct (contains_char "?" bucket) eqn:Hb; [done |]. intros [= <-].
  rewrite strip_prefix_append, split_char_append by done. by rewrite join_split_char.
Defined.

Definition system_database : Database := {|
  host_leases := {[ Tokens.sample_host := {| row_session_id := sample_session; row_route := "https://h";
                                      row_expires_at_ms := 5000000 |} ]};
  placements := {[ storage_key sample_actor :=
    {| row_owner_host_id := Tokens.sample_host; row_owner_epoch := 3; row_home_region := "eu";
       row_state_version := 0; row_state_object := None; row_last_request_id := None |} ]};
  namespaces := {[ "acme" ]}; project_specs := ∅ |}.
Definition system_start : PgState := {| database := system_database; Database.statements := 0 |}.

Section Sample.
#[local] Existing Instance calm_surroundings.

Definition system_service : ControlPlaneService :=
  {| storage_urls := {| buckets := {[ "eu" := "objects" ]} |};
     auth := sample_verifier "control" Tokens.ControlPlane;
     host_token_issuer := Some sample_issuer; routing := None |}.

Definition host_authorization : string :=
  match issue_host sample_issuer (Some 1000000%Z) "acme" Tokens.sample_host sample_session "r1" "eu" with
  | Ok issued => "Bearer " +:+ token issued
  | Err _ => ""
  end.

(** The messages of one invocation. *)
Definition sample_object : string :=
  "snapshots/01/0123456789abcdef0123456789abcdef/acme/Counter/1/1.json".
Definition sample_commands : list ControlPlaneCommand := [
  PrepareStateWrite sample_actor Tokens.sample_host 3 0;
  CommitState sample_actor Tokens.sample_host 3 0 sample_object "req-1"].
Definition object_ticket (v : Z) (object_name : string) : StateWriteTicket :=
  {| StorageUrls.state_version := v; StorageUrls.object_name := object_name;
     url := "https://projects/_/buckets/objects?" +:+ object_name; expires_at_ms := 1060000 |}.
Definition sample_replies : list ControlPlaneCommandReply := [
  StateWriteTicketReply (object_ticket 1 sample_object);
  StateCommitted 1 (Some (object_ticket 2
    "snapshots/01/0123456789abcdef0123456789abcdef/acme/Counter/1/2.json"))].
#[local] Instance known_messages : CommandSerde := {|
  command_to_vec := known_to_vec sample_commands; command_from_slice := known_from_slice sample_commands;
  reply_to_vec := known_to_vec sample_replies; reply_from_slice := known_from_slice sample_replies |}.
#[local] Instance known_messages_laws : CommandSerdeLaws known_messages.
Proof. split; intros x b; apply known_round_trip. Defined.

(** An executor that counts to one. *)
#[local] Instance counting : Elsewhere (J := text_json) () := {|
  x_supports t := String.eqb t "Counter";
  x_invoke _ _ x := (x, Ok (MethodCompleted (J := text_json) "1" "{n}" []));
  x_handle_socket _ _ x := (x, Ok (Handled (J := text_json) "{n}" []));
  x_evict _ x := (x, Ok tt);
  x_admit _ x := (x, {| gate_admission := Ok true; drained_meanwhile := false |});
  x_time x := (x, Some 1000000%Z) |}.
Definition https_url (u : string) : anyhow (string * option string) :=
  match strip_prefix "https://" u with Some _ => Ok ("https", Some "storage") | None => Err ["no URL"] end.
#[local] Instance sample_cloud : HostEnv (J := text_json) (CloudWorld (X := ())) :=
  cloud_env system_service (fun _ => (1000%Z, Some 1000000%Z)) (fun _ => Delivered) (fun _ => Delivered)
    (fun e => [status_message e]) (fun _ => "reply") (fun _ => "status") https_url (fun _ => ∅).

Definition system_host : ActorHost (J := text_json) (W := CloudWorld (X := ())) :=
  ActorHost_new {| endpoint_id := Tokens.sample_host; endpoint_route := "https://h" |} "acme"
    {| pg := system_start; authorization := host_authorization; objects := ∅; exchanges := 0;
       elsewhere := () |}.
Definition system_invocation : ActorInvocation (J := text_json) :=
  {| Identity.request_id := "req-1"; actor := sample_actor; method := "increment"; args := [] |}.

Definition system_answer : ActorHost (J := text_json) (W := CloudWorld (X := ())) * anyhow _ :=
  invoke_actor system_invocation 3 0 "" system_host.

Lemma completed_reaches_the_database_witness :
  system_answer.2 = Ok (Completed (J := text_json) "1" []) /\
  (exists calls c', trace system_answer.1 = (trace system_host ++ calls)%list /\
     cached_state system_answer.1 !! storage_key sample_actor = Some c') /\
  objects (world system_answer.1) !! ("projects/_/buckets/objects", sample_object) <> None.
Proof.
  split; [vm_compute; reflexivity |]. split; [| vm_compute; discriminate].
  destruct system_answer as [h' r] eqn:H.
  assert (r = Ok (Completed (J := text_json) "1" [])) as ->.
  { change r with (h', r).2. rewrite <- H. vm_compute. reflexivity. }
  destruct (completed_reaches_the_database system_service (fun _ => (1000%Z, Some 1000000%Z))
    (fun _ => Delivered) (fun _ => Delivered) (fun e => [status_message e]) (fun _ => "reply")
    (fun _ => "status") https_url (fun _ => ∅) calm_surroundings_rely system_invocation 3 0 "" system_host h' "1" []
    (LivesStart _ _ _ _) H) as (calls & c' & Ht & Hc & _).
  exists calls, c'. exact (conj Ht Hc).
Defined.
End Sample.
