(* ===== verification/Lineage.v ===== *)
(** * The chain of states

    What the commits of a host are worth for the actor's state over time.  In the
    cloud of [System], a host that is asked to run an actor at a version the
    placement table showed, with a URL of that version's object, only ever
    commits what its executor answered when it was handed the state stored for
    the version before: every commit extends the chain of states by one link,
    whatever messages were lost, however often the host kept the state in
    memory, and whichever other hosts took part.  What the executor does with
    the state it is handed is in Residency.v. *)
From S2P Require Import Prelude Net Json Identity SocketProtocol StateLog StorageUrls Tokens Database Leases Placement ControlPlane ControlPlaneSafety ActorHost HostRuns HostSafety System.
Local Open Scope string_scope.

(** ** Links of the chain *)

Section Links.
Context `{J : Json} {C : @SnapshotSerde J} `{B : Base64}.
Context {Signer : UrlSigner} {Signed : SignedUrls Signer} {X : Type}.

Abbreviation World := (CloudWorld (X := X)).
Abbreviation calls_from := (timeline (cloud_forward (X := X)) cloud_step).

(** The state a row of the placement table stands for: none yet, or that of a
    snapshot of the row's version, stored under the row's object. *)
Definition row_state (objs : gmap (string * string) bytes) (row : PlacementRow) (st : option Value)
    : Prop :=
  (row_state_version row = 0%Z /\ row_state_object row = None /\ st = None) \/
  exists bucket obj body s, row_state_object row = Some obj /\ objs !! (bucket, obj) = Some body /\
    decode body = Ok s /\ StateLog.state_version s = row_state_version row /\ st = Some (state s).

(** The table came to show the actor at version [v], with the state [st]. *)
Definition head_at (w : World) (k : ActorStorageKey) (v : Z) (st : option Value) : Prop :=
  exists db row, evolves db (database (pg w)) /\ placements db !! k = Some row /\
    row_state_version row = v /\ row_state (objects w) row st.

(** In one of the calls the host handed the state [st] to its executor, for the
    request of [s], and was answered the state and the result of [s]. *)
Definition answered_from (calls : list Call) (k : ActorStorageKey) (st : option Value) (s : StateSnapshot)
    : Prop :=
  (exists i effects, CallInvoke i (Ok (MethodCompleted (result s) (state s) effects)) ∈ calls /\
     storage_key (mi_actor i) = k /\ mi_state i = st /\ mi_request_id i = StateLog.request_id s) \/
  (exists i effects, CallSocket i (Ok (Handled (state s) effects)) ∈ calls /\
     storage_key (si_actor i) = k /\ si_state i = st /\ si_request_id i = StateLog.request_id s /\
     result s = Null).

(** The commit of version [v + 1] is a link: from the row at version [v] with the
    state [st] to the row that names [obj] and [rq], whose object holds the
    snapshot [s]. *)
Definition link (w : World) (k : ActorStorageKey) (v : Z) (obj rq : string) (st : option Value)
    (s : StateSnapshot) : Prop :=
  exists db row db' row' bucket body,
    evolves db db' /\ evolves db' (database (pg w)) /\
    placements db !! k = Some row /\ row_state_version row = v /\ row_state (objects w) row st /\
    placements db' !! k = Some row' /\ row_state_version row' = (v + 1)%Z /\
    row_state_object row' = Some obj /\ row_last_request_id row' = Some rq /\
    objects w !! (bucket, obj) = Some body /\ encode s = Ok body /\
    StateLog.state_version s = (v + 1)%Z /\ StateLog.request_id s = rq.

(** Such a link, whose snapshot was answered from that very state. *)
Definition linked (w : World) (before : list Call) (k : ActorStorageKey) (v : Z) (obj rq : string)
    : Prop :=
  exists st s, link w k v obj rq st s /\ answered_from before k st s.

(** An upload that found its name taken. *)
Definition name_taken (c : Call) : bool :=
  match c with CallWrite _ _ (Ok AlreadyExists) => true | _ => false end.

Definition commits_linked (w : World) (calls : list Call) : Prop :=
  none_of name_taken calls -> forall before a e v obj rq cm later,
    calls = (before ++ CallCommit a e v obj rq (Ok cm) :: later)%list ->
    linked w before (storage_key a) v obj rq.

(** What is resident for an actor is the state of a head, and a pending commit is
    the next link. *)
Definition pending_linked (w : World) (calls : list Call) (k : ActorStorageKey) (c : CachedActorState)
    (p : PendingStateCommit) : Prop :=
  StateLog.state_version (snapshot p) = (c_state_version c + 1)%Z /\
  answered_from calls k (c_state c) (snapshot p) /\
  exists bucket body, encode (snapshot p) = Ok body /\
    objects w !! (bucket, object_name (ticket p)) = Some body.
Definition resident_linked (w : World) (calls : list Call) (k : ActorStorageKey)
    (c : CachedActorState) : Prop :=
  (forall t, c_next_write c = Some t -> ticket_signed t) /\
  (none_of name_taken calls -> head_at w k (c_state_version c) (c_state c) /\
     forall p, c_pending c = Some p -> pending_linked w calls k c p).

(** *** All of it holds ever after *)

Lemma row_state_later objs objs' row st : objs ⊆ objs' -> row_state objs row st -> row_state objs' row st.
Proof.
  intros Hsub [? | (bucket & obj & body & s & ? & ? & ?)]; [by left | right].
  exists bucket, obj, body, s. split_and!; try done; [by eapply lookup_weaken | tauto..].
Qed.

Lemma head_at_later w w' k v st : cloud_forward w w' -> head_at w k v st -> head_at w' k v st.
Proof.
  intros [Hev Hobj] (db & row & Hdb & ? & ? & ?). exists db, row.
  split_and!; [by etrans | done | done | by eapply row_state_later].
Qed.

Lemma answered_from_app calls calls' k st s : answered_from calls k st s -> answered_from (calls ++ calls') k st s.
Proof.
  intros [(i & eff & Hi & ?) | (i & eff & Hi & ?)]; [left | right];
    exists i, eff; (split; [apply elem_of_app; by left | done]).
Qed.

Lemma linked_later w w' before k v obj rq :
  cloud_forward w w' -> linked w before k v obj rq -> linked w' before k v obj rq.
Proof.
  intros [Hev Hobj] (st & s & (db & row & db' & row' & bucket & body & ? & ? & ? & ? & ? & H) & Hans).
  exists st, s. split; [| done]. exists db, row, db', row', bucket, body.
  destruct H as (? & ? & ? & ? & ? & H). split_and!; try done; try tauto.
  - by etrans.
  - by eapply row_state_later.
  - by eapply lookup_weaken.
Qed.

Lemma commits_linked_later w w' calls :
  cloud_forward w w' -> commits_linked w calls -> commits_linked w' calls.
Proof. intros Hf H Hn before a e v obj rq cm later Hc. eapply linked_later; [done |]. by eapply H. Qed.

Lemma resident_linked_later w w' calls calls' k c :
  cloud_forward w w' -> resident_linked w calls k c -> resident_linked w' (calls ++ calls') k c.
Proof.
  intros Hf [Ht H]. split; [done |]. intros [Hn _]%none_of_app. destruct (H Hn) as [Hh Hp].
  split; [by eapply head_at_later |]. intros p Hpend.
  destruct (Hp p Hpend) as (? & ? & bucket & body & ? & ?).
  split_and!; [done | by apply answered_from_app |]. exists bucket, body. split; [done |].
  eapply lookup_weaken; [done | apply Hf].
Qed.

(** *** One more call *)

Lemma commits_linked_snoc w calls c :
  commits_linked w calls ->
  (none_of name_taken calls -> forall a e v obj rq cm, c = CallCommit a e v obj rq (Ok cm) ->
     linked w calls (storage_key a) v obj rq) ->
  commits_linked w (calls ++ [c]).
Proof.
  intros Hl Hc [Hn _]%none_of_app before a e v obj rq cm later H.
  destruct later as [| x later] using rev_ind.
  - apply app_inj_tail in H as [-> ->]. by eapply Hc.
  - rewrite app_comm_cons, app_assoc in H. apply app_inj_tail in H as [-> _]. by eapply Hl.
Qed.

Lemma commits_linked_others w calls calls' :
  commits_linked w calls -> none_of is_commit calls' -> commits_linked w (calls ++ calls').
Proof.
  intros Hl Hn. induction calls' as [| x calls' IH] using rev_ind; [by rewrite app_nil_r |].
  apply none_of_app in Hn as [Hn Hx]. rewrite app_assoc. apply commits_linked_snoc; [auto |].
  intros _ a e v obj rq cm ->. by inversion Hx.
Qed.

Lemma call_timeline w c w' : calls_from w [c] w' ->
  exists w1 w2, cloud_forward w w1 /\ cloud_step w1 c w2 /\ cloud_forward w2 w'.
Proof. intros H. apply (timeline_elem _ _ cloud_step_forward _ _ _ _ H). by left. Qed.

Lemma calls_forward w calls w' : calls_from w calls w' -> cloud_forward w w'.
Proof. apply (timeline_forward _ _ cloud_step_forward). Qed.

(** ** What a host does extends the chain *)

(** Running [calls] on the resident state [c], which becomes [c'], keeps every
    link; [P] is what the calls before must have shown. *)
Definition extends_if (P : list Call -> Prop) (k : ActorStorageKey) (c : CachedActorState)
    (calls : list Call) (c' : CachedActorState) : Prop :=
  forall w w' before, calls_from w calls w' -> P before ->
    resident_linked w before k c -> commits_linked w before ->
    resident_linked w' (before ++ calls) k c' /\ commits_linked w' (before ++ calls).
Abbreviation extends := (extends_if (fun _ => True)).

Lemma extends_trans P Q k c calls c1 calls' c2 :
  extends_if P k c calls c1 -> (forall before, P before -> Q (before ++ calls)%list) ->
  extends_if Q k c1 calls' c2 -> extends_if P k c (calls ++ calls') c2.
Proof.
  intros H1 HPQ H2 w w' before (wm & Hc1 & Hc2)%timeline_app HP Hr Hl; [| apply _].
  destruct (H1 _ _ _ Hc1 HP Hr Hl) as [Hr1 Hl1]. rewrite app_assoc. eapply H2; eauto.
Qed.

Lemma extends_others P k c calls : none_of is_commit calls -> extends_if P k c calls c.
Proof.
  intros Hn w w' before Hc%calls_forward _ Hr Hl. split; [by eapply resident_linked_later |].
  apply commits_linked_others; [by eapply commits_linked_later | done].
Qed.

(** A commit that succeeds moves the head by one version. *)
Lemma commit_moves (w : World) a e v obj rq cm w' :
  cloud_step w (CallCommit a e v obj rq (Ok cm)) w' ->
  (exists db' row', evolves (database (pg w)) db' /\ evolves db' (database (pg w')) /\
     placements db' !! storage_key a = Some row' /\ row_state_version row' = (v + 1)%Z /\
     row_state_object row' = Some obj /\ row_last_request_id row' = Some rq) /\
  forall t, committed_next_write cm = Some t -> ticket_signed t.
Proof.
  intros (_ & (p & (db & H1 & H2 & (row & Hrow & ->)) & (Hk & Hv & Ho & Hrq)) & Ht).
  split; [| done]. simpl in *. rewrite Hk in Hrow. by exists db, row.
Qed.

Context {SnapLaws : SnapshotSerdeLaws C}.

(** The pending snapshot of [c] is committed: a link, and the head it leaves. *)
Lemma pending_commit_links w w' before a c p e cm obj rq :
  cloud_step w (CallCommit a e (c_state_version c) obj rq (Ok cm)) w' ->
  obj = object_name (ticket p) -> rq = StateLog.request_id (snapshot p) ->
  head_at w (storage_key a) (c_state_version c) (c_state c) ->
  pending_linked w before (storage_key a) c p ->
  linked w' before (storage_key a) (c_state_version c) obj rq /\
  head_at w' (storage_key a) (StateLog.state_version (snapshot p)) (Some (state (snapshot p))).
Proof.
  intros Hs -> -> (db & row & Hdb & Hrow & Hv & Hst) (Hsv & Hcomp & bucket & body & Henc & Hbody).
  pose proof (cloud_step_forward _ _ _ Hs) as [Hev Hobj].
  apply commit_moves in Hs as [(db' & row' & H1 & H2 & Hrow' & Hv' & Ho' & Hrq') _].
  pose proof (lookup_weaken _ _ _ _ Hbody Hobj) as Hbody'. split.
  - exists (c_state c), (snapshot p). split; [| done]. exists db, row, db', row', bucket, body.
    split_and!; try done; [by etrans | by eapply row_state_later].
  - exists db', row'. split_and!; [done | done | congruence |].
    right. exists bucket, (object_name (ticket p)), body, (snapshot p).
    apply decode_encode in Henc as [? _]. split_and!; try done. congruence.
Qed.

Lemma resolved_extends a c calls c' ok :
  resolved a c calls c' ok -> extends (storage_key a) c calls c'.
Proof.
  destruct 1 as [c Hn | c p answer Hpend Hconf | c p answer Hpend Hconf];
    intros w w' before Hc _ Hr Hl.
  - apply calls_forward in Hc. rewrite app_nil_r. split; [| by eapply commits_linked_later].
    rewrite <- (app_nil_r before). by eapply resident_linked_later.
  - destruct answer as [cm |]; [| done]. simpl in Hconf. bool_prop.
    apply call_timeline in Hc as (w1 & w2 & Hf1 & Hs & Hf2).
    apply (resident_linked_later _ _ _ [] _ _ Hf1) in Hr as [_ Hr]. rewrite app_nil_r in Hr.
    apply (commits_linked_later _ _ _ Hf1) in Hl.
    pose proof (cloud_step_forward _ _ _ Hs) as Hf.
    assert (Hlink : none_of name_taken before -> _)
      by (intros Hn; destruct (Hr Hn) as [Hh Hp];
          exact (pending_commit_links _ _ _ _ _ _ _ _ _ _ Hs eq_refl eq_refl Hh (Hp _ Hpend))).
    split; [split |].
    + simpl. intros t Ht. by eapply commit_moves in Hs as [_ Hs]; apply Hs.
    + intros [Hn _]%none_of_app. destruct (Hlink Hn) as [_ Hh]. split; [| done].
      simpl. by eapply head_at_later.
    + apply (commits_linked_later w2); [done |]. apply commits_linked_snoc.
      * by eapply commits_linked_later.
      * intros Hn ? ? ? ? ? ? [= <- <- <- <- <- <-]. by apply Hlink.
  - split; [apply calls_forward in Hc; by eapply resident_linked_later |].
    apply call_timeline in Hc as (w1 & w2 & Hf1 & Hs & Hf2).
    apply (resident_linked_later _ _ _ [] _ _ Hf1) in Hr as [_ Hr]. rewrite app_nil_r in Hr.
    apply (commits_linked_later w2); [done |]. apply commits_linked_snoc.
    + pose proof (cloud_step_forward _ _ _ Hs) as Hf. eapply commits_linked_later; [| done]. by etrans.
    + intros Hn ? ? ? ? ? cm [= <- <- <- <- <- ->]. destruct (Hr Hn) as [Hh Hp].
      by destruct (pending_commit_links _ _ _ _ _ _ _ _ _ _ Hs eq_refl eq_refl Hh (Hp _ Hpend)).
Qed.

Lemma extends_dropping P k c calls :
  none_of is_commit calls -> extends_if P k c calls (set_next_write None c).
Proof.
  intros Hn w w' before Hc HP Hr Hl.
  destruct (extends_others P k c calls Hn _ _ _ Hc HP Hr Hl) as [[_ Hr'] Hl']. by repeat split; try apply Hr'.
Qed.

(** A ticket of the host is signed. *)
Lemma ticket_from_signed w calls w' before k c t :
  calls_from w calls w' -> resident_linked w before k c -> ticket_from c calls t -> ticket_signed t.
Proof.
  intros Hc [Ht _] [H | (a & e & v & H)]; [by apply Ht |].
  by apply (timeline_elem _ _ cloud_step_forward _ _ _ _ Hc) in H as (w1 & w2 & _ & [_ H] & _).
Qed.

(** Once the snapshot is uploaded its commit is the next link. *)
Lemma upload_extends w w' before k c t s b wr :
  calls_from w [CallWrite (url t) b (Ok wr)] w' -> ticket_signed t -> encode s = Ok b ->
  StateLog.state_version s = (c_state_version c + 1)%Z -> answered_from before k (c_state c) s ->
  resident_linked w before k c -> commits_linked w before ->
  resident_linked w' (before ++ [CallWrite (url t) b (Ok wr)]) k
    (set_pending (Some {| snapshot := s; ticket := t |}) (set_next_write None c)) /\
  commits_linked w' (before ++ [CallWrite (url t) b (Ok wr)]).
Proof.
  intros Hc [bucket Ht] Hb Hv Hcomp Hr Hl.
  assert (Hn : none_of is_commit [CallWrite (url t) b (Ok wr)]) by (by repeat constructor).
  destruct (extends_others (fun _ => True) k c _ Hn _ _ _ Hc I Hr Hl) as [[_ Hr'] Hl'].
  split; [split; [done |] | done]. intros Hno. destruct (Hr' Hno) as [Hh _]. split; [done |].
  intros p [= <-]. split_and!; [done | by apply answered_from_app |]. exists bucket, b. split; [done |].
  apply none_of_app in Hno as [_ Hno]. inversion Hno as [| ? ? Hw]; subst.
  apply call_timeline in Hc as (w1 & w2 & _ & [_ (k' & b' & Hk & Hb' & Hsame)] & Hf).
  destruct wr; [| done]. rewrite (Hsame eq_refl) in Hb'. simpl in *. rewrite Ht in Hk.
  injection Hk as <-. eapply lookup_weaken; [exact Hb' | apply Hf].
Qed.

Lemma prepares_no_commit l : Forall (fun x => is_prepare x = true) l -> none_of is_commit l.
Proof. apply none_of_impl. by intros []. Qed.

Lemma published_extends i e c x n calls c' ok :
  c_pending c = None -> published i e c x n calls c' ok ->
  extends_if (fun before => answered_from before (storage_key (actor i)) (c_state c) (snapshot_of i e c x n))
    (storage_key (actor i)) c calls c'.
Proof.
  intros Hnp. destruct 1 as [cs c' Hcs [-> | ->] | cs u b err Hcs
    | cs t b w cs' c' ok Hcs Hfrom Ht Hmax Hb Hres].
  - by apply extends_others, prepares_no_commit.
  - by apply extends_dropping, prepares_no_commit.
  - apply extends_dropping, none_of_app. split; [by apply prepares_no_commit | by repeat constructor].
  - apply resolved_extends in Hres. rewrite cons_middle, app_assoc.
    eapply (extends_trans _ (fun _ => True)); [| | exact Hres]; [| done].
    intros w0 w' before (wm & Hc1 & Hc2)%timeline_app Hcomp Hr Hl; [| apply _].
    pose proof (ticket_from_signed _ _ _ _ _ _ _ Hc1 Hr Hfrom) as Hsigned.
    destruct (extends_others (fun _ => True) _ c _ (prepares_no_commit _ Hcs) _ _ _ Hc1 I Hr Hl)
      as [Hr1 Hl1].
    rewrite app_assoc. eapply upload_extends; try done. by apply answered_from_app.
Qed.

(** The executor's answer is in the trace. *)
Lemma executed_answered i st e c calls x n eff before :
  executed i st calls (Ok (x, n, eff)) ->
  answered_from (before ++ calls) (storage_key (actor i)) st (snapshot_of i e c x n).
Proof.
  intros H. rewrite (executed_result _ _ _ _ _ _ _ H eq_refl). left.
  exists (method_request i st), eff. split; [set_solver | done].
Qed.

Lemma handled_answered i st e c calls n eff before :
  handled i st calls (Ok (n, eff)) ->
  answered_from (before ++ calls) (storage_key (si_actor i)) st (snapshot_of (socket_persistence i) e c Null n).
Proof.
  intros H. inversion H; subst. right.
  exists (socket_request i st), eff. split; [set_solver | done].
Qed.

(** Calls that commit nothing may go before and after a publication. *)
Lemma publication_extends i e c x n cs cs2 cs3 c' ok :
  c_pending c = None -> published i e c x n cs2 c' ok ->
  none_of is_commit cs -> none_of is_commit cs3 ->
  (forall before, answered_from (before ++ cs) (storage_key (actor i)) (c_state c) (snapshot_of i e c x n)) ->
  extends (storage_key (actor i)) c (cs ++ cs2 ++ cs3) c'.
Proof.
  intros Hnp Hpub%published_extends Hn Hn3 Hcomp; [| done].
  eapply extends_trans; [by apply (extends_others (fun _ => True)) | |
    eapply (extends_trans _ (fun _ => True)); [exact Hpub | done |];
    by apply (extends_others (fun _ => True))].
  intros before _. apply Hcomp.
Qed.

Lemma ran_extends i e c calls c' r : ran i e c calls c' r -> extends (storage_key (actor i)) c calls c'.
Proof.
  destruct 1 as [cs c1 Hres | cs c1 x Hres _ | cs c1 cs' r Hres _ Hex
    | cs c1 cs' x n eff Hres _ Hex _ | cs c1 cs' x n eff cs2 c2 Hres _ Hex _ Hpub
    | cs c1 cs' x n eff cs2 c2 Hres _ Hex _ Hpub];
    pose proof (resolved_extends _ _ _ _ _ Hres) as H1; [done | done | | | |];
    pose proof (executed_no_commit _ _ _ _ Hex) as Hn;
    (eapply (extends_trans _ (fun _ => True)); [exact H1 | done |]).
  1,2: by apply (extends_others (fun _ => True)).
  1: rewrite <- (app_nil_r cs2).
  all: eapply publication_extends;
    [by eapply resolved_pending | done | done | by repeat constructor |];
    intros before; by eapply executed_answered.
Qed.

Lemma socket_ran_extends i e c calls c' r :
  socket_ran i e c calls c' r -> extends (storage_key (si_actor i)) c calls c'.
Proof.
  destruct 1 as [cs c1 Hres | cs c1 cs' r Hres Hex | cs c1 cs' n eff Hres Hex _
    | cs c1 cs' n eff cs2 c2 ok Hres Hex _ Hpub];
    pose proof (resolved_extends _ _ _ _ _ Hres) as H1; [done | | |];
    pose proof (handled_no_commit _ _ _ _ Hex) as Hn;
    (eapply (extends_trans _ (fun _ => True)); [exact H1 | done |]).
  1,2: by apply (extends_others (fun _ => True)).
  eapply (publication_extends (socket_persistence i));
    [by eapply resolved_pending | done | done | destruct ok; by repeat constructor |].
  intros before. by eapply handled_answered.
Qed.

(** *** Where an execution starts *)

(** The version and the URL a host is asked to run the actor with are those of a
    row the table came to show. *)
Definition authentic (w : World) (k : ActorStorageKey) (v : Z) (u : string) : Prop :=
  exists db row, evolves db (database (pg w)) /\ placements db !! k = Some row /\
    row_state_version row = v /\
    match row_state_object row with
    | None => u = ""
    | Some obj => exists bucket, object_of u = Some (bucket, obj)
    end.

Lemma obtained_linked m k e v u calls c w w' before :
  obtained m k e v u calls c -> authentic w k v u -> calls_from w calls w' ->
  (forall c, m !! k = Some c -> resident_linked w before k c) ->
  resident_linked w' (before ++ calls) k c.
Proof.
  intros Hob (db & row & Hdb & Hrow & Hv & Hobj) Hc Hm.
  pose proof (calls_forward _ _ _ Hc) as Hf.
  destruct Hob as [c Hc0 _ | _ -> -> | l c _ Hne Hl].
  - eapply resident_linked_later; [done | eauto].
  - split; [done |]. intros _. split; [| done]. simpl. exists db, row.
    split_and!; [etrans; [done | apply Hf] | done | done |].
    left. destruct (row_state_object row); [| done]. destruct Hobj as [bucket Hu].
    by rewrite empty_url_names_nothing in Hu.
  - unfold from_loaded in Hl. inv_ok. bool_prop. split; [done |]. intros _. split; [| done].
    apply call_timeline in Hc as (w1 & w2 & _ & [_ (k' & Hk' & Hbytes)] & Hf2).
    destruct (row_state_object row) as [obj |] eqn:Ho;
      [| subst u; by rewrite empty_url_names_nothing in Hk'].
    destruct Hobj as [bucket Hu].
    rewrite Hu in Hk'. injection Hk' as <-. simpl. exists db, row.
    split_and!; [etrans; [done | apply Hf] | done | done |]. right.
    exists bucket, obj, (ls_bytes l), x. split_and!; try done.
    eapply lookup_weaken; [exact Hbytes | apply Hf2].
Qed.
End Links.

(** ** The life of a host *)

Section Life.
Context `{J : Json} {C : @SnapshotSerde J} `{B : Base64} {SnapLaws : SnapshotSerdeLaws C}.
Context {E : Surroundings} {T : Jwt} {Parser : UrlParser} {Signer : UrlSigner} {Signed : SignedUrls Signer}
        {Uuids : UuidParser} {Serde : CommandSerde}.
Context {X : Type} {Rest : Elsewhere X}.
Context (R : rely weather) {SerdeLaws : CommandSerdeLaws Serde}.
Context (s : ControlPlaneService) (service_time : nat -> Z * option Z)
        (network storage : nat -> Delivery) (transport_error : Status -> Error)
        (debug : ControlPlaneCommandReply -> string) (display_status : Z -> string)
        (parse_url : string -> anyhow (string * option string))
        (uploads : nat -> gmap (string * string) bytes).

#[local] Instance cloud : HostEnv (CloudWorld (X := X)) :=
  cloud_env s service_time network storage transport_error debug display_status parse_url uploads.
#[local] Instance faithful : FaithfulEnv cloud_forward cloud_step :=
  cloud_faithful s service_time network storage transport_error debug display_status parse_url uploads R.

Abbreviation CloudHost := (ActorHost (W := CloudWorld (X := X))).

(** A host in the cloud, asked to run actors at versions the placement table has
    shown, in any order, while others move the world forward. *)
Inductive host_serves : CloudHost -> Prop :=
| ServesStart endpoint namespace w : host_serves (ActorHost_new endpoint namespace w)
| ServesInvoke h i e v u :
    host_serves h -> authentic (world h) (storage_key (actor i)) v u ->
    host_serves (invoke_actor i e v u h).1
| ServesSocket h i e v u :
    host_serves h -> authentic (world h) (storage_key (si_actor i)) v u ->
    host_serves (handle_socket_event i e v u h).1
| ServesDrain h b : host_serves h -> host_serves (drain b h).1
| ServesWorld h w : host_serves h -> cloud_forward (world h) w -> host_serves (with_world w [] h).

(** The targets that the control plane hands out are such versions and URLs. *)
Lemma resolved_target_is_authentic dep `{!AdminRegistryLaws (registry dep)} fuel principal actor kind
    st st' t (w : CloudWorld (X := X)) :
  routing s = Some dep -> (forall p, provisioner dep = Some p -> HostProvisionerLaws p) ->
  resolve_workflow_route s fuel principal actor kind st = (st', Ok (Some t)) ->
  evolves (database (ControlPlane.pg st')) (database (pg w)) ->
  authentic w (storage_key actor) (target_state_version t) (target_state_read_url t).
Proof.
  intros Hdep Hprov Ht Hev.
  eapply (resolved_target_shown R s dep) in Ht as (db & row & _ & Hdb & Hrow & Hv & Hu); [| done..].
  exists db, row. split_and!; [by etrans | done | done |].
  destruct (row_state_object row) as [obj |]; [| done]. destruct Hu as [region Hu].
  unfold read_url in Hu. inv_ok. eexists. by eapply signed_url_names.
Qed.

Lemma host_serves_lives h : host_serves h -> host_lives cloud_forward h.
Proof. induction 1; by constructor. Qed.

Definition host_linked (h : CloudHost) : Prop :=
  commits_linked (world h) (trace h) /\
  forall k c, cached_state h !! k = Some c -> resident_linked (world h) (trace h) k c.

(** The calls of a run are the timeline of its worlds. *)
Lemma observed_timeline (h : CloudHost) calls cache h' :
  calls_shown cloud_forward cloud_step h h' -> observed h calls cache h' ->
  timeline cloud_forward cloud_step (world h) calls (world h').
Proof. intros (calls' & T' & Hc) (Tr & _). rewrite Tr in T'. by apply app_inv_head in T' as ->. Qed.

Lemma untouched_linked (h : CloudHost) calls cache k e h' :
  host_linked h -> calls_shown cloud_forward cloud_step h h' -> observed h calls cache h' ->
  untouched k e (cached_state h) cache -> Forall (fun x => is_read x = true) calls -> host_linked h'.
Proof.
  intros [Hl Hr] Hsh Hobs Hu Hreads. pose proof (observed_timeline _ _ _ _ Hsh Hobs) as Hc.
  apply calls_forward in Hc. destruct Hobs as (Tr & M & _). unfold host_linked. rewrite Tr, M. split.
  - apply commits_linked_others; [by eapply commits_linked_later |].
    revert Hreads. apply none_of_impl. by intros [].
  - intros k0 c Hk. eapply resident_linked_later; [done |]. apply Hr.
    destruct Hu as [-> | [-> _]]; [done |]. by apply lookup_delete_Some in Hk as [_ ?].
Qed.

Lemma ran_linked (h : CloudHost) calls calls' c c' k e v u h' :
  host_linked h -> calls_shown cloud_forward cloud_step h h' -> authentic (world h) k v u ->
  obtained (cached_state h) k e v u calls c -> extends_if (X := X) (fun _ => True) k c calls' c' ->
  observed h (calls ++ calls') (<[ k := c' ]> (cached_state h)) h' -> host_linked h'.
Proof.
  intros [Hl Hr] Hsh Hauth Hob Hext Hobs.
  pose proof (observed_timeline _ _ _ _ Hsh Hobs) as Hc. pose proof (calls_forward _ _ _ Hc) as Hf.
  apply timeline_app in Hc as (wm & Hc1 & Hc2); [| apply _].
  pose proof (obtained_linked _ _ _ _ _ _ _ _ _ (trace h) Hob Hauth Hc1 (Hr k)) as Hr1.
  assert (commits_linked wm (trace h ++ calls)) as Hl1.
  { apply commits_linked_others; [eapply commits_linked_later; [by eapply calls_forward | done] |].
    apply obtained_reads in Hob. revert Hob. apply none_of_impl. by intros []. }
  destruct (Hext _ _ _ Hc2 I Hr1 Hl1) as [Hr2 Hl2]. rewrite <- app_assoc in *.
  destruct Hobs as (Tr & M & _). unfold host_linked. rewrite Tr, M. split; [done |].
  intros k0 c0 [[<- <-] | [_ ?]]%lookup_insert_Some; [done |].
  by eapply resident_linked_later, Hr.
Qed.

Lemma host_serves_linked h : host_serves h -> host_linked h.
Proof.
  induction 1 as [ep ns w | h i e v u _ IH Hauth | h i e v u _ IH Hauth | h b _ IH | h w _ IH Hw].
  - split; [intros _ before a e v obj rq cm later H; by destruct before |].
    intros k c Hk. simpl in Hk. by rewrite lookup_empty in Hk.
  - destruct (invoke_actor i e v u h) as [h' r] eqn:H. simpl.
    pose proof (invoke_actor_shown _ _ _ _ _ _ _ _ _ H) as Hsh.
    apply invoke_actor_runs in H as [calls H].
    destruct H as [calls cache h' r Hr Hobs Hu _ | calls calls' c c' r h' _ _ _ _ Hob Hran Hobs].
    + by eapply untouched_linked.
    + eapply ran_linked; try done. by eapply ran_extends.
  - destruct (handle_socket_event i e v u h) as [h' r] eqn:H. simpl.
    pose proof (handle_socket_event_shown _ _ _ _ _ _ _ _ _ H) as Hsh.
    apply handle_socket_event_runs in H as [calls H].
    destruct H as [calls cache h' r Hr Hobs Hu _ | calls calls' c c' r h' _ _ Hob Hran Hobs].
    + by eapply untouched_linked.
    + eapply ran_linked; try done. by eapply socket_ran_extends.
  - unfold drain, modify, gets, mbind, M_bind, lift. simpl. by destruct (_ || b).
  - destruct IH as [Hl Hr]. unfold host_linked. simpl. rewrite app_nil_r.
    split; [by eapply commits_linked_later |]. intros k c Hk. rewrite <- (app_nil_r (trace h)).
    by eapply resident_linked_later, Hr.
Qed.

(** Every commit a serving host made of version [v + 1] of an actor is a link: the
    table had shown version [v] with the state that the host handed to its
    executor for the request the commit names, and came to show version [v + 1]
    with an object that holds what the executor answered -- provided no upload
    found its name taken by somebody else's object. *)
Lemma commits_are_linked (h : CloudHost) (before later : list Call) (a : ActorKey) (e v : Z)
    (obj rq : string) (cm : CommittedState) :
  host_serves h ->
  trace h = (before ++ CallCommit a e v obj rq (Ok cm) :: later)%list ->
  none_of name_taken (trace h) ->
  linked (world h) before (storage_key a) v obj rq.
Proof. intros [Hl _]%host_serves_linked Ht Hn. by eapply Hl. Qed.
End Life.
