(* ===== verification/Residency.v ===== *)
(** * The state an actor computes from

    A host hands its executor the actor's state; the executor of a host process,
    [JsActorExecutor], sends it on only when it does not count the actor as
    resident in the JavaScript process, and the process uses it only when it has
    no instance of the actor.  This file puts the three together: the process
    ([src/npm/host/worker/supervisor.ts], [runtime.ts]) behind the connection of
    [Executor], as the executor of a host in the cloud of [System].  On such a
    host an actor's code runs on an instance that holds the very state the host
    had, as long as no placement comes back to it in a newer epoch while the
    process still holds the actor; with [Lineage], no update is lost.  What
    happens otherwise is [epoch_return_runs_on_the_old_instance]. *)
From S2P Require Import Prelude Net Json Identity SocketProtocol StateLog StorageUrls Tokens Database Leases Placement ControlPlane ControlPlaneSafety Executor ActorHost HostRuns HostSafety System Lineage.
Local Open Scope string_scope.

(** ** The JavaScript process *)

(** Customer code, and the engine that runs it: an actor class with its
    constructor, the serializer's [hydrate] and [snapshot], and the methods and
    hooks, which may fail and need not be deterministic; the number tells the
    commands of the process apart.  An instance changes only while one of its
    methods or hooks runs: code that goes on after its method has settled is not
    modelled. *)
Class CustomerCode `{J : Json} := {
  Instance : Type;
  construct : nat -> ActorKey -> Instance;
  hydrate : Value -> Instance -> anyhow Instance;
  snapshot_instance : Instance -> anyhow Value;
  is_null : Value -> bool;
  run_method : nat -> ActorMethodInvocation -> Instance ->
    Result (string * string) (Value * list ActorSocketEffect * Instance);
  run_hook : nat -> ActorSocketInvocation -> Instance ->
    Result (string * string) (list ActorSocketEffect * Instance);
  state_message : Value -> string;
}.

Section Process.
Context `{J : Json} {Code : CustomerCode}.

(** The instances its Workers hold, and the commands handled so far. *)
Record Process := { instances : gmap ActorKey Instance; commands : nat }.

(** What happens to the process by the time it handles a command: the instances
    that are gone (idle timeouts, the limit of 32 Workers, crashes), and whether
    the command fails outside the actor's own code (its type is not loaded, no
    Worker is free, its Worker fails or is terminated, the reply is too long),
    with the code and message of the reply. *)
Record Moment := { gone : ActorKey -> bool; trouble : option (string * string) }.
Context (moments : nat -> Moment).

(** [createInstance] *)
Definition created (n : nat) (actor : ActorKey) (state : Value) : anyhow Instance :=
  if is_null state then Ok (construct n actor) else hydrate state (construct n actor).

(** [prepare]: an instance that is there is used, whatever state was sent. *)
Definition prepare (n : nat) (actor : ActorKey) (envelope : ExecutorCommandEnvelope)
    (held : gmap ActorKey Instance) : Result ExecutorReply Instance :=
  match held !! actor with
  | Some instance => Ok instance
  | None =>
      if resident_only envelope then Err StateRequired
      else
        match envelope_state envelope with
        | None => Err (ReplyFailed "invalid_actor_state"
                         "actor hydration requires an explicit state or null")
        | Some state =>
            map_err (fun e => ReplyFailed "actor_worker_failed" (alternate e)) (created n actor state)
        end
  end.

(** [socketEffects]: a connection that was not rejected is told the state. *)
Definition rejects (connection_id : string) (effect : ActorSocketEffect) : bool :=
  match effect with
  | Reject id _ _ => bool_decide (id = connection_id)
  | _ => false
  end.
Definition socket_effects (event : ActorSocketEvent) (state : Value)
    (effects : list ActorSocketEffect) : list ActorSocketEffect :=
  match event with
  | Connect connection =>
      if existsb (rejects (SocketProtocol.id connection)) effects then effects
      else (effects ++ [Send (SocketProtocol.id connection) (Text (state_message state))])%list
  | _ => effects
  end.

(** [ActorRuntime.invoke], [handleSocketEvent] on a prepared instance: the
    instance it leaves and the reply, or a failure. *)
Definition run_command (n : nat) (command : ExecutorCommand) (instance : Instance)
    : Result (string * string) (Instance * ExecutorReply) :=
  match command with
  | Invoke i =>
      '(result, effects, instance) ← run_method n i instance;
      state ← map_err (fun e => ("actor_method_failed", alternate e)) (snapshot_instance instance);
      Ok (instance, Invoked result state effects)
  | WebsocketEvent i =>
      '(effects, instance) ← run_hook n i instance;
      state ← map_err (fun e => ("actor_socket_failed", alternate e)) (snapshot_instance instance);
      Ok (instance, WebsocketHandled state (socket_effects (si_event i) state effects))
  | Evict _ => Err ("", "")
  end.

(** [ActorWorkerSupervisor.execute]: after a failed reply the Worker is
    terminated. *)
Definition execute (n : nat) (envelope : ExecutorCommandEnvelope) (held : gmap ActorKey Instance)
    : gmap ActorKey Instance * ExecutorReply :=
  let actor := command_actor (command envelope) in
  match trouble (moments n) with
  | Some (code, message) => (delete actor held, ReplyFailed code message)
  | None =>
      match prepare n actor envelope held with
      | Err reply => (held, reply)
      | Ok instance =>
          match run_command n (command envelope) instance with
          | Err (code, message) => (delete actor held, ReplyFailed code message)
          | Ok (instance, reply) => (<[ actor := instance ]> held, reply)
          end
      end
  end.

(** [ActorWorkerSupervisor.handle] *)
Definition handle_command (envelope : ExecutorCommandEnvelope) (p : Process)
    : Process * ExecutorReply :=
  let n := commands p in
  let held := filter (fun entry => gone (moments n) entry.1 = false) (instances p) in
  let '(held, reply) :=
    match command envelope with
    | Evict eviction => (delete (ev_actor eviction) held, Evicted)
    | _ => execute n envelope held
    end in
  ({| instances := held; commands := S n |}, reply).

(** *** What a command does to the instances *)

(** An instance that was made of a state. *)
Definition made_of (actor : ActorKey) (state : Value) (instance : Instance) : Prop :=
  exists n, created n actor state = Ok instance.

(** The instance a command starts from: the one held, or one made of the state. *)
Definition starts_from (held : gmap ActorKey Instance) (actor : ActorKey)
    (envelope : ExecutorCommandEnvelope) (instance : Instance) : Prop :=
  held !! actor = Some instance \/
  exists state, envelope_state envelope = Some state /\ made_of actor state instance.

(** From [held] to [held'], only the actor's instance is new. *)
Definition only_new (actor : ActorKey) (held held' : gmap ActorKey Instance) : Prop :=
  forall b instance, b <> actor -> held' !! b = Some instance -> held !! b = Some instance.

(** From [held] to [held'], nothing is new. *)
Lemma only_new_subseteq actor held held' : held' ⊆ held -> only_new actor held held'.
Proof. intros H b instance _ Hb. by eapply lookup_weaken. Qed.

Definition executes (cmd : ExecutorCommand) : bool :=
  match cmd with Evict _ => false | _ => true end.

(** A command that executes an actor does so once, on an instance held or created
    from the state sent; or it leaves no instance that was not there. *)
Lemma handle_executes envelope p p' reply :
  executes (command envelope) = true -> handle_command envelope p = (p', reply) ->
  let actor := command_actor (command envelope) in
  (exists n instance instance', starts_from (instances p) actor envelope instance /\
     run_command n (command envelope) instance = Ok (instance', reply) /\
     instances p' !! actor = Some instance' /\ only_new actor (instances p) (instances p')) \/
  (instances p' ⊆ instances p /\
   (reply = StateRequired \/ exists c m, reply = ReplyFailed c m)).
Proof.
  intros Hx H actor. unfold handle_command in H.
  set (held := filter _ (instances p)) in H.
  assert (held ⊆ instances p) as Hheld by apply map_filter_subseteq.
  assert (Hexec : forall held' reply', execute (commands p) envelope held = (held', reply') ->
    (exists n instance instance', starts_from (instances p) actor envelope instance /\
       run_command n (command envelope) instance = Ok (instance', reply') /\
       held' !! actor = Some instance' /\ only_new actor (instances p) held') \/
    (held' ⊆ instances p /\ (reply' = StateRequired \/ exists c m, reply' = ReplyFailed c m))).
  { clear H. intros held' reply'. unfold execute. fold actor.
    assert (delete actor held ⊆ instances p) as Hdel by (etrans; [apply delete_subseteq | done]).
    destruct (trouble _) as [[code message] |]; [intros [= <- <-]; right; eauto |].
    destruct (prepare (commands p) actor envelope held) as [instance | reply1] eqn:Hp.
    - destruct (run_command _ _ instance) as [[instance' reply1] | [code message]] eqn:Hrun;
        intros [= <- <-]; [left | right; eauto].
      exists (commands p), instance, instance'. split_and!; [| done | apply lookup_insert_eq |].
      + unfold prepare in Hp. destruct (held !! actor) eqn:Ha.
        * injection Hp as ->. left. by eapply lookup_weaken.
        * destruct (resident_only envelope); [done |].
          destruct (envelope_state envelope) as [state |] eqn:Hs; [| done].
          apply map_err_Ok in Hp. right. exists state. split; [done | by eexists].
      + intros b inst Hb. rewrite lookup_insert_ne by done. intros ?. by eapply lookup_weaken.
    - intros [= <- <-]. right. split; [done |]. unfold prepare in Hp.
      destruct (held !! actor); [done |]. destruct (resident_only envelope); [by simplify_eq; left |].
      destruct (envelope_state envelope) as [state |]; [| simplify_eq; eauto].
      destruct (created _ actor state); simplify_eq/=. eauto. }
  destruct (command envelope); try done;
    (destruct (execute _ _ _) as [held' reply'] eqn:He; injection H as <- <-; by apply Hexec).
Qed.

Lemma handle_evicts envelope a p p' reply :
  command envelope = Evict {| ev_actor := a |} -> handle_command envelope p = (p', reply) ->
  instances p' ⊆ delete a (instances p).
Proof.
  intros Hc. unfold handle_command. rewrite Hc. intros [= <- <-]. simpl.
  apply delete_mono, map_filter_subseteq.
Qed.
End Process.
Arguments Process {_} Code.

(** ** The process behind its connection *)

Section Attached.
Context `{J : Json} {Code : CustomerCode} {Serde : ExecutorSerde J}.
Context (moments : nat -> Moment).

(** What becomes of a message: it is handled and answered, it is not written, or
    the connection is lost before the answer, handled or not. *)
Inductive Fate := Answered | NotWritten (e : Error) | Lost (handled : bool).
Context (fates : nat -> Fate).

(** The executor of a host process: [JsActorExecutor], the process, and whether
    the connection still stands; [lines] counts the messages, and [beside] is
    the rest of the host's surroundings. *)
Record AttachedExecutor {Y : Type} := {
  js : JsActorExecutor;
  process : Process Code;
  connected : bool;
  lines : nat;
  beside : Y;
}.
Arguments AttachedExecutor : clear implicits.
Context {Y : Type}.
Abbreviation X := (AttachedExecutor Y).

Definition with_js (e : JsActorExecutor) (x : X) : X :=
  {| js := e; process := process x; connected := connected x; lines := lines x; beside := beside x |}.
Definition with_line (p : Process Code) (up : bool) (x : X) : X :=
  {| js := js x; process := p; connected := connected x && up; lines := S (lines x);
     beside := beside x |}.

(** [write_server_message] writes it at all. *)
Definition sendable (message : ActorExecutorServerMessage) : bool :=
  match server_message_to_vec message with
  | Ok b => (bytes_len b + 1 <=? MAX_ACTOR_EXECUTOR_MESSAGE_BYTES)%Z
  | Err _ => false
  end.

Definition broken_wire (e : Error) : Wire :=
  {| Executor.written := Err e; meanwhile := fun e => e; answer := None |}.
Definition silent_wire : Wire :=
  {| Executor.written := Ok tt; meanwhile := disconnect; answer := None |}.

(** What the next exchange meets when it sends [envelope] as message [id]. *)
Definition transmit (envelope : ExecutorCommandEnvelope) (id : Z) (x : X) : X * Wire :=
  if negb (sendable (Command id envelope)) then (x, silent_wire)
  else if negb (connected x) then (x, broken_wire ["Broken pipe (os error 32)"])
  else
    match fates (lines x) with
    | NotWritten e => (with_line (process x) false x, broken_wire e)
    | Lost handled =>
        (with_line (if handled : bool then (handle_command moments envelope (process x)).1
                    else process x) false x, silent_wire)
    | Answered =>
        let '(p, reply) := handle_command moments envelope (process x) in
        (with_line p true x,
         {| Executor.written := Ok tt; meanwhile := with_pending (delete id); answer := Some reply |})
    end.

Definition sent_state (resident : bool) (state : option Value) : option Value :=
  if resident then None else Some (or_null state).

(** The one or two exchanges of [exchange_with_state]. *)
Definition wires (cmd : ExecutorCommand) (state : option Value) (x : X) : X * Wire * Wire :=
  let resident := bool_decide (command_actor cmd ∈ residents (js x)) in
  let id := next_message_id (js x) in
  let '(x1, wire1) := transmit {| command := cmd; envelope_state := sent_state resident state;
                                  resident_only := resident |} id x in
  if resident && match answer wire1 with Some reply => is_state_required reply | None => false end
  then
    let '(x2, wire2) := transmit {| command := cmd; envelope_state := sent_state false state;
                                    resident_only := false |} (u64_wrapping_add id 1) x1 in
    (x2, wire1, wire2)
  else (x1, wire1, silent_wire).

(** [ActorExecutor] for [JsActorExecutor] *)
Definition attached_invoke (i : ActorMethodInvocation) (state : option Value) (x : X)
    : X * anyhow ActorMethodOutcome :=
  let '(x', wire1, wire2) := wires (Invoke (method_with_state i None)) state x in
  let '(e, r) := Executor.invoke_with_state wire1 wire2 (lines x) (S (lines x)) i state (js x) in
  (with_js e x', r).
Definition attached_handle_socket (i : ActorSocketInvocation) (state : option Value) (x : X)
    : X * anyhow ActorSocketOutcome :=
  let '(x', wire1, wire2) := wires (WebsocketEvent (socket_with_state i None)) state x in
  let '(e, r) := Executor.handle_socket_with_state wire1 wire2 (lines x) (S (lines x)) i state (js x) in
  (with_js e x', r).
Definition attached_evict (eviction : ActorMethodEviction) (x : X) : X * anyhow () :=
  let '(x', wire) := transmit {| command := Evict eviction; envelope_state := None;
                                 resident_only := false |} (next_message_id (js x)) x in
  let '(e, r) := Executor.evict wire (lines x) eviction (js x) in
  (with_js e x', r).

(** *** What an exchange does *)

(** Nothing new is in the process, or it cannot be reached any more. *)
Definition shrunk (x x' : X) : Prop :=
  connected x' = true ->
  connected x = true /\ instances (process x') ⊆ instances (process x).

#[local] Instance shrunk_preorder : PreOrder shrunk.
Proof.
  split; [by intros x H |]. intros x y z H1 H2 H. destruct (H2 H) as [Hy Hs].
  destruct (H1 Hy) as [Hx Hs']. split; [done | by etrans].
Qed.

Lemma transmit_runs envelope id x x' wire :
  transmit envelope id x = (x', wire) ->
  js x' = js x /\
  match answer wire with
  | Some reply => sendable (Command id envelope) = true /\ connected x = true /\
      connected x' = true /\ handle_command moments envelope (process x) = (process x', reply) /\
      Executor.written wire = Ok tt /\ meanwhile wire = with_pending (delete id)
  | None => shrunk x x' /\
      (sendable (Command id envelope) = true -> connected x' = false \/ process x' = process x)
  end.
Proof.
  unfold transmit. destruct (sendable _) eqn:Hs; cbn [negb];
    [| intros [= <- <-]; simpl; split; [done |]; split; [reflexivity | done]].
  destruct (connected x) eqn:Hc; cbn [negb];
    [| intros [= <- <-]; simpl; split; [done |]; split; [reflexivity | by right]].
  destruct (fates (lines x)) as [| e | h].
  - destruct (handle_command _ _ _) as [p reply] eqn:Hh. intros [= <- <-]. simpl. by rewrite Hc.
  - intros [= <- <-]. simpl. rewrite andb_false_r. unfold shrunk. simpl. rewrite andb_false_r.
    split; [done |]. split; [done | by left].
  - intros [= <- <-]. simpl. rewrite andb_false_r. unfold shrunk. simpl. rewrite andb_false_r.
    split; [done |]. split; [done | by left].
Qed.

(** An answered message is what the exchange returns. *)
Lemma exchange_answered wire c cmd state ro (e : JsActorExecutor) reply :
  sendable (Command (next_message_id e)
    {| command := cmd; envelope_state := state; resident_only := ro |}) = true ->
  Executor.written wire = Ok tt -> meanwhile wire = with_pending (delete (next_message_id e)) ->
  answer wire = Some reply ->
  exists e', exchange wire c cmd state ro e = (e', Ok reply) /\
    next_message_id e' = u64_wrapping_add (next_message_id e) 1.
Proof.
  unfold sendable. intros Hs Hw Hm Ha.
  unfold exchange, write_server_message, attempt, begin_exchange, modify, lift, mbind, M_bind.
  simpl. destruct (server_message_to_vec _) as [b |]; [| done]. simpl.
  rewrite (proj2 (Z.ltb_ge _ _)) by lia. rewrite Hw, Hm, Ha. simpl. by eexists.
Qed.
Lemma exchange_unanswered wire c cmd state ro (e e' : JsActorExecutor) r :
  answer wire = None -> exchange wire c cmd state ro e = (e', r) ->
  (exists err, r = Err err) \/ r = Ok (ReplyFailed "resource_exhausted" too_large_message).
Proof.
  intros Ha H. destruct r as [reply | err]; [| eauto].
  apply exchange_reply in H as [H | ->]; [congruence | by right].
Qed.

(** The actor's code ran, once, on an instance the process held or made of the
    state, and [reply] is what it gave. *)
Definition ran_on (cmd : ExecutorCommand) (state : option Value) (reply : ExecutorReply) (x x' : X)
    : Prop :=
  let actor := command_actor cmd in
  connected x = true /\
  exists n instance instance',
    (instances (process x) !! actor = Some instance \/
     made_of actor (or_null state) instance) /\
    run_command n cmd instance = Ok (instance', reply) /\
    instances (process x') !! actor = Some instance' /\
    only_new actor (instances (process x)) (instances (process x')).

Lemma ran_on_later cmd state reply x x1 x' :
  shrunk x x1 -> ran_on cmd state reply x1 x' -> ran_on cmd state reply x x'.
Proof.
  intros Hs (Hc & n & instance & instance' & Hi & Hrun & Hi' & Hnew).
  destruct (Hs Hc) as [Hx Hsub]. split; [done |]. exists n, instance, instance'.
  split_and!; [| done | done |].
  - destruct Hi as [Hi | Hi]; [left | by right]. by eapply lookup_weaken.
  - intros b inst Hb Hl. eapply lookup_weaken; [by apply Hnew | done].
Qed.

Lemma run_command_executed n cmd instance instance' reply :
  run_command n cmd instance = Ok (instance', reply) -> is_executed reply = true.
Proof.
  destruct cmd; simpl; [| | done].
  - destruct (run_method _ _ _) as [[[? ?] ?] |]; [| done]. simpl.
    destruct (snapshot_instance _); [| done]. by intros [= _ <-].
  - destruct (run_hook _ _ _) as [[? ?] |]; [| done]. simpl.
    destruct (snapshot_instance _); [| done]. by intros [= _ <-].
Qed.

Lemma transmit_executes cmd resident state id x x' wire :
  executes cmd = true ->
  transmit {| command := cmd; envelope_state := sent_state resident state;
              resident_only := resident |} id x = (x', wire) ->
  (exists reply, answer wire = Some reply /\ is_executed reply = true /\ ran_on cmd state reply x x') \/
  (shrunk x x' /\ forall reply, answer wire = Some reply -> is_executed reply = false).
Proof.
  intros Hx H%transmit_runs. destruct H as [_ H].
  destruct (answer wire) as [reply |]; [| right; split; [apply H | done]].
  destruct H as (_ & Hc & Hc' & Hh & _).
  apply handle_executes in Hh as [(n & instance & instance' & Hfrom & Hrun & Hi & Hnew)
                                 | [Hsub Hreply]]; [| | done].
  - left. exists reply. split; [done |]. split; [by eapply run_command_executed |].
    split; [done |]. exists n, instance, instance'. split_and!; try done.
    destruct Hfrom as [? | (st & Hst & ?)]; [by left | right]. simpl in Hst.
    unfold sent_state in Hst. destruct resident; [done |]. by injection Hst as <-.
  - right. split; [by intros _ |]. intros ? [= <-]. by destruct Hreply as [-> | (? & ? & ->)].
Qed.

Lemma settle_result actor reply (e e' : JsActorExecutor) r :
  settle actor reply e = (e', r) ->
  r = Ok reply /\ reply <> StateRequired \/ (exists err, r = Err err) /\ reply = StateRequired.
Proof.
  unfold settle, mbind, M_bind, lift, modify, mret, M_ret. destruct reply; simpl; intros [= <- <-]; eauto.
Qed.

(** An exchange with the state: the code ran and the caller has its reply, or the
    process holds nothing new. *)
Lemma wires_exchange cmd state x x' wire1 wire2 c1 c2 e' r :
  executes cmd = true -> wires cmd state x = (x', wire1, wire2) ->
  exchange_with_state wire1 wire2 c1 c2 cmd state (js x) = (e', r) ->
  match r with
  | Ok reply => if is_executed reply then ran_on cmd state reply x x' else shrunk x x'
  | Err _ => shrunk x x'
  end.
Proof.
  intros Hx Hw H. unfold exchange_with_state, gets, modify, mbind, M_bind, mret, M_ret in H.
  cbn [fst snd] in H. unfold wires in Hw. set (resident := bool_decide _) in *.
  set (e0 := with_residents _ (js x)) in H. cbv zeta in Hw.
  destruct (transmit _ _ x) as [x1 w1] eqn:Ht1.
  pose proof (transmit_runs _ _ _ _ _ Ht1) as [_ Hruns].
  apply transmit_executes in Ht1 as Hex; [| done].
  assert (w1 = wire1) as -> by (destruct (_ && _); [destruct (transmit _ _ x1) |]; congruence).
  destruct (answer wire1) as [reply |] eqn:Ha.
  2: { rewrite andb_false_r in Hw. injection Hw as <- _.
    assert (shrunk x x1) as Hs by (destruct Hex as [(? & ? & _) | [? _]]; [congruence | done]).
    destruct (exchange wire1 _ _ _ _ e0) as [e1 r1] eqn:He.
    apply exchange_unanswered in He as [[err ->] | ->]; [by simplify_eq | | done].
    cbn [is_state_required] in H. rewrite andb_false_r in H.
    apply settle_result in H as [[-> _] | [_ ?]]; done. }
  destruct Hruns as (Hsend & _ & _ & _ & Hwr & Hm).
  destruct (exchange_answered wire1 c1 cmd (sent_state resident state) resident e0 reply)
    as (e1 & He & Hid); [done.. |]. unfold sent_state in He at 1. rewrite He in H.
  destruct (resident && is_state_required reply) eqn:Hreq.
  - apply andb_true_iff in Hreq as [-> Hreq].
    assert (shrunk x x1) as Hs.
    { destruct Hex as [(? & [= <-] & Hexec & _) | [? _]]; [by destruct reply | done]. }
    destruct (transmit _ _ x1) as [x2 w2] eqn:Ht2. injection Hw as <- <-.
    pose proof (transmit_runs _ _ _ _ _ Ht2) as [_ Hruns].
    apply transmit_executes in Ht2 as Hex2; [| done].
    destruct (answer w2) as [reply2 |] eqn:Ha2.
    + destruct Hruns as (Hsend2 & _ & _ & _ & Hwr2 & Hm2).
      destruct (exchange_answered w2 c2 cmd (sent_state false state) false e1 reply2)
        as (e2 & He2 & _); [by rewrite Hid | done | by rewrite Hid | done |].
      unfold sent_state in He2. rewrite He2 in H.
      destruct Hex2 as [(? & [= <-] & Hexec & Hran) | [Hs2 Hno]].
      * apply settle_result in H as [[-> _] | [_ ->]]; [| done]. rewrite Hexec.
        by eapply ran_on_later.
      * specialize (Hno _ eq_refl).
        apply settle_result in H as [[-> _] | [[err ->] _]]; rewrite ?Hno; by etrans.
    + destruct (exchange w2 _ _ _ _ e1) as [e2 r2] eqn:He2.
      assert (shrunk x x2) as Hs2.
      { etrans; [exact Hs |]. by destruct Hex2 as [(? & ? & _) | [? _]]. }
      apply exchange_unanswered in He2 as [[err ->] | ->]; [by simplify_eq | | done].
      apply settle_result in H as [[-> _] | [_ ?]]; done.
  - injection Hw as <- _.
    destruct Hex as [(? & [= <-] & Hexec & Hran) | [Hs Hno]].
    + apply settle_result in H as [[-> _] | [_ ->]]; [| done]. by rewrite Hexec.
    + specialize (Hno _ eq_refl).
      apply settle_result in H as [[-> _] | [[err ->] _]]; by rewrite ?Hno.
Qed.
(** *** The operations of the executor *)

(** The reply is of the kind of the command. *)
Lemma ran_on_reply cmd state reply x x' :
  ran_on cmd state reply x x' ->
  match cmd, reply with
  | Invoke _, Invoked _ _ _ | WebsocketEvent _, WebsocketHandled _ _ => True
  | _, _ => False
  end.
Proof.
  intros (_ & n & instance & instance' & _ & Hrun & _). destruct cmd; simpl in Hrun; [| | done].
  - destruct (run_method _ _ _) as [[[? ?] ?] |]; [| done]. simpl in Hrun.
    destruct (snapshot_instance _); [| done]. by injection Hrun as _ <-.
  - destruct (run_hook _ _ _) as [[? ?] |]; [| done]. simpl in Hrun.
    destruct (snapshot_instance _); [| done]. by injection Hrun as _ <-.
Qed.

Lemma attached_invoke_runs i state x x' r :
  attached_invoke i state x = (x', r) ->
  match r with
  | Ok (MethodCompleted result next effects) =>
      ran_on (Invoke (method_with_state i None)) state (Invoked result next effects) x x'
  | _ => shrunk x x'
  end.
Proof.
  unfold attached_invoke, Executor.invoke_with_state. intros H.
  destruct (wires _ _ x) as [[x1 wire1] wire2] eqn:Hw. unfold mbind, M_bind in H.
  change (Invoke {| mi_request_id := _ |}) with (Invoke (method_with_state i None)) in H.
  destruct (exchange_with_state _ _ _ _ _ _ _) as [e r1] eqn:He.
  apply (wires_exchange (Invoke _) _ _ _ _ _ _ _ _ _ eq_refl Hw) in He.
  destruct r1 as [[] |]; unfold lift in H; injection H as <- <-; simpl in *; try done.
  by apply ran_on_reply in He.
Qed.

Lemma attached_handle_socket_runs i state x x' r :
  attached_handle_socket i state x = (x', r) ->
  match r with
  | Ok (Handled next effects) =>
      ran_on (WebsocketEvent (socket_with_state i None)) state (WebsocketHandled next effects) x x'
  | _ => shrunk x x'
  end.
Proof.
  unfold attached_handle_socket, Executor.handle_socket_with_state. intros H.
  destruct (wires _ _ x) as [[x1 wire1] wire2] eqn:Hw. unfold mbind, M_bind in H.
  change (WebsocketEvent {| si_request_id := _ |}) with (WebsocketEvent (socket_with_state i None)) in H.
  destruct (exchange_with_state _ _ _ _ _ _ _) as [e r1] eqn:He.
  apply (wires_exchange (WebsocketEvent _) _ _ _ _ _ _ _ _ _ eq_refl Hw) in He.
  destruct r1 as [[] |]; unfold lift in H; injection H as <- <-; simpl in *; try done.
  by apply ran_on_reply in He.
Qed.

(** An eviction is never too long for the connection: a key has three short
    components. *)
Definition evictions_fit : Prop :=
  forall id a, sendable (Command id {| command := Evict {| ev_actor := a |};
                                       envelope_state := None; resident_only := false |}) = true.

Lemma attached_evict_drops a x x' r :
  evictions_fit -> attached_evict {| ev_actor := a |} x = (x', r) ->
  connected x' = true ->
  connected x = true /\ instances (process x') ⊆ delete a (instances (process x)).
Proof.
  intros Hfit H. unfold attached_evict in H.
  destruct (transmit _ _ x) as [x1 wire] eqn:Ht. destruct (Executor.evict _ _ _ _) as [e r1].
  injection H as <- _. simpl. intros Hup.
  unfold transmit in Ht. rewrite Hfit in Ht. cbn [negb] in Ht.
  destruct (connected x) eqn:Hc; cbn [negb] in Ht; [| injection Ht as <- _; congruence].
  split; [done |]. destruct (fates (lines x)) as [| |];
    [| injection Ht as <- _; simpl in Hup; by rewrite andb_false_r in Hup..].
  destruct (handle_command _ _ _) as [p reply] eqn:Hh. injection Ht as <- _. simpl.
  eapply handle_evicts; [| exact Hh]. done.
Qed.

(** *** The executor as a host's surroundings *)

Context (types : list string) (admission : ActorStorageKey -> Y -> Y * GateWait)
        (time : Y -> Y * option Z).

Definition with_beside (y : Y) (x : X) : X :=
  {| js := js x; process := process x; connected := connected x; lines := lines x; beside := y |}.

Definition attached_executor : Elsewhere X := {|
  x_supports t := bool_decide (t ∈ types);
  x_invoke := attached_invoke;
  x_handle_socket := attached_handle_socket;
  x_evict := attached_evict;
  x_admit k x := let '(y, a) := admission k (beside x) in (with_beside y x, a);
  x_time x := let '(y, a) := time (beside x) in (with_beside y x, a);
|}.

(** A process that has just attached. *)
Definition attached_new (y : Y) : X :=
  {| js := JsActorExecutor_new types; process := {| instances := ∅; commands := 0 |};
     connected := true; lines := 0; beside := y |}.
End Attached.
Arguments AttachedExecutor {_} Code Y.

(** ** What the calls of a host do to the process *)

Section Core.
Context `{J : Json} {C : @SnapshotSerde J} `{B : Base64} {Code : CustomerCode}.

(** What matters of an executor: the instances, and whether they can be reached. *)
Record Core := { core_instances : gmap ActorKey Instance; core_up : bool }.
Definition core_of {Y} (x : AttachedExecutor Code Y) : Core :=
  {| core_instances := instances (process x); core_up := connected x |}.

(** An instance holds a state: it was made of it, or its snapshot equals it. *)
Definition holds (actor : ActorKey) (instance : Instance) (state : option Value) : Prop :=
  made_of actor (or_null state) instance \/
  exists next, snapshot_instance instance = Ok next /\ option_value_eqb state next = true.

Definition smaller (x x' : Core) : Prop :=
  core_up x' = true -> core_up x = true /\ core_instances x' ⊆ core_instances x.
Definition smaller_beside (actor : ActorKey) (x x' : Core) : Prop :=
  core_up x' = true -> core_up x = true /\ only_new actor (core_instances x) (core_instances x').

Definition code_ran (cmd : ExecutorCommand) (state : option Value) (reply : ExecutorReply)
    (x x' : Core) : Prop :=
  let actor := command_actor cmd in
  core_up x = true /\
  exists n instance instance',
    (core_instances x !! actor = Some instance \/
     made_of actor (or_null state) instance) /\
    run_command n cmd instance = Ok (instance', reply) /\
    core_instances x' !! actor = Some instance' /\
    only_new actor (core_instances x) (core_instances x').

(** The step of a call. *)
Definition core_step (x : Core) (c : Call) (x' : Core) : Prop :=
  match c with
  | CallInvoke i (Ok (MethodCompleted result next effects)) =>
      code_ran (Invoke (method_with_state i None)) (mi_state i) (Invoked result next effects) x x'
  | CallSocket i (Ok (Handled next effects)) =>
      code_ran (WebsocketEvent (socket_with_state i None)) (si_state i)
        (WebsocketHandled next effects) x x'
  | CallInvoke _ _ | CallSocket _ _ => smaller x x'
  | CallEvict a => core_up x' = true ->
      core_up x = true /\ core_instances x' ⊆ delete a (core_instances x)
  | _ => x' = x
  end.

Inductive core_run : Core -> list Call -> Core -> Prop :=
| CoreNil x : core_run x [] x
| CoreCall x c x1 calls x' : core_step x c x1 -> core_run x1 calls x' -> core_run x (c :: calls) x'.

Lemma core_run_app x l1 l2 x' :
  core_run x (l1 ++ l2) x' <-> exists x1, core_run x l1 x1 /\ core_run x1 l2 x'.
Proof.
  split.
  - revert x. induction l1 as [| c l1 IH]; simpl; intros x H; [by exists x; split; [constructor |] |].
    inversion H as [| ? ? x1 ? ? Hs Hr]; subst. apply IH in Hr as (x2 & H1 & H2).
    exists x2. split; [by econstructor | done].
  - intros (x1 & H1 & H2). induction H1; simpl; [done | econstructor; eauto].
Qed.

Lemma core_run_one x c x' : core_run x [c] x' <-> core_step x c x'.
Proof.
  split; [| by intros H; econstructor; [| constructor]].
  intros H. inversion H as [| ? ? x1 ? ? Hs Hr]; subst. by inversion Hr; subst.
Qed.

(** The calls that do not reach the executor. *)
Definition reaches_executor (c : Call) : bool :=
  match c with CallInvoke _ _ | CallSocket _ _ | CallEvict _ => true | _ => false end.

Lemma core_run_idle x calls x' : none_of reaches_executor calls -> core_run x calls x' -> x' = x.
Proof.
  intros Hn H. induction H as [| x c x1 calls x' Hs _ IH]; [done |].
  inversion Hn as [| ? ? Hc Hn']; subst. rewrite (IH Hn'). by destruct c.
Qed.

(** The actor is one of those in question, and its code gave the answer of the
    call, on an instance that holds the state the host had. *)
Context (P : ActorKey -> Prop).
Definition genuine (c : Call) : Prop :=
  match c with
  | CallInvoke i (Ok (MethodCompleted result next effects)) =>
      P (mi_actor i) /\
      exists n instance instance', holds (mi_actor i) instance (mi_state i) /\
        run_method n (method_with_state i None) instance = Ok (result, effects, instance') /\
        snapshot_instance instance' = Ok next
  | CallSocket i (Ok (Handled next effects)) =>
      P (si_actor i) /\
      exists n instance instance' asked, holds (si_actor i) instance (si_state i) /\
        run_hook n (socket_with_state i None) instance = Ok (asked, instance') /\
        snapshot_instance instance' = Ok next /\
        effects = socket_effects (si_event i) next asked
  | CallCommit a _ _ _ _ _ => P a
  | _ => True
  end.

(** While the process can be reached and has the actor, nothing of the actor is
    pending, and the instance holds the resident state. *)
Definition keeps (actor : ActorKey) (x : Core) (c : CachedActorState) : Prop :=
  core_up x = true -> forall instance, core_instances x !! actor = Some instance ->
  c_pending c = None /\ holds actor instance (c_state c).

Lemma smaller_keeps actor x x' c : smaller x x' -> keeps actor x c -> keeps actor x' c.
Proof.
  intros Hs Hk Hup instance Hi. destruct (Hs Hup) as [Hup' Hsub].
  apply Hk; [done | by eapply lookup_weaken].
Qed.

Lemma smaller_is_beside actor x x' : smaller x x' -> smaller_beside actor x x'.
Proof. intros Hs Hup. destruct (Hs Hup). split; [done | by apply only_new_subseteq]. Qed.

#[local] Instance smaller_beside_preorder actor : PreOrder (smaller_beside actor).
Proof.
  split; [intros x H; split; [done | by intros b] |]. intros x y z H1 H2 H. destruct (H2 H) as [Hy Hs].
  destruct (H1 Hy) as [Hx Hs']. split; [done |]. intros b inst Hb Hl. apply Hs'; [done |]. by apply Hs.
Qed.

(** After an eviction the process does not have the actor. *)
Lemma evicted_keeps actor x x' c : core_step x (CallEvict actor) x' -> keeps actor x' c.
Proof.
  intros H Hup instance Hi. destruct (H Hup) as [_ Hsub].
  eapply lookup_weaken in Hi; [| exact Hsub]. by rewrite lookup_delete_eq in Hi.
Qed.

Lemma evicted_smaller actor x x' : core_step x (CallEvict actor) x' -> smaller x x'.
Proof.
  intros H Hup. destruct (H Hup) as [? Hsub]. split; [done |]. etrans; [exact Hsub | apply delete_subseteq].
Qed.
(** *** Runs of a host *)

Ltac each_genuine := repeat (apply Forall_cons; split; [done |]); try done; by apply Forall_nil.

Lemma resolved_core a c calls c' ok x x' :
  P a -> resolved a c calls c' ok -> core_run x calls x' ->
  x' = x /\ Forall genuine calls /\ (keeps a x c -> keeps a x c').
Proof.
  intros HP Hres Hrun. split; [| split].
  - eapply core_run_idle; [| exact Hrun]. by destruct Hres; repeat constructor.
  - destruct Hres; each_genuine.
  - destruct Hres as [| c p answer Hp _ | c p answer Hp _]; [done | | done].
    intros Hk Hup instance Hi. destruct (Hk Hup instance Hi). congruence.
Qed.

Lemma reads_genuine calls : Forall (fun x => is_read x = true) calls -> Forall genuine calls.
Proof. intros H. eapply Forall_impl; [exact H |]. by intros []. Qed.

Lemma code_ran_beside cmd state reply x x' :
  code_ran cmd state reply x x' -> smaller_beside (command_actor cmd) x x'.
Proof. intros (Hup & n & instance & instance' & _ & _ & _ & Hnew) _. done. Qed.

(** What the code ran on held the state, given that the process's instance did. *)
Lemma code_ran_on cmd state reply x x' :
  code_ran cmd state reply x x' ->
  (core_up x = true -> forall instance, core_instances x !! command_actor cmd = Some instance ->
     holds (command_actor cmd) instance state) ->
  exists n instance instance', holds (command_actor cmd) instance state /\
    run_command n cmd instance = Ok (instance', reply) /\
    core_instances x' !! command_actor cmd = Some instance'.
Proof.
  intros (Hup & n & instance & instance' & Hfrom & Hrun & Hi & _) Hholds.
  exists n, instance, instance'. split_and!; [| done | done].
  destruct Hfrom as [Hfrom | Hfrom]; [by apply Hholds | by left].
Qed.

Lemma invoked_core i x x' result next effects :
  P (mi_actor i) -> core_step x (CallInvoke i (Ok (MethodCompleted result next effects))) x' ->
  (core_up x = true -> forall instance, core_instances x !! mi_actor i = Some instance ->
     holds (mi_actor i) instance (mi_state i)) ->
  genuine (CallInvoke i (Ok (MethodCompleted result next effects))) /\
  smaller_beside (mi_actor i) x x' /\
  (forall instance, core_instances x' !! mi_actor i = Some instance ->
     snapshot_instance instance = Ok next).
Proof.
  intros HP H Hholds. pose proof (code_ran_beside _ _ _ _ _ H) as Hbeside.
  destruct (code_ran_on _ _ _ _ _ H Hholds) as (n & instance & instance' & Hi & Hrun & Hi').
  simpl in Hrun, Hi, Hi'. destruct (run_method _ _ _) as [[[res eff] inst] |] eqn:Hm; [| done].
  simpl in Hrun. destruct (snapshot_instance inst) eqn:Hsnap; [| done].
  injection Hrun as <- <- <- <-. split_and!; [| done |].
  - split; [done |]. by exists n, instance, inst.
  - intros inst' Hinst'. congruence.
Qed.

Lemma handled_core i x x' next effects :
  P (si_actor i) -> core_step x (CallSocket i (Ok (Handled next effects))) x' ->
  (core_up x = true -> forall instance, core_instances x !! si_actor i = Some instance ->
     holds (si_actor i) instance (si_state i)) ->
  genuine (CallSocket i (Ok (Handled next effects))) /\
  smaller_beside (si_actor i) x x' /\
  (forall instance, core_instances x' !! si_actor i = Some instance ->
     snapshot_instance instance = Ok next).
Proof.
  intros HP H Hholds. pose proof (code_ran_beside _ _ _ _ _ H) as Hbeside.
  destruct (code_ran_on _ _ _ _ _ H Hholds) as (n & instance & instance' & Hi & Hrun & Hi').
  simpl in Hrun, Hi, Hi'. destruct (run_hook _ _ _) as [[eff inst] |] eqn:Hm; [| done].
  simpl in Hrun. destruct (snapshot_instance inst) eqn:Hsnap; [| done].
  injection Hrun as <- <- <-. split_and!; [| done |].
  - split; [done |]. by exists n, instance, inst, eff.
  - intros inst' Hinst'. congruence.
Qed.

(** The state an execution leaves: what it answered, or nothing new. *)
Definition leaves (actor : ActorKey) (x' : Core) (next : Value) : Prop :=
  forall instance, core_instances x' !! actor = Some instance -> snapshot_instance instance = Ok next.

Lemma leaves_keeps actor x' c next :
  leaves actor x' next -> c_pending c = None -> option_value_eqb (c_state c) next = true ->
  keeps actor x' c.
Proof. intros Hl Hp He _ instance Hi. split; [done |]. right. exists next. split; [by apply Hl | done]. Qed.

Lemma executed_core i c calls r x x' :
  P (actor i) -> executed i (c_state c) calls r -> core_run x calls x' -> keeps (actor i) x c ->
  Forall genuine calls /\ smaller_beside (actor i) x x' /\
  match r with
  | Ok (_, next, _) => leaves (actor i) x' next
  | Err _ => forall c', keeps (actor i) x' c'
  end.
Proof.
  intros HP H Hrun Hk.
  assert (Hholds : core_up x = true -> forall instance, core_instances x !! actor i = Some instance ->
    holds (actor i) instance (c_state c)) by (intros Hup inst Hi; by apply (Hk Hup)).
  destruct H as [result next effects Hv | answer r Hf Hbad].
  - apply core_run_one in Hrun. apply invoked_core in Hrun as (? & ? & ?); [| done..].
    split_and!; [each_genuine | done | done].
  - inversion Hrun as [| ? ? x1 ? ? Hs Hrest]; subst. apply core_run_one in Hrest.
    assert (genuine (CallInvoke (method_request i (c_state c)) answer) /\
            smaller_beside (actor i) x x1) as [Hg Hb].
    { destruct answer as [[result next effects |] |]; [| by split; [| apply smaller_is_beside]..].
      apply invoked_core in Hs as (? & ? & _); done. }
    split_and!; [each_genuine | |].
    + etrans; [exact Hb |]. by eapply smaller_is_beside, evicted_smaller.
    + intros c'. by eapply evicted_keeps.
Qed.

Lemma socket_handled_core i c calls r x x' :
  P (si_actor i) -> handled i (c_state c) calls r -> core_run x calls x' -> keeps (si_actor i) x c ->
  Forall genuine calls /\ smaller_beside (si_actor i) x x' /\
  match r with
  | Ok (next, _) => leaves (si_actor i) x' next
  | Err _ => keeps (si_actor i) x' c
  end.
Proof.
  intros HP H Hrun Hk.
  assert (Hholds : core_up x = true -> forall instance, core_instances x !! si_actor i = Some instance ->
    holds (si_actor i) instance (c_state c)) by (intros Hup inst Hi; by apply (Hk Hup)).
  destruct H as [next effects Hv | answer r Hf Hbad].
  - apply core_run_one in Hrun. apply handled_core in Hrun as (? & ? & ?); [| done..].
    split_and!; [each_genuine | done | done].
  - inversion Hrun as [| ? ? x1 ? ? Hs Hrest]; subst.
    destruct answer as [[next effects | f] | err]; simpl in Hrest.
    + apply core_run_one in Hrest. apply handled_core in Hs as (? & Hb & _); [| done..].
      split_and!; [each_genuine | | by eapply evicted_keeps].
      etrans; [exact Hb |]. by eapply smaller_is_beside, evicted_smaller.
    + inversion Hrest; subst.
      split_and!; [each_genuine | by apply smaller_is_beside | by eapply smaller_keeps].
    + inversion Hrest; subst.
      split_and!; [each_genuine | by apply smaller_is_beside | by eapply smaller_keeps].
Qed.

(** A publication does not reach the executor; what it commits is the new state. *)
Lemma published_core i e c value next calls c' ok x x' :
  P (actor i) -> published i e c value next calls c' ok -> core_run x calls x' ->
  x' = x /\ Forall genuine calls /\ (ok = true -> c_state c' = Some next /\ c_pending c' = None).
Proof.
  intros HP Hpub Hrun. split; [| split].
  - eapply core_run_idle; [| exact Hrun].
    assert (Hprep : forall l, Forall (fun c => is_prepare c = true) l -> none_of reaches_executor l).
    { intros l. apply none_of_impl. by intros []. }
    destruct Hpub as [| | ? ? ? ? ? ? ? ? _ _ _ _ Hres];
      [by apply Hprep | apply none_of_app; split; [by apply Hprep | by repeat constructor] |].
    apply none_of_app. split; [by apply Hprep |]. constructor; [done |].
    by destruct Hres; repeat constructor.
  - assert (Hprep : forall l, Forall (fun c => is_prepare c = true) l -> Forall genuine l).
    { intros l Hl. eapply Forall_impl; [exact Hl |]. by intros []. }
    destruct Hpub as [| | ? ? ? ? ? ? ? ? ? _ _ _ Hres];
      [by apply Hprep | apply Forall_app; split; [by apply Hprep | each_genuine] |].
    apply Forall_app. split; [by apply Hprep |]. apply Forall_cons. split; [done |].
    destruct Hres; each_genuine.
  - intros ->. inversion Hpub as [| | ? ? ? ? ? ? ? ? _ _ _ _ Hres]; subst.
    inversion Hres as [| ? p answer Hp _ |]; subst; [done |]. simpl in Hp. by injection Hp as <-.
Qed.
Context {Laws : JsonLaws J}.

Lemma published_keeps i e c value next calls c' ok x x' actor :
  P (Identity.actor i) -> published i e c value next calls c' ok -> core_run x calls x' -> leaves actor x next ->
  ok = true -> keeps actor x' c'.
Proof.
  intros HP Hpub Hrun Hl ->. apply (published_core _ _ _ _ _ _ _ _ _ _ HP Hpub) in Hrun as (-> & _ & H).
  destruct (H eq_refl) as [Hs Hp]. eapply leaves_keeps; [done | done |]. rewrite Hs. apply value_eqb_refl.
Qed.

(** What a run under the gate does to the process: the answers of the actor's code
    are genuine, other actors gain no instance, and the actor's instance holds
    the state that stays resident. *)
Definition in_custody (actor : ActorKey) (x x' : Core) (calls : list Call) (c' : CachedActorState)
    : Prop :=
  Forall genuine calls /\ smaller_beside actor x x' /\ keeps actor x' c'.

Lemma ran_core i e c calls c' r x x' :
  P (actor i) -> ran i e c calls c' r -> core_run x calls x' -> keeps (actor i) x c ->
  in_custody (actor i) x x' calls c'.
Proof.
  intros HP. destruct 1 as [cs c1 Hres | cs c1 v Hres _ | cs c1 cs' r Hres _ Hex
    | cs c1 cs' v next eff Hres _ Hex Heq | cs c1 cs' v next eff cs2 c2 Hres _ Hex _ Hpub
    | cs c1 cs' v next eff cs2 c2 Hres _ Hex _ Hpub]; intros Hrun Hk; unfold in_custody.
  1,2: apply (resolved_core _ _ _ _ _ _ _ HP Hres) in Hrun as (-> & Hn & Hk1);
    split_and!; [done | reflexivity | by apply Hk1].
  all: apply core_run_app in Hrun as (x1 & Hrun & Hrun2);
    apply (resolved_core _ _ _ _ _ _ _ HP Hres) in Hrun as (-> & Hn & Hk1); specialize (Hk1 Hk).
  1,2: destruct (executed_core _ _ _ _ _ _ HP Hex Hrun2 Hk1) as (Hg & Hb & Hlast);
    split_and!; [by apply Forall_app | done |].
  - apply Hlast.
  - eapply leaves_keeps; [exact Hlast | by eapply resolved_pending | done].
  - apply core_run_app in Hrun2 as (x2 & Hrun2 & Hrun3).
    destruct (executed_core _ _ _ _ _ _ HP Hex Hrun2 Hk1) as (Hg & Hb & Hlast).
    pose proof (published_keeps _ _ _ _ _ _ _ _ _ _ _ HP Hpub Hrun3 Hlast eq_refl) as Hk3.
    destruct (published_core _ _ _ _ _ _ _ _ _ _ HP Hpub Hrun3) as (-> & Hg2 & _).
    split_and!; [by repeat (apply Forall_app; split) | done | done].
  - apply core_run_app in Hrun2 as (x2 & Hrun2 & Hrun3).
    destruct (executed_core _ _ _ _ _ _ HP Hex Hrun2 Hk1) as (Hg & Hb & _).
    apply core_run_app in Hrun3 as (x3 & Hrun3 & Hrun4).
    destruct (published_core _ _ _ _ _ _ _ _ _ _ HP Hpub Hrun3) as (-> & Hg2 & _).
    apply core_run_one in Hrun4. split_and!.
    + apply Forall_app; split; [done |]. apply Forall_app; split; [done |].
      apply Forall_app; split; [done | each_genuine].
    + etrans; [exact Hb |]. by eapply smaller_is_beside, evicted_smaller.
    + by eapply evicted_keeps.
Qed.

Lemma socket_ran_core i e c calls c' r x x' :
  P (si_actor i) -> socket_ran i e c calls c' r -> core_run x calls x' -> keeps (si_actor i) x c ->
  in_custody (si_actor i) x x' calls c'.
Proof.
  intros HP. destruct 1 as [cs c1 Hres | cs c1 cs' r Hres Hex | cs c1 cs' next eff Hres Hex Heq
    | cs c1 cs' next eff cs2 c2 ok Hres Hex _ Hpub]; intros Hrun Hk; unfold in_custody.
  { apply (resolved_core _ _ _ _ _ _ _ HP Hres) in Hrun as (-> & Hn & Hk1).
    split_and!; [done | reflexivity | by apply Hk1]. }
  all: apply core_run_app in Hrun as (x1 & Hrun & Hrun2);
    apply (resolved_core _ _ _ _ _ _ _ HP Hres) in Hrun as (-> & Hn & Hk1); specialize (Hk1 Hk).
  1,2: destruct (socket_handled_core _ _ _ _ _ _ HP Hex Hrun2 Hk1) as (Hg & Hb & Hlast);
    split_and!; [by apply Forall_app | done |].
  - exact Hlast.
  - eapply leaves_keeps; [exact Hlast | by eapply resolved_pending | done].
  - apply core_run_app in Hrun2 as (x2 & Hrun2 & Hrun3).
    destruct (socket_handled_core _ _ _ _ _ _ HP Hex Hrun2 Hk1) as (Hg & Hb & Hlast).
    apply core_run_app in Hrun3 as (x3 & Hrun3 & Hrun4).
    pose proof (published_keeps (socket_persistence i) _ _ _ _ _ _ _ _ _ _ HP Hpub Hrun3 Hlast) as Hk3.
    destruct (published_core (socket_persistence i) _ _ _ _ _ _ _ _ _ HP Hpub Hrun3) as (-> & Hg2 & _).
    destruct ok.
    + inversion Hrun4; subst. rewrite app_nil_r.
      split_and!; [by repeat (apply Forall_app; split) | done | by apply Hk3].
    + apply core_run_one in Hrun4. split_and!.
      * apply Forall_app; split; [done |]. apply Forall_app; split; [done |].
        apply Forall_app; split; [done | each_genuine].
      * etrans; [exact Hb |]. by eapply smaller_is_beside, evicted_smaller.
      * by eapply evicted_keeps.
Qed.
End Core.

(** ** The custody of a host *)

Section Custody.
Context `{J : Json} {C : @SnapshotSerde J} `{B : Base64} {Code : CustomerCode} {Laws : JsonLaws J}.
Context {W : Type} {Env : HostEnv W} (core : W -> Core).

Definition same_core (w w' : W) : Prop := core w' = core w.
#[local] Instance same_core_preorder : PreOrder same_core.
Proof. unfold same_core. split; [done |]. intros ? ? ?. congruence. Qed.
Definition world_step (w : W) (c : Call) (w' : W) : Prop := core_step (core w) c (core w').
Context {F : FaithfulEnv same_core world_step}.

Abbreviation Host := (ActorHost (W := W)).

(** Storage keys tell the actors of this host apart. *)
Definition served_by (namespace : string) (a : ActorKey) : Prop :=
  namespace_id a = namespace /\ supports (actor_type a) = true.
Definition keys_apart (namespace : string) : Prop :=
  forall a b, served_by namespace a -> served_by namespace b -> storage_key a = storage_key b -> a = b.

(** They do when neither the namespace nor a loaded type contains a dot. *)
Lemma plain_names_apart namespace :
  contains_char dot namespace = false ->
  (forall t, supports t = true -> contains_char dot t = false) -> keys_apart namespace.
Proof. intros Hn Ht a b [<- Ha] [Hb Hb'] Heq. apply storage_key_injective; rewrite ?Hb; auto. Qed.

(** The answers of the actors' code were genuine, and what the process holds is
    resident. *)
Definition custody (h : Host) : Prop :=
  Forall (genuine (served_by (host_namespace_id h))) (trace h) /\
  forall a instance, core_up (core (world h)) = true ->
    core_instances (core (world h)) !! a = Some instance ->
    served_by (host_namespace_id h) a /\
    exists c, cached_state h !! storage_key a = Some c /\ c_pending c = None /\
      holds a instance (c_state c).

(** The host's entry is replaced, when it is of another epoch, only while the
    process does not hold the actor. *)
Definition reloads_safely (h : Host) (k : ActorStorageKey) (e : Z) : Prop :=
  forall c a, cached_state h !! k = Some c -> c_owner_epoch c <> e -> storage_key a = k ->
    core_up (core (world h)) = true -> core_instances (core (world h)) !! a = None.

Lemma timeline_core w calls w' :
  timeline same_core world_step w calls w' -> core_run (core w) calls (core w').
Proof.
  induction 1 as [w w' H | w w1 c w2 calls w' H Hs _ IH]; [rewrite H; constructor |].
  econstructor; [| exact IH]. by rewrite <- H.
Qed.

Lemma observed_core (h : Host) calls cache h' :
  calls_shown same_core world_step h h' -> observed h calls cache h' ->
  core_run (core (world h)) calls (core (world h')).
Proof.
  intros (calls' & T' & Hc) (Tr & _). rewrite Tr in T'. apply app_inv_head in T' as ->.
  by apply timeline_core.
Qed.

Lemma reads_idle calls : Forall (fun x => is_read x = true) calls -> none_of reaches_executor calls.
Proof. apply none_of_impl. by intros []. Qed.

(** An operation that did not reach the actor. *)
Lemma untouched_custody (h : Host) calls cache k e h' :
  custody h -> calls_shown same_core world_step h h' -> observed h calls cache h' ->
  untouched k e (cached_state h) cache -> reloads_safely h k e ->
  Forall (fun x => is_read x = true) calls -> custody h'.
Proof.
  intros [Hg Hheld] Hsh Hobs Hu Hsafe Hreads.
  pose proof (core_run_idle _ _ _ (reads_idle _ Hreads) (observed_core _ _ _ _ Hsh Hobs)) as Hcore.
  destruct Hobs as (Tr & M & _ & N & _). unfold custody. rewrite Tr, M, N, Hcore. split.
  - apply Forall_app. split; [done |]. by apply reads_genuine.
  - intros a instance Hup Hi. destruct (Hheld a instance Hup Hi) as (Hs & c & Hc & Hp & Hh).
    split; [done |]. exists c. split; [| done].
    destruct Hu as [-> | [-> Hnr]]; [done |].
    destruct (decide (storage_key a = k)) as [<- | Hne]; [| by rewrite lookup_delete_ne].
    exfalso. specialize (Hsafe c a Hc (Hnr c Hc) eq_refl Hup). congruence.
Qed.

(** The state a run starts from is the one the process holds. *)
Lemma obtained_keeps (h : Host) a e v u calls c :
  custody h -> reloads_safely h (storage_key a) e ->
  obtained (cached_state h) (storage_key a) e v u calls c -> keeps a (core (world h)) c.
Proof.
  intros [_ Hheld] Hsafe Hob Hup instance Hi.
  destruct (Hheld a instance Hup Hi) as (_ & c0 & Hc0 & Hp & Hh).
  assert (Hno : not_resident (cached_state h) (storage_key a) e -> False).
  { intros Hnr. specialize (Hsafe c0 a Hc0 (Hnr _ Hc0) eq_refl Hup). congruence. }
  destruct Hob as [c Hc _ | Hnr _ _ | l c Hnr _ _]; [| by destruct (Hno Hnr)..].
  rewrite Hc0 in Hc. by injection Hc as <-.
Qed.

(** An operation that ran under the gate. *)
Lemma ran_custody (h : Host) calls calls' a e v u c c' h' :
  custody h -> keys_apart (host_namespace_id h) -> served_by (host_namespace_id h) a ->
  reloads_safely h (storage_key a) e -> calls_shown same_core world_step h h' ->
  obtained (cached_state h) (storage_key a) e v u calls c ->
  (forall x x', core_run x calls' x' -> keeps a x c -> in_custody (served_by (host_namespace_id h)) a x x' calls' c') ->
  observed h (calls ++ calls') (<[ storage_key a := c' ]> (cached_state h)) h' -> custody h'.
Proof.
  intros Hcus Hkeys Ha Hsafe Hsh Hob Hran Hobs.
  pose proof (obtained_keeps _ _ _ _ _ _ _ Hcus Hsafe Hob) as Hk.
  pose proof (observed_core _ _ _ _ Hsh Hobs) as (x1 & Hrun1 & Hrun2)%core_run_app.
  apply obtained_reads in Hob. apply core_run_idle in Hrun1 as ->; [| by apply reads_idle].
  destruct (Hran _ _ Hrun2 Hk) as (Hg' & Hbeside & Hk').
  destruct Hcus as [Hg Hheld]. destruct Hobs as (Tr & M & _ & N & _).
  unfold custody. rewrite Tr, M, N. split.
  - repeat (apply Forall_app; split); [done | | done].
    by apply reads_genuine.
  - intros b instance Hup Hi. destruct (decide (b = a)) as [-> | Hne].
    + split; [done |]. exists c'. rewrite lookup_insert_eq. split; [done |]. by apply (Hk' Hup).
    + destruct (Hbeside Hup) as [Hup0 Hnew]. specialize (Hnew b instance Hne Hi).
      destruct (Hheld b instance Hup0 Hnew) as (Hs & c0 & Hc0 & ?).
      split; [done |]. exists c0. split; [| done].
      rewrite lookup_insert_ne; [done |]. intros Heq. by destruct Hne; apply Hkeys.
Qed.

Lemma invoke_custody h i e v u :
  custody h -> keys_apart (host_namespace_id h) -> reloads_safely h (storage_key (actor i)) e ->
  custody (invoke_actor i e v u h).1.
Proof.
  intros Hcus Hkeys Hsafe. destruct (invoke_actor i e v u h) as [h' r] eqn:H. simpl.
  pose proof (invoke_actor_shown _ _ _ _ _ _ _ _ _ H) as Hsh.
  apply invoke_actor_runs in H as [calls H].
  destruct H as [calls cache h' r Hr Hobs Hu _ | calls calls' c c' r h' _ Hn Hsup _ Hob Hran Hobs].
  - by eapply untouched_custody.
  - eapply ran_custody; try done. intros x x' Hrun Hk. by eapply ran_core.
Qed.

Lemma socket_custody h i e v u :
  custody h -> keys_apart (host_namespace_id h) -> reloads_safely h (storage_key (si_actor i)) e ->
  custody (handle_socket_event i e v u h).1.
Proof.
  intros Hcus Hkeys Hsafe. destruct (handle_socket_event i e v u h) as [h' r] eqn:H. simpl.
  pose proof (handle_socket_event_shown _ _ _ _ _ _ _ _ _ H) as Hsh.
  apply handle_socket_event_runs in H as [calls H].
  destruct H as [calls cache h' r Hr Hobs Hu _ | calls calls' c c' r h' Hn Hsup Hob Hran Hobs].
  - by eapply untouched_custody.
  - eapply ran_custody; try done. intros x x' Hrun Hk. by eapply socket_ran_core.
Qed.
End Custody.

(** ** In the cloud *)

Section Cloud.
Context `{J : Json} {C : @SnapshotSerde J} `{B : Base64} {SnapLaws : SnapshotSerdeLaws C} {Laws : JsonLaws J}.
Context {E : Surroundings} {T : Jwt} {Parser : UrlParser} {Signer : UrlSigner} {Signed : SignedUrls Signer}
        {Uuids : UuidParser} {Serde : CommandSerde} {SerdeLaws : CommandSerdeLaws Serde}.
Context {Code : CustomerCode} {Lines : ExecutorSerde J} {Y : Type}.
(** Of the executor: what happens to its process and its connection, the loaded
    types, and the rest of the host's surroundings. *)
Context (moments : nat -> Moment) (fates : nat -> Fate) (types : list string)
        (admission : ActorStorageKey -> Y -> Y * GateWait) (time : Y -> Y * option Z).
(** Of the cloud: as in [System]. *)
Context (R : rely weather) (s : ControlPlaneService) (service_time : nat -> Z * option Z)
        (network storage : nat -> Delivery) (transport_error : Status -> Error)
        (debug : ControlPlaneCommandReply -> string) (display_status : Z -> string)
        (parse_url : string -> anyhow (string * option string))
        (uploads : nat -> gmap (string * string) bytes).

Abbreviation X := (AttachedExecutor Code Y).
Abbreviation World := (CloudWorld (X := X)).
#[local] Instance rest : Elsewhere X := attached_executor moments fates types admission time.
#[local] Instance cloud : HostEnv World :=
  cloud_env s service_time network storage transport_error debug display_status parse_url uploads.
Abbreviation CloudHost := (ActorHost (W := World)).

Definition core_in (w : World) : Core := core_of (elsewhere w).

(** *** The cloud's operations are steps of the process *)

Lemma shows_core_step {A} (f : World -> World * A) log :
  (forall w w' a, f w = (w', a) -> world_step core_in w (log a) w') ->
  shows_call (same_core core_in) (world_step core_in) f (fun a => [log a]).
Proof.
  intros Hf w w' a H. apply Hf in H. eapply TimelineCall; [done | exact H |]. by apply TimelineQuiet.
Qed.

Lemma control_plane_rpc_elsewhere a request (w w' : World) r :
  control_plane_rpc s service_time network transport_error uploads a request w = (w', r) ->
  elsewhere w' = elsewhere w.
Proof.
  unfold control_plane_rpc. intros H.
  destruct (network _) as [| e | e]; [| by injection H as <- _ |];
    destruct (service_time _) as [at_ elapsed]; destruct (ControlPlane.execute _ _ _ _ _ _) as [st r1];
    by injection H as <- _.
Qed.

Lemma client_execute_elsewhere command (w w' : World) held held' r :
  client_execute (control_plane_rpc s service_time network transport_error uploads) command
    (w, held) = ((w', held'), r) -> elsewhere w' = elsewhere w.
Proof.
  unfold client_execute, mbind, M_bind, lift, gets, M_context.
  destruct (command_to_vec command) as [request | e]; [| by intros [= <- _ _]].
  simpl. destruct (control_plane_rpc _ _ _ _ _ _ _ w) as [w1 r1] eqn:Hrpc.
  apply control_plane_rpc_elsewhere in Hrpc. by destruct r1; intros [= <- _ _].
Qed.

Lemma authority_prepare_elsewhere a h e v (w w' : World) r :
  prepare_state_write a h e v w = (w', r) -> elsewhere w' = elsewhere w.
Proof.
  intros (w1 & held & H & ->)%run_client_Ok. unfold client_prepare_state_write, mbind, M_bind in H.
  destruct (client_execute _ _ _) as [[w2 held2] reply] eqn:Hx. apply client_execute_elsewhere in Hx.
  by destruct reply as [[] |]; injection H as <- _ _.
Qed.

Lemma authority_commit_elsewhere a h e v obj rq (w w' : World) r :
  commit_state a h e v obj rq w = (w', r) -> elsewhere w' = elsewhere w.
Proof.
  intros (w1 & held & H & ->)%run_client_Ok. unfold client_commit_state, mbind, M_bind in H.
  destruct (client_execute _ _ _) as [[w2 held2] reply] eqn:Hx. apply client_execute_elsewhere in Hx.
  by destruct reply as [[] |]; injection H as <- _ _.
Qed.

Lemma cloud_write_elsewhere u b (w w' : World) r :
  transport_write u b w = (w', r) -> elsewhere w' = elsewhere w.
Proof.
  simpl. unfold cloud_write. destruct (validate_url _ _); [| by intros [= <- _]].
  unfold put_object. destruct (storage _);
    [| by intros [= <- _] |]; (destruct (object_of u) as [k |]; [destruct (objects w !! k) |]);
    by intros [= <- _].
Qed.

Lemma cloud_read_elsewhere u (w w' : World) r : transport_read u w = (w', r) -> elsewhere w' = elsewhere w.
Proof. simpl. unfold cloud_read. by destruct (validate_url _ _); intros [= <- _]. Qed.

Context (fit : evictions_fit).

#[local] Instance attached_faithful : FaithfulEnv (same_core core_in) (world_step core_in).
Proof using fit.
  split.
  - intros i st. apply shows_core_step. intros w w' a. simpl. unfold aside.
    destruct (attached_invoke _ _ _ _ _) as [x r] eqn:H. intros [= <- <-].
    apply attached_invoke_runs in H. by destruct r as [[] |].
  - intros i st. apply shows_core_step. intros w w' a. simpl. unfold aside.
    destruct (attached_handle_socket _ _ _ _ _) as [x r] eqn:H. intros [= <- <-].
    apply attached_handle_socket_runs in H. by destruct r as [[] |].
  - intros b. apply shows_core_step. intros w w' a. simpl. unfold aside.
    destruct (attached_evict _ _ _ _) as [x r] eqn:H. intros [= <- <-].
    intros Hup. eapply attached_evict_drops; [exact fit | exact H | exact Hup].
  - intros a h e v. apply shows_core_step. intros w w' r H.
    apply authority_prepare_elsewhere in H. unfold world_step, core_in. by rewrite H.
  - intros a h e v obj rq. apply shows_core_step. intros w w' r H.
    apply authority_commit_elsewhere in H. unfold world_step, core_in. by rewrite H.
  - intros u. apply shows_core_step. intros w w' r H.
    apply cloud_read_elsewhere in H. unfold world_step, core_in. by rewrite H.
  - intros u b. apply shows_core_step. intros w w' r H.
    apply cloud_write_elsewhere in H. unfold world_step, core_in. by rewrite H.
  - intros k w w' a. simpl. unfold aside. simpl.
    destruct (admission _ _) as [y b]. intros [= <- _]. by apply TimelineQuiet.
  - intros w w' a. simpl. unfold aside. simpl.
    destruct (time _) as [y b]. intros [= <- _]. by apply TimelineQuiet.
Qed.

(** *** The life of such a host *)

(** A host of the cloud whose process attached when it started, as in
    [host_serves]; a resident actor is asked for in another epoch only while the
    process does not hold it, and between the operations the process may lose
    instances and the connection. *)
Inductive host_works : CloudHost -> Prop :=
| WorksStart endpoint namespace w y :
    keys_apart namespace -> elsewhere w = attached_new types y ->
    host_works (ActorHost_new endpoint namespace w)
| WorksInvoke h i e v u :
    host_works h -> authentic (world h) (storage_key (actor i)) v u ->
    reloads_safely core_in h (storage_key (actor i)) e -> host_works (invoke_actor i e v u h).1
| WorksSocket h i e v u :
    host_works h -> authentic (world h) (storage_key (si_actor i)) v u ->
    reloads_safely core_in h (storage_key (si_actor i)) e ->
    host_works (handle_socket_event i e v u h).1
| WorksDrain h b : host_works h -> host_works (drain b h).1
| WorksWorld h w :
    host_works h -> cloud_forward (world h) w -> smaller (core_in (world h)) (core_in w) ->
    host_works (with_world w [] h).

Lemma host_works_serves h :
  host_works h ->
  host_serves s service_time network storage transport_error debug display_status parse_url uploads h.
Proof. induction 1; by constructor. Qed.

Lemma invoke_actor_namespace (h : CloudHost) i e v u :
  host_namespace_id (invoke_actor i e v u h).1 = host_namespace_id h.
Proof.
  destruct (invoke_actor i e v u h) as [h' r] eqn:H. apply invoke_actor_runs in H as [calls H].
  destruct H as [? ? ? ? _ Hobs | ? ? ? ? ? ? _ _ _ _ _ _ Hobs]; apply Hobs.
Qed.
Lemma handle_socket_event_namespace (h : CloudHost) i e v u :
  host_namespace_id (handle_socket_event i e v u h).1 = host_namespace_id h.
Proof.
  destruct (handle_socket_event i e v u h) as [h' r] eqn:H. apply handle_socket_event_runs in H as [calls H].
  destruct H as [? ? ? ? _ Hobs | ? ? ? ? ? ? _ _ _ _ Hobs]; apply Hobs.
Qed.

Lemma host_works_custody h : host_works h -> custody core_in h /\ keys_apart (host_namespace_id h).
Proof using fit Laws.
  induction 1 as [ep ns w y Hk Hw | h i e v u _ [IH Hk] _ Hsafe | h i e v u _ [IH Hk] _ Hsafe
    | h b _ IH | h w _ [[Hg IH] Hk] _ Hw].
  - split; [| done]. split; [constructor |]. simpl. unfold core_in. rewrite Hw. done.
  - rewrite invoke_actor_namespace. split; [by apply (invoke_custody core_in) | done].
  - rewrite handle_socket_event_namespace. split; [by apply (socket_custody core_in) | done].
  - unfold drain, modify, gets, mbind, M_bind, lift. simpl. by destruct (_ || b).
  - split; [| done]. unfold custody. simpl. rewrite app_nil_r. split; [done |].
    intros a instance Hup Hi. destruct (Hw Hup) as [Hup0 Hsub].
    apply IH; [done | by eapply lookup_weaken].
Qed.

(** The code of the actor gave the result and the state of [snap], for the request
    of [snap], on an instance that held the state [st]. *)
Definition computed (a : ActorKey) (st : option Value) (snap : StateSnapshot) : Prop :=
  exists n instance instance', holds a instance st /\ snapshot_instance instance' = Ok (state snap) /\
    ((exists i effects, mi_actor i = a /\ mi_request_id i = StateLog.request_id snap /\
        run_method n i instance = Ok (result snap, effects, instance')) \/
     (exists i asked, si_actor i = a /\ si_request_id i = StateLog.request_id snap /\ result snap = Null /\
        run_hook n i instance = Ok (asked, instance'))).

(** A genuine answer was computed. *)
Lemma genuine_computed namespace a calls st snap :
  keys_apart namespace -> served_by namespace a -> Forall (genuine (served_by namespace)) calls ->
  answered_from calls (storage_key a) st snap -> computed a st snap.
Proof.
  intros Hk Ha Hg. rewrite Forall_forall in Hg.
  intros [(i & eff & Hi & Hkey & <- & Hrq) | (i & eff & Hi & Hkey & <- & Hrq & Hres)];
    apply Hg in Hi as [Hs Hi]; pose proof (Hk _ _ Hs Ha Hkey) as <-.
  - destruct Hi as (n & instance & instance' & Hh & Hrun & Hsnap).
    exists n, instance, instance'. split; [done |]. split; [done |]. left. by exists (method_with_state i None), eff.
  - destruct Hi as (n & instance & instance' & asked & Hh & Hrun & Hsnap & _).
    exists n, instance, instance'. split; [done |]. split; [done |]. right. by exists (socket_with_state i None), asked.
Qed.

End Cloud.

(** ** A small system

    The system of [System], with an executor whose process runs a counter. *)

Section Sample.
#[local] Existing Instance calm_surroundings.
#[local] Existing Instance marked_signer.
#[local] Existing Instance marked_urls.
#[local] Existing Instance known_messages.
#[local] Existing Instance known_messages_laws.

(** The counter writes its state in strokes. *)
Definition strokes (n : nat) : string := String "{" (String.concat "" (replicate n "|")).
#[local] Instance counter : CustomerCode (J := text_json) := {|
  Instance := nat;
  construct _ _ := 0;
  hydrate text _ := Ok (String.length text - 1);
  snapshot_instance n := Ok (strokes n);
  is_null text := String.eqb text "null";
  run_method _ _ n := Ok (strokes (S n), [], S n);
  run_hook _ _ n := Ok ([], S n);
  state_message text := text;
|}.
#[local] Instance short_lines : ExecutorSerde text_json := {|
  server_message_to_vec _ := Ok [];
  client_message_from_slice _ := Err ["not read here"] |}.

Definition calm_moment : Moment := {| gone _ := false; trouble := None |}.
Definition counter_admission (k : ActorStorageKey) (y : ()) : () * GateWait :=
  (y, {| gate_admission := Ok true; drained_meanwhile := false |}).
Definition counter_executor : AttachedExecutor counter () := attached_new ["Counter"] tt.

#[local] Instance counter_cloud : HostEnv (J := text_json) (CloudWorld (X := AttachedExecutor counter ())) :=
  cloud (fun _ => calm_moment) (fun _ => Answered) ["Counter"] counter_admission (fun y => (y, Some 1000000%Z))
    system_service (fun _ => (1000%Z, Some 1000000%Z)) (fun _ => Delivered) (fun _ => Delivered)
    (fun e => [status_message e]) (fun _ => "reply") (fun _ => "status") https_url (fun _ => ∅).
Definition counter_host
    : ActorHost (J := text_json) (W := CloudWorld (X := AttachedExecutor counter ())) :=
  ActorHost_new {| endpoint_id := Tokens.sample_host; endpoint_route := "https://h" |} "acme"
    {| pg := system_start; System.authorization := host_authorization; objects := ∅; exchanges := 0;
       elsewhere := counter_executor |}.
Definition counted_host
    : ActorHost (J := text_json) (W := CloudWorld (X := AttachedExecutor counter ())) :=
  (invoke_actor system_invocation 3 0 "" counter_host).1.

Lemma counter_keys_apart : keys_apart (Env := counter_cloud) "acme".
Proof.
  apply plain_names_apart; [reflexivity |]. intros t Ht.
  apply bool_decide_eq_true, list_elem_of_singleton in Ht as ->. reflexivity.
Qed.

Lemma counter_evictions_fit : evictions_fit (Serde := short_lines).
Proof. intros id a. reflexivity. Qed.


(** When a resident actor comes back in a later epoch, the host loads the state
    another host has left and hands it to the executor; the process still has
    the old instance, and the actor's code runs on that: five strokes were
    stored, and the answer is two. *)
Lemma epoch_return_runs_on_the_old_instance :
  let invoke := attached_invoke (fun _ => calm_moment) (fun _ => Answered)
                  (method_request system_invocation None) in
  (invoke None counter_executor).2 = Ok (MethodCompleted (strokes 1) (strokes 1) []) /\
  (invoke (Some (strokes 5)) (invoke None counter_executor).1).2 =
    Ok (MethodCompleted (strokes 2) (strokes 2) []).
Proof. by split; vm_compute. Qed.
End Sample.
