(* ===== verification/Tenure.v ===== *)
(** * A host's tenure

    What a host process does to stay a host, put together: the lease maintainer
    of [src/host/lease_maintenance.rs] renews through [ControlPlaneClient] over a
    network that loses messages, the control plane checks the caller's token,
    stamps the lease in the tables and replaces a token that is about to expire,
    and the client keeps the replacement.  While its confirmed window lasts the
    host is one for the control plane too: the tables show its lease and its
    credential is accepted. *)
From S2P Require Import Prelude Net Json Identity SocketProtocol StateLog StorageUrls Tokens.
From S2P Require Import Database Leases LeaseMaintenance Placement ControlPlane ControlPlaneSafety Fencing Schema System.
Local Open Scope string_scope.
Local Open Scope Z_scope.

Section Tenure.
Context {T : Jwt} {TL : JwtLaws T} `{B : Base64} {Parser : UrlParser} {Signer : UrlSigner}.
Context {Uuids : UuidParser} {Serde : CommandSerde} {SerdeLaws : CommandSerdeLaws Serde}.
(** The service, the clocks of the server and of the control plane against the
    host's, and the rest of the surroundings. *)
Context (s : ControlPlaneService) (pg_offset cp_offset : Duration) (faults : nat -> Fault)
        (uuids : nat -> nat -> string) (nonces : nat -> string) (unexpired : nat -> bool)
        (network : nat -> Delivery) (transport_error : Status -> Error)
        (debug : ControlPlaneCommandReply -> string) (parse_metadata : string -> anyhow string)
        (uploads : nat -> gmap (string * string) bytes).

Abbreviation World := (CloudWorld (X := ())).

(** The control plane's clock at the host's time [t]. *)
Definition cp_now_ms (t : Z) : Z := (t + cp_offset) / 1000000.
Definition cp_elapsed (t : Z) : option Z :=
  if 0 <=? cp_now_ms t then Some (cp_now_ms t) else None.
Definition cp_seconds (t : Z) : Z := cp_now_ms t / 1000.

(** An exchange runs at one moment of the host's time. *)
Definition surroundings_at (t : Z) : Surroundings := {|
  weather := pg_weather pg_offset faults t;
  clock := fun _ _ => cp_elapsed t;
  uuid := uuids;
  nonce := nonces;
  fresh := unexpired;
|}.

Definition rpc_at (t : Z) : string -> bytes -> World -> World * anyhow bytes :=
  control_plane_rpc (E := surroundings_at t) s (fun _ => (cp_seconds t, cp_elapsed t)) network
    transport_error uploads.

Definition register_at (request : HostLeaseRequest) (t : Z) : World -> World * anyhow HostLease :=
  run_client (client_register parse_metadata (rpc_at t) debug request).

(** [impl HostLeaseRegistry for ControlPlaneClient].  A call that was dropped may
    have been executed; the client has kept its token. *)
#[local] Instance client_lease_registry : LeaseRegistry World := {|
  registry_register := register_at;
  registry_unregister id session t := run_client (client_unregister (rpc_at t) debug id session);
  registry_register_dropped request t w :=
    with_authorization (authorization w) (register_at request t w).1;
|}.

(** ** The clock *)

Lemma cp_now_ms_mono t t' : t <= t' -> cp_now_ms t <= cp_now_ms t'.
Proof. intros Ht. unfold cp_now_ms. apply Z.div_le_mono; lia. Qed.

Lemma cp_now_ms_shift t ms : cp_now_ms (t + from_millis ms) = cp_now_ms t + ms.
Proof.
  unfold cp_now_ms, from_millis.
  replace (t + ms * 1000000 + cp_offset) with (t + cp_offset + ms * 1000000) by lia.
  by rewrite Z.div_add by lia.
Qed.

Lemma cp_elapsed_Some t : 0 <= cp_now_ms t -> cp_elapsed t = Some (cp_now_ms t).
Proof. intros H%Z.leb_le. unfold cp_elapsed. by rewrite H. Qed.

(** ** What a registration does *)

Lemma replacement_state t p st st' r :
  replacement_host_token (E := surroundings_at t) s p st = (st', r) -> st' = st.
Proof.
  unfold replacement_host_token, ControlPlane.at_time, gets, mbind, M_bind, lift, mret, M_ret.
  intros H. repeat case_match; simplify_eq; done.
Qed.

Lemma register_lease_kept t p request :
  respects (keeps_or_stamps pg_offset request t) (register_lease (E := surroundings_at t) s p request).
Proof.
  unfold register_lease. pose proof (keeps_or_stamps_preorder pg_offset request t). respecting.
  - apply register_keeps_or_stamps.
  - intros st st' r ->%replacement_state. reflexivity.
Qed.

(** The credential was accepted as that of a host of this request's ID and session. *)
Definition host_principal (request : HostLeaseRequest) (p : ActorPrincipal) : Prop :=
  process_role p = Host /\ Tokens.host_id p = lr_id request /\
  Tokens.session_id p = lr_session_id request.

(** The token the client goes on with. *)
Definition next_authorization (replacement : option string) (a a' : string) : Prop :=
  match replacement with
  | Some token => bearer_authorization parse_metadata token = Ok a'
  | None => a' = a
  end.

Lemma register_lease_Ok t p request st st' reply :
  register_lease (E := surroundings_at t) s p request st = (st', Ok reply) ->
  Tokens.host_id p = lr_id request /\ Tokens.session_id p = lr_session_id request /\
  exists l replacement, reply = LeaseReply l replacement /\
    PostgresHostLeaseStore.register (pg_weather pg_offset faults t) request st = (st', Ok l) /\
    replacement_host_token (E := surroundings_at t) s p st' = (st', Ok replacement).
Proof.
  unfold register_lease. intros H. inv_client. bool_prop.
  match goal with H : validate_host_id _ _ = _ |- _ => apply validate_host_id_Ok in H end.
  match goal with H : replacement_host_token _ _ _ = _ |- _ =>
    pose proof (replacement_state _ _ _ _ _ H) as Hst; subst end.
  split_and!; [done.. |]. eauto.
Qed.
Lemma execute_register t a request b st st' r :
  command_to_vec (RegisterLease request) = Ok b ->
  execute (E := surroundings_at t) s (Some (Some a)) (cp_seconds t) (cp_elapsed t) b st = (st', r) ->
  keeps_or_stamps pg_offset request t st st' /\
  forall rb, r = Ok rb -> exists p reply,
    authenticate_authorization (auth s) (cp_seconds t) (cp_elapsed t) a = Ok p /\
    process_role p = Host /\
    register_lease (E := surroundings_at t) s p request st = (st', Ok reply) /\
    reply_to_vec reply = Ok rb.
Proof.
  intros Hb%command_round_trip. unfold execute. simpl authenticate.
  destruct (authenticate_authorization _ _ _ a) as [p | e]; simpl map_err;
    [| intros [= <- <-]; by split; [left |]].
  rewrite Hb. unfold execute_command, lift, mbind, M_bind.
  destruct (ensure (bool_decide (process_role p = Host)) _) as [[] | e] eqn:Hrole;
    [| intros [= <- <-]; by split; [left |]].
  destruct (register_lease s p request st) as [st1 r1] eqn:Hreg. intros [= <- <-].
  split; [by eapply register_lease_kept |]. apply ensure_Ok in Hrole. bool_prop.
  intros rb Hrb. destruct r1 as [reply | e]; [| done]. exists p, reply. split_and!; try done.
  simpl in Hrb. by destruct (reply_to_vec reply); simplify_eq/=.
Qed.

(** What a registration leaves behind, a lost one included. *)
Lemma register_at_run request t w w' r :
  register_at request t w = (w', r) ->
  keeps_or_stamps pg_offset request t (pg w) (pg w') /\
  match r with
  | Err _ => authorization w' = authorization w
  | Ok _ => exists p replacement,
      authenticate_authorization (auth s) (cp_seconds t) (cp_elapsed t) (authorization w) = Ok p /\
      host_principal request p /\
      pg_held (lr_id request) (lr_session_id request) (pg w')
        = Some (pg_now_ms pg_offset t + lr_duration_ms request) /\
      lr_duration_ms request <= MAX_HOST_LEASE_DURATION_MS /\
      replacement_host_token (E := surroundings_at t) s p (pg w') = (pg w', Ok replacement) /\
      next_authorization replacement (authorization w) (authorization w')
  end.
Proof.
  unfold register_at. intros (w1 & held & H & ->)%run_client_Ok. simpl.
  unfold client_register, client_execute, mbind, M_bind, mret, M_ret, lift, gets, M_context in H.
  destruct (command_to_vec (RegisterLease request)) as [b | e] eqn:Hb;
    [| injection H as <- <- <-; by split; [left |]]. simpl in H.
  destruct (rpc_at t (authorization w) b w) as [w2 r2] eqn:Hrpc. unfold rpc_at, control_plane_rpc in Hrpc.
  assert (keeps_or_stamps pg_offset request t (pg w) (pg w2) /\ forall rb, r2 = Ok rb -> exists p reply,
    authenticate_authorization (auth s) (cp_seconds t) (cp_elapsed t) (authorization w) = Ok p /\
    process_role p = Host /\
    register_lease (E := surroundings_at t) s p request (pg w) = (pg w2, Ok reply) /\
    reply_to_vec reply = Ok rb) as [Hkeeps Hreply].
  { destruct (network (exchanges w)) as [| e | e];
      [| injection Hrpc as <- <-; by split; [left |] |];
      destruct (execute _ _ _ _ _ _) as [st r1] eqn:Ex;
      apply (execute_register _ _ _ _ _ _ _ Hb) in Ex as [Hk Hr];
      injection Hrpc as <- <-; (split; [exact Hk |]); intros rb Hrb; [| done].
    apply Hr. by destruct r1; simplify_eq/=. }
  destruct r2 as [rb | e]; simpl in H; [| injection H as <- <- <-; by split].
  destruct (Hreply rb eq_refl) as (p & reply & Ha & Hrole & Hreg & Hrb).
  apply register_lease_Ok in Hreg as (Hid & Hses & l & replacement & -> & Hreg & Hrepl).
  apply reply_round_trip in Hrb. rewrite Hrb in H. simpl in H.
  pose proof (stamped_in_table _ _ _ _ _ _ _ Hreg) as Hstamp.
  apply register_facts in Hreg as (_ & _ & _ & _ & [_ Hmax] & _).
  destruct replacement as [token |]; simplify_eq/=.
  - unfold replace_token, mbind, M_bind, lift, modify in H.
    destruct (bearer_authorization parse_metadata token) as [a' | e] eqn:Ha'; simplify_eq/=;
      [| by split].
    split; [done |]. by exists p, (Some token).
  - split; [done |]. by exists p, None.
Qed.
(** ** The lease in the tables *)

#[local] Instance tables_grant : LeaseRegistryLaws World client_lease_registry.
Proof.
  refine {| store_now := pg_now_ms pg_offset;
            held id session w _ e := pg_held id session (pg w) = Some e;
            store_now_mono := pg_now_ms_mono pg_offset;
            store_now_shift := pg_now_ms_shift pg_offset |}.
  - done.
  - intros request t w w' l (_ & p & replacement & _ & _ & H & _)%register_at_run.
    eexists. split; [| exact H]. lia.
  - intros request t w w' error [H _]%register_at_run. by apply kept_in_table in H.
  - intros request t w _. apply kept_in_table. simpl.
    destruct (register_at request t w) as [w' r] eqn:E. by apply register_at_run in E as [H _].
Defined.

(** ** The credential *)

(** The control plane issues the tokens of its hosts and accepts them; a token
    lives for whole seconds ([DURABLE_OBJECT_JWT_MAX_LIFETIME_SECONDS]), longer
    than the longest lease. *)
Record renews_tokens (i : ActorJwtIssuer) (lifetime : Z) : Prop := {
  renews_issuer : host_token_issuer s = Some i;
  renews_trusts : trusts (auth s) i (authority_audience i);
  renews_purpose : purpose (auth s) = Tokens.ControlPlane;
  renews_lifetime : issuer_max_lifetime i = from_secs lifetime;
  renews_longer : MAX_HOST_LEASE_DURATION_MS < lifetime * 1000;
  renews_accepted : from_secs lifetime <= max_lifetime (auth s);
  renews_metadata : forall value a, parse_metadata value = Ok a -> a = value;
}.

(** The control plane takes the bearer for this host in this session. *)
Definition accepted (id : HostId) (session a : string) (t : Z) : Prop :=
  exists p, authenticate_authorization (auth s) (cp_seconds t) (cp_elapsed t) a = Ok p /\
    process_role p = Host /\ Tokens.host_id p = id /\ Tokens.session_id p = session.

(** The times a token can name, with a wide margin. *)
Definition HORIZON : Z := 2 ^ 62.

Definition credential_held (id : HostId) (session : string) (w : World) (t e : Z) : Prop :=
  forall t', t <= t' -> cp_now_ms t' < e -> cp_now_ms t' < HORIZON ->
    accepted id session (authorization w) t'.

Lemma replacement_Ok t p st replacement :
  replacement_host_token (E := surroundings_at t) s p st = (st, Ok replacement) ->
  0 <= cp_now_ms t /\
  match replacement with
  | None => cp_seconds t + HOST_TOKEN_RENEWAL_WINDOW_SECONDS < expires_at p
  | Some new => exists i rev issued,
      host_token_issuer s = Some i /\
      issue_host i (Some (cp_now_ms t)) (scope_namespace_id (scope p)) (Tokens.host_id p)
        (Tokens.session_id p) rev (Tokens.region p) = Ok issued /\ new = token issued
  end.
Proof.
  unfold replacement_host_token, ControlPlane.at_time. simpl clock. unfold cp_elapsed. intros H.
  inv_client. unfold gets in *. simplify_eq/=.
  match goal with H : service_unix_seconds _ = _ |- _ => unfold service_unix_seconds in H end.
  destruct (Z.leb_spec 0 (cp_now_ms t)) as [Hpos |]; [| done]. simpl in *.
  match goal with H : i64_try _ = _ |- _ => apply i64_try_Ok in H as [-> ?] end.
  split; [done |]. destruct (Z.ltb_spec HOST_TOKEN_RENEWAL_WINDOW_SECONDS
    (i64_saturating_sub (expires_at p) (cp_now_ms t / 1000))) as [Hlater |].
  - unfold mret, M_ret in *. simplify_eq.
    unfold i64_saturating_sub, i64_clamp, i64_min, i64_max, cp_seconds,
      HOST_TOKEN_RENEWAL_WINDOW_SECONDS in *. lia.
  - inv_client. unfold gets in *. simplify_eq/=. eauto 10.
Qed.

Lemma accepted_later id session a t t' :
  accepted id session a t -> t <= t' -> cp_now_ms t' < HORIZON ->
  leeway (validation (auth s)) = 5 ->
  (forall p, authenticate_authorization (auth s) (cp_seconds t) (cp_elapsed t) a = Ok p ->
     cp_seconds t' < expires_at p) ->
  accepted id session a t'.
Proof.
  intros (p & Ha & Hp) Ht Hhor Hleeway Hexp. apply Hexp in Ha as Hlt. exists p. split; [| done].
  pose proof (cp_now_ms_mono t t' Ht). unfold cp_elapsed, cp_seconds in *.
  destruct (Z.leb_spec 0 (cp_now_ms t)).
  2: { apply authenticated_ok in Ha as (now & Hnow & _). by apply unix_seconds_Ok in Hnow as (? & ? & _). }
  rewrite (proj2 (Z.leb_le 0 (cp_now_ms t'))) by lia.
  pose proof (Z.div_le_mono (cp_now_ms t) (cp_now_ms t') 1000 eq_refl ltac:(done)).
  eapply authentication_persists; [exact Ha | done | rewrite Hleeway; lia | done | done |].
  unfold HORIZON, i64_max in *. Z.to_euclidean_division_equations. lia.
Qed.

Section Credential.
Context (i : ActorJwtIssuer) (lifetime : Z) (Hrenews : renews_tokens i lifetime).

(** A registration leaves the client with a token that outlives the lease. *)
Lemma registered_credential request t w w' l :
  register_at request t w = (w', Ok l) ->
  credential_held (lr_id request) (lr_session_id request) w' t
    (cp_now_ms t + lr_duration_ms request).
Proof using All.
  intros (_ & p & replacement & Ha & (Hrole & Hid & Hses) & _ & Hdur & Hrepl & Hnext)%register_at_run
    t' Ht Hlt Hhor.
  destruct Hrenews as [Hissuer Htrusts Hpurpose Hlife Hlonger Hmax Hparse].
  apply replacement_Ok in Hrepl as [Hpos Hrepl].
  unfold MAX_HOST_LEASE_DURATION_MS, HOST_TOKEN_RENEWAL_WINDOW_SECONDS in *.
  pose proof (cp_now_ms_mono t t' Ht).
  destruct replacement as [new |].
  - destruct Hrepl as (i' & rev & issued & Hi & Hissue & ->). rewrite Hissuer in Hi. injection Hi as <-.
    apply authenticated_ok in Ha as (now & _ & Hok).
    unfold next_authorization, bearer_authorization in Hnext. inv_ok.
    match goal with H : parse_metadata _ = _ |- _ => apply Hparse in H as -> end.
    unfold accepted. rewrite (cp_elapsed_Some t') by lia. rewrite <- Hid, <- Hses.
    eapply (host_token_accepted (auth s) i lifetime now p (cp_now_ms t)); try done; try lia.
    + unfold HORIZON, i64_max in *. Z.to_euclidean_division_equations. lia.
    + unfold cp_seconds. Z.to_euclidean_division_equations. lia.
    + unfold cp_seconds. lia.
  - simpl in Hnext. rewrite Hnext. apply (accepted_later _ _ _ t); [by exists p | done | done | |].
    + destruct Htrusts as [_ ->]. done.
    + intros p' Hp'. rewrite Ha in Hp'. injection Hp' as <-. unfold cp_seconds in *.
      Z.to_euclidean_division_equations. lia.
Qed.

#[local] Instance credential_grant : LeaseRegistryLaws World client_lease_registry.
Proof using All.
  refine {| store_now := cp_now_ms; held := credential_held;
            store_now_mono := cp_now_ms_mono; store_now_shift := cp_now_ms_shift |}.
  - intros id session w t t' e Ht Hheld u Hu. apply Hheld. lia.
  - intros request t w w' l H. eexists. split; [reflexivity |]. by eapply registered_credential.
  - intros request t w w' error [_ Ha]%register_at_run. left. intros e. unfold credential_held.
    by rewrite Ha.
  - intros request t w t'. left. intros e. done.
Defined.
(** ** A host in its window *)

Section Window.
Context (clk : SystemClock) (m : HostLeaseMaintainer).

(** Nobody but the client replaces its token. *)
Definition leaves_credential (r : Round World) : Prop :=
  forall w, authorization (meanwhile r w) = authorization w.

Lemma timely_for_credential shutdown rounds task :
  timely_all (L := tables_grant) clk m shutdown rounds task ->
  Forall leaves_credential rounds ->
  timely_all (L := credential_grant) clk m shutdown rounds task.
Proof using All.
  intros Ht Hr. revert task Ht.
  induction Hr as [| r rounds Hr _ IH]; [done |]. intros task [(? & ? & ? & ? & _) Hrest].
  split; [| by apply IH]. split_and!; [done.. |].
  intros w e Hheld _. exists e. split; [done |]. intros t'. rewrite Hr. apply Hheld.
Qed.

(** The guard of the commands that write state. *)
Lemma active_host t p st e :
  tables_typed (database st) -> pg_held (Tokens.host_id p) (Tokens.session_id p) st = Some e ->
  0 <= pg_now_ms pg_offset t < e -> faults (statements st) = NoFault ->
  exists st' l, require_active_host (E := surroundings_at t) p st = (st', Ok l) /\
    hl_id l = Tokens.host_id p /\ hl_session_id l = Tokens.session_id p /\ hl_expires_at_ms l = e.
Proof.
  intros Htyped Hheld Hnow Hcalm. unfold pg_held in Hheld.
  destruct (host_leases (database st) !! Tokens.host_id p) as [row |] eqn:Hrow; [| done]. simpl in Hheld.
  destruct (decide (row_session_id row = Tokens.session_id p)) as [Hses |]; simplify_eq.
  apply Htyped in Hrow as He. unfold lease_row_typed, positive_bigint in He.
  unfold require_active_host, PostgresHostLeaseStore.lease_status, query, mbind, M_bind, M_context, lift.
  simpl. rewrite Hcalm. simpl. rewrite Hrow.
  rewrite (proj2 (u64_from_i64_Ok _ (pg_now_ms pg_offset t) (pg_now_ms pg_offset t)))
    by (unfold i64_max, u64_max in *; lia).
  simpl. rewrite (proj2 (u64_from_i64_Ok _ (row_expires_at_ms row) (row_expires_at_ms row)))
    by (unfold i64_max, u64_max in *; lia).
  simpl. unfold is_active. simpl. rewrite (proj2 (Z.ltb_lt _ _)) by lia. simpl.
  rewrite bool_decide_eq_true_2 by done. simpl. eexists _, _. split; [reflexivity |]. done.
Qed.
(** C8: A host that is sure of its lease is believed.  Started and renewing through the control
    plane, over a network that loses requests and replies, whatever renewals failed or were dropped
    and however late the task was polled: while its confirmed deadline is at least two milliseconds
    away, the token its client holds is accepted by the control plane as this host in this session,
    replaced in time before it expires, and the tables grant the session an unexpired lease, so that
    the guard of the commands that write state lets it pass unless its statement fails. *)
Theorem tenured_host_is_believed p (s0 s1 : Timed World) task0 shutdown rounds :
  0 <= lease_duration_ms m -> forward p ->
  start clk m p s0 = (s1, Ok task0) ->
  timely_all (L := tables_grant) clk m shutdown rounds task0 ->
  Forall leaves_credential rounds ->
  let task := renew_until_stopped clk m shutdown rounds task0 in
  let t := time (timed task) in
  let w := LeaseMaintenance.registry (timed task) in
  t + TRUNCATION <= deadline task -> cp_now_ms t < HORIZON ->
  exists principal,
    authenticate (auth s) (cp_seconds t) (cp_elapsed t) (Some (Some (authorization w))) = Ok principal /\
    process_role principal = Host /\ Tokens.host_id principal = endpoint_id (endpoint m) /\
    Tokens.session_id principal = session_id m /\
    (exists e, pg_held (endpoint_id (endpoint m)) (session_id m) (pg w) = Some e /\
               pg_now_ms pg_offset t < e) /\
    (0 <= pg_now_ms pg_offset t -> tables_typed (database (pg w)) ->
     faults (statements (pg w)) = NoFault ->
     exists st l, require_active_host (E := surroundings_at t) principal (pg w) = (st, Ok l)).
Proof using All.
  intros Hd Hp Hstart Htimely Hleaves task t w Hwindow Hhor.
  destruct (window_covered (L := tables_grant) clk m p s0 s1 task0 shutdown rounds Hd Hp Hstart
              Htimely Hwindow) as (e & Hheld & He).
  destruct (window_covered (L := credential_grant) clk m p s0 s1 task0 shutdown rounds Hd Hp Hstart
              (timely_for_credential _ _ _ Htimely Hleaves) Hwindow) as (e' & Hcred & He').
  destruct (Hcred t (Z.le_refl _) He' Hhor) as (principal & Ha & Hrole & Hid & Hses).
  exists principal. split_and!; [| done.. | by exists e |].
  - unfold authenticate. fold task in Ha. unfold w. by rewrite Ha.
  - intros Hpos Htyped Hcalm.
    destruct (active_host t principal (pg w) e) as (st & l & Hok & _); [done | | done | done | eauto].
    rewrite Hid, Hses. exact Hheld.
Qed.
End Window.
End Credential.
End Tenure.

(** ** A small system

    A host whose token has less than ten minutes left and whose control plane and
    server run by other clocks; its second registration is lost on the way back. *)
Section Sample.
#[local] Existing Instance plain_signer.

Definition tenure_service : ControlPlaneService :=
  {| storage_urls := {| buckets := ∅ |}; auth := sample_verifier "control" Tokens.ControlPlane;
     host_token_issuer := Some sample_issuer; routing := None |}.
Definition tenure_pg_offset : Duration := from_secs 7200.
Definition tenure_cp_offset : Duration := from_secs 4100.
Definition tenure_network (n : nat) : Delivery :=
  match n with 1%nat => ReplyLost ["connection reset"] | _ => Delivered end.
Definition tenure_maintainer : HostLeaseMaintainer :=
  {| endpoint := {| endpoint_id := Tokens.sample_host; endpoint_route := "https://h" |};
     LeaseMaintenance.session_id := sample_session; lease_duration_ms := 30000;
     renew_every := from_secs 10 |}.

(** The token of the host at a second of the control plane's clock. *)
Definition token_of (second : Z) : string :=
  match issue_host sample_issuer (Some (second * 1000)) "acme" Tokens.sample_host sample_session
          "r1" "eu" with
  | Ok issued => token issued
  | Err _ => ""
  end.
Definition tenure_begin : Timed (CloudWorld (X := ())) :=
  {| time := 0;
     LeaseMaintenance.registry :=
       {| pg := {| database := empty_database; statements := 0 |};
          authorization := "Bearer " +:+ token_of 1000; objects := ∅; exchanges := 0;
          elsewhere := tt |};
     consecutive_failures := 0 |}.

Definition tenure_lease (second : Z) : HostLease :=
  {| hl_id := Tokens.sample_host; hl_session_id := sample_session; hl_route := "https://h";
     hl_expires_at_ms := second * 1000 + 30000 |}.
Definition tenure_commands : list ControlPlaneCommand := [RegisterLease (lease_request tenure_maintainer)].
Definition tenure_replies : list ControlPlaneCommandReply :=
  [LeaseReply (tenure_lease 7200) (Some (token_of 4100)); LeaseReply (tenure_lease 7210) None;
   LeaseReply (tenure_lease 7220) None].
#[local] Instance tenure_messages : CommandSerde := {|
  command_to_vec := known_to_vec tenure_commands; command_from_slice := known_from_slice tenure_commands;
  reply_to_vec := known_to_vec tenure_replies; reply_from_slice := known_from_slice tenure_replies |}.
#[local] Instance tenure_messages_laws : CommandSerdeLaws tenure_messages.
Proof. split; intros x b; apply known_round_trip. Defined.

Definition tenure_pace : Pace :=
  {| to_store := 0; from_store := from_millis 4; between_samples := 1000 |}.
Definition tenure_round (second : Z) : Round (CloudWorld (X := ())) :=
  {| wake := from_secs second; meanwhile := fun w => w; pace := tenure_pace;
     poll := from_secs second + from_millis 8; dropped_reaches := false |}.
Definition tenure_registry : LeaseRegistry (CloudWorld (X := ())) :=
  client_lease_registry tenure_service tenure_pg_offset tenure_cp_offset (fun _ => NoFault)
    (fun _ _ => "") (fun _ => "") (fun _ => false) tenure_network (fun e => [status_message e])
    (fun _ => "reply") Ok (fun _ => ∅).
Definition tenure_started := start (R := tenure_registry) sample_clock tenure_maintainer tenure_pace
  tenure_begin.
Definition tenure_after (task0 : LeaseRenewalTask (CloudWorld (X := ()))) :=
  renew_until_stopped (R := tenure_registry) sample_clock tenure_maintainer None
    [tenure_round 10; tenure_round 20] task0.

Ltac evaluates := first [apply Z.leb_le | apply Z.ltb_lt]; vm_compute; reflexivity.

Lemma tenure_renews_tokens : renews_tokens tenure_service Ok sample_issuer 3600.
Proof.
  split; try done.
  - split; [| done]. exists "key". split; [by vm_compute | done].
  - by intros value a [= ->].
Qed.

Lemma tenured_host_is_believed_witness :
  exists s0 task0, tenure_started = (s0, Ok task0) /\
  let task := tenure_after task0 in
  deadline task = from_secs 50 /\
  authorization (LeaseMaintenance.registry (timed task)) <> authorization (LeaseMaintenance.registry tenure_begin) /\
  exists principal,
    authenticate (auth tenure_service) (cp_seconds tenure_cp_offset (time (timed task)))
      (cp_elapsed tenure_cp_offset (time (timed task)))
      (Some (Some (authorization (LeaseMaintenance.registry (timed task))))) = Ok principal /\
    Tokens.host_id principal = Tokens.sample_host.
Proof.
  destruct tenure_started as [s0 r] eqn:Hstart.
  destruct r as [task0 | error]; [| exfalso; vm_compute in Hstart; discriminate].
  exists s0, task0. split; [reflexivity |].
  assert (task0 = match tenure_started with (_, Ok task) => task | _ => task0 end) as Htask
    by (rewrite Hstart; reflexivity).
  split; [rewrite Htask; vm_compute; reflexivity |].
  split; [rewrite Htask; vm_compute; discriminate |].
  destruct (tenured_host_is_believed tenure_service tenure_pg_offset tenure_cp_offset
    (fun _ => NoFault) (fun _ _ => "") (fun _ => "") (fun _ => false) tenure_network
    (fun e => [status_message e]) (fun _ => "reply") Ok (fun _ => ∅) sample_issuer 3600
    tenure_renews_tokens sample_clock tenure_maintainer tenure_pace tenure_begin s0 task0 None
    [tenure_round 10; tenure_round 20]) as (principal & Ha & _ & Hid & _).
  - evaluates.
  - split_and!; evaluates.
  - exact Hstart.
  - rewrite Htask. split; [| split; [| exact I]]; split_and!;
      first [ evaluates
            | unfold forward; split_and!; evaluates
            | intros _; evaluates
            | intros w e Hheld _; exists e; split; [reflexivity | exact Hheld] ].
  - repeat constructor.
  - rewrite Htask. evaluates.
  - rewrite Htask. evaluates.
  - exists principal. split; [exact Ha | exact Hid].
Defined.
End Sample.
