(* ===== verification/HostService.v ===== *)
(** * The host's gRPC service

    The wire format of invocations and results ([src/grpc/wire.rs],
    [proto/durable_object.proto]) and the service that authorizes a request
    before the host executes it ([src/grpc/service.rs]).  The protobuf codec and
    [serde_json] are not part of the repository. *)
From S2P Require Import Prelude Net Json Identity SocketProtocol StateLog StorageUrls Tokens ActorHost HostSafety.
Local Open Scope string_scope.

Module proto.
Record InvokeActorRequest := {
  request_id : string;
  actor : option ActorKey;
  method : string;
  args_json : bytes;
}.

Record HostInvokeActorRequest := {
  invocation : option InvokeActorRequest;
  owner_epoch : Z;
  state_read_url : string;
  state_version : Z;
}.

Record HostSocketEventRequest := {
  se_request_id : string;
  se_actor : option ActorKey;
  event_json : bytes;
  connections_json : bytes;
  se_owner_epoch : Z;
  se_state_read_url : string;
  se_state_version : Z;
}.

(** The [oneof] of [InvokeActorReply]. *)
Inductive InvokeActorResult :=
| Completed (result_json socket_effects_json : bytes)
| Failed (code message : string)
| Reroute.

Record InvokeActorReply := { result : option InvokeActorResult }.
End proto.

Section Wire.
Context `{J : Json}.

(** [serde_json] at the types of the messages. *)
Class WireSerde := {
  args_to_vec : list Value -> anyhow bytes;
  args_from_slice : bytes -> anyhow (list Value);
  value_from_slice : bytes -> anyhow Value;
  effects_to_vec : list ActorSocketEffect -> anyhow bytes;
  effects_from_slice : bytes -> anyhow (list ActorSocketEffect);
  event_to_vec : ActorSocketEvent -> anyhow bytes;
  event_from_slice : bytes -> anyhow ActorSocketEvent;
  connections_to_vec : list ActorSocketConnection -> anyhow bytes;
  connections_from_slice : bytes -> anyhow (list ActorSocketConnection);
}.
Context `{S : WireSerde}.

(** [.expect(..)]: a panic is [None]. *)
Definition expect {A} (r : anyhow A) : option A := result_ok r.

Definition invocation_of_proto (i : proto.InvokeActorRequest) : anyhow ActorInvocation :=
  actor ← some_or "actor key is required" (proto.actor i);
  args ← with_context "actor arguments must be a JSON array" (args_from_slice (proto.args_json i));
  let invocation := {| Identity.request_id := proto.request_id i; actor := actor;
                       method := proto.method i; args := args |} in
  ActorInvocation_validate invocation;;
  Ok invocation.

Definition proto_of_invocation (i : ActorInvocation) : option proto.InvokeActorRequest :=
  args_json ← expect (args_to_vec (args i));
  Some {| proto.request_id := Identity.request_id i; proto.actor := Some (actor i);
          proto.method := method i; proto.args_json := args_json |}.

Definition reply_of_result (reply : ActorExecutionResult) : option proto.InvokeActorReply :=
  result ← match reply with
           | Completed result effects =>
               result_json ← expect (value_to_vec result);
               socket_effects_json ← expect (effects_to_vec effects);
               Some (proto.Completed result_json socket_effects_json)
           | Failed failure => Some (proto.Failed (Identity.code failure) (Identity.message failure))
           | Reroute => Some proto.Reroute
           | HostUnavailable => Some (proto.Failed "unavailable" "actor host is draining")
           end;
  Some {| proto.result := Some result |}.

Definition result_of_reply (reply : proto.InvokeActorReply) : anyhow ActorExecutionResult :=
  result ← some_or "actor reply omitted its result" (proto.result reply);
  match result with
  | proto.Completed result_json socket_effects_json =>
      result ← with_context "actor result is not valid JSON" (value_from_slice result_json);
      effects ← with_context "actor socket effects are not valid JSON"
                  (effects_from_slice socket_effects_json);
      Ok (Completed result effects)
  | proto.Failed code message => Ok (Failed {| Identity.code := code; Identity.message := message |})
  | proto.Reroute => Ok Reroute
  end.

Definition socket_invocation_of_proto (r : proto.HostSocketEventRequest)
    : anyhow ActorSocketInvocation :=
  actor ← some_or "actor key is required" (proto.se_actor r);
  ActorKey_validate actor;;
  event ← with_context "actor socket event is not valid JSON"
            (event_from_slice (proto.event_json r));
  connections ← with_context "actor socket connections are not valid JSON"
                  (connections_from_slice (proto.connections_json r));
  Ok {| si_request_id := proto.se_request_id r; si_actor := actor; si_event := event;
        si_connections := connections; si_state := None |}.

(** ** Authorization *)

Definition validate_host_request (principal : ActorPrincipal) (host_id : HostId)
    (actor : ActorKey) (owner_epoch state_version : Z) (state_read_url : string)
    : Result Status () :=
  if negb (ActorScope_contains (scope principal) actor) then
    Err (status PermissionDenied "actor invocation crossed namespace scope")
  else if (owner_epoch =? 0)%Z || negb (Bool.eqb (state_version =? 0)%Z (is_empty state_read_url))
  then Err (status InvalidArgument "actor ownership capability is incomplete")
  else if negb (bool_decide (process_role principal = Host))
          || negb (bool_decide (Tokens.host_id principal = host_id))
  then Err (status PermissionDenied "actor invocation credential is not for this host")
  else match invocation principal with
       | Some capability =>
           if negb (bool_decide (cap_actor capability = actor))
              || negb (bool_decide (cap_host_id capability = host_id))
              || negb (cap_owner_epoch capability =? owner_epoch)%Z
              || negb (cap_state_version capability =? state_version)%Z
              || negb (bool_decide (cap_state_read_url capability = state_read_url))
           then Err (status PermissionDenied
                       "actor invocation does not match its direct capability")
           else Ok ()
       | None => Ok ()
       end.

Record AuthorizedHostInvocation := {
  ahi_invocation : ActorInvocation;
  ahi_owner_epoch : Z;
  ahi_state_version : Z;
  ahi_state_read_url : string;
}.

Context {T : Jwt} {Parser : UrlParser} {Uuids : UuidParser}.

(** [ActorHostGrpcService]; the host itself is the state. *)
Record ActorHostGrpcService := { service_host_id : HostId; invocation_auth : ActorJwtVerifier }.

(** What reaches the service with a request: the authorization metadata, and
    the two clock readings of its verification. *)
Record Incoming := {
  metadata : option (option string);
  decode_at : Z;
  elapsed : option Z;
}.

Definition invalid_argument {A} (r : anyhow A) : Result Status A :=
  map_err (fun e => status InvalidArgument (alternate e)) r.

Definition authorize_invocation (svc : ActorHostGrpcService) (inc : Incoming)
    (request : proto.HostInvokeActorRequest) : Result Status AuthorizedHostInvocation :=
  principal ← authenticate (invocation_auth svc) (decode_at inc) (elapsed inc) (metadata inc);
  invocation ← match proto.invocation request with
               | None => Err (status InvalidArgument "actor invocation is required")
               | Some i => invalid_argument (invocation_of_proto i)
               end;
  validate_host_request principal (service_host_id svc) (actor invocation)
    (proto.owner_epoch request) (proto.state_version request) (proto.state_read_url request);;
  Ok {| ahi_invocation := invocation; ahi_owner_epoch := proto.owner_epoch request;
        ahi_state_version := proto.state_version request;
        ahi_state_read_url := proto.state_read_url request |}.

Context {C : @SnapshotSerde J} {B64 : Base64} {W : Type} {Env : HostEnv W}.
Abbreviation Host := (@ActorHost J W).

(** The detached task: an error of the host becomes the failure "unavailable";
    a panic while the reply is built stops it without a reply. *)
Definition invoke_detached (request : AuthorizedHostInvocation)
    : M Host Status proto.InvokeActorReply :=
  outcome ← attempt (invoke_actor (ahi_invocation request) (ahi_owner_epoch request)
                       (ahi_state_version request) (ahi_state_read_url request));
  let result := match outcome with
                | Ok result => result
                | Err _ => Failed {| Identity.code := "unavailable";
                    Identity.message := "actor could not start because its state was unavailable" |}
                end in
  match reply_of_result result with
  | Some reply => mret reply
  | None => lift (Err (status Internal "actor invocation task stopped"))
  end.

(** [ActorHostService::invoke] *)
Definition invoke (svc : ActorHostGrpcService) (inc : Incoming)
    (request : proto.HostInvokeActorRequest) : M Host Status proto.InvokeActorReply :=
  invocation ← lift (authorize_invocation svc inc request);
  invoke_detached invocation.

Definition result_of_socket (result : ActorSocketExecutionResult) : ActorExecutionResult :=
  match result with
  | SocketHandled effects => Completed Null effects
  | SocketExecutionFailed failure => Failed failure
  | SocketHostUnavailable => HostUnavailable
  end.

(** [ActorHostService::handle_socket]; the outer [option] is a panic. *)
Definition handle_socket (svc : ActorHostGrpcService) (inc : Incoming)
    (request : proto.HostSocketEventRequest) : M Host Status (option proto.InvokeActorReply) :=
  principal ← lift (authenticate (invocation_auth svc) (decode_at inc) (elapsed inc) (metadata inc));
  invocation ← lift (invalid_argument (socket_invocation_of_proto request));
  lift (validate_host_request principal (service_host_id svc) (si_actor invocation)
          (proto.se_owner_epoch request) (proto.se_state_version request)
          (proto.se_state_read_url request));;
  outcome ← attempt (handle_socket_event invocation (proto.se_owner_epoch request)
                       (proto.se_state_version request) (proto.se_state_read_url request));
  result ← lift (map_err (fun e => status Unavailable
                   ("actor socket event failed: " +:+ alternate e)) outcome);
  mret (reply_of_result (result_of_socket result)).
End Wire.
Arguments WireSerde : clear implicits.
Arguments WireSerde J : assert.

(** ** What the service guarantees *)

Section Properties.
Context `{J : Json} {S : WireSerde J}.
Context {T : Jwt} {Parser : UrlParser} {Uuids : UuidParser} {B64 : Base64}.

(** What a caller sees of an execution's result: everything, except that a
    draining host looks like a failed one. *)
Definition seen_by_caller (r : ActorExecutionResult) : ActorExecutionResult :=
  match r with
  | HostUnavailable => failed "unavailable" "actor host is draining"
  | r => r
  end.

(** a result reaches the caller as the host produced it, when its JSON
    documents survive their text form; only "host unavailable" is turned into an
    ordinary failure, so a caller of the wire never learns from a reply that the
    actor could be reached elsewhere. *)
Lemma results_survive_the_wire (r : ActorExecutionResult) (reply : proto.InvokeActorReply)
    (Hdocs : match r with
             | Completed v effects =>
                 (forall b, value_to_vec v = Ok b -> value_from_slice b = Ok v) /\
                 (forall b, effects_to_vec effects = Ok b -> effects_from_slice b = Ok effects)
             | _ => True
             end)
    (H : reply_of_result r = Some reply) :
  result_of_reply reply = Ok (seen_by_caller r) /\
  result_of_reply reply <> Ok HostUnavailable.
Proof.
  destruct r as [v effects | f | |]; unfold reply_of_result, expect, result_ok in H; simpl in H.
  - destruct Hdocs as [Hv Hf].
    destruct (value_to_vec v) eqn:Ev; [| done]. destruct (effects_to_vec effects) eqn:Ef; [| done].
    simpl in H. injection H as <-. unfold result_of_reply. simpl.
    by rewrite (Hv _ eq_refl), (Hf _ eq_refl).
  - injection H as <-. by destruct f.
  - by injection H as <-.
  - by injection H as <-.
Qed.

(** The request is about what the capability was issued for. *)
Definition capability_matches (c : ActorInvocationCapability) (host_id : HostId)
    (actor : ActorKey) (owner_epoch state_version : Z) (state_read_url : string) : Prop :=
  c = {| cap_actor := actor; cap_host_id := host_id; cap_owner_epoch := owner_epoch;
         cap_state_version := state_version; cap_state_read_url := state_read_url |}.

Record request_authorized (p : ActorPrincipal) (host_id : HostId) (actor : ActorKey)
    (owner_epoch state_version : Z) (state_read_url : string) : Prop := {
  ra_namespace : namespace_id actor = scope_namespace_id (scope p);
  ra_epoch : owner_epoch <> 0%Z;
  ra_url : state_version = 0%Z <-> state_read_url = "";
  ra_role : process_role p = Host;
  ra_host : Tokens.host_id p = host_id;
  ra_capability : forall c, invocation p = Some c ->
    capability_matches c host_id actor owner_epoch state_version state_read_url;
}.

Lemma validate_host_request_Ok p host_id actor e v u :
  validate_host_request p host_id actor e v u = Ok tt <-> request_authorized p host_id actor e v u.
Proof.
  assert (Hu : Bool.eqb (v =? 0)%Z (is_empty u) = true <-> (v = 0%Z <-> u = "")).
  { rewrite Bool.eqb_true_iff, <- is_empty_spec, <- Z.eqb_eq.
    destruct (v =? 0)%Z, (is_empty u); intuition congruence. }
  unfold validate_host_request, ActorScope_contains. split.
  - intros H. repeat case_match; try done; bool_prop; simplify_eq.
    + split; try done; [by apply Hu |]. intros c Hc. unfold capability_matches. destruct c. simplify_eq/=. done.
    + split; try done; [by apply Hu |]. intros c Hc. congruence.
  - intros [Hn He%Z.eqb_neq Hurl%Hu Hr Hh Hc].
    rewrite (bool_decide_eq_true_2 _ Hn), He, Hurl, (bool_decide_eq_true_2 _ Hr),
      (bool_decide_eq_true_2 _ Hh). simpl.
    destruct (invocation p) as [c |]; [| done].
    rewrite (Hc c eq_refl). simpl. rewrite !bool_decide_eq_true_2, !Z.eqb_refl by done. done.
Qed.

Lemma invalid_argument_Ok {A} (r : anyhow A) x : invalid_argument r = Ok x <-> r = Ok x.
Proof. apply map_err_Ok. Qed.

Section Service.
Context {C : @SnapshotSerde J} {W : Type} {Env : HostEnv W}.

(** The invocation [i] is the one the message [m] asks for, arguments included. *)
Record requested (m : proto.InvokeActorRequest) (i : ActorInvocation) : Prop := {
  rq_request_id : Identity.request_id i = proto.request_id m;
  rq_actor : proto.actor m = Some (actor i);
  rq_method : method i = proto.method m;
  rq_args : args_from_slice (proto.args_json m) = Ok (args i);
  rq_valid : ActorInvocation_validate i = Ok tt;
}.

Lemma invocation_of_proto_requested m i : invocation_of_proto m = Ok i -> requested m i.
Proof.
  unfold invocation_of_proto. intros H. inv_ok.
  repeat match goal with
         | H : some_or _ _ = Ok _ |- _ => apply some_or_Ok in H
         | H : with_context _ _ = Ok _ |- _ => apply with_context_Ok in H
         end. by split.
Qed.

Lemma authorize_invocation_Ok svc inc request a :
  authorize_invocation svc inc request = Ok a ->
  exists p m, authenticate (invocation_auth svc) (decode_at inc) (elapsed inc) (metadata inc) = Ok p /\
    proto.invocation request = Some m /\ requested m (ahi_invocation a) /\
    request_authorized p (service_host_id svc) (actor (ahi_invocation a))
      (ahi_owner_epoch a) (ahi_state_version a) (ahi_state_read_url a) /\
    ahi_owner_epoch a = proto.owner_epoch request /\
    ahi_state_version a = proto.state_version request /\
    ahi_state_read_url a = proto.state_read_url request.
Proof.
  unfold authorize_invocation. intros H. inv_ok.
  match goal with Hv : validate_host_request _ _ _ _ _ _ = _ |- _ =>
    apply validate_host_request_Ok in Hv end.
  destruct (proto.invocation request) as [m |]; [| done].
  match goal with Hi : invalid_argument _ = _ |- _ =>
    apply invalid_argument_Ok, invocation_of_proto_requested in Hi end.
  by eexists _, m.
Qed.

(** What the caller is told of an outcome: its result, or, when the host could
    not run the actor, that it is unavailable. *)
Definition outcome_told (outcome : anyhow ActorExecutionResult) : ActorExecutionResult :=
  match outcome with
  | Ok result => result
  | Err _ => failed "unavailable" "actor could not start because its state was unavailable"
  end.

(** C28: nothing runs on a host without a credential for it.  Either the request
    is refused and the host is exactly as before; or the caller was
    authenticated as a host principal of this very host and of the actor's
    namespace, a capability, if its token carries one, names this actor, epoch,
    version and state URL, and what ran, once, is the invocation of the
    request's message: its request id, its actor, its method and its decoded
    arguments, with the request's epoch, version and state URL.  The answer is
    that run's result, "unavailable" when the host could not run the actor.  (A
    token without a capability is accepted for every actor of its namespace, as
    [validate_host_request] has it.) *)
Theorem served_requests_are_authorized
    (svc : ActorHostGrpcService) (inc : Incoming) (request : proto.HostInvokeActorRequest)
    (h h' : ActorHost) (r : Result Status proto.InvokeActorReply)
    (H : invoke svc inc request h = (h', r)) :
  (h' = h /\ exists s, r = Err s) \/
  exists p m i, authenticate (invocation_auth svc) (decode_at inc) (elapsed inc) (metadata inc) = Ok p /\
    proto.invocation request = Some m /\ requested m i /\
    request_authorized p (service_host_id svc) (actor i) (proto.owner_epoch request)
      (proto.state_version request) (proto.state_read_url request) /\
    exists outcome, invoke_actor i (proto.owner_epoch request) (proto.state_version request)
      (proto.state_read_url request) h = (h', outcome) /\
      forall reply, r = Ok reply -> reply_of_result (outcome_told outcome) = Some reply.
Proof.
  unfold invoke, mbind, M_bind, lift in H.
  destruct (authorize_invocation svc inc request) as [a | s] eqn:Ha;
    [| left; simplify_eq; eauto].
  right. apply authorize_invocation_Ok in Ha as (p & m & Hp & Hm & Hreq & Hauth & He & Hv & Hu).
  rewrite He, Hv, Hu in *.
  exists p, m, (ahi_invocation a). split_and!; try done.
  unfold invoke_detached, mbind, M_bind, attempt, mret, M_ret, lift in H.
  rewrite He, Hv, Hu in H.
  destruct (invoke_actor _ _ _ _ h) as [h1 o] eqn:Ho. exists o. fold (outcome_told o) in H.
  destruct (reply_of_result _) as [reply |]; simplify_eq; (split; [done |]); by intros ? [= <-].
Qed.
End Service.

(** The principal of a target's token, and that the service admits it for the target. *)
Lemma issued_target_admitted {L : JwtLaws T}
    (i : ActorJwtIssuer) (svc : ActorHostGrpcService) (issued_ms now_ms decode_at : Z)
    (actor : ActorKey) (s rev reg : string) (epoch ver : Z) (url : string)
    (wexp : Z) (t : IssuedActorToken)
    (Hms : (0 <= issued_ms)%Z)
    (Hml : (0 <= issuer_max_lifetime i <= max_lifetime (invocation_auth svc))%Z)
    (Hi : issue_invocation_target i (Some issued_ms) actor (service_host_id svc) s rev reg epoch
            ver url wexp = Ok t)
    (Hv : trusts (invocation_auth svc) i (invocation_audience i))
    (Hpurpose : purpose (invocation_auth svc) = Invocation)
    (Hh : starts_with (service_host_id svc) ("host.v1." +:+ namespace_id actor +:+ ".") = true)
    (Hs : uuid_ok s = true) (Hurl : url_fits ver url) (Hne : ver <> 0%Z -> url <> "")
    (Hd : (issued_ms / 1000 - 5 <= decode_at)%Z)
    (Hd' : (decode_at * 1000 <= token_expires_at_ms t)%Z)
    (Hnow : (issued_ms / 1000 - 5 <= now_ms / 1000)%Z)
    (Hnow' : (now_ms / 1000 * 1000 < token_expires_at_ms t)%Z) :
  exists p, authenticate_authorization (invocation_auth svc) decode_at (Some now_ms) ("Bearer " +:+ token t) = Ok p /\
    invocation p = Some {| cap_actor := actor; cap_host_id := service_host_id svc; cap_owner_epoch := epoch;
      cap_state_version := ver; cap_state_read_url := url |} /\
    ActorKey_validate actor = Ok tt /\
    validate_host_request p (service_host_id svc) actor epoch ver url = Ok tt.
Proof.
  assert (He : (0 < epoch)%Z /\ ActorKey_validate actor = Ok tt).
  { apply issue_invocation_target_Ok in Hi as (? & _ & ? & _ & He & _); [done | lia..]. }
  destruct He as [He Ha].
  edestruct (invocation_target_accepted i (invocation_auth svc) issued_ms now_ms decode_at)
    as (p & Hp & Hr & Hid & _ & _ & Hns & Hcap & _); [eassumption.. |].
  exists p. split_and!; try done. apply validate_host_request_Ok. split; try done; [lia | |].
  - destruct Hurl as [[-> ->] | [Hv0 _]]; [done |]. split; [done |]. intros ->. by destruct Hne.
  - intros c Hc. rewrite Hcap in Hc. by injection Hc as <-.
Qed.

(** C11: end to end: the token that [issue_invocation_target] made for one actor,
    epoch, version and state URL, sent to the host it names before it expires,
    authorizes exactly that invocation: a request is accepted if and only if
    it is about the same actor, epoch, version and URL (and its message is well
    formed). *)
Theorem resolved_invocation_is_authorized {L : JwtLaws T}
    (i : ActorJwtIssuer) (svc : ActorHostGrpcService) (issued_ms now_ms decode_at : Z)
    (actor : ActorKey) (s rev reg : string) (epoch ver : Z) (url : string)
    (wexp : Z) (t : IssuedActorToken)
    (Hms : (0 <= issued_ms)%Z)
    (Hml : (0 <= issuer_max_lifetime i <= max_lifetime (invocation_auth svc))%Z)
    (Hi : issue_invocation_target i (Some issued_ms) actor (service_host_id svc) s rev reg epoch
            ver url wexp = Ok t)
    (Hv : trusts (invocation_auth svc) i (invocation_audience i))
    (Hpurpose : purpose (invocation_auth svc) = Invocation)
    (Hh : starts_with (service_host_id svc) ("host.v1." +:+ namespace_id actor +:+ ".") = true)
    (Hs : uuid_ok s = true) (Hurl : url_fits ver url) (Hne : ver <> 0%Z -> url <> "")
    (Hd : (issued_ms / 1000 - 5 <= decode_at)%Z)
    (Hd' : (decode_at * 1000 <= token_expires_at_ms t)%Z)
    (Hnow : (issued_ms / 1000 - 5 <= now_ms / 1000)%Z)
    (Hnow' : (now_ms / 1000 * 1000 < token_expires_at_ms t)%Z)
    (m : proto.InvokeActorRequest) (n : ActorInvocation) (Hm : invocation_of_proto m = Ok n)
    (e v : Z) (u : string) :
  let inc := {| metadata := Some (Some ("Bearer " +:+ token t)); decode_at := decode_at;
                elapsed := Some now_ms |} in
  let request := {| proto.invocation := Some m; proto.owner_epoch := e;
                    proto.state_read_url := u; proto.state_version := v |} in
  is_ok (authorize_invocation svc inc request) = true <->
  Identity.actor n = actor /\ e = epoch /\ v = ver /\ u = url.
Proof.
  edestruct (issued_target_admitted i svc issued_ms now_ms decode_at)
    as (p & Hp & Hcap & _ & Hvalid); [eassumption.. |].
  unfold authorize_invocation. simpl. rewrite Hp. simpl. rewrite Hm. simpl. split.
  - destruct (validate_host_request p _ _ e v u) as [[] | st] eqn:E; [| done]. intros _.
    apply validate_host_request_Ok in E. pose proof (ra_capability _ _ _ _ _ _ E _ Hcap) as Hc.
    injection Hc as -> -> -> ->. done.
  - intros (<- & -> & -> & ->). by rewrite Hvalid.
Qed.
End Properties.

(** ** A host under its service *)

Definition text_of (b : bytes) : string :=
  String.string_of_list_ascii (Ascii.ascii_of_byte <$> b).

#[local] Instance text_wire : WireSerde text_json := {|
  args_to_vec l := Ok (text_to_vec (concat_chunks l));
  args_from_slice b := Ok [text_of b];
  value_from_slice b := Ok (text_of b);
  effects_to_vec l := match l with [] => Ok [] | _ => Err ["not spelled"] end;
  effects_from_slice b := match b with [] => Ok [] | _ => Err ["not spelled"] end;
  event_to_vec _ := Err ["not spelled"];
  event_from_slice _ := Err ["not spelled"];
  connections_to_vec _ := Err ["not spelled"];
  connections_from_slice _ := Err ["not spelled"];
|}.

#[local] Instance no_base64 : Base64 := {| base64_decode _ := Err ["not spelled"] |}.

Lemma results_survive_the_wire_witness :
  exists reply, reply_of_result (J := text_json) (Completed (J := text_json) "1" []) = Some reply /\
    result_of_reply reply = Ok (Completed (J := text_json) "1" []).
Proof.
  eexists. split; [vm_compute; reflexivity |].
  edestruct (results_survive_the_wire (J := text_json) (Completed (J := text_json) "1" [])) as [H _];
    [| vm_compute; reflexivity | exact H].
  split; intros b Hb; vm_compute in Hb; injection Hb as <-; vm_compute; reflexivity.
Defined.

Definition sample_service : ActorHostGrpcService :=
  {| service_host_id := Tokens.sample_host;
     invocation_auth := sample_verifier "hosts" Invocation |}.

Definition sample_message : proto.InvokeActorRequest :=
  {| proto.request_id := "req-1"; proto.actor := Some sample_actor; proto.method := "increment";
     proto.args_json := [] |}.

Definition sample_request : proto.HostInvokeActorRequest :=
  {| proto.invocation := Some sample_message; proto.owner_epoch := 3;
     proto.state_read_url := "https://storage/x"; proto.state_version := 1 |}.

Definition serving_host : ActorHost (J := text_json) (W := World) :=
  ActorHost_new {| endpoint_id := Tokens.sample_host; endpoint_route := "http://a" |} "acme"
    {| commits := 0 |}.

Definition sample_incoming (t : IssuedActorToken) : Incoming :=
  {| metadata := Some (Some ("Bearer " +:+ token t)); decode_at := 1030;
     elapsed := Some 1030500%Z |}.

#[local] Existing Instance sample_env.

Lemma served_requests_are_authorized_witness :
  exists t h' r, sample_target = Ok t /\
    HostService.invoke sample_service (sample_incoming t) sample_request serving_host = (h', r) /\
    trace h' <> [] /\
    ((h' = serving_host /\ exists s, r = Err s) \/
     exists p m i, authenticate (invocation_auth sample_service) 1030 (Some 1030500%Z)
         (Some (Some ("Bearer " +:+ token t))) = Ok p /\
       Some sample_message = Some m /\ requested m i /\
       request_authorized p Tokens.sample_host (Identity.actor i) 3 1 "https://storage/x" /\
       exists outcome, invoke_actor i 3 1 "https://storage/x" serving_host = (h', outcome) /\
         forall reply, r = Ok reply -> reply_of_result (outcome_told outcome) = Some reply).
Proof.
  destruct sample_target as [t |] eqn:E; [| vm_compute in E; discriminate].
  destruct (HostService.invoke sample_service (sample_incoming t) sample_request serving_host)
    as [h' r] eqn:H.
  exists t, h', r. split; [reflexivity |]. split; [exact H |]. split.
  - unfold sample_target in E. vm_compute in E. injection E as <-.
    vm_compute in H. injection H as <- <-. vm_compute. discriminate.
  - exact (served_requests_are_authorized sample_service (sample_incoming t) sample_request
      serving_host h' r H).
Defined.

Lemma resolved_invocation_is_authorized_witness :
  exists t, sample_target = Ok t /\
    is_ok (authorize_invocation sample_service (sample_incoming t) sample_request) = true.
Proof.
  destruct sample_target as [t |] eqn:E; [| vm_compute in E; discriminate].
  assert (Ht : token_expires_at_ms t = 1060000%Z).
  { unfold sample_target in E. vm_compute in E. injection E as <-. reflexivity. }
  exists t. split; [reflexivity |].
  destruct (invocation_of_proto sample_message) as [n |] eqn:Hn; [| vm_compute in Hn; discriminate].
  apply (resolved_invocation_is_authorized sample_issuer sample_service 1000000 1030500 1030
    sample_actor sample_session "r1" "eu" 3 1 "https://storage/x" 5000 t) with (n := n).
  - vm_compute. discriminate.
  - vm_compute. split; discriminate.
  - exact E.
  - split; [exists "key"; split; reflexivity | reflexivity].
  - reflexivity.
  - reflexivity.
  - reflexivity.
  - right. split; [discriminate |]. eexists. split; reflexivity.
  - discriminate.
  - vm_compute. discriminate.
  - rewrite Ht. vm_compute. discriminate.
  - vm_compute. discriminate.
  - rewrite Ht. vm_compute. reflexivity.
  - exact Hn.
  - vm_compute in Hn. injection Hn as <-. vm_compute. repeat split; reflexivity.
Defined.
