(* ===== verification/SocketDelivery.v ===== *)
(** * Socket events on their way to a host

    [ControlPlaneService::send_socket_event] ([src/control_plane/service.rs]) against
    [ActorHostService::handle_socket] ([src/grpc/service.rs]): what the control plane
    asks for is what the host does, and what the host answers is what the control
    plane sees, except for a draining host.  Channels, message limits and
    transport failures are tonic's. *)
From S2P Require Import Prelude Net Json Identity SocketProtocol StateLog StorageUrls Tokens Database Leases Admin Placement ControlPlane ActorHost HostSafety HostService.
Local Open Scope string_scope.

Section Delivery.
Context `{J : Json} {S : WireSerde J} {C : @SnapshotSerde J} {B : Base64}.
Context {T : Jwt} {Parser : UrlParser} {Uuids : UuidParser} {W : Type} {Env : HostEnv W}.
(** [host_channels.try_get_with], parsing a metadata value, and how a status and a broken
    connection become errors. *)
Context (connect : string -> anyhow ()) (parse_metadata : string -> anyhow ())
        (status_error : Status -> Error) (disconnected : Error).

(** The message that [send_socket_event] builds. *)
Definition socket_event_request (target : WorkflowActorTarget) (invocation : ActorSocketInvocation)
    : anyhow proto.HostSocketEventRequest :=
  event_json ← event_to_vec (si_event invocation);
  connections_json ← connections_to_vec (si_connections invocation);
  Ok {| proto.se_request_id := si_request_id invocation; proto.se_actor := Some (si_actor invocation);
        proto.event_json := event_json; proto.connections_json := connections_json;
        proto.se_owner_epoch := target_owner_epoch target;
        proto.se_state_read_url := target_state_read_url target;
        proto.se_state_version := target_state_version target |}.

(** To the service [svc] of the host; a handler that panics closes the connection. *)
Definition send_socket_event (svc : ActorHostGrpcService) (decode_at : Z) (elapsed : option Z)
    (target : WorkflowActorTarget) (invocation : ActorSocketInvocation)
    : M (ActorHost (W := W)) Error ActorExecutionResult :=
  lift (map_err (fun e => [alternate e]) (connect (target_route target)));;
  request ← lift (socket_event_request target invocation);
  let authorization := "Bearer " +:+ target_token target in
  lift (parse_metadata authorization);;
  reply ← attempt (handle_socket svc {| metadata := Some (Some authorization); decode_at := decode_at;
                                        elapsed := elapsed |} request);
  reply ← lift (match reply with
                | Ok (Some reply) => Ok reply
                | Ok None => Err disconnected
                | Err status => Err (status_error status)
                end);
  lift (result_of_reply reply).

(** The documents of an event survive their text form. *)
Definition documents_survive (invocation : ActorSocketInvocation) : Prop :=
  (exists b, event_to_vec (si_event invocation) = Ok b /\ event_from_slice b = Ok (si_event invocation)) /\
  (exists b, connections_to_vec (si_connections invocation) = Ok b /\
             connections_from_slice b = Ok (si_connections invocation)).

Lemma request_decodes target invocation :
  documents_survive invocation -> si_state invocation = None ->
  ActorKey_validate (si_actor invocation) = Ok tt ->
  exists request, socket_event_request target invocation = Ok request /\
    socket_invocation_of_proto request = Ok invocation /\
    proto.se_owner_epoch request = target_owner_epoch target /\
    proto.se_state_read_url request = target_state_read_url target /\
    proto.se_state_version request = target_state_version target.
Proof.
  intros [(b & Hb & Hb') (c & Hc & Hc')] Hs Ha. unfold socket_event_request. rewrite Hb, Hc.
  eexists. split; [reflexivity |]. unfold socket_invocation_of_proto. simpl.
  rewrite Ha. simpl. rewrite Hb', Hc'. simpl. destruct invocation. simpl in *. by subst.
Qed.

(** What the control plane makes of the host's outcome. *)
Definition seen_by_control_plane (outcome : anyhow ActorSocketExecutionResult)
    : anyhow ActorExecutionResult :=
  match outcome with
  | Ok (SocketHandled effects) => Ok (Completed Null effects)
  | Ok (SocketExecutionFailed failure) => Ok (Failed failure)
  | Ok SocketHostUnavailable => Ok (failed "unavailable" "actor host is draining")
  | Err e => Err (status_error (status Unavailable ("actor socket event failed: " +:+ alternate e)))
  end.

(** C31: A socket event reaches the host of its target as it was sent.  With a target whose token was
    issued for this actor, host, epoch, version and URL and has not expired, the host handles
    exactly this event with these parameters, changes in no other way, and the control plane sees
    the outcome: the effects, the failure, or the error.  A draining host is seen as a failure: the
    answer is never the one that makes [dispatch_socket_event] look for another host. *)
Theorem socket_event_delivered {L : JwtLaws T}
    (i : ActorJwtIssuer) (svc : ActorHostGrpcService) (issued_ms now_ms decode_at : Z)
    (s rev reg : string) (wexp : Z) (t : IssuedActorToken)
    (target : WorkflowActorTarget) (invocation : ActorSocketInvocation)
    (h h' : ActorHost (W := W)) (outcome : anyhow ActorSocketExecutionResult)
    (Hms : (0 <= issued_ms)%Z)
    (Hml : (0 <= issuer_max_lifetime i <= max_lifetime (invocation_auth svc))%Z)
    (Hi : issue_invocation_target i (Some issued_ms) (si_actor invocation) (service_host_id svc) s rev reg
            (target_owner_epoch target) (target_state_version target) (target_state_read_url target)
            wexp = Ok t)
    (Ht : target_token target = token t)
    (Hv : trusts (invocation_auth svc) i (invocation_audience i))
    (Hpurpose : purpose (invocation_auth svc) = Invocation)
    (Hh : starts_with (service_host_id svc) ("host.v1." +:+ namespace_id (si_actor invocation) +:+ ".") = true)
    (Hs : uuid_ok s = true)
    (Hurl : url_fits (target_state_version target) (target_state_read_url target))
    (Hne : target_state_version target <> 0%Z -> target_state_read_url target <> "")
    (Hd : (issued_ms / 1000 - 5 <= decode_at)%Z) (Hd' : (decode_at * 1000 <= token_expires_at_ms t)%Z)
    (Hnow : (issued_ms / 1000 - 5 <= now_ms / 1000)%Z)
    (Hnow' : (now_ms / 1000 * 1000 < token_expires_at_ms t)%Z)
    (Hdocs : documents_survive invocation) (Hstate : si_state invocation = None)
    (Heffects : forall effects, outcome = Ok (SocketHandled effects) ->
       (exists b, value_to_vec Null = Ok b /\ value_from_slice b = Ok Null) /\
       (exists b, effects_to_vec effects = Ok b /\ effects_from_slice b = Ok effects))
    (Hconnect : connect (target_route target) = Ok tt)
    (Hparse : parse_metadata ("Bearer " +:+ target_token target) = Ok tt)
    (Hrun : handle_socket_event invocation (target_owner_epoch target) (target_state_version target)
              (target_state_read_url target) h = (h', outcome)) :
  send_socket_event svc decode_at (Some now_ms) target invocation h =
    (h', seen_by_control_plane outcome) /\
  seen_by_control_plane outcome <> Ok Reroute /\ seen_by_control_plane outcome <> Ok HostUnavailable.
Proof.
  split; [| destruct outcome as [[] |]; by split].
  edestruct (issued_target_admitted i svc issued_ms now_ms decode_at)
    as (p & Hp & _ & Ha & Hvalid); [eassumption.. |].
  destruct (request_decodes target invocation) as (request & Hreq & Hdec & Ee & Eu & Ev); [done.. |].
  unfold send_socket_event, handle_socket, mbind, M_bind, lift, attempt, mret, M_ret.
  rewrite Hconnect, Hreq, Hparse. cbn [map_err metadata HostService.decode_at HostService.elapsed].
  rewrite Ht. unfold authenticate at 1. rewrite Hp. cbn [map_err].
  rewrite Hdec. cbn [invalid_argument map_err]. rewrite Ee, Eu, Ev, Hvalid, Hrun.
  destruct outcome as [[effects | failure |] | e]; try done; [| by destruct failure].
  destruct (Heffects effects eq_refl) as [(b & Hb & Hb') (c & Hc & Hc')].
  unfold reply_of_result. simpl. rewrite Hb, Hc. simpl. unfold result_of_reply. simpl.
  by rewrite Hb', Hc'.
Qed.

(** Against such hosts the second attempt of [dispatch_socket_event] is never made. *)
Lemma dispatch_never_reroutes {E : Surroundings} {Signer : UrlSigner} (service : ControlPlaneService)
    (send : nat -> WorkflowActorTarget -> ActorSocketInvocation -> anyhow ActorExecutionResult)
    (fuel : nat) (principal : ActorPrincipal) (invocation : ActorSocketInvocation) st :
  (forall n target, send n target invocation <> Ok Reroute /\
                    send n target invocation <> Ok HostUnavailable) ->
  dispatch_socket_event service send fuel principal invocation st =
  dispatch_attempts service send [0] fuel principal invocation st.
Proof.
  intros Hsend. unfold dispatch_socket_event. simpl. unfold mbind, M_bind.
  destruct (socket_target _ _ _ _ st) as [st1 [[target |] |]]; [| done..].
  unfold on_pg, at_time. simpl.
  match goal with |- context [send ?n target invocation] => pose proof (Hsend n target) as [H1 H2] end.
  by destruct (send _ target invocation) as [[] |].
Qed.
End Delivery.

(** ** A delivered event *)

Section Sample.
#[local] Existing Instance sample_env.

(** A wire that spells one event, of sockets that are gone, and no effects. *)
Definition sample_socket_event : ActorSocketInvocation (J := text_json) :=
  {| si_request_id := "req-2"; si_actor := Tokens.sample_actor; si_event := Message "c" (Text "hi");
     si_connections := []; si_state := None |}.
#[local] Instance event_wire : WireSerde text_json := {|
  args_to_vec _ := Err ["not spelled"];
  args_from_slice _ := Err ["not spelled"];
  value_from_slice b := Ok (text_of b);
  effects_to_vec l := match l with [] => Ok [] | _ => Err ["not spelled"] end;
  effects_from_slice b := match b with [] => Ok [] | _ => Err ["not spelled"] end;
  event_to_vec _ := Ok [Byte.x6d];
  event_from_slice _ := Ok (si_event sample_socket_event);
  connections_to_vec l := match l with [] => Ok [] | _ => Err ["not spelled"] end;
  connections_from_slice b := match b with [] => Ok [] | _ => Err ["not spelled"] end;
|}.
#[local] Instance sample_base64 : Base64 := {| base64_decode _ := Err ["not spelled"] |}.

(** The actor's first event: it has no state yet. *)
Definition fresh_target : anyhow IssuedActorToken :=
  issue_invocation_target sample_issuer (Some 1000000%Z) Tokens.sample_actor Tokens.sample_host
    sample_session "r1" "eu" 3 0 "" 5000.
Definition target_of (t : IssuedActorToken) : WorkflowActorTarget :=
  {| target_route := "http://a"; target_token := token t; target_owner_epoch := 3;
     target_state_version := 0; target_state_read_url := ""; target_expires_at_ms := 60000 |}.
Definition sample_delivery (t : IssuedActorToken) :=
  send_socket_event (fun _ => Ok tt) (fun _ => Ok tt) (fun s => [status_message s]) ["closed"]
    sample_service 1030 (Some 1030500%Z) (target_of t) sample_socket_event serving_host.

Lemma socket_event_delivered_witness :
  exists t h, fresh_target = Ok t /\ sample_delivery t = (h, Ok (Completed (J := text_json) "null" [])).
Proof.
  destruct fresh_target as [t |] eqn:E; [| vm_compute in E; discriminate].
  assert (Ht : token_expires_at_ms t = 1060000%Z).
  { unfold fresh_target in E. vm_compute in E. injection E as <-. reflexivity. }
  destruct (handle_socket_event (J := text_json) sample_socket_event 3 0 "" serving_host)
    as [h outcome] eqn:H.
  assert (Ho : outcome = Ok (SocketHandled (J := text_json) [])).
  { change outcome with (h, outcome).2. rewrite <- H. vm_compute. reflexivity. }
  exists t, h. split; [reflexivity |]. unfold sample_delivery.
  rewrite (proj1 (socket_event_delivered (fun _ => Ok tt) (fun _ => Ok tt) (fun s => [status_message s])
    ["closed"] sample_issuer sample_service 1000000 1030500 1030 sample_session "r1" "eu" 5000 t
    (target_of t) sample_socket_event serving_host h outcome
    ltac:(lia) ltac:(vm_compute; split; discriminate) E eq_refl
    ltac:(split; [exists "key"; split; reflexivity | reflexivity]) eq_refl eq_refl eq_refl
    ltac:(left; split; reflexivity) ltac:(intros Hz; destruct Hz; reflexivity)
    ltac:(vm_compute; discriminate) ltac:(rewrite Ht; vm_compute; discriminate)
    ltac:(vm_compute; discriminate) ltac:(rewrite Ht; vm_compute; reflexivity)
    ltac:(split; eexists; split; reflexivity) eq_refl
    ltac:(rewrite Ho; intros effects He; injection He as <-; split; eexists; split; reflexivity)
    eq_refl eq_refl H)).
  rewrite Ho. reflexivity.
Defined.
End Sample.
